(* ===== verification/_CoqProject ===== *)
-Q . S2P
Prelude.v
RustStd.v
Config.v
Http.v
Directives.v
Policy.v
Moka.v
Store.v
StoreInvariant.v
Examples.v
StoreTheorems.v
StoreSpec.v
StoreConcurrency.v
RefreshGuards.v
Coalesce.v
Upstream.v
Body.v
Provenance.v
Metrics.v
MetricLabels.v
Response.v
Assets.v
Tasks.v
StoreTasks.v
Proxy.v
TaskLogic.v
ProxyAccounts.v
ProxyAnswers.v
ProxyExamples.v
ProxyStoring.v
ProxySharing.v
ProxyRequests.v
ProxyReturns.v
Ownership.v
AssetTasks.v
Reports.v
System.v
App.v
UnitTests.v
