(* ===== verification/Prelude.v ===== *)
(** * Shadowstep: a verified model of the edge cache

    Shadowstep is a caching reverse proxy. A client's request either names a
    local asset, asks for the health report or the metrics, or goes to the
    proxy handler. The handler answers from the store when it may, joins the
    flight of an equal request when there is one, and otherwise sends the
    request to the origin, passes the answer on, and keeps a copy of it when
    the rules of this cache, which are stricter than RFC 9111's, let it. Source paths below are relative to the
    crate, [src/] of the repository.

    ** Files and what they model

    - [Prelude]: panics, machine integers, [Duration], [Instant], shared
      lemmas, hints and tactics. [RustStd]: [str], [u64] and [Vec] functions of
      the standard library on byte strings. [Config] ([config.rs]): flags,
      variables and defaults, read by clap.
    - [Http]: the [http], [httpdate] and actix types as the class [HttpOps]
      with the laws [HttpLaws]. [Moka]: the cache crate as [MokaOps] and
      [MokaLaws].
    - [Directives], [Policy], [Store] ([cache.rs]): [Directives] parses
      [Cache-Control]; [Policy] has [RequestPolicy], [storable], [StaleRules]
      and [Vary]; [Store] has the keys, [StoredResponse] and every method of
      [Store]. A method that mutates the store returns the store after it.
    - [StoreInvariant], [StoreTheorems], [StoreSpec], [StoreConcurrency],
      [RefreshGuards]: theorems about the store. [wf_store] is the invariant; [store_step]
      lists the operations of one caller; [StoreSpec] has the abstract
      specification, a map from URIs to families of variants, and the
      simulation; [cstep] of [StoreConcurrency] lets the single accesses of
      any callers' [insert_response]s and [lookup]s interleave;
      [refresh_step] follows the guards of background revalidations.
      [Examples] has the exchange the examples use.
    - [Coalesce] ([coalesce.rs]): [join], the two steps of a guard's drop, and
      when a waiter returns; [flight_step] is what the workers may do.
    - [Upstream] ([forwarded.rs], the header handling of [proxy.rs]): the
      client's identity, the origin request's fields, and the response's
      fields for the client and for the store.
    - [Body] (the streams of [proxy.rs]): [Tee], [IdleTimeout] and the pump of
      the client's body, one poll at a time. [stream_body] and [collect_polls]
      of [Proxy] poll them at the times of the clock, so that a panic of a poll
      is one of the proxy.
    - [Provenance]: where stored responses come from. [sound_by] says that
      everything stored came from an exchange that [storable] let in, under
      its own URI and [Vary] values, with the whole body that the origin sent
      in that exchange ([OriginLog]), given who owns each generation, or, for
      an asset, from the file of its path; every access to the store keeps it.
    - [Metrics] ([metrics.rs]), [MetricLabels] (the type of the metrics: which
      labels each counter has), [Response] (actix's responses), [Assets]
      ([assets.rs]: the paths; [AssetTasks] below has the handler).
    - [Tasks]: the state workers share, and the monad [Task] of programs on
      it: a program returns, panics, is cancelled, takes a step or awaits.
      [StoreTasks]: the methods of [Store] that access it more than once, such
      as [Store::lookup] and [Store::freshen], as tasks, access by access; alone, they are the methods
      of [Store] ([accesses_compose]). [Proxy] ([proxy.rs]): the handler and
      the background revalidation as tasks, function by function.
      [TaskLogic]: the rules by which theorems about tasks are proved, as
      predicates that recurse on the program: [spec] for what it does
      whatever its steps find, and [rspec] for an invariant of the store that
      the others keep and the task must keep, given what is known of the
      store, which only grows ([Ghost]), so that an access can rely on what
      an earlier one found; [returns] of [ProxyReturns] and [owns] of
      [Ownership] are such predicates too. [ProxyAccounts], [ProxyAnswers], [ProxyStoring],
      [ProxySharing], [ProxyRequests], [ProxyReturns]: the theorems about the
      handler, and [ProxyExamples] its runs on the reference implementations.
    - [AssetTasks] ([assets.rs]): the handler of assets as a task, with an
      await at each call to the file system. [Reports] ([lib.rs], and
      [Metrics::encode] of [metrics.rs]): the reports of health and metrics as
      tasks.
    - [Ownership], [System]: the whole proxy. A [World] is the shared state and
      any number of threads, each a handler of the proxy or of assets, or a
      detached task (a response's stream on its way to a client, a background
      revalidation, a report); [world_step] is one step of one
      thread, the arrival of a request of any kind, or the cache's own tidying.
    - [App] ([tls.rs], [lib.rs], [main.rs]): listeners, state, routes, and the
      start from the command line to the servers.
    - [UnitTests] (the [tests] modules of [cache.rs], [coalesce.rs],
      [forwarded.rs], [assets.rs] and [metrics.rs]): the program's own tests,
      run on the model.

    ** How state and effects are modelled

    A [Run] is a value or a panic, which ends the process ([panic = "abort"]).
    An [Arc] carries the address of its allocation, because [Store::freshen]
    compares addresses with [Arc::ptr_eq]. [HashMap]s and [HashSet]s are
    [gmap]s and [gset]s. A [watch] channel is its number and whether its
    sender is alive. The callback that [Tee] owns is a value ([Finish]) whose
    call and whose drop are recorded.

    A [Task] takes the shared state through one step per access, clock reading
    or await. [run] executes it in an environment [Env], which changes the
    shared state before each step, as the other workers do, and may cancel the
    task at an await, as actix does when a client goes away. So a theorem about
    every [Env] covers every interleaving of the accesses. An access is one
    call of a cache ([get], [insert], [invalidate], [run_pending_tasks]), of
    the generation counter, of the refreshing set, of the map of flights or of
    a [watch] channel, or one group of counter updates. The trace of a task lists what it did: flights led and released,
    what was found in the cache, origin requests, insertions, invalidations,
    and the counted response. In a
    [World] the others are tasks as well, so nothing is assumed of them. An
    await says when what it awaits is there; it may be given up before, by a
    timeout or a cancellation, except where [work_ends] excludes that.

    ** Interfaces

    Code outside the repository is a class of operations, with a class of laws
    where theorems need its documented behaviour: [HttpOps]/[HttpLaws],
    [MokaOps]/[MokaLaws], [HyperOps]/[HyperLaws] (hyper's request builder),
    [PromOps]/[PromLaws] (prometheus) and [ClapOps]/[ClapLaws] (clap). Each has
    a reference implementation that satisfies every law ([RefHttp], [RefMoka],
    [RefHyper], [RefProm], [RefClap]), on which the examples run. The records
    [TlsOps], [StateOps], [FsCalls] and [Peers] hold what the system, actix, the
    origin and the clients answer. Of tokio's timers a parameter says when a
    [Sleep] has ended; a second one says what [http_body_util::Limited] makes of
    the items of a body that the polls brought.

    ** What the theorems show

    - The whole proxy ([System], [ProxySharing]): with any number of requests
      at once, interleaved access by access, whatever the cache serves was stored for the same URI and
      [Vary] values, without cookies, with [public] if it answered
      credentials, and with the whole body of its exchange; an asset request
      gets what was read from the file of its own path; and when no
      request arrives, the work ends under every scheduling, without a
      deadlock of followers and leaders, with each request answered once
      unless its client left, and leaves no flight and no revalidation mark
      behind. It does not panic either, as long as the ages that origins
      announce and the upstream timeout overflow at no time that the clock
      shows.
    - The handler ([ProxyAnswers], [ProxyStoring], [ProxyAccounts]), in every
      interleaving: stale responses only within a window that response and
      request allow; hits and coalesced answers only from lookups that found
      a fresh response; every answer a usable stored response, the origin's
      answer, or the one error that fits what went wrong; only storable exchanges stored, under the
      request's own key; invalidation exactly after successful unsafe
      requests; at most one origin request per client request, its flight
      released once on every path, when the outcome is known, its response
      counted once.
    - The handler returns ([ProxyReturns]): in at most 53 steps, the stream of
      its response in 7 and 2 for each poll, and its background revalidation
      in 18 and 2 for each poll, without a panic on the same conditions. What
      it sends ([ProxyRequests]): the client's end-to-end fields, and the
      validators of the stale response that the last look at the cache found,
      exactly where the client set no preconditions or where they replace
      them.
    - The policy ([Policy], [Directives]): [storable] accepts exactly the
      exchanges its rules allow, with the lifetime, age and stale windows that
      relations on the fields, stated apart from the code, give; when requests bypass the cache and which
      lead or follow a flight; directive lists round trip through the parser;
      the loop over string indices equals splitting by recursion.
    - The store: bounds on size and lifetime of every response and asset in
      every reachable store; stored
      responses are found again by matching requests; invalidation; variants;
      what a 304 does; that every run of it is one of the abstract map
      ([StoreSpec]); that the accesses of a method, made one by one without
      interference, are the method ([StoreTasks]); and, with all accesses
      interleaved, that a lookup finds only what was stored for its URI and
      its [Vary] values.
    - Coordination: one leader per key, no lost wake-up and no follower of a
      finished flight; one background revalidation per stored response.
    - Messages: end-to-end fields and nothing else cross the proxy; [Tee]
      copies whole bodies only; an idle body is given up once; the client's
      body arrives in order.
    - Assets stay inside the asset directory, and a stored one is served only
      while the file's time and length are unchanged; every metric is the
      number of its events; routes, listeners and the started process follow
      the configuration, and starting panics for one kind of configuration
      only; the metrics have only the declared series; the configuration is what flags,
      variables and defaults say; and the program's unit tests pass.

    ** Bounds, fuel and assumptions

    No definition uses fuel: loops are structural in the text, the header list
    or the sequence of polls. Every task is a finite sequence of steps, and
    [ProxyReturns] bounds it. The work of a [World] is well founded because
    spawned revalidations spawn nothing. A poll sequence is finite, as far as one has
    observed the stream, and a body may take any number of polls. [u64] and [u32] are [N] with saturation, wrap-around
    or a panic written out where the code has them, and a [Duration] counts
    nanoseconds up to its maximum. An access to the store reads the clock once:
    a response is made and inserted at the same instant.
    Addresses of [Arc]s are not reused, and atomic accesses are sequentially
    consistent. Where the 64-bit generation counter matters, a theorem assumes
    that it has not run out. [usize] has 64 bits.

    ** What modelling showed

    - [stale_age_panics]: an origin [Age] near 2^64 makes the handler panic
      when the stored response is served stale.
    - [huge_idle_panics]: so does an upstream timeout of 2^63 seconds, at the
      first poll of an origin body.
    - [long_ttl_panics]: a cache TTL above 500 years, which the configuration
      accepts, panics in moka's [build] at the start.
    - [invalidate_race]: an insertion that runs at the same time as
      [Store::invalidate] makes invalidated variants reachable again.
    - [freshen_race]: a 304 overwrites a newer response that was stored between
      two accesses of [Store::freshen].
    - [hit_ratio_counts_background]: the health report's hit ratio counts
      background revalidations, which answer no request.

    ** Not modelled

    Logging; the compression and access-log middleware; the insides of clap;
    rustls, hyper's connections and the thread pool; the text form of the
    metrics; the unit tests of [tls.rs], which test rustls on key files, the
    integration tests and the deployment files. None of them changes the state
    modelled here. *)

From stdpp Require Import base tactics option list gmap strings.

(** ** Rust evaluation: a value, or a panic

    The release profile of [Cargo.toml] sets [panic = "abort"], so [Panic]
    is the end of the whole process. *)

Inductive Run (A : Type) : Type :=
| Done (a : A)
| Panic.
Arguments Done {_} _.
Arguments Panic {_}.

#[export] Instance Run_ret : MRet Run := fun A a => Done a.
#[export] Instance Run_bind : MBind Run := fun A B f m =>
  match m with Done a => f a | Panic => Panic end.
#[export] Instance Run_fmap : FMap Run := fun A B f m =>
  match m with Done a => Done (f a) | Panic => Panic end.

Lemma Run_bind_Done {A B} (m : Run A) (f : A -> Run B) (b : B) :
  m ≫= f = Done b <-> exists a, m = Done a /\ f a = Done b.
Proof. destruct m; simpl; naive_solver. Qed.

Lemma Run_bind_Panic {A B} (m : Run A) (f : A -> Run B) :
  m ≫= f = Panic <-> m = Panic \/ exists a, m = Done a /\ f a = Panic.
Proof. destruct m; simpl; naive_solver. Qed.

(** ** Machine integers

    A [u64] or [u32] is an [N] with its bound written out, and [usize] is
    the 64-bit one of the targets that the images are built for. *)

Local Open Scope N_scope.

Definition u64_MAX : N := 2 ^ 64 - 1.
Definition u32_MAX : N := 2 ^ 32 - 1.
Definition i64_MAX : N := 2 ^ 63 - 1.

Definition u64_saturating_mul (a b : N) : N := N.min (a * b) u64_MAX.

(** [AtomicU64::fetch_add(1)] wraps around. *)
Definition u64_wrapping_succ (a : N) : N := (a + 1) mod 2 ^ 64.

(** [u32::try_from(n).unwrap_or(u32::MAX)] *)
Definition u32_or_max (n : N) : N := if n <=? u32_MAX then n else u32_MAX.

(** [i64::try_from(n).unwrap_or(i64::MAX)] *)
Definition i64_or_max (n : N) : N := if n <=? i64_MAX then n else i64_MAX.

Lemma u64_wrapping_succ_small a : a < u64_MAX -> u64_wrapping_succ a = a + 1.
Proof. unfold u64_wrapping_succ, u64_MAX. intros H. apply N.mod_small. lia. Qed.

(** ** [std::time]

    A [Duration] counts nanoseconds. Rust keeps whole seconds in a [u64] and
    the rest in a [u32] below 10^9, so the largest one is [Duration_MAX]. *)

Abbreviation Duration := N (only parsing).
Abbreviation Instant := N (only parsing).
(** nanoseconds since the Unix epoch, which may be negative *)
Abbreviation SystemTime := Z (only parsing).

Definition NANOS : N := 10 ^ 9.
Definition Duration_MAX : Duration := u64_MAX * NANOS + (NANOS - 1).
Definition Duration_ZERO : Duration := 0.

Definition Duration_from_secs (secs : N) : Duration := secs * NANOS.
Definition Duration_as_secs (d : Duration) : N := d / NANOS.

(** the operator [+], which is [checked_add(..).expect(..)] *)
Definition Duration_add (a b : Duration) : Run Duration :=
  if a + b <=? Duration_MAX then Done (a + b) else Panic.
Definition Duration_saturating_add (a b : Duration) : Duration :=
  N.min (a + b) Duration_MAX.
Definition Duration_saturating_mul (a k : N) : Duration :=
  N.min (a * k) Duration_MAX.
Definition Duration_checked_sub (a b : Duration) : option Duration :=
  if b <=? a then Some (a - b) else None.
Definition Duration_is_zero (d : Duration) : bool := d =? 0.

(** [Instant::elapsed] at time [now], which saturates at zero *)
Definition Instant_elapsed (now since : Instant) : Duration := now - since.

(** the largest [Instant] where the standard library keeps seconds in an [i64] *)
Definition Instant_MAX : Instant := i64_MAX * NANOS + (NANOS - 1).
(** [Instant + Duration], which panics on overflow *)
Definition Instant_add (now : Instant) (d : Duration) : Run Instant :=
  if now + d <=? Instant_MAX then Done (now + d) else Panic.

(** [SystemTime::duration_since(earlier).ok()] *)
Definition SystemTime_duration_since (later earlier : SystemTime) : option Duration :=
  if (earlier <=? later)%Z then Some (Z.to_N (later - earlier)) else None.

Lemma Duration_add_Done a b c :
  Duration_add a b = Done c <-> c = a + b /\ a + b <= Duration_MAX.
Proof.
  unfold Duration_add. destruct (N.leb_spec (a + b) Duration_MAX); split;
    intros; naive_solver lia.
Qed.

Lemma Duration_add_Panic a b : Duration_add a b = Panic <-> Duration_MAX < a + b.
Proof.
  unfold Duration_add. destruct (N.leb_spec (a + b) Duration_MAX); split;
    intros; naive_solver lia.
Qed.

Lemma Instant_add_Done now d t :
  Instant_add now d = Done t <-> t = now + d /\ now + d <= Instant_MAX.
Proof.
  unfold Instant_add. destruct (N.leb_spec (now + d) Instant_MAX); split;
    intros; naive_solver lia.
Qed.

Lemma Duration_checked_sub_Some a b c :
  Duration_checked_sub a b = Some c <-> b <= a /\ a = b + c.
Proof.
  unfold Duration_checked_sub. destruct (N.leb_spec b a); split;
    intros; simplify_eq; try (split; lia); try (f_equal; lia); lia.
Qed.

Lemma Duration_checked_sub_None a b :
  Duration_checked_sub a b = None <-> a < b.
Proof.
  unfold Duration_checked_sub. destruct (N.leb_spec b a); split;
    intros; simplify_eq; try lia; done.
Qed.

Lemma Duration_from_secs_max secs :
  secs <= u64_MAX -> Duration_from_secs secs <= Duration_MAX.
Proof. unfold Duration_from_secs, Duration_MAX, NANOS. lia. Qed.

Lemma Duration_as_from_secs secs : Duration_as_secs (Duration_from_secs secs) = secs.
Proof. unfold Duration_as_secs, Duration_from_secs. apply N.div_mul. done. Qed.

(** ** Lists and options *)

Definition is_none_or {A} (o : option A) (f : A -> bool) : bool :=
  match o with Some a => f a | None => true end.
Definition is_some_and {A} (o : option A) (f : A -> bool) : bool :=
  match o with Some a => f a | None => false end.
Definition unwrap_or {A} (o : option A) (a : A) : A := default a o.
Definition is_some {A} (o : option A) : bool :=
  match o with Some _ => true | None => false end.
Definition is_none {A} (o : option A) : bool := negb (is_some o).

Lemma is_none_or_true {A} (o : option A) f :
  is_none_or o f = true <-> forall a, o = Some a -> f a = true.
Proof. destruct o; simpl; naive_solver. Qed.

Lemma is_some_and_true {A} (o : option A) f :
  is_some_and o f = true <-> exists a, o = Some a /\ f a = true.
Proof. destruct o; simpl; naive_solver. Qed.

Lemma existsb_elem {A} (f : A -> bool) l :
  existsb f l = true <-> exists x, x ∈ l /\ f x = true.
Proof.
  rewrite existsb_exists. setoid_rewrite list_elem_of_In. done.
Qed.

Lemma existsb_not_elem {A} (f : A -> bool) l :
  existsb f l = false <-> forall x, x ∈ l -> f x = false.
Proof.
  rewrite <- not_true_iff_false, existsb_elem. split.
  - intros H x Hx. apply not_true_iff_false. eauto.
  - intros H [x [Hx Hf]]. rewrite (H x Hx) in Hf. done.
Qed.

Lemma existsb_false_elem {A} (f : A -> bool) l x :
  existsb f l = false -> x ∈ l -> f x = false.
Proof. rewrite existsb_not_elem. auto. Qed.

Lemma filter_idemp {A} (f : A -> bool) l :
  List.filter f (List.filter f l) = List.filter f l.
Proof.
  induction l as [|x l IH]; [done|]. simpl.
  destruct (f x) eqn:E; [|done]. simpl. by rewrite E, IH.
Qed.

Lemma filter_none {A} (f : A -> bool) l :
  (forall x, x ∈ l -> f x = false) -> List.filter f l = [].
Proof.
  induction l as [|x l IH]; intros H; [done|]. simpl.
  rewrite (H x) by left. apply IH. intros y Hy. apply H. by right.
Qed.

Lemma elem_of_filter_bool {A} (f : A -> bool) l x :
  x ∈ List.filter f l <-> x ∈ l /\ f x = true.
Proof. by rewrite !list_elem_of_In, filter_In. Qed.

Lemma existsb_eqb (s : string) l : existsb (String.eqb s) l = true <-> s ∈ l.
Proof.
  rewrite existsb_elem. setoid_rewrite String.eqb_eq. naive_solver.
Qed.

Lemma filter_sublist {A} (f : A -> bool) l : List.filter f l `sublist_of` l.
Proof.
  induction l as [|x l IH]; simpl; [constructor|]. destruct (f x); by constructor.
Qed.

(** ** Automation *)

Create HintDb shadowstep.
Create HintDb headers.

#[export] Hint Rewrite @is_none_or_true @is_some_and_true @existsb_elem
  andb_true_iff orb_true_iff negb_true_iff N.eqb_eq N.leb_le N.ltb_lt
  String.eqb_eq bool_decide_eq_true : shadowstep.
#[export] Hint Resolve Duration_from_secs_max : shadowstep.

(** turns boolean tests in the hypotheses and the goal into propositions *)
Ltac bools := autorewrite with shadowstep in *.

(** unfolds one definition in a hypothesis and splits on its matches, closing
    the branches whose equations clash *)
Ltac invert_match H :=
  repeat (case_match; simplify_eq/=; try discriminate); try done.
