(* ===== verification/RustStd.v ===== *)
(** The parts of Rust's [str], [String], [u64] and [Vec] that the program
    uses, on byte strings: a Rocq [string] is the UTF-8 bytes of a [&str] or
    the bytes of a [HeaderValue]. Each function is the standard library's
    documented one; the lemmas are those the components need. *)

From stdpp Require Import base tactics option list gmap strings sorting.
From Stdlib Require Import Ascii DecimalString DecimalN.
From S2P Require Import Prelude.

Local Open Scope N_scope.

(** ** Bytes *)

Definition byte_in (lo hi : N) (c : ascii) : bool :=
  (lo <=? N_of_ascii c) && (N_of_ascii c <=? hi).

(** [u8::is_ascii_digit] *)
Definition is_ascii_digit (c : ascii) : bool := byte_in 48 57 c.

Definition ascii_lower (c : ascii) : ascii :=
  if byte_in 65 90 c then ascii_of_N (N_of_ascii c + 32) else c.

Fixpoint string_map (f : ascii -> ascii) (s : string) : string :=
  match s with
  | EmptyString => EmptyString
  | String c s => String (f c) (string_map f s)
  end.

(** [s.bytes().all(f)] *)
Fixpoint string_all (f : ascii -> bool) (s : string) : bool :=
  match s with
  | EmptyString => true
  | String c s => f c && string_all f s
  end.

Definition is_empty (s : string) : bool :=
  match s with EmptyString => true | String _ _ => false end.

(** [str::len], in bytes *)
Definition str_len (s : string) : N := N.of_nat (String.length s).

(** [str::to_ascii_lowercase] *)
Definition to_ascii_lowercase : string -> string := string_map ascii_lower.

(** ** Splitting *)

(** [str::split(c)] for an ASCII character: always at least one part *)
Fixpoint str_split (sep : ascii) (s : string) : list string :=
  match s with
  | EmptyString => [EmptyString]
  | String c s =>
      if Ascii.eqb c sep then EmptyString :: str_split sep s
      else match str_split sep s with
           | [] => [String c EmptyString]
           | p :: ps => String c p :: ps
           end
  end.

(** [str::split_once(c)] *)
Fixpoint split_once (sep : ascii) (s : string) : option (string * string) :=
  match s with
  | EmptyString => None
  | String c s =>
      if Ascii.eqb c sep then Some (EmptyString, s)
      else match split_once sep s with
           | Some (a, b) => Some (String c a, b)
           | None => None
           end
  end.

(** [str::strip_prefix(c)] *)
Definition strip_prefix (c : ascii) (s : string) : option string :=
  match s with
  | String c' s => if Ascii.eqb c' c then Some s else None
  | EmptyString => None
  end.

(** [str::strip_suffix(c)] *)
Fixpoint strip_suffix (c : ascii) (s : string) : option string :=
  match s with
  | EmptyString => None
  | String c' EmptyString => if Ascii.eqb c' c then Some EmptyString else None
  | String c' s => String c' <$> strip_suffix c s
  end.

(** [str::trim_end_matches(c)] *)
Fixpoint trim_end_matches (c : ascii) (s : string) : string :=
  match s with
  | EmptyString => EmptyString
  | String c' s =>
      match trim_end_matches c s with
      | EmptyString => if Ascii.eqb c' c then EmptyString else String c' EmptyString
      | s' => String c' s'
      end
  end.

(** [&s[start..end]] *)
Definition str_slice (s : string) (first last : nat) : string :=
  String.substring first (last - first) s.

(** [Vec<String>::join] *)
Definition str_join (sep : string) (l : list string) : string := String.concat sep l.

(** ** [str::trim], which drops Unicode white space *)

(** one-byte white space: U+0009 to U+000D and U+0020 *)
Definition white1 (a : ascii) : bool := byte_in 9 13 a || byte_in 32 32 a.
(** U+0085 and U+00A0 *)
Definition white2 (a b : ascii) : bool :=
  byte_in 194 194 a && (byte_in 133 133 b || byte_in 160 160 b).
(** U+1680, U+2000 to U+200A, U+2028, U+2029, U+202F, U+205F and U+3000 *)
Definition white3 (a b c : ascii) : bool :=
  (byte_in 225 225 a && byte_in 154 154 b && byte_in 128 128 c) ||
  (byte_in 226 226 a && byte_in 128 128 b &&
     (byte_in 128 138 c || byte_in 168 169 c || byte_in 175 175 c)) ||
  (byte_in 226 226 a && byte_in 129 129 b && byte_in 159 159 c) ||
  (byte_in 227 227 a && byte_in 128 128 b && byte_in 128 128 c).

Section trim_with.
Variables (w1 : ascii -> bool) (w2 : ascii -> ascii -> bool)
  (w3 : ascii -> ascii -> ascii -> bool).

Fixpoint trim_start_with (s : string) : string :=
  match s with
  | EmptyString => EmptyString
  | String a s1 =>
      if w1 a then trim_start_with s1 else
      match s1 with
      | EmptyString => s
      | String b s2 =>
          if w2 a b then trim_start_with s2 else
          match s2 with
          | EmptyString => s
          | String c s3 => if w3 a b c then trim_start_with s3 else s
          end
      end
  end.
End trim_with.

Definition trim_start : string -> string := trim_start_with white1 white2 white3.
Definition trim_end (s : string) : string :=
  String.rev (trim_start_with white1 (fun b a => white2 a b)
    (fun c b a => white3 a b c) (String.rev s)).
Definition trim (s : string) : string := trim_end (trim_start s).

(** ** [String::from_utf8_lossy]

    Each maximal run of bytes that starts a character and cannot be completed
    becomes one U+FFFD. *)

Definition replacement (rest : string) : string :=
  String (ascii_of_N 239) (String (ascii_of_N 191) (String (ascii_of_N 189) rest)).

Definition continuation (c : ascii) : bool := byte_in 128 191 c.

(** the second byte that may follow [a], the first of three *)
Definition second_of_three (a b : ascii) : bool :=
  (byte_in 224 224 a && byte_in 160 191 b) ||
  (byte_in 225 236 a && byte_in 128 191 b) ||
  (byte_in 237 237 a && byte_in 128 159 b) ||
  (byte_in 238 239 a && byte_in 128 191 b).

(** the second byte that may follow [a], the first of four *)
Definition second_of_four (a b : ascii) : bool :=
  (byte_in 240 240 a && byte_in 144 191 b) ||
  (byte_in 241 243 a && byte_in 128 191 b) ||
  (byte_in 244 244 a && byte_in 128 143 b).

Fixpoint from_utf8_lossy (s : string) : string :=
  match s with
  | EmptyString => EmptyString
  | String a s1 =>
      if byte_in 0 127 a then String a (from_utf8_lossy s1)
      else if byte_in 194 223 a then
        match s1 with
        | String b s2 =>
            if continuation b then String a (String b (from_utf8_lossy s2))
            else replacement (from_utf8_lossy s1)
        | EmptyString => replacement EmptyString
        end
      else if byte_in 224 239 a then
        match s1 with
        | String b s2 =>
            if second_of_three a b then
              match s2 with
              | String c s3 =>
                  if continuation c
                  then String a (String b (String c (from_utf8_lossy s3)))
                  else replacement (from_utf8_lossy s2)
              | EmptyString => replacement EmptyString
              end
            else replacement (from_utf8_lossy s1)
        | EmptyString => replacement EmptyString
        end
      else if byte_in 240 244 a then
        match s1 with
        | String b s2 =>
            if second_of_four a b then
              match s2 with
              | String c s3 =>
                  if continuation c then
                    match s3 with
                    | String d s4 =>
                        if continuation d
                        then String a (String b (String c (String d (from_utf8_lossy s4))))
                        else replacement (from_utf8_lossy s3)
                    | EmptyString => replacement EmptyString
                    end
                  else replacement (from_utf8_lossy s2)
              | EmptyString => replacement EmptyString
              end
            else replacement (from_utf8_lossy s1)
        | EmptyString => replacement EmptyString
        end
      else replacement (from_utf8_lossy s1)
  end.

(** ** [u64] as decimal text *)

Fixpoint digits_value (acc : N) (s : string) : option N :=
  match s with
  | EmptyString => Some acc
  | String c s =>
      if is_ascii_digit c then digits_value (10 * acc + (N_of_ascii c - 48)) s
      else None
  end.

(** [str::parse::<u64>().ok()]: one or more digits after an optional [+], and
    no overflow *)
Definition u64_from_str (s : string) : option N :=
  let digits := match s with
                | String c s' => if Ascii.eqb c "+" then s' else s
                | EmptyString => s
                end in
  if is_empty digits then None
  else match digits_value 0 digits with
       | Some n => if n <=? u64_MAX then Some n else None
       | None => None
       end.

(** [u64::to_string] *)
Definition u64_to_string (n : N) : string := NilZero.string_of_uint (N.to_uint n).

(** ** [Vec] *)

(** [a.as_str().cmp(b.as_str()) != Ordering::Greater] *)
Definition str_le (a b : string) : Prop := String.leb a b = true.

#[export] Instance str_le_dec : RelDecision str_le.
Proof. intros a b. unfold str_le. apply _. Defined.

(** [sort_by(|a, b| a.as_str().cmp(b.as_str()))] *)
Definition sort_by_str : list string -> list string := merge_sort str_le.

(** [Vec::dedup] *)
Fixpoint dedup (l : list string) : list string :=
  match l with
  | [] => []
  | x :: l =>
      match dedup l with
      | [] => [x]
      | y :: l' => if String.eqb x y then y :: l' else x :: y :: l'
      end
  end.

(** ** Lemmas on bytes and strings *)

Lemma string_app_cons c s t : (String c s +:+ t)%string = String c (s +:+ t).
Proof. done. Qed.

Lemma string_app_nil_r s : (s +:+ "")%string = s.
Proof. induction s as [|c s IH]; [done|]. by rewrite string_app_cons, IH. Qed.

Lemma string_app_assoc a b c : (a +:+ (b +:+ c))%string = ((a +:+ b) +:+ c)%string.
Proof. induction a as [|x a IH]; [done|]. by rewrite !string_app_cons, IH. Qed.

Lemma string_length_app a b :
  String.length (a +:+ b) = (String.length a + String.length b)%nat.
Proof. induction a as [|c a IH]; [done|]. rewrite string_app_cons. simpl. by rewrite IH. Qed.

Lemma string_all_app f a b :
  string_all f (a +:+ b) = string_all f a && string_all f b.
Proof.
  induction a as [|c a IH]; [done|].
  rewrite string_app_cons. simpl. by rewrite IH, andb_assoc.
Qed.

Lemma string_all_impl (f g : ascii -> bool) s :
  (forall c, f c = true -> g c = true) -> string_all f s = true -> string_all g s = true.
Proof.
  intros Hfg. induction s as [|c s IH]; cbn; [done|].
  rewrite !andb_true_iff. naive_solver.
Qed.

Lemma byte_in_true lo hi c :
  byte_in lo hi c = true <-> lo <= N_of_ascii c /\ N_of_ascii c <= hi.
Proof. unfold byte_in. by rewrite andb_true_iff, !N.leb_le. Qed.

Lemma byte_in_false lo hi c :
  N_of_ascii c < lo \/ hi < N_of_ascii c -> byte_in lo hi c = false.
Proof.
  intros H. apply not_true_iff_false. rewrite byte_in_true. lia.
Qed.

(** an equation on bytes is checked at each of the 256 of them *)
Lemma ascii_forall (P : ascii -> bool) :
  forallb (fun n => P (ascii_of_nat n)) (seq 0 256) = true -> forall c, P c = true.
Proof.
  rewrite forallb_forall. intros HP c.
  rewrite <- (ascii_nat_embedding c). apply HP. apply in_seq.
  pose proof (nat_ascii_bounded c). lia.
Qed.

Ltac by_byte c :=
  let H := fresh in
  revert c;
  match goal with |- forall c, @?P c = true => refine (ascii_forall P _) end;
  vm_compute; reflexivity.

Lemma ascii_lower_idemp c : ascii_lower (ascii_lower c) = ascii_lower c.
Proof. apply Ascii.eqb_eq. by_byte c. Qed.

Lemma to_ascii_lowercase_idemp s :
  to_ascii_lowercase (to_ascii_lowercase s) = to_ascii_lowercase s.
Proof.
  unfold to_ascii_lowercase. induction s as [|c s IH]; [done|].
  simpl. by rewrite ascii_lower_idemp, IH.
Qed.

Lemma string_map_id f s :
  string_all (fun c => Ascii.eqb (f c) c) s = true -> string_map f s = s.
Proof.
  induction s as [|c s IH]; cbn; [done|].
  rewrite andb_true_iff, Ascii.eqb_eq. intros [-> ?]. f_equal. auto.
Qed.

(** *** Reversal *)

Lemma rev_app_spec s t : String.rev_app s t = (String.rev s +:+ t)%string.
Proof.
  unfold String.rev. revert t. induction s as [|c s IH]; intros t; [done|].
  simpl. rewrite IH, (IH (String c "")). by rewrite <- string_app_assoc.
Qed.

Lemma rev_cons c s : String.rev (String c s) = (String.rev s +:+ String c "")%string.
Proof. exact (rev_app_spec s (String c "")). Qed.

Lemma string_rev_app s t :
  String.rev (s +:+ t) = (String.rev t +:+ String.rev s)%string.
Proof.
  induction s as [|c s IH].
  - change (String.rev "") with ""%string. by rewrite string_app_nil_r.
  - by rewrite string_app_cons, !rev_cons, IH, string_app_assoc.
Qed.

Lemma string_rev_involutive s : String.rev (String.rev s) = s.
Proof.
  induction s as [|c s IH]; [done|]. rewrite rev_cons, string_rev_app, IH. done.
Qed.

Lemma string_all_rev f s : string_all f (String.rev s) = string_all f s.
Proof.
  induction s as [|c s IH]; [done|].
  rewrite rev_cons, string_all_app, IH. simpl. by rewrite andb_true_r, andb_comm.
Qed.

(** *** Trimming visible text

    On text below U+0080 only the one-byte white space counts. *)

Definition below_128 (c : ascii) : bool := byte_in 0 127 c.

Lemma below_128_white2 a b : below_128 a = true -> white2 a b = false.
Proof.
  unfold below_128, white2. intros [_ H]%byte_in_true.
  by rewrite (byte_in_false 194) by lia.
Qed.

Lemma below_128_white3 a b c : below_128 a = true -> white3 a b c = false.
Proof.
  unfold below_128, white3. intros [_ H]%byte_in_true.
  by rewrite (byte_in_false 225), (byte_in_false 226), (byte_in_false 227) by lia.
Qed.

Definition starts_solid (s : string) : bool :=
  match s with EmptyString => true | String c _ => below_128 c && negb (white1 c) end.

Lemma trim_start_solid s : starts_solid s = true -> trim_start s = s.
Proof.
  destruct s as [|a s]; [done|]. simpl. rewrite andb_true_iff, negb_true_iff.
  intros [Hb Hw]. unfold trim_start; simpl. rewrite Hw.
  destruct s as [|b s]; [done|]. rewrite (below_128_white2 _ _ Hb).
  destruct s as [|c s]; [done|]. by rewrite (below_128_white3 _ _ _ Hb).
Qed.

Lemma trim_start_white c s : white1 c = true -> trim_start (String c s) = trim_start s.
Proof. intros H. unfold trim_start. simpl. by rewrite H. Qed.

Lemma trim_end_solid s :
  string_all below_128 s = true -> starts_solid (String.rev s) = true -> trim_end s = s.
Proof.
  intros Hall Hs. unfold trim_end. rewrite <- string_all_rev in Hall.
  rewrite <- (string_rev_involutive s) at 2. f_equal.
  destruct (String.rev s) as [|a t]; [done|]. simpl in Hs, Hall.
  rewrite !andb_true_iff in *. rewrite negb_true_iff in Hs.
  destruct Hs as [Ha Hw], Hall as [_ Hall]. simpl. rewrite Hw.
  destruct t as [|b t]; [done|]. simpl in Hall. rewrite andb_true_iff in Hall.
  rewrite (below_128_white2 b a) by apply Hall.
  destruct t as [|c t]; [done|]. simpl in Hall. rewrite andb_true_iff in Hall.
  by rewrite (below_128_white3 c b a) by apply Hall.
Qed.

Lemma trim_solid s :
  string_all below_128 s = true -> starts_solid s = true ->
  starts_solid (String.rev s) = true -> trim s = s.
Proof.
  intros Hall Hs Hr. unfold trim. rewrite trim_start_solid by done.
  by apply trim_end_solid.
Qed.

(** *** Decimal text *)

Section decimal.
Import Decimal.

(** the value of a digit string after [acc] *)
Fixpoint uint_value (acc : N) (d : uint) : N :=
  match d with
  | Nil => acc
  | D0 d => uint_value (10 * acc) d
  | D1 d => uint_value (10 * acc + 1) d
  | D2 d => uint_value (10 * acc + 2) d
  | D3 d => uint_value (10 * acc + 3) d
  | D4 d => uint_value (10 * acc + 4) d
  | D5 d => uint_value (10 * acc + 5) d
  | D6 d => uint_value (10 * acc + 6) d
  | D7 d => uint_value (10 * acc + 7) d
  | D8 d => uint_value (10 * acc + 8) d
  | D9 d => uint_value (10 * acc + 9) d
  end.

Lemma digits_value_uint acc d :
  digits_value acc (NilEmpty.string_of_uint d) = Some (uint_value acc d).
Proof.
  revert acc. induction d as [|d IH|d IH|d IH|d IH|d IH|d IH|d IH|d IH|d IH|d IH];
    intros acc; simpl; try (rewrite IH; do 2 f_equal; lia); done.
Qed.

Lemma Pos_of_uint_acc_value d p :
  N.pos (Pos.of_uint_acc d p) = uint_value (N.pos p) d.
Proof.
  revert p. induction d as [|d IH|d IH|d IH|d IH|d IH|d IH|d IH|d IH|d IH|d IH];
    intros p; simpl; try rewrite IH; try (f_equal; lia); done.
Qed.

Lemma N_of_uint_value d : N.of_uint d = uint_value 0 d.
Proof.
  unfold N.of_uint. induction d as [|d IH|d IH|d IH|d IH|d IH|d IH|d IH|d IH|d IH|d IH];
    simpl; try (rewrite IH; f_equal; lia); try apply Pos_of_uint_acc_value; done.
Qed.

Lemma string_all_digits d :
  string_all is_ascii_digit (NilEmpty.string_of_uint d) = true.
Proof. by induction d. Qed.
End decimal.

Lemma u64_to_string_NilEmpty n :
  u64_to_string n = NilEmpty.string_of_uint (N.to_uint n) /\ u64_to_string n <> ""%string.
Proof.
  unfold u64_to_string, NilZero.string_of_uint.
  destruct n as [|p]; [done|].
  pose proof (DecimalN.Unsigned.of_to (N.pos p)) as Hof.
  destruct (N.to_uint (N.pos p)) eqn:E; [by rewrite ?E in Hof|..]; by rewrite ?E.
Qed.

Lemma digits_value_to_string n : digits_value 0 (u64_to_string n) = Some n.
Proof.
  rewrite (proj1 (u64_to_string_NilEmpty n)), digits_value_uint, <- N_of_uint_value.
  by rewrite DecimalN.Unsigned.of_to.
Qed.

Lemma u64_to_string_digits n : string_all is_ascii_digit (u64_to_string n) = true.
Proof. rewrite (proj1 (u64_to_string_NilEmpty n)). apply string_all_digits. Qed.

Lemma is_empty_true s : is_empty s = true <-> s = ""%string.
Proof. destruct s; naive_solver. Qed.

Lemma is_empty_false s : is_empty s = false <-> s <> ""%string.
Proof. destruct s; naive_solver. Qed.

Lemma u64_to_string_nonempty n : is_empty (u64_to_string n) = false.
Proof. apply is_empty_false, u64_to_string_NilEmpty. Qed.

Lemma is_ascii_digit_not_plus c : is_ascii_digit c = true -> Ascii.eqb c "+" = false.
Proof.
  intros H. destruct (Ascii.eqb_spec c "+"%char) as [->|]; [discriminate H|done].
Qed.

Lemma u64_from_to_string n :
  u64_from_str (u64_to_string n) = if n <=? u64_MAX then Some n else None.
Proof.
  unfold u64_from_str. pose proof (u64_to_string_digits n) as Hd.
  pose proof (u64_to_string_nonempty n) as He.
  pose proof (digits_value_to_string n) as Hv.
  destruct (u64_to_string n) as [|c s]; [done|]. simpl in Hd.
  apply andb_true_iff in Hd as [Hc _]. rewrite (is_ascii_digit_not_plus _ Hc).
  by rewrite He, Hv.
Qed.

Lemma u64_from_str_bound s n : u64_from_str s = Some n -> n <= u64_MAX.
Proof.
  unfold u64_from_str. intros H. repeat case_match; simplify_eq; by apply N.leb_le.
Qed.

(** *** Sorting and removing duplicates *)

#[export] Instance str_le_total : Total str_le.
Proof. intros a b. apply String.leb_total. Qed.

Lemma ascii_compare_spec a b :
  CompareSpec (a = b) (N_of_ascii a < N_of_ascii b) (N_of_ascii b < N_of_ascii a)
    (Ascii.compare a b).
Proof.
  unfold Ascii.compare. destruct (N.compare_spec (N_of_ascii a) (N_of_ascii b)) as [E|E|E];
    constructor; try done.
  by rewrite <- (ascii_N_embedding a), E, ascii_N_embedding.
Qed.

Lemma str_le_cons a b s t :
  str_le (String a s) (String b t) <->
  N_of_ascii a < N_of_ascii b \/ (a = b /\ str_le s t).
Proof.
  unfold str_le, String.leb. simpl.
  destruct (ascii_compare_spec a b) as [->|H|H].
  - destruct (String.compare s t); naive_solver lia.
  - naive_solver.
  - split; [done|]. intros [?|[-> ?]]; lia.
Qed.

#[export] Instance str_le_trans : Transitive str_le.
Proof.
  intros s. induction s as [|a s IH]; intros [|b t] [|c u]; try done.
  rewrite !str_le_cons. intros [?|[-> ?]] [?|[-> ?]]; eauto with lia.
Qed.

#[export] Instance str_le_antisymm : AntiSymm eq str_le.
Proof. intros a b. apply String.leb_antisym. Qed.

Lemma elem_of_sort_by_str x l : x ∈ sort_by_str l <-> x ∈ l.
Proof. unfold sort_by_str. by rewrite merge_sort_Permutation. Qed.

Lemma Sorted_sort_by_str l : StronglySorted str_le (sort_by_str l).
Proof. apply (StronglySorted_merge_sort str_le). Qed.

Lemma sort_by_str_Permutation l l' : l ≡ₚ l' -> sort_by_str l = sort_by_str l'.
Proof.
  intros Hp. apply (StronglySorted_unique str_le); try apply Sorted_sort_by_str.
  unfold sort_by_str. by rewrite !merge_sort_Permutation.
Qed.

Lemma elem_of_dedup x l : x ∈ dedup l <-> x ∈ l.
Proof.
  induction l as [|y l IH]; [done|]. simpl. rewrite elem_of_cons, <- IH.
  destruct (dedup l) as [|z l']; [by rewrite elem_of_cons|].
  destruct (String.eqb_spec y z) as [->|]; rewrite !elem_of_cons; naive_solver.
Qed.

(** each name is strictly before the next *)
Definition str_lt (a b : string) : Prop := str_le a b /\ a <> b.

Lemma dedup_sorted l : StronglySorted str_le l -> StronglySorted str_lt (dedup l).
Proof.
  induction 1 as [|x l Hl IH Hx]; [constructor|]. simpl.
  rewrite Forall_forall in Hx.
  pose proof (fun y => elem_of_dedup y l) as Hin.
  destruct (dedup l) as [|y l'] eqn:E.
  { constructor; [constructor|]. constructor. }
  destruct (String.eqb_spec x y) as [->|Hne]; [done|].
  constructor; [done|]. inversion_clear IH as [|? ? Hl' Hy].
  rewrite Forall_forall in Hy.
  apply Forall_forall. intros z Hz. split; [apply Hx, Hin, Hz|].
  intros <-. apply elem_of_cons in Hz as [->|Hz]; [done|].
  destruct (Hy _ Hz) as [Hyx _]. apply Hne, (anti_symm str_le); [|done].
  apply Hx, Hin. left.
Qed.

Lemma str_lt_sorted_unique l l' :
  StronglySorted str_lt l -> StronglySorted str_lt l' ->
  (forall x, x ∈ l <-> x ∈ l') -> l = l'.
Proof.
  intros H. revert l'. induction H as [|x l Hl IH Hx]; intros l' H' Hiff.
  - destruct l' as [|y l']; [done|]. exfalso. apply (not_elem_of_nil y), Hiff. left.
  - destruct H' as [|y l' Hl' Hy].
    { exfalso. apply (not_elem_of_nil x), Hiff. left. }
    rewrite Forall_forall in Hx, Hy.
    assert (x = y) as ->.
    { assert (x ∈ y :: l') as Hxin by (apply Hiff; left).
      assert (y ∈ x :: l) as Hyin by (apply Hiff; left).
      apply elem_of_cons in Hxin as [->|Hxin]; [done|].
      apply elem_of_cons in Hyin as [->|Hyin]; [done|].
      apply (anti_symm str_le); [apply Hx, Hyin | apply Hy, Hxin]. }
    f_equal. apply IH; [done|]. intros z. split; intros Hz.
    + assert (z ∈ y :: l') as [->|?]%elem_of_cons by (apply Hiff; by right); [|done].
      by destruct (Hx _ Hz).
    + assert (z ∈ y :: l) as [->|?]%elem_of_cons by (apply Hiff; by right); [|done].
      by destruct (Hy _ Hz).
Qed.
