(* ===== verification/Config.v ===== *)
(** The configuration ([src/config.rs]): what the process is told by its flags
    and its environment. The crate [clap] parses both; it is an interface,
    [ClapOps], whose laws are what its documentation says of the attributes
    that [Config] uses. *)

From stdpp Require Import base tactics numbers option list gmap strings.
From Stdlib Require Import Ascii.
From S2P Require Import Prelude RustStd.

Local Open Scope N_scope.

Record Config := {
  origin_url : string;
  listen_addr : string;
  config_asset_path : string;
  cache_ttl_seconds : N;
  cache_size_mb : N;
  tls_cert_path : option string;
  tls_key_path : option string;
  tls_listen_addr : string;
  upstream_timeout_seconds : N;
  metrics_addr : option string;
}.

Definition is_tls_enabled (c : Config) : bool :=
  is_some (tls_cert_path c) && is_some (tls_key_path c).

(** ** clap *)

(** the attributes of a field: its flag, its variable and its default *)
Record Arg := {
  long : string;
  env : string;
  default_value : option string;
}.

(** what the user gave: the value after [--long] on the command line, and the
    environment *)
Record Invocation := {
  flag : string -> option string;
  variable : string -> option string;
}.

Class ClapOps := {
  (** the value clap takes for an argument, before it is parsed *)
  raw_value : Invocation -> Arg -> option string;
  (** the parsers that clap picks for a [String], a [PathBuf] and a [u64] *)
  string_parser : string -> option string;
  path_parser : string -> option string;
  u64_parser : string -> option N;
}.

Class ClapLaws `{ClapOps} : Prop := {
  (** a flag wins over the environment, and both over the default *)
  raw_value_order i a :
    raw_value i a = match flag i (long a) with
                    | Some v => Some v
                    | None => match variable i (env a) with
                              | Some v => Some v
                              | None => default_value a
                              end
                    end;
  string_parser_all s : string_parser s = Some s;
  (** a path must not be empty *)
  path_parser_nonempty s : path_parser s = if is_empty s then None else Some s;
  u64_parser_from_str s : u64_parser s = u64_from_str s;
}.

(** ** [Config::load] *)

Definition origin_url_arg : Arg :=
  {| long := "origin-url"; env := "ORIGIN_URL"; default_value := None |}.
Definition listen_addr_arg : Arg :=
  {| long := "listen-addr"; env := "LISTEN_ADDR"; default_value := Some "0.0.0.0:8080"%string |}.
Definition asset_path_arg : Arg :=
  {| long := "asset-path"; env := "ASSET_PATH"; default_value := Some "/app/assets"%string |}.
Definition cache_ttl_seconds_arg : Arg :=
  {| long := "cache-ttl-seconds"; env := "CACHE_TTL_SECONDS";
     default_value := Some (u64_to_string 300) |}.
Definition cache_size_mb_arg : Arg :=
  {| long := "cache-size-mb"; env := "CACHE_SIZE_MB"; default_value := Some (u64_to_string 100) |}.
Definition tls_cert_path_arg : Arg :=
  {| long := "tls-cert"; env := "TLS_CERT_PATH"; default_value := None |}.
Definition tls_key_path_arg : Arg :=
  {| long := "tls-key"; env := "TLS_KEY_PATH"; default_value := None |}.
Definition tls_listen_addr_arg : Arg :=
  {| long := "tls-listen-addr"; env := "TLS_LISTEN_ADDR";
     default_value := Some "0.0.0.0:8443"%string |}.
Definition upstream_timeout_seconds_arg : Arg :=
  {| long := "upstream-timeout-seconds"; env := "UPSTREAM_TIMEOUT_SECONDS";
     default_value := Some (u64_to_string 30) |}.
Definition metrics_addr_arg : Arg :=
  {| long := "metrics-addr"; env := "METRICS_ADDR"; default_value := None |}.

Section load.
Context `{Cops : ClapOps}.

(** a field of type [T]: a missing value is an error *)
Definition required_arg {A} (parser : string -> option A) (i : Invocation) (a : Arg) : option A :=
  raw_value i a ≫= parser.

(** a field of type [Option<T>] *)
Definition optional_arg {A} (parser : string -> option A) (i : Invocation) (a : Arg)
    : option (option A) :=
  match raw_value i a with
  | None => Some None
  | Some v => Some <$> parser v
  end.

(** [Config::load]; with [None], clap prints what is wrong and ends the
    process *)
Definition Config_load (i : Invocation) : option Config :=
  origin_url ← required_arg string_parser i origin_url_arg;
  listen_addr ← required_arg string_parser i listen_addr_arg;
  asset_path ← required_arg path_parser i asset_path_arg;
  cache_ttl_seconds ← required_arg u64_parser i cache_ttl_seconds_arg;
  cache_size_mb ← required_arg u64_parser i cache_size_mb_arg;
  tls_cert_path ← optional_arg path_parser i tls_cert_path_arg;
  tls_key_path ← optional_arg path_parser i tls_key_path_arg;
  tls_listen_addr ← required_arg string_parser i tls_listen_addr_arg;
  upstream_timeout_seconds ← required_arg u64_parser i upstream_timeout_seconds_arg;
  metrics_addr ← optional_arg string_parser i metrics_addr_arg;
  Some {| origin_url := origin_url; listen_addr := listen_addr; config_asset_path := asset_path;
          cache_ttl_seconds := cache_ttl_seconds; cache_size_mb := cache_size_mb;
          tls_cert_path := tls_cert_path; tls_key_path := tls_key_path;
          tls_listen_addr := tls_listen_addr;
          upstream_timeout_seconds := upstream_timeout_seconds; metrics_addr := metrics_addr |}.

Context `{!ClapLaws}.

(** what the user asked for: the flag if there is one, else the variable *)
Definition given (i : Invocation) (long env : string) : option string :=
  match flag i long with Some v => Some v | None => variable i env end.

Lemma raw_value_given i a : raw_value i a = match given i (long a) (env a) with
                                            | Some v => Some v
                                            | None => default_value a
                                            end.
Proof. rewrite raw_value_order. unfold given. by repeat case_match. Qed.

(** the invocation gives a number for the argument, or nothing *)
Definition number_or (i : Invocation) (long env : string) (default n : N) : Prop :=
  match given i long env with Some v => u64_from_str v = Some n | None => n = default end.

(** ... a path *)
Definition path_or (i : Invocation) (long env : string) (default path : option string) : Prop :=
  match given i long env with Some v => v <> ""%string /\ path = Some v | None => path = default end.

Lemma required_u64 i a d n :
  default_value a = Some (u64_to_string d) -> d <= u64_MAX ->
  required_arg u64_parser i a = Some n <-> number_or i (long a) (env a) d n.
Proof.
  intros Ha Hd. unfold required_arg, number_or. rewrite raw_value_given, Ha.
  destruct (given i (long a) (env a)) as [v|]; simpl; rewrite u64_parser_from_str; [done|].
  rewrite u64_from_to_string. destruct (N.leb_spec d u64_MAX); [|lia]. naive_solver.
Qed.

Lemma required_string i a d s :
  default_value a = d ->
  required_arg string_parser i a = Some s <->
  match given i (long a) (env a) with Some v => Some v | None => d end = Some s.
Proof.
  intros <-. unfold required_arg. rewrite raw_value_given.
  destruct (given i (long a) (env a)); [|destruct (default_value a)]; simpl; rewrite ?string_parser_all; done.
Qed.

Lemma required_path i a d s :
  default_value a = Some d -> d <> ""%string ->
  required_arg path_parser i a = Some s <-> path_or i (long a) (env a) (Some d) (Some s).
Proof.
  intros Ha Hd. unfold required_arg, path_or. rewrite raw_value_given, Ha.
  destruct (given i (long a) (env a)) as [v|]; simpl; rewrite path_parser_nonempty.
  - destruct v; simpl; naive_solver.
  - destruct d; simpl; naive_solver.
Qed.

Lemma optional_path i a o :
  default_value a = None ->
  optional_arg path_parser i a = Some o <-> path_or i (long a) (env a) None o.
Proof.
  intros Ha. unfold optional_arg, path_or. rewrite raw_value_given, Ha.
  destruct (given i (long a) (env a)) as [v|]; simpl; [|naive_solver].
  rewrite path_parser_nonempty. destruct v; simpl; naive_solver.
Qed.

Lemma optional_string i a o :
  default_value a = None -> optional_arg string_parser i a = Some o <-> o = given i (long a) (env a).
Proof.
  intros Ha. unfold optional_arg. rewrite raw_value_given, Ha.
  destruct (given i (long a) (env a)); simpl; rewrite ?string_parser_all; simpl; naive_solver.
Qed.

(** C33. The configuration is what the user asked for. The process starts with
    a configuration exactly when it is the one that the flags give, else the
    environment, else the documented defaults: an origin is required, numbers
    must fit in 64 bits, paths must not be empty, and HTTPS and a metrics
    listener of its own are off unless they are asked for. *)
Theorem Config_load_spec i c :
  Config_load i = Some c <->
  given i "origin-url" "ORIGIN_URL" = Some (origin_url c) /\
  listen_addr c = default "0.0.0.0:8080"%string (given i "listen-addr" "LISTEN_ADDR") /\
  path_or i "asset-path" "ASSET_PATH" (Some "/app/assets"%string) (Some (config_asset_path c)) /\
  number_or i "cache-ttl-seconds" "CACHE_TTL_SECONDS" 300 (cache_ttl_seconds c) /\
  number_or i "cache-size-mb" "CACHE_SIZE_MB" 100 (cache_size_mb c) /\
  path_or i "tls-cert" "TLS_CERT_PATH" None (tls_cert_path c) /\
  path_or i "tls-key" "TLS_KEY_PATH" None (tls_key_path c) /\
  tls_listen_addr c = default "0.0.0.0:8443"%string (given i "tls-listen-addr" "TLS_LISTEN_ADDR") /\
  number_or i "upstream-timeout-seconds" "UPSTREAM_TIMEOUT_SECONDS" 30
    (upstream_timeout_seconds c) /\
  metrics_addr c = given i "metrics-addr" "METRICS_ADDR".
Proof.
  assert (forall a d s, default_value a = Some d ->
    required_arg string_parser i a = Some s <-> s = default d (given i (long a) (env a)))
    as Hstring.
  { intros a d s Ha. rewrite (required_string i a (Some d)) by done.
    destruct (given i (long a) (env a)); simpl; naive_solver. }
  assert (given i "origin-url" "ORIGIN_URL" = Some (origin_url c) <->
    required_arg string_parser i origin_url_arg = Some (origin_url c)) as ->.
  { rewrite (required_string i origin_url_arg None) by done. simpl.
    by destruct (given i "origin-url" "ORIGIN_URL"). }
  rewrite <- (Hstring listen_addr_arg), <- (Hstring tls_listen_addr_arg) by done.
  rewrite <- (required_path i asset_path_arg) by done.
  rewrite <- (optional_path i tls_cert_path_arg), <- (optional_path i tls_key_path_arg) by done.
  rewrite <- (required_u64 i cache_ttl_seconds_arg), <- (required_u64 i cache_size_mb_arg),
    <- (required_u64 i upstream_timeout_seconds_arg) by done.
  rewrite <- (optional_string i metrics_addr_arg) by done.
  unfold Config_load. clear.
  repeat match goal with
         | |- context [required_arg ?p i ?a] => destruct (required_arg p i a); simpl; [|naive_solver]
         | |- context [optional_arg ?p i ?a] => destruct (optional_arg p i a); simpl; [|naive_solver]
         end.
  destruct c; simpl. split; [intros [=]; subst; done|intros; destruct_and?; simplify_eq; done].
Qed.
End load.

(** ** A command line for the examples *)

#[export] Instance RefClap : ClapOps := {|
  raw_value i a :=
    match flag i (long a) with
    | Some v => Some v
    | None => match variable i (env a) with Some v => Some v | None => default_value a end
    end;
  string_parser := Some;
  path_parser s := if is_empty s then None else Some s;
  u64_parser := u64_from_str;
|}.

#[export] Instance RefClapLaws : ClapLaws.
Proof. by constructor. Qed.

(** [ORIGIN_URL=http://origin:3000 shadowstep --cache-size-mb n] *)
Definition ex_invocation (n : string) : Invocation := {|
  flag := fun l => if String.eqb l "cache-size-mb" then Some n else None;
  variable := fun v => if String.eqb v "ORIGIN_URL" then Some "http://origin:3000"%string
                       else if String.eqb v "CACHE_SIZE_MB" then Some "7"%string else None |}.

Example ex_load : cache_size_mb <$> Config_load (ex_invocation "50") = Some 50.
Proof. vm_compute. reflexivity. Qed.
Example ex_load_ttl : cache_ttl_seconds <$> Config_load (ex_invocation "50") = Some 300.
Proof. vm_compute. reflexivity. Qed.
Example ex_load_bad : Config_load (ex_invocation "-1") = None.
Proof. vm_compute. reflexivity. Qed.
Example ex_load_nothing :
  Config_load {| flag := fun _ => None; variable := fun _ => None |} = None.
Proof. vm_compute. reflexivity. Qed.

(** the size that the process gets is the flag's, not the environment's *)
Lemma Config_load_spec_witness :
  exists c, Config_load (ex_invocation "50") = Some c /\
    origin_url c = "http://origin:3000"%string /\ cache_size_mb c = 50.
Proof.
  set (c := {|
    origin_url := "http://origin:3000"; listen_addr := "0.0.0.0:8080";
    config_asset_path := "/app/assets"; cache_ttl_seconds := 300; cache_size_mb := 50;
    tls_cert_path := None; tls_key_path := None; tls_listen_addr := "0.0.0.0:8443";
    upstream_timeout_seconds := 30; metrics_addr := None |}).
  exists c. split; [|by split].
  apply (Config_load_spec (ex_invocation "50") c). by split_and!; vm_compute.
Defined.
