(* ===== verification/Http.v ===== *)
(** The types of the [http], [httpdate] and actix crates that the program is
    written against, as an interface: [HttpOps] lists the functions, and
    [HttpLaws] the documented behaviour the program relies on. The crates are
    not part of the repository, so nothing here defines them. [RefHttp] is
    one implementation that satisfies every law; the examples run on it. *)

From stdpp Require Import base tactics option list gmap strings.
From Stdlib Require Import Ascii.
From S2P Require Import Prelude RustStd.

Local Open Scope N_scope.

(** a field name, in the lower case that [HeaderName::as_str] gives *)
Abbreviation HeaderName := string (only parsing).
(** a field value: any bytes *)
Abbreviation HeaderValue := string (only parsing).
Abbreviation Bytes := string (only parsing).
(** [Method::as_str] *)
Abbreviation Method := string (only parsing).
Abbreviation StatusCode := N (only parsing).

(** response header fields in the order the origin sent them.
    [type Fields = Vec<(HeaderName, HeaderValue)>] *)
Abbreviation Fields := (list (HeaderName * HeaderValue)) (only parsing).

Module header.
Definition ACCEPT : HeaderName := "accept".
Definition AGE : HeaderName := "age".
Definition AUTHORIZATION : HeaderName := "authorization".
Definition CACHE_CONTROL : HeaderName := "cache-control".
Definition CONNECTION : HeaderName := "connection".
Definition CONTENT_LENGTH : HeaderName := "content-length".
Definition CONTENT_TYPE : HeaderName := "content-type".
Definition COOKIE : HeaderName := "cookie".
Definition DATE : HeaderName := "date".
Definition ETAG : HeaderName := "etag".
Definition EXPIRES : HeaderName := "expires".
Definition FORWARDED : HeaderName := "forwarded".
Definition HOST : HeaderName := "host".
Definition IF_MATCH : HeaderName := "if-match".
Definition IF_MODIFIED_SINCE : HeaderName := "if-modified-since".
Definition IF_NONE_MATCH : HeaderName := "if-none-match".
Definition IF_RANGE : HeaderName := "if-range".
Definition IF_UNMODIFIED_SINCE : HeaderName := "if-unmodified-since".
Definition LAST_MODIFIED : HeaderName := "last-modified".
Definition SET_COOKIE : HeaderName := "set-cookie".
Definition VARY : HeaderName := "vary".
End header.

Definition GET : Method := "GET".
Definition HEAD : Method := "HEAD".

(** the bytes that [HeaderValue::to_str] accepts: visible ASCII, and the tab *)
Definition visible_ascii (c : ascii) : bool := byte_in 32 126 c || byte_in 9 9 c.

(** letters, digits and the dash *)
Definition ascii_token_char (c : ascii) : bool :=
  byte_in 48 57 c || byte_in 97 122 c || byte_in 45 45 c || byte_in 65 90 c.

Class HttpOps := {
  (** [HeaderValue::to_str(..).ok()] *)
  to_str : HeaderValue -> option string;
  (** [HeaderName::from_bytes(..).ok()] *)
  HeaderName_from_bytes : string -> option HeaderName;
  (** [HeaderValue::from_str(..).ok()] *)
  HeaderValue_from_str : string -> option HeaderValue;
  (** [HeaderValue::from_bytes(..).ok()] *)
  HeaderValue_from_bytes : string -> option HeaderValue;
  (** [httpdate::parse_http_date(..).ok()] *)
  parse_http_date : string -> option SystemTime;
  (** [Method::is_safe] *)
  Method_is_safe : Method -> bool;
  (** [StatusCode::is_success] and [StatusCode::is_redirection] *)
  StatusCode_is_success : StatusCode -> bool;
  StatusCode_is_redirection : StatusCode -> bool;
  (** [StatusCode::canonical_reason] *)
  canonical_reason : StatusCode -> option string;
  HeaderMap : Type;
  HeaderMap_new : HeaderMap;
  HeaderMap_get : HeaderMap -> HeaderName -> option HeaderValue;
  HeaderMap_get_all : HeaderMap -> HeaderName -> list HeaderValue;
  HeaderMap_contains_key : HeaderMap -> HeaderName -> bool;
  HeaderMap_append : HeaderName -> HeaderValue -> HeaderMap -> HeaderMap;
  HeaderMap_insert : HeaderName -> HeaderValue -> HeaderMap -> HeaderMap;
  HeaderMap_remove : HeaderName -> HeaderMap -> HeaderMap;
  HeaderMap_iter : HeaderMap -> Fields;
}.

(** the values of [name] in a list of fields, in order *)
Definition values_of (name : HeaderName) (fields : Fields) : list HeaderValue :=
  map snd (List.filter (fun f => String.eqb (fst f) name) fields).

Class HttpLaws `{HttpOps} : Prop := {
  to_str_visible v : to_str v = if string_all visible_ascii v then Some v else None;
  HeaderName_from_bytes_lower s n :
    HeaderName_from_bytes s = Some n -> n = to_ascii_lowercase s;
  (** names of letters, digits and dashes, among others *)
  HeaderName_from_bytes_token s :
    is_empty s = false -> string_all ascii_token_char s = true -> str_len s < 2 ^ 16 ->
    HeaderName_from_bytes s = Some (to_ascii_lowercase s);
  HeaderValue_from_bytes_same b v : HeaderValue_from_bytes b = Some v -> v = b;
  (** every value that [to_str] reads is a valid one *)
  HeaderValue_from_bytes_visible b :
    string_all visible_ascii b = true -> HeaderValue_from_bytes b = Some b;
  (** dates from 1970 to 9999 *)
  parse_http_date_range s t :
    parse_http_date s = Some t -> (0 <= t < 253402300800 * 10 ^ 9)%Z;
  Method_is_safe_spec m :
    Method_is_safe m = existsb (String.eqb m) ["GET"; "HEAD"; "OPTIONS"; "TRACE"]%string;
  StatusCode_is_success_spec s : StatusCode_is_success s = (200 <=? s) && (s <? 300);
  StatusCode_is_redirection_spec s :
    StatusCode_is_redirection s = (300 <=? s) && (s <? 400);
  HeaderMap_get_all_new n : HeaderMap_get_all HeaderMap_new n = [];
  HeaderMap_get_head m n : HeaderMap_get m n = head (HeaderMap_get_all m n);
  HeaderMap_contains_key_spec m n :
    HeaderMap_contains_key m n = negb (bool_decide (HeaderMap_get_all m n = []));
  HeaderMap_get_all_append m n v n' :
    HeaderMap_get_all (HeaderMap_append n v m) n' =
    HeaderMap_get_all m n' ++ (if String.eqb n n' then [v] else []);
  HeaderMap_get_all_insert m n v n' :
    HeaderMap_get_all (HeaderMap_insert n v m) n' =
    if String.eqb n n' then [v] else HeaderMap_get_all m n';
  HeaderMap_get_all_remove m n n' :
    HeaderMap_get_all (HeaderMap_remove n m) n' =
    if String.eqb n n' then [] else HeaderMap_get_all m n';
  HeaderMap_iter_values m n : values_of n (HeaderMap_iter m) = HeaderMap_get_all m n;
}.

(** a map filled from a list of fields with [append], as the program does for
    the origin's responses *)
Definition HeaderMap_of_fields `{HttpOps} (fields : Fields) : HeaderMap :=
  fold_left (fun m f => HeaderMap_append (fst f) (snd f) m) fields HeaderMap_new.

Lemma values_of_app n (f1 f2 : Fields) :
  values_of n (f1 ++ f2) = values_of n f1 ++ values_of n f2.
Proof. unfold values_of. by rewrite List.filter_app, map_app. Qed.

Lemma values_of_cons n n' v (f : Fields) :
  values_of n ((n', v) :: f) = (if String.eqb n' n then [v] else []) ++ values_of n f.
Proof. unfold values_of. simpl. by destruct (String.eqb n' n). Qed.

Lemma elem_of_values_of n v (f : Fields) : v ∈ values_of n f <-> (n, v) ∈ f.
Proof.
  unfold values_of. rewrite !list_elem_of_In, in_map_iff. split.
  - intros [[n' v'] [<- [Hin Heq%String.eqb_eq]%filter_In]]. simpl in *. by subst.
  - intros Hin. exists (n, v). rewrite filter_In. simpl. by rewrite String.eqb_refl.
Qed.

Section laws.
Context `{HttpLaws}.

Lemma to_str_Some v s : to_str v = Some s -> s = v.
Proof. rewrite to_str_visible. case_match; naive_solver. Qed.

Lemma to_str_Some_visible v s : to_str v = Some s -> string_all visible_ascii v = true.
Proof. rewrite to_str_visible. case_match; naive_solver. Qed.

Lemma HeaderMap_contains_key_elem m n :
  HeaderMap_contains_key m n = true <-> exists v, v ∈ HeaderMap_get_all m n.
Proof.
  rewrite HeaderMap_contains_key_spec, negb_true_iff, bool_decide_eq_false.
  split.
  - destruct (HeaderMap_get_all m n) as [|v l]; [done|]. exists v. left.
  - intros [v Hv] Heq. rewrite Heq in Hv. inversion Hv.
Qed.

Lemma HeaderMap_contains_key_false m n :
  HeaderMap_contains_key m n = false <-> HeaderMap_get_all m n = [].
Proof.
  rewrite HeaderMap_contains_key_spec, negb_false_iff, bool_decide_eq_true. done.
Qed.

Lemma HeaderMap_get_Some_elem m n v :
  HeaderMap_get m n = Some v -> v ∈ HeaderMap_get_all m n.
Proof.
  rewrite HeaderMap_get_head. destruct (HeaderMap_get_all m n); [done|].
  intros [= ->]. left.
Qed.

Lemma elem_of_HeaderMap_iter m n v :
  (n, v) ∈ HeaderMap_iter m <-> v ∈ HeaderMap_get_all m n.
Proof. by rewrite <- elem_of_values_of, HeaderMap_iter_values. Qed.

Lemma HeaderMap_get_all_of_fields fields n :
  HeaderMap_get_all (HeaderMap_of_fields fields) n = values_of n fields.
Proof.
  unfold HeaderMap_of_fields.
  assert (forall m, HeaderMap_get_all
    (fold_left (fun m f => HeaderMap_append (fst f) (snd f) m) fields m) n
    = HeaderMap_get_all m n ++ values_of n fields) as Hgen.
  { induction fields as [|[n' v] fields IH]; intros m; simpl.
    - by rewrite app_nil_r.
    - rewrite IH, HeaderMap_get_all_append, values_of_cons. by rewrite app_assoc. }
  rewrite Hgen, HeaderMap_get_all_new. done.
Qed.
End laws.

#[export] Hint Rewrite @HeaderMap_get_all_of_fields using typeclasses eauto : headers.

(** ** An implementation for the examples

    Header maps are field lists. Names are lowercased and must be non-empty
    tokens of letters, digits and dashes, and a date is the number of seconds
    since the epoch in decimal. *)

Definition ref_value_char (c : ascii) : bool :=
  byte_in 32 126 c || byte_in 128 255 c || byte_in 9 9 c.

#[export] Instance RefHttp : HttpOps := {|
  to_str v := if string_all visible_ascii v then Some v else None;
  HeaderName_from_bytes s :=
    if negb (is_empty s) && string_all ascii_token_char s
    then Some (to_ascii_lowercase s) else None;
  HeaderValue_from_str s := if string_all visible_ascii s then Some s else None;
  HeaderValue_from_bytes b := if string_all ref_value_char b then Some b else None;
  parse_http_date s :=
    match u64_from_str s with
    | Some secs => if secs <? 253402300800 then Some (Z.of_N secs * 10 ^ 9)%Z else None
    | None => None
    end;
  Method_is_safe m := existsb (String.eqb m) ["GET"; "HEAD"; "OPTIONS"; "TRACE"]%string;
  StatusCode_is_success s := (200 <=? s) && (s <? 300);
  StatusCode_is_redirection s := (300 <=? s) && (s <? 400);
  canonical_reason s :=
    if s =? 500 then Some "Internal Server Error"%string
    else if s =? 502 then Some "Bad Gateway"%string
    else if s =? 504 then Some "Gateway Timeout"%string
    else if s =? 400 then Some "Bad Request"%string else None;
  HeaderMap := Fields;
  HeaderMap_new := [];
  HeaderMap_get m n := head (values_of n m);
  HeaderMap_get_all m n := values_of n m;
  HeaderMap_contains_key m n := negb (bool_decide (values_of n m = []));
  HeaderMap_append n v m := m ++ [(n, v)];
  HeaderMap_insert n v m :=
    List.filter (fun f => negb (String.eqb (fst f) n)) m ++ [(n, v)];
  HeaderMap_remove n m := List.filter (fun f => negb (String.eqb (fst f) n)) m;
  HeaderMap_iter m := m;
|}.

Lemma values_of_filter_out n n' (m : Fields) :
  values_of n' (List.filter (fun f => negb (String.eqb (fst f) n)) m) =
  if String.eqb n n' then [] else values_of n' m.
Proof.
  induction m as [|[k v] m IH]; simpl.
  - by destruct (String.eqb n n').
  - destruct (String.eqb_spec k n) as [->|Hk]; simpl.
    + rewrite IH, values_of_cons. by destruct (String.eqb n n').
    + rewrite !values_of_cons, IH.
      destruct (String.eqb_spec n n') as [->|]; [|done].
      by apply String.eqb_neq in Hk as ->.
Qed.

#[export] Instance RefHttpLaws : @HttpLaws RefHttp.
Proof.
  split; intros; try done; simpl in *.
  - case_match; naive_solver.
  - rewrite H, H0. done.
  - case_match; naive_solver.
  - rewrite (string_all_impl visible_ascii ref_value_char); [done|intros c|done].
    unfold visible_ascii, ref_value_char. destruct (byte_in 32 126 c); [done|].
    simpl. intros ->. by rewrite orb_true_r.
  - repeat case_match; simplify_eq. rename select (_ <? _ = true) into Hlt.
    apply N.ltb_lt in Hlt. lia.
  - by rewrite values_of_app, values_of_cons, app_nil_r.
  - rewrite values_of_app, values_of_cons, app_nil_r, values_of_filter_out.
    destruct (String.eqb n n'); [done | by rewrite app_nil_r].
  - apply values_of_filter_out.
Qed.
