(* ===== verification/Directives.v ===== *)
(** [Cache-Control] directives: [Directives] and [split_outside_quotes] of
    [src/cache.rs]. [split_outside_quotes] is the loop over the characters of
    the value with its slice indices; [split_quoted] is its specification by
    recursion on the text. The theorems show that splitting loses nothing,
    that a printed directive list parses back, and that delta-seconds are
    read exactly, saturating at the largest [u64]. *)

From stdpp Require Import base tactics option list gmap strings.
From Stdlib Require Import Ascii.
From S2P Require Import Prelude RustStd Http.

Local Open Scope N_scope.

Definition dquote : ascii := ascii_of_N 34.
Definition backslash : ascii := ascii_of_N 92.

(** ** [split_outside_quotes] *)

(** the local variables of [split_outside_quotes] *)
Record SplitState := {
  parts : list string;
  start : nat;
  quoted : bool;
  escaped : bool;
}.

(** the body of the loop, at the character [c] with index [i] *)
Definition split_step (value : string) (s : SplitState) (ic : nat * ascii) : SplitState :=
  let '(i, c) := ic in
  if escaped s then
    {| parts := parts s; start := start s; quoted := quoted s; escaped := false |}
  else if Ascii.eqb c backslash && quoted s then
    {| parts := parts s; start := start s; quoted := quoted s; escaped := true |}
  else if Ascii.eqb c dquote then
    {| parts := parts s; start := start s; quoted := negb (quoted s); escaped := false |}
  else if Ascii.eqb c "," && negb (quoted s) then
    {| parts := parts s ++ [str_slice value (start s) i]; start := (i + 1)%nat;
       quoted := quoted s; escaped := false |}
  else s.

(** [str::char_indices] from index [i]. a value that passed [to_str] is ASCII,
    one byte per character *)
Fixpoint char_indices (i : nat) (s : string) : list (nat * ascii) :=
  match s with
  | EmptyString => []
  | String c s => (i, c) :: char_indices (S i) s
  end.

Definition split_outside_quotes (value : string) : list string :=
  let s := fold_left (split_step value) (char_indices 0 value)
             {| parts := []; start := 0; quoted := false; escaped := false |} in
  parts s ++ [str_slice value (start s) (String.length value)].

(** ** [Directives] *)

Record Directives := {
  directives_list : list (string * option string);
  (** a field value that is not visible ASCII *)
  malformed : bool;
}.

(** [Directives::default()] *)
Definition Directives_default : Directives :=
  {| directives_list := []; malformed := false |}.

(** one comma-separated part of a value, or [None] for one without a name *)
Definition parse_part (part : string) : option (string * option string) :=
  let '(name, argument) :=
    match split_once "=" part with
    | Some (name, argument) =>
        let argument := trim argument in
        let argument :=
          unwrap_or (strip_prefix dquote argument ≫= strip_suffix dquote) argument in
        (name, Some argument)
    | None => (part, None)
    end in
  let name := to_ascii_lowercase (trim name) in
  if is_empty name then None else Some (name, argument).

(** the body of the loop over field values *)
Definition parse_value `{HttpOps} (d : Directives) (value : HeaderValue) : Directives :=
  match to_str value with
  | None => {| directives_list := directives_list d; malformed := true |}
  | Some value =>
      {| directives_list := directives_list d ++ omap parse_part (split_outside_quotes value);
         malformed := malformed d |}
  end.

(** [Directives::parse] *)
Definition Directives_parse `{HttpOps} (values : list HeaderValue) : Directives :=
  fold_left parse_value values Directives_default.

(** [Directives::has] *)
Definition has (d : Directives) (name : string) : bool :=
  existsb (fun na => String.eqb (fst na) name) (directives_list d).

(** [Directives::seconds] *)
Definition seconds (d : Directives) (name : string) : option Duration :=
  match List.find (fun na => String.eqb (fst na) name) (directives_list d) with
  | None => None
  | Some (_, argument) =>
      let argument := unwrap_or argument "" in
      if is_empty argument || negb (string_all is_ascii_digit argument)
      then Some Duration_ZERO
      else Some (Duration_from_secs (unwrap_or (u64_from_str argument) u64_MAX))
  end.

(** ** The specification of splitting *)

(** puts [c] in front of the first part *)
Definition onto_first (c : ascii) (ps : list string) : list string :=
  match ps with
  | [] => [String c EmptyString]
  | p :: ps => String c p :: ps
  end.

Fixpoint split_quoted (q e : bool) (s : string) : list string :=
  match s with
  | EmptyString => [EmptyString]
  | String c s =>
      if e then onto_first c (split_quoted q false s)
      else if Ascii.eqb c backslash && q then onto_first c (split_quoted q true s)
      else if Ascii.eqb c dquote then onto_first c (split_quoted (negb q) false s)
      else if Ascii.eqb c "," && negb q then EmptyString :: split_quoted q false s
      else onto_first c (split_quoted q false s)
  end.

(** [cur] in front of the first part *)
Definition prepend (cur : string) (ps : list string) : list string :=
  match ps with
  | [] => [cur]
  | p :: ps => (cur +:+ p)%string :: ps
  end.

Lemma split_quoted_cons q e s : exists p ps, split_quoted q e s = p :: ps.
Proof.
  revert q e. induction s as [|c s IH]; intros q e; simpl; [eauto|].
  assert (forall q e, exists p ps, onto_first c (split_quoted q e s) = p :: ps) as Honto.
  { intros q' e'. destruct (IH q' e') as (p & ps & ->). simpl. eauto. }
  repeat case_match; eauto.
Qed.

Lemma prepend_onto_first cur c ps :
  ps <> [] -> prepend cur (onto_first c ps) = prepend (cur +:+ String c "") ps.
Proof. destruct ps as [|p ps]; [done|]. simpl. by rewrite <- string_app_assoc. Qed.

Lemma str_slice_middle a b c :
  str_slice (a +:+ (b +:+ c)) (String.length a) (String.length a + String.length b) = b.
Proof.
  unfold str_slice. replace (_ - _)%nat with (String.length b) by lia.
  induction a as [|x a IH].
  - change (("" +:+ (b +:+ c))%string) with (b +:+ c)%string. simpl.
    induction b as [|y b IH]; [by destruct c|].
    rewrite string_app_cons. simpl. by rewrite IH.
  - rewrite string_app_cons. exact IH.
Qed.

(** the loop from the middle of the value: [pre] is done, [cur] is the part
    being read and [rest] is to come *)
Lemma split_loop_spec pre cur rest ps q e :
  let value := (pre +:+ (cur +:+ rest))%string in
  let s := fold_left (split_step value)
    (char_indices (String.length pre + String.length cur) rest)
    {| parts := ps; start := String.length pre; quoted := q; escaped := e |} in
  parts s ++ [str_slice value (start s) (String.length value)]
  = ps ++ prepend cur (split_quoted q e rest).
Proof.
  simpl. revert pre cur ps q e. induction rest as [|c rest IH]; intros pre cur ps q e.
  - simpl. rewrite !string_length_app, string_app_nil_r. simpl. rewrite Nat.add_0_r.
    do 2 f_equal. rewrite <- (string_app_nil_r cur) at 1. apply str_slice_middle.
  - assert (forall q' e',
      let value := (pre +:+ (cur +:+ String c rest))%string in
      let s := fold_left (split_step value)
        (char_indices (S (String.length pre + String.length cur)) rest)
        {| parts := ps; start := String.length pre; quoted := q'; escaped := e' |} in
      parts s ++ [str_slice value (start s) (String.length value)]
      = ps ++ prepend cur (onto_first c (split_quoted q' e' rest))) as Hnext.
    { intros q' e'. specialize (IH pre (cur +:+ String c "")%string ps q' e').
      rewrite <- string_app_assoc, string_length_app in IH. simpl in IH.
      rewrite Nat.add_1_r, Nat.add_succ_r in IH.
      rewrite prepend_onto_first; [exact IH|].
      destruct (split_quoted_cons q' e' rest) as (? & ? & ->). done. }
    simpl in Hnext |- *. destruct e; [apply Hnext|].
    destruct (Ascii.eqb c backslash && q); [apply Hnext|].
    destruct (Ascii.eqb c dquote); [apply Hnext|].
    destruct (Ascii.eqb c "," && negb q) eqn:Hc; [|apply Hnext].
    apply andb_true_iff in Hc as [->%Ascii.eqb_eq _].
    specialize (IH (pre +:+ (cur +:+ ","))%string ""%string (ps ++ [cur]) q false).
    assert (((pre +:+ (cur +:+ ",")) +:+ ("" +:+ rest))%string
            = (pre +:+ (cur +:+ String "," rest))%string) as Hv
      by (rewrite <- !string_app_assoc; done).
    assert (String.length (pre +:+ (cur +:+ ",")) + String.length ""
            = S (String.length pre + String.length cur))%nat as Hl
      by (rewrite !string_length_app; simpl; lia).
    rewrite Hv, Hl, <- app_assoc in IH. rewrite Nat.add_0_r in Hl. rewrite Hl in IH.
    rewrite str_slice_middle, Nat.add_1_r, IH.
    destruct (split_quoted_cons q false rest) as (p & ps' & ->).
    simpl. by rewrite string_app_nil_r.
Qed.

Lemma split_outside_quotes_quoted v : split_outside_quotes v = split_quoted false false v.
Proof.
  pose proof (split_loop_spec "" "" v [] false false) as H. simpl in H.
  etrans; [exact H|]. by destruct (split_quoted_cons false false v) as (? & ? & ->).
Qed.

Lemma str_join_onto_first c ps :
  ps <> [] -> str_join "," (onto_first c ps) = String c (str_join "," ps).
Proof. destruct ps as [|p [|p' ps]]; done. Qed.

Lemma str_join_split_quoted q e v : str_join "," (split_quoted q e v) = v.
Proof.
  revert q e. induction v as [|c v IH]; intros q e; [done|]. simpl.
  assert (forall q e, str_join "," (onto_first c (split_quoted q e v)) = String c v) as Ho.
  { intros q' e'. rewrite str_join_onto_first, IH; [done|].
    by destruct (split_quoted_cons q' e' v) as (? & ? & ->). }
  repeat case_match; try apply Ho.
  apply andb_true_iff in H2 as [->%Ascii.eqb_eq _].
  pose proof (IH q false) as Hj.
  destruct (split_quoted_cons q false v) as (p & ps & E). rewrite E in *.
  unfold str_join in *. simpl in *. by rewrite Hj.
Qed.

(** ** Scanning text that holds no separating comma *)

(** the quoting state after [s], or [None] when a comma in it would split *)
Fixpoint scan (q e : bool) (s : string) : option (bool * bool) :=
  match s with
  | EmptyString => Some (q, e)
  | String c s =>
      if e then scan q false s
      else if Ascii.eqb c backslash && q then scan q true s
      else if Ascii.eqb c dquote then scan (negb q) false s
      else if Ascii.eqb c "," && negb q then None
      else scan q false s
  end.

Lemma prepend_String c x ps : ps <> [] ->
  onto_first c (prepend x ps) = prepend (String c x) ps.
Proof. by destruct ps. Qed.

Lemma split_scan q e x y q' e' : scan q e x = Some (q', e') ->
  split_quoted q e (x +:+ y) = prepend x (split_quoted q' e' y).
Proof.
  assert (forall c x, onto_first c (prepend x (split_quoted q' e' y)) =
                      prepend (String c x) (split_quoted q' e' y)) as Hp.
  { intros c x'. apply prepend_String.
    by destruct (split_quoted_cons q' e' y) as (? & ? & ->). }
  revert q e. induction x as [|c x IH]; intros q e.
  - simpl. intros [= -> ->]. change (("" +:+ y)%string) with y.
    by destruct (split_quoted_cons q' e' y) as (? & ? & ->).
  - rewrite string_app_cons. simpl. intros Hs.
    repeat case_match; try done; by rewrite (IH _ _ Hs), Hp.
Qed.

Lemma split_quoted_single q e p : scan q e p <> None -> split_quoted q e p = [p].
Proof.
  destruct (scan q e p) as [[q' e']|] eqn:E; [|done]. intros _.
  pose proof (split_scan q e p "" q' e' E) as H. rewrite string_app_nil_r in H.
  rewrite H. simpl. by rewrite string_app_nil_r.
Qed.

Lemma split_quoted_parts_scan q e s p ps : split_quoted q e s = p :: ps ->
  scan q e p <> None /\ Forall (fun p => scan false false p <> None) ps.
Proof.
  revert q e p ps. induction s as [|c s IH]; intros q e p ps; simpl.
  - intros [= <- <-]. done.
  - assert (forall q' e', onto_first c (split_quoted q' e' s) = p :: ps ->
      exists p', p = String c p' /\ scan q' e' p' <> None /\
        Forall (fun p => scan false false p <> None) ps) as Ho.
    { intros q' e'. destruct (split_quoted_cons q' e' s) as (p' & ps' & E). rewrite E.
      simpl. intros [= <- <-]. exists p'. split; [done|]. by apply IH. }
    destruct e.
    { intros (p' & -> & ? & ?)%Ho. done. }
    destruct (Ascii.eqb c backslash && q) eqn:E1.
    { intros (p' & -> & ? & ?)%Ho. simpl. by rewrite E1. }
    destruct (Ascii.eqb c dquote) eqn:E2.
    { intros (p' & -> & ? & ?)%Ho. simpl. by rewrite E1, E2. }
    destruct (Ascii.eqb c "," && negb q) eqn:E3.
    { apply andb_true_iff in E3 as [_ ->%negb_true_iff]. intros [= <- Hs].
      destruct (split_quoted_cons false false s) as (p' & ps' & E). rewrite E in Hs.
      subst ps. split; [done|]. destruct (IH false false p' ps' E). by constructor. }
    intros (p' & -> & ? & ?)%Ho. simpl. by rewrite E1, E2, E3.
Qed.

(** ** Printing directives *)

(** a byte of a directive name in lower case *)
Definition name_char (c : ascii) : bool :=
  byte_in 33 126 c && negb (Ascii.eqb c "=" || Ascii.eqb c "," || Ascii.eqb c dquote) &&
  Ascii.eqb (ascii_lower c) c.

(** a byte of a quoted argument that needs no escape *)
Definition argument_char (c : ascii) : bool :=
  visible_ascii c && negb (Ascii.eqb c dquote || Ascii.eqb c backslash).

Definition wf_directive (d : string * option string) : bool :=
  negb (is_empty (fst d)) && string_all name_char (fst d) &&
  match snd d with Some a => string_all argument_char a | None => true end.

Definition quote (a : string) : string := String dquote (a +:+ String dquote "").

(** [name] or [name="argument"] *)
Definition render_directive (d : string * option string) : string :=
  match d with
  | (n, Some a) => n +:+ String "=" (quote a)
  | (n, None) => n
  end.

Definition render_directives (ds : list (string * option string)) : string :=
  str_join ", " (map render_directive ds).

Section char_facts.
Lemma name_char_scan c : name_char c = true ->
  Ascii.eqb c dquote = false /\ Ascii.eqb c "," = false /\ Ascii.eqb c "=" = false /\
  below_128 c = true /\ white1 c = false /\ visible_ascii c = true /\ ascii_lower c = c.
Proof.
  intros H. rewrite <- Ascii.eqb_eq, <- !not_true_iff_false.
  assert (forall P : ascii -> bool,
    (forall c, implb (name_char c) (P c) = true) -> P c = true) as Himp.
  { intros P HP. specialize (HP c). by rewrite H in HP. }
  repeat split; rewrite ?not_true_iff_false, <- ?negb_true_iff;
    (match goal with |- ?t = true =>
      match eval pattern c in t with ?P _ => apply (Himp P) end end);
    intros x; by_byte x.
Qed.

Lemma argument_char_scan c : argument_char c = true ->
  Ascii.eqb c dquote = false /\ Ascii.eqb c backslash = false /\
  below_128 c = true /\ visible_ascii c = true.
Proof.
  intros H. rewrite <- !not_true_iff_false.
  assert (forall P : ascii -> bool,
    (forall c, implb (argument_char c) (P c) = true) -> P c = true) as Himp.
  { intros P HP. specialize (HP c). by rewrite H in HP. }
  repeat split; rewrite ?not_true_iff_false, <- ?negb_true_iff;
    (match goal with |- ?t = true =>
      match eval pattern c in t with ?P _ => apply (Himp P) end end);
    intros x; by_byte x.
Qed.
End char_facts.

Lemma scan_name n y : string_all name_char n = true ->
  scan false false (n +:+ y) = scan false false y.
Proof.
  induction n as [|c n IH]; [done|]. rewrite string_app_cons. simpl.
  rewrite andb_true_iff. intros [(Hd & Hc & _)%name_char_scan Hn].
  by rewrite Hd, Hc, andb_false_r, (IH Hn).
Qed.

Lemma scan_argument a y : string_all argument_char a = true ->
  scan true false (a +:+ y) = scan true false y.
Proof.
  induction a as [|c a IH]; [done|]. rewrite string_app_cons. simpl.
  rewrite andb_true_iff. intros [(Hd & Hb & _)%argument_char_scan Ha].
  by rewrite Hd, Hb, andb_false_r, (IH Ha).
Qed.

Lemma scan_render d : wf_directive d = true ->
  scan false false (render_directive d) = Some (false, false).
Proof.
  destruct d as [n [a|]]; unfold wf_directive; simpl; rewrite !andb_true_iff.
  - intros [[_ Hn] Ha]. rewrite (scan_name _ _ Hn).
    change (scan false false (String "=" (quote a)))
      with (scan true false (a +:+ String dquote "")).
    by rewrite (scan_argument _ _ Ha).
  - intros [[_ Hn] _]. rewrite <- (string_app_nil_r n). by rewrite (scan_name _ _ Hn).
Qed.

(** ** Parsing printed directives *)

Lemma split_once_at sep n y :
  string_all (fun c => negb (Ascii.eqb c sep)) n = true ->
  split_once sep (n +:+ String sep y) = Some (n, y).
Proof.
  induction n as [|c n IH].
  - intros _. simpl. by rewrite Ascii.eqb_refl.
  - rewrite string_app_cons. simpl. rewrite andb_true_iff, negb_true_iff.
    intros [-> Hn]. by rewrite (IH Hn).
Qed.

Lemma split_once_none sep n :
  string_all (fun c => negb (Ascii.eqb c sep)) n = true -> split_once sep n = None.
Proof.
  induction n as [|c n IH]; [done|]. simpl. rewrite andb_true_iff, negb_true_iff.
  intros [-> Hn]. by rewrite (IH Hn).
Qed.

Lemma strip_suffix_app c a : strip_suffix c (a +:+ String c "") = Some a.
Proof.
  induction a as [|x a IH]; [simpl; by rewrite Ascii.eqb_refl|].
  rewrite string_app_cons. simpl. rewrite IH.
  destruct a; done.
Qed.

Lemma starts_solid_rev_app a c s :
  below_128 c && negb (white1 c) = true -> starts_solid (String.rev (a +:+ String c s)) =
  starts_solid (String.rev (String c s)).
Proof.
  intros Hc. rewrite string_rev_app, rev_cons.
  destruct (String.rev s) as [|x r]; done.
Qed.

Lemma name_facts n : string_all name_char n = true ->
  string_all below_128 n = true /\ starts_solid n = true /\
  string_all visible_ascii n = true /\ to_ascii_lowercase n = n /\
  string_all (fun c => negb (Ascii.eqb c "=")) n = true.
Proof.
  intros H. repeat split.
  - revert H. apply string_all_impl. by intros c (_ & _ & _ & ? & _)%name_char_scan.
  - destruct n as [|c n]; [done|]. simpl in *. apply andb_true_iff in H as [H _].
    apply name_char_scan in H as (_ & _ & _ & -> & -> & _). done.
  - revert H. apply string_all_impl. by intros c (_ & _ & _ & _ & _ & ? & _)%name_char_scan.
  - apply string_map_id. revert H. apply string_all_impl.
    intros c (_ & _ & _ & _ & _ & _ & ?)%name_char_scan. by apply Ascii.eqb_eq.
  - revert H. apply string_all_impl. intros c (_ & _ & -> & _)%name_char_scan. done.
Qed.

Lemma trim_name n : string_all name_char n = true -> trim n = n.
Proof.
  intros H. destruct (name_facts n H) as (Hb & Hs & _).
  apply trim_solid; [done..|].
  rewrite <- string_all_rev in H. by apply name_facts.
Qed.

Lemma trim_quote a : string_all argument_char a = true -> trim (quote a) = quote a.
Proof.
  intros H. unfold quote. apply trim_solid; [|done|].
  - simpl. rewrite string_all_app, andb_true_iff. split; [|done].
    revert H. apply string_all_impl. by intros c (_ & _ & ? & _)%argument_char_scan.
  - rewrite <- string_app_cons. by rewrite starts_solid_rev_app.
Qed.

(** the optional space that follows the comma in a printed list *)
Definition pad (b : bool) (s : string) : string := if b then String " " s else s.

Lemma trim_pad b s : trim (pad b s) = trim s.
Proof. destruct b; [|done]. unfold trim, pad. by rewrite trim_start_white. Qed.

Lemma string_all_pad f b s : f " "%char = true -> string_all f (pad b s) = string_all f s.
Proof. destruct b; simpl; [|done]. by intros ->. Qed.

Lemma parse_part_render b d : wf_directive d = true ->
  parse_part (pad b (render_directive d)) = Some d.
Proof.
  destruct d as [n [a|]]; unfold wf_directive; simpl;
    rewrite !andb_true_iff, negb_true_iff; intros [[He Hn] Ha];
    destruct (name_facts n Hn) as (_ & _ & _ & Hl & Heq).
  - assert (pad b (n +:+ String "=" (quote a)) = (pad b n +:+ String "=" (quote a)))%string
      as -> by by destruct b.
    unfold parse_part. rewrite split_once_at by by rewrite string_all_pad.
    cbv zeta. rewrite trim_pad, (trim_name n Hn), Hl, He, (trim_quote a Ha).
    unfold quote at 1, strip_prefix. rewrite Ascii.eqb_refl. simpl.
    by rewrite strip_suffix_app.
  - unfold parse_part. rewrite split_once_none by by rewrite string_all_pad.
    cbv zeta. by rewrite trim_pad, (trim_name n Hn), Hl, He.
Qed.

Lemma scan_pad b s : scan false false (pad b s) = scan false false s.
Proof. by destruct b. Qed.

(** the parts of a printed list are the printed directives *)
Lemma split_rendered b d ds : forallb wf_directive (d :: ds) = true ->
  split_quoted false false (pad b (render_directives (d :: ds))) =
  pad b (render_directive d) :: map (fun d => pad true (render_directive d)) ds.
Proof.
  revert b d. induction ds as [|d' ds IH]; intros b d; simpl; rewrite andb_true_iff.
  - intros [Hd _]. apply split_quoted_single. by rewrite scan_pad, scan_render.
  - intros [Hd Hds].
    assert (pad b (render_directives (d :: d' :: ds)) =
      pad b (render_directive d) +:+ String "," (pad true (render_directives (d' :: ds))))%string
      as -> by by destruct b.
    rewrite (split_scan _ _ _ _ false false) by by rewrite scan_pad, scan_render.
    change (split_quoted false false (String "," ?s))
      with ("" :: split_quoted false false s)%string.
    rewrite (IH true d' Hds). simpl. by rewrite string_app_nil_r.
Qed.

Lemma render_visible d : wf_directive d = true ->
  string_all visible_ascii (render_directive d) = true.
Proof.
  destruct d as [n [a|]]; unfold wf_directive; simpl;
    rewrite !andb_true_iff; intros [[_ Hn] Ha];
    destruct (name_facts n Hn) as (_ & _ & Hv & _); [|done].
  rewrite string_all_app, Hv. simpl. rewrite string_all_app. simpl.
  rewrite andb_true_r. revert Ha. apply string_all_impl.
  by intros c (_ & _ & _ & ?)%argument_char_scan.
Qed.

Lemma render_directives_visible ds : forallb wf_directive ds = true ->
  string_all visible_ascii (render_directives ds) = true.
Proof.
  induction ds as [|d [|d' ds] IH]; [done|..]; simpl; rewrite andb_true_iff.
  - intros [Hd _]. by apply render_visible.
  - intros [Hd Hds]. specialize (IH Hds).
    unfold render_directives, str_join in *. simpl in *.
    rewrite string_all_app, (render_visible _ Hd). exact IH.
Qed.

Section parse.
Context `{HttpLaws}.

Lemma Directives_parse_single v : string_all visible_ascii v = true ->
  Directives_parse [v] =
  {| directives_list := omap parse_part (split_quoted false false v); malformed := false |}.
Proof.
  intros Hv. unfold Directives_parse. simpl. unfold parse_value.
  by rewrite to_str_visible, Hv, split_outside_quotes_quoted.
Qed.

Lemma parse_rendered d ds : forallb wf_directive (d :: ds) = true ->
  Directives_parse [render_directives (d :: ds)] =
  {| directives_list := d :: ds; malformed := false |}.
Proof.
  intros Hwf. rewrite Directives_parse_single by by apply render_directives_visible.
  f_equal. change (render_directives (d :: ds)) with (pad false (render_directives (d :: ds))).
  rewrite split_rendered by done. simpl in Hwf. apply andb_true_iff in Hwf as [Hd Hds].
  cbn [omap list_omap]. rewrite parse_part_render by done. f_equal.
  induction ds as [|d' ds IH]; [done|]. simpl in Hds. apply andb_true_iff in Hds as [Hd' Hds].
  cbn [map omap list_omap]. rewrite parse_part_render by done. f_equal. by apply IH.
Qed.
End parse.

(** ** Reading directives *)

Lemma has_elem d name :
  has d name = true <-> exists a, (name, a) ∈ directives_list d.
Proof.
  unfold has. rewrite existsb_elem. split.
  - intros [[n a] [? Heq%String.eqb_eq]]. simpl in Heq. subst. eauto.
  - intros [a ?]. exists (name, a). split; [done|apply String.eqb_refl].
Qed.

Lemma seconds_has d name : is_some (seconds d name) = has d name.
Proof.
  unfold seconds, has. induction (directives_list d) as [|[n a] l IH]; [done|]. simpl.
  destruct (String.eqb n name); [|exact IH]. by destruct (_ || _).
Qed.

Lemma seconds_bound d name t :
  seconds d name = Some t -> t <= Duration_from_secs u64_MAX.
Proof.
  unfold seconds. intros H. repeat case_match; simplify_eq/=; [apply N.le_0_l|].
  destruct (u64_from_str _) as [n|] eqn:E; simpl; [|done].
  apply u64_from_str_bound in E. unfold Duration_from_secs. by apply N.mul_le_mono_r.
Qed.

Lemma find_app_skip {A} (f : A -> bool) l1 l2 :
  existsb f l1 = false -> List.find f (l1 ++ l2) = List.find f l2.
Proof.
  induction l1 as [|x l1 IH]; [done|]. simpl. rewrite orb_false_iff. intros [-> ?]. auto.
Qed.

Lemma seconds_first ds1 name a ds2 m :
  existsb (fun na => String.eqb (fst na) name) ds1 = false ->
  seconds {| directives_list := ds1 ++ (name, a) :: ds2; malformed := m |} name =
  seconds {| directives_list := [(name, a)]; malformed := false |} name.
Proof.
  intros H. unfold seconds. cbn [directives_list]. rewrite find_app_skip by done.
  simpl. by rewrite String.eqb_refl.
Qed.

Lemma seconds_decimal name n :
  seconds {| directives_list := [(name, Some (u64_to_string n))]; malformed := false |} name
  = Some (Duration_from_secs (N.min n u64_MAX)).
Proof.
  unfold seconds. simpl. rewrite String.eqb_refl. simpl.
  rewrite u64_to_string_nonempty, u64_to_string_digits, u64_from_to_string. simpl.
  destruct (N.leb_spec n u64_MAX); simpl; do 2 f_equal; lia.
Qed.

(** C28. [split_outside_quotes], which slices the value by indices in one pass,
    agrees with the recursive specification of quoted splitting; joining its
    parts with commas gives the value back, and no part can be split
    further. *)
Theorem split_outside_quotes_spec (v : string) :
  split_outside_quotes v = split_quoted false false v /\
  str_join "," (split_outside_quotes v) = v /\
  Forall (fun p => split_outside_quotes p = [p]) (split_outside_quotes v).
Proof.
  rewrite split_outside_quotes_quoted. split_and!; [done|apply str_join_split_quoted|].
  destruct (split_quoted_cons false false v) as (p & ps & E).
  destruct (split_quoted_parts_scan _ _ _ _ _ E) as [Hp Hps].
  rewrite E. apply Forall_forall. intros p' Hp'.
  rewrite split_outside_quotes_quoted. apply split_quoted_single.
  apply elem_of_cons in Hp' as [->|Hp']; [done|]. by eapply Forall_forall in Hps.
Qed.

(** C27. Printing a list of directives and parsing it gives the same list: names
    and arguments, valueless directives, and commas and white space inside
    quoted arguments all survive. *)
Theorem Directives_parse_render `{HttpLaws} (ds : list (string * option string)) :
  ds <> [] -> forallb wf_directive ds = true ->
  Directives_parse [render_directives ds] =
  {| directives_list := ds; malformed := false |}.
Proof. destruct ds as [|d ds]; [done|]. intros _. apply parse_rendered. Qed.

Lemma Directives_parse_render_witness :
  Directives_parse [render_directives
    [("no-cache", Some "set-cookie, x-foo"); ("public", None); ("max-age", Some "5")]%string] =
  {| directives_list :=
       [("no-cache", Some "set-cookie, x-foo"); ("public", None); ("max-age", Some "5")]%string;
     malformed := false |}.
Proof. apply Directives_parse_render; [discriminate | vm_compute; reflexivity]. Defined.

(** The delta-seconds of a directive are those of its first occurrence in
    the field, and any decimal number is read exactly, a number above the
    largest [u64] as that largest one. *)
Theorem seconds_reads_first `{HttpLaws} (ds1 ds2 : list (string * option string))
    (name : string) (n : N) :
  forallb wf_directive (ds1 ++ (name, Some (u64_to_string n)) :: ds2) = true ->
  has {| directives_list := ds1; malformed := false |} name = false ->
  seconds (Directives_parse
    [render_directives (ds1 ++ (name, Some (u64_to_string n)) :: ds2)]) name
  = Some (Duration_from_secs (N.min n u64_MAX)).
Proof.
  intros Hwf Hno. rewrite <- seconds_decimal with (name := name).
  destruct (ds1 ++ (name, Some (u64_to_string n)) :: ds2) as [|d ds] eqn:E;
    [by destruct ds1|].
  rewrite parse_rendered by done. rewrite <- E. by apply seconds_first.
Qed.

Lemma seconds_reads_first_witness :
  seconds (Directives_parse
    [render_directives [("public", None); ("max-age", Some "99999999999999999999999");
                        ("max-age", Some "5")]%string]) "max-age"
  = Some (Duration_from_secs u64_MAX).
Proof.
  apply (seconds_reads_first [("public", None)]%string [("max-age", Some "5")]%string
    "max-age" 99999999999999999999999); vm_compute; reflexivity.
Defined.

(** the unit tests of [src/cache.rs] *)
Example directive_names_ignore_case_and_space :
  let d := Directives_parse [" Public , MAX-AGE=60"]%string in
  has d "public" = true /\ seconds d "max-age" = Some (Duration_from_secs 60).
Proof. split; vm_compute; reflexivity. Qed.

Example invalid_delta_seconds_is_zero :
  map (fun v => seconds (Directives_parse [v]) "max-age")
    ["max-age=abc"; "max-age=-1"; "max-age"]%string
  = [Some 0; Some 0; Some 0].
Proof. vm_compute; reflexivity. Qed.
