(* ===== verification/Policy.v ===== *)
(** What the cache may do with a request and with a response: [RequestPolicy],
    [Storable], [StaleRules], [Vary] and the functions around them in
    [src/cache.rs]. [storable] decides whether this cache keeps the origin's
    response, by rules stricter than those of RFC 9111 section 3. The
    relations before [storable_rules] ([gives], [lifetime], [arrival_age],
    [stale_as], [varies_on]) state these rules on the fields themselves. *)

From stdpp Require Import base tactics option list gmap strings sorting.
From Stdlib Require Import Ascii.
From S2P Require Import Prelude RustStd Http Directives.

Local Open Scope N_scope.

(** ** Stale responses *)

(** what a response's Cache-Control allows once it is stale *)
Record StaleRules := {
  while_revalidate : Duration;
  if_error : Duration;
  must_revalidate : bool;
}.

Definition StaleRules_default : StaleRules :=
  {| while_revalidate := 0; if_error := 0; must_revalidate := false |}.

Definition StaleRules_parse (directives : Directives) : StaleRules := {|
  while_revalidate := unwrap_or (seconds directives "stale-while-revalidate") 0;
  if_error := unwrap_or (seconds directives "stale-if-error") 0;
  must_revalidate :=
    existsb (has directives) ["must-revalidate"; "proxy-revalidate"; "s-maxage"]%string;
|}.

(** how long a stale response stays in the store *)
Definition StaleRules_grace (rules : StaleRules) (has_validator : bool) (cap : Duration)
    : Duration :=
  let windows :=
    if must_revalidate rules then Duration_ZERO
    else N.max (while_revalidate rules) (if_error rules) in
  let revalidation := if has_validator then cap else Duration_ZERO in
  N.min (N.max windows revalidation) cap.

(** ** Updating stored fields from a 304 *)

Definition updated_fields (stored update : Fields) : Fields :=
  List.filter
    (fun f => negb (existsb (fun u => String.eqb (fst u) (fst f)) update)) stored
  ++ update.

(** ** Requests *)

(** request headers that ask the origin to treat the request as another
    method *)
Definition METHOD_OVERRIDE_HEADERS : list HeaderName :=
  ["x-http-method-override"; "x-http-method"; "x-method-override"]%string.

(** the fields that make a request conditional *)
Definition PRECONDITION_HEADERS : list HeaderName :=
  [header.IF_MATCH; header.IF_NONE_MATCH; header.IF_MODIFIED_SINCE;
   header.IF_UNMODIFIED_SINCE; header.IF_RANGE].

(** what the proxy may do with the cache for one request *)
Record RequestPolicy := {
  (** whether a stored response may answer the request *)
  may_serve : bool;
  (** the oldest stored response the client accepts *)
  max_age : option Duration;
  (** whether the origin's response may be stored *)
  may_store : bool;
  has_credentials : bool;
  (** whether the request has its own preconditions *)
  conditional : bool;
}.

Definition RequestPolicy_new `{HttpOps} (method : Method) (headers : HeaderMap)
    : RequestPolicy :=
  let directives := Directives_parse (HeaderMap_get_all headers header.CACHE_CONTROL) in
  let cacheable_method :=
    (String.eqb method GET || String.eqb method HEAD) &&
    negb (existsb (HeaderMap_contains_key headers) METHOD_OVERRIDE_HEADERS) in
  let no_store := malformed directives || has directives "no-store" in
  {| may_serve := cacheable_method && negb no_store && negb (has directives "no-cache");
     max_age := seconds directives "max-age";
     may_store := cacheable_method && String.eqb method GET && negb no_store;
     has_credentials :=
       HeaderMap_contains_key headers header.AUTHORIZATION ||
       HeaderMap_contains_key headers header.COOKIE;
     conditional := existsb (HeaderMap_contains_key headers) PRECONDITION_HEADERS |}.

(** whether the cache can neither answer the request nor store its response *)
Definition bypasses_cache (rp : RequestPolicy) : bool :=
  negb (may_serve rp) && negb (may_store rp).

(** whether a stale response may answer the request *)
Definition may_serve_stale (rp : RequestPolicy) : bool := is_none (max_age rp).

(** whether the request may wait for a concurrent request for the same key *)
Definition may_coalesce (rp : RequestPolicy) : bool :=
  may_serve rp && negb (has_credentials rp) && negb (conditional rp).

(** whether other requests may wait for this one's response *)
Definition may_lead (rp : RequestPolicy) : bool := may_coalesce rp && may_store rp.

(** ** [Vary] *)

(** the [Vary] field names of a response and the request's values for them *)
Record Vary := {
  names : list HeaderName;
  values : list (option string);
}.

Definition vary_values `{HttpOps} (names : list HeaderName) (request : HeaderMap)
    : list (option string) :=
  map (fun name =>
    let values := map (fun v => trim (from_utf8_lossy v)) (HeaderMap_get_all request name) in
    match values with [] => None | _ => Some (str_join ", " values) end) names.

(** the tokens of one [Vary] value *)
Definition vary_tokens (value : string) : list string := map trim (str_split "," value).

(** the body of the inner loop of [vary_names] *)
Definition push_vary_name `{HttpOps} (acc : option (list HeaderName)) (name : string)
    : option (list HeaderName) :=
  match acc with
  | None => None
  | Some names =>
      if String.eqb name "" then Some names
      else if String.eqb name "*" then None
      else match HeaderName_from_bytes name with
           | Some n => Some (names ++ [n])
           | None => None
           end
  end.

(** the body of the outer loop of [vary_names] *)
Definition push_vary_value `{HttpOps} (acc : option (list HeaderName)) (value : HeaderValue)
    : option (list HeaderName) :=
  match acc, to_str value with
  | Some names, Some value => fold_left push_vary_name (vary_tokens value) (Some names)
  | _, _ => None
  end.

Definition vary_names `{HttpOps} (response : HeaderMap) : option (list HeaderName) :=
  match fold_left push_vary_value (HeaderMap_get_all response header.VARY) (Some []) with
  | Some names => Some (dedup (sort_by_str names))
  | None => None
  end.

(** ** Responses *)

(** a response that the store may keep, and for how long *)
Record Storable := {
  storable_ttl : Duration;
  initial_age : Duration;
  stale : StaleRules;
}.

Definition Storable_default : Storable :=
  {| storable_ttl := 0; initial_age := 0; stale := StaleRules_default |}.

Definition CACHEABLE_BY_DEFAULT : list StatusCode :=
  [200; 203; 204; 300; 301; 308; 404; 405; 410; 414; 501].

Definition UNSTORABLE_DIRECTIVES : list string :=
  ["no-store"; "private"; "no-cache"]%string.

Definition storable_response_directives `{HttpOps} (status : StatusCode)
    (response : HeaderMap) : option Directives :=
  if negb (existsb (N.eqb status) CACHEABLE_BY_DEFAULT)
     || HeaderMap_contains_key response header.SET_COOKIE
  then None
  else
    let directives := Directives_parse (HeaderMap_get_all response header.CACHE_CONTROL) in
    let unstorable := malformed directives || existsb (has directives) UNSTORABLE_DIRECTIVES in
    if negb unstorable then Some directives else None.

Definition http_date `{HttpOps} (value : HeaderValue) : option SystemTime :=
  to_str value ≫= parse_http_date.

(** the freshness lifetime from s-maxage, max-age or Expires. [now] is the
    value of [SystemTime::now()] *)
Definition freshness_lifetime `{HttpOps} (now : SystemTime) (directives : Directives)
    (response : HeaderMap) : option Duration :=
  match (match seconds directives "s-maxage" with
         | Some lifetime => Some lifetime
         | None => seconds directives "max-age"
         end) with
  | Some lifetime => Some lifetime
  | None =>
      match HeaderMap_get response header.EXPIRES with
      | None => None
      | Some expires =>
          match http_date expires with
          | None => Some Duration_ZERO
          | Some expires =>
              let date :=
                unwrap_or (HeaderMap_get response header.DATE ≫= http_date) now in
              Some (unwrap_or (SystemTime_duration_since expires date) Duration_ZERO)
          end
      end
  end.

(** the origin's [Age], or zero *)
Definition response_age `{HttpOps} (response : HeaderMap) : Duration :=
  match HeaderMap_get response header.AGE ≫= (fun v => to_str v ≫= u64_from_str) with
  | Some secs => Duration_from_secs secs
  | None => Duration_ZERO
  end.

Definition storable `{HttpOps} (now : SystemTime) (request_policy : RequestPolicy)
    (request : HeaderMap) (status : StatusCode) (response : HeaderMap)
    : option (Storable * Vary) :=
  if negb (may_store request_policy) then None else
  directives ← storable_response_directives status response;
  if has_credentials request_policy && negb (has directives "public") then None else
  names ← vary_names response;
  let initial_age := response_age response in
  lifetime ← freshness_lifetime now directives response;
  ttl ← Duration_checked_sub lifetime initial_age;
  if Duration_is_zero ttl then None else
  let values := vary_values names request in
  Some ({| storable_ttl := ttl; initial_age := initial_age;
           stale := StaleRules_parse directives |},
        {| names := names; values := values |}).

#[export] Instance Vary_eq_dec : EqDecision Vary.
Proof. solve_decision. Defined.
#[export] Instance StaleRules_eq_dec : EqDecision StaleRules.
Proof. solve_decision. Defined.

(** ** Fields updated from a 304 *)

Lemma existsb_name (name : HeaderName) (update : Fields) :
  existsb (fun u => String.eqb (fst u) name) update = negb (bool_decide (values_of name update = [])).
Proof.
  induction update as [|[n v] update IH]; [done|]. simpl. rewrite values_of_cons.
  destruct (String.eqb n name); [done|exact IH].
Qed.

(** the values of [name] among the stored fields that [update] leaves *)
Lemma values_of_kept name (stored update : Fields) :
  values_of name (List.filter
    (fun f => negb (existsb (fun u => String.eqb (fst u) (fst f)) update)) stored) =
  if bool_decide (values_of name update = []) then values_of name stored else [].
Proof.
  induction stored as [|[n v] stored IH]; simpl; [by case_match|].
  rewrite existsb_name, negb_involutive.
  destruct (String.eqb_spec n name) as [->|Hne].
  - case_bool_decide; rewrite ?values_of_cons, ?String.eqb_refl, IH; done.
  - apply String.eqb_neq in Hne.
    destruct (bool_decide (values_of n update = [])); rewrite !values_of_cons, Hne, IH;
      by case_match.
Qed.

Lemma values_of_updated name (stored update : Fields) :
  values_of name (updated_fields stored update) =
  if bool_decide (values_of name update = []) then values_of name stored
  else values_of name update.
Proof.
  unfold updated_fields. rewrite values_of_app, values_of_kept.
  case_bool_decide as E; [by rewrite E, app_nil_r|done].
Qed.

(** A 304 replaces the stored values of exactly the names it carries, keeps
    every other stored field with its order and repetitions, and applying the
    same 304 twice changes nothing more. *)
Theorem updated_fields_values (stored update : Fields) :
  (forall name, values_of name (updated_fields stored update) =
     if bool_decide (values_of name update = []) then values_of name stored
     else values_of name update) /\
  updated_fields (updated_fields stored update) update = updated_fields stored update.
Proof.
  split.
  - intros name. apply values_of_updated.
  - unfold updated_fields. rewrite List.filter_app, filter_idemp. f_equal.
    rewrite (filter_none _ update); [by rewrite app_nil_r|].
    intros f Hf. apply negb_false_iff, existsb_elem.
    exists f. split; [done|apply String.eqb_refl].
Qed.

(** ** The grace period *)

(** whether a response that has been stale for [staleness] is still of use:
    to be revalidated, or to be served stale in one of its windows *)
Definition useful_stale (rules : StaleRules) (has_validator : bool) (staleness : Duration)
    : Prop :=
  has_validator = true \/
  (must_revalidate rules = false /\
   (staleness < while_revalidate rules \/ staleness < if_error rules)).

(** The store keeps a stale response exactly as long as it can be used,
    and never for longer than the cap. *)
Theorem grace_exact (rules : StaleRules) (has_validator : bool) (cap staleness : Duration) :
  staleness < StaleRules_grace rules has_validator cap <->
  staleness < cap /\ useful_stale rules has_validator staleness.
Proof.
  unfold StaleRules_grace, useful_stale, Duration_ZERO.
  destruct (must_revalidate rules), has_validator; rewrite N.min_lt_iff || idtac;
    split; intros H; try (split; [lia|]); try naive_solver lia.
Qed.

Lemma grace_le_cap rules has_validator cap :
  StaleRules_grace rules has_validator cap <= cap.
Proof. unfold StaleRules_grace. lia. Qed.

(** ** [Vary] names *)

(** [n] is one of the field names that the response's [Vary] values list *)
Definition lists_vary_name `{HttpOps} (response : HeaderMap) (n : HeaderName) : Prop :=
  exists value token, value ∈ HeaderMap_get_all response header.VARY /\
    token ∈ vary_tokens value /\ token <> ""%string /\
    HeaderName_from_bytes token = Some n.

Section vary.
Context `{HttpLaws}.

Lemma push_vary_name_None tokens : fold_left push_vary_name tokens None = None.
Proof. by induction tokens. Qed.

Lemma push_vary_name_Some tokens acc ns :
  fold_left push_vary_name tokens (Some acc) = Some ns ->
  ("*"%string ∉ tokens) /\
  forall n, n ∈ ns <-> n ∈ acc \/
    exists token, token ∈ tokens /\ token <> ""%string /\
      HeaderName_from_bytes token = Some n.
Proof.
  revert acc. induction tokens as [|t tokens IH]; intros acc; simpl.
  - intros [= ->]. split; [apply not_elem_of_nil|]. intros n. set_solver.
  - destruct (String.eqb_spec t "") as [->|Hne].
    { intros [Hs Hn]%IH. split; [set_solver|]. intros n. rewrite Hn.
      setoid_rewrite elem_of_cons. naive_solver. }
    destruct (String.eqb_spec t "*") as [->|Hs].
    { by rewrite push_vary_name_None. }
    destruct (HeaderName_from_bytes t) as [m|] eqn:E; [|by rewrite push_vary_name_None].
    intros [Hst Hn]%IH. split; [set_solver|]. intros n. rewrite Hn.
    setoid_rewrite elem_of_cons. rewrite elem_of_app, list_elem_of_singleton. naive_solver.
Qed.

Lemma push_vary_value_None vs : fold_left push_vary_value vs None = None.
Proof. induction vs as [|v vs IH]; [done|]. simpl. by destruct (to_str v). Qed.

Lemma push_vary_value_Some vs acc ns :
  fold_left push_vary_value vs (Some acc) = Some ns ->
  (forall v, v ∈ vs -> "*"%string ∉ vary_tokens v) /\
  forall n, n ∈ ns <-> n ∈ acc \/
    exists v token, v ∈ vs /\ token ∈ vary_tokens v /\ token <> ""%string /\
      HeaderName_from_bytes token = Some n.
Proof.
  revert acc. induction vs as [|v vs IH]; intros acc; cbn [fold_left push_vary_value].
  - intros [= ->]. split; [set_solver|]. intros n. set_solver.
  - destruct (to_str v) as [s|] eqn:Ev; [|by rewrite push_vary_value_None].
    apply to_str_Some in Ev as ->.
    destruct (fold_left push_vary_name (vary_tokens v) (Some acc)) as [acc'|] eqn:E;
      [|by rewrite push_vary_value_None].
    apply push_vary_name_Some in E as [Hs Hacc]. intros [Hs' Hns]%IH. split.
    + intros w [->|Hw]%elem_of_cons; auto.
    + intros n. rewrite Hns, Hacc. setoid_rewrite elem_of_cons. naive_solver.
Qed.





Lemma vary_names_spec response ns : vary_names response = Some ns ->
  StronglySorted str_lt ns /\
  (forall n, n ∈ ns <-> lists_vary_name response n) /\
  (forall value, value ∈ HeaderMap_get_all response header.VARY ->
     "*"%string ∉ vary_tokens value).
Proof.
  unfold vary_names. destruct (fold_left _ _ _) as [l|] eqn:E; [|done].
  intros [= <-]. apply push_vary_value_Some in E as [Hs Hl]. split_and!; [| |done].
  - apply dedup_sorted, Sorted_sort_by_str.
  - intros n. rewrite elem_of_dedup, elem_of_sort_by_str, Hl. unfold lists_vary_name.
    split; [|by right]. intros [Hn|Hn]; [|done]. inversion Hn.
Qed.

End vary.

(** C29. The [Vary] names of a response are sorted without repetition, are
    exactly the non-empty tokens that any of its [Vary] values lists, and so
    do not depend on how the origin orders, repeats or splits them; a response
    with [Vary: *] has none. *)
Theorem vary_names_canonical `{HttpLaws} (r1 r2 : HeaderMap) (ns1 ns2 : list HeaderName) :
  vary_names r1 = Some ns1 -> vary_names r2 = Some ns2 ->
  StronglySorted str_lt ns1 /\
  (forall value, value ∈ HeaderMap_get_all r1 header.VARY ->
     "*"%string ∉ vary_tokens value) /\
  (forall n, n ∈ ns1 <-> lists_vary_name r1 n) /\
  ((forall n, lists_vary_name r1 n <-> lists_vary_name r2 n) <-> ns1 = ns2).
Proof.
  intros (Hs1 & Hn1 & Hstar)%vary_names_spec (Hs2 & Hn2 & _)%vary_names_spec.
  split_and!; [done..|]. split.
  - intros Hiff. apply str_lt_sorted_unique; [done..|].
    intros n. by rewrite Hn1, Hn2.
  - intros -> n. by rewrite <- Hn1, <- Hn2.
Qed.

(** [Vary: Accept, cookie] and [Vary: COOKIE] followed by [Vary: accept,] *)
Lemma vary_names_canonical_witness :
  let r1 : @HeaderMap RefHttp := [("vary", "Accept, cookie")]%string in
  let r2 : @HeaderMap RefHttp := [("vary", "COOKIE"); ("vary", "accept,")]%string in
  StronglySorted str_lt ["accept"; "cookie"]%string /\
  forall n, lists_vary_name r1 n <-> lists_vary_name r2 n.
Proof.
  intros r1 r2.
  destruct (vary_names_canonical r1 r2 ["accept"; "cookie"] ["accept"; "cookie"])%string
    as (Hs & _ & _ & Hiff); [vm_compute; reflexivity..|].
  split; [exact Hs|]. by apply Hiff.
Defined.

(** ** When a response may be stored *)

(** what makes a request's response a candidate for the store *)
Record request_may_store `{HttpOps} (method : Method) (request : HeaderMap) : Prop := {
  rms_get : method = GET;
  rms_override : forall h, h ∈ METHOD_OVERRIDE_HEADERS -> HeaderMap_get_all request h = [];
  rms_visible : malformed
    (Directives_parse (HeaderMap_get_all request header.CACHE_CONTROL)) = false;
  rms_no_store : has
    (Directives_parse (HeaderMap_get_all request header.CACHE_CONTROL)) "no-store" = false;
}.

(** what the response itself must be, with [d] its directives *)
Record response_may_store `{HttpOps} (status : StatusCode) (response : HeaderMap)
    (d : Directives) : Prop := {
  rsp_status : status ∈ CACHEABLE_BY_DEFAULT;
  rsp_cookie : HeaderMap_get_all response header.SET_COOKIE = [];
  rsp_directives : d = Directives_parse (HeaderMap_get_all response header.CACHE_CONTROL);
  rsp_visible : malformed d = false;
  rsp_storable : forall name, name ∈ UNSTORABLE_DIRECTIVES -> has d name = false;
}.

(** [request] carries credentials *)
Definition credentialed `{HttpOps} (request : HeaderMap) : Prop :=
  HeaderMap_get_all request header.AUTHORIZATION <> [] \/
  HeaderMap_get_all request header.COOKIE <> [].

Section storable.
Context `{HttpLaws}.

Lemma overrides_false (request : HeaderMap) :
  existsb (HeaderMap_contains_key request) METHOD_OVERRIDE_HEADERS = false <->
  forall h, h ∈ METHOD_OVERRIDE_HEADERS -> HeaderMap_get_all request h = [].
Proof.
  rewrite existsb_not_elem. by setoid_rewrite HeaderMap_contains_key_false.
Qed.

Lemma may_store_iff method request :
  may_store (RequestPolicy_new method request) = true <->
  request_may_store method request.
Proof.
  unfold RequestPolicy_new; cbn [may_store].
  rewrite !andb_true_iff, orb_true_iff, !negb_true_iff, orb_false_iff,
    overrides_false, !String.eqb_eq.
  split; [intros [[[_ ?] ?] [? ?]]; by constructor|].
  intros [-> ? ? ?]. naive_solver.
Qed.

Lemma has_credentials_iff method request :
  has_credentials (RequestPolicy_new method request) = true <-> credentialed request.
Proof.
  unfold RequestPolicy_new, credentialed; cbn [has_credentials].
  rewrite orb_true_iff, !HeaderMap_contains_key_spec, !negb_true_iff.
  by rewrite !bool_decide_eq_false.
Qed.

Lemma storable_response_directives_Some status response d :
  storable_response_directives status response = Some d <->
  response_may_store status response d.
Proof.
  unfold storable_response_directives. split.
  - destruct (negb _ || _) eqn:E; [done|].
    apply orb_false_iff in E as [E1%negb_false_iff E2%HeaderMap_contains_key_false].
    destruct (negb (_ || _)) eqn:E3; [|done]. intros [= <-].
    apply negb_true_iff, orb_false_iff in E3 as [E3 E4].
    constructor; try done.
    + apply existsb_elem in E1 as (x & Hx & ->%N.eqb_eq). done.
    + by rewrite existsb_not_elem in E4.
  - intros [Hs Hc -> Hv Hu].
    assert (existsb (N.eqb status) CACHEABLE_BY_DEFAULT = true) as ->.
    { apply existsb_elem. exists status. by rewrite N.eqb_refl. }
    apply HeaderMap_contains_key_false in Hc as ->. rewrite Hv.
    apply existsb_not_elem in Hu as ->. done.
Qed.

Lemma storable_Some now rp request status response p v :
  storable now rp request status response = Some (p, v) <->
  may_store rp = true /\
  exists d, response_may_store status response d /\
    (has_credentials rp = true -> has d "public" = true) /\
    vary_names response = Some (names v) /\
    values v = vary_values (names v) request /\
    initial_age p = response_age response /\
    freshness_lifetime now d response = Some (storable_ttl p + initial_age p) /\
    0 < storable_ttl p /\ stale p = StaleRules_parse d.
Proof.
  unfold storable. destruct (may_store rp); [simpl|naive_solver].
  setoid_rewrite <- storable_response_directives_Some.
  destruct (storable_response_directives status response) as [d|]; simpl; [|naive_solver].
  assert (has_credentials rp && negb (has d "public") = false <->
    (has_credentials rp = true -> has d "public" = true)) as Hcred
    by (destruct (has_credentials rp), (has d "public"); naive_solver).
  destruct (has_credentials rp && negb (has d "public")) eqn:E.
  { split; [done|]. intros (_ & d' & [= <-] & Hp & _). by apply Hcred in Hp. }
  destruct (vary_names response) as [ns|]; simpl; [|naive_solver].
  destruct (freshness_lifetime now d response) as [l|] eqn:El; simpl; [|naive_solver].
  destruct (Duration_checked_sub l (response_age response)) as [t|] eqn:Et; simpl.
  - apply Duration_checked_sub_Some in Et as [Hle Heq]. unfold Duration_is_zero.
    destruct (N.eqb_spec t 0) as [->|Ht].
    + split; [done|]. intros (_ & d' & [= <-] & _ & _ & _ & Ha & Hl & Hpos & _).
      rewrite El in Hl. simplify_eq. lia.
    + split.
      * intros [= <- <-]. split; [done|]. exists d. simpl.
        split_and!; try done; [by apply Hcred|rewrite El; f_equal; lia|lia].
      * intros (_ & d' & [= <-] & _ & Hn & Hv & Ha & Hl & Hpos & Hst).
        rewrite El in Hl. destruct p, v; simplify_eq/=. do 3 f_equal. lia.
  - apply Duration_checked_sub_None in Et. split; [done|].
    intros (_ & d' & [= <-] & _ & _ & _ & Ha & Hl & _). rewrite El in Hl.
    simplify_eq. lia.
Qed.
End storable.

(** ** The rules of storing, stated on the fields themselves *)

(** a directive named [name], with an argument or without *)
Definition says (d : Directives) (name : string) : Prop :=
  exists a, (name, a) ∈ directives_list d.

(** the seconds an argument stands for: its digits as a number, [u64::MAX]
    when it is larger than that, and zero for anything but digits *)
Inductive delta_seconds : option string -> Duration -> Prop :=
  | delta_number digits n :
      digits <> ""%string -> string_all is_ascii_digit digits = true ->
      digits_value 0 digits = Some n ->
      delta_seconds (Some digits) (N.min n u64_MAX * NANOS)
  | delta_absent : delta_seconds None 0
  | delta_invalid a :
      a = ""%string \/ string_all is_ascii_digit a = false -> delta_seconds (Some a) 0.

(** the first directive named [name] stands for the time [t] *)
Definition gives (d : Directives) (name : string) (t : Duration) : Prop :=
  exists ds1 a ds2, directives_list d = ds1 ++ (name, a) :: ds2 /\
    (forall b, (name, b) ∉ ds1) /\ delta_seconds a t.


Section fields.
Context `{HttpOps}.

(** [value] is the date [t] *)
Definition dates (value : HeaderValue) (t : SystemTime) : Prop :=
  exists s, to_str value = Some s /\ parse_http_date s = Some t.

(** when the response was made: its Date, or [now] when it has no valid one *)
Definition made_at (now : SystemTime) (response : HeaderMap) (t : SystemTime) : Prop :=
  (exists v, HeaderMap_get response header.DATE = Some v /\ dates v t) \/
  ((forall v t', HeaderMap_get response header.DATE = Some v -> ~ dates v t') /\ t = now).

(** how long the response is fresh from the time it was made: s-maxage, else
    max-age, else the time from its date to Expires, of which an invalid
    Expires leaves nothing *)
Inductive lifetime (now : SystemTime) (d : Directives) (response : HeaderMap) :
    Duration -> Prop :=
  | lifetime_s_maxage t : gives d "s-maxage" t -> lifetime now d response t
  | lifetime_max_age t :
      ~ says d "s-maxage" -> gives d "max-age" t -> lifetime now d response t
  | lifetime_expires e te date :
      ~ says d "s-maxage" -> ~ says d "max-age" ->
      HeaderMap_get response header.EXPIRES = Some e -> dates e te ->
      made_at now response date -> lifetime now d response (Z.to_N (te - date))
  | lifetime_expired e :
      ~ says d "s-maxage" -> ~ says d "max-age" ->
      HeaderMap_get response header.EXPIRES = Some e -> (forall te, ~ dates e te) ->
      lifetime now d response 0.


End fields.

Section field_rules.
Context `{HttpLaws}.















End field_rules.


(** A request bypasses the cache exactly when its method is not GET or HEAD,
    it overrides its method, it forbids storing (or its [Cache-Control] is
    unreadable), or it is a HEAD that wants the origin's own answer. *)
Theorem bypasses_cache_iff `{HttpLaws} (method : Method) (request : HeaderMap) :
  let d := Directives_parse (HeaderMap_get_all request header.CACHE_CONTROL) in
  bypasses_cache (RequestPolicy_new method request) = true <->
  (method <> GET /\ method <> HEAD) \/
  (exists h, h ∈ METHOD_OVERRIDE_HEADERS /\ HeaderMap_get_all request h <> []) \/
  malformed d = true \/ has d "no-store" = true \/
  (method = HEAD /\ has d "no-cache" = true).
Proof.
  intros d.
  assert ((exists h, h ∈ METHOD_OVERRIDE_HEADERS /\ HeaderMap_get_all request h <> []) <->
    existsb (HeaderMap_contains_key request) METHOD_OVERRIDE_HEADERS = true) as ->.
  { rewrite existsb_elem. setoid_rewrite HeaderMap_contains_key_spec.
    setoid_rewrite negb_true_iff. by setoid_rewrite bool_decide_eq_false. }
  unfold bypasses_cache, RequestPolicy_new; fold d; cbn [may_serve may_store].
  assert (GET <> HEAD) as Hne by done.
  destruct (existsb (HeaderMap_contains_key request) METHOD_OVERRIDE_HEADERS), (malformed d),
    (has d "no-store"), (has d "no-cache"),
    (String.eqb_spec method GET), (String.eqb_spec method HEAD); simpl; naive_solver.
Qed.

Lemma may_lead_iff rp :
  may_lead rp = true <->
  may_serve rp = true /\ may_store rp = true /\
  has_credentials rp = false /\ conditional rp = false.
Proof.
  unfold may_lead, may_coalesce. rewrite !andb_true_iff, !negb_true_iff. naive_solver.
Qed.

(** Only a GET leads a flight, a request with credentials or preconditions
    of its own neither leads nor waits, and whatever leads may also be served
    and stored: so what a follower reads was stored for a request without
    credentials or from a response marked [public]. *)
Theorem coalescing_rules `{HttpLaws} (method : Method) (request : HeaderMap) :
  let rp := RequestPolicy_new method request in
  (may_lead rp = true -> method = GET /\ may_coalesce rp = true) /\
  (may_coalesce rp = true ->
     may_serve rp = true /\ ~ credentialed request /\
     forall h, h ∈ PRECONDITION_HEADERS -> HeaderMap_get_all request h = []) /\
  (method = GET -> may_coalesce rp = true -> may_lead rp = true).
Proof.
  intros rp. split_and!.
  - rewrite may_lead_iff. intros (Hs & Hst & Hc & Hp). subst rp.
    pose proof Hst as [-> _ _ _]%may_store_iff. split; [done|].
    unfold may_coalesce. by rewrite Hs, Hc, Hp.
  - unfold may_coalesce. rewrite !andb_true_iff, !negb_true_iff.
    intros [[Hs Hc] Hp]. split_and!; [done| |].
    + rewrite <- (has_credentials_iff method). fold rp. by rewrite Hc.
    + intros h Hh. apply HeaderMap_contains_key_false.
      by apply (existsb_false_elem _ PRECONDITION_HEADERS).
  - intros -> Hc. unfold may_lead. rewrite Hc. simpl.
    unfold may_coalesce, rp, RequestPolicy_new in *. cbn [may_serve may_store] in *.
    rewrite !andb_true_iff in *. naive_solver.
Qed.

(** ** Time bounds *)

(** the system clock is one that a Linux [SystemTime] can hold *)
Definition clock_ok (now : SystemTime) : Prop := (- 2 ^ 63 * 10 ^ 9 <= now)%Z.

Lemma freshness_lifetime_bound `{HttpLaws} now d response l :
  clock_ok now -> freshness_lifetime now d response = Some l ->
  l <= Duration_from_secs u64_MAX.
Proof.
  unfold clock_ok, freshness_lifetime. intros Hnow Hl.
  destruct (seconds d "s-maxage") eqn:E1; [simplify_eq; eauto using seconds_bound|].
  destruct (seconds d "max-age") eqn:E2; [simplify_eq; eauto using seconds_bound|].
  destruct (HeaderMap_get response header.EXPIRES) as [e|]; [|done].
  destruct (http_date e) as [t|] eqn:Et; simplify_eq; [|done].
  apply bind_Some in Et as (s & _ & [_ Ht]%parse_http_date_range).
  assert (- 2 ^ 63 * 10 ^ 9 <=
    unwrap_or (HeaderMap_get response header.DATE ≫= http_date) now)%Z as Hdate.
  { unfold unwrap_or. destruct (HeaderMap_get response header.DATE) as [dt|]; [|done]. simpl.
    destruct (http_date dt) as [t'|] eqn:Et'; [|done]. simpl.
    apply bind_Some in Et' as (s' & _ & [Ht' _]%parse_http_date_range). lia. }
  unfold SystemTime_duration_since, Duration_from_secs, u64_MAX, NANOS. simpl.
  destruct (Z.leb_spec (unwrap_or (HeaderMap_get response header.DATE ≫= http_date) now) t);
    simpl; [|apply N.le_0_l]. lia.
Qed.

Lemma storable_time_bound `{HttpLaws} now rp request status response p v :
  clock_ok now -> storable now rp request status response = Some (p, v) ->
  storable_ttl p + initial_age p <= Duration_from_secs u64_MAX.
Proof.
  intros Hc (_ & d & _ & _ & _ & _ & _ & Hl & _)%storable_Some.
  by eapply freshness_lifetime_bound.
Qed.
