(* ===== verification/Moka.v ===== *)
(** The [moka] cache, as the interface the store is written against. The crate
    is not part of the repository. [MokaOps] lists the calls the program
    makes and [MokaLaws] the documented behaviour it relies on: building a
    cache panics if its entries are to live for longer than 1000 years, and not
    else; a key maps to the last value inserted under it until it is
    invalidated, expires, or is evicted, and eviction may happen at any time.
    [moka_contents] is what the
    cache retains, each value with the time it expires; only the laws and the
    theorems mention it. [RefMoka], a cache that never evicts, satisfies the
    laws; the examples run on it. *)

From stdpp Require Import base tactics option list gmap fin_maps.
From S2P Require Import Prelude.

Local Open Scope N_scope.

(** how long an entry lives: a fixed [time_to_live], or what the methods
    [expire_after_create] and [expire_after_update] of an [Expiry] answer *)
Inductive Expiration (K V : Type) :=
| TimeToLive (d : Duration)
| ExpireAfter (create : K -> V -> option Duration)
    (update : K -> V -> option Duration -> option Duration).
Arguments TimeToLive {_ _} _.
Arguments ExpireAfter {_ _} _ _.

(** [Cache::builder()] with the options that the program sets *)
Record CacheConfig (K V : Type) := {
  max_capacity : N;
  weigher : K -> V -> N;
  expiration : Expiration K V;
}.
Arguments max_capacity {_ _} _.
Arguments weigher {_ _} _.
Arguments expiration {_ _} _.

(** every insertion is given a duration *)
Definition expires {K V} (cfg : CacheConfig K V) (k : K) (v : V) : Prop :=
  match expiration cfg with
  | TimeToLive _ => True
  | ExpireAfter create update =>
      (exists d, create k v = Some d) /\ forall current, exists d, update k v current = Some d
  end.

(** a duration that an insertion is given, which is a creation or an update *)
Definition insertion_duration {K V} (cfg : CacheConfig K V) (k : K) (v : V) (d : Duration)
    : Prop :=
  match expiration cfg with
  | TimeToLive t => d = t
  | ExpireAfter create update =>
      create k v = Some d \/ exists current, update k v current = Some d
  end.

(** 1000 years of 365 days, the longest [time_to_live] that [build] takes *)
Definition MAX_TIME_TO_LIVE : Duration := Duration_from_secs (1000 * 365 * 24 * 3600).

Class MokaOps (K V : Type) `{Countable K} := {
  Cache : Type;
  cache_build : CacheConfig K V -> Run Cache;
  cache_get : Instant -> K -> Cache -> option V;
  cache_insert : Instant -> K -> V -> Cache -> Cache;
  cache_invalidate : K -> Cache -> Cache;
  cache_run_pending_tasks : Instant -> Cache -> Cache;
  cache_entry_count : Cache -> N;
  cache_weighted_size : Cache -> N;
  moka_contents : Cache -> gmap K (V * Instant);
  moka_config : Cache -> CacheConfig K V;
}.
Arguments Cache K V {_ _ _}.

Class MokaLaws (K V : Type) `{MokaOps K V} : Prop := {
  moka_build cfg :
    (forall d, expiration cfg = TimeToLive d -> d <= MAX_TIME_TO_LIVE) ->
    exists c, cache_build cfg = Done c /\ moka_config c = cfg /\ moka_contents c = ∅;
  moka_build_panics cfg d :
    expiration cfg = TimeToLive d -> MAX_TIME_TO_LIVE < d -> cache_build cfg = Panic;
  moka_config_insert now k v c : moka_config (cache_insert now k v c) = moka_config c;
  moka_config_invalidate k c : moka_config (cache_invalidate k c) = moka_config c;
  moka_config_run now c : moka_config (cache_run_pending_tasks now c) = moka_config c;
  moka_contents_insert now k v c :
    expires (moka_config c) k v ->
    exists d, insertion_duration (moka_config c) k v d /\
      moka_contents (cache_insert now k v c) ⊆ <[k := (v, now + d)]> (moka_contents c);
  moka_contents_invalidate k c :
    moka_contents (cache_invalidate k c) ⊆ delete k (moka_contents c);
  moka_contents_run now c :
    moka_contents (cache_run_pending_tasks now c) ⊆ moka_contents c;
  cache_get_sound now k c v : cache_get now k c = Some v ->
    exists t, moka_contents c !! k = Some (v, t) /\ now < t;
  cache_get_retained now k c v t : moka_contents c !! k = Some (v, t) -> now < t ->
    cache_get now k c = Some v;
}.

Section laws.
Context `{MokaLaws K V}.

Lemma cache_get_None now k (c : Cache K V) :
  moka_contents c !! k = None -> cache_get now k c = None.
Proof.
  intros Hn. destruct (cache_get now k c) as [v|] eqn:E; [|done].
  apply cache_get_sound in E as (t & Hs & _). congruence.
Qed.

(** what is found for a key depends on what the cache holds for it *)
Lemma cache_get_same now k (c c' : Cache K V) :
  moka_contents c' !! k = moka_contents c !! k -> cache_get now k c' = cache_get now k c.
Proof.
  intros E. apply option_eq. intros v. split; intros (t & Hs & Ht)%cache_get_sound;
    (eapply cache_get_retained; [|exact Ht]); congruence.
Qed.

Lemma cache_get_invalidate now k (c : Cache K V) :
  cache_get now k (cache_invalidate k c) = None.
Proof.
  apply cache_get_None. pose proof (moka_contents_invalidate k c) as Hsub.
  destruct (moka_contents (cache_invalidate k c) !! k) as [x|] eqn:E; [|done].
  eapply lookup_weaken in E; [|exact Hsub]. by rewrite lookup_delete_eq in E.
Qed.

Lemma cache_get_weaken now k v (c c' : Cache K V) :
  moka_contents c' ⊆ moka_contents c ->
  cache_get now k c' = Some v -> cache_get now k c = Some v.
Proof.
  intros Hsub (t & Hs & Ht)%cache_get_sound.
  eapply cache_get_retained; [|exact Ht]. by eapply lookup_weaken.
Qed.

Lemma cache_get_invalidate_ne now k k' (v : V) (c : Cache K V) :
  cache_get now k' (cache_invalidate k c) = Some v ->
  k' <> k /\ cache_get now k' c = Some v.
Proof.
  intros Hg. assert (k' <> k) as Hne by (intros ->; by rewrite cache_get_invalidate in Hg).
  split; [done|]. apply cache_get_sound in Hg as (t & Hs & Ht).
  eapply cache_get_retained; [|exact Ht].
  eapply lookup_weaken in Hs; [|apply moka_contents_invalidate].
  by rewrite lookup_delete_ne in Hs.
Qed.
End laws.

(** ** A cache that never evicts *)

Record RefCache (K V : Type) `{Countable K} := {
  ref_config : CacheConfig K V;
  ref_map : gmap K (V * Instant);
}.
Arguments ref_config {_ _ _ _} _.
Arguments ref_map {_ _ _ _} _.

#[export] Instance RefMoka K V `{Countable K} : MokaOps K V := {|
  Cache := RefCache K V;
  cache_build cfg :=
    match expiration cfg with
    | TimeToLive d =>
        if d <=? MAX_TIME_TO_LIVE then Done {| ref_config := cfg; ref_map := ∅ |} else Panic
    | ExpireAfter _ _ => Done {| ref_config := cfg; ref_map := ∅ |}
    end;
  cache_get now k c :=
    match ref_map c !! k with
    | Some (v, t) => if now <? t then Some v else None
    | None => None
    end;
  cache_insert now k v c :=
    let d := match expiration (ref_config c), ref_map c !! k with
             | TimeToLive d, _ => Some d
             | ExpireAfter create _, None => create k v
             | ExpireAfter _ update, Some _ => update k v None
             end in
    {| ref_config := ref_config c;
       ref_map := <[k := (v, now + default 0 d)]> (ref_map c) |};
  cache_invalidate k c :=
    {| ref_config := ref_config c; ref_map := delete k (ref_map c) |};
  cache_run_pending_tasks now c := c;
  cache_entry_count c := N.of_nat (size (ref_map c));
  cache_weighted_size c :=
    map_fold (fun k v acc => weigher (ref_config c) k (fst v) + acc) 0 (ref_map c);
  moka_contents := ref_map;
  moka_config := ref_config;
|}.

#[export] Instance RefMokaLaws K V `{Countable K} : MokaLaws K V.
Proof.
  split; intros; try done; simpl in *.
  - destruct (expiration cfg) as [d|] eqn:Ed; [|by eexists].
    assert (d <=? MAX_TIME_TO_LIVE = true) as -> by (by apply N.leb_le, H0). by eexists.
  - rewrite H0. by apply N.leb_gt in H1 as ->.
  - unfold expires, insertion_duration in *. destruct (expiration (ref_config c)) as [d|create update].
    { by exists d. }
    destruct H0 as [[d Hd] Hu]. destruct (ref_map c !! k) as [x|] eqn:E.
    + destruct (Hu None) as [d' Hd']. exists d'. split; [right; eauto|]. by rewrite Hd'.
    + exists d. split; [by left|]. by rewrite Hd.
  - repeat case_match; simplify_eq. eexists. split; [done|]. by apply N.ltb_lt.
  - rewrite H0. by apply N.ltb_lt in H1 as ->.
Qed.
