(* ===== verification/Store.v ===== *)
(** The byte-bounded store of origin responses and assets: [PrimaryKey],
    [StoredResponse], [Store] and their methods in [src/cache.rs]. A method
    that mutates the store returns the store after it. [Arc]s carry the
    address of their allocation, because [Store::freshen] compares addresses;
    the store's [heap_next] is the next free one. [Store_new] panics where
    moka's [build] does. An operation reads the clock
    once, at its argument [now]. *)

From stdpp Require Import base tactics option list gmap strings.
From Stdlib Require Import Ascii.
From S2P Require Import Prelude RustStd Http Directives Policy Moka.

Local Open Scope N_scope.

Definition MIB : N := 1024 * 1024.

(** the largest body the store keeps *)
Definition MAX_ENTRY_BYTES : N := 8 * MIB.

(** the most target URIs whose [Vary] field names the store remembers *)
Definition MAX_INDEXED_URIS : N := 65536.

(** ** Keys *)

(** the cache key without the [Vary] part *)
Record PrimaryKey := {
  scheme : string;
  host : string;
  path_and_query : string;
}.

Definition PrimaryKey_new (scheme host path_and_query : string) : PrimaryKey := {|
  scheme := to_ascii_lowercase scheme;
  host := to_ascii_lowercase host;
  path_and_query := path_and_query;
|}.

Definition PrimaryKey_weight (k : PrimaryKey) : N :=
  str_len (scheme k) + str_len (host k) + str_len (path_and_query k).

(** the [Vary] field names of the latest stored response for a URI, and the
    generation that the stored variants' keys carry *)
Record Index := {
  index_vary : list HeaderName;
  index_generation : N;
}.

Record ResponseKey := {
  primary : PrimaryKey;
  generation : N;
  (** the request's values for the index's [Vary] field names, in order *)
  vary : list (option string);
}.

(** the key that concurrent requests coalesce on *)
Record FlightKey := {
  flight_primary : PrimaryKey;
  flight_vary : list (option string);
}.

Inductive Key :=
| Key_Asset (path : string)
| Key_Response (key : ResponseKey).

#[export] Instance PrimaryKey_eq_dec : EqDecision PrimaryKey.
Proof. solve_decision. Defined.
#[export] Instance PrimaryKey_countable : Countable PrimaryKey.
Proof.
  apply (inj_countable' (fun k => (scheme k, host k, path_and_query k))
    (fun '(s, h, p) => {| scheme := s; host := h; path_and_query := p |})).
  by intros [].
Defined.
#[export] Instance Index_eq_dec : EqDecision Index.
Proof. solve_decision. Defined.
#[export] Instance ResponseKey_eq_dec : EqDecision ResponseKey.
Proof. solve_decision. Defined.
#[export] Instance ResponseKey_countable : Countable ResponseKey.
Proof.
  apply (inj_countable' (fun k => (primary k, generation k, vary k))
    (fun '(p, g, v) => {| primary := p; generation := g; vary := v |})).
  by intros [].
Defined.
#[export] Instance FlightKey_eq_dec : EqDecision FlightKey.
Proof. solve_decision. Defined.
#[export] Instance FlightKey_countable : Countable FlightKey.
Proof.
  apply (inj_countable' (fun k => (flight_primary k, flight_vary k))
    (fun '(p, v) => {| flight_primary := p; flight_vary := v |})).
  by intros [].
Defined.
#[export] Instance Key_eq_dec : EqDecision Key.
Proof. solve_decision. Defined.
#[export] Instance Key_countable : Countable Key.
Proof.
  apply (inj_countable'
    (fun k => match k with Key_Asset p => inl p | Key_Response r => inr r end)
    (fun s => match s with inl p => Key_Asset p | inr r => Key_Response r end)).
  by intros [].
Defined.

(** ** Entries *)

(** a reference-counted allocation and its address *)
Record Arc (A : Type) := {
  arc_ptr : N;
  arc_get : A;
}.
Arguments arc_ptr {_} _.
Arguments arc_get {_} _.

(** [Arc::ptr_eq] *)
Definition Arc_ptr_eq {A} (a b : Arc A) : bool := arc_ptr a =? arc_ptr b.

(** a local file as read from disk *)
Record Asset := {
  content : Bytes;
  etag : string;
  modified : SystemTime;
  len : N;
  asset_ttl : Duration;
}.

(** an origin response held by the store *)
Record StoredResponse := {
  status : StatusCode;
  (** end-to-end fields without [Content-Length] and [Age] *)
  headers : Fields;
  body : Bytes;
  stored_at : Instant;
  stored_initial_age : Duration;
  (** the freshness lifetime left when the response was stored *)
  stored_ttl : Duration;
  (** how long the store keeps the response once it is stale *)
  grace : Duration;
  stored_stale : StaleRules;
}.

Inductive Entry :=
| Entry_Asset (asset : Asset)
| Entry_Response (response : Arc StoredResponse).

(** ** [StoredResponse] *)

(** the response's current age. [initial_age + elapsed] panics when the sum
    does not fit a [Duration] *)
Definition age (now : Instant) (r : StoredResponse) : Run Duration :=
  Duration_add (stored_initial_age r) (Instant_elapsed now (stored_at r)).

Definition is_fresh (now : Instant) (r : StoredResponse) : bool :=
  Instant_elapsed now (stored_at r) <? stored_ttl r.

(** how long the response has been stale, or [None] while it is fresh *)
Definition staleness (now : Instant) (r : StoredResponse) : option Duration :=
  Duration_checked_sub (Instant_elapsed now (stored_at r)) (stored_ttl r).

Definition stale_within (now : Instant) (r : StoredResponse) (window : Duration) : bool :=
  negb (must_revalidate (stored_stale r)) &&
  is_some_and (staleness now r) (fun s => s <? window).

Definition may_serve_while_revalidating (now : Instant) (r : StoredResponse) : bool :=
  stale_within now r (while_revalidate (stored_stale r)).

Definition may_serve_on_error (now : Instant) (r : StoredResponse) : bool :=
  stale_within now r (if_error (stored_stale r)).

(** [StoredResponse::must_revalidate] *)
Definition response_must_revalidate (r : StoredResponse) : bool :=
  must_revalidate (stored_stale r).

(** the conditional request fields built from the stored validators *)
Definition validators_of (headers : Fields) : Fields :=
  omap (fun f =>
    if String.eqb (fst f) header.ETAG then Some (header.IF_NONE_MATCH, snd f)
    else if String.eqb (fst f) header.LAST_MODIFIED then Some (header.IF_MODIFIED_SINCE, snd f)
    else None) headers.

Definition validators (r : StoredResponse) : Fields := validators_of (headers r).

(** ** Weight and expiry *)

Definition sum (l : list N) : N := fold_right N.add 0 l.

Definition entry_weight (key : Key) (entry : Entry) : N :=
  let key :=
    match key with
    | Key_Asset path => str_len path
    | Key_Response key =>
        PrimaryKey_weight (primary key) +
        sum (map (fun v => match v with None => 0 | Some v => str_len v end) (vary key))
    end in
  let value :=
    match entry with
    | Entry_Asset asset => str_len (content asset) + str_len (etag asset)
    | Entry_Response response =>
        str_len (body (arc_get response)) +
        sum (map (fun f => str_len (fst f) + str_len (snd f)) (headers (arc_get response)))
    end in
  u32_or_max (key + value).

Definition entry_ttl (entry : Entry) : Duration :=
  match entry with
  | Entry_Asset asset => asset_ttl asset
  | Entry_Response response =>
      Duration_saturating_add (stored_ttl (arc_get response)) (grace (arc_get response))
  end.

(** [EntryExpiry::expire_after_create] *)
Definition EntryExpiry_create (_ : Key) (entry : Entry) : option Duration :=
  Some (entry_ttl entry).

(** [EntryExpiry::expire_after_update] *)
Definition EntryExpiry_update (_ : Key) (entry : Entry) (_ : option Duration)
    : option Duration :=
  Some (entry_ttl entry).

(** a stored response that needs revalidation, and where it is stored *)
Record StaleEntry := {
  response : Arc StoredResponse;
  stale_key : ResponseKey;
}.

(** a stored response for a request, and whether it may answer it as is *)
Inductive Lookup :=
| Fresh (response : Arc StoredResponse)
| Stale (entry : StaleEntry).

(** the only background revalidation of a stored response *)
Record RefreshGuard := {
  guard_key : ResponseKey;
}.

(** ** [Store] *)

Section store.
Context `{HttpOps, EntriesOps : !MokaOps Key Entry, IndexOps : !MokaOps PrimaryKey Index}.

Record Store := {
  entries : Cache Key Entry;
  index : Cache PrimaryKey Index;
  (** the [AtomicU64] that numbers generations *)
  next_generation : N;
  (** the keys with a background revalidation *)
  refreshing : gset ResponseKey;
  ttl : Duration;
  max_entry : N;
  (** the address of the next [Arc] allocation *)
  heap_next : N;
}.

Definition set_entries (c : Cache Key Entry) (s : Store) : Store := {|
  entries := c; index := index s; next_generation := next_generation s;
  refreshing := refreshing s; ttl := ttl s; max_entry := max_entry s;
  heap_next := heap_next s |}.
Definition set_index (c : Cache PrimaryKey Index) (s : Store) : Store := {|
  entries := entries s; index := c; next_generation := next_generation s;
  refreshing := refreshing s; ttl := ttl s; max_entry := max_entry s;
  heap_next := heap_next s |}.
Definition set_next_generation (g : N) (s : Store) : Store := {|
  entries := entries s; index := index s; next_generation := g;
  refreshing := refreshing s; ttl := ttl s; max_entry := max_entry s;
  heap_next := heap_next s |}.
Definition set_refreshing (r : gset ResponseKey) (s : Store) : Store := {|
  entries := entries s; index := index s; next_generation := next_generation s;
  refreshing := r; ttl := ttl s; max_entry := max_entry s;
  heap_next := heap_next s |}.
Definition set_heap_next (h : N) (s : Store) : Store := {|
  entries := entries s; index := index s; next_generation := next_generation s;
  refreshing := refreshing s; ttl := ttl s; max_entry := max_entry s;
  heap_next := h |}.

(** [Arc::new] *)
Definition Arc_new {A} (a : A) (s : Store) : Arc A * Store :=
  ({| arc_ptr := heap_next s; arc_get := a |}, set_heap_next (heap_next s + 1) s).

(** the builder calls of [Store::new] *)
Definition entries_config (capacity : N) : CacheConfig Key Entry := {|
  max_capacity := capacity;
  weigher := entry_weight;
  expiration := ExpireAfter EntryExpiry_create EntryExpiry_update |}.

Definition index_ttl (ttl : Duration) : Duration :=
  N.max (Duration_saturating_mul ttl 2) (Duration_from_secs 1).

Definition index_config (ttl : Duration) : CacheConfig PrimaryKey Index := {|
  max_capacity := MAX_INDEXED_URIS;
  weigher := fun _ _ => 1;
  expiration := TimeToLive (index_ttl ttl) |}.

Definition Store_new (size_mb : N) (ttl : Duration) : Run Store :=
  let capacity := u64_saturating_mul size_mb MIB in
  entries ← cache_build (entries_config capacity);
  index ← cache_build (index_config ttl);
  Done {| entries := entries;
          index := index;
          next_generation := 0;
          refreshing := ∅;
          ttl := ttl;
          max_entry := N.min capacity MAX_ENTRY_BYTES;
          heap_next := 0 |}.

Definition enabled (s : Store) : bool :=
  (0 <? max_entry s) && negb (Duration_is_zero (ttl s)).

Definition run_pending_tasks (now : Instant) (s : Store) : Store :=
  set_entries (cache_run_pending_tasks now (entries s)) s.

Definition entry_count (now : Instant) (s : Store) : N * Store :=
  let s := run_pending_tasks now s in (cache_entry_count (entries s), s).

Definition weighted_size (now : Instant) (s : Store) : N * Store :=
  let s := run_pending_tasks now s in (cache_weighted_size (entries s), s).

(** [Store::asset] *)
Definition stored_asset (now : Instant) (path : string) (s : Store) : option Asset :=
  match cache_get now (Key_Asset path) (entries s) with
  | Some (Entry_Asset asset) => Some asset
  | Some (Entry_Response _) => None
  | None => None
  end.

Definition new_asset (content : Bytes) (etag : string) (modified : SystemTime) (s : Store)
    : Asset :=
  {| content := content; etag := etag; modified := modified;
     len := str_len content; asset_ttl := ttl s |}.

(** the first of the two accesses of [insert_asset] to shared state *)
Definition insert_asset_entry (now : Instant) (path : string) (asset : Asset) (s : Store)
    : Store :=
  set_entries (cache_insert now (Key_Asset path) (Entry_Asset asset) (entries s)) s.

Definition insert_asset (now : Instant) (path : string) (content : Bytes) (etag : string)
    (modified : SystemTime) (s : Store) : Asset * Store :=
  let asset := new_asset content etag modified s in
  if enabled s && (len asset <=? max_entry s) then
    (asset, run_pending_tasks now (insert_asset_entry now path asset s))
  else (asset, s).

(** the key under which the response for a request is stored, given the
    index entry of its URI *)
Definition request_key (primary : PrimaryKey) (ix : Index) (request : HeaderMap)
    : ResponseKey :=
  {| primary := primary; generation := index_generation ix;
     vary := vary_values (index_vary ix) request |}.

(** whether a stored response answers a request as is *)
Definition usable (now : Instant) (max_age : option Duration) (r : StoredResponse)
    : Run bool :=
  if is_fresh now r then
    match max_age with
    | None => Done true
    | Some max_age => a ← age now r; Done (a <=? max_age)
    end
  else Done false.

(** the two accesses of [lookup] to shared state. first, the index tells the
    key *)
Definition lookup_index (now : Instant) (primary : PrimaryKey) (request : HeaderMap)
    (s : Store) : option ResponseKey :=
  (fun ix => request_key primary ix request) <$> cache_get now primary (index s).

(** second, the entries have the response *)
Definition lookup_entry (now : Instant) (key : ResponseKey) (s : Store)
    : option (Arc StoredResponse) :=
  match cache_get now (Key_Response key) (entries s) with
  | Some (Entry_Response response) => Some response
  | _ => None
  end.

Definition lookup (now : Instant) (primary : PrimaryKey) (request : HeaderMap)
    (max_age : option Duration) (s : Store) : Run (option Lookup) :=
  match lookup_index now primary request s with
  | None => Done None
  | Some key =>
      match lookup_entry now key s with
      | None => Done None
      | Some response =>
          ok ← usable now max_age (arc_get response);
          Done (Some (if ok : bool then Fresh response
                      else Stale {| response := response; stale_key := key |}))
      end
  end.

(** the coalescing key for a request *)
Definition flight_key (now : Instant) (primary : PrimaryKey) (request : HeaderMap)
    (s : Store) : option FlightKey :=
  if negb (enabled s) then None else
  let vary :=
    match cache_get now primary (index s) with
    | None => []
    | Some ix => vary_values (index_vary ix) request
    end in
  Some {| flight_primary := primary; flight_vary := vary |}.

(** claims the background revalidation of [entry] *)
Definition start_refresh (entry : StaleEntry) (s : Store) : option RefreshGuard * Store :=
  let key := stale_key entry in
  if decide (key ∈ refreshing s) then (None, s)
  else (Some {| guard_key := key |}, set_refreshing ({[key]} ∪ refreshing s) s).

(** [RefreshGuard::drop] *)
Definition RefreshGuard_drop (g : RefreshGuard) (s : Store) : Store :=
  set_refreshing (refreshing s ∖ {[guard_key g]}) s.

(** [Store::response] *)
Definition new_response (now : Instant) (policy : Storable) (status : StatusCode)
    (headers : Fields) (body : Bytes) (s : Store) : StoredResponse :=
  let has_validator := negb (bool_decide (validators_of headers = [])) in
  {| status := status; headers := headers; body := body; stored_at := now;
     stored_initial_age := initial_age policy;
     stored_ttl := N.min (storable_ttl policy) (ttl s);
     grace := StaleRules_grace (stale policy) has_validator (ttl s);
     stored_stale := stale policy |}.

(** the five accesses of [insert_response] to shared state. first, the
    index entry decides whether the generation is reused *)
Definition insert_get_index (now : Instant) (primary : PrimaryKey) (vary : Vary)
    (s : Store) : option N :=
  match cache_get now primary (index s) with
  | Some ix =>
      if bool_decide (index_vary ix = names vary) then Some (index_generation ix) else None
  | None => None
  end.

(** second, [fetch_add] takes a new generation *)
Definition insert_fetch_add (s : Store) : N * Store :=
  (next_generation s, set_next_generation (u64_wrapping_succ (next_generation s)) s).

(** third, the index learns the [Vary] names *)
Definition insert_index (now : Instant) (primary : PrimaryKey) (vary : Vary)
    (generation : N) (s : Store) : Store :=
  set_index (cache_insert now primary
    {| index_vary := names vary; index_generation := generation |} (index s)) s.

(** fourth, the response is stored under its key *)
Definition insert_entry (now : Instant) (primary : PrimaryKey) (vary : Vary)
    (generation : N) (policy : Storable) (status : StatusCode) (headers : Fields)
    (body : Bytes) (s : Store) : Arc StoredResponse * Store :=
  let key := Key_Response
    {| primary := primary; generation := generation; vary := values vary |} in
  let '(response, s) := Arc_new (new_response now policy status headers body s) s in
  (response, set_entries (cache_insert now key (Entry_Response response) (entries s)) s).

(** whether [insert_response] stores the body at all *)
Definition storable_body (body : Bytes) (s : Store) : bool :=
  negb (negb (enabled s) || (max_entry s <? str_len body)).

Definition insert_response (now : Instant) (primary : PrimaryKey) (vary : Vary)
    (policy : Storable) (status : StatusCode) (headers : Fields) (body : Bytes)
    (s : Store) : option (Arc StoredResponse) * Store :=
  if negb (storable_body body s) then (None, s) else
  let '(generation, s) :=
    match insert_get_index now primary vary s with
    | Some generation => (generation, s)
    | None => insert_fetch_add s
    end in
  let s := insert_index now primary vary generation s in
  let '(response, s) :=
    insert_entry now primary vary generation policy status headers body s in
  (** fifth, the entries are evicted that are now too many *)
  (Some response, run_pending_tasks now s).

(** whether the store still holds [stored] under [key] *)
Definition is_current (now : Instant) (key : ResponseKey) (stored : Arc StoredResponse)
    (s : Store) : bool :=
  match cache_get now (Key_Response key) (entries s) with
  | Some (Entry_Response r) => Arc_ptr_eq r stored
  | _ => false
  end.

(** the header map that decides whether a freshened response is storable *)
Definition freshened_map (headers : Fields) (age : option HeaderValue) : HeaderMap :=
  let map := HeaderMap_of_fields headers in
  match age with
  | Some age => HeaderMap_insert header.AGE age map
  | None => map
  end.

Definition freshen (now : Instant) (now_sys : SystemTime) (entry : StaleEntry)
    (request_policy : RequestPolicy) (request : HeaderMap) (update : Fields)
    (age : option HeaderValue) (s : Store) : Arc StoredResponse * Store :=
  let stored := arc_get (response entry) in
  let headers := updated_fields (headers stored) update in
  let map := freshened_map headers age in
  let storable := storable now_sys request_policy request (status stored) map in
  let key := stale_key entry in
  let current := is_current now key (response entry) s in
  let unstored policy s :=
    Arc_new (new_response now policy (status stored) headers (body stored) s) s in
  match storable with
  | Some (policy, vary) =>
      if current then
        match insert_response now (primary key) vary policy (status stored) headers
                (body stored) s with
        | (Some fresh, s) => (fresh, s)
        | (None, s) => unstored policy s
        end
      else unstored policy s
  | None =>
      let s :=
        if current then set_entries (cache_invalidate (Key_Response key) (entries s)) s
        else s in
      unstored Storable_default s
  end.

(** [Store::invalidate] *)
Definition invalidate (primary : PrimaryKey) (s : Store) : Store :=
  set_index (cache_invalidate primary (index s)) s.
End store.

Arguments Store {_ _}.
Arguments insert_entry : simpl never.
Arguments insert_index : simpl never.
Arguments insert_fetch_add : simpl never.
Arguments insert_get_index : simpl never.
Arguments insert_response : simpl never.
