(* ===== verification/StoreInvariant.v ===== *)
(** The invariant of the store and that every operation keeps it, whatever
    the cache evicts. It bounds what the store holds in bytes and in time, and
    shows that no lookup can panic on a [Duration] sum. *)

From stdpp Require Import base tactics option list gmap strings relations.
From S2P Require Import Prelude RustStd Http Directives Policy Moka Store.

Local Open Scope N_scope.

Section invariant.
Context `{Hops : HttpOps, EntriesOps : !MokaOps Key Entry, IndexOps : !MokaOps PrimaryKey Index}.
Context `{Hlaws : !HttpLaws, !MokaLaws Key Entry, !MokaLaws PrimaryKey Index}.
Implicit Types (s : Store) (r : StoredResponse).

(** a policy that [storable] can produce *)
Definition policy_ok (p : Storable) : Prop :=
  0 < storable_ttl p /\ storable_ttl p + initial_age p <= Duration_from_secs u64_MAX.

Record response_ok (s : Store) (r : StoredResponse) : Prop := {
  ro_pos : 0 < stored_ttl r;
  ro_ttl : stored_ttl r <= ttl s;
  ro_grace : grace r = StaleRules_grace (stored_stale r)
    (negb (bool_decide (validators r = []))) (ttl s);
  ro_age : stored_ttl r + stored_initial_age r <= Duration_from_secs u64_MAX;
  ro_body : str_len (body r) <= max_entry s;
}.

(** an entry that expires at [t] *)
Definition entry_ok (s : Store) (k : Key) (e : Entry) (t : Instant) : Prop :=
  match k, e with
  | Key_Response rk, Entry_Response r =>
      response_ok s (arc_get r) /\ generation rk < next_generation s /\
      arc_ptr r < heap_next s /\ t = stored_at (arc_get r) + entry_ttl e
  | Key_Asset _, Entry_Asset a =>
      len a = str_len (content a) /\ len a <= max_entry s /\ asset_ttl a = ttl s
  | _, _ => False
  end.

Record wf_store (s : Store) : Prop := {
  wf_entries_config : exists capacity,
    moka_config (entries s) = entries_config capacity;
  wf_index_config : moka_config (index s) = index_config (ttl s);
  wf_entries k e t : moka_contents (entries s) !! k = Some (e, t) -> entry_ok s k e t;
  wf_index p ix t : moka_contents (index s) !! p = Some (ix, t) ->
    index_generation ix < next_generation s;
  wf_max_entry : max_entry s <= MAX_ENTRY_BYTES;
  wf_ttl : ttl s <= Duration_MAX;
}.

(** ** What insertion retains *)

Lemma configured_insert_contents s now k e :
  (exists capacity, moka_config (entries s) = entries_config capacity) ->
  moka_contents (cache_insert now k e (entries s)) ⊆
  <[k := (e, now + entry_ttl e)]> (moka_contents (entries s)).
Proof.
  intros [cap Hc].
  destruct (moka_contents_insert now k e (entries s)) as (d & Hd & Hsub);
    rewrite Hc in *; [by split; eexists|].
  assert (d = entry_ttl e) as ->; [|done].
  destruct Hd as [Hd|[cur Hd]]; by injection Hd.
Qed.

Lemma entries_insert_contents s now k e :
  wf_store s ->
  moka_contents (cache_insert now k e (entries s)) ⊆
  <[k := (e, now + entry_ttl e)]> (moka_contents (entries s)).
Proof. intros Hwf. apply configured_insert_contents, Hwf. Qed.

Lemma index_insert_contents s now p ix :
  wf_store s ->
  moka_contents (cache_insert now p ix (index s)) ⊆
  <[p := (ix, now + index_ttl (ttl s))]> (moka_contents (index s)).
Proof.
  intros [_ Hc _ _ _ _].
  destruct (moka_contents_insert now p ix (index s)) as (d & Hd & Hsub);
    rewrite Hc in *; [done|]. by rewrite Hd in Hsub.
Qed.

(** an entry that is fine in [s] is fine in a store with the same limits
    and later counters *)
Lemma entry_ok_mono s s' k e t :
  ttl s' = ttl s -> max_entry s' = max_entry s ->
  next_generation s <= next_generation s' -> heap_next s <= heap_next s' ->
  entry_ok s k e t -> entry_ok s' k e t.
Proof.
  intros Httl Hm Hg Hh. destruct k, e; simpl; rewrite ?Httl, ?Hm; try done.
  intros ([] & ? & ? & ?). split_and!; try lia.
  constructor; rewrite ?Httl, ?Hm; done.
Qed.

(** ** Each access to shared state keeps the invariant *)

Lemma wf_run_pending_tasks now s : wf_store s -> wf_store (run_pending_tasks now s).
Proof.
  intros [[cap Hc] Hi He Hx Hm Ht]. constructor; simpl; try done.
  - exists cap. by rewrite moka_config_run.
  - intros k e t Hk. eapply lookup_weaken in Hk; [|apply moka_contents_run].
    apply He in Hk. by eapply entry_ok_mono in Hk.
Qed.

Lemma wf_insert_fetch_add s :
  next_generation s < u64_MAX -> wf_store s -> wf_store (snd (insert_fetch_add s)).
Proof.
  intros Hg [[cap Hc] Hi He Hx Hm Ht]. pose proof (u64_wrapping_succ_small _ Hg) as Hs.
  constructor; simpl; eauto.
  - intros k e t Hk. apply He in Hk. eapply entry_ok_mono; [..|exact Hk]; simpl; try done; lia.
  - intros p ix t Hp. apply Hx in Hp. lia.
Qed.

Lemma wf_insert_index now p v g s :
  g < next_generation s -> wf_store s -> wf_store (insert_index now p v g s).
Proof.
  intros Hg Hwf. pose proof Hwf as [[cap Hc] Hi He Hx Hm Ht]. constructor; simpl; eauto.
  - by rewrite moka_config_insert.
  - intros k e t Hk. by apply He in Hk; eapply entry_ok_mono in Hk.
  - intros p' ix t Hp. eapply lookup_weaken in Hp; [|by apply index_insert_contents].
    apply lookup_insert_Some in Hp as [(-> & [= <- <-])|[_ Hp]]; [done|by eapply Hx].
Qed.

Lemma new_response_ok now p st hs b s :
  policy_ok p -> 0 < ttl s -> str_len b <= max_entry s ->
  response_ok s (new_response now p st hs b s).
Proof. intros [Hpos Hp] Ht Hb. constructor; simpl; try done; lia. Qed.

Lemma wf_Arc_new {A} (a : A) s : wf_store s -> wf_store (snd (Arc_new a s)).
Proof.
  intros [[cap Hc] Hi He Hx Hm Ht]. constructor; simpl; eauto.
  intros k e t Hk. apply He in Hk. eapply entry_ok_mono; [..|exact Hk]; simpl; try done; lia.
Qed.

Lemma wf_cache_insert now k e s :
  entry_ok s k e (now + entry_ttl e) -> wf_store s ->
  wf_store (set_entries (cache_insert now k e (entries s)) s).
Proof.
  intros Hok Hwf. pose proof Hwf as [[cap Hc] Hi He Hx Hm Ht]. constructor; simpl; eauto.
  - exists cap. by rewrite moka_config_insert.
  - intros k' e' t Hk. eapply lookup_weaken in Hk; [|by apply entries_insert_contents].
    apply lookup_insert_Some in Hk as [(-> & [= <- <-])|[_ Hk]];
      [|apply He in Hk]; by eapply entry_ok_mono; [..|eassumption].
Qed.

Lemma wf_insert_entry now p v g pol st hs b s :
  policy_ok pol -> 0 < ttl s -> str_len b <= max_entry s -> g < next_generation s ->
  wf_store s -> wf_store (snd (insert_entry now p v g pol st hs b s)).
Proof.
  intros Hp Ht Hb Hg Hwf. unfold insert_entry.
  destruct (Arc_new (new_response now pol st hs b s) s) as [a s'] eqn:E. simpl.
  pose proof (wf_Arc_new (new_response now pol st hs b s) s Hwf) as Hwf'.
  rewrite E in Hwf'. simpl in Hwf'. unfold Arc_new in E. injection E as <- <-.
  apply wf_cache_insert; [|done]. simpl. split_and!; try done; [|lia].
  pose proof (new_response_ok now pol st hs b s Hp Ht Hb) as []. by constructor.
Qed.

Lemma wf_invalidate p s : wf_store s -> wf_store (invalidate p s).
Proof.
  intros [[cap Hc] Hi He Hx Hm Ht]. constructor; simpl; eauto.
  - by rewrite moka_config_invalidate.
  - intros k e t Hk. by apply He in Hk; eapply entry_ok_mono in Hk.
  - intros p' ix t Hp. eapply lookup_weaken in Hp; [|apply moka_contents_invalidate].
    apply lookup_delete_Some in Hp as [_ Hp]. by eapply Hx.
Qed.

Lemma wf_cache_invalidate k s :
  wf_store s -> wf_store (set_entries (cache_invalidate k (entries s)) s).
Proof.
  intros [[cap Hc] Hi He Hx Hm Ht]. constructor; simpl; eauto.
  - exists cap. by rewrite moka_config_invalidate.
  - intros k' e t Hk. eapply lookup_weaken in Hk; [|apply moka_contents_invalidate].
    apply lookup_delete_Some in Hk as [_ Hk].
    by apply He in Hk; eapply entry_ok_mono in Hk.
Qed.

(** the generation that [insert_response] uses, reused or new, is one that
    the counter has passed *)
Lemma insert_get_index_bound now p v s g :
  wf_store s -> insert_get_index now p v s = Some g -> g < next_generation s.
Proof.
  intros Hwf. unfold insert_get_index. destruct (cache_get now p (index s)) as [ix|] eqn:E;
    [|done]. case_bool_decide; [|done]. intros [= <-].
  apply cache_get_sound in E as (t & Hs & _). by eapply wf_index.
Qed.

Lemma storable_body_true b s :
  storable_body b s = true <-> enabled s = true /\ str_len b <= max_entry s.
Proof.
  unfold storable_body. rewrite negb_true_iff, orb_false_iff, negb_false_iff, N.ltb_ge. done.
Qed.

Lemma enabled_true s : enabled s = true <-> 0 < max_entry s /\ 0 < ttl s.
Proof.
  unfold enabled, Duration_is_zero.
  rewrite andb_true_iff, negb_true_iff, N.ltb_lt, N.eqb_neq. lia.
Qed.

Lemma wf_insert_response now p v pol st hs b s :
  policy_ok pol -> next_generation s < u64_MAX -> wf_store s ->
  wf_store (snd (insert_response now p v pol st hs b s)).
Proof.
  intros Hp Hg Hwf. unfold insert_response.
  destruct (storable_body b s) eqn:Hb; [|done]. apply storable_body_true in Hb as [[_ Hpos]%enabled_true Hb].
  assert (exists g s', (match insert_get_index now p v s with
    | Some g => (g, s) | None => insert_fetch_add s end) = (g, s') /\
    g < next_generation s' /\ wf_store s' /\ max_entry s' = max_entry s /\ ttl s' = ttl s)
    as (g & s' & Heq & Hg' & Hwf' & Hm & Ht).
  { destruct (insert_get_index now p v s) as [g|] eqn:E.
    - exists g, s. split_and!; eauto using insert_get_index_bound.
    - pose proof (wf_insert_fetch_add s Hg Hwf).
      do 2 eexists. split; [done|]. simpl. split_and!; try done.
      rewrite u64_wrapping_succ_small by done. lia. }
  cbn [negb]. rewrite Heq. cbv zeta beta iota.
  pose proof (wf_insert_entry now p v g pol st hs b (insert_index now p v g s')) as He.
  destruct (insert_entry _ _ _ _ _ _ _ _ _) as [a s'']. cbn [snd] in *.
  apply wf_run_pending_tasks, He; [done|change (0 < ttl s'); by rewrite Ht
    |change (str_len b <= max_entry s'); by rewrite Hm|done|by apply wf_insert_index].
Qed.

(** ** The remaining operations *)

Lemma policy_ok_storable now rp request st map pol v :
  clock_ok now -> storable now rp request st map = Some (pol, v) -> policy_ok pol.
Proof.
  intros Hc Hs. split; [|by eapply storable_time_bound].
  apply storable_Some in Hs as (_ & d & _ & _ & _ & _ & _ & _ & Hpos & _). done.
Qed.

(** a new store *)
Record new_store (size_mb : N) (t : Duration) (s : Store) : Prop := {
  ns_entries_config : moka_config (entries s) = entries_config (u64_saturating_mul size_mb MIB);
  ns_index_config : moka_config (index s) = index_config t;
  ns_entries : moka_contents (entries s) = ∅;
  ns_index : moka_contents (index s) = ∅;
  ns_generation : next_generation s = 0;
  ns_refreshing : refreshing s = ∅;
  ns_ttl : ttl s = t;
  ns_max_entry : max_entry s = N.min (u64_saturating_mul size_mb MIB) MAX_ENTRY_BYTES;
}.

(** [Store::new] has a store unless moka refuses the lifetime of the index *)
Lemma Store_new_cases size_mb t :
  match Store_new size_mb t with
  | Done s => index_ttl t <= MAX_TIME_TO_LIVE /\ new_store size_mb t s
  | Panic => MAX_TIME_TO_LIVE < index_ttl t
  end.
Proof.
  unfold Store_new. destruct (moka_build (entries_config (u64_saturating_mul size_mb MIB)))
    as (es & -> & He & Hes); [done|]. simpl.
  destruct (N.le_gt_cases (index_ttl t) MAX_TIME_TO_LIVE) as [Hle|Hgt].
  - destruct (moka_build (index_config t)) as (xs & -> & Hx & Hxs); [by intros d [= <-]|].
    by split.
  - by rewrite (moka_build_panics (index_config t) (index_ttl t)).
Qed.

Lemma Store_new_Done size_mb t s : Store_new size_mb t = Done s -> new_store size_mb t s.
Proof. intros Hs. pose proof (Store_new_cases size_mb t) as H. rewrite Hs in H. apply H. Qed.

Lemma wf_new_store size_mb t s : new_store size_mb t s -> t <= Duration_MAX -> wf_store s.
Proof.
  intros [Hce Hcx He Hx Hg Hr Ht Hm] Hmax. constructor; rewrite ?Hce, ?Hcx, ?He, ?Hx, ?Ht, ?Hm;
    [by eexists|done|by intros ? ? ? ?%lookup_empty_Some..|lia|done].
Qed.

Lemma wf_Store_new size_mb t s :
  Store_new size_mb t = Done s -> t <= Duration_MAX -> wf_store s.
Proof. intros Hs%Store_new_Done. by eapply wf_new_store. Qed.

Lemma wf_insert_asset_entry now path c et m s :
  str_len c <= max_entry s -> wf_store s ->
  wf_store (insert_asset_entry now path (new_asset c et m s) s).
Proof. intros Hlen Hwf. by apply wf_cache_insert. Qed.

Lemma wf_insert_asset now path c et m s :
  wf_store s -> wf_store (snd (insert_asset now path c et m s)).
Proof.
  intros Hwf. unfold insert_asset. cbn [len new_asset]. destruct (enabled s); [|done]. cbn [andb].
  destruct (N.leb_spec (str_len c) (max_entry s)); [|done].
  by apply wf_run_pending_tasks, wf_insert_asset_entry.
Qed.

Lemma wf_set_refreshing (keys : gset ResponseKey) s :
  wf_store s -> wf_store (set_refreshing keys s).
Proof.
  intros [[cap Hc] Hi He Hx Hm Ht]. constructor; simpl; eauto.
  intros k e t Hk. apply He in Hk. eapply entry_ok_mono; [..|exact Hk]; done.
Qed.

Lemma wf_freshen now now_sys e rp request update a s :
  clock_ok now_sys -> next_generation s < u64_MAX -> wf_store s ->
  wf_store (snd (freshen now now_sys e rp request update a s)).
Proof.
  intros Hc Hg Hwf. unfold freshen. cbv zeta.
  destruct (storable _ _ _ _ _) as [[pol v]|] eqn:Es.
  - apply policy_ok_storable in Es; [|done].
    destruct (is_current _ _ _ _); [|by apply wf_Arc_new].
    match goal with |- context [insert_response ?n ?p ?v ?pol ?st ?hs ?b ?s] =>
      pose proof (wf_insert_response n p v pol st hs b s Es Hg Hwf) as Hi;
      destruct (insert_response n p v pol st hs b s) as [[f|] s'] end; [done|].
    by apply wf_Arc_new.
  - destruct (is_current _ _ _ _); apply wf_Arc_new; [by apply wf_cache_invalidate|done].
Qed.

(** ** Reachable stores *)

(** the operations of one thread at a time. [storable] has approved every
    response that is inserted, and the clocks are ones a machine can show *)
Inductive store_step : Store -> Store -> Prop :=
| step_insert_response now now_sys rp request st map pol v p hs b s :
    clock_ok now_sys -> storable now_sys rp request st map = Some (pol, v) ->
    store_step s (snd (insert_response now p v pol st hs b s))
| step_freshen now now_sys e rp request update a s :
    clock_ok now_sys -> store_step s (snd (freshen now now_sys e rp request update a s))
| step_insert_asset now path c et m s :
    store_step s (snd (insert_asset now path c et m s))
| step_invalidate p s : store_step s (invalidate p s)
| step_start_refresh e s : store_step s (snd (start_refresh e s))
| step_drop_guard g s : store_step s (RefreshGuard_drop g s)
| step_count now s : store_step s (snd (entry_count now s))
| step_weigh now s : store_step s (snd (weighted_size now s)).

Lemma wf_store_step s s' :
  store_step s s' -> next_generation s < u64_MAX -> wf_store s -> wf_store s'.
Proof.
  destruct 1; intros Hg Hwf.
  - apply wf_insert_response; eauto using policy_ok_storable.
  - by apply wf_freshen.
  - by apply wf_insert_asset.
  - by apply wf_invalidate.
  - unfold start_refresh. case_decide; [done|]. by apply wf_set_refreshing.
  - by apply wf_set_refreshing.
  - by apply wf_run_pending_tasks.
  - by apply wf_run_pending_tasks.
Qed.

Lemma insert_response_generation now p v pol st hs b s :
  next_generation s < u64_MAX ->
  next_generation (snd (insert_response now p v pol st hs b s)) <= next_generation s + 1.
Proof.
  intros Hg. unfold insert_response, insert_fetch_add.
  destruct (storable_body b s); simpl; [|lia].
  destruct (insert_get_index now p v s) as [g|]; simpl; [lia|].
  rewrite u64_wrapping_succ_small by done. lia.
Qed.

Lemma store_step_generation s s' :
  store_step s s' -> next_generation s < u64_MAX ->
  next_generation s' <= next_generation s + 1.
Proof.
  destruct 1; intros Hg; simpl; try lia.
  - by apply insert_response_generation.
  - unfold freshen. cbv zeta. destruct (storable _ _ _ _ _) as [[pol v]|].
    + destruct (is_current _ _ _ _); simpl; [|lia].
      match goal with |- context [insert_response ?n ?p ?v ?pol ?st ?hs ?b ?s] =>
        pose proof (insert_response_generation n p v pol st hs b s Hg) as Hi;
        destruct (insert_response n p v pol st hs b s) as [[f|] s'] end; simpl in *; lia.
    + destruct (is_current _ _ _ _); simpl; lia.
  - unfold insert_asset. case_match; simpl; lia.
  - unfold start_refresh. case_decide; simpl; lia.
Qed.

Lemma wf_steps n s s' :
  nsteps store_step n s s' -> next_generation s + N.of_nat n <= u64_MAX ->
  wf_store s -> wf_store s'.
Proof.
  intros Hn. induction Hn as [s|n s1 s2 s3 Hstep Hn IH]; intros Hg Hwf; [done|].
  apply IH.
  - apply store_step_generation in Hstep; lia.
  - eapply wf_store_step; [exact Hstep|lia|done].
Qed.
End invariant.
