(* ===== verification/Examples.v ===== *)
(** One exchange with the origin, on the reference implementations [RefHttp]
    and [RefMoka], for the examples of the other files: a GET for a variant
    of a page, the origin's answer with a validator and a stale window, and
    the store before and after it is kept. *)

From stdpp Require Import base tactics option list gmap strings relations.
From S2P Require Import Prelude RustStd Http Directives Policy Moka Store StoreInvariant.

Local Open Scope N_scope.

Definition ex_key : PrimaryKey := PrimaryKey_new "http" "Example.org" "/page?x=1".

Definition ex_request : @HeaderMap RefHttp := [("accept", "text/html")]%string.

Definition ex_headers : Fields :=
  [("cache-control", "max-age=60, stale-while-revalidate=30");
   ("etag", "v1"); ("vary", "Accept")]%string.

Definition ex_rp : RequestPolicy := RequestPolicy_new GET ex_request.

Definition ex_policy : Storable := {|
  storable_ttl := Duration_from_secs 60;
  initial_age := 0;
  stale := {| while_revalidate := Duration_from_secs 30; if_error := 0;
              must_revalidate := false |};
|}.

Definition ex_vary : Vary :=
  {| names := ["accept"]%string; values := [Some "text/html"]%string |}.

Example ex_storable :
  storable 0 ex_rp ex_request 200 (HeaderMap_of_fields ex_headers) = Some (ex_policy, ex_vary).
Proof. vm_compute. reflexivity. Qed.

(** one MiB, and a lifetime of at most 300 s *)
Definition ex_ttl : Duration := Duration_from_secs 300.
Definition ex_empty : @Store (RefMoka Key Entry) (RefMoka PrimaryKey Index) :=
  {| entries := {| ref_config := entries_config MIB; ref_map := ∅ |};
     index := {| ref_config := index_config ex_ttl; ref_map := ∅ |};
     next_generation := 0; refreshing := ∅; ttl := ex_ttl; max_entry := MIB; heap_next := 0 |}.

Example ex_empty_new : Store_new 1 ex_ttl = Done ex_empty.
Proof. reflexivity. Qed.

Definition ex_insert : option (Arc StoredResponse) * Store :=
  insert_response 0 ex_key ex_vary ex_policy 200 ex_headers "hello" ex_empty.
Definition ex_store : Store := snd ex_insert.

Definition ex_arc : Arc StoredResponse := {|
  arc_ptr := 0;
  arc_get := new_response 0 ex_policy 200 ex_headers "hello" ex_empty |}.
Definition ex_response_key : ResponseKey :=
  {| primary := ex_key; generation := 0; vary := [Some "text/html"]%string |}.

Example ex_insert_arc : fst ex_insert = Some ex_arc.
Proof. vm_compute. reflexivity. Qed.

Lemma ex_insert_eq : ex_insert = (Some ex_arc, ex_store).
Proof. unfold ex_store. rewrite <- ex_insert_arc. apply surjective_pairing. Qed.

Lemma ex_steps : nsteps store_step 1 ex_empty ex_store.
Proof.
  apply nsteps_once.
  refine (step_insert_response 0 0 ex_rp ex_request 200 (HeaderMap_of_fields ex_headers)
    ex_policy ex_vary ex_key ex_headers "hello" ex_empty _ ex_storable).
  discriminate.
Qed.

Lemma ex_wf : wf_store ex_store.
Proof.
  eapply wf_steps; [exact ex_steps|vm_compute; discriminate|].
  apply (wf_Store_new 1 ex_ttl _ ex_empty_new). vm_compute. discriminate.
Qed.

(** ** The rules of the cache on this exchange *)


Lemma bypasses_cache_iff_witness : bypasses_cache (RequestPolicy_new "POST" ex_request) = true.
Proof.
  apply (bypasses_cache_iff "POST" ex_request). left. split; discriminate.
Defined.

Lemma coalescing_rules_witness : may_lead ex_rp = true.
Proof.
  apply (coalescing_rules GET ex_request); [reflexivity|vm_compute; reflexivity].
Defined.
