(* ===== verification/StoreTheorems.v ===== *)
(** What one thread sees of the store: its bounds, what a lookup may return,
    that a stored response is found again, that an invalidated one is not,
    and what a 304 does to a stored response. *)

From stdpp Require Import base tactics option list gmap strings relations.
From S2P Require Import Prelude RustStd Http Directives Policy Moka Store StoreInvariant Examples.

Local Open Scope N_scope.

Section theorems.
Context `{Hops : HttpOps, EntriesOps : !MokaOps Key Entry, IndexOps : !MokaOps PrimaryKey Index}.
Context `{Hlaws : !HttpLaws, !MokaLaws Key Entry, !MokaLaws PrimaryKey Index}.
Implicit Types (s : Store).

Lemma lookup_invalidate now p request m s : lookup now p request m (invalidate p s) = Done None.
Proof. unfold lookup, lookup_index, invalidate. simpl. by rewrite cache_get_invalidate. Qed.

(** ** Limits *)

Lemma insert_response_limits now p v pol st hs b s :
  let s' := snd (insert_response now p v pol st hs b s) in
  ttl s' = ttl s /\ max_entry s' = max_entry s.
Proof.
  unfold insert_response. destruct (storable_body b s); [|done].
  by destruct (insert_get_index now p v s).
Qed.

Lemma store_step_limits s s' :
  store_step s s' -> ttl s' = ttl s /\ max_entry s' = max_entry s.
Proof.
  destruct 1; try done.
  - apply insert_response_limits.
  - unfold freshen. cbv zeta. destruct (storable _ _ _ _ _) as [[pol v]|].
    + destruct (is_current _ _ _ _); [|done].
      match goal with |- context [insert_response ?n ?p ?v ?pol ?st ?hs ?b ?s] =>
        pose proof (insert_response_limits n p v pol st hs b s) as Hi;
        destruct (insert_response n p v pol st hs b s) as [[f|] s'] end; done.
    + by destruct (is_current _ _ _ _).
  - unfold insert_asset. by case_match.
  - unfold start_refresh. by case_decide.
Qed.

Lemma steps_limits n s s' :
  nsteps store_step n s s' -> ttl s' = ttl s /\ max_entry s' = max_entry s.
Proof.
  induction 1 as [|n s1 s2 s3 [Ht Hm]%store_step_limits _ [IHt IHm]]; [done|]. by split; congruence.
Qed.

Lemma entry_ttl_bound s r :
  response_ok s r -> stored_ttl r + grace r <= 2 * ttl s.
Proof.
  intros [_ Ht Hg _ _]. rewrite Hg.
  pose proof (grace_le_cap (stored_stale r) (negb (bool_decide (validators r = []))) (ttl s)).
  lia.
Qed.

Lemma entry_ttl_index s (a : Arc StoredResponse) :
  response_ok s (arc_get a) -> entry_ttl (Entry_Response a) <= index_ttl (ttl s).
Proof.
  intros Hok%entry_ttl_bound. unfold entry_ttl, index_ttl, Duration_saturating_add,
    Duration_saturating_mul. lia.
Qed.

(** ** Lookups *)

Lemma usable_fresh_total now m s r :
  response_ok s r -> usable now m r <> Panic.
Proof.
  intros [_ Ht _ Ha _]. unfold usable, is_fresh, age.
  destruct (N.ltb_spec (Instant_elapsed now (stored_at r)) (stored_ttl r)) as [Hf|]; [|done].
  destruct m as [m|]; [|done]. intros [Hp|(? & _ & ?)]%Run_bind_Panic; [|done].
  apply Duration_add_Panic in Hp. unfold Duration_from_secs, Duration_MAX in *. lia.
Qed.

Lemma usable_true now m r :
  usable now m r = Done true <->
  is_fresh now r = true /\
  forall a, m = Some a -> exists b, age now r = Done b /\ b <= a.
Proof.
  unfold usable. destruct (is_fresh now r); [|naive_solver].
  destruct m as [m|]; [|naive_solver]. rewrite Run_bind_Done. split.
  - intros (b & Hb & [= Hle%N.leb_le]). split; [done|]. intros a [= <-]. eauto.
  - intros [_ Ha]. destruct (Ha m eq_refl) as (b & Hb & Hle).
    exists b. split; [done|]. f_equal. by apply N.leb_le.
Qed.

Lemma usable_false now m r :
  usable now m r = Done false <->
  is_fresh now r = false \/
  (is_fresh now r = true /\ exists a b, m = Some a /\ age now r = Done b /\ a < b).
Proof.
  unfold usable. destruct (is_fresh now r); [|naive_solver].
  destruct m as [m|]; [|naive_solver]. rewrite Run_bind_Done. split.
  - intros (b & Hb & [= Hle%N.leb_gt]). right. eauto 6.
  - intros [?|(_ & a & b & [= <-] & Hb & Hlt)]; [done|].
    exists b. split; [done|]. f_equal. by apply N.leb_gt.
Qed.

(** the response of a lookup, fresh or stale *)
Definition lookup_response (l : Lookup) : Arc StoredResponse :=
  match l with Fresh r => r | Stale e => response e end.

Lemma lookup_Some now p request m s l :
  lookup now p request m s = Done (Some l) <->
  exists ix, cache_get now p (index s) = Some ix /\
    cache_get now (Key_Response (request_key p ix request)) (entries s) =
      Some (Entry_Response (lookup_response l)) /\
    match l with
    | Fresh r => usable now m (arc_get r) = Done true
    | Stale e => stale_key e = request_key p ix request /\
                 usable now m (arc_get (response e)) = Done false
    end.
Proof.
  unfold lookup, lookup_index, lookup_entry.
  destruct (cache_get now p (index s)) as [ix|]; [|naive_solver].
  cbn [fmap option_fmap option_map].
  destruct (cache_get now (Key_Response (request_key p ix request)) (entries s))
    as [[a|r]|] eqn:E; [naive_solver| |naive_solver].
  rewrite Run_bind_Done. split.
  - intros ([|] & Hu & [= <-]); exists ix; simpl; rewrite E; naive_solver.
  - intros (ix' & [= <-] & Hg & Hl). rewrite E in Hg. injection Hg as ->.
    destruct l as [r'|[r' k]]; simpl in *.
    + exists true. done.
    + destruct Hl as [-> Hu]. exists false. done.
Qed.

Lemma lookup_entry_ok now p request m s l :
  wf_store s -> lookup now p request m s = Done (Some l) ->
  response_ok s (arc_get (lookup_response l)) /\
  now < stored_at (arc_get (lookup_response l)) +
        entry_ttl (Entry_Response (lookup_response l)).
Proof.
  intros Hwf (ix & _ & (t & Hc & Ht)%cache_get_sound & _)%lookup_Some.
  apply (wf_entries _ Hwf) in Hc as (Hok & _ & _ & ->). done.
Qed.

(** no lookup in a well-formed store panics *)
Lemma lookup_returns now p request m s :
  wf_store s -> exists o, lookup now p request m s = Done o.
Proof.
  intros Hwf. unfold lookup. destruct (lookup_index now p request s) as [key|]; [|by exists None].
  unfold lookup_entry.
  destruct (cache_get now (Key_Response key) (entries s)) as [[a|r]|] eqn:Eg; try by exists None.
  destruct (usable now m (arc_get r)) as [ok|] eqn:Eu; [by eexists|].
  apply cache_get_sound in Eg as (t & Hc & _).
  apply (wf_entries _ Hwf) in Hc as (Hok & _). by destruct (usable_fresh_total now m _ _ Hok).
Qed.

(** ** What an insertion leaves *)

Lemma insert_response_result now p v pol st hs b s r s' :
  insert_response now p v pol st hs b s = (Some r, s') ->
  arc_get r = new_response now pol st hs b s.
Proof.
  unfold insert_response. destruct (storable_body b s); [|done]. cbn [negb].
  destruct (insert_get_index now p v s); by intros [= <- <-].
Qed.

Lemma insert_response_None now p v pol st hs b s s' :
  insert_response now p v pol st hs b s = (None, s') ->
  storable_body b s = false /\ s' = s.
Proof.
  unfold insert_response. destruct (storable_body b s); [|naive_solver]. cbn [negb].
  by destruct (insert_get_index now p v s).
Qed.

(** the generation that [insert_response] gives to its response *)
Definition insert_generation now p v s : N :=
  match insert_get_index now p v s with
  | Some g => g
  | None => next_generation s
  end.

Lemma insert_response_contents now p v pol st hs b s r s' :
  wf_store s -> insert_response now p v pol st hs b s = (Some r, s') ->
  let g := insert_generation now p v s in
  let key := Key_Response {| primary := p; generation := g; vary := values v |} in
  r = {| arc_ptr := heap_next s; arc_get := new_response now pol st hs b s |} /\
  moka_contents (index s') ⊆
    <[p := ({| index_vary := names v; index_generation := g |}, now + index_ttl (ttl s))]>
      (moka_contents (index s)) /\
  moka_contents (entries s') ⊆
    <[key := (Entry_Response r, now + entry_ttl (Entry_Response r))]>
      (moka_contents (entries s)).
Proof.
  intros Hwf Hins g key.
  assert (exists s1, (match insert_get_index now p v s with
    | Some g => (g, s) | None => insert_fetch_add s end) = (g, s1) /\
    entries s1 = entries s /\ index s1 = index s /\ ttl s1 = ttl s /\
    heap_next s1 = heap_next s) as (s1 & Heq & He & Hx & Ht & Hh).
  { unfold g, insert_generation. destruct (insert_get_index now p v s) as [g'|];
      eexists; split_and!; done. }
  unfold insert_response in Hins. destruct (storable_body b s); [|done].
  cbn [negb] in Hins. rewrite Heq in Hins.
  cbv beta iota zeta delta [insert_entry insert_index Arc_new run_pending_tasks] in Hins.
  injection Hins as <- <-. simpl. unfold new_response. simpl. rewrite Hh, Ht, Hx.
  split_and!; [done|by apply index_insert_contents|].
  etrans; [apply moka_contents_run|]. rewrite He. by apply entries_insert_contents.
Qed.

Lemma insert_generation_fresh now p v s :
  insert_get_index now p v s = None -> wf_store s ->
  forall rk e, generation rk = insert_generation now p v s ->
    moka_contents (entries s) !! Key_Response rk <> Some e.
Proof.
  intros Hnone Hwf rk [e t] Hg Hc. unfold insert_generation in Hg. rewrite Hnone in Hg.
  apply (wf_entries _ Hwf) in Hc. destruct e; [done|].
  destruct Hc as (_ & Hlt & _). lia.
Qed.

(** with a new generation, a lookup for the URI finds the new response or
    nothing *)
Lemma new_generation_only now now' p v pol st hs b s r s' request m l :
  wf_store s -> insert_get_index now p v s = None ->
  insert_response now p v pol st hs b s = (Some r, s') ->
  lookup now' p request m s' = Done (Some l) -> lookup_response l = r.
Proof.
  intros Hwf Hnone Hins (ix & Hix & He & _)%lookup_Some.
  destruct (insert_response_contents _ _ _ _ _ _ _ _ _ _ Hwf Hins) as (_ & Hx & Hc).
  apply cache_get_sound in Hix as (d & Hix & _).
  eapply lookup_weaken in Hix; [|exact Hx]. rewrite lookup_insert_eq in Hix.
  injection Hix as <- _.
  apply cache_get_sound in He as (d' & He & _).
  eapply lookup_weaken in He; [|exact Hc].
  apply lookup_insert_Some in He as [(_ & [= <- _])|[_ He]]; [done|].
  by eapply insert_generation_fresh in He.
Qed.
End theorems.

(** C21. Everything that a store holds after fewer than 2^64 operations is
    within its limits. A response has a body that fits the entry limit, which is
    the smaller of the cache size and 8 MiB; its freshness lifetime is at most
    the configured one, and it is dropped within twice that time, which is no
    later than the index entry of its URI can expire. The content of an asset
    fits the entry limit as well, and lives for the configured time. Responses
    and assets are under keys of their own kind, and every generation in a key
    or in the index has been given out. *)
Theorem reachable_entries_bounded
    `{Hops : HttpOps, EntriesOps : !MokaOps Key Entry, IndexOps : !MokaOps PrimaryKey Index}
    `{Hlaws : !HttpLaws, !MokaLaws Key Entry, !MokaLaws PrimaryKey Index}
    (size_mb : N) (t : Duration) (n : nat) (s0 s : Store) :
  Store_new size_mb t = Done s0 -> t <= Duration_MAX -> N.of_nat n <= u64_MAX ->
  nsteps store_step n s0 s ->
  (forall k e d, moka_contents (entries s) !! k = Some (e, d) ->
     match k, e with
     | Key_Response rk, Entry_Response r =>
         str_len (body (arc_get r)) <= u64_saturating_mul size_mb MIB /\
         str_len (body (arc_get r)) <= MAX_ENTRY_BYTES /\
         stored_ttl (arc_get r) <= t /\
         d <= stored_at (arc_get r) + 2 * t /\
         d <= stored_at (arc_get r) + index_ttl t /\
         generation rk < next_generation s
     | Key_Asset _, Entry_Asset a =>
         str_len (content a) <= u64_saturating_mul size_mb MIB /\
         str_len (content a) <= MAX_ENTRY_BYTES /\
         len a = str_len (content a) /\ entry_ttl e = t
     | _, _ => False
     end) /\
  (forall p ix d, moka_contents (index s) !! p = Some (ix, d) ->
     index_generation ix < next_generation s).
Proof.
  intros Hnew Ht Hn Hsteps. pose proof (Store_new_Done _ _ _ Hnew) as Hs0.
  pose proof (steps_limits _ _ _ Hsteps) as [Hst Hsm].
  rewrite (ns_ttl _ _ _ Hs0) in Hst. rewrite (ns_max_entry _ _ _ Hs0) in Hsm.
  assert (wf_store s) as Hwf.
  { eapply wf_steps; [exact Hsteps| |by eapply wf_new_store].
    rewrite (ns_generation _ _ _ Hs0). lia. }
  split; [|intros p ix d; by apply (wf_index _ Hwf)].
  intros k e d Hc%(wf_entries _ Hwf). destruct k as [path|rk], e as [a|r]; try done; cbn [entry_ok] in Hc.
  - destruct Hc as (Hlen & Hmax & Hattl). rewrite Hst, Hsm in *. cbn [entry_ttl]; split_and!; lia.
  - destruct Hc as (Hok & Hgen & _ & ->).
    pose proof (entry_ttl_index s r Hok) as Hi. pose proof (entry_ttl_bound s _ Hok) as Hb.
    destruct Hok as [_ Ho1 _ _ Ho4]. rewrite Hst, Hsm in *.
    assert (entry_ttl (Entry_Response r) <= stored_ttl (arc_get r) + grace (arc_get r))
      by (unfold entry_ttl, Duration_saturating_add; lia).
    split_and!; lia.
Qed.

(** the example store, with an asset as well *)
Definition ex_asset : Asset := new_asset "hello" "v1" 0 ex_store.
Definition ex_mixed : Store := snd (insert_asset 0 "/app/a.css" "hello" "v1" 0 ex_store).

Lemma ex_mixed_steps : nsteps store_step 2 ex_empty ex_mixed.
Proof.
  eapply (nsteps_trans 1 1); [exact ex_steps|]. apply nsteps_once, step_insert_asset.
Qed.

Lemma reachable_entries_bounded_witness :
  str_len (body (arc_get ex_arc)) <= MAX_ENTRY_BYTES /\
  stored_ttl (arc_get ex_arc) <= ex_ttl /\
  str_len (content ex_asset) <= MAX_ENTRY_BYTES /\ asset_ttl ex_asset = ex_ttl.
Proof.
  destruct (reachable_entries_bounded 1 ex_ttl 2 ex_empty ex_mixed) as [He _].
  - reflexivity.
  - vm_compute. discriminate.
  - vm_compute. discriminate.
  - exact ex_mixed_steps.
  - destruct (He (Key_Response ex_response_key) (Entry_Response ex_arc) (Duration_from_secs 360))
      as (_ & Hb & Ht & _); [vm_compute; reflexivity|].
    destruct (He (Key_Asset "/app/a.css") (Entry_Asset ex_asset) ex_ttl)
      as (_ & Ha & _ & Hattl); [vm_compute; reflexivity|].
    split; [exact Hb|]. split; [exact Ht|]. split; [exact Ha|exact Hattl].
Defined.

(** C22. In a well-formed store no lookup panics; a response it calls fresh is
    within its lifetime and no older than the request's [max-age] allows; and
    a stale one either is past its lifetime and still of use, to revalidate
    or within a stale window, or is fresh but older than [max-age] allows. *)
Theorem lookup_sound
    `{Hops : HttpOps, EntriesOps : !MokaOps Key Entry, IndexOps : !MokaOps PrimaryKey Index}
    `{Hlaws : !HttpLaws, !MokaLaws Key Entry, !MokaLaws PrimaryKey Index}
    (now : Instant) (p : PrimaryKey) (request : HeaderMap) (m : option Duration) (s : Store) :
  wf_store s ->
  exists o, lookup now p request m s = Done o /\
    match o with
    | None => True
    | Some (Fresh r) =>
        Instant_elapsed now (stored_at (arc_get r)) < stored_ttl (arc_get r) /\
        forall a, m = Some a ->
          stored_initial_age (arc_get r) + Instant_elapsed now (stored_at (arc_get r)) <= a
    | Some (Stale e) =>
        let r := arc_get (response e) in
        (exists st, staleness now r = Some st /\ st < ttl s /\
           useful_stale (stored_stale r) (negb (bool_decide (validators r = []))) st) \/
        (is_fresh now r = true /\ exists a b, m = Some a /\ age now r = Done b /\ a < b)
    end.
Proof.
  intros Hwf. destruct (lookup_returns now p request m s Hwf) as (o & E).
  exists o. split; [done|]. destruct o as [[r|e]|]; [..|done];
    pose proof E as (ix & _ & _ & Hu)%lookup_Some.
  - apply usable_true in Hu as [Hf Ha]. split; [by apply N.ltb_lt|].
    intros a Hm. destruct (Ha a Hm) as (b & [-> _]%Duration_add_Done & Hle). done.
  - destruct Hu as [_ [Hf|?]%usable_false]; [left|by right].
    apply lookup_entry_ok in E as [[Hpos _ Hg _ _] Hlt]; [|done]. simpl in Hpos, Hg, Hlt.
    unfold is_fresh in Hf. apply N.ltb_ge in Hf.
    exists (Instant_elapsed now (stored_at (arc_get (response e))) - stored_ttl (arc_get (response e))).
    split; [by apply Duration_checked_sub_Some; split; [|lia]|].
    apply grace_exact. rewrite <- Hg. unfold entry_ttl, Duration_saturating_add, Instant_elapsed in *.
    lia.
Qed.

Lemma lookup_sound_witness :
  exists r, lookup (Duration_from_secs 59) ex_key ex_request None ex_store = Done (Some (Fresh r)) /\
    stored_ttl (arc_get r) = Duration_from_secs 60.
Proof.
  destruct (lookup_sound (Duration_from_secs 59) ex_key ex_request None ex_store ex_wf)
    as (o & Ho & _).
  exists ex_arc. split; vm_compute; reflexivity.
Defined.

(** ** A stored response is found again *)

(** the caches still hold the response stored for [p] and [vals] *)
Definition retained
    `{EntriesOps : !MokaOps Key Entry, IndexOps : !MokaOps PrimaryKey Index}
    (s : Store) (p : PrimaryKey) (vals : list (option string)) : Prop :=
  exists ix d, moka_contents (index s) !! p = Some (ix, d) /\
    is_Some (moka_contents (entries s) !! Key_Response
      {| primary := p; generation := index_generation ix; vary := vals |}).

Section found_again.
Context `{Hops : HttpOps, EntriesOps : !MokaOps Key Entry, IndexOps : !MokaOps PrimaryKey Index}.
Context `{Hlaws : !HttpLaws, !MokaLaws Key Entry, !MokaLaws PrimaryKey Index}.

Lemma stored_ttl_expiry s now r :
  response_ok s r -> ttl s <= Duration_MAX -> stored_at r = now ->
  forall now', now' < now + stored_ttl r ->
  now' < now + entry_ttl (Entry_Response {| arc_ptr := 0; arc_get := r |}) /\
  now' < now + index_ttl (ttl s).
Proof.
  intros [Hp Ht _ _ _] Hmax Hat now' Hlt. unfold entry_ttl, index_ttl,
    Duration_saturating_add, Duration_saturating_mul. simpl. split; lia.
Qed.

Lemma retained_get now now' p v pol st hs b s r s' :
  wf_store s -> policy_ok pol ->
  insert_response now p v pol st hs b s = (Some r, s') -> retained s' p (values v) ->
  now' < now + stored_ttl (arc_get r) ->
  exists ix, cache_get now' p (index s') = Some ix /\ index_vary ix = names v /\
    cache_get now' (Key_Response
      {| primary := p; generation := index_generation ix; vary := values v |}) (entries s')
    = Some (Entry_Response r).
Proof.
  intros Hwf Hpol Hins (ix & d & Hix & [[e d'] He]) Hnow.
  destruct (insert_response_contents _ _ _ _ _ _ _ _ _ _ Hwf Hins) as (Hr & Hx & Hc).
  assert (response_ok s (arc_get r)) as Hok.
  { rewrite Hr. simpl. unfold insert_response in Hins.
    destruct (storable_body b s) eqn:Eb; [|done].
    apply storable_body_true in Eb as [[_ ?]%enabled_true ?]. by apply new_response_ok. }
  destruct (stored_ttl_expiry s now (arc_get r) Hok (wf_ttl _ Hwf)) with now'
    as [He' Hi']; [by rewrite Hr|done|].
  pose proof Hix as Hix'. eapply lookup_weaken in Hix'; [|exact Hx].
  rewrite lookup_insert_eq in Hix'. injection Hix' as <- <-.
  pose proof He as He''. eapply lookup_weaken in He''; [|exact Hc].
  rewrite lookup_insert_eq in He''. injection He'' as <- <-.
  eexists. split_and!; [by eapply cache_get_retained|done|by eapply cache_get_retained].
Qed.
End found_again.

(** C13. A stored response answers every later request for its URI whose fields
    give the same [Vary] values, as it was stored, for as long as it is fresh
    and no older than the request allows, unless the cache has evicted it. *)
Theorem insert_then_lookup
    `{Hops : HttpOps, EntriesOps : !MokaOps Key Entry, IndexOps : !MokaOps PrimaryKey Index}
    `{Hlaws : !HttpLaws, !MokaLaws Key Entry, !MokaLaws PrimaryKey Index}
    (now now' : Instant) (p : PrimaryKey) (v : Vary) (pol : Storable) (st : StatusCode)
    (hs : Fields) (b : Bytes) (s s' : Store) (r : Arc StoredResponse)
    (request : HeaderMap) (m : option Duration) :
  wf_store s -> policy_ok pol ->
  insert_response now p v pol st hs b s = (Some r, s') ->
  retained s' p (values v) ->
  vary_values (names v) request = values v ->
  now <= now' < now + N.min (storable_ttl pol) (ttl s) ->
  (forall a, m = Some a -> initial_age pol + (now' - now) <= a) ->
  lookup now' p request m s' = Done (Some (Fresh r)) /\
  status (arc_get r) = st /\ headers (arc_get r) = hs /\ body (arc_get r) = b.
Proof.
  intros Hwf Hpol Hins Hret Hvals Hnow Ha.
  destruct (insert_response_contents _ _ _ _ _ _ _ _ _ _ Hwf Hins) as (Hr & _ & _).
  split; [|by rewrite Hr].
  destruct (retained_get now now' p v pol st hs b s r s' Hwf Hpol Hins Hret)
    as (ix & Hix & Hn & He); [rewrite Hr; simpl; lia|].
  apply lookup_Some. exists ix. unfold request_key. rewrite Hn, Hvals.
  split_and!; [done|done|]. apply usable_true. rewrite Hr. unfold is_fresh, age,
    Instant_elapsed; simpl. split; [apply N.ltb_lt; lia|].
  intros a Hm. exists (initial_age pol + (now' - now)). split; [|by apply Ha].
  apply Duration_add_Done. split; [done|].
  destruct Hpol as [_ Hpol]. unfold Duration_from_secs, Duration_MAX in *. lia.
Qed.

Lemma insert_then_lookup_witness :
  lookup (Duration_from_secs 59) ex_key ex_request (Some (Duration_from_secs 59)) ex_store
  = Done (Some (Fresh ex_arc)).
Proof.
  apply (insert_then_lookup 0 (Duration_from_secs 59) ex_key ex_vary ex_policy 200
    ex_headers "hello" ex_empty ex_store ex_arc ex_request (Some (Duration_from_secs 59))).
  - apply (wf_Store_new 1 ex_ttl _ ex_empty_new). vm_compute. discriminate.
  - split; vm_compute; [reflexivity|discriminate].
  - exact ex_insert_eq.
  - do 2 eexists. split; [vm_compute; reflexivity|]. eexists. vm_compute. reflexivity.
  - vm_compute. reflexivity.
  - split; vm_compute; [discriminate|reflexivity].
  - intros a [= <-]. vm_compute. discriminate.
Defined.

(** C14. Invalidating a URI hides everything stored for it: no request finds a
    response until a new one is stored, and from then on only that one, never
    an older variant. Lookups for another URI find what they found before, as
    long as moka keeps that URI's own index entry (it may evict any entry for
    room at any time), and otherwise nothing; the stored responses, the
    revalidations under way and the settings of the store are left as they
    are. *)
Theorem invalidate_unreachable
    `{Hops : HttpOps, EntriesOps : !MokaOps Key Entry, IndexOps : !MokaOps PrimaryKey Index}
    `{Hlaws : !HttpLaws, !MokaLaws Key Entry, !MokaLaws PrimaryKey Index}
    (p : PrimaryKey) (s : Store) :
  wf_store s ->
  (forall now request m, lookup now p request m (invalidate p s) = Done None) /\
  (forall now p' request m l, lookup now p' request m (invalidate p s) = Done (Some l) ->
     p' <> p /\ lookup now p' request m s = Done (Some l)) /\
  (forall p', p' <> p ->
     moka_contents (cache_invalidate p (index s)) !! p' = moka_contents (index s) !! p' ->
     forall now request m,
       lookup now p' request m (invalidate p s) = lookup now p' request m s /\
       flight_key now p' request (invalidate p s) = flight_key now p' request s) /\
  (exists ixs, invalidate p s = set_index ixs s) /\
  (forall now now' v pol st hs b r s' request m l,
     insert_response now p v pol st hs b (invalidate p s) = (Some r, s') ->
     lookup now' p request m s' = Done (Some l) -> lookup_response l = r).
Proof.
  intros Hwf. split_and!.
  - intros now request m. apply lookup_invalidate.
  - intros now p' request m l (ix & Hix & He & Hl)%lookup_Some.
    apply cache_get_invalidate_ne in Hix as [Hne Hix]. split; [done|].
    apply lookup_Some. by exists ix.
  - intros p' _ Hkept now request m. unfold lookup, lookup_index, flight_key. simpl.
    by rewrite (cache_get_same now p' (index s)).
  - by eexists.
  - intros now now' v pol st hs b r s' request m l Hins Hlk.
    eapply new_generation_only; [|unfold insert_get_index|exact Hins|exact Hlk].
    + by apply wf_invalidate.
    + simpl. by rewrite cache_get_invalidate.
Qed.

(** another URI of the same host, stored beside the first *)
Definition ex_other_key : PrimaryKey :=
  {| scheme := scheme ex_key; host := host ex_key; path_and_query := "/other" |}.
Definition ex_two : Store :=
  snd (insert_response 0 ex_other_key ex_vary ex_policy 200 ex_headers "other" ex_store).

Lemma invalidate_unreachable_witness :
  lookup 0 ex_key ex_request None ex_store = Done (Some (Fresh ex_arc)) /\
  lookup 0 ex_key ex_request None (invalidate ex_key ex_two) = Done None /\
  lookup 0 ex_other_key ex_request None (invalidate ex_key ex_two) =
    lookup 0 ex_other_key ex_request None ex_two /\
  (exists r, lookup 0 ex_other_key ex_request None ex_two = Done (Some (Fresh r))).
Proof.
  assert (wf_store ex_two) as Hwf.
  { apply wf_insert_response; [|vm_compute; reflexivity|exact ex_wf].
    split; vm_compute; [reflexivity|discriminate]. }
  destruct (invalidate_unreachable ex_key ex_two Hwf) as (Hnone & _ & Hother & _).
  split; [vm_compute; reflexivity|]. split; [apply Hnone|]. split.
  - apply Hother; [discriminate|vm_compute; reflexivity].
  - eexists. vm_compute. reflexivity.
Defined.

(** Storing a response whose [Vary] names differ from those of the stored
    variants of its URI replaces them all: later lookups for the URI find the
    new response or nothing. *)
Theorem changed_vary_replaces_variants
    `{Hops : HttpOps, EntriesOps : !MokaOps Key Entry, IndexOps : !MokaOps PrimaryKey Index}
    `{Hlaws : !HttpLaws, !MokaLaws Key Entry, !MokaLaws PrimaryKey Index}
    (now now' : Instant) (p : PrimaryKey) (v : Vary) (pol : Storable) (st : StatusCode)
    (hs : Fields) (b : Bytes) (s s' : Store) (r : Arc StoredResponse)
    (request : HeaderMap) (m : option Duration) (l : Lookup) :
  wf_store s ->
  (forall ix, cache_get now p (index s) = Some ix -> index_vary ix <> names v) ->
  insert_response now p v pol st hs b s = (Some r, s') ->
  lookup now' p request m s' = Done (Some l) -> lookup_response l = r.
Proof.
  intros Hwf Hne. apply new_generation_only; [done|]. unfold insert_get_index.
  destruct (cache_get now p (index s)) as [ix|]; [|done].
  case_bool_decide as E; [|done]. by destruct (Hne ix eq_refl).
Qed.

(** the page without [Vary] replaces the variant for [text/html] *)
Definition ex_plain : option (Arc StoredResponse) * Store :=
  insert_response 1 ex_key {| names := []; values := [] |} ex_policy 200
    [("etag", "v2")]%string "plain" ex_store.

Lemma changed_vary_replaces_variants_witness :
  exists r, fst ex_plain = Some r /\
  lookup 2 ex_key ex_request None (snd ex_plain) = Done (Some (Fresh r)) /\ r <> ex_arc.
Proof.
  destruct (fst ex_plain) as [r|] eqn:E; [|vm_compute in E; discriminate].
  destruct (lookup 2 ex_key ex_request None (snd ex_plain)) as [[l|]|] eqn:El;
    [|vm_compute in El; discriminate..].
  exists r. split; [done|].
  pose proof (changed_vary_replaces_variants 1 2 ex_key {| names := []; values := [] |}
    ex_policy 200 [("etag", "v2")]%string "plain" ex_store (snd ex_plain) r ex_request None l
    ex_wf) as Hl.
  assert (lookup_response l = r) as Heq.
  { apply Hl; [|rewrite <- E; apply surjective_pairing|exact El].
    intros ix Hix. vm_compute in Hix. injection Hix as <-. discriminate. }
  split; [|vm_compute in E; injection E as <-; discriminate].
  destruct l as [r'|e']; [simpl in Heq; by subst|vm_compute in El; discriminate].
Defined.

(** the store still holds under [key] the very response [r], the one with
    its address *)
Definition still_stored
    `{Hops : HttpOps, EntriesOps : !MokaOps Key Entry, IndexOps : !MokaOps PrimaryKey Index}
    (now : Instant) (key : ResponseKey) (r : Arc StoredResponse) (s : Store) : Prop :=
  exists r', cache_get now (Key_Response key) (entries s) = Some (Entry_Response r') /\
             arc_ptr r' = arc_ptr r.

Lemma is_current_spec
    `{Hops : HttpOps, EntriesOps : !MokaOps Key Entry, IndexOps : !MokaOps PrimaryKey Index}
    now key r s :
  is_current now key r s = true <-> still_stored now key r s.
Proof.
  unfold is_current, still_stored, Arc_ptr_eq.
  destruct (cache_get _ _ _) as [[asset|r']|]; [naive_solver| |naive_solver].
  rewrite N.eqb_eq. naive_solver.
Qed.

(** C19. A 304 gives the client the stored status and body with the updated
    fields, a new age and the lifetime the updated fields allow. In the
    store, an entry that has been replaced since the lookup is left alone;
    one whose updated fields forbid storing is removed; and any other is
    stored anew as the response the client gets, unless the store no longer
    takes its body, when nothing changes. *)
Theorem freshen_branches
    `{Hops : HttpOps, EntriesOps : !MokaOps Key Entry, IndexOps : !MokaOps PrimaryKey Index}
    `{Hlaws : !HttpLaws, !MokaLaws Key Entry, !MokaLaws PrimaryKey Index}
    (now : Instant) (now_sys : SystemTime) (e : StaleEntry) (rp : RequestPolicy)
    (request : HeaderMap) (update : Fields) (a : option HeaderValue)
    (s s' : Store) (fresh : Arc StoredResponse) :
  freshen now now_sys e rp request update a s = (fresh, s') ->
  let stored := arc_get (response e) in
  let fields := updated_fields (headers stored) update in
  let decision := storable now_sys rp request (status stored) (freshened_map fields a) in
  let key := stale_key e in
  let current := still_stored now key (response e) s in
  let untouched :=
    entries s' = entries s /\ index s' = index s /\ next_generation s' = next_generation s in
  (status (arc_get fresh) = status stored /\ body (arc_get fresh) = body stored /\
   headers (arc_get fresh) = fields /\ stored_at (arc_get fresh) = now /\
   stored_ttl (arc_get fresh) =
     from_option (fun '(pol, _) => N.min (storable_ttl pol) (ttl s)) 0 decision) /\
  (~ current -> untouched) /\
  (current -> decision = None ->
     index s' = index s /\ is_fresh now (arc_get fresh) = false /\
     forall now', cache_get now' (Key_Response key) (entries s') = None) /\
  (forall pol v, current -> decision = Some (pol, v) ->
     if storable_body (body stored) s
     then insert_response now (primary key) v pol (status stored) fields (body stored) s
          = (Some fresh, s')
     else untouched).
Proof.
  unfold freshen. cbv zeta.
  setoid_rewrite <- is_current_spec.
  destruct (storable _ _ _ _ _) as [[pol v]|];
    destruct (is_current now (stale_key e) (response e) s).
  - destruct (insert_response _ _ _ _ _ _ _ _) as [[f|] s1] eqn:E.
    + intros [= <- <-]. pose proof (insert_response_result _ _ _ _ _ _ _ _ _ _ E) as Hr.
      assert (storable_body (body (arc_get (response e))) s = true) as Hb.
      { revert E. unfold insert_response. by destruct (storable_body _ _). }
      split_and!; try naive_solver; try (by rewrite Hr).
      intros pol' v' _ [= <- <-]. by rewrite Hb.
    + intros Hf. injection Hf as <- <-. apply insert_response_None in E as [Hb ->].
      split_and!; try naive_solver. intros pol' v' _ _. by rewrite Hb.
  - intros Hf. injection Hf as <- <-. naive_solver.
  - intros Hf. injection Hf as <- <-. split_and!; try naive_solver; [apply N.min_0_l|]. simpl.
    intros _ _. split_and!; [done|..].
    + unfold is_fresh, new_response, Storable_default. simpl. apply N.ltb_ge. lia.
    + intros now'. apply cache_get_invalidate.
  - intros Hf. injection Hf as <- <-. simpl. rewrite N.min_0_l. naive_solver.
Qed.

(** the variant after 70 s, stale for 10 s, and the origin's 304 for it *)
Definition ex_stale : StaleEntry := {| response := ex_arc; stale_key := ex_response_key |}.
Definition ex_freshened : Arc StoredResponse * Store :=
  freshen (Duration_from_secs 70) 0 ex_stale ex_rp ex_request
    [("cache-control", "max-age=120")]%string None ex_store.

Lemma freshen_branches_witness :
  body (arc_get (fst ex_freshened)) = "hello"%string /\
  insert_response (Duration_from_secs 70) ex_key ex_vary
    {| storable_ttl := Duration_from_secs 120; initial_age := 0; stale := StaleRules_default |}
    200 [("etag", "v1"); ("vary", "Accept"); ("cache-control", "max-age=120")]%string "hello"
    ex_store = (Some (fst ex_freshened), snd ex_freshened).
Proof.
  destruct (freshen_branches (Duration_from_secs 70) 0 ex_stale ex_rp ex_request
    [("cache-control", "max-age=120")]%string None ex_store (snd ex_freshened)
    (fst ex_freshened) (surjective_pairing _)) as ((_ & Hb & _) & _ & _ & Hins).
  split; [exact Hb|].
  apply (Hins {| storable_ttl := Duration_from_secs 120; initial_age := 0;
                 stale := StaleRules_default |} ex_vary); [|vm_compute; reflexivity].
  exists ex_arc. split; vm_compute; reflexivity.
Defined.
