(* ===== verification/StoreSpec.v ===== *)
(** What the store promises, and that it keeps the promise. The specification
    is a map from URIs to families: the [Vary] names that the URI's responses
    agree on, and one response for each list of their values. It stores,
    hides and looks up in one step each. A lookup may miss, and then the
    variant is gone until it is stored again, since the store evicts at any
    time. The store of [src/cache.rs] has two caches, generations and expiry
    instead. [store_refines_spec] says that whatever a caller sees of the
    store, the specification could have shown. *)

From stdpp Require Import base tactics option list gmap strings relations.
From S2P Require Import Prelude RustStd Http Directives Policy Moka Store StoreInvariant Examples StoreTheorems.

Local Open Scope N_scope.

(** ** The specification *)

Record Family := {
  family_names : list HeaderName;
  variants : gmap (list (option string)) StoredResponse;
}.

Abbreviation Families := (gmap PrimaryKey Family) (only parsing).

Definition no_family (names : list HeaderName) : Family :=
  {| family_names := names; variants := ∅ |}.

(** the family that a response with these [Vary] names joins: one with other
    names is dropped with all its variants *)
Definition family_for (m : Families) (p : PrimaryKey) (names : list HeaderName) : Family :=
  match m !! p with
  | Some f => if bool_decide (family_names f = names) then f else no_family names
  | None => no_family names
  end.

Definition spec_store (p : PrimaryKey) (v : Vary) (r : StoredResponse) (m : Families) : Families :=
  <[p := {| family_names := names v;
            variants := <[values v := r]> (variants (family_for m p (names v))) |}]> m.

(** a response in the form that the store holds it in *)
Record kept_as (now : Instant) (pol : Storable) (st : StatusCode) (hs : Fields) (b : Bytes)
    (r : StoredResponse) : Prop := {
  kept_status : status r = st;
  kept_headers : headers r = hs;
  kept_body : body r = b;
  kept_at : stored_at r = now;
  kept_age : stored_initial_age r = initial_age pol;
  kept_ttl : stored_ttl r <= storable_ttl pol;
  kept_stale : stored_stale r = stale pol;
}.

Section spec.
Context `{Hops : HttpOps}.

Definition spec_find (p : PrimaryKey) (request : HeaderMap) (m : Families)
    : option StoredResponse :=
  f ← m !! p; variants f !! vary_values (family_names f) request.

(** the variant that the request selects is lost *)
Definition spec_lose (p : PrimaryKey) (request : HeaderMap) (m : Families) : Families :=
  alter (fun f => {| family_names := family_names f;
                     variants := delete (vary_values (family_names f) request) (variants f) |}) p m.

(** what a caller sees: whether a response was stored, and the response that
    a lookup returned, as a fresh one or not *)
Inductive Event :=
| Stored (now : Instant) (p : PrimaryKey) (v : Vary) (pol : Storable) (st : StatusCode)
    (hs : Fields) (b : Bytes) (result : option StoredResponse)
| Hidden (p : PrimaryKey)
| Found (now : Instant) (p : PrimaryKey) (request : HeaderMap) (max_age : option Duration)
    (result : option (bool * StoredResponse)).

(** a response that a lookup may return at [now]: it has not expired, and is
    called fresh when [usable] says so *)
Definition judged (now : Instant) (max_age : option Duration) (fresh : bool)
    (r : StoredResponse) : Prop :=
  usable now max_age r = Done fresh /\ now < stored_at r + (stored_ttl r + grace r).

Inductive spec_step : Families -> Event -> Families -> Prop :=
| spec_stores now p v pol st hs b r m :
    kept_as now pol st hs b r ->
    spec_step m (Stored now p v pol st hs b (Some r)) (spec_store p v r m)
| spec_refuses now p v pol st hs b m : spec_step m (Stored now p v pol st hs b None) m
| spec_hides p m : spec_step m (Hidden p) (delete p m)
| spec_finds now p request a fresh r m :
    spec_find p request m = Some r -> judged now a fresh r ->
    spec_step m (Found now p request a (Some (fresh, r))) m
| spec_misses now p request a m :
    spec_step m (Found now p request a None) (spec_lose p request m).

(** runs of the specification, with the events seen *)
Inductive spec_run : Families -> list Event -> Families -> Prop :=
| spec_nil m : spec_run m [] m
| spec_cons m e m1 l m2 :
    spec_step m e m1 -> spec_run m1 l m2 -> spec_run m (e :: l) m2.
End spec.

(** ** The store's own steps *)

Section store_events.
Context `{Hops : HttpOps, EntriesOps : !MokaOps Key Entry, IndexOps : !MokaOps PrimaryKey Index}.

(** what a caller sees of a lookup *)
Definition seen (o : option Lookup) : option (bool * StoredResponse) :=
  match o with
  | Some (Fresh r) => Some (true, arc_get r)
  | Some (Stale e) => Some (false, arc_get (response e))
  | None => None
  end.

(** [freshen] stores anew what is still stored and may be *)
Definition freshen_event (now : Instant) (now_sys : SystemTime) (e : StaleEntry)
    (rp : RequestPolicy) (request : HeaderMap) (update : Fields) (a : option HeaderValue)
    (s : Store) : option Event :=
  let stored := arc_get (response e) in
  let fields := updated_fields (headers stored) update in
  '(pol, v) ← storable now_sys rp request (status stored) (freshened_map fields a);
  if is_current now (stale_key e) (response e) s then
    Some (Stored now (primary (stale_key e)) v pol (status stored) fields (body stored)
      (arc_get <$> fst (insert_response now (primary (stale_key e)) v pol (status stored)
                          fields (body stored) s)))
  else None.

(** a step of the store, with the time of the last one *)
Inductive store_event : Instant * Store -> option Event -> Instant * Store -> Prop :=
| event_insert clock now p v pol st hs b s o s' :
    clock <= now -> policy_ok pol -> insert_response now p v pol st hs b s = (o, s') ->
    store_event (clock, s) (Some (Stored now p v pol st hs b (arc_get <$> o))) (now, s')
| event_invalidate clock p s : store_event (clock, s) (Some (Hidden p)) (clock, invalidate p s)
| event_lookup clock now p request a s o :
    clock <= now -> lookup now p request a s = Done o ->
    store_event (clock, s) (Some (Found now p request a (seen o))) (now, s)
| event_freshen clock now now_sys e rp request update a s :
    clock <= now -> clock_ok now_sys ->
    store_event (clock, s) (freshen_event now now_sys e rp request update a s)
      (now, snd (freshen now now_sys e rp request update a s))
| event_asset clock now path c et m s : clock <= now ->
    store_event (clock, s) None (now, snd (insert_asset now path c et m s))
| event_start_refresh clock e s : store_event (clock, s) None (clock, snd (start_refresh e s))
| event_drop_guard clock g s : store_event (clock, s) None (clock, RefreshGuard_drop g s)
| event_count clock now s : clock <= now ->
    store_event (clock, s) None (now, snd (entry_count now s))
| event_weigh clock now s : clock <= now ->
    store_event (clock, s) None (now, snd (weighted_size now s)).

(** [n] steps of the store, with the events seen *)
Inductive store_run : nat -> Instant * Store -> list Event -> Instant * Store -> Prop :=
| run_nil s : store_run 0 s [] s
| run_cons n s e s1 l s2 :
    store_event s e s1 -> store_run n s1 l s2 -> store_run (S n) s (option_list e ++ l) s2.
End store_events.

(** ** The simulation *)

Section simulation.
Context `{Hops : HttpOps, EntriesOps : !MokaOps Key Entry, IndexOps : !MokaOps PrimaryKey Index}.
Context `{Hlaws : !HttpLaws, !MokaLaws Key Entry, !MokaLaws PrimaryKey Index}.
Implicit Types (s : Store) (m : Families).

(** a response that a lookup after [clock] can still find *)
Definition reachable (clock : Instant) (s : Store) (p : PrimaryKey) (ix : Index)
    (vals : list (option string)) (r : Arc StoredResponse) : Prop :=
  exists t d, clock < t /\ clock < d /\
  moka_contents (index s) !! p = Some (ix, t) /\
  moka_contents (entries s) !! Key_Response
    {| primary := p; generation := index_generation ix; vary := vals |}
  = Some (Entry_Response r, d).

(** each is a variant of its family in the specification *)
Definition simulates (cs : Instant * Store) (m : Families) : Prop :=
  forall p ix vals r, reachable (fst cs) (snd cs) p ix vals r ->
  exists f, m !! p = Some f /\ family_names f = index_vary ix /\
    variants f !! vals = Some (arc_get r).

Lemma simulates_shrinks clock clock' s s' m :
  clock <= clock' ->
  moka_contents (index s') ⊆ moka_contents (index s) ->
  (forall rk x, moka_contents (entries s') !! Key_Response rk = Some x ->
     moka_contents (entries s) !! Key_Response rk = Some x) ->
  simulates (clock, s) m -> simulates (clock', s') m.
Proof.
  intros Hc Hi He HR p ix vals r (t & d & Ht & Hd & Hix & Hen). simpl in *.
  apply HR. exists t, d. split_and!; simpl; [lia..|by eapply lookup_weaken|by apply He].
Qed.

Lemma simulates_weaken clock clock' s s' m :
  clock <= clock' ->
  moka_contents (index s') ⊆ moka_contents (index s) ->
  moka_contents (entries s') ⊆ moka_contents (entries s) ->
  simulates (clock, s) m -> simulates (clock', s') m.
Proof. intros Hc Hi He. apply simulates_shrinks; eauto using lookup_weaken. Qed.

Lemma simulates_asset clock now path c et mt s m :
  wf_store s -> clock <= now ->
  simulates (clock, s) m -> simulates (now, snd (insert_asset now path c et mt s)) m.
Proof.
  intros Hwf Hc HR. unfold insert_asset. case_match; [|by apply (simulates_weaken clock now s)].
  apply (simulates_shrinks clock now s); [done|done| |done]. intros rk x Hx. simpl in Hx.
  eapply lookup_weaken in Hx; [|apply moka_contents_run].
  eapply lookup_weaken in Hx; [|by apply entries_insert_contents].
  by rewrite lookup_insert_ne in Hx.
Qed.

Lemma simulates_insert clock now p v pol st hs b s r s' m :
  wf_store s -> clock <= now -> insert_response now p v pol st hs b s = (Some r, s') ->
  simulates (clock, s) m -> simulates (now, s') (spec_store p v (arc_get r) m).
Proof.
  intros Hwf Hc Hins HR p' ix vals r' (t & d & Ht & Hd & Hix & Hen). simpl in *.
  destruct (insert_response_contents _ _ _ _ _ _ _ _ _ _ Hwf Hins) as (_ & Hi & He).
  eapply lookup_weaken in Hix, Hen; [|exact He|exact Hi].
  apply lookup_insert_Some in Hix as [(<- & [= <- _])|[Hne Hix]].
  - eexists. split; [apply lookup_insert_eq|]. split; [done|]. simpl in *.
    apply lookup_insert_Some in Hen as [([= <-] & [= <- _])|[Hk Hen]].
    { apply lookup_insert_eq. }
    assert (vals <> values v) as Hv by (intros ->; by destruct Hk).
    rewrite lookup_insert_ne by done.
    unfold insert_generation in Hen.
    destruct (insert_get_index now p v s) as [g|] eqn:Eg.
    2: { eapply insert_generation_fresh in Hen; [done|exact Eg|done|].
         unfold insert_generation. by rewrite Eg. }
    unfold insert_get_index in Eg. destruct (cache_get now p (index s)) as [ix0|] eqn:Ec; [|done].
    case_bool_decide as Hn; [|done]. injection Eg as <-.
    apply cache_get_sound in Ec as (t0 & Hix0 & Ht0).
    destruct (HR p ix0 vals r') as (f & Hf & Hfn & Hfv).
    { exists t0, d. split_and!; simpl; [lia..|done|done]. }
    unfold family_for. rewrite Hf, bool_decide_eq_true_2; [done|congruence].
  - rewrite lookup_insert_ne in Hen by congruence. unfold spec_store.
    rewrite lookup_insert_ne by done. apply HR. exists t, d. split_and!; simpl; [lia..|done|done].
Qed.

Lemma simulates_hide clock p s m :
  simulates (clock, s) m -> simulates (clock, invalidate p s) (delete p m).
Proof.
  intros HR p' ix vals r (t & d & Ht & Hd & Hix & Hen). simpl in *.
  eapply lookup_weaken in Hix; [|apply moka_contents_invalidate].
  apply lookup_delete_Some in Hix as [Hne Hix]. rewrite lookup_delete_ne by done.
  apply HR. exists t, d. done.
Qed.

Lemma simulates_find clock now p request a s l m :
  wf_store s -> clock <= now -> lookup now p request a s = Done (Some l) ->
  simulates (clock, s) m ->
  exists fresh, seen (Some l) = Some (fresh, arc_get (lookup_response l)) /\
    judged now a fresh (arc_get (lookup_response l)) /\
    spec_find p request m = Some (arc_get (lookup_response l)).
Proof.
  intros Hwf Hc Hl HR. pose proof (lookup_entry_ok _ _ _ _ _ _ Hwf Hl) as [_ Hexp].
  assert (now < stored_at (arc_get (lookup_response l)) +
    (stored_ttl (arc_get (lookup_response l)) + grace (arc_get (lookup_response l)))) as Hlt
    by (unfold entry_ttl, Duration_saturating_add in Hexp; lia).
  apply lookup_Some in Hl as (ix & Hix & He & Hj).
  apply cache_get_sound in Hix as (t & Hix & Ht). apply cache_get_sound in He as (d & He & Hd).
  destruct (HR p ix (vary_values (index_vary ix) request) (lookup_response l))
    as (f & Hf & Hn & Hv).
  { exists t, d. split_and!; simpl; [lia..|done|done]. }
  assert (spec_find p request m = Some (arc_get (lookup_response l)))
    by (unfold spec_find; rewrite Hf; simpl; by rewrite Hn).
  destruct l as [r|e]; simpl in *; eexists; (split; [done|]); [by split_and!|].
  destruct Hj. by split_and!.
Qed.

Lemma simulates_miss clock now p request a s m :
  wf_store s -> clock <= now -> lookup now p request a s = Done None ->
  simulates (clock, s) m -> simulates (now, s) (spec_lose p request m).
Proof.
  intros Hwf Hc Hl HR p' ix vals r (t & d & Ht & Hd & Hix & Hen). simpl in *.
  destruct (HR p' ix vals r) as (f & Hf & Hn & Hv).
  { exists t, d. split_and!; simpl; [lia..|done|done]. }
  unfold spec_lose. destruct (decide (p = p')) as [<-|Hne]; [|by rewrite lookup_alter_ne; eauto].
  rewrite lookup_alter_eq, Hf. eexists. split; [done|]. split; [done|]. simpl.
  rewrite Hn, lookup_delete_ne; [done|]. intros <-.
  revert Hl. unfold lookup, lookup_index, lookup_entry. rewrite (cache_get_retained _ _ _ _ _ Hix Ht).
  cbn [fmap option_fmap option_map].
  cbv zeta. unfold request_key. rewrite (cache_get_retained _ _ _ _ _ Hen Hd).
  rewrite Run_bind_Done. by intros ([] & _ & ?).
Qed.

(** ** Every event is one that the specification could show *)

Lemma insert_kept_as now p v pol st hs b s r s' :
  insert_response now p v pol st hs b s = (Some r, s') -> kept_as now pol st hs b (arc_get r).
Proof. intros ->%insert_response_result. constructor; simpl; try done. lia. Qed.

Lemma insert_simulated clock now p v pol st hs b s o s' m :
  wf_store s -> clock <= now -> insert_response now p v pol st hs b s = (o, s') ->
  simulates (clock, s) m ->
  exists m', spec_step m (Stored now p v pol st hs b (arc_get <$> o)) m' /\
    simulates (now, s') m'.
Proof.
  intros Hwf Hc Hins HR. destruct o as [r|].
  - eexists. split; [constructor; by eapply insert_kept_as|by eapply simulates_insert].
  - apply insert_response_None in Hins as [_ ->].
    exists m. split; [constructor|by eapply simulates_weaken].
Qed.

(** what [freshen] does to the store besides insertion *)
Lemma freshen_cases now now_sys e rp request update a s :
  let stored := arc_get (response e) in
  let fields := updated_fields (headers stored) update in
  let s' := snd (freshen now now_sys e rp request update a s) in
  match freshen_event now now_sys e rp request update a s with
  | Some ev => exists pol v o s1,
      storable now_sys rp request (status stored) (freshened_map fields a) = Some (pol, v) /\
      insert_response now (primary (stale_key e)) v pol (status stored) fields (body stored) s
        = (o, s1) /\
      ev = Stored now (primary (stale_key e)) v pol (status stored) fields (body stored)
             (arc_get <$> o) /\
      index s' = index s1 /\ entries s' = entries s1
  | None => moka_contents (index s') ⊆ moka_contents (index s) /\
            moka_contents (entries s') ⊆ moka_contents (entries s)
  end.
Proof.
  unfold freshen_event, freshen. cbv zeta.
  destruct (storable _ _ _ _ _) as [[pol v]|]; simpl;
    destruct (is_current now (stale_key e) (response e) s); simpl; try done.
  - destruct (insert_response _ _ _ _ _ _ _ _) as [[f|] s1] eqn:E; by do 4 eexists.
  - split; [done|]. etrans; [apply moka_contents_invalidate|apply delete_subseteq].
Qed.

Lemma event_invariant clock s e clock' s' :
  store_event (clock, s) e (clock', s') -> next_generation s < u64_MAX -> wf_store s ->
  wf_store s' /\ next_generation s' <= next_generation s + 1.
Proof.
  intros Hev Hg Hwf.
  assert (forall s', store_step s s' -> wf_store s' /\ next_generation s' <= next_generation s + 1)
    as Hstep by eauto using wf_store_step, store_step_generation.
  inversion Hev; simplify_eq; try (apply Hstep; by econstructor).
  - split.
    + pose proof (wf_insert_response clock' p v pol st hs b s) as Hw.
      replace (insert_response clock' p v pol st hs b s) with (o, s') in Hw by done. by apply Hw.
    + pose proof (insert_response_generation clock' p v pol st hs b s Hg) as Hw.
      by replace (insert_response clock' p v pol st hs b s) with (o, s') in Hw by done.
  - split; [done|lia].
Qed.

Lemma event_simulated clock s e clock' s' m :
  store_event (clock, s) e (clock', s') -> wf_store s -> simulates (clock, s) m ->
  exists m', spec_run m (option_list e) m' /\ simulates (clock', s') m'.
Proof.
  intros Hev Hwf HR.
  assert (forall ev, (exists m', spec_step m ev m' /\ simulates (clock', s') m') ->
    exists m', spec_run m (option_list (Some ev)) m' /\ simulates (clock', s') m') as Hone.
  { intros ev (m' & Hs & HR'). exists m'. split; [|done]. econstructor; [exact Hs|constructor]. }
  inversion Hev; simplify_eq.
  - eapply Hone, insert_simulated; eauto.
  - apply Hone. eexists. split; [constructor|by apply simulates_hide].
  - apply Hone. destruct o as [l|].
    + edestruct simulates_find as (fresh & Hseen & ? & ?); [done|done| |done|]; [done|].
      rewrite Hseen. exists m. split; [by constructor|by apply (simulates_weaken clock clock' s')].
    + eexists. split; [constructor|by eapply simulates_miss].
  - pose proof (freshen_cases clock' now_sys e0 rp request update a s) as Hf. cbv zeta in Hf.
    destruct (freshen_event _ _ _ _ _ _ _ _) as [ev|].
    + destruct Hf as (pol & v & o & s1 & Hst & Hins & -> & Hi & He). apply Hone.
      eapply insert_simulated in Hins as (m' & ? & HR'); [|done..]. exists m'. split; [done|].
      eapply simulates_weaken; [| | |exact HR']; [done|by rewrite Hi|by rewrite He].
    + exists m. split; [constructor|]. destruct Hf; by apply (simulates_weaken clock clock' s).
  - exists m. split; [constructor|by apply simulates_asset with clock].
  - exists m. split; [constructor|]. unfold start_refresh.
    case_decide; by apply (simulates_weaken clock' clock' s).
  - exists m. split; [constructor|]. by apply (simulates_weaken clock' clock' s).
  - exists m. split; [constructor|].
    apply (simulates_weaken clock clock' s); [done|done|apply moka_contents_run|done].
  - exists m. split; [constructor|].
    apply (simulates_weaken clock clock' s); [done|done|apply moka_contents_run|done].
Qed.

Lemma spec_run_app m l1 m1 l2 m2 :
  spec_run m l1 m1 -> spec_run m1 l2 m2 -> spec_run m (l1 ++ l2) m2.
Proof. induction 1; simpl; [done|]. intros. econstructor; eauto. Qed.

Lemma run_simulated n cs l cs' m :
  store_run n cs l cs' -> next_generation (snd cs) + N.of_nat n <= u64_MAX ->
  wf_store (snd cs) -> simulates cs m ->
  exists m', spec_run m l m' /\ simulates cs' m'.
Proof.
  intros Hrun. revert m. induction Hrun as [s|n [clock s] e [clock1 s1] l [clock2 s2] Hev _ IH];
    intros m Hg Hwf HR; [exists m; by split; [constructor|]|]. cbn [snd] in *.
  edestruct event_invariant as [Hwf1 Hg1]; [exact Hev|lia|done|].
  edestruct event_simulated as (m1 & Hm1 & HR1); [exact Hev|done|exact HR|].
  destruct (IH m1) as (m2 & Hm2 & HR2); [lia|done|done|].
  exists m2. split; [by eapply spec_run_app|done].
Qed.
End simulation.

(** C7. The store refines a map from URIs to families of variants. In every
    run of fewer than 2^64 steps on a new store, what callers see of storing,
    hiding, freshening and looking up, whatever the caches evict, is a run of
    the specification: a lookup finds the response stored last for its URI and
    its values of the [Vary] names of the URI's last response, not expired and
    called fresh when it is, or it misses, and then so does every later one
    until a response is stored there again. *)
Theorem store_refines_spec
    `{Hops : HttpOps, EntriesOps : !MokaOps Key Entry, IndexOps : !MokaOps PrimaryKey Index}
    `{Hlaws : !HttpLaws, !MokaLaws Key Entry, !MokaLaws PrimaryKey Index}
    (size_mb : N) (t : Duration) (clock clock' : Instant) (n : nat) (l : list Event)
    (s0 s : Store) :
  Store_new size_mb t = Done s0 -> t <= Duration_MAX -> N.of_nat n <= u64_MAX ->
  store_run n (clock, s0) l (clock', s) ->
  exists m, spec_run ∅ l m.
Proof.
  intros Hnew%Store_new_Done Ht Hn Hrun.
  destruct (run_simulated n (clock, s0) l (clock', s) ∅) as (m & Hm & _).
  - done.
  - simpl. rewrite (ns_generation _ _ _ Hnew). lia.
  - by eapply wf_new_store.
  - intros p ix vals r (t' & d & _ & _ & Hix & _). simpl in Hix.
    by rewrite (ns_index _ _ _ Hnew), lookup_empty in Hix.
  - by exists m.
Qed.

(** the page is stored, found fresh, hidden, and missed *)
Definition ex_events : list Event := [
  Stored 0 ex_key ex_vary ex_policy 200 ex_headers "hello" (Some (arc_get ex_arc));
  Found (Duration_from_secs 59) ex_key ex_request None (Some (true, arc_get ex_arc));
  Hidden ex_key;
  Found (Duration_from_secs 59) ex_key ex_request None None].

Lemma store_refines_spec_witness :
  spec_find ex_key ex_request (spec_store ex_key ex_vary (arc_get ex_arc) ∅) =
    Some (arc_get ex_arc) /\
  exists m, spec_run ∅ ex_events m.
Proof.
  split; [vm_compute; reflexivity|].
  apply (store_refines_spec 1 ex_ttl 0 (Duration_from_secs 59) 4 ex_events ex_empty
    (invalidate ex_key ex_store)).
  - reflexivity.
  - vm_compute. discriminate.
  - vm_compute. discriminate.
  - apply (run_cons 3 _ (Some _) (0, ex_store) (tail ex_events)).
    { refine (event_insert 0 0 ex_key ex_vary ex_policy 200 ex_headers "hello" ex_empty
        (Some ex_arc) ex_store _ _ ex_insert_eq).
      - discriminate.
      - split; vm_compute; [reflexivity|discriminate]. }
    apply (run_cons 2 _ (Some _) (Duration_from_secs 59, ex_store) (tail (tail ex_events))).
    { refine (event_lookup 0 (Duration_from_secs 59) ex_key ex_request None ex_store
        (Some (Fresh ex_arc)) _ _); [discriminate|vm_compute; reflexivity]. }
    apply (run_cons 1 _ (Some _) (Duration_from_secs 59, invalidate ex_key ex_store)
      (tail (tail (tail ex_events)))); [constructor|].
    apply (run_cons 0 _ (Some _) (Duration_from_secs 59, invalidate ex_key ex_store) []);
      [|constructor].
    refine (event_lookup _ (Duration_from_secs 59) ex_key ex_request None _ None _ _);
      [discriminate|vm_compute; reflexivity].
Defined.
