(* ===== verification/StoreConcurrency.v ===== *)
(** The store under concurrent requests. Workers share one [Store], and each
    access of [insert_response] and [lookup] to a cache or to the generation
    counter is atomic, but the accesses of different requests interleave.
    [System] has the callers that the proxy has; here they are arbitrary. A
    [Task] is a request's position between two accesses, [task_step] performs
    the next one, and [cstep] lets any task move, a request start, a URI be
    invalidated or entries be evicted. The main theorem is that whatever the
    interleaving, a lookup finds only a response that was stored for the same
    URI and whose [Vary] fields the two requests agree on. *)

From stdpp Require Import base tactics option list gmap strings relations.
From S2P Require Import Prelude RustStd Http Directives Policy Moka Store StoreInvariant Examples StoreTheorems.

Local Open Scope N_scope.

Section concurrency.
Context `{Hops : HttpOps, EntriesOps : !MokaOps Key Entry, IndexOps : !MokaOps PrimaryKey Index}.

(** the arguments of an [insert_response], with the request they came from *)
Record Insert := {
  ins_request : HeaderMap;
  ins_primary : PrimaryKey;
  ins_vary : Vary;
  ins_policy : Storable;
  ins_status : StatusCode;
  ins_headers : Fields;
  ins_body : Bytes;
}.

(** the arguments of a [lookup] *)
Record Query := {
  q_primary : PrimaryKey;
  q_request : HeaderMap;
}.

(** where a request is in [insert_response] or [lookup] *)
Inductive Task :=
| Insert_start (i : Insert)
(** no generation to reuse *)
| Insert_missed (i : Insert)
(** the generation is known *)
| Insert_generation (i : Insert) (g : N)
(** the index has been written *)
| Insert_indexed (i : Insert) (g : N)
(** the response has been stored *)
| Insert_stored (i : Insert) (r : Arc StoredResponse)
| Insert_done (i : Insert) (r : option (Arc StoredResponse))
| Lookup_start (q : Query)
(** the index has been read *)
| Lookup_indexed (q : Query) (key : ResponseKey)
| Lookup_done (q : Query) (r : option (Arc StoredResponse)).

(** the next access of a task. [log] records, for the theorems, what was
    stored at each address *)
Definition task_step (now : Instant) (s : Store) (log : gmap N Insert) (t : Task)
    : Task * Store * gmap N Insert :=
  match t with
  | Insert_start i =>
      if negb (storable_body (ins_body i) s) then (Insert_done i None, s, log) else
      match insert_get_index now (ins_primary i) (ins_vary i) s with
      | Some g => (Insert_generation i g, s, log)
      | None => (Insert_missed i, s, log)
      end
  | Insert_missed i =>
      let '(g, s) := insert_fetch_add s in (Insert_generation i g, s, log)
  | Insert_generation i g =>
      (Insert_indexed i g, insert_index now (ins_primary i) (ins_vary i) g s, log)
  | Insert_indexed i g =>
      let '(r, s) := insert_entry now (ins_primary i) (ins_vary i) g (ins_policy i)
                       (ins_status i) (ins_headers i) (ins_body i) s in
      (Insert_stored i r, s, <[arc_ptr r := i]> log)
  | Insert_stored i r => (Insert_done i (Some r), run_pending_tasks now s, log)
  | Lookup_start q =>
      match lookup_index now (q_primary q) (q_request q) s with
      | None => (Lookup_done q None, s, log)
      | Some key => (Lookup_indexed q key, s, log)
      end
  | Lookup_indexed q key =>
      (Lookup_done q (lookup_entry now key s), s, log)
  | Insert_done _ _ | Lookup_done _ _ => (t, s, log)
  end.

Record World := {
  store : Store;
  tasks : gmap N Task;
  log : gmap N Insert;
}.

(** what [storable] guarantees of an insertion *)
Definition insert_ok (i : Insert) : Prop :=
  policy_ok (ins_policy i) /\
  values (ins_vary i) = vary_values (names (ins_vary i)) (ins_request i).

(** the states in which a request enters the store *)
Definition task_entry (t : Task) : Prop :=
  match t with
  | Insert_start i => insert_ok i
  | Lookup_start _ => True
  | _ => False
  end.

Inductive cstep : World -> World -> Prop :=
| cstep_task w id t now t' s' log' :
    tasks w !! id = Some t -> task_step now (store w) (log w) t = (t', s', log') ->
    cstep w {| store := s'; tasks := <[id := t']> (tasks w); log := log' |}
| cstep_start w id t :
    tasks w !! id = None -> task_entry t ->
    cstep w {| store := store w; tasks := <[id := t]> (tasks w); log := log w |}
| cstep_invalidate w p :
    cstep w {| store := invalidate p (store w); tasks := tasks w; log := log w |}
(** eviction, expiry, and the removal of an entry by [freshen] *)
| cstep_evict w es xs :
    moka_contents es ⊆ moka_contents (entries (store w)) ->
    moka_config es = moka_config (entries (store w)) ->
    moka_contents xs ⊆ moka_contents (index (store w)) ->
    moka_config xs = moka_config (index (store w)) ->
    cstep w {| store := set_index xs (set_entries es (store w));
               tasks := tasks w; log := log w |}
| cstep_asset w now path c et m :
    cstep w {| store := snd (insert_asset now path c et m (store w));
               tasks := tasks w; log := log w |}.

Definition world_init (s : Store) : World := {| store := s; tasks := ∅; log := ∅ |}.

(** ** One task alone *)

Fixpoint task_run (n : nat) (now : Instant) (s : Store) (log : gmap N Insert) (t : Task)
    : Task * Store * gmap N Insert :=
  match n with
  | O => (t, s, log)
  | S n => let '(t, s, log) := task_step now s log t in task_run n now s log t
  end.

(** five accesses without interference are [insert_response] *)
Lemma task_run_insert now s log i :
  exists log', task_run 5 now s log (Insert_start i) =
    (Insert_done i (fst (insert_response now (ins_primary i) (ins_vary i) (ins_policy i)
       (ins_status i) (ins_headers i) (ins_body i) s)),
     snd (insert_response now (ins_primary i) (ins_vary i) (ins_policy i)
       (ins_status i) (ins_headers i) (ins_body i) s), log').
Proof.
  unfold insert_response. cbn [task_run task_step].
  destruct (storable_body (ins_body i) s); cbn [negb]; [|by eexists].
  destruct (insert_get_index now (ins_primary i) (ins_vary i) s); by eexists.
Qed.

(** ** The invariant *)

(** what the owner of a generation is: a URI and the [Vary] names of the
    responses stored under that generation *)
Abbreviation Owners := (gmap N (PrimaryKey * list HeaderName)) (only parsing).

(** [r] was stored by [i] *)
Definition stored_by (log : gmap N Insert) (r : Arc StoredResponse) (i : Insert) : Prop :=
  log !! arc_ptr r = Some i /\ insert_ok i /\ status (arc_get r) = ins_status i /\
  headers (arc_get r) = ins_headers i /\ body (arc_get r) = ins_body i.

(** [r] may answer [q]: it was stored for the same URI, for a request with the
    same values for its [Vary] names *)
Definition answers (log : gmap N Insert) (r : Arc StoredResponse) (q : Query) : Prop :=
  exists i, stored_by log r i /\ ins_primary i = q_primary q /\
    vary_values (names (ins_vary i)) (q_request q) =
    vary_values (names (ins_vary i)) (ins_request i).

Definition task_ok (owner : Owners) (log : gmap N Insert) (s : Store) (t : Task) : Prop :=
  match t with
  | Insert_start i => insert_ok i
  | Insert_missed i => insert_ok i /\ storable_body (ins_body i) s = true
  | Insert_generation i g | Insert_indexed i g =>
      insert_ok i /\ storable_body (ins_body i) s = true /\ g < next_generation s /\
      owner !! g = Some (ins_primary i, names (ins_vary i))
  | Insert_stored _ _ | Insert_done _ _ | Lookup_start _ | Lookup_done _ None => True
  | Lookup_indexed q key =>
      exists ns, owner !! generation key = Some (q_primary q, ns) /\
        primary key = q_primary q /\ vary key = vary_values ns (q_request q)
  | Lookup_done q (Some r) => answers log r q
  end.

Record world_ok (owner : Owners) (w : World) : Prop := {
  wo_store : wf_store (store w);
  wo_owner g o : owner !! g = Some o -> g < next_generation (store w);
  wo_log a i : log w !! a = Some i -> a < heap_next (store w);
  wo_index p ix d : moka_contents (index (store w)) !! p = Some (ix, d) ->
    owner !! index_generation ix = Some (p, index_vary ix);
  wo_entries rk r d :
    moka_contents (entries (store w)) !! Key_Response rk = Some (Entry_Response r, d) ->
    exists i, stored_by (log w) r i /\ ins_primary i = primary rk /\
      owner !! generation rk = Some (primary rk, names (ins_vary i)) /\
      vary rk = values (ins_vary i);
  wo_tasks id t : tasks w !! id = Some t -> task_ok owner (log w) (store w) t;
}.
End concurrency.

Arguments World {_ _ _}.
Arguments Insert {_}.
Arguments Query {_}.
Arguments Task {_}.

Section preservation.
Context `{Hops : HttpOps, EntriesOps : !MokaOps Key Entry, IndexOps : !MokaOps PrimaryKey Index}.
Context `{Hlaws : !HttpLaws, !MokaLaws Key Entry, !MokaLaws PrimaryKey Index}.
Implicit Types (s : Store) (w : World) (owner : gmap N (PrimaryKey * list HeaderName)).

Lemma stored_by_mono (log log' : gmap N Insert) r i :
  log ⊆ log' -> stored_by log r i -> stored_by log' r i.
Proof. intros Hsub (Hl & ?). split; [by eapply lookup_weaken|done]. Qed.

(** a later store with the same limits *)
Definition later s s' : Prop :=
  next_generation s <= next_generation s' /\ ttl s' = ttl s /\ max_entry s' = max_entry s.

Lemma storable_body_later s s' b : later s s' -> storable_body b s' = storable_body b s.
Proof. intros (_ & Ht & Hm). unfold storable_body, enabled. by rewrite Ht, Hm. Qed.

Lemma task_ok_mono owner owner' (log log' : gmap N Insert) s s' t :
  owner ⊆ owner' -> log ⊆ log' -> later s s' ->
  task_ok owner log s t -> task_ok owner' log' s' t.
Proof.
  intros Ho Hl Hs. pose proof Hs as [Hg _].
  destruct t as [i|i|i g|i g|i r|i r|q|q key|q [r|]]; simpl;
    rewrite ?(storable_body_later s s') by done; try done.
  - intros (? & ? & ? & ?). split_and!; [done..|lia|by eapply lookup_weaken].
  - intros (? & ? & ? & ?). split_and!; [done..|lia|by eapply lookup_weaken].
  - intros (ns & ? & ? & ?). exists ns. split_and!; [by eapply lookup_weaken|done..].
  - intros (i & Hi & ? & ?). exists i. split_and!; [by eapply stored_by_mono|done..].
Qed.

(** what one access must establish *)
Lemma world_ok_update owner owner' w id t' s' log' :
  world_ok owner w -> owner ⊆ owner' -> log w ⊆ log' -> later (store w) s' ->
  wf_store s' -> task_ok owner' log' s' t' ->
  (forall g o, owner' !! g = Some o -> g < next_generation s') ->
  (forall a i, log' !! a = Some i -> a < heap_next s') ->
  (forall p ix d, moka_contents (index s') !! p = Some (ix, d) ->
     owner' !! index_generation ix = Some (p, index_vary ix)) ->
  (forall rk r d,
     moka_contents (entries s') !! Key_Response rk = Some (Entry_Response r, d) ->
     exists i, stored_by log' r i /\ ins_primary i = primary rk /\
       owner' !! generation rk = Some (primary rk, names (ins_vary i)) /\
       vary rk = values (ins_vary i)) ->
  world_ok owner' {| store := s'; tasks := <[id := t']> (tasks w); log := log' |}.
Proof.
  intros [] Ho Hl Hs Hwf Ht Hown Hlog Hix Hen. constructor; simpl; try done.
  intros id' t [[_ <-]|[_ Hid]]%lookup_insert_Some; [done|].
  eapply task_ok_mono; eauto.
Qed.

(** an access that leaves the caches and the log alone *)
Lemma world_ok_task owner w id t' :
  world_ok owner w -> task_ok owner (log w) (store w) t' ->
  world_ok owner {| store := store w; tasks := <[id := t']> (tasks w); log := log w |}.
Proof.
  intros Hw Ht. pose proof Hw as []. eapply world_ok_update; eauto. done.
Qed.

(** a shared state with smaller caches, whoever made them smaller *)
Lemma world_ok_smaller owner w s' :
  world_ok owner w -> later (store w) s' -> wf_store s' ->
  heap_next (store w) <= heap_next s' ->
  moka_contents (index s') ⊆ moka_contents (index (store w)) ->
  (forall rk e, moka_contents (entries s') !! Key_Response rk = Some e ->
     moka_contents (entries (store w)) !! Key_Response rk = Some e) ->
  world_ok owner {| store := s'; tasks := tasks w; log := log w |}.
Proof.
  intros [] Hs Hwf Hh Hix Hen. pose proof Hs as [Hg _]. constructor; simpl; try done.
  - intros g o Ho. apply wo_owner0 in Ho. lia.
  - intros a i Ha. apply wo_log0 in Ha. lia.
  - intros p ix d Hp. eapply wo_index0. by eapply lookup_weaken.
  - intros rk r d Hr. apply Hen in Hr. by eapply wo_entries0.
  - intros id t Ht. eapply task_ok_mono; eauto.
Qed.

Lemma step_insert_start owner w id now i :
  world_ok owner w -> tasks w !! id = Some (Insert_start i) ->
  let '(t', s', log') := task_step now (store w) (log w) (Insert_start i) in
  world_ok owner {| store := s'; tasks := <[id := t']> (tasks w); log := log' |}.
Proof.
  intros Hw Hid. pose proof (wo_tasks _ _ Hw _ _ Hid) as Hok. simpl in Hok. simpl.
  destruct (storable_body (ins_body i) (store w)) eqn:Hb; simpl; [|by apply world_ok_task].
  destruct (insert_get_index now (ins_primary i) (ins_vary i) (store w)) as [g|] eqn:Hg;
    apply world_ok_task; simpl; try done.
  pose proof (insert_get_index_bound _ _ _ _ _ (wo_store _ _ Hw) Hg) as Hlt.
  split_and!; try done. unfold insert_get_index in Hg.
  destruct (cache_get now (ins_primary i) (index (store w))) as [ix|] eqn:E; [|done].
  case_bool_decide as Hn; [|done]. injection Hg as <-.
  apply cache_get_sound in E as (d & Hc & _). apply (wo_index _ _ Hw) in Hc. by rewrite <- Hn.
Qed.

Lemma step_insert_missed owner w id now i :
  next_generation (store w) < u64_MAX ->
  world_ok owner w -> tasks w !! id = Some (Insert_missed i) ->
  let '(t', s', log') := task_step now (store w) (log w) (Insert_missed i) in
  exists owner',
    world_ok owner' {| store := s'; tasks := <[id := t']> (tasks w); log := log' |}.
Proof.
  intros Hmax Hw Hid. pose proof (wo_tasks _ _ Hw _ _ Hid) as [Hok Hb].
  pose proof (wf_insert_fetch_add _ Hmax (wo_store _ _ Hw)) as Hwf.
  cbn [task_step]. unfold insert_fetch_add in *. cbn [snd] in Hwf.
  set (g := next_generation (store w)) in *.
  exists (<[g := (ins_primary i, names (ins_vary i))]> owner).
  assert (owner !! g = None) as Hnew.
  { destruct (owner !! g) as [o|] eqn:E; [|done]. apply (wo_owner _ _ Hw) in E. lia. }
  assert (owner ⊆ <[g := (ins_primary i, names (ins_vary i))]> owner) as Hsub
    by by apply insert_subseteq.
  pose proof (u64_wrapping_succ_small g Hmax) as Hsucc.
  pose proof Hw as [].
  eapply world_ok_update; try done; simpl; rewrite ?Hsucc; try lia.
  - split_and!; simpl; [lia|done..].
  - split_and!; [done|done|lia|apply lookup_insert_eq].
  - intros g' o [[<- _]|[_ Ho]]%lookup_insert_Some; [lia|]. apply wo_owner0 in Ho. lia.
  - intros p ix d Hp. apply wo_index0 in Hp. by eapply lookup_weaken.
  - intros rk r d Hr. apply wo_entries0 in Hr as (j & ? & ? & ? & ?).
    exists j. split_and!; try done. by eapply lookup_weaken.
Qed.

Lemma step_insert_generation owner w id now i g :
  world_ok owner w -> tasks w !! id = Some (Insert_generation i g) ->
  let '(t', s', log') := task_step now (store w) (log w) (Insert_generation i g) in
  world_ok owner {| store := s'; tasks := <[id := t']> (tasks w); log := log' |}.
Proof.
  intros Hw Hid. pose proof (wo_tasks _ _ Hw _ _ Hid) as (Hok & Hb & Hlt & Ho).
  pose proof Hw as []. cbn [task_step]. eapply world_ok_update; try done.
  - by apply wf_insert_index.
  - intros p ix d Hp. eapply lookup_weaken in Hp; [|by apply index_insert_contents].
    apply lookup_insert_Some in Hp as [[<- [= <- _]]|[_ Hp]]; [done|by eapply wo_index0].
Qed.

Lemma step_insert_indexed owner w id now i g :
  world_ok owner w -> tasks w !! id = Some (Insert_indexed i g) ->
  let '(t', s', log') := task_step now (store w) (log w) (Insert_indexed i g) in
  world_ok owner {| store := s'; tasks := <[id := t']> (tasks w); log := log' |}.
Proof.
  intros Hw Hid. pose proof (wo_tasks _ _ Hw _ _ Hid) as (Hok & Hb & Hlt & Ho).
  pose proof Hw as []. pose proof Hb as [[_ Hpos]%enabled_true Hle]%storable_body_true.
  pose proof (wf_insert_entry now (ins_primary i) (ins_vary i) g (ins_policy i)
    (ins_status i) (ins_headers i) (ins_body i) (store w) (proj1 Hok) Hpos Hle Hlt wo_store0)
    as Hwf.
  cbn [task_step]. unfold insert_entry in *. cbn [Arc_new fst snd] in *.
  assert (log w !! heap_next (store w) = None) as Hnew.
  { destruct (log w !! heap_next (store w)) as [j|] eqn:E; [|done].
    apply wo_log0 in E. lia. }
  assert (log w ⊆ <[heap_next (store w) := i]> (log w)) as Hsub by by apply insert_subseteq.
  eapply world_ok_update; try done; cbn [arc_ptr].
  - intros a j [[<- _]|[_ Ha]]%lookup_insert_Some; simpl; [lia|]. apply wo_log0 in Ha. lia.
  - intros rk r d Hr. simpl in Hr.
    eapply lookup_weaken in Hr; [|by apply entries_insert_contents].
    apply lookup_insert_Some in Hr as [[[= <-] [= <- _]]|[_ Hr]].
    + exists i. split_and!; try done. split; [apply lookup_insert_eq|done].
    + apply wo_entries0 in Hr as (j & Hj & ? & ? & ?). exists j.
      split_and!; try done. by eapply stored_by_mono.
Qed.

Lemma step_insert_stored owner w id now i r :
  world_ok owner w -> tasks w !! id = Some (Insert_stored i r) ->
  let '(t', s', log') := task_step now (store w) (log w) (Insert_stored i r) in
  world_ok owner {| store := s'; tasks := <[id := t']> (tasks w); log := log' |}.
Proof.
  intros Hw _. cbn [task_step].
  assert (world_ok owner {| store := run_pending_tasks now (store w); tasks := tasks w;
    log := log w |}) as Hw'.
  { apply world_ok_smaller; try done; [by apply wf_run_pending_tasks, Hw|].
    intros rk e Hk. eapply lookup_weaken; [exact Hk|apply moka_contents_run]. }
  by apply (world_ok_task _ _ id (Insert_done i (Some r)) Hw').
Qed.

Lemma step_lookup_start owner w id now q :
  world_ok owner w -> tasks w !! id = Some (Lookup_start q) ->
  let '(t', s', log') := task_step now (store w) (log w) (Lookup_start q) in
  world_ok owner {| store := s'; tasks := <[id := t']> (tasks w); log := log' |}.
Proof.
  intros Hw _. cbn [task_step]. unfold lookup_index.
  destruct (cache_get now (q_primary q) (index (store w))) as [ix|] eqn:E;
    apply world_ok_task; simpl; try done.
  apply cache_get_sound in E as (d & Hc & _). apply (wo_index _ _ Hw) in Hc. eauto.
Qed.

Lemma step_lookup_indexed owner w id now q key :
  world_ok owner w -> tasks w !! id = Some (Lookup_indexed q key) ->
  let '(t', s', log') := task_step now (store w) (log w) (Lookup_indexed q key) in
  world_ok owner {| store := s'; tasks := <[id := t']> (tasks w); log := log' |}.
Proof.
  intros Hw Hid. pose proof (wo_tasks _ _ Hw _ _ Hid) as (ns & Ho & Hp & Hv).
  cbn [task_step]. unfold lookup_entry.
  destruct (cache_get now (Key_Response key) (entries (store w))) as [[a|r]|] eqn:E;
    apply world_ok_task; simpl; try done.
  apply cache_get_sound in E as (d & Hc & _).
  apply (wo_entries _ _ Hw) in Hc as (i & Hi & Hpi & Hoi & Hvi).
  rewrite Ho, Hp in Hoi. injection Hoi as ->.
  exists i. split_and!; [done|congruence|].
  destruct Hi as (_ & [_ Hval] & _). by rewrite <- Hv, Hvi, Hval.
Qed.

Lemma world_ok_step owner w w' :
  cstep w w' -> next_generation (store w) < u64_MAX -> world_ok owner w ->
  exists owner', world_ok owner' w'.
Proof.
  destruct 1 as [w id t now t' s' log' Hid Hstep|w id t Hid Ht|w p|w es xs He Hce Hx Hcx
    |w now path c et m]; intros Hmax Hw; pose proof (wo_store _ _ Hw) as Hwf.
  - destruct t as [i|i|i g|i g|i r|i r|q|q key|q r].
    + pose proof (step_insert_start owner w id now i Hw Hid) as Hn. rewrite Hstep in Hn. eauto.
    + pose proof (step_insert_missed owner w id now i Hmax Hw Hid) as Hn.
      rewrite Hstep in Hn. eauto.
    + pose proof (step_insert_generation owner w id now i g Hw Hid) as Hn.
      rewrite Hstep in Hn. eauto.
    + pose proof (step_insert_indexed owner w id now i g Hw Hid) as Hn.
      rewrite Hstep in Hn. eauto.
    + pose proof (step_insert_stored owner w id now i r Hw Hid) as Hn. rewrite Hstep in Hn. eauto.
    + injection Hstep as <- <- <-. exists owner. apply world_ok_task; [done|].
      by eapply wo_tasks in Hid.
    + pose proof (step_lookup_start owner w id now q Hw Hid) as Hn. rewrite Hstep in Hn. eauto.
    + pose proof (step_lookup_indexed owner w id now q key Hw Hid) as Hn.
      rewrite Hstep in Hn. eauto.
    + injection Hstep as <- <- <-. exists owner. apply world_ok_task; [done|].
      by eapply wo_tasks in Hid.
  - exists owner. apply world_ok_task; [done|]. by destruct t.
  - exists owner. apply world_ok_smaller; try done; [by apply wf_invalidate|].
    etrans; [apply moka_contents_invalidate|apply delete_subseteq].
  - exists owner. apply world_ok_smaller; try done.
    + pose proof Hwf as [[cap Hc] Hi Hen Hix Hm Httl]. constructor; simpl.
      * exists cap. by rewrite Hce.
      * by rewrite Hcx.
      * intros k e t Hk. eapply lookup_weaken in Hk; [|exact He].
        apply Hen in Hk. by eapply entry_ok_mono in Hk.
      * intros p ix t Hp. eapply lookup_weaken in Hp; [|exact Hx]. by eapply Hix.
      * done.
      * done.
    + intros rk e Hk. by eapply lookup_weaken.
  - exists owner. pose proof (wf_insert_asset now path c et m (store w) Hwf) as Hwf'.
    unfold insert_asset in *. destruct (enabled (store w) && _); [|by apply world_ok_smaller].
    apply world_ok_smaller; try done; simpl.
    intros rk e Hk. eapply lookup_weaken in Hk; [|apply moka_contents_run].
    eapply lookup_weaken in Hk; [|by apply entries_insert_contents].
    by apply lookup_insert_Some in Hk as [[? _]|[_ Hk]].
Qed.

Lemma cstep_generation w w' :
  cstep w w' -> next_generation (store w) < u64_MAX ->
  next_generation (store w') <= next_generation (store w) + 1.
Proof.
  destruct 1 as [w id t now t' s' log' Hid Hstep| | | |w now path c et m]; intros Hmax;
    simpl; try lia.
  - destruct t as [i|i|i g|i g|i r|i r|q|q key|q r]; simpl in Hstep;
      repeat case_match; simplify_eq/=; try lia.
    rewrite u64_wrapping_succ_small by done. lia.
  - unfold insert_asset. case_match; simpl; lia.
Qed.

Lemma world_ok_steps n w w' owner :
  nsteps cstep n w w' -> next_generation (store w) + N.of_nat n <= u64_MAX ->
  world_ok owner w -> exists owner', world_ok owner' w'.
Proof.
  intros Hn. revert owner. induction Hn as [w|n w1 w2 w3 Hstep Hn IH]; intros owner Hg Hw;
    [eauto|].
  destruct (world_ok_step owner w1 w2 Hstep) as [owner' Hw']; [lia|done|].
  apply cstep_generation in Hstep as Hg'; [|lia]. eapply IH; [lia|done].
Qed.

Lemma world_ok_init size_mb t s :
  new_store size_mb t s -> t <= Duration_MAX -> world_ok ∅ (world_init s).
Proof.
  intros Hs Ht. constructor; simpl; try (by intros; simplify_map_eq).
  - by eapply wf_new_store.
  - intros p ix d. by rewrite (ns_index _ _ _ Hs), lookup_empty.
  - intros rk r d. by rewrite (ns_entries _ _ _ Hs), lookup_empty.
Qed.
End preservation.

(** C12. However the requests interleave and whatever is evicted, a lookup finds
    only a response that was stored unchanged for the same URI, by a request
    that has the same values for all of the response's [Vary] names. The bound
    on the number of steps keeps the 64-bit generation counter from wrapping. *)
Theorem concurrent_lookup_matches
    `{Hops : HttpOps, EntriesOps : !MokaOps Key Entry, IndexOps : !MokaOps PrimaryKey Index}
    `{Hlaws : !HttpLaws, !MokaLaws Key Entry, !MokaLaws PrimaryKey Index}
    (size_mb : N) (t : Duration) (s0 : Store) (n : nat) (w : World) (id : N) (q : Query)
    (r : Arc StoredResponse) :
  Store_new size_mb t = Done s0 -> t <= Duration_MAX -> N.of_nat n <= u64_MAX ->
  nsteps cstep n (world_init s0) w ->
  tasks w !! id = Some (Lookup_done q (Some r)) ->
  exists i, log w !! arc_ptr r = Some i /\ ins_primary i = q_primary q /\
    vary_values (names (ins_vary i)) (q_request q) =
    vary_values (names (ins_vary i)) (ins_request i) /\
    status (arc_get r) = ins_status i /\ headers (arc_get r) = ins_headers i /\
    body (arc_get r) = ins_body i.
Proof.
  intros Hnew%Store_new_Done Ht Hn Hsteps Hid.
  destruct (world_ok_steps n _ _ ∅ Hsteps) as [owner Hw];
    [simpl; rewrite (ns_generation _ _ _ Hnew); lia|by eapply world_ok_init|].
  apply (wo_tasks _ _ Hw) in Hid as (i & (Hl & _ & ? & ? & ?) & Hp & Hv).
  exists i. done.
Qed.

(** ** Schedules

    A list of events determines a run, so that concrete interleavings can be
    evaluated. *)

Section schedules.
Context `{Hops : HttpOps, EntriesOps : !MokaOps Key Entry, IndexOps : !MokaOps PrimaryKey Index}.

Inductive Event :=
| Ev_start (id : N) (t : Task)
| Ev_task (id : N) (now : Instant)
| Ev_invalidate (p : PrimaryKey).

Definition exec_event (w : World) (e : Event) : option World :=
  match e with
  | Ev_start id t =>
      match tasks w !! id with
      | None => Some {| store := store w; tasks := <[id := t]> (tasks w); log := log w |}
      | Some _ => None
      end
  | Ev_task id now =>
      match tasks w !! id with
      | Some t =>
          let '(t', s', log') := task_step now (store w) (log w) t in
          Some {| store := s'; tasks := <[id := t']> (tasks w); log := log' |}
      | None => None
      end
  | Ev_invalidate p =>
      Some {| store := invalidate p (store w); tasks := tasks w; log := log w |}
  end.

Fixpoint exec (es : list Event) (w : World) : option World :=
  match es with
  | [] => Some w
  | e :: es => w' ← exec_event w e; exec es w'
  end.

Definition event_ok (e : Event) : Prop :=
  match e with Ev_start _ t => task_entry t | _ => True end.

Lemma exec_sound es w w' :
  Forall event_ok es -> exec es w = Some w' -> nsteps cstep (length es) w w'.
Proof.
  intros Hok. revert w. induction Hok as [|e es He Hes IH]; intros w; simpl.
  - intros [= <-]. constructor.
  - intros (w1 & He1 & Hrun)%bind_Some. econstructor; [|by apply IH].
    destruct e as [id t|id now|p]; simpl in He1.
    + destruct (tasks w !! id) eqn:Hid; [done|]. injection He1 as <-. by constructor.
    + destruct (tasks w !! id) as [t|] eqn:Hid; [|done].
      destruct (task_step now (store w) (log w) t) as [[t' s'] log'] eqn:Ht.
      injection He1 as <-. by econstructor.
    + injection He1 as <-. constructor.
Qed.
End schedules.

(** the variant of the example page for [accept], with [body] *)
Definition ex_variant (accept body : string) : @Insert RefHttp := {|
  ins_request := [("accept", accept)]%string;
  ins_primary := ex_key;
  ins_vary := {| names := ["accept"]%string; values := [Some accept] |};
  ins_policy := ex_policy;
  ins_status := 200;
  ins_headers := ex_headers;
  ins_body := body;
|}.
Definition ex_html : Insert := ex_variant "text/html" "hello".
Definition ex_json : Insert := ex_variant "text/json" "{}".
Definition ex_query : @Query RefHttp := {| q_primary := ex_key; q_request := ex_request |}.
Definition ex_world : @World RefHttp (RefMoka Key Entry) (RefMoka PrimaryKey Index) :=
  world_init ex_empty.

Lemma ex_html_ok : insert_ok ex_html.
Proof. repeat split; vm_compute; try reflexivity; discriminate. Qed.
Lemma ex_json_ok : insert_ok ex_json.
Proof. repeat split; vm_compute; try reflexivity; discriminate. Qed.

(** two requests store their variants in turns; a third finds the first's *)
Definition ex_schedule : list Event :=
  [Ev_start 0 (Insert_start ex_html); Ev_start 1 (Insert_start ex_json);
   Ev_task 0 0; Ev_task 1 0; Ev_task 1 0; Ev_task 0 0; Ev_task 1 0; Ev_task 0 0;
   Ev_task 1 0; Ev_task 0 0; Ev_task 1 0; Ev_task 0 0;
   Ev_start 2 (Lookup_start ex_query); Ev_task 2 0; Ev_task 2 0].

Definition lookup_result `{EntriesOps : !MokaOps Key Entry, IndexOps : !MokaOps PrimaryKey Index}
    `{HttpOps} (id : N) (w : World) : option (Arc StoredResponse) :=
  match tasks w !! id with
  | Some (Lookup_done _ r) => r
  | _ => None
  end.

Definition ex_found (ptr : N) : Arc StoredResponse := {|
  arc_ptr := ptr;
  arc_get := new_response 0 ex_policy 200 ex_headers "hello" ex_empty |}.

Lemma concurrent_lookup_matches_witness :
  exists w, exec ex_schedule ex_world = Some w /\ lookup_result 2 w = Some (ex_found 1) /\
    exists i, log w !! 1 = Some i /\ ins_primary i = ex_key /\ ins_body i = "hello"%string.
Proof.
  assert (lookup_result 2 <$> exec ex_schedule ex_world = Some (Some (ex_found 1))) as Hrun
    by (vm_compute; reflexivity).
  destruct (exec ex_schedule ex_world) as [w|] eqn:E; [|discriminate Hrun].
  exists w. split; [reflexivity|]. injection Hrun as Hr. split; [exact Hr|].
  unfold lookup_result in Hr.
  destruct (tasks w !! 2) as [[ | | | | | | | |q r]|] eqn:Hid; try discriminate Hr. subst r.
  assert (nsteps cstep 15 ex_world w) as Hsteps.
  { apply (exec_sound ex_schedule); [|exact E].
    repeat constructor; first [apply ex_html_ok | apply ex_json_ok]. }
  destruct (concurrent_lookup_matches 1 ex_ttl ex_empty 15 w 2 q (ex_found 1))
    as (i & Hl & Hp & _ & _ & _ & Hb); [reflexivity|vm_compute; discriminate..|exact Hsteps|exact Hid|].
  assert ((q_primary <$> (exec ex_schedule ex_world ≫= fun w => tasks w !! 2 ≫= fun t =>
    match t with Lookup_done q _ => Some q | _ => None end)) = Some ex_key) as Hq
    by (vm_compute; reflexivity).
  rewrite E in Hq. simpl in Hq. rewrite Hid in Hq. injection Hq as Hq.
  exists i. split; [exact Hl|]. split; [congruence|]. by rewrite <- Hb.
Defined.

(** ** An invalidation that does not hold

    [insert_response] reads the generation from the index and writes it back
    in two accesses. An invalidation between them is undone: the index entry
    comes back with the old generation, and with it every old variant. *)

(** [ex_html] is stored, and [ex_json] has read its generation *)
Definition race_before : list Event :=
  [Ev_start 0 (Insert_start ex_html); Ev_task 0 0; Ev_task 0 0; Ev_task 0 0; Ev_task 0 0; Ev_task 0 0;
   Ev_start 1 (Insert_start ex_json); Ev_task 1 0].

(** [ex_json] writes the index, and then a request for the other variant
    starts *)
Definition race_after : list Event :=
  [Ev_task 1 1; Ev_start 2 (Lookup_start ex_query); Ev_task 2 1; Ev_task 2 1].

Definition ex_invalidated (w : @World RefHttp (RefMoka Key Entry) (RefMoka PrimaryKey Index))
    : World :=
  {| store := invalidate ex_key (store w); tasks := tasks w; log := log w |}.

(** C36. [Store::invalidate] documents that it makes every stored response for
    the URI unreachable. That does not hold while another response for the
    URI is being stored: a lookup that starts after the invalidation can
    still find a response that was stored before it. *)
Theorem invalidate_race :
  exists w1 w2 r,
    nsteps cstep 8 ex_world w1 /\
    (* the response was stored, and no lookup was under way, before the invalidation *)
    log w1 !! arc_ptr r = Some ex_html /\ tasks w1 !! 2 = None /\
    cstep w1 (ex_invalidated w1) /\
    (forall request m, lookup 1 ex_key request m (store (ex_invalidated w1)) = Done None) /\
    nsteps cstep 4 (ex_invalidated w1) w2 /\
    log w2 !! arc_ptr r = log w1 !! arc_ptr r /\
    tasks w2 !! 2 = Some (Lookup_done ex_query (Some r)).
Proof.
  assert (exists w1 w2, exec race_before ex_world = Some w1 /\
    exec race_after (ex_invalidated w1) = Some w2 /\
    tasks w2 !! 2 = Some (Lookup_done ex_query (Some (ex_found 0))) /\
    log w2 !! 0 = Some ex_html /\ log w1 !! 0 = Some ex_html /\ tasks w1 !! 2 = None)
    as (w1 & w2 & E1 & E2 & Ht & Hl2 & Hl1 & Hn).
  { assert ((exec race_before ex_world ≫= fun w1 =>
      exec race_after (ex_invalidated w1) ≫= fun w2 =>
      Some (tasks w2 !! 2, log w2 !! 0, log w1 !! 0, tasks w1 !! 2)) =
      Some (Some (Lookup_done ex_query (Some (ex_found 0))), Some ex_html, Some ex_html, None))
      as Hrun by vm_cast_no_check (eq_refl (Some (Some (Lookup_done ex_query
        (Some (ex_found 0))), Some ex_html, Some ex_html, @None (@Task RefHttp)))).
    destruct (exec race_before ex_world) as [w1|]; [|discriminate Hrun].
    cbn [mbind option_bind] in Hrun.
    destruct (exec race_after (ex_invalidated w1)) as [w2|] eqn:E2; [|discriminate Hrun].
    cbn [mbind option_bind] in Hrun. injection Hrun as ? ? ? ?. eauto 9. }
  exists w1, w2, (ex_found 0).
  split. { apply (exec_sound race_before); [|exact E1].
           repeat constructor; first [apply ex_html_ok | apply ex_json_ok]. }
  split; [exact Hl1|]. split; [exact Hn|]. split; [constructor|].
  split. { intros request m. apply lookup_invalidate. }
  split. { apply (exec_sound race_after); [|exact E2]. by repeat constructor. }
  split; [exact (eq_trans Hl2 (eq_sym Hl1))|exact Ht].
Qed.
