(* ===== verification/RefreshGuards.v ===== *)
(** Background revalidations of one stored response exclude each other:
    [Store::start_refresh] and [RefreshGuard::drop] of [src/cache.rs]. Each of
    them holds the lock on the set of keys throughout, so a run of the
    workers is a sequence of steps on the store and the guards that exist. *)

From stdpp Require Import base tactics numbers option list gmap strings sets relations.
From S2P Require Import Prelude RustStd Http Directives Policy Moka Store StoreInvariant Examples.

Local Open Scope N_scope.

Section guards.
Context `{Hops : HttpOps, EntriesOps : !MokaOps Key Entry, IndexOps : !MokaOps PrimaryKey Index}.

Record RefreshWorld := {
  rw_store : Store;
  rw_guards : list RefreshGuard;
}.

Inductive refresh_step : RefreshWorld -> RefreshWorld -> Prop :=
| refresh_start entry w o s :
    start_refresh entry (rw_store w) = (o, s) ->
    refresh_step w {| rw_store := s; rw_guards := option_list o ++ rw_guards w |}
| refresh_drop w before g after :
    rw_guards w = before ++ g :: after ->
    refresh_step w {| rw_store := RefreshGuard_drop g (rw_store w); rw_guards := before ++ after |}
(** any other operation of the store *)
| refresh_other w s :
    refreshing s = refreshing (rw_store w) ->
    refresh_step w {| rw_store := s; rw_guards := rw_guards w |}.

(** the set holds the keys of the guards, and no key twice *)
Definition guards_ok (w : RefreshWorld) : Prop :=
  NoDup (map guard_key (rw_guards w)) /\
  forall k, k ∈ refreshing (rw_store w) <-> k ∈ map guard_key (rw_guards w).

Lemma guards_ok_step w w' : refresh_step w w' -> guards_ok w -> guards_ok w'.
Proof.
  destruct 1 as [entry w o s Hs|w before g after Hg|w s Hs]; intros [Hnd Hiff];
    unfold guards_ok; simpl.
  - unfold start_refresh in Hs. case_decide as Hin; simplify_eq/=; [done|].
    split; [constructor; [by rewrite <- Hiff|done]|].
    intros k. rewrite elem_of_union, elem_of_singleton, Hiff, elem_of_cons. done.
  - rewrite Hg, map_app in Hnd, Hiff. simpl in Hnd, Hiff. rewrite map_app.
    apply NoDup_app in Hnd as (H1 & Hd & H2). apply NoDup_cons in H2 as [Hga H2].
    split.
    + apply NoDup_app. split; [done|]. split; [|done]. intros k Hk Ha.
      apply (Hd k Hk). by right.
    + intros k. rewrite elem_of_difference, elem_of_singleton, Hiff.
      rewrite !elem_of_app, elem_of_cons. split; [tauto|]. intros [Hk|Hk]; split; auto.
      * intros ->. apply (Hd _ Hk). by left.
      * by intros ->.
  - by rewrite Hs.
Qed.

Lemma guards_ok_steps w w' : rtc refresh_step w w' -> guards_ok w -> guards_ok w'.
Proof. induction 1; eauto using guards_ok_step. Qed.

(** C23. At most one background revalidation runs for a stored response at a
    time, however the workers interleave: [start_refresh] gives a guard
    exactly when none exists for the entry's key, the guards that exist have
    different keys, and dropping one lets the next revalidation start. *)
Theorem one_refresh_per_response size_mb t s0 w entry :
  Store_new size_mb t = Done s0 ->
  rtc refresh_step {| rw_store := s0; rw_guards := [] |} w ->
  NoDup (map guard_key (rw_guards w)) /\
  (fst (start_refresh entry (rw_store w)) =
     if bool_decide (stale_key entry ∈ map guard_key (rw_guards w)) then None
     else Some {| guard_key := stale_key entry |}) /\
  fst (start_refresh entry
    (RefreshGuard_drop {| guard_key := stale_key entry |} (rw_store w)))
  = Some {| guard_key := stale_key entry |}.
Proof.
  intros (es & _ & (xs & _ & [= <-])%Run_bind_Done)%Run_bind_Done Hrun.
  assert (guards_ok w) as [Hnd Hiff].
  { eapply guards_ok_steps; [exact Hrun|]. split; [constructor|]. simpl. intros k.
    rewrite elem_of_nil. set_solver. }
  split; [done|]. unfold start_refresh. split.
  - destruct (decide (stale_key entry ∈ refreshing (rw_store w))) as [Hin|Hin];
      rewrite Hiff in Hin; case_bool_decide; done.
  - simpl. destruct (decide _) as [Hin|]; [|done]. set_solver.
Qed.
End guards.

Definition ex_stale_entry : StaleEntry := {| response := ex_arc; stale_key := ex_response_key |}.

Definition ex_guard : RefreshGuard := {| guard_key := ex_response_key |}.

(** while the page is being revalidated, no second revalidation starts; once its
    guard has been dropped, one may *)
Lemma one_refresh_per_response_witness :
  exists s, start_refresh ex_stale_entry ex_empty = (Some ex_guard, s) /\
    fst (start_refresh ex_stale_entry s) = None /\
    fst (start_refresh ex_stale_entry (RefreshGuard_drop ex_guard s)) = Some ex_guard.
Proof.
  assert (fst (start_refresh ex_stale_entry ex_empty) = Some ex_guard) as Ho by reflexivity.
  destruct (start_refresh ex_stale_entry ex_empty) as [o s] eqn:E. simpl in Ho. subst o.
  destruct (one_refresh_per_response 1 ex_ttl ex_empty {| rw_store := s; rw_guards := [ex_guard] |}
    ex_stale_entry) as (_ & Hs & Hagain); [reflexivity| |].
  - apply rtc_once. exact (refresh_start ex_stale_entry {| rw_store := ex_empty; rw_guards := [] |}
      (Some ex_guard) s E).
  - exists s. split; [reflexivity|]. split; [exact Hs|exact Hagain].
Defined.
