(* ===== verification/Coalesce.v ===== *)
(** Request coalescing: [Flights], [FlightGuard] and [Waiter] of
    [src/coalesce.rs], shared by every worker. A [watch] channel is its number
    and whether its sender is alive: nothing is ever sent on it, so a waiter
    returns exactly when the sender has been dropped. Dropping a guard is two
    steps, because Rust runs [Drop::drop], which removes the key under the
    lock, before it drops the fields, which drops the sender; other workers
    may join between the two. *)

From stdpp Require Import base tactics numbers option list gmap relations.
From S2P Require Import Prelude.

Local Open Scope N_scope.

Section coalesce.
Context `{Countable K}.

(** the keys with a request in flight, and the channels *)
Record Flights := {
  in_flight : gmap K N;
  (** the channels whose sender is alive *)
  senders : gset N;
  next_channel : N;
}.

(** [Flights::default()] *)
Definition Flights_default : Flights :=
  {| in_flight := ∅; senders := ∅; next_channel := 0 |}.

(** the leader's claim on a key *)
Record FlightGuard := {
  flight_key_of : K;
  sender : N;
}.

(** a follower's view of a flight: a clone of the receiver *)
Record Waiter := {
  receiver : N;
}.

(** a request's part in the flight for its key *)
Inductive Join :=
| Lead (guard : FlightGuard)
| Follow (waiter : Waiter)
| Alone.

(** [Flights::join], which holds the lock throughout *)
Definition join (key : K) (may_lead : bool) (f : Flights) : Join * Flights :=
  match in_flight f !! key with
  | Some done => (Follow {| receiver := done |}, f)
  | None =>
      if negb may_lead then (Alone, f) else
      let channel := next_channel f in
      (Lead {| flight_key_of := key; sender := channel |},
       {| in_flight := <[key := channel]> (in_flight f);
          senders := {[channel]} ∪ senders f;
          next_channel := channel + 1 |})
  end.

(** [FlightGuard::drop] *)
Definition FlightGuard_drop (g : FlightGuard) (f : Flights) : Flights :=
  {| in_flight := delete (flight_key_of g) (in_flight f);
     senders := senders f; next_channel := next_channel f |}.

(** the drop of the guard's fields *)
Definition FlightGuard_drop_fields (g : FlightGuard) (f : Flights) : Flights :=
  {| in_flight := in_flight f; senders := senders f ∖ {[sender g]};
     next_channel := next_channel f |}.

(** [drop(guard)] *)
Definition drop_guard (g : FlightGuard) (f : Flights) : Flights :=
  FlightGuard_drop_fields g (FlightGuard_drop g f).

(** whether [Waiter::wait] returns: [changed] fails once the sender is gone,
    and never succeeds *)
Definition wait_returns (w : Waiter) (f : Flights) : bool :=
  bool_decide (receiver w ∉ senders f).

(** ** Interleaving *)

(** a guard that is held, or whose drop has removed the key *)
Inductive GuardPhase :=
| Held
| Removed.

(** the shared flights, and the guards that exist with where they are *)
Record FlightWorld := {
  flights : Flights;
  guards : gmap N (FlightGuard * GuardPhase);
}.

Definition flight_init : FlightWorld := {| flights := Flights_default; guards := ∅ |}.

Inductive flight_step : FlightWorld -> FlightWorld -> Prop :=
| step_join w key may_lead j f' :
    join key may_lead (flights w) = (j, f') ->
    flight_step w {| flights := f';
      guards := match j with
                | Lead g => <[sender g := (g, Held)]> (guards w)
                | _ => guards w
                end |}
| step_drop w c g :
    guards w !! c = Some (g, Held) ->
    flight_step w {| flights := FlightGuard_drop g (flights w);
                     guards := <[c := (g, Removed)]> (guards w) |}
| step_drop_fields w c g :
    guards w !! c = Some (g, Removed) ->
    flight_step w {| flights := FlightGuard_drop_fields g (flights w);
                     guards := delete c (guards w) |}.

Record flights_ok (w : FlightWorld) : Prop := {
  (** the keys in flight are those of the held guards *)
  fo_held k c : in_flight (flights w) !! k = Some c <->
    guards w !! c = Some ({| flight_key_of := k; sender := c |}, Held);
  (** a sender is alive exactly while its guard exists *)
  fo_senders c : c ∈ senders (flights w) <-> is_Some (guards w !! c);
  fo_guard c g p : guards w !! c = Some (g, p) ->
    sender g = c /\ c < next_channel (flights w);
}.

Lemma flights_ok_init : flights_ok flight_init.
Proof.
  constructor; simpl.
  - intros k c. by rewrite !lookup_empty.
  - intros c. rewrite lookup_empty. split; [set_solver|by intros [? ?]].
  - intros c g p. by rewrite lookup_empty.
Qed.

Lemma held_guard w k c : flights_ok w -> in_flight (flights w) !! k = Some c ->
  c ∈ senders (flights w) /\ c < next_channel (flights w).
Proof.
  intros Hw Hk%(fo_held _ Hw). split; [apply (fo_senders _ Hw); eauto|].
  by apply (fo_guard _ Hw) in Hk as [_ ?].
Qed.

Lemma flights_ok_lead w key :
  flights_ok w -> in_flight (flights w) !! key = None ->
  let c := next_channel (flights w) in
  let g := {| flight_key_of := key; sender := c |} in
  flights_ok
    {| flights := {| in_flight := <[key := c]> (in_flight (flights w));
                     senders := {[c]} ∪ senders (flights w); next_channel := c + 1 |};
       guards := <[c := (g, Held)]> (guards w) |}.
Proof.
  intros Hw Hnone c g.
  assert (guards w !! c = None) as Hc.
  { destruct (guards w !! c) as [[g' p]|] eqn:E; [|done].
    apply (fo_guard _ Hw) in E as [_ ?]. unfold c in *. lia. }
  constructor; simpl.
  - intros k c'. destruct (decide (c' = c)) as [->|Hc'].
    + rewrite lookup_insert_eq. split.
      * intros [[<- _]|[_ Hk]]%lookup_insert_Some; [done|].
        apply (held_guard _ _ _ Hw) in Hk as [_ ?]. unfold c in *. lia.
      * intros [= <-]. apply lookup_insert_eq.
    + rewrite (lookup_insert_ne (guards w)) by done. rewrite <- (fo_held _ Hw).
      rewrite lookup_insert_Some. naive_solver.
  - intros c'. rewrite elem_of_union, elem_of_singleton, (fo_senders _ Hw).
    destruct (decide (c' = c)) as [->|Hc'].
    + rewrite lookup_insert_eq. naive_solver.
    + rewrite lookup_insert_ne by done. naive_solver.
  - intros c' g' p [[<- Heq]|[_ Hg]]%lookup_insert_Some; [simplify_eq; split; [done|simpl; lia]|].
    apply (fo_guard _ Hw) in Hg as [? ?]. split; [done|]. unfold c in *. lia.
Qed.

Lemma flights_ok_step w w' : flight_step w w' -> flights_ok w -> flights_ok w'.
Proof.
  destruct 1 as [w key may_lead j f' Hj|w c g Hg|w c g Hg]; intros Hw.
  - unfold join in Hj. destruct (in_flight (flights w) !! key) as [d|] eqn:E.
    { injection Hj as <- <-. by destruct w. }
    destruct may_lead; injection Hj as <- <-; [|by destruct w].
    by apply flights_ok_lead.
  - pose proof (fo_guard _ Hw _ _ _ Hg) as [Hs Hlt]. constructor; simpl.
    + intros k c'. rewrite lookup_delete_Some, (fo_held _ Hw), lookup_insert_Some.
      split; [intros [Hk Hc']; right; split; [|done]; intros <-; rewrite Hg in Hc'; injection Hc' as ->; by apply Hk|].
      intros [[_ ?]|[Hne Hc']]; [done|]. split; [|done]. intros <-. destruct g as [k s].
      simpl in *. subst s. apply (fo_held _ Hw) in Hg, Hc'. congruence.
    + intros c'. rewrite (fo_senders _ Hw). destruct (decide (c = c')) as [<-|?].
      * rewrite lookup_insert_eq, Hg. naive_solver.
      * by rewrite lookup_insert_ne.
    + intros c' g' p [[<- Heq]|[_ Hg']]%lookup_insert_Some; [by simplify_eq|].
      by eapply fo_guard.
  - pose proof (fo_guard _ Hw _ _ _ Hg) as [Hs Hlt]. constructor; simpl.
    + intros k c'. rewrite (fo_held _ Hw), lookup_delete_Some. naive_solver.
    + intros c'. rewrite elem_of_difference, elem_of_singleton, (fo_senders _ Hw), Hs.
      destruct (decide (c = c')) as [<-|?].
      * rewrite lookup_delete_eq. split; [naive_solver|]. by intros [??].
      * rewrite lookup_delete_ne by done. naive_solver.
    + intros c' g' p [_ Hg']%lookup_delete_Some. by eapply fo_guard.
Qed.

Lemma flights_ok_steps w w' : rtc flight_step w w' -> flights_ok w -> flights_ok w'.
Proof. induction 1; eauto using flights_ok_step. Qed.

Lemma flights_ok_reachable w : rtc flight_step flight_init w -> flights_ok w.
Proof. intros Hr. eapply flights_ok_steps; [exact Hr|apply flights_ok_init]. Qed.

(** a channel whose sender has gone stays so: numbers are not used twice *)
Lemma gone_stays_step w w' c :
  flight_step w w' -> flights_ok w -> c < next_channel (flights w) ->
  c ∉ senders (flights w) ->
  c ∉ senders (flights w') /\ c < next_channel (flights w').
Proof.
  destruct 1 as [w key may_lead j f' Hj|w c' g Hg|w c' g Hg]; intros Hw Hlt Hc; simpl;
    [|done|set_solver].
  unfold join in Hj. repeat case_match; simplify_eq/=; try done.
  split; [|lia]. apply not_elem_of_union. split; [|done].
  apply not_elem_of_singleton. lia.
Qed.

Lemma gone_stays w w' c :
  rtc flight_step w w' -> flights_ok w -> c < next_channel (flights w) ->
  c ∉ senders (flights w) -> c ∉ senders (flights w').
Proof.
  induction 1 as [|w w1 w2 Hs _ IH]; intros Hw Hlt Hc; [done|].
  destruct (gone_stays_step _ _ _ Hs Hw Hlt Hc). eauto using flights_ok_step.
Qed.

Lemma join_cases key may_lead f :
  match fst (join key may_lead f) with
  | Lead g => in_flight f !! key = None /\ may_lead = true /\
      g = {| flight_key_of := key; sender := next_channel f |}
  | Follow w => in_flight f !! key = Some (receiver w)
  | Alone => in_flight f !! key = None /\ may_lead = false
  end.
Proof.
  unfold join. destruct (in_flight f !! key) eqn:E; [done|]. by destruct may_lead.
Qed.

(** C17. However the workers' joins and drops interleave, at most one request
    leads a key: two guards that are both held for one key are the same guard.
    While that guard is held every other request for the key follows its
    channel, and a request that finds no held guard leads when it may lead and
    goes alone when it may not. *)
Theorem one_leader_per_key w key may_lead :
  rtc flight_step flight_init w ->
  (forall c c' g g', guards w !! c = Some (g, Held) -> guards w !! c' = Some (g', Held) ->
     flight_key_of g = flight_key_of g' -> g = g') /\
  (forall c g, guards w !! c = Some (g, Held) -> flight_key_of g = key ->
     join key may_lead (flights w) = (Follow {| receiver := c |}, flights w)) /\
  ((forall c g, guards w !! c = Some (g, Held) -> flight_key_of g <> key) ->
     if may_lead
     then exists g, fst (join key may_lead (flights w)) = Lead g /\ flight_key_of g = key
     else join key may_lead (flights w) = (Alone, flights w)).
Proof.
  intros Hw%flights_ok_reachable.
  assert (forall c g, guards w !! c = Some (g, Held) ->
    sender g = c /\ in_flight (flights w) !! flight_key_of g = Some c) as Hheld.
  { intros c [k c0] Hg. pose proof (fo_guard _ Hw _ _ _ Hg) as [Hs _]. simpl in *. subst c0.
    split; [done|]. by apply (fo_held _ Hw). }
  split; [|split].
  - intros c c' [k s] [k' s'] Hg Hg' Hk. apply Hheld in Hg as [Hs Hg], Hg' as [Hs' Hg'].
    simpl in *. congruence.
  - intros c g Hg <-. apply Hheld in Hg as [_ Hg]. unfold join. by rewrite Hg.
  - intros Hnone. unfold join. destruct (in_flight (flights w) !! key) as [c|] eqn:E.
    { apply (fo_held _ Hw) in E. by apply Hnone in E. }
    destruct may_lead; simpl; eauto.
Qed.

(** C18. A follower is released when the leader's guard has been dropped, and
    by nothing else: it waits exactly while the guard exists. By the time it
    is released, and for ever after, no key leads to the finished flight, so
    a follower that joins again never follows the channel that woke it. *)
Theorem woken_follower_never_rejoins w w' c :
  rtc flight_step flight_init w -> c < next_channel (flights w) ->
  (wait_returns {| receiver := c |} (flights w) = true <-> guards w !! c = None) /\
  (wait_returns {| receiver := c |} (flights w) = true -> rtc flight_step w w' ->
   wait_returns {| receiver := c |} (flights w') = true /\
   forall key may_lead,
     fst (join key may_lead (flights w')) <> Follow {| receiver := c |}).
Proof.
  intros Hr Hlt. pose proof (flights_ok_reachable _ Hr) as Hw.
  unfold wait_returns. simpl. rewrite bool_decide_eq_true.
  split; [rewrite (fo_senders _ Hw), eq_None_not_Some; done|].
  intros Hc Hr'. pose proof (gone_stays _ _ _ Hr' Hw Hlt Hc) as Hc'.
  split; [by apply bool_decide_eq_true|]. intros key may_lead Hj.
  pose proof (join_cases key may_lead (flights w')) as Hcase. rewrite Hj in Hcase.
  by apply held_guard in Hcase as [? _]; [|by eapply flights_ok_steps].
Qed.
End coalesce.

(** ** A run for the examples: a request leads, and its guard is dropped *)

Definition ex_guard : FlightGuard (K:=N) := {| flight_key_of := 7; sender := 0 |}.
Definition ex_leading : FlightWorld (K:=N) := {|
  flights := snd (join 7 true Flights_default);
  guards := <[0 := (ex_guard, Held)]> ∅ |}.
Definition ex_removed : FlightWorld (K:=N) := {|
  flights := FlightGuard_drop ex_guard (flights ex_leading);
  guards := <[0 := (ex_guard, Removed)]> (guards ex_leading) |}.
Definition ex_finished : FlightWorld (K:=N) := {|
  flights := FlightGuard_drop_fields ex_guard (flights ex_removed);
  guards := delete 0 (guards ex_removed) |}.

Lemma ex_leading_reachable : rtc flight_step flight_init ex_leading.
Proof.
  eapply rtc_once. apply (step_join flight_init 7 true (Lead ex_guard)). reflexivity.
Qed.

Lemma ex_finished_reachable : rtc flight_step flight_init ex_finished.
Proof.
  etransitivity; [apply ex_leading_reachable|].
  eapply rtc_l; [by apply (step_drop ex_leading 0 ex_guard)|].
  eapply rtc_once. by apply (step_drop_fields ex_removed 0 ex_guard).
Qed.

Lemma one_leader_per_key_witness :
  join 7 true (flights ex_leading) = (Follow {| receiver := 0 |}, flights ex_leading).
Proof.
  apply (one_leader_per_key ex_leading 7 true ex_leading_reachable) with (c := 0) (g := ex_guard);
    reflexivity.
Defined.

Lemma woken_follower_never_rejoins_witness :
  fst (join 7 true (flights ex_finished)) <> Follow {| receiver := 0 |}.
Proof.
  apply (woken_follower_never_rejoins ex_finished ex_finished 0
           ex_finished_reachable eq_refl); [reflexivity|apply rtc_refl].
Defined.
