(* ===== verification/Upstream.v ===== *)
(** What crosses the proxy: [src/forwarded.rs] and the header handling of
    [src/proxy.rs]. The client's identity, the fields that go to the origin,
    the fields of the origin's response that go to the client, and those that
    the store keeps. hyper's request builder is an interface, as the [http]
    types are in [Http]; [valid_parts] is what hyper guarantees of a response's
    head. *)

From stdpp Require Import base tactics numbers option list gmap strings.
From Stdlib Require Import Ascii.
From S2P Require Import Prelude RustStd Http Moka Store.

Local Open Scope N_scope.

(** an address, as [IpAddr::to_string] prints it *)
Abbreviation IpAddr := string (only parsing).

(** what the program reads of an actix request *)
Record HttpRequest `{HttpOps} := {
  req_method : Method;
  (** [req.uri().authority()] *)
  uri_authority : option string;
  (** [req.uri().path_and_query()] *)
  uri_path_and_query : option string;
  req_headers : HeaderMap;
  (** [req.peer_addr().map(|addr| addr.ip())] *)
  peer_ip : option IpAddr;
  (** [req.app_config().secure()] and [.host()] *)
  app_secure : bool;
  app_host : string;
}.

(** what the program reads of the origin's [Url] *)
Record Url := {
  (** [url[..Position::AfterPath]] *)
  after_path : string;
  host_str : option string;
  port_or_known_default : option N;
}.

(** the body of a request to the origin: [empty_body()], or the first chunk of
    the payload with the channel for the rest *)
Inductive UpstreamBody :=
| EmptyBody
| Streamed (first : Bytes) (channel : N).

(** hyper's request builder and its [http::Uri] *)
Class HyperOps := {
  Uri : Type;
  (** [Uri::try_from(..).ok()] *)
  Uri_try_from : string -> option Uri;
  Builder : Type;
  (** [Request::builder()] *)
  Builder_new : Builder;
  Builder_method : Method -> Builder -> Builder;
  Builder_uri : Uri -> Builder -> Builder;
  (** [builder.header(name, value)], which appends *)
  Builder_header : string -> string -> Builder -> Builder;
  (** [if let Some(headers) = builder.headers_mut() { headers.remove(name) }] *)
  Builder_remove : string -> Builder -> Builder;
  (** the values of a field, or [None] once a call has failed *)
  Builder_values : Builder -> HeaderName -> option (list HeaderValue);
  HyperRequest : Type;
  (** [builder.body(body).ok()] *)
  Builder_body : UpstreamBody -> Builder -> option HyperRequest;
  HyperRequest_values : HyperRequest -> HeaderName -> list HeaderValue;
}.

(** the value of one [header] call: the values of [n'] gain [v] when the name
    and the value are valid, and the builder fails otherwise *)
Definition header_values `{HttpOps} (n : string) (v : string) (n' : HeaderName)
    (vs : option (list HeaderValue)) : option (list HeaderValue) :=
  match HeaderName_from_bytes n, HeaderValue_from_bytes v with
  | Some n, Some v => (fun vs => vs ++ (if String.eqb n n' then [v] else [])) <$> vs
  | _, _ => None
  end.

Class HyperLaws `{HttpOps, HyperOps} : Prop := {
  Builder_values_new n : Builder_values Builder_new n = Some [];
  Builder_values_method m b n :
    Builder_values (Builder_method m b) n = Builder_values b n \/
    forall n, Builder_values (Builder_method m b) n = None;
  (** any method that a client's request has *)
  Builder_values_method_ok m b n :
    HeaderName_from_bytes m <> None ->
    Builder_values (Builder_method m b) n = Builder_values b n;
  Builder_values_uri u b n : Builder_values (Builder_uri u b) n = Builder_values b n;
  Builder_values_header n v b n' :
    Builder_values (Builder_header n v b) n' = header_values n v n' (Builder_values b n');
  Builder_values_remove n b n' :
    Builder_values (Builder_remove n b) n' =
    if String.eqb n n' then (fun _ => []) <$> Builder_values b n' else Builder_values b n';
  (** the builder gives a request exactly when no call has failed *)
  Builder_body_None body b :
    Builder_body body b = None <-> exists n, Builder_values b n = None;
  HyperRequest_values_body body b r n :
    Builder_body body b = Some r -> Builder_values b n = Some (HyperRequest_values r n);
}.

(** ** The client ([src/forwarded.rs]) *)

Definition CLIENT_FORWARDING_HEADERS : list HeaderName :=
  [header.FORWARDED; "x-forwarded-for"; "x-forwarded-host"; "x-forwarded-proto";
   "x-forwarded-port"; "x-forwarded-server"; "x-forwarded-prefix"; "x-forwarded-uri";
   "x-host"; "x-forwarded-scheme"; "x-original-host"; "front-end-https"; "x-real-ip"]%string.

Definition URL_OVERRIDE_HEADERS : list HeaderName := ["x-original-url"; "x-rewrite-url"]%string.

Record ClientInfo := {
  ip : option IpAddr;
  scheme : string;
  host : string;
}.

Definition ClientInfo_from_request `{HttpOps} (req : HttpRequest) : ClientInfo := {|
  ip := peer_ip req;
  scheme := if app_secure req then "https" else "http";
  host :=
    match uri_authority req with
    | Some authority => authority
    | None => unwrap_or (HeaderMap_get (req_headers req) header.HOST ≫= to_str) (app_host req)
    end;
|}.

(** ** Hop-by-hop fields *)

Definition connection_options `{HttpOps} (values : list HeaderValue) : list string :=
  List.filter (fun token => negb (is_empty token))
    (map (fun token => to_ascii_lowercase (trim token))
      (concat (map (str_split ",") (omap to_str values)))).

Definition HOP_BY_HOP : list HeaderName :=
  ["connection"; "keep-alive"; "proxy-connection"; "te"; "trailer"; "transfer-encoding";
   "upgrade"; "proxy-authenticate"; "proxy-authorization"]%string.

Definition is_end_to_end (name : HeaderName) (connection_options : list string) : bool :=
  let hop_by_hop := existsb (String.eqb name) HOP_BY_HOP in
  negb hop_by_hop && negb (existsb (fun option => String.eqb option name) connection_options).

(** ** Requests to the origin *)

Definition port_string (port : N) : string := (":" +:+ u64_to_string port)%string.

Definition upstream_host (base : Url) : option string :=
  host ← host_str base;
  Some (match port_or_known_default base with
        | None => host
        | Some port =>
            if (port =? 80) || (port =? 443) then host
            else (host +:+ port_string port)%string
        end).

Section upstream.
Context `{Hops : HttpOps, Yops : HyperOps}.

(** the test of the copying loop of [upstream_request] *)
Definition copied_to_origin (options : list string) (name : HeaderName) : bool :=
  negb (String.eqb name header.HOST) &&
  negb (existsb (String.eqb name) CLIENT_FORWARDING_HEADERS) &&
  negb (existsb (String.eqb name) URL_OVERRIDE_HEADERS) &&
  is_end_to_end name options.

Definition header_opt (name : string) (value : option string) (b : Builder) : Builder :=
  match value with Some v => Builder_header name v b | None => b end.

Definition upstream_request (req : HttpRequest) (upstream_base_url : Url) (client : ClientInfo)
    (path_and_query : string) : option (Builder * Uri) :=
  let upstream_base := trim_end_matches "/" (after_path upstream_base_url) in
  target_uri ← Uri_try_from (upstream_base +:+ path_and_query);
  let builder := Builder_uri target_uri (Builder_method (req_method req) Builder_new) in
  let options :=
    connection_options (HeaderMap_get_all (req_headers req) header.CONNECTION) in
  let builder :=
    fold_left (fun b f =>
      if copied_to_origin options (fst f) then Builder_header (fst f) (snd f) b else b)
      (HeaderMap_iter (req_headers req)) builder in
  let builder := header_opt header.HOST (upstream_host upstream_base_url) builder in
  let builder := header_opt "X-Forwarded-For" (ip client) builder in
  let builder := Builder_header "X-Forwarded-Proto" (scheme client) builder in
  Some (Builder_header "X-Forwarded-Host" (host client) builder, target_uri).

Definition with_validators (builder : Builder) (stored : StoredResponse) : Builder :=
  fold_left (fun b f => Builder_header (fst f) (snd f) b) (validators stored) builder.

(** ** The origin's response *)

(** a response's head as hyper gives it *)
Record Parts := {
  parts_status : N;
  parts_headers : list (string * string);
}.

Record Head := {
  head_status : StatusCode;
  head_fields : Fields;
  head_map : HeaderMap;
}.

Definition BAD_GATEWAY : StatusCode := 502.

(** [StatusCode::from_u16(..).ok()] *)
Definition StatusCode_from_u16 (n : N) : option StatusCode :=
  if (100 <=? n) && (n <? 1000) then Some n else None.

Definition Head_from_upstream (parts : Parts) : Head :=
  let fields :=
    omap (fun f => n ← HeaderName_from_bytes (fst f); v ← HeaderValue_from_bytes (snd f);
                   Some (n, v)) (parts_headers parts) in
  {| head_status := unwrap_or (StatusCode_from_u16 (parts_status parts)) BAD_GATEWAY;
     head_fields := fields;
     head_map := HeaderMap_of_fields fields |}.

Definition CACHE_STATUS : HeaderName := "x-shadowstep-cache".

Definition forwardable_fields (head : Head) : Fields :=
  let options := connection_options (HeaderMap_get_all (head_map head) header.CONNECTION) in
  List.filter (fun f =>
    negb (String.eqb (fst f) header.CONTENT_LENGTH) &&
    negb (String.eqb (fst f) CACHE_STATUS) && is_end_to_end (fst f) options) (head_fields head).

Definition stored_fields (fields : Fields) : Fields :=
  List.filter (fun f => negb (String.eqb (fst f) header.AGE)) fields.

Definition content_length (head : Head) : option N :=
  (HeaderMap_get (head_map head) header.CONTENT_LENGTH ≫= to_str) ≫= u64_from_str.

(** ** What the functions compute *)

(** a [Connection] value lists the field [name] among its options *)
Definition connection_lists (values : list HeaderValue) (name : HeaderName) : Prop :=
  exists value token, value ∈ values /\ string_all visible_ascii value = true /\
    token ∈ str_split "," value /\ name = to_ascii_lowercase (trim token) /\ name <> ""%string.

(** the fields that concern one hop only *)
Definition one_hop (values : list HeaderValue) (name : HeaderName) : Prop :=
  name ∈ HOP_BY_HOP \/ connection_lists values name.

(** the client's fields that never reach the origin as the client sent them *)
Definition withheld (req : HttpRequest) (name : HeaderName) : Prop :=
  name = header.HOST \/ name ∈ CLIENT_FORWARDING_HEADERS \/ name ∈ URL_OVERRIDE_HEADERS \/
  one_hop (HeaderMap_get_all (req_headers req) header.CONNECTION) name.

(** the fields that the proxy sets itself *)
Definition own_fields (base : Url) (client : ClientInfo) : Fields :=
  option_list ((header.HOST,.) <$> upstream_host base) ++
  option_list (("x-forwarded-for"%string,.) <$> ip client) ++
  [("x-forwarded-proto"%string, scheme client); ("x-forwarded-host"%string, host client)].

(** a request as actix parses one: valid lowercased names, valid values, and a
    valid method *)
Definition well_formed (req : HttpRequest) : Prop :=
  HeaderName_from_bytes (req_method req) <> None /\
  forall n v, (n, v) ∈ HeaderMap_iter (req_headers req) ->
    HeaderName_from_bytes n = Some n /\ HeaderValue_from_bytes v = Some v.

(** the values that the proxy sets are valid ones *)
Definition own_valid (base : Url) (client : ClientInfo) : Prop :=
  Forall (fun f => HeaderValue_from_bytes (snd f) = Some (snd f)) (own_fields base client).

(** a field as a header map holds it *)
Definition valid_field (f : HeaderName * HeaderValue) : Prop :=
  HeaderName_from_bytes (fst f) = Some (fst f) /\ HeaderValue_from_bytes (snd f) = Some (snd f).

Context `{!HttpLaws, !HyperLaws}.

Lemma elem_of_connection_options values n :
  n ∈ connection_options values <-> connection_lists values n.
Proof.
  unfold connection_options, connection_lists.
  rewrite elem_of_filter_bool, negb_true_iff, is_empty_false, list_elem_of_In, in_map_iff.
  setoid_rewrite in_concat. setoid_rewrite in_map_iff. setoid_rewrite <- list_elem_of_In.
  split.
  - intros [(token & <- & parts & (value & <- & Hv) & Ht) Hne].
    apply list_elem_of_omap in Hv as (v & Hv & Hs).
    pose proof (to_str_Some_visible _ _ Hs). apply to_str_Some in Hs as ->. eauto 10.
  - intros (value & token & Hv & Hvis & Ht & -> & Hne). split; [|done].
    exists token. split; [done|]. exists (str_split "," value). split; [|done].
    exists value. split; [done|]. apply list_elem_of_omap. exists value.
    by rewrite to_str_visible, Hvis.
Qed.

Lemma is_end_to_end_spec n values :
  is_end_to_end n (connection_options values) = false <-> one_hop values n.
Proof.
  unfold is_end_to_end, one_hop.
  rewrite andb_false_iff, !negb_false_iff, existsb_eqb, <- elem_of_connection_options.
  rewrite existsb_elem. setoid_rewrite String.eqb_eq. naive_solver.
Qed.

Lemma copied_to_origin_spec req n :
  copied_to_origin
    (connection_options (HeaderMap_get_all (req_headers req) header.CONNECTION)) n = false
  <-> withheld req n.
Proof.
  unfold copied_to_origin, withheld.
  rewrite !andb_false_iff, is_end_to_end_spec, !negb_false_iff, !existsb_eqb, String.eqb_eq.
  tauto.
Qed.

Lemma Builder_values_field f b n : valid_field f ->
  Builder_values (Builder_header (fst f) (snd f) b) n =
  (fun vs => vs ++ values_of n [f]) <$> Builder_values b n.
Proof.
  intros [Hn Hv]. destruct f as [n0 v]. simpl in *.
  rewrite Builder_values_header. unfold header_values. rewrite Hn, Hv, values_of_cons.
  by rewrite app_nil_r.
Qed.

Lemma append_nothing (o : option (list HeaderValue)) : (fun vs => vs ++ []) <$> o = o.
Proof. destruct o; simpl; [by rewrite app_nil_r|done]. Qed.

Lemma append_append (o : option (list HeaderValue)) l1 l2 :
  (fun vs => vs ++ l2) <$> ((fun vs => vs ++ l1) <$> o) = (fun vs => vs ++ (l1 ++ l2)) <$> o.
Proof. destruct o; simpl; [by rewrite app_assoc|done]. Qed.

(** a loop that appends the fields that pass a test *)
Lemma Builder_values_loop (test : HeaderName -> bool) l b n :
  Forall valid_field l ->
  Builder_values
    (fold_left (fun b f => if test (fst f) then Builder_header (fst f) (snd f) b else b) l b) n
  = (fun vs => vs ++ (if test n then values_of n l else [])) <$> Builder_values b n.
Proof.
  intros Hl. revert b. induction Hl as [|f l Hf _ IH]; intros b; simpl.
  - destruct (test n); by rewrite append_nothing.
  - rewrite IH. destruct f as [n0 v]. simpl. destruct (test n0) eqn:Et.
    + rewrite (Builder_values_field (n0, v)) by done. rewrite append_append, !values_of_cons.
      destruct (String.eqb_spec n0 n) as [->|Hn]; [by rewrite Et|done].
    + rewrite values_of_cons. destruct (String.eqb_spec n0 n) as [->|Hn]; [by rewrite Et|done].
Qed.

Lemma Builder_values_fields l b n :
  Forall valid_field l ->
  Builder_values (fold_left (fun b f => Builder_header (fst f) (snd f) b) l b) n
  = (fun vs => vs ++ values_of n l) <$> Builder_values b n.
Proof. apply (Builder_values_loop (fun _ => true)). Qed.

(** a [header] call whose name may have capitals *)
Lemma Builder_values_named n0 lower v b n :
  HeaderName_from_bytes n0 = Some lower -> HeaderValue_from_bytes v = Some v ->
  Builder_values (Builder_header n0 v b) n =
  (fun vs => vs ++ values_of n [(lower, v)]) <$> Builder_values b n.
Proof.
  intros Hn Hv. rewrite Builder_values_header. unfold header_values.
  by rewrite Hn, Hv, values_of_cons, app_nil_r.
Qed.

Lemma Builder_values_opt n0 lower value b n :
  HeaderName_from_bytes n0 = Some lower ->
  (forall v, value = Some v -> HeaderValue_from_bytes v = Some v) ->
  Builder_values (header_opt n0 value b) n =
  (fun vs => vs ++ values_of n (option_list ((lower,.) <$> value))) <$> Builder_values b n.
Proof.
  intros Hn Hv. destruct value as [v|]; simpl; [|by rewrite append_nothing].
  apply Builder_values_named; auto.
Qed.

Lemma token_names :
  HeaderName_from_bytes "host" = Some "host"%string /\
  HeaderName_from_bytes "X-Forwarded-For" = Some "x-forwarded-for"%string /\
  HeaderName_from_bytes "X-Forwarded-Proto" = Some "x-forwarded-proto"%string /\
  HeaderName_from_bytes "X-Forwarded-Host" = Some "x-forwarded-host"%string.
Proof. split_and!; by rewrite HeaderName_from_bytes_token. Qed.

Lemma valid_fields req : well_formed req -> Forall valid_field (HeaderMap_iter (req_headers req)).
Proof. intros [_ Hf]. apply Forall_forall. intros [n v] Hin. by apply Hf in Hin. Qed.

Lemma values_of_two n (f g : HeaderName * HeaderValue) :
  values_of n [f; g] = values_of n [f] ++ values_of n [g].
Proof. apply (values_of_app n [f] [g]). Qed.

(** the builder that [upstream_request] returns, field by field *)
Lemma upstream_request_values req base client pq b u n :
  well_formed req -> own_valid base client ->
  upstream_request req base client pq = Some (b, u) ->
  Builder_values b n =
    Some ((if copied_to_origin
             (connection_options (HeaderMap_get_all (req_headers req) header.CONNECTION)) n
           then HeaderMap_get_all (req_headers req) n else [])
          ++ values_of n (own_fields base client)).
Proof.
  intros Hreq Hown. unfold upstream_request. destruct (Uri_try_from _) as [uri|]; [|done].
  simpl. intros [= <- <-]. destruct token_names as (Hh & Hf & Hp & Hx).
  unfold own_valid, own_fields in Hown.
  rewrite !Forall_app, !Forall_cons in Hown. destruct Hown as (Hhost & Hip & Hsch & Hhst & _).
  rewrite (Builder_values_named _ _ _ _ _ Hx Hhst), (Builder_values_named _ _ _ _ _ Hp Hsch).
  rewrite (Builder_values_opt _ _ _ _ _ Hf), (Builder_values_opt _ _ _ _ _ Hh).
  - rewrite (Builder_values_loop _ _ _ _ (valid_fields _ Hreq)).
    rewrite Builder_values_uri, Builder_values_method_ok by apply Hreq.
    rewrite Builder_values_new, HeaderMap_iter_values. simpl. f_equal.
    unfold own_fields. rewrite !values_of_app, <- !app_assoc.
    by rewrite (values_of_two n).
  - intros v Hv. rewrite Hv in Hhost. by inversion_clear Hhost.
  - intros v Hv. rewrite Hv in Hip. by inversion_clear Hip.
Qed.

Lemma own_fields_names base client n v :
  (n, v) ∈ own_fields base client ->
  n ∈ [header.HOST; "x-forwarded-for"; "x-forwarded-proto"; "x-forwarded-host"]%string.
Proof.
  unfold own_fields. rewrite !elem_of_app.
  destruct (upstream_host base), (ip client); simpl; set_solver.
Qed.

Lemma own_fields_withheld req base client n v :
  (n, v) ∈ own_fields base client -> withheld req n.
Proof.
  intros Hn%own_fields_names.
  rewrite !elem_of_cons in Hn. unfold withheld.
  destruct Hn as [->|Hn]; [by left|right; left].
  apply existsb_eqb. destruct Hn as [->|[->|[->|Hn]]]; [done..|set_solver].
Qed.

(** C15. What the origin receives. A field of the client's request that is
    [Host], a forwarding or URL-override field, or that concerns one hop only,
    whether by its name or because the client's [Connection] lists it, reaches
    the origin only with the values the proxy sets itself: the origin's own
    host, and the connection's address, scheme and host. Every other field
    reaches it with exactly the client's values, in their order. The request
    can always be built. *)
Theorem upstream_request_fields req base client pq b u body :
  well_formed req -> own_valid base client ->
  upstream_request req base client pq = Some (b, u) ->
  exists r, Builder_body body b = Some r /\
    forall n,
      (withheld req n -> HyperRequest_values r n = values_of n (own_fields base client)) /\
      (~ withheld req n -> HyperRequest_values r n = HeaderMap_get_all (req_headers req) n).
Proof.
  intros Hreq Hown Hup.
  pose proof (fun n => upstream_request_values _ _ _ _ _ _ n Hreq Hown Hup) as Hvals.
  destruct (Builder_body body b) as [r|] eqn:Hr.
  2:{ apply Builder_body_None in Hr as [n Hn]. by rewrite Hvals in Hn. }
  exists r. split; [done|]. intros n.
  pose proof (HyperRequest_values_body _ _ _ n Hr) as Hb. rewrite Hvals in Hb.
  injection Hb as <-. split.
  - intros Hw%copied_to_origin_spec. by rewrite Hw.
  - intros Hw. rewrite <- copied_to_origin_spec, not_false_iff_true in Hw. rewrite Hw.
    destruct (values_of n (own_fields base client)) as [|v l] eqn:E; [by rewrite app_nil_r|].
    assert (v ∈ values_of n (own_fields base client)) as Hv by (rewrite E; left).
    apply elem_of_values_of, (own_fields_withheld req), copied_to_origin_spec in Hv. congruence.
Qed.

(** ** Responses *)

Lemma values_of_filter n (test : HeaderName -> bool) (l : Fields) :
  values_of n (List.filter (fun f => test (fst f)) l) = if test n then values_of n l else [].
Proof.
  induction l as [|[n0 v] l IH]; simpl; [by destruct (test n)|].
  destruct (test n0) eqn:E; rewrite !values_of_cons, IH;
    destruct (String.eqb_spec n0 n) as [->|]; rewrite ?E; try done; by destruct (test n).
Qed.

(** the head of a response as hyper gives it: a status of three digits, and
    fields with valid lowercased names and valid values *)
Record valid_parts (parts : Parts) : Prop := {
  vp_status : 100 <= parts_status parts < 1000;
  vp_fields : Forall valid_field (parts_headers parts);
}.

(** the values of the field [n] of the origin's response, in its order *)
Definition origin_values (parts : Parts) (n : HeaderName) : list HeaderValue :=
  values_of n (parts_headers parts).

(** the fields of the origin's response that the proxy drops *)
Definition dropped (parts : Parts) (n : HeaderName) : Prop :=
  n = header.CONTENT_LENGTH \/ n = CACHE_STATUS \/
  one_hop (origin_values parts header.CONNECTION) n.

(** [Head::from_upstream] loses nothing of what hyper gives *)
Lemma Head_from_upstream_exact parts : valid_parts parts ->
  head_status (Head_from_upstream parts) = parts_status parts /\
  head_fields (Head_from_upstream parts) = parts_headers parts /\
  forall n, HeaderMap_get_all (head_map (Head_from_upstream parts)) n = origin_values parts n.
Proof.
  intros [Hs Hf].
  assert (head_fields (Head_from_upstream parts) = parts_headers parts) as Hfields.
  { simpl. induction Hf as [|[n v] l [Hn Hv] _ IH]; [done|]. simpl in *. rewrite Hn; simpl. rewrite Hv; simpl. f_equal. exact IH. }
  split_and!; [|done|].
  - simpl. unfold StatusCode_from_u16.
    destruct (N.leb_spec 100 (parts_status parts)), (N.ltb_spec (parts_status parts) 1000);
      simpl; lia || done.
  - intros n. unfold origin_values. rewrite <- Hfields. apply HeaderMap_get_all_of_fields.
Qed.

Lemma forwardable_fields_test parts : valid_parts parts ->
  exists test, forwardable_fields (Head_from_upstream parts) =
      List.filter (fun f => test (fst f)) (parts_headers parts) /\
    forall n, test n = false <-> dropped parts n.
Proof.
  intros (_ & Hf & Hm)%Head_from_upstream_exact.
  exists (fun n => negb (String.eqb n header.CONTENT_LENGTH) &&
    negb (String.eqb n CACHE_STATUS) &&
    is_end_to_end n (connection_options (origin_values parts header.CONNECTION))).
  split; [unfold forwardable_fields; by rewrite Hf, Hm|]. intros n. unfold dropped.
  rewrite !andb_false_iff, is_end_to_end_spec, !negb_false_iff, !String.eqb_eq. tauto.
Qed.

(** C24. What the client and the store receive of the origin's head, as hyper
    gives it. The status is the origin's, and the fields that the proxy
    decides by are all of the origin's, in its order. A field is dropped
    exactly when it is [Content-Length], the proxy's own
    [X-Shadowstep-Cache], or concerns one hop only, by its name or because the
    origin's [Connection] lists it; every other field keeps all the values
    that the origin sent, in the origin's order. The store's copy loses [Age]
    as well, which it works out on each use, and nothing else. *)
Theorem response_fields parts (Hparts : valid_parts parts) :
  let head := Head_from_upstream parts in
  head_status head = parts_status parts /\
  head_fields head = parts_headers parts /\
  sublist (forwardable_fields head) (parts_headers parts) /\
  forall n,
    HeaderMap_get_all (head_map head) n = origin_values parts n /\
    (dropped parts n ->
       values_of n (forwardable_fields head) = [] /\
       values_of n (stored_fields (forwardable_fields head)) = []) /\
    (~ dropped parts n ->
       values_of n (forwardable_fields head) = origin_values parts n /\
       values_of n (stored_fields (forwardable_fields head)) =
         if String.eqb n header.AGE then [] else origin_values parts n).
Proof.
  intros head. destruct (Head_from_upstream_exact parts Hparts) as (Hs & Hf & Hm).
  destruct (forwardable_fields_test parts Hparts) as (test & Heq & Htest).
  split_and!; [done..| |].
  { subst head. rewrite Heq. apply filter_sublist. }
  intros n. split; [apply Hm|]. subst head. rewrite Heq. unfold stored_fields, origin_values.
  rewrite (values_of_filter n (fun n => negb (String.eqb n header.AGE))), values_of_filter.
  split.
  - intros Hd%Htest. rewrite Hd. by destruct (String.eqb n header.AGE).
  - rewrite <- Htest, not_false_iff_true. intros ->. by destruct (String.eqb n header.AGE).
Qed.
End upstream.

(** ** An implementation of the builder, and the examples *)

Record RefRequest := {
  ref_method : string;
  ref_uri : string;
  ref_fields : Fields;
}.

Definition ref_map (f : RefRequest -> option RefRequest) (b : option RefRequest)
    : option RefRequest := b ≫= f.

#[export] Instance RefHyper : HyperOps := {|
  Uri := string;
  Uri_try_from s := if is_empty s then None else Some s;
  Builder := option RefRequest;
  Builder_new := Some {| ref_method := GET; ref_uri := "/"; ref_fields := [] |};
  Builder_method m := ref_map (fun r =>
    _ ← HeaderName_from_bytes m;
    Some {| ref_method := m; ref_uri := ref_uri r; ref_fields := ref_fields r |});
  Builder_uri u := ref_map (fun r =>
    Some {| ref_method := ref_method r; ref_uri := u; ref_fields := ref_fields r |});
  Builder_header n v := ref_map (fun r =>
    n ← HeaderName_from_bytes n; v ← HeaderValue_from_bytes v;
    Some {| ref_method := ref_method r; ref_uri := ref_uri r;
            ref_fields := ref_fields r ++ [(n, v)] |});
  Builder_remove n := ref_map (fun r =>
    Some {| ref_method := ref_method r; ref_uri := ref_uri r;
            ref_fields := HeaderMap_remove n (ref_fields r : @HeaderMap RefHttp) |});
  Builder_values b n := (fun r => values_of n (ref_fields r)) <$> b;
  HyperRequest := RefRequest * UpstreamBody;
  Builder_body body b := (fun r => (r, body)) <$> b;
  HyperRequest_values r n := values_of n (ref_fields (fst r));
|}.

#[export] Instance RefHyperLaws : HyperLaws.
Proof.
  constructor.
  - done.
  - intros m [r|] n; [|by left]. cbn -[HeaderName_from_bytes].
    destruct (HeaderName_from_bytes m); [by left|by right].
  - intros m [r|] n Hm; [|done]. cbn -[HeaderName_from_bytes].
    by destruct (HeaderName_from_bytes m).
  - by intros u [r|] n.
  - intros n v [r|] n'; cbn -[HeaderName_from_bytes HeaderValue_from_bytes];
      unfold header_values; destruct (HeaderName_from_bytes n) as [n0|]; try done;
      destruct (HeaderValue_from_bytes v) as [v0|]; try done.
    cbn -[values_of]. by rewrite values_of_app, values_of_cons, app_nil_r.
  - intros n [r|] n'; cbn -[values_of]; [|by destruct (String.eqb n n')].
    rewrite values_of_filter_out. by destruct (String.eqb n n').
  - intros body [r|]; cbn; [|split; [intros _; by exists ""%string|done]].
    split; [done|by intros [? ?]].
  - intros body [r|] r' n Hr; [|done]. by injection Hr as <-.
Qed.

Definition ex_client_headers : @HeaderMap RefHttp :=
  [(header.HOST, "evil.example"); ("x-forwarded-for", "10.0.0.1"); ("accept", "text/html");
   ("connection", "close, X-Secret"); ("x-secret", "1"); ("accept", "image/png")]%string.

Definition ex_http_request : HttpRequest := {|
  req_method := GET; uri_authority := None; uri_path_and_query := Some "/a?b"%string;
  req_headers := ex_client_headers; peer_ip := Some "192.0.2.7"%string;
  app_secure := false; app_host := "localhost:8080" |}.

Definition ex_url : Url := {|
  after_path := "http://origin:9000/"; host_str := Some "origin"%string;
  port_or_known_default := Some 9000 |}.

Definition ex_client : ClientInfo := ClientInfo_from_request ex_http_request.

Lemma ex_well_formed : well_formed ex_http_request.
Proof.
  split; [done|]. intros n v Hin.
  repeat (apply elem_of_cons in Hin as [[= -> ->]|Hin]; [by vm_compute|]).
  by apply elem_of_nil in Hin.
Qed.

Lemma ex_own_valid : own_valid ex_url ex_client.
Proof. repeat constructor. Qed.

Lemma upstream_request_fields_witness :
  exists b u r, upstream_request ex_http_request ex_url ex_client "/a?b" = Some (b, u) /\
    u = "http://origin:9000/a?b"%string /\ Builder_body EmptyBody b = Some r /\
    HyperRequest_values r "x-forwarded-for" = ["192.0.2.7"%string] /\
    HyperRequest_values r "x-secret" = [] /\
    HyperRequest_values r "accept" = ["text/html"; "image/png"]%string.
Proof.
  destruct (upstream_request ex_http_request ex_url ex_client "/a?b") as [[b u]|] eqn:E;
    [|vm_compute in E; discriminate].
  destruct (upstream_request_fields _ _ _ _ _ _ EmptyBody ex_well_formed ex_own_valid E)
    as (r & Hr & Hn).
  exists b, u, r. split; [done|]. split; [vm_compute in E; by injection E as _ <-|].
  split; [done|]. split; [|split].
  - rewrite (proj1 (Hn _)); [by vm_compute|]. right; left. by apply existsb_eqb.
  - rewrite (proj1 (Hn _)); [by vm_compute|]. do 4 right.
    exists "close, X-Secret"%string, " X-Secret"%string.
    split; [apply list_elem_of_singleton; by vm_compute|]. split; [done|].
    split; [|by vm_compute]. right. by left.
  - rewrite (proj2 (Hn _)); [by vm_compute|].
    rewrite <- copied_to_origin_spec. by vm_compute.
Defined.

Definition ex_parts : Parts := {|
  parts_status := 200;
  parts_headers :=
    [("connection", "Keep-Alive, X-Trace"); ("age", "7"); ("etag", "1");
     ("x-trace", "t"); ("keep-alive", "x"); ("etag", "2")]%string |}.

Lemma response_fields_witness :
  head_status (Head_from_upstream ex_parts) = 200 /\
  values_of "x-trace" (forwardable_fields (Head_from_upstream ex_parts)) = [] /\
  values_of "etag" (stored_fields (forwardable_fields (Head_from_upstream ex_parts)))
  = ["1"; "2"]%string.
Proof.
  assert (valid_parts ex_parts) as Hparts.
  { split; [split; vm_compute; [discriminate|reflexivity]|].
    repeat (constructor; [split; vm_compute; reflexivity|]). constructor. }
  destruct (response_fields ex_parts Hparts) as (Hs & _ & _ & Hf). split; [exact Hs|]. split.
  - destruct (Hf "x-trace"%string) as (_ & Hd & _). apply Hd. right. right. right.
    apply elem_of_connection_options, existsb_eqb. vm_compute. reflexivity.
  - destruct (Hf "etag"%string) as (_ & _ & Hkept). destruct Hkept as [_ ->]; [|by vm_compute].
    intros [?|[?|[Hin%existsb_eqb|Hc%elem_of_connection_options%existsb_eqb]]];
      try discriminate; vm_compute in *; discriminate.
Defined.
