(* ===== verification/Body.v ===== *)
(** Bodies on their way through the proxy ([src/proxy.rs]): [pump_request_body]
    copies the client's body to the origin, [IdleTimeout] gives up an origin
    body that has gone idle, and [Tee] copies the origin's body for the cache
    while it passes through. A stream is what its polls return; the callback
    that [Tee] owns is a value whose call and whose drop are recorded, because
    dropping it ends the flight it holds. *)

From stdpp Require Import base tactics numbers option list strings sets.
From S2P Require Import Prelude RustStd Http.

Local Open Scope N_scope.

(** [std::task::Poll] *)
Inductive Poll (A : Type) :=
| Pending
| Ready (a : A).
Arguments Pending {_}.
Arguments Ready {_} _.

(** [Option<Result<Bytes, E>>], the item type of a body stream *)
Inductive Item (E : Type) :=
| Chunk (chunk : Bytes)
| Error (e : E)
| End.
Arguments Chunk {_} _.
Arguments Error {_} _.
Arguments End {_}.

(** the items that a sequence of polls returned *)
Definition items {E} (polls : list (Poll (Item E))) : list (Item E) :=
  omap (fun p => match p with Ready item => Some item | Pending => None end) polls.

Definition concat_bytes (chunks : list Bytes) : Bytes := String.concat "" chunks.

Lemma concat_bytes_cons c cs : concat_bytes (c :: cs) = (c +:+ concat_bytes cs)%string.
Proof.
  unfold concat_bytes. destruct cs as [|c' cs]; [by rewrite string_app_nil_r|done].
Qed.

Lemma concat_bytes_app cs cs' :
  concat_bytes (cs ++ cs') = (concat_bytes cs +:+ concat_bytes cs')%string.
Proof.
  induction cs as [|c cs IH]; [done|].
  change ((c :: cs) ++ cs') with (c :: (cs ++ cs')).
  by rewrite !concat_bytes_cons, IH, string_app_assoc.
Qed.

Lemma str_len_app a b : str_len (a +:+ b)%string = str_len a + str_len b.
Proof. unfold str_len. rewrite string_length_app. lia. Qed.

(** ** [Tee] *)

Section tee.
Context {E F : Type}.

(** a body on its way into the cache, [F] being the callbacks *)
Record BodyCopy := {
  buffer : Bytes;
  copy_limit : N;
  finish : F;
}.

Record Tee := {
  tee_length : option N;
  copy : option BodyCopy;
}.

(** what became of a callback *)
Inductive Outcome :=
| Called (f : F) (body : Bytes)
| Dropped (f : F).

(** [self.copy = None] *)
Definition drop_copy (t : Tee) : list Outcome * Tee :=
  (match copy t with Some c => [Dropped (finish c)] | None => [] end,
   {| tee_length := tee_length t; copy := None |}).

Definition Tee_finish (t : Tee) : list Outcome * Tee :=
  match copy t with
  | None => ([], t)
  | Some c =>
      (if is_none_or (tee_length t) (fun length => length =? str_len (buffer c))
       then [Called (finish c) (buffer c)] else [Dropped (finish c)],
       {| tee_length := tee_length t; copy := None |})
  end.

Definition Tee_new (length : option N) (copy : option BodyCopy) : list Outcome * Tee :=
  let tee := {| tee_length := length; copy := copy |} in
  if bool_decide (length = Some 0) then Tee_finish tee else ([], tee).

(** [Tee::poll_next], given what the inner stream's poll returned *)
Definition Tee_poll_next (inner : Poll (Item E)) (t : Tee)
    : Poll (Item E) * (list Outcome * Tee) :=
  match inner with
  | Pending => (Pending, ([], t))
  | Ready item =>
      (Ready item,
       match item with
       | Chunk chunk =>
           match copy t with
           | None => ([], t)
           | Some c =>
               if copy_limit c <? str_len (buffer c) + str_len chunk then drop_copy t
               else
                 let c := {| buffer := (buffer c +:+ chunk)%string;
                             copy_limit := copy_limit c; finish := finish c |} in
                 let t := {| tee_length := tee_length t; copy := Some c |} in
                 if bool_decide (tee_length t = Some (str_len (buffer c)))
                 then Tee_finish t else ([], t)
           end
       | Error _ => drop_copy t
       | End => Tee_finish t
       end)
  end.

Fixpoint Tee_run (polls : list (Poll (Item E))) (t : Tee)
    : list (Poll (Item E)) * (list Outcome * Tee) :=
  match polls with
  | [] => ([], ([], t))
  | p :: polls =>
      let '(item, (o, t)) := Tee_poll_next p t in
      let '(items, (os, t)) := Tee_run polls t in
      (item :: items, (o ++ os, t))
  end.

(** the life of a [Tee]: created, polled, and dropped with the response *)
Definition Tee_life (length : option N) (copy : option BodyCopy)
    (polls : list (Poll (Item E))) : list (Poll (Item E)) * list Outcome :=
  let '(o1, t) := Tee_new length copy in
  let '(items, (o2, t)) := Tee_run polls t in
  (items, o1 ++ o2 ++ fst (drop_copy t)).

(** the items bring the rest of the body [b] that starts with [buf], and it
    fits: the chunks up to some point complete it, and it is as long as
    announced, or the stream ends there *)
Definition whole_from (length : option N) (limit : N) (buf : Bytes) (its : list (Item E))
    (b : Bytes) : Prop :=
  exists chunks rest,
    its = map Chunk chunks ++ rest /\ b = (buf +:+ concat_bytes chunks)%string /\
    str_len b <= limit /\
    match length with
    | Some n => str_len b = n
    | None => exists rest', rest = End :: rest'
    end.

(** the polls brought the whole body *)
Definition whole_body (length : option N) (limit : N) (polls : list (Poll (Item E)))
    (b : Bytes) : Prop := whole_from length limit "" (items polls) b.

(** the body that the items bring: up to the stream's end, or up to the
    announced length *)
Definition brings (length : option N) (its : list (Item E)) (b : Bytes) : Prop :=
  exists chunks rest, its = map Chunk chunks ++ rest /\ b = concat_bytes chunks /\
    (length = Some (str_len b) \/ exists rest', rest = End :: rest').

Lemma whole_from_brings length limit its b :
  whole_from length limit "" its b -> brings length its b.
Proof.
  intros (chunks & rest & -> & -> & _ & Hend). exists chunks, rest.
  split; [done|]. split; [done|]. destruct length as [n|]; [left; by f_equal|by right].
Qed.

Lemma brings_nothing its : brings (Some 0) its "".
Proof. exists [], its. split; [done|]. split; [done|by left]. Qed.

(** the right end for the callback of the copy [c], given the items to come *)
Definition right_outcome (length : option N) (c : BodyCopy) (its : list (Item E))
    (os : list Outcome) : Prop :=
  (exists b, os = [Called (finish c) b] /\ whole_from length (copy_limit c) (buffer c) its b) \/
  (os = [Dropped (finish c)] /\ forall b, ~ whole_from length (copy_limit c) (buffer c) its b).

Lemma whole_from_stop length limit buf its b :
  length <> Some (str_len buf) -> (forall c its', its <> Chunk c :: its') ->
  whole_from length limit buf its b <->
  length = None /\ b = buf /\ str_len buf <= limit /\ exists its', its = End :: its'.
Proof.
  intros Hl Hc. split.
  - intros ([|c cs] & rest & -> & -> & Hlim & Hend); [|by edestruct Hc].
    unfold concat_bytes in *. simpl in *. rewrite string_app_nil_r in *.
    destruct length as [n|]; [|eauto]. by subst n.
  - intros (-> & -> & Hlim & its' & ->). exists [], (End :: its'). unfold concat_bytes. simpl.
    rewrite string_app_nil_r. eauto.
Qed.

Lemma whole_from_chunk length limit buf c its b :
  length <> Some (str_len buf) ->
  whole_from length limit buf (Chunk c :: its) b <->
  whole_from length limit (buf +:+ c)%string its b.
Proof.
  intros Hl. unfold whole_from. split.
  - intros ([|c' cs] & rest & Hits & -> & Hlim & Hend); simpl in Hits.
    + unfold concat_bytes in *. simpl in *. rewrite string_app_nil_r in *. subst rest.
      destruct length as [n|]; [by subst n|by destruct Hend].
    + injection Hits as <- ->. rewrite concat_bytes_cons, string_app_assoc in *. eauto 10.
  - intros (cs & rest & -> & -> & Hlim & Hend). exists (c :: cs), rest.
    rewrite concat_bytes_cons, string_app_assoc. eauto.
Qed.

Lemma whole_from_over length limit buf its b :
  limit < str_len buf -> ~ whole_from length limit buf its b.
Proof. intros Hb (cs & rest & _ & -> & Hlim & _). rewrite str_len_app in Hlim. lia. Qed.

Lemma whole_from_now limit buf its :
  str_len buf <= limit -> whole_from (Some (str_len buf)) limit buf its buf.
Proof.
  intros Hlim. exists [], its. unfold concat_bytes. simpl. by rewrite string_app_nil_r.
Qed.

Definition grown (c : BodyCopy) (chunk : Bytes) : BodyCopy := {|
  buffer := (buffer c +:+ chunk)%string; copy_limit := copy_limit c; finish := finish c |}.

Lemma right_outcome_chunk length c chunk its os :
  length <> Some (str_len (buffer c)) -> right_outcome length (grown c chunk) its os ->
  right_outcome length c (Chunk chunk :: its) os.
Proof.
  intros Hl [(b & -> & Hb)|[-> Hno]]; [left|right].
  - exists b. split; [done|]. by apply whole_from_chunk.
  - split; [done|]. intros b. rewrite whole_from_chunk by done. apply Hno.
Qed.

Lemma right_outcome_over length c its :
  copy_limit c < str_len (buffer c) -> right_outcome length c its [Dropped (finish c)].
Proof. intros Hover. right. split; [done|]. intros b. by apply whole_from_over. Qed.

Lemma right_outcome_now c its :
  str_len (buffer c) <= copy_limit c ->
  right_outcome (Some (str_len (buffer c))) c its [Called (finish c) (buffer c)].
Proof. intros Hlim. left. eexists. split; [done|]. by apply whole_from_now. Qed.

Lemma right_outcome_fail length c its :
  length <> Some (str_len (buffer c)) -> (forall chunk its', its <> Chunk chunk :: its') ->
  (forall its', its <> End :: its') ->
  right_outcome length c its [Dropped (finish c)].
Proof.
  intros Hl Hc He. right. split; [done|]. intros b. rewrite whole_from_stop by done.
  intros (_ & _ & _ & its' & ?). by eapply He.
Qed.

Lemma right_outcome_end length c its :
  length <> Some (str_len (buffer c)) -> str_len (buffer c) <= copy_limit c ->
  right_outcome length c (End :: its)
    (if is_none_or length (fun length => length =? str_len (buffer c))
     then [Called (finish c) (buffer c)] else [Dropped (finish c)]).
Proof.
  intros Hl Hlim. destruct length as [n|]; simpl.
  - destruct (N.eqb_spec n (str_len (buffer c))) as [->|_]; [done|].
    right. split; [done|]. intros b. rewrite whole_from_stop by done. by intros [? _].
  - left. eexists. split; [done|]. apply whole_from_stop; eauto 10.
Qed.

(** a [Tee] whose callback is gone does nothing more *)
Lemma Tee_run_spent length polls :
  Tee_run polls {| tee_length := length; copy := None |} =
  (polls, ([], {| tee_length := length; copy := None |})).
Proof.
  induction polls as [|p polls IH]; [done|]. simpl.
  destruct p as [|[c|e|]]; simpl; by rewrite IH.
Qed.

Lemma Tee_run_outcome length c polls :
  length <> Some (str_len (buffer c)) -> str_len (buffer c) <= copy_limit c ->
  let '(its, (os, t)) := Tee_run polls {| tee_length := length; copy := Some c |} in
  its = polls /\ right_outcome length c (items polls) (os ++ fst (drop_copy t)).
Proof.
  revert c. induction polls as [|p polls IH]; intros c Hl Hlim; simpl.
  { split; [done|]. by apply right_outcome_fail. }
  destruct p as [|[chunk|e|]]; simpl.
  - specialize (IH c Hl Hlim). destruct (Tee_run polls _) as [its [os t]].
    destruct IH as [-> IH]. done.
  - destruct (N.ltb_spec (copy_limit c) (str_len (buffer c) + str_len chunk)) as [Hover|Hfit];
      rewrite <- str_len_app in *.
    { simpl. rewrite Tee_run_spent. split; [done|].
      by apply right_outcome_chunk, (right_outcome_over _ (grown c chunk)). }
    case_bool_decide as Hdone; simpl.
    + rewrite Hdone in *. unfold Tee_finish. simpl. rewrite N.eqb_refl. simpl.
      rewrite Tee_run_spent. split; [done|].
      by apply right_outcome_chunk, (right_outcome_now (grown c chunk)).
    + specialize (IH (grown c chunk) Hdone Hfit). unfold grown in IH.
      destruct (Tee_run polls _) as [its [os t]]. destruct IH as [-> IH].
      split; [done|]. by apply right_outcome_chunk.
  - rewrite Tee_run_spent. split; [done|]. by apply right_outcome_fail.
  - unfold Tee_finish. simpl. rewrite Tee_run_spent. split; [done|].
    simpl. rewrite !app_nil_r. by apply right_outcome_end.
Qed.

(** what one poll does to a live copy: nothing, or it grows by a chunk, or its
    callback ends, called with the whole body or dropped *)
Inductive tee_step (length : option N) (p : Poll (Item E)) (c : BodyCopy)
    : list Outcome -> option BodyCopy -> Prop :=
| tee_waits : p = Pending -> tee_step length p c [] (Some c)
| tee_grows chunk :
    p = Ready (Chunk chunk) -> length <> Some (str_len (buffer (grown c chunk))) ->
    tee_step length p c [] (Some (grown c chunk))
| tee_completes chunk :
    p = Ready (Chunk chunk) -> length = Some (str_len (buffer (grown c chunk))) ->
    tee_step length p c [Called (finish c) (buffer (grown c chunk))] None
| tee_ends : p = Ready End -> tee_step length p c [Called (finish c) (buffer c)] None
| tee_drops : tee_step length p c [Dropped (finish c)] None.

Lemma Tee_poll_next_step p length c :
  exists os copied, tee_step length p c os copied /\
    Tee_poll_next p {| tee_length := length; copy := Some c |} =
      (p, (os, {| tee_length := length; copy := copied |})).
Proof.
  destruct p as [|[chunk|e|]]; simpl.
  - do 2 eexists. split; [by apply tee_waits|done].
  - destruct (_ <? _); [do 2 eexists; split; [apply tee_drops|done]|].
    case_bool_decide as Hl; do 2 eexists; split.
    + by eapply tee_completes.
    + unfold Tee_finish. simpl. rewrite Hl. simpl. by rewrite N.eqb_refl.
    + by eapply tee_grows.
    + done.
  - do 2 eexists. split; [apply tee_drops|done].
  - unfold Tee_finish. simpl. destruct (is_none_or _ _); do 2 eexists; split;
      [by apply tee_ends|done|apply tee_drops|done].
Qed.

Lemma Tee_poll_next_spent p length :
  Tee_poll_next p {| tee_length := length; copy := None |} =
    (p, ([], {| tee_length := length; copy := None |})).
Proof. by destruct p as [|[]]. Qed.

(** C16. [Tee] hands every poll of the origin's body on unchanged, and in its
    life the callback has exactly one end. It is called when, and only when,
    the polls brought a whole body within the limit, as long as the announced
    length or up to the stream's end when none was announced, and it is
    called with exactly that body; otherwise (the body passed the limit,
    failed, fell short, or the client went away) it is dropped. *)
Theorem Tee_copies_whole_bodies length limit f polls :
  let '(passed, os) :=
    Tee_life length (Some {| buffer := ""; copy_limit := limit; finish := f |}) polls in
  passed = polls /\
  ((exists b, os = [Called f b] /\ whole_body length limit polls b) \/
   (os = [Dropped f] /\ forall b, ~ whole_body length limit polls b)).
Proof.
  unfold Tee_life, Tee_new. case_bool_decide as H0.
  - subst length. unfold Tee_finish. simpl. rewrite Tee_run_spent. split; [done|].
    left. exists ""%string. split; [done|]. apply whole_from_now. apply N.le_0_l.
  - pose proof (Tee_run_outcome length {| buffer := ""; copy_limit := limit; finish := f |} polls
      H0 (N.le_0_l _)) as Hrun.
    destruct (Tee_run polls _) as [its [os t]]. exact Hrun.
Qed.
End tee.
Arguments BodyCopy : clear implicits.
Arguments Tee : clear implicits.
Arguments Outcome : clear implicits.

(** ** [IdleTimeout] *)

(** the errors of an origin body: hyper's own, and going idle *)
Inductive BodyError (E : Type) :=
| Other (e : E)
| TimedOut.
Arguments Other {_} _.
Arguments TimedOut {_}.

(** the mapping of [origin_body]'s stream *)
Definition origin_item {E} (item : Item E) : Item (BodyError E) :=
  match item with Chunk c => Chunk c | Error e => Error (Other e) | End => End end.

Definition origin_poll {E} (p : Poll (Item E)) : Poll (Item (BodyError E)) :=
  match p with Pending => Pending | Ready item => Ready (origin_item item) end.

Record IdleTimeout := {
  idle : Duration;
  (** when [sleep] ends *)
  sleep : Instant;
  waiting : bool;
  expired : bool;
}.

Section idle_timeout.
Context {E : Type}.
(** whether a sleep until a deadline has ended at a time *)
Variable timer : Instant -> Instant -> bool.

(** one poll: the time, and what the origin's body returns if it is polled *)
Record BodyPoll := {
  poll_at : Instant;
  polled : Poll (Item E);
}.

(** [origin_body], at time [now] *)
Definition origin_body (now : Instant) (idle : Duration) : IdleTimeout :=
  {| idle := idle; sleep := N.min (now + idle) Instant_MAX; waiting := false; expired := false |}.

Definition set_waiting (waiting : bool) (s : IdleTimeout) : IdleTimeout :=
  {| idle := idle s; sleep := sleep s; waiting := waiting; expired := expired s |}.

(** [IdleTimeout::poll_next], and by how much it increments [idle_timeouts] *)
Definition IdleTimeout_poll_next (p : BodyPoll) (s : IdleTimeout)
    : Run (Poll (Item (BodyError E)) * N * IdleTimeout) :=
  if expired s then Done (Ready End, 0, s) else
  s ← (if negb (waiting s) then
         deadline ← Instant_add (poll_at p) (idle s);
         Done {| idle := idle s; sleep := deadline; waiting := true; expired := expired s |}
       else Done s);
  match polled p with
  | Ready item => Done (Ready (origin_item item), 0, set_waiting false s)
  | Pending =>
      if timer (sleep s) (poll_at p) then
        Done (Ready (Error TimedOut), 1,
              {| idle := idle s; sleep := sleep s; waiting := waiting s; expired := true |})
      else Done (Pending, 0, s)
  end.

Fixpoint IdleTimeout_run (polls : list BodyPoll) (s : IdleTimeout)
    : Run (list (Poll (Item (BodyError E))) * N * IdleTimeout) :=
  match polls with
  | [] => Done ([], 0, s)
  | p :: polls =>
      '(out, n, s) ← IdleTimeout_poll_next p s;
      '(outs, m, s) ← IdleTimeout_run polls s;
      Done (out :: outs, n + m, s)
  end.

Definition is_ready (p : BodyPoll) : bool :=
  match polled p with Ready _ => true | Pending => false end.

(** [polls] is [quiet], a wait in which the origin sent nothing, after [before] *)
Definition wait_starts (s : IdleTimeout) (before quiet : list BodyPoll) (d : Instant) : Prop :=
  match before with
  | [] => if waiting s then d = sleep s
          else exists p, head quiet = Some p /\ d = poll_at p + idle s
  | _ => (exists p, last before = Some p /\ is_ready p = true) /\
         exists p, head quiet = Some p /\ d = poll_at p + idle s
  end.

Lemma IdleTimeout_run_expired polls s :
  expired s = true ->
  IdleTimeout_run polls s = Done (map (fun _ => Ready End) polls, 0, s).
Proof.
  intros Hs. induction polls as [|p polls IH]; [done|]. simpl.
  unfold IdleTimeout_poll_next. rewrite Hs. simpl. by rewrite IH.
Qed.

(** a poll passes on what the origin's body returned, or gives the body up *)
Lemma IdleTimeout_poll_next_passes p s out n s' :
  expired s = false -> IdleTimeout_poll_next p s = Done (out, n, s') ->
  (out = origin_poll (polled p) /\ n = 0 /\ expired s' = false) \/
  (out = Ready (Error TimedOut) /\ n = 1 /\ expired s' = true).
Proof.
  intros Hs. unfold IdleTimeout_poll_next. rewrite Hs. intros [s1 [Hs1 Hrest]]%Run_bind_Done.
  assert (expired s1 = false) as He.
  { destruct (waiting s); simpl in Hs1; [by injection Hs1 as <-|].
    apply Run_bind_Done in Hs1 as (d & _ & [= <-]). done. }
  destruct (polled p) as [|item]; [destruct (timer _ _)|]; injection Hrest as <- <- <-; auto.
Qed.

(** no poll panics at a time to which the idle time can be added *)
Lemma IdleTimeout_poll_next_Done p s :
  poll_at p + idle s <= Instant_MAX ->
  exists out n s', IdleTimeout_poll_next p s = Done (out, n, s') /\ idle s' = idle s.
Proof.
  intros Hp. unfold IdleTimeout_poll_next. destruct (expired s); [by do 3 eexists|].
  assert (Instant_add (poll_at p) (idle s) = Done (poll_at p + idle s)) as Hadd
    by (by apply Instant_add_Done).
  destruct (waiting s) eqn:Hw; simpl; [|rewrite Hadd; simpl];
    (destruct (polled p) as [|item]; [destruct (timer _ _)|]; by do 3 eexists).
Qed.

Hypothesis timer_after : forall deadline now, timer deadline now = true -> deadline <= now.

(** what a run that starts in [s] did: passed everything on, or gave up *)
Definition idle_outcome (s : IdleTimeout) (polls : list BodyPoll)
    (outs : list (Poll (Item (BodyError E)))) (n : N) : Prop :=
  (outs = map (fun p => origin_poll (polled p)) polls /\ n = 0) \/
  (exists before quiet p after d,
     polls = before ++ (quiet ++ [p]) ++ after /\
     outs = map (fun p => origin_poll (polled p)) (before ++ quiet) ++
            Ready (Error TimedOut) :: map (fun _ => Ready End) after /\
     n = 1 /\ Forall (fun p => polled p = Pending) (quiet ++ [p]) /\
     wait_starts s before (quiet ++ [p]) d /\ d <= poll_at p).

(** the deadline that counts at a poll *)
Definition deadline_at (p : BodyPoll) (s : IdleTimeout) : Instant :=
  if waiting s then sleep s else poll_at p + idle s.

Lemma poll_next_cases p s out n s' :
  expired s = false -> IdleTimeout_poll_next p s = Done (out, n, s') ->
  idle s' = idle s /\
  ((is_ready p = true /\ out = origin_poll (polled p) /\ n = 0 /\
    waiting s' = false /\ expired s' = false) \/
   (polled p = Pending /\ out = Pending /\ n = 0 /\
    waiting s' = true /\ expired s' = false /\ sleep s' = deadline_at p s) \/
   (polled p = Pending /\ out = Ready (Error TimedOut) /\ n = 1 /\ expired s' = true /\
    deadline_at p s <= poll_at p)).
Proof.
  intros Hs. unfold IdleTimeout_poll_next, deadline_at, is_ready. rewrite Hs.
  intros [s1 [Hs1 Hrest]]%Run_bind_Done.
  assert (s1 = {| idle := idle s; sleep := deadline_at p s; waiting := true; expired := false |})
    as ->.
  { unfold deadline_at. destruct s as [i sl [] ex]; simpl in *; [by simplify_eq|].
    apply Run_bind_Done in Hs1 as (d & [-> _]%Instant_add_Done & [= <-]). by subst. }
  destruct (polled p) as [|item].
  - simpl in Hrest. destruct (timer _ _) eqn:Ht; simplify_eq/=.
    + split; [done|]. right; right. apply timer_after in Ht. by unfold deadline_at in Ht.
    + split; [done|]. by right; left.
  - simplify_eq/=. split; [done|]. by left.
Qed.

Lemma IdleTimeout_run_outcome polls s outs n s' :
  expired s = false -> IdleTimeout_run polls s = Done (outs, n, s') ->
  idle_outcome s polls outs n.
Proof.
  revert s outs n. induction polls as [|p polls IH]; intros s outs n Hs; simpl.
  { intros [= <- <- <-]. by left. }
  intros ([[out n1] s1] & Hp & ([[outs1 m] s2] & Hrun & Heq)%Run_bind_Done)%Run_bind_Done.
  simplify_eq. destruct (poll_next_cases _ _ _ _ _ Hs Hp) as [Hidle [Hc|[Hc|Hc]]].
  - destruct Hc as (Hr & -> & -> & Hw & Hs1).
    destruct (IH _ _ _ Hs1 Hrun) as [[-> ->]|(bef & q & x & aft & d & -> & -> & -> & Hq & Hd & Hle)].
    { by left. }
    right. exists (p :: bef), q, x, aft, d. do 4 (split; [done|]). split; [|done].
    unfold wait_starts in *. rewrite Hw, Hidle in Hd. destruct bef as [|b bef]; [by eauto|].
    destruct Hd as [(b' & Hb & ?) ?]. split; [|done]. exists b'. split; [|done].
    by rewrite <- Hb.
  - destruct Hc as (Hpend & -> & -> & Hw & Hs1 & Hsl).
    destruct (IH _ _ _ Hs1 Hrun) as [[-> ->]|(bef & q & x & aft & d & -> & -> & -> & Hq & Hd & Hle)].
    { left. simpl. by rewrite Hpend. }
    right. unfold wait_starts in *. rewrite Hw, Hidle, Hsl in Hd. destruct bef as [|b bef].
    + exists [], (p :: q), x, aft, d. simpl. rewrite Hpend. do 3 (split; [done|]).
      split; [by constructor|]. split; [|done]. unfold deadline_at in Hd.
      destruct (waiting s); [done|]. eauto.
    + exists (p :: b :: bef), q, x, aft, d. simpl. rewrite Hpend. do 4 (split; [done|]).
      split; [|done]. done.
  - destruct Hc as (Hpend & -> & -> & Hs1 & Hle).
    rewrite IdleTimeout_run_expired in Hrun by done. simplify_eq.
    right. exists [], [], p, polls, (deadline_at p s). simpl. do 3 (split; [done|]).
    split; [by repeat constructor|]. split; [|done]. unfold deadline_at.
    destruct (waiting s); [done|]. eauto.
Qed.

(** C25. [IdleTimeout] passes the origin's body on item by item. It gives it up
    only after one wait in which the origin sent nothing for the whole idle
    time, and then the stream gives one [TimedOut] error, ends for good, and
    counts one idle timeout. The wait is measured from the first poll after the
    last item, so time in which a slow client asked for nothing does not count. *)
Theorem idle_timeout_outcome now idle_time polls outs n s' :
  IdleTimeout_run polls (origin_body now idle_time) = Done (outs, n, s') ->
  (outs = map (fun p => origin_poll (polled p)) polls /\ n = 0) \/
  (exists before quiet p after first,
     polls = before ++ quiet ++ p :: after /\
     outs = map (fun p => origin_poll (polled p)) before ++
            map (fun _ => Pending) quiet ++
            Ready (Error TimedOut) :: map (fun _ => Ready End) after /\
     n = 1 /\
     Forall (fun p => polled p = Pending) (quiet ++ [p]) /\
     (before = [] \/ exists b, last before = Some b /\ is_ready b = true) /\
     head (quiet ++ [p]) = Some first /\ poll_at first + idle_time <= poll_at p).
Proof.
  intros Hrun. apply IdleTimeout_run_outcome in Hrun; [|done].
  destruct Hrun as [?|(bef & q & p & aft & d & -> & -> & -> & Hq & Hd & Hle)]; [by left|right].
  unfold wait_starts in Hd. simpl in Hd.
  assert ((bef = [] \/ exists b, last bef = Some b /\ is_ready b = true) /\
    exists first, head (q ++ [p]) = Some first /\ d = poll_at first + idle_time)
    as (Hbef & first & Hfirst & ->).
  { destruct bef; [|destruct Hd]; eauto. }
  exists bef, q, p, aft, first. rewrite <- !app_assoc, map_app, <- app_assoc.
  split; [done|]. split; [|done]. do 2 f_equal. apply Forall_app in Hq as [Hq _].
  clear -Hq. induction Hq as [|x q Hx _ IH]; [done|]. simpl. by rewrite Hx, IH.
Qed.

(** C38. An upstream timeout of 2^63 seconds or more, which the configuration
    accepts, ends the whole process: the first poll of any origin body panics
    on [Instant::now() + this.idle], whatever the origin has sent. *)
Theorem huge_idle_panics created secs p :
  2 ^ 63 <= secs ->
  IdleTimeout_poll_next p (origin_body created (Duration_from_secs secs)) = Panic.
Proof.
  intros Hsecs. unfold IdleTimeout_poll_next. simpl. unfold Instant_add.
  destruct (N.leb_spec (poll_at p + Duration_from_secs secs) Instant_MAX) as [Hle|]; [|done].
  unfold Duration_from_secs, Instant_MAX, i64_MAX, NANOS in *. lia.
Qed.
End idle_timeout.

(** ** The client's body on its way to the origin *)

Section pump.
Context {E : Type}.

(** the rest of [pump_request_body]'s loop: [payload] is what is still to come,
    and [accepted k] is whether the channel takes the [k]-th frame *)
Fixpoint pump_loop (payload : list (Bytes + E)) (accepted : nat -> bool) : list (Bytes + E) :=
  match payload with
  | [] => []
  | chunk :: payload =>
      let failed := match chunk with inr _ => true | inl _ => false end in
      if accepted 0%nat
      then chunk :: (if failed then [] else pump_loop payload (fun k => accepted (S k)))
      else []
  end.

(** [pump_request_body]: the frames that the channel took *)
Definition pump_request_body (first : Bytes) (payload : list (Bytes + E))
    (accepted : nat -> bool) : list (Bytes + E) :=
  if accepted 0%nat then inl first :: pump_loop payload (fun k => accepted (S k)) else [].

(** [request_body]: the status of the error response, or the body and the
    frames that the channel took *)
Definition request_body (payload : list (Bytes + E)) (accepted : nat -> bool)
    : E + list (Bytes + E) :=
  match payload with
  | [] => inr []
  | inr e :: _ => inl e
  | inl first :: payload => inr (pump_request_body first payload accepted)
  end.

(** the payload up to its first error, which is included *)
Fixpoint up_to_error (payload : list (Bytes + E)) : list (Bytes + E) :=
  match payload with
  | [] => []
  | inr e :: _ => [inr e]
  | inl chunk :: payload => inl chunk :: up_to_error payload
  end.

Lemma pump_loop_up_to_error payload accepted :
  exists k, pump_loop payload accepted = take k (up_to_error payload) /\
    ((length (up_to_error payload) <= k)%nat \/ accepted k = false).
Proof.
  revert accepted. induction payload as [|[c|e] payload IH]; intros accepted; simpl.
  - exists 0%nat. split; [done|]. by left.
  - destruct (accepted 0%nat) eqn:Ha; [|by exists 0%nat; auto].
    destruct (IH (fun k => accepted (S k))) as (k & -> & Hk). exists (S k). simpl.
    split; [done|]. destruct Hk as [?|?]; [left; lia|by right].
  - destruct (accepted 0%nat) eqn:Ha; [|by exists 0%nat; auto]. exists 1%nat. auto.
Qed.

(** C26. The origin receives the client's body chunk by chunk and in order. The
    frames are the payload up to and including its first error, so a body that
    fails is never passed off as a complete, truncated one; they stop earlier
    only when the origin request has closed the channel. An error in place of
    the first chunk is the client's error instead, and nothing is sent. *)
Theorem request_body_frames payload accepted :
  match request_body payload accepted with
  | inl e => exists rest, payload = inr e :: rest
  | inr frames =>
      (forall e rest, payload <> inr e :: rest) /\
      exists k, frames = take k (up_to_error payload) /\
        (frames = up_to_error payload \/ accepted k = false) /\
        ((forall e, inr e ∉ payload) -> up_to_error payload = payload) /\
        (forall pre e post, payload = map inl pre ++ inr e :: post ->
           up_to_error payload = map inl pre ++ [inr e])
  end.
Proof.
  assert ((forall e : E, inr e ∉ payload) -> up_to_error payload = payload) as Hall.
  { induction payload as [|[c|e] payload IH]; intros Hno; simpl; [done| |].
    - rewrite IH; [done|]. set_solver.
    - exfalso. apply (Hno e). left. }
  assert (forall pre (e : E) post, payload = map inl pre ++ inr e :: post ->
    up_to_error payload = map inl pre ++ [inr e]) as Herr.
  { intros pre e post ->. clear Hall. induction pre as [|c pre IH]; simpl; [done|].
    by rewrite IH. }
  destruct payload as [|[first|e] payload]; simpl in *; [|split; [done|]|by eauto].
  - split; [done|]. exists 0%nat. auto.
  - unfold pump_request_body. destruct (accepted 0%nat) eqn:Ha.
    + destruct (pump_loop_up_to_error payload (fun k => accepted (S k))) as (k & -> & Hk).
      exists (S k). split; [done|]. split; [|done]. destruct Hk as [Hk|Hk]; [|by right].
      left. by rewrite take_ge.
    + exists 0%nat. split; [done|]. split; [by right|done].
Qed.
End pump.

(** ** Examples *)

(** the timer of an ideal clock *)
Definition ideal_timer (deadline now : Instant) : bool := deadline <=? now.

Definition ex_polls : list (@BodyPoll unit) :=
  [{| poll_at := 5; polled := Ready (Chunk "ab") |}; {| poll_at := 6; polled := Pending |};
   {| poll_at := 20; polled := Pending |}].

Lemma idle_timeout_outcome_witness :
  exists outs s', IdleTimeout_run ideal_timer ex_polls (origin_body 0 10) = Done (outs, 1, s') /\
  exists before quiet (p : @BodyPoll unit) after (first : @BodyPoll unit),
     ex_polls = before ++ quiet ++ p :: after /\ poll_at first + 10 <= poll_at p.
Proof.
  do 2 eexists. split; [reflexivity|].
  destruct (idle_timeout_outcome ideal_timer (fun d n H => proj1 (N.leb_le d n) H)
              0 10 ex_polls _ _ _ eq_refl)
    as [[_ H]|(bef & q & p & aft & first & H & _ & _ & _ & _ & _ & Hle)]; [discriminate|].
  exists bef, q, p, aft, first. by split.
Defined.

Lemma huge_idle_panics_witness :
  IdleTimeout_poll_next ideal_timer {| poll_at := 5; polled := Ready (Chunk "ab") : Poll (Item unit) |}
    (origin_body 0 (Duration_from_secs (2 ^ 63))) = Panic.
Proof. apply huge_idle_panics. lia. Defined.
