(* ===== verification/Provenance.v ===== *)
(** Where stored responses come from. A response in the store was stored for
    the URI of its key by a request that [storable] let store it, its body is
    the whole body that the origin sent in that exchange, and a 304 may have
    freshened it since; an asset was read from the file of its key. [sound_by] says so of a whole store, with what is known
    of it: the owner of each generation, which is the URI and the [Vary] names
    of everything stored under it, and the store's limits. Each access of
    [Store] keeps it, with knowledge that only grows; and the two accesses of a
    lookup find only what may be shared with its request, whatever the store
    became in between. *)

From stdpp Require Import base tactics option list gmap strings.
From S2P Require Import Prelude RustStd Http Directives Policy Moka Store StoreInvariant StoreTheorems Upstream Body.

Local Open Scope N_scope.

(** the cache key of a request *)
Definition uri_key `{HttpOps} (req : HttpRequest) : PrimaryKey :=
  let client := ClientInfo_from_request req in
  PrimaryKey_new (Upstream.scheme client) (Upstream.host client)
    (unwrap_or (uri_path_and_query req) "").

Definition policy_of `{HttpOps} (req : HttpRequest) : RequestPolicy :=
  RequestPolicy_new (req_method req) (req_headers req).

(** what came from outside: the heads of the origin's responses, each with the
    items that its body brought, and the contents of files, each with its path
    and the entity tag that it was given *)
Class OriginLog := {
  exchanged : Parts -> list (Item unit) -> Prop;
  file_read : string -> Bytes -> string -> Prop;
}.

(** the origin sent a response with this head and this body, which was whole:
    it had the announced length, or its stream ended after it *)
Definition sent `{HttpOps, OriginLog} (parts : Parts) (b : Bytes) : Prop :=
  exists its, exchanged parts its /\ brings (content_length (Head_from_upstream parts)) its b.

Lemma sent_nothing `{HttpOps, OriginLog} parts :
  (exists its, exchanged parts its) -> content_length (Head_from_upstream parts) = Some 0 ->
  sent parts "".
Proof. intros (its & Hits) Hl. exists its. rewrite Hl. split; [done|apply brings_nothing]. Qed.

Section provenance.
Context `{Hops : HttpOps, Log : OriginLog, EntriesOps : !MokaOps Key Entry, IndexOps : !MokaOps PrimaryKey Index}.
Context `{Hlaws : !HttpLaws, !MokaLaws Key Entry, !MokaLaws PrimaryKey Index}.
Implicit Types (s : Store) (p : PrimaryKey) (v : Vary).

(** [r] is what an exchange with the origin stored under [p] and [v], and what
    the exchanges that freshened it since made of it *)
Inductive came_from : PrimaryKey -> Vary -> StoredResponse -> Prop :=
| came_stored now req parts pol v (r : StoredResponse) :
    let head := Head_from_upstream parts in
    storable now (policy_of req) (req_headers req) (head_status head) (head_map head)
      = Some (pol, v) ->
    status r = head_status head -> headers r = stored_fields (forwardable_fields head) ->
    sent parts (body r) -> came_from (uri_key req) v r
| came_freshened now req update a v0 r0 pol v (r : StoredResponse) :
    came_from (uri_key req) v0 r0 ->
    storable now (policy_of req) (req_headers req) (status r0)
      (freshened_map (updated_fields (headers r0) update) a) = Some (pol, v) ->
    status r = status r0 -> headers r = updated_fields (headers r0) update ->
    body r = body r0 -> came_from (uri_key req) v r.

(** ** Sound stores *)

Record sourced (owner : gmap N (PrimaryKey * list HeaderName)) (s : Store) : Prop := {
  so_owner g o : owner !! g = Some o -> g < next_generation s;
  so_index p ix d : moka_contents (index s) !! p = Some (ix, d) ->
    owner !! index_generation ix = Some (p, index_vary ix);
  so_entries rk (r : Arc StoredResponse) d :
    moka_contents (entries s) !! Key_Response rk = Some (Entry_Response r, d) ->
    exists v, came_from (primary rk) v (arc_get r) /\
      owner !! generation rk = Some (primary rk, names v) /\ vary rk = values v;
  so_assets path (a : Asset) d :
    moka_contents (entries s) !! Key_Asset path = Some (Entry_Asset a, d) ->
    file_read path (content a) (etag a);
}.

(** what is known of a store: who owns its generations, and its limits, which
    never change *)
Record Origins := {
  owner : gmap N (PrimaryKey * list HeaderName);
  life : Duration;
  longest : N;
}.

Record sound_by (o : Origins) (s : Store) : Prop := {
  sb_wf : wf_store s;
  sb_sourced : sourced (owner o) s;
  sb_life : ttl s = life o;
  sb_longest : max_entry s = longest o;
}.

Definition sound_store (s : Store) : Prop := exists o, sound_by o s.

Lemma sound_Store_new size_mb t s :
  Store_new size_mb t = Done s -> t <= Duration_MAX -> sound_store s.
Proof.
  intros Hs%Store_new_Done Ht. exists {| owner := ∅; life := t; longest := max_entry s |}.
  split; [by eapply wf_new_store| |by apply (ns_ttl _ _ _ Hs)|done]. constructor; simpl.
  - intros g o. by rewrite lookup_empty.
  - intros p ix d. by rewrite (ns_index _ _ _ Hs), lookup_empty.
  - intros rk r d. by rewrite (ns_entries _ _ _ Hs), lookup_empty.
  - intros path a d. by rewrite (ns_entries _ _ _ Hs), lookup_empty.
Qed.

(** a store that holds no more than a sound one *)
Lemma sound_smaller o s s' :
  sound_by o s -> wf_store s' -> ttl s' = ttl s -> max_entry s' = max_entry s ->
  next_generation s <= next_generation s' ->
  moka_contents (index s') ⊆ moka_contents (index s) ->
  moka_contents (entries s') ⊆ moka_contents (entries s) ->
  sound_by o s'.
Proof.
  intros [_ [] Hl Hm] Hwf Ht Hm' Hg Hx He. split; [done| |congruence..]. constructor.
  - intros g w Ho. apply so_owner0 in Ho. lia.
  - intros p ix d Hp. eapply so_index0. by eapply lookup_weaken.
  - intros rk r d Hr. eapply so_entries0. by eapply lookup_weaken.
  - intros path a d Ha. eapply so_assets0. by eapply lookup_weaken.
Qed.

Lemma sound_invalidate o p s : sound_by o s -> sound_by o (invalidate p s).
Proof.
  intros Hs. eapply sound_smaller; try done; [by apply wf_invalidate, Hs|].
  etrans; [apply moka_contents_invalidate|apply delete_subseteq].
Qed.

Lemma sound_set_refreshing o keys s : sound_by o s -> sound_by o (set_refreshing keys s).
Proof. intros Hs. eapply sound_smaller; try done. by apply wf_set_refreshing, Hs. Qed.

Lemma sound_run_pending_tasks o now s : sound_by o s -> sound_by o (run_pending_tasks now s).
Proof.
  intros Hs. eapply sound_smaller; try done; [by apply wf_run_pending_tasks, Hs|].
  apply moka_contents_run.
Qed.

Lemma sound_heap o s : sound_by o s -> sound_by o (set_heap_next (heap_next s + 1) s).
Proof. intros Hs. eapply sound_smaller; try done. apply (wf_Arc_new tt), Hs. Qed.

Lemma sound_cache_invalidate o k s :
  sound_by o s -> sound_by o (set_entries (cache_invalidate k (entries s)) s).
Proof.
  intros Hs. eapply sound_smaller; try done; [by apply wf_cache_invalidate, Hs|].
  etrans; [apply moka_contents_invalidate|apply delete_subseteq].
Qed.

(** storing an asset adds no response *)
Lemma insert_asset_responses now path asset s rk e :
  (exists capacity, moka_config (entries s) = entries_config capacity) ->
  moka_contents (entries (insert_asset_entry now path asset s)) !! Key_Response rk = Some e ->
  moka_contents (entries s) !! Key_Response rk = Some e.
Proof.
  intros Hc Hk. eapply lookup_weaken in Hk; [|by apply configured_insert_contents].
  by apply lookup_insert_Some in Hk as [[? _]|[_ Hk]].
Qed.

Lemma sound_insert_asset o now path c et m s :
  str_len c <= max_entry s -> file_read path c et -> sound_by o s ->
  sound_by o (insert_asset_entry now path (new_asset c et m s) s).
Proof.
  intros Hlen Hread [Hwf [] Hl Hm]. split; [by apply wf_insert_asset_entry|constructor; try done|done..].
  - intros rk r d Hr. apply insert_asset_responses in Hr; [by eapply so_entries0|apply Hwf].
  - intros path' a d Ha. simpl in Ha.
    eapply lookup_weaken in Ha; [|apply configured_insert_contents, Hwf].
    by apply lookup_insert_Some in Ha as [[[= <-] [= <- _]]|[_ Ha%so_assets0]].
Qed.

(** an asset that is found was read from the file *)
Lemma sound_stored_asset o now path s a :
  sound_by o s -> stored_asset now path s = Some a -> file_read path (content a) (etag a).
Proof.
  intros [_ Hs _ _]. unfold stored_asset.
  destruct (cache_get now _ (entries s)) as [[a'|r]|] eqn:E; [|done..]. intros [= <-].
  apply cache_get_sound in E as (d & Hc & _). by eapply so_assets.
Qed.

(** ** The accesses of an insertion *)

(** a generation that is reused belongs to the URI and the [Vary] names *)
Lemma sound_reuse o now p v s g :
  sound_by o s -> insert_get_index now p v s = Some g -> owner o !! g = Some (p, names v).
Proof.
  intros [_ Ho _ _]. unfold insert_get_index.
  destruct (cache_get now p (index s)) as [ix|] eqn:E; [|done].
  case_bool_decide as Hn; [|done]. intros [= <-].
  apply cache_get_sound in E as (d & Hc & _). rewrite <- Hn. by eapply so_index.
Qed.

(** a new generation is given to a URI and [Vary] names *)
Definition own (g : N) (p : PrimaryKey) (ns : list HeaderName) (o : Origins) : Origins :=
  {| owner := <[g := (p, ns)]> (owner o); life := life o; longest := longest o |}.

Lemma sound_fetch_add o p ns s :
  next_generation s < u64_MAX -> sound_by o s ->
  owner o ⊆ owner (own (next_generation s) p ns o) /\
  sound_by (own (next_generation s) p ns o) (snd (insert_fetch_add s)).
Proof.
  intros Hg [Hwf [] Hl Hm]. pose proof (u64_wrapping_succ_small _ Hg) as Hsucc.
  assert (owner o ⊆ owner (own (next_generation s) p ns o)) as Hsub.
  { apply insert_subseteq. destruct (owner o !! _) as [w|] eqn:E; [|done].
    apply so_owner0 in E. lia. }
  split; [done|]. split; [by apply wf_insert_fetch_add| |done..]. constructor; simpl; rewrite ?Hsucc.
  - intros g w [[<- _]|[_ Ho]]%lookup_insert_Some; [lia|]. apply so_owner0 in Ho. lia.
  - intros p' ix d Hp. apply so_index0 in Hp. by eapply lookup_weaken.
  - intros rk r d Hr. apply so_entries0 in Hr as (v & ? & ? & ?). exists v.
    split; [done|]. split; [by eapply lookup_weaken|done].
  - done.
Qed.

Lemma sound_insert_index o now p v g s :
  sound_by o s -> owner o !! g = Some (p, names v) -> sound_by o (insert_index now p v g s).
Proof.
  intros [Hwf [] Hl Hm] Hg. split; [|constructor; try done|done..].
  - apply wf_insert_index; eauto.
  - intros p' ix d Hp. eapply lookup_weaken in Hp; [|by apply index_insert_contents].
    apply lookup_insert_Some in Hp as [[<- [= <- _]]|[_ Hp]]; [done|by eapply so_index0].
Qed.

Lemma sound_insert_entry o now p v g pol st hs b s :
  sound_by o s -> owner o !! g = Some (p, names v) -> policy_ok pol ->
  0 < life o -> str_len b <= longest o -> came_from p v (new_response now pol st hs b s) ->
  sound_by o (snd (insert_entry now p v g pol st hs b s)).
Proof.
  intros [Hwf [] Hl Hm] Hg Hpol Ht Hb Hcame. rewrite <- Hl, <- Hm in *. split; [|constructor|done..].
  - apply wf_insert_entry; eauto.
  - done.
  - done.
  - intros rk r d Hr. simpl in Hr.
    eapply lookup_weaken in Hr; [|by apply entries_insert_contents].
    apply lookup_insert_Some in Hr as [[[= <-] [= <- _]]|[_ Hr]]; [by exists v|by apply so_entries0 in Hr].
  - intros path a d Ha. simpl in Ha.
    eapply lookup_weaken in Ha; [|by apply entries_insert_contents].
    apply lookup_insert_Some in Ha as [[[=] _]|[_ Ha]]. by eapply so_assets0.
Qed.

(** the accesses together *)
Lemma sound_insert_response now p v pol st hs b s :
  policy_ok pol -> next_generation s < u64_MAX ->
  came_from p v (new_response now pol st hs b s) ->
  sound_store s -> sound_store (snd (insert_response now p v pol st hs b s)).
Proof.
  intros Hpol Hgen Hcame [o Ho]. unfold insert_response.
  destruct (storable_body b s) eqn:Hb; [|by exists o]. cbn [negb].
  apply storable_body_true in Hb as [[_ Ht]%enabled_true Hb].
  rewrite (sb_life _ _ Ho) in Ht. rewrite (sb_longest _ _ Ho) in Hb.
  assert (exists o' g s', match insert_get_index now p v s with
    | Some g => (g, s) | None => insert_fetch_add s end = (g, s') /\ sound_by o' s' /\
    owner o' !! g = Some (p, names v) /\ life o' = life o /\ longest o' = longest o /\
    new_response now pol st hs b (insert_index now p v g s') = new_response now pol st hs b s)
    as (o' & g & s' & -> & Ho' & Hg & Hl & Hm & Hr).
  { destruct (insert_get_index now p v s) as [g|] eqn:Eg.
    - exists o, g, s. split; [done|]. split; [done|]. split; [by eapply sound_reuse|done].
    - destruct (sound_fetch_add o p (names v) s Hgen Ho) as [_ Ho'].
      do 3 eexists. split; [done|]. split; [exact Ho'|]. split; [apply lookup_insert_eq|done]. }
  pose proof (sound_insert_entry o' now p v g pol st hs b (insert_index now p v g s')) as He.
  destruct (insert_entry _ _ _ _ _ _ _ _ _) as [r s'']. exists o'.
  apply sound_run_pending_tasks, He; rewrite ?Hl, ?Hm, ?Hr; try done. by apply sound_insert_index.
Qed.

(** ** Lookups in a sound store *)

(** the two accesses of a lookup, the second of a store that others may have
    changed since the first *)
Lemma sound_lookup o1 o2 now1 now2 p request s1 s2 key r :
  sound_by o1 s1 -> sound_by o2 s2 -> owner o1 ⊆ owner o2 ->
  lookup_index now1 p request s1 = Some key -> lookup_entry now2 key s2 = Some r ->
  primary key = p /\
  exists v, came_from p v (arc_get r) /\ vary_values (names v) request = values v.
Proof.
  intros [_ H1 _ _] [_ H2 _ _] Hsub (ix & Hix & ->)%fmap_Some He. split; [done|].
  unfold lookup_entry in He.
  destruct (cache_get now2 _ (entries s2)) as [[a|r']|] eqn:Eg; [done| |done]. injection He as ->.
  apply cache_get_sound in Hix as (d & Hix & _). apply cache_get_sound in Eg as (d' & He & _).
  apply (so_index _ _ H1) in Hix. apply (so_entries _ _ H2) in He as (v & Hcame & Hown & Hv).
  eapply lookup_weaken in Hix; [|exact Hsub]. simpl in *. rewrite Hix in Hown.
  injection Hown as Hn. exists v. by rewrite <- Hn.
Qed.

(** ** What a stored response may be *)

(** [storable] let the response with [map] be stored for [req]: the response
    may be shared, and if the request carried credentials, says so *)
Definition let_store (req : HttpRequest) (st : StatusCode) (map : HeaderMap) : Prop :=
  request_may_store (req_method req) (req_headers req) /\
  exists d, response_may_store st map d /\
    (credentialed (req_headers req) -> has d "public" = true).

Lemma storable_let_store now req st map pol v :
  storable now (policy_of req) (req_headers req) st map = Some (pol, v) ->
  let_store req st map /\ vary_names map = Some (names v) /\
  values v = vary_values (names v) (req_headers req).
Proof.
  intros Hs. unfold policy_of in Hs.
  apply storable_Some in Hs as (Hstore%may_store_iff & d & Hd & Hcred & Hn & Hv & _).
  split; [|done]. split; [done|]. exists d. split; [done|].
  intros Hc. apply Hcred. by apply has_credentials_iff.
Qed.

(** the exchange that a stored body came from *)
Lemma came_from_origin p v (r : StoredResponse) : came_from p v r ->
  exists req parts, uri_key req = p /\ status r = head_status (Head_from_upstream parts) /\
    let_store req (status r) (head_map (Head_from_upstream parts)) /\ sent parts (body r).
Proof.
  induction 1 as [now req parts pol v r head Hs Hst Hh Hsent
                 |now req update a v0 r0 pol v r _ (req0 & parts & Hk & Hst0 & Hlet & Hsent) Hs Hst _ Hb].
  - exists req, parts. split; [done|]. split; [done|]. split; [|done]. rewrite Hst.
    by apply storable_let_store in Hs as [Hs _].
  - exists req0, parts. by rewrite Hst, Hb.
Qed.

(** the exchange that stored a response last, with the header map it decided
    on, and the values of the [Vary] names *)
Lemma came_from_last p v (r : StoredResponse) : came_from p v r ->
  exists req map, uri_key req = p /\ let_store req (status r) map /\
    vary_names map = Some (names v) /\ values v = vary_values (names v) (req_headers req) /\
    forall n x, (n, x) ∈ headers r -> n <> header.AGE -> x ∈ HeaderMap_get_all map n.
Proof.
  destruct 1 as [now req parts pol v r head Hs Hst Hh _
                |now req update a v0 r0 pol v r _ Hs Hst Hh _];
    eexists req, _; (split; [done|]); rewrite Hst;
    apply storable_let_store in Hs as (Hs & Hn & Hv); (split; [exact Hs|]); (split; [done|]);
    (split; [done|]); intros n x Hin Hage.
  - rewrite Hh in Hin. unfold stored_fields, forwardable_fields in Hin.
    rewrite !elem_of_filter_bool in Hin. destruct Hin as [[Hin _] _].
    unfold head. simpl. rewrite HeaderMap_get_all_of_fields. by apply elem_of_values_of.
  - rewrite Hh in Hin. unfold freshened_map. destruct a as [a|].
    + rewrite HeaderMap_get_all_insert. destruct (String.eqb_spec header.AGE n); [by subst|].
      rewrite HeaderMap_get_all_of_fields. by apply elem_of_values_of.
    + rewrite HeaderMap_get_all_of_fields. by apply elem_of_values_of.
Qed.

(** the stored response [r] may be shared with [req] *)
Record shareable (req : HttpRequest) (r : StoredResponse) : Prop := {
  (** no cookie is handed to another client *)
  sh_no_cookie : values_of header.SET_COOKIE (headers r) = [];
  (** the exchange for the same URI that the response came from, with its
      whole body *)
  sh_origin : exists req0 parts, uri_key req0 = uri_key req /\
    status r = head_status (Head_from_upstream parts) /\
    let_store req0 (status r) (head_map (Head_from_upstream parts)) /\ sent parts (body r);
  (** the exchange that stored it last, and its [Vary] fields *)
  sh_last : exists req1 map names, uri_key req1 = uri_key req /\
    let_store req1 (status r) map /\ vary_names map = Some names /\
    vary_values names (req_headers req) = vary_values names (req_headers req1);
}.

Lemma lookup_shareable req o1 o2 now1 now2 s1 s2 key r :
  sound_by o1 s1 -> sound_by o2 s2 -> owner o1 ⊆ owner o2 ->
  lookup_index now1 (uri_key req) (req_headers req) s1 = Some key ->
  lookup_entry now2 key s2 = Some r -> shareable req (arc_get r).
Proof.
  intros H1 H2 Hsub Hix He.
  destruct (sound_lookup _ _ _ _ _ _ _ _ _ _ H1 H2 Hsub Hix He) as (_ & v & Hcame & Hv).
  destruct (came_from_last _ _ _ Hcame) as (req1 & map & Hk & Hlet & Hn & Hv1 & Hin).
  constructor.
  - destruct Hlet as (_ & d & Hd & _).
    destruct (values_of header.SET_COOKIE _) as [|x xs] eqn:E; [done|].
    assert ((header.SET_COOKIE, x) ∈ headers (arc_get r)) as Hx
      by (apply elem_of_values_of; rewrite E; left).
    apply Hin in Hx; [|done]. rewrite (rsp_cookie _ _ _ Hd) in Hx. by apply elem_of_nil in Hx.
  - by apply came_from_origin in Hcame.
  - exists req1, map, (names v). by rewrite Hv, Hv1.
Qed.
End provenance.
