(* ===== verification/Metrics.v ===== *)
(** The proxy's metrics ([src/metrics.rs]): the counters behind [/metrics] and
    [/health]. The prometheus crate is an interface, [PromOps], with the laws
    the program relies on; [RefProm] implements it for the examples. The
    counters are shared and atomic, so any interleaving of the workers is a
    sequence of [MetricEvent]s. *)

From stdpp Require Import base tactics numbers option list gmap strings sets.
From Stdlib Require Import Ascii.
From S2P Require Import Prelude RustStd Http Moka Store.

Local Open Scope N_scope.

(** ** prometheus *)

(** a name of small letters and underscores *)
Definition plain_name (s : string) : bool :=
  negb (is_empty s) && string_all (fun c => byte_in 97 122 c || byte_in 95 95 c) s.

Fixpoint ascending (l : list N) : bool :=
  match l with
  | [] => true
  | a :: l => match l with [] => true | b :: _ => (a <? b) && ascending l end
  end.

Class PromOps := {
  IntCounter : Type;
  (** [IntCounter::new(name, help).ok()] *)
  IntCounter_new : string -> string -> option IntCounter;
  IntCounter_inc : IntCounter -> IntCounter;
  IntCounter_get : IntCounter -> N;
  IntCounterVec : Type;
  (** [IntCounterVec::new(Opts::new(name, help), labels).ok()] *)
  IntCounterVec_new : string -> string -> list string -> option IntCounterVec;
  (** [with_label_values], which creates the series if there is none *)
  with_label_values : list string -> IntCounterVec -> Run IntCounterVec;
  (** [inc] of an existing series *)
  series_inc : list string -> IntCounterVec -> IntCounterVec;
  series : IntCounterVec -> gmap (list string) N;
  arity : IntCounterVec -> nat;
  Histogram : Type;
  (** [Histogram::with_opts(..).ok()], the buckets in milliseconds *)
  Histogram_with_opts : string -> string -> list N -> option Histogram;
  Histogram_observe : Duration -> Histogram -> Histogram;
  Histogram_count : Histogram -> N;
  Registry : Type;
  Registry_new : Registry;
  (** [registry.register(..).ok()] of the metric with that name *)
  Registry_register : string -> Registry -> option Registry;
  registered : Registry -> list string;
}.

Class PromLaws `{PromOps} : Prop := {
  IntCounter_new_ok name help : plain_name name = true -> help <> ""%string ->
    exists c, IntCounter_new name help = Some c /\ IntCounter_get c = 0;
  IntCounter_get_inc c : IntCounter_get (IntCounter_inc c) = u64_wrapping_succ (IntCounter_get c);
  IntCounterVec_new_ok name help labels :
    plain_name name = true -> help <> ""%string ->
    Forall (fun l => plain_name l = true) labels -> NoDup labels ->
    exists v, IntCounterVec_new name help labels = Some v /\
      arity v = length labels /\ series v = ∅;
  (** it panics when the number of values is wrong *)
  with_label_values_ok ls v : length ls = arity v ->
    exists v', with_label_values ls v = Done v' /\ arity v' = arity v /\
      series v' = <[ls := default 0 (series v !! ls)]> (series v);
  series_series_inc ls v : series (series_inc ls v) = alter u64_wrapping_succ ls (series v);
  arity_series_inc ls v : arity (series_inc ls v) = arity v;
  Histogram_with_opts_ok name help buckets :
    plain_name name = true -> help <> ""%string -> ascending buckets = true ->
    exists h, Histogram_with_opts name help buckets = Some h /\ Histogram_count h = 0;
  Histogram_count_observe d h :
    Histogram_count (Histogram_observe d h) = u64_wrapping_succ (Histogram_count h);
  registered_new : registered Registry_new = [];
  Registry_register_ok name r : name ∉ registered r ->
    exists r', Registry_register name r = Some r' /\ registered r' = name :: registered r;
}.

(** ** Labels *)

Definition HIT : string := "HIT".
Definition MISS : string := "MISS".
Definition REVALIDATED : string := "REVALIDATED".
Definition STALE : string := "STALE".
Definition COALESCED : string := "COALESCED".
Definition BYPASS : string := "BYPASS".

Definition CACHE_LABELS : list string := [HIT; MISS; REVALIDATED; STALE; COALESCED; BYPASS].
Definition ASSET_CACHE_LABELS : list string := [HIT; MISS; BYPASS].
Definition STATUS_CLASSES : list string := ["1xx"; "2xx"; "3xx"; "4xx"; "5xx"]%string.

(** in milliseconds *)
Definition ORIGIN_BUCKETS : list N :=
  [5; 10; 25; 50; 100; 250; 500; 1000; 2500; 5000; 10000; 30000].

Inductive Route := Proxy | AssetRoute.
Definition Route_label (r : Route) : string :=
  match r with Proxy => "proxy" | AssetRoute => "asset" end.

Inductive OriginKind := Foreground | Background.
Definition OriginKind_label (k : OriginKind) : string :=
  match k with Foreground => "foreground" | Background => "background" end.

Inductive OriginFailure := OriginError | Timeout.

Definition status_class (status : N) : string :=
  match status / 100 with
  | 1 => "1xx" | 2 => "2xx" | 3 => "3xx" | 4 => "4xx" | 5 => "5xx" | _ => "other"
  end.

(** [cache_label], on the response's header map *)
Definition cache_label `{HttpOps} (response : HeaderMap) : option string :=
  value ← HeaderMap_get response "x-shadowstep-cache";
  List.find (String.eqb value) CACHE_LABELS.

Definition gauge_value (value : N) : N := i64_or_max value.

Definition REQUESTS_HELP : string :=
  "Proxied and asset requests, by route and X-Shadowstep-Cache value, or BYPASS for requests the cache could neither answer nor store.".
Definition RESPONSES_HELP : string :=
  "Responses to proxied and asset requests, by route and status class.".
Definition ORIGIN_REQUESTS_HELP : string :=
  "Requests to the origin, by kind and by the status class of the response, or error or timeout when no response headers arrived.".
Definition ORIGIN_RESPONSE_SECONDS_HELP : string :=
  "Time from sending an origin request to receiving its response headers.".
Definition BODY_IDLE_HELP : string :=
  "Origin response bodies given up after the origin sent nothing for the upstream timeout.".
Definition REVALIDATIONS_HELP : string :=
  "304 responses from the origin that freshened a stored response, in the foreground or the background.".
Definition BACKGROUND_REFRESHES_HELP : string :=
  "Background revalidations started under stale-while-revalidate.".

Section metrics.
Context `{PromOps}.

(** ** [Metrics] *)

Record Metrics := {
  registry : Registry;
  requests : IntCounterVec;
  responses : IntCounterVec;
  origin_requests : IntCounterVec;
  origin_response_seconds : Histogram;
  origin_body_idle_timeouts : IntCounterVec;
  revalidations : IntCounter;
  background_refreshes : IntCounter;
  (** the gauges' values *)
  cache_bytes : N;
  cache_entries : N;
}.

Record CacheCounts := {
  hits : N;
  misses : N;
  revalidation_count : N;
  stale_count : N;
  coalesced : N;
  background_refresh_count : N;
}.

Definition set_requests (v : IntCounterVec) (m : Metrics) : Metrics := {|
  registry := registry m; requests := v; responses := responses m;
  origin_requests := origin_requests m; origin_response_seconds := origin_response_seconds m;
  origin_body_idle_timeouts := origin_body_idle_timeouts m; revalidations := revalidations m;
  background_refreshes := background_refreshes m; cache_bytes := cache_bytes m;
  cache_entries := cache_entries m |}.

Definition set_responses (v : IntCounterVec) (m : Metrics) : Metrics := {|
  registry := registry m; requests := requests m; responses := v;
  origin_requests := origin_requests m; origin_response_seconds := origin_response_seconds m;
  origin_body_idle_timeouts := origin_body_idle_timeouts m; revalidations := revalidations m;
  background_refreshes := background_refreshes m; cache_bytes := cache_bytes m;
  cache_entries := cache_entries m |}.

Definition set_origin_requests (v : IntCounterVec) (m : Metrics) : Metrics := {|
  registry := registry m; requests := requests m; responses := responses m;
  origin_requests := v; origin_response_seconds := origin_response_seconds m;
  origin_body_idle_timeouts := origin_body_idle_timeouts m; revalidations := revalidations m;
  background_refreshes := background_refreshes m; cache_bytes := cache_bytes m;
  cache_entries := cache_entries m |}.

Definition set_origin_response_seconds (h : Histogram) (m : Metrics) : Metrics := {|
  registry := registry m; requests := requests m; responses := responses m;
  origin_requests := origin_requests m; origin_response_seconds := h;
  origin_body_idle_timeouts := origin_body_idle_timeouts m; revalidations := revalidations m;
  background_refreshes := background_refreshes m; cache_bytes := cache_bytes m;
  cache_entries := cache_entries m |}.

Definition set_body_idle_timeouts (v : IntCounterVec) (m : Metrics) : Metrics := {|
  registry := registry m; requests := requests m; responses := responses m;
  origin_requests := origin_requests m; origin_response_seconds := origin_response_seconds m;
  origin_body_idle_timeouts := v; revalidations := revalidations m;
  background_refreshes := background_refreshes m; cache_bytes := cache_bytes m;
  cache_entries := cache_entries m |}.

Definition set_revalidations (c : IntCounter) (m : Metrics) : Metrics := {|
  registry := registry m; requests := requests m; responses := responses m;
  origin_requests := origin_requests m; origin_response_seconds := origin_response_seconds m;
  origin_body_idle_timeouts := origin_body_idle_timeouts m; revalidations := c;
  background_refreshes := background_refreshes m; cache_bytes := cache_bytes m;
  cache_entries := cache_entries m |}.

Definition set_background_refreshes (c : IntCounter) (m : Metrics) : Metrics := {|
  registry := registry m; requests := requests m; responses := responses m;
  origin_requests := origin_requests m; origin_response_seconds := origin_response_seconds m;
  origin_body_idle_timeouts := origin_body_idle_timeouts m; revalidations := revalidations m;
  background_refreshes := c; cache_bytes := cache_bytes m; cache_entries := cache_entries m |}.

Definition set_cache_bytes (bytes : N) (m : Metrics) : Metrics := {|
  registry := registry m; requests := requests m; responses := responses m;
  origin_requests := origin_requests m; origin_response_seconds := origin_response_seconds m;
  origin_body_idle_timeouts := origin_body_idle_timeouts m; revalidations := revalidations m;
  background_refreshes := background_refreshes m; cache_bytes := bytes;
  cache_entries := cache_entries m |}.

Definition set_cache_entries (entries : N) (m : Metrics) : Metrics := {|
  registry := registry m; requests := requests m; responses := responses m;
  origin_requests := origin_requests m; origin_response_seconds := origin_response_seconds m;
  origin_body_idle_timeouts := origin_body_idle_timeouts m; revalidations := revalidations m;
  background_refreshes := background_refreshes m; cache_bytes := cache_bytes m;
  cache_entries := entries |}.

(** [with_label_values(..).inc()] *)
Definition inc_series (ls : list string) (v : IntCounterVec) : Run IntCounterVec :=
  v ← with_label_values ls v; Done (series_inc ls v).

(** [with_label_values(..).get()] *)
Definition get_series (ls : list string) (v : IntCounterVec) : Run (N * IntCounterVec) :=
  v ← with_label_values ls v; Done (default 0 (series v !! ls), v).

Definition observe (route : Route) (cache : string) (status : StatusCode) (m : Metrics)
    : Run Metrics :=
  v ← inc_series [Route_label route; cache] (requests m);
  let m := set_requests v m in
  v ← inc_series [Route_label route; status_class status] (responses m);
  Done (set_responses v m).

Definition origin_responded (kind : OriginKind) (status : N) (elapsed : Duration) (m : Metrics)
    : Run Metrics :=
  v ← inc_series [OriginKind_label kind; status_class status] (origin_requests m);
  let m := set_origin_requests v m in
  Done (set_origin_response_seconds (Histogram_observe elapsed (origin_response_seconds m)) m).

Definition origin_failed (kind : OriginKind) (failure : OriginFailure) (m : Metrics)
    : Run Metrics :=
  let outcome := match failure with OriginError => "error" | Timeout => "timeout" end%string in
  v ← inc_series [OriginKind_label kind; outcome] (origin_requests m);
  Done (set_origin_requests v m).

(** [body_idle_timeouts(kind)], and the increment of the counter it returns *)
Definition body_idle_timeouts (kind : OriginKind) (m : Metrics) : Run Metrics :=
  v ← with_label_values [OriginKind_label kind] (origin_body_idle_timeouts m);
  Done (set_body_idle_timeouts v m).
Definition inc_body_idle_timeouts (kind : OriginKind) (m : Metrics) : Metrics :=
  set_body_idle_timeouts
    (series_inc [OriginKind_label kind] (origin_body_idle_timeouts m)) m.

Definition revalidation (m : Metrics) : Metrics :=
  set_revalidations (IntCounter_inc (revalidations m)) m.

Definition background_refresh (m : Metrics) : Metrics :=
  set_background_refreshes (IntCounter_inc (background_refreshes m)) m.

(** [Metrics::requests] *)
Definition requests_get (route : Route) (cache : string) (m : Metrics) : Run (N * Metrics) :=
  '(n, v) ← get_series [Route_label route; cache] (requests m);
  Done (n, set_requests v m).

(** an addition of two [u64]s, which wraps around in the release profile *)
Definition u64_add (a b : N) : N := (a + b) mod 2 ^ 64.

Definition both_routes (cache : string) (m : Metrics) : Run (N * Metrics) :=
  '(a, m) ← requests_get Proxy cache m;
  '(b, m) ← requests_get AssetRoute cache m;
  Done (u64_add a b, m).

Definition cache_counts (m : Metrics) : Run (CacheCounts * Metrics) :=
  '(hits, m) ← both_routes HIT m;
  '(misses, m) ← both_routes MISS m;
  '(bypassed, m) ← requests_get Proxy BYPASS m;
  let revalidations := IntCounter_get (revalidations m) in
  '(stale, m) ← both_routes STALE m;
  '(coalesced, m) ← both_routes COALESCED m;
  Done ({| hits := hits; misses := u64_add misses bypassed;
           revalidation_count := revalidations; stale_count := stale;
           coalesced := coalesced;
           background_refresh_count := IntCounter_get (background_refreshes m) |}, m).

(** ** [Metrics::new] *)

(** [register]: an invalid metric and a duplicate name panic *)
Definition register {M} (name : string) (metric : option M) (r : Registry) : Run (M * Registry) :=
  match metric, Registry_register name r with
  | Some metric, Some r => Done (metric, r)
  | _, _ => Panic
  end.

Definition create_series (l : list (list string)) (v : IntCounterVec) : Run IntCounterVec :=
  fold_left (fun v ls => v ← v; with_label_values ls v) l (Done v).

Definition initialise_series (m : Metrics) : Run Metrics :=
  v ← create_series (map (fun cache => ["proxy"; cache])%string CACHE_LABELS) (requests m);
  v ← create_series (map (fun cache => ["asset"; cache])%string ASSET_CACHE_LABELS) v;
  let m := set_requests v m in
  v ← create_series
    (kind ← [Foreground; Background]; outcome ← STATUS_CLASSES ++ ["error"; "timeout"]%string;
     [[OriginKind_label kind; outcome]]) (origin_requests m);
  let m := set_origin_requests v m in
  v ← create_series (map (fun kind => [OriginKind_label kind]) [Foreground; Background])
    (origin_body_idle_timeouts m);
  let m := set_body_idle_timeouts v m in
  v ← create_series
    (route ← [Proxy; AssetRoute]; class ← STATUS_CLASSES; [[Route_label route; class]])
    (responses m);
  Done (set_responses v m).

(** the gauges are registered like the counters, and hold 0 until [Reports.encode] *)
Definition Metrics_new : Run Metrics :=
  let r := Registry_new in
  '(requests, r) ← register "shadowstep_requests_total"
     (IntCounterVec_new "shadowstep_requests_total" REQUESTS_HELP ["route"; "cache"]%string) r;
  '(responses, r) ← register "shadowstep_responses_total"
     (IntCounterVec_new "shadowstep_responses_total" RESPONSES_HELP
        ["route"; "status_class"]%string) r;
  '(origin_requests, r) ← register "shadowstep_origin_requests_total"
     (IntCounterVec_new "shadowstep_origin_requests_total" ORIGIN_REQUESTS_HELP
        ["kind"; "outcome"]%string) r;
  '(origin_response_seconds, r) ← register "shadowstep_origin_response_seconds"
     (Histogram_with_opts "shadowstep_origin_response_seconds" ORIGIN_RESPONSE_SECONDS_HELP
        ORIGIN_BUCKETS) r;
  '(origin_body_idle_timeouts, r) ← register "shadowstep_origin_body_idle_timeouts_total"
     (IntCounterVec_new "shadowstep_origin_body_idle_timeouts_total" BODY_IDLE_HELP
        ["kind"]%string) r;
  '(revalidations, r) ← register "shadowstep_cache_revalidations_total"
     (IntCounter_new "shadowstep_cache_revalidations_total" REVALIDATIONS_HELP) r;
  '(background_refreshes, r) ← register "shadowstep_cache_background_refreshes_total"
     (IntCounter_new "shadowstep_cache_background_refreshes_total" BACKGROUND_REFRESHES_HELP) r;
  '(_, r) ← register "shadowstep_cache_bytes" (Some tt) r;
  '(_, r) ← register "shadowstep_cache_entries" (Some tt) r;
  initialise_series {|
    registry := r; requests := requests; responses := responses;
    origin_requests := origin_requests; origin_response_seconds := origin_response_seconds;
    origin_body_idle_timeouts := origin_body_idle_timeouts; revalidations := revalidations;
    background_refreshes := background_refreshes; cache_bytes := 0; cache_entries := 0 |}.

(** ** Counting *)

(** a call that counts something *)
Inductive MetricEvent :=
| Observed (route : Route) (cache : string) (status : StatusCode)
| OriginResponded (kind : OriginKind) (status : N) (elapsed : Duration)
| OriginFailed (kind : OriginKind) (failure : OriginFailure)
| BodyIdle (kind : OriginKind)
| Revalidation
| BackgroundRefresh
| HealthRead.

Definition count_event (e : MetricEvent) (m : Metrics) : Run Metrics :=
  match e with
  | Observed route cache status => observe route cache status m
  | OriginResponded kind status elapsed => origin_responded kind status elapsed m
  | OriginFailed kind failure => origin_failed kind failure m
  | BodyIdle kind => inc_body_idle_timeouts kind <$> body_idle_timeouts kind m
  | Revalidation => Done (revalidation m)
  | BackgroundRefresh => Done (background_refresh m)
  | HealthRead => snd <$> cache_counts m
  end.

Fixpoint count_events (l : list MetricEvent) (m : Metrics) : Run Metrics :=
  match l with
  | [] => Done m
  | e :: l => m ← count_event e m; count_events l m
  end.

(** how many events satisfy a test *)
Definition tally (f : MetricEvent -> bool) (l : list MetricEvent) : N :=
  N.of_nat (length (List.filter f l)).

(** the requests that got the label [cache] on [route] *)
Definition observed (route : Route) (cache : string) (e : MetricEvent) : bool :=
  match e with
  | Observed r c _ => String.eqb (Route_label r) (Route_label route) && String.eqb c cache
  | _ => false
  end.
Definition is_revalidation (e : MetricEvent) : bool :=
  match e with Revalidation => true | _ => false end.
Definition is_background_refresh (e : MetricEvent) : bool :=
  match e with BackgroundRefresh => true | _ => false end.

Definition value (v : IntCounterVec) (ls : list string) : N := default 0 (series v !! ls).

Lemma tally_app f l l' : tally f (l ++ l') = tally f l + tally f l'.
Proof. unfold tally. rewrite List.filter_app, length_app. lia. Qed.

Lemma tally_one f e : tally f [e] = if f e then 1 else 0.
Proof. unfold tally. simpl. by destruct (f e). Qed.

Lemma tally_length f l : tally f l <= N.of_nat (length l).
Proof. unfold tally. pose proof (List.filter_length_le f l). lia. Qed.

Context `{!PromLaws}.

Lemma with_label_values_value ls v :
  length ls = arity v ->
  exists v', with_label_values ls v = Done v' /\ arity v' = arity v /\
    is_Some (series v' !! ls) /\ forall ls', value v' ls' = value v ls'.
Proof.
  intros Hl. destruct (with_label_values_ok ls v Hl) as (v' & Hv & Ha & Hs).
  exists v'. split; [done|]. split; [done|]. rewrite Hs. rewrite lookup_insert_eq.
  split; [eauto|]. intros ls'. unfold value. rewrite Hs.
  destruct (decide (ls = ls')) as [<-|?]; [by rewrite lookup_insert_eq|].
  by rewrite lookup_insert_ne.
Qed.

Lemma inc_series_value ls v :
  length ls = arity v ->
  exists v', inc_series ls v = Done v' /\ arity v' = arity v /\
    forall ls', value v' ls' =
      if bool_decide (ls' = ls) then u64_wrapping_succ (value v ls') else value v ls'.
Proof.
  intros Hl. destruct (with_label_values_value ls v Hl) as (v' & Hv & Ha & [n Hn] & Hs).
  exists (series_inc ls v'). unfold inc_series. rewrite Hv, arity_series_inc.
  split; [done|]. split; [done|]. intros ls'. rewrite <- Hs. unfold value.
  rewrite series_series_inc. case_bool_decide as Hd.
  - subst ls'. by rewrite lookup_alter_eq, Hn.
  - by rewrite lookup_alter_ne.
Qed.

Lemma get_series_value ls v :
  length ls = arity v ->
  exists v', get_series ls v = Done (value v ls, v') /\ arity v' = arity v /\
    forall ls', value v' ls' = value v ls'.
Proof.
  intros Hl. destruct (with_label_values_value ls v Hl) as (v' & Hv & Ha & _ & Hs).
  exists v'. unfold get_series. rewrite Hv. split; [|done]. simpl. by rewrite <- (Hs ls).
Qed.

(** the other tests that the series count *)
Definition observed_class (route : Route) (class : string) (e : MetricEvent) : bool :=
  match e with
  | Observed r _ status =>
      String.eqb (Route_label r) (Route_label route) && String.eqb (status_class status) class
  | _ => false
  end.
Definition origin_outcome (kind : OriginKind) (outcome : string) (e : MetricEvent) : bool :=
  match e with
  | OriginResponded k status _ =>
      String.eqb (OriginKind_label k) (OriginKind_label kind) &&
      String.eqb (status_class status) outcome
  | OriginFailed k failure =>
      String.eqb (OriginKind_label k) (OriginKind_label kind) &&
      String.eqb (match failure with OriginError => "error" | Timeout => "timeout" end) outcome
  | _ => false
  end.
Definition origin_responded_event (e : MetricEvent) : bool :=
  match e with OriginResponded _ _ _ => true | _ => false end.
Definition body_idle_event (kind : OriginKind) (e : MetricEvent) : bool :=
  match e with
  | BodyIdle k => String.eqb (OriginKind_label k) (OriginKind_label kind)
  | _ => false
  end.

Lemma two_labels a b c d :
  bool_decide ([a; b] = [c; d]) = String.eqb c a && String.eqb d b.
Proof.
  apply eq_bool_prop_intro. rewrite bool_decide_spec, andb_True, !Is_true_true, !String.eqb_eq.
  naive_solver.
Qed.

(** each series holds the number of its events *)
Record counted (m : Metrics) (l : list MetricEvent) : Prop := {
  c_arity : arity (requests m) = 2%nat /\ arity (responses m) = 2%nat /\
    arity (origin_requests m) = 2%nat /\ arity (origin_body_idle_timeouts m) = 1%nat;
  c_requests r c : value (requests m) [Route_label r; c] = tally (observed r c) l;
  c_responses r c : value (responses m) [Route_label r; c] = tally (observed_class r c) l;
  c_origin k o : value (origin_requests m) [OriginKind_label k; o] = tally (origin_outcome k o) l;
  c_seconds : Histogram_count (origin_response_seconds m) = tally origin_responded_event l;
  c_idle k : value (origin_body_idle_timeouts m) [OriginKind_label k] = tally (body_idle_event k) l;
  c_revalidations : IntCounter_get (revalidations m) = tally is_revalidation l;
  c_background : IntCounter_get (background_refreshes m) = tally is_background_refresh l;
}.

(** a counter that an event may increment *)
Lemma counter_step (f : MetricEvent -> bool) l e n :
  N.of_nat (length l) < u64_MAX ->
  n = (if f e then u64_wrapping_succ (tally f l) else tally f l) ->
  n = tally f (l ++ [e]).
Proof.
  intros Hl ->. rewrite tally_app, tally_one. pose proof (tally_length f l).
  destruct (f e); [|lia]. apply u64_wrapping_succ_small. lia.
Qed.

(** reads leave the counts as they are *)
Lemma counted_requests m l v :
  counted m l -> arity v = arity (requests m) ->
  (forall ls, value v ls = value (requests m) ls) -> counted (set_requests v m) l.
Proof.
  intros [(?&?&?&?) ???????] Ha Hv. constructor; simpl; try done.
  - by rewrite Ha.
  - intros r c. by rewrite Hv.
Qed.

Lemma requests_get_spec m l route cache :
  counted m l ->
  exists m', requests_get route cache m = Done (tally (observed route cache) l, m') /\
    counted m' l.
Proof.
  intros Hm. destruct (get_series_value [Route_label route; cache] (requests m))
    as (v & Hg & Ha & Hv); [by destruct (c_arity _ _ Hm) as [-> _]|].
  unfold requests_get. rewrite Hg. simpl. rewrite (c_requests _ _ Hm).
  eexists. split; [done|]. by apply counted_requests.
Qed.

Lemma u64_add_small a b : a + b <= u64_MAX -> u64_add a b = a + b.
Proof. intros Hab. apply N.mod_small. unfold u64_MAX in Hab. lia. Qed.

Lemma tally_disjoint f g l :
  (forall e : MetricEvent, f e = true -> g e = true -> False) ->
  tally f l + tally g l = tally (fun e => f e || g e) l /\
  tally f l + tally g l <= N.of_nat (length l).
Proof.
  intros Hfg.
  assert (tally f l + tally g l = tally (fun e => f e || g e) l) as Heq.
  { unfold tally. induction l as [|e l IH]; [done|]. simpl.
    specialize (Hfg e). destruct (f e), (g e); simpl; [by destruct Hfg|lia..]. }
  split; [done|]. rewrite Heq. apply tally_length.
Qed.

(** the requests that got the label [cache] on either route *)
Definition observed_any (cache : string) (e : MetricEvent) : bool :=
  observed Proxy cache e || observed AssetRoute cache e.

Lemma both_routes_spec m l cache :
  counted m l -> N.of_nat (length l) <= u64_MAX ->
  exists m', both_routes cache m = Done (tally (observed_any cache) l, m') /\ counted m' l.
Proof.
  intros Hm Hl. unfold both_routes.
  destruct (requests_get_spec _ _ Proxy cache Hm) as (m1 & -> & Hm1). simpl.
  destruct (requests_get_spec _ _ AssetRoute cache Hm1) as (m2 & -> & Hm2). simpl.
  exists m2. split; [|done]. unfold observed_any.
  destruct (tally_disjoint (observed Proxy cache) (observed AssetRoute cache) l) as [Heq Hle].
  { intros [[] c s|? ? ?|? ?|?| | |]; simpl; try done; by destruct (String.eqb c cache). }
  rewrite <- Heq, u64_add_small; [done|]. lia.
Qed.

(** the requests that [/health] counts as misses *)
Definition missed (e : MetricEvent) : bool := observed_any MISS e || observed Proxy BYPASS e.

Lemma cache_counts_spec m l :
  counted m l -> N.of_nat (length l) <= u64_MAX ->
  exists m', cache_counts m = Done ({|
      hits := tally (observed_any HIT) l;
      misses := tally missed l;
      revalidation_count := tally is_revalidation l;
      stale_count := tally (observed_any STALE) l;
      coalesced := tally (observed_any COALESCED) l;
      background_refresh_count := tally is_background_refresh l |}, m') /\ counted m' l.
Proof.
  intros Hm Hl. unfold cache_counts.
  destruct (both_routes_spec _ _ HIT Hm Hl) as (m1 & -> & Hm1). simpl.
  destruct (both_routes_spec _ _ MISS Hm1 Hl) as (m2 & -> & Hm2). simpl.
  destruct (requests_get_spec _ _ Proxy BYPASS Hm2) as (m3 & -> & Hm3). simpl.
  destruct (both_routes_spec _ _ STALE Hm3 Hl) as (m4 & -> & Hm4). simpl.
  destruct (both_routes_spec _ _ COALESCED Hm4 Hl) as (m5 & -> & Hm5). simpl.
  exists m5. split; [|done].
  destruct (tally_disjoint (observed_any MISS) (observed Proxy BYPASS) l) as [Heq Hle].
  { intros [[] c s|? ? ?|? ?|?| | |]; unfold observed_any; simpl; try done;
      destruct (String.eqb_spec c MISS) as [->|]; simpl; done. }
  rewrite u64_add_small, Heq by lia. unfold missed.
  by rewrite (c_revalidations _ _ Hm3), (c_background _ _ Hm5).
Qed.

Lemma tally_skip (f : MetricEvent -> bool) l e : f e = false -> tally f l = tally f (l ++ [e]).
Proof. intros He. rewrite tally_app, tally_one, He. lia. Qed.

(** an event that leaves a counter alone *)
Ltac uncounted Hm := first
  [ rewrite <- tally_skip by done; by apply Hm
  | intros; rewrite <- tally_skip by done; by apply Hm ].

Lemma count_event_spec e m l :
  counted m l -> N.of_nat (length l) < u64_MAX ->
  exists m', count_event e m = Done m' /\ counted m' (l ++ [e]).
Proof.
  intros Hm Hl. pose proof (c_arity _ _ Hm) as (Ha1 & Ha2 & Ha3 & Ha4).
  destruct e as [r c s|k s d|k f|k| | |]; simpl.
  - unfold observe.
    destruct (inc_series_value [Route_label r; c] (requests m)) as (v1 & -> & Hv1 & Hx1);
      [by rewrite Ha1|]. simpl.
    destruct (inc_series_value [Route_label r; status_class s] (responses m))
      as (v2 & -> & Hv2 & Hx2); [by rewrite Ha2|]. simpl.
    eexists. split; [done|]. constructor; simpl; try (uncounted Hm).
    + by rewrite Hv1, Hv2.
    + intros r' c'. apply counter_step; [done|].
      by rewrite Hx1, two_labels, (c_requests _ _ Hm).
    + intros r' c'. apply counter_step; [done|].
      by rewrite Hx2, two_labels, (c_responses _ _ Hm).
  - unfold origin_responded.
    destruct (inc_series_value [OriginKind_label k; status_class s] (origin_requests m))
      as (v1 & -> & Hv1 & Hx1); [by rewrite Ha3|]. simpl.
    eexists. split; [done|]. constructor; simpl; try (uncounted Hm).
    + by rewrite Hv1.
    + intros k' o'. apply counter_step; [done|].
      by rewrite Hx1, two_labels, (c_origin _ _ Hm).
    + apply counter_step; [done|]. by rewrite Histogram_count_observe, (c_seconds _ _ Hm).
  - unfold origin_failed.
    destruct (inc_series_value
      [OriginKind_label k; match f with OriginError => "error" | Timeout => "timeout" end]%string
      (origin_requests m)) as (v1 & -> & Hv1 & Hx1); [by rewrite Ha3|]. simpl.
    eexists. split; [done|]. constructor; simpl; try (uncounted Hm).
    + by rewrite Hv1.
    + intros k' o'. apply counter_step; [done|].
      by rewrite Hx1, two_labels, (c_origin _ _ Hm).
  - unfold body_idle_timeouts.
    destruct (with_label_values_value [OriginKind_label k] (origin_body_idle_timeouts m))
      as (v1 & -> & Hv1 & [n Hn] & Hx1); [by rewrite Ha4|]. simpl.
    eexists. split; [done|]. constructor; simpl; try (uncounted Hm).
    + by rewrite arity_series_inc, Hv1.
    + intros k'. apply counter_step; [done|]. rewrite <- (c_idle _ _ Hm), <- Hx1.
      unfold value. rewrite series_series_inc. simpl.
      destruct (String.eqb_spec (OriginKind_label k) (OriginKind_label k')) as [<-|Hne].
      * by rewrite lookup_alter_eq, Hn.
      * rewrite lookup_alter_ne; [done|]. intros [=]. done.
  - eexists. split; [done|]. constructor; simpl; try (uncounted Hm); [done|].
    apply counter_step; [done|]. by rewrite IntCounter_get_inc, (c_revalidations _ _ Hm).
  - eexists. split; [done|]. constructor; simpl; try (uncounted Hm); [done|].
    apply counter_step; [done|]. by rewrite IntCounter_get_inc, (c_background _ _ Hm).
  - destruct (cache_counts_spec m l Hm) as (m' & -> & Hm'); [lia|]. simpl.
    eexists. split; [done|].
    constructor; [by apply Hm'|uncounted Hm'..].
Qed.

Lemma count_events_spec es m l :
  counted m l -> N.of_nat (length l + length es) <= u64_MAX ->
  exists m', count_events es m = Done m' /\ counted m' (l ++ es).
Proof.
  revert m l. induction es as [|e es IH]; intros m l Hm Hl; simpl.
  { exists m. by rewrite app_nil_r. }
  simpl in Hl. destruct (count_event_spec e m l Hm) as (m1 & -> & Hm1); [lia|]. simpl.
  destruct (IH m1 (l ++ [e]) Hm1) as (m2 & Hrun & Hm2).
  { rewrite length_app. simpl. by replace (length l + 1 + length es)%nat
      with (length l + S (length es))%nat by lia. }
  exists m2. split; [done|]. by rewrite <- app_assoc in Hm2.
Qed.

Lemma create_series_spec l v :
  Forall (fun ls => length ls = arity v) l ->
  exists v', create_series l v = Done v' /\ arity v' = arity v /\
    (forall ls, value v' ls = value v ls) /\
    (forall ls, ls ∈ l \/ is_Some (series v !! ls) -> is_Some (series v' !! ls)).
Proof.
  unfold create_series. revert v. induction l as [|ls l IH]; intros v Hl; simpl.
  { exists v. split; [done|]. split; [done|]. split; [done|]. intros ls [Hin|?]; [|done].
    by apply elem_of_nil in Hin. }
  apply Forall_cons in Hl as [Hls Hl].
  destruct (with_label_values_ok ls v Hls) as (v1 & Hv & Ha & Hs). rewrite Hv.
  destruct (IH v1) as (v2 & H2 & Ha2 & Hx2 & Hin2); [by rewrite Ha|].
  exists v2. split; [done|]. split; [congruence|]. split.
  - intros ls'. rewrite Hx2. unfold value. rewrite Hs.
    destruct (decide (ls = ls')) as [<-|?]; [by rewrite lookup_insert_eq|].
    by rewrite lookup_insert_ne.
  - intros ls' Hin. apply Hin2. rewrite Hs. rewrite lookup_insert_is_Some, elem_of_cons in *.
    destruct (decide (ls = ls')); naive_solver.
Qed.

Lemma register_ok {M} name (metric : option M) m r :
  metric = Some m -> name ∉ registered r ->
  exists r', register name metric r = Done (m, r') /\ registered r' = name :: registered r.
Proof.
  intros -> Hn. destruct (Registry_register_ok name r Hn) as (r' & Hr & Hr').
  exists r'. unfold register. by rewrite Hr.
Qed.

(** the series that the program creates in advance *)
Record initialised (m : Metrics) : Prop := {
  i_proxy c : c ∈ CACHE_LABELS -> is_Some (series (requests m) !! ["proxy"; c]%string);
  i_asset c : c ∈ ASSET_CACHE_LABELS -> is_Some (series (requests m) !! ["asset"; c]%string);
  i_origin k o : o ∈ STATUS_CLASSES ++ ["error"; "timeout"]%string ->
    is_Some (series (origin_requests m) !! [OriginKind_label k; o]);
  i_idle k : is_Some (series (origin_body_idle_timeouts m) !! [OriginKind_label k]);
  i_responses r c : c ∈ STATUS_CLASSES ->
    is_Some (series (responses m) !! [Route_label r; c]);
}.

Lemma initialise_series_spec m :
  counted m [] ->
  exists m', initialise_series m = Done m' /\ counted m' [] /\ initialised m'.
Proof.
  intros Hm. pose proof (c_arity _ _ Hm) as (Ha1 & Ha2 & Ha3 & Ha4). unfold initialise_series.
  set (proxied := map (fun cache => ["proxy"; cache])%string CACHE_LABELS).
  set (assets := map (fun cache => ["asset"; cache])%string ASSET_CACHE_LABELS).
  set (origin := mbind _ [Foreground; Background]).
  set (idles := map _ [Foreground; Background]).
  set (classes := mbind _ [Proxy; AssetRoute]).
  destruct (create_series_spec proxied (requests m))
    as (v1 & -> & H1 & Hx1 & Hin1); [rewrite Ha1; by repeat constructor|]. simpl.
  destruct (create_series_spec assets v1)
    as (v2 & -> & H2 & Hx2 & Hin2); [rewrite H1, Ha1; by repeat constructor|]. simpl.
  destruct (create_series_spec origin (origin_requests m))
    as (v3 & -> & H3 & Hx3 & Hin3); [rewrite Ha3; by repeat constructor|]. simpl.
  destruct (create_series_spec idles (origin_body_idle_timeouts m))
    as (v4 & -> & H4 & Hx4 & Hin4); [rewrite Ha4; by repeat constructor|]. simpl.
  destruct (create_series_spec classes (responses m))
    as (v5 & -> & H5 & Hx5 & Hin5); [rewrite Ha2; by repeat constructor|]. simpl.
  eexists. split; [done|]. split.
  - constructor; simpl; try by (intros; apply Hm).
    + split_and!; congruence.
    + intros r c. rewrite Hx2, Hx1. apply Hm.
    + intros r c. rewrite Hx5. apply Hm.
    + intros k o. rewrite Hx3. apply Hm.
    + intros k. rewrite Hx4. apply Hm.
  - constructor; simpl.
    + intros c Hc. apply Hin2. right. apply Hin1. left.
      by apply (list_elem_of_fmap_2 (fun cache => ["proxy"%string; cache])).
    + intros c Hc. apply Hin2. left.
      by apply (list_elem_of_fmap_2 (fun cache => ["asset"%string; cache])).
    + intros k o Ho. apply Hin3. left. apply list_elem_of_bind.
      exists k. split; [|destruct k; set_solver].
      apply list_elem_of_bind. exists o. split; [set_solver|done].
    + intros k. apply Hin4. left. destruct k; set_solver.
    + intros r c Hc. apply Hin5. left. apply list_elem_of_bind.
      exists r. split; [|destruct r; set_solver].
      apply list_elem_of_bind. exists c. split; [set_solver|done].
Qed.

(** registers the next metric, whose construction is [E] *)
Ltac next_name R E :=
  match goal with |- context [register ?n ?m ?r] =>
    let r' := fresh "r" in let Hr := fresh in let R' := fresh in
    destruct (register_ok n m _ r E) as (r' & Hr & R');
      [rewrite R; by apply (bool_decide_unpack _)|];
    rewrite Hr; clear Hr; cbn [mbind Run_bind]; rewrite R in R'; clear R; rename R' into R
  end.

(** what [Metrics::new] registers, before [initialise_series] *)
Lemma Metrics_new_start : exists m, Metrics_new = initialise_series m /\ counted m [] /\
  series (requests m) = ∅ /\ series (responses m) = ∅ /\
  series (origin_requests m) = ∅ /\ series (origin_body_idle_timeouts m) = ∅.
Proof.
  unfold Metrics_new.
  assert (forall name help labels, plain_name name = true -> help <> ""%string ->
    Forall (fun l => plain_name l = true) labels -> NoDup labels ->
    exists v, IntCounterVec_new name help labels = Some v /\
      arity v = length labels /\ series v = ∅) as Hvec.
  { intros. by apply IntCounterVec_new_ok. }
  destruct (Hvec "shadowstep_requests_total" REQUESTS_HELP ["route"; "cache"])%string
    as (v1 & E1 & A1 & S1); [done..|by repeat constructor|by apply (bool_decide_unpack _)|].
  destruct (Hvec "shadowstep_responses_total" RESPONSES_HELP ["route"; "status_class"])%string
    as (v2 & E2 & A2 & S2); [done..|by repeat constructor|by apply (bool_decide_unpack _)|].
  destruct (Hvec "shadowstep_origin_requests_total" ORIGIN_REQUESTS_HELP ["kind"; "outcome"])%string
    as (v3 & E3 & A3 & S3); [done..|by repeat constructor|by apply (bool_decide_unpack _)|].
  destruct (Histogram_with_opts_ok "shadowstep_origin_response_seconds"
    ORIGIN_RESPONSE_SECONDS_HELP ORIGIN_BUCKETS) as (h & E4 & C4); [done..|].
  destruct (Hvec "shadowstep_origin_body_idle_timeouts_total" BODY_IDLE_HELP ["kind"])%string
    as (v5 & E5 & A5 & S5); [done..|by repeat constructor|by apply (bool_decide_unpack _)|].
  destruct (IntCounter_new_ok "shadowstep_cache_revalidations_total" REVALIDATIONS_HELP)
    as (c6 & E6 & C6); [done..|].
  destruct (IntCounter_new_ok "shadowstep_cache_background_refreshes_total"
    BACKGROUND_REFRESHES_HELP) as (c7 & E7 & C7); [done..|].
  pose proof registered_new as R0.
  next_name R0 E1. next_name R0 E2. next_name R0 E3. next_name R0 E4. next_name R0 E5.
  next_name R0 E6. next_name R0 E7. next_name R0 (eq_refl (Some tt)).
  next_name R0 (eq_refl (Some tt)).
  eexists. split; [reflexivity|]. split; [|done]. constructor; simpl; try done.
  - intros ro c. unfold value. by rewrite S1, lookup_empty.
  - intros ro c. unfold value. by rewrite S2, lookup_empty.
  - intros k o. unfold value. by rewrite S3, lookup_empty.
  - intros k. unfold value. by rewrite S5, lookup_empty.
Qed.

Lemma Metrics_new_spec : exists m, Metrics_new = Done m /\ counted m [] /\ initialised m.
Proof.
  destruct Metrics_new_start as (m & -> & Hm & _). by apply initialise_series_spec.
Qed.

(** C32. The metrics start, and they count. [Metrics::new] never panics and
    creates every expected series; after it, any sequence of calls, short of
    2^64 of them, succeeds and leaves every metric of the program at the
    number of its events: the requests of each route and cache label, the
    responses of each route and status class, the origin requests of each kind
    and outcome, the origin responses timed, the idle timeouts of each kind,
    the revalidations and the background refreshes. From them [cache_counts]
    reads, without changing one, how many responses of each kind there were:
    its misses are the proxy's [MISS] and [BYPASS] responses and the assets'
    [MISS], and the 304s count wherever they were received. *)
Theorem health_counts es :
  N.of_nat (length es) <= u64_MAX ->
  exists m0 m m', Metrics_new = Done m0 /\ initialised m0 /\
    count_events es m0 = Done m /\
    (forall route cache,
       value (requests m) [Route_label route; cache] = tally (observed route cache) es) /\
    (forall route class,
       value (responses m) [Route_label route; class] = tally (observed_class route class) es) /\
    (forall kind outcome,
       value (origin_requests m) [OriginKind_label kind; outcome] =
         tally (origin_outcome kind outcome) es) /\
    Histogram_count (origin_response_seconds m) = tally origin_responded_event es /\
    (forall kind,
       value (origin_body_idle_timeouts m) [OriginKind_label kind] =
         tally (body_idle_event kind) es) /\
    IntCounter_get (revalidations m) = tally is_revalidation es /\
    IntCounter_get (background_refreshes m) = tally is_background_refresh es /\
    cache_counts m = Done ({|
      hits := tally (observed_any HIT) es;
      misses := tally missed es;
      revalidation_count := tally is_revalidation es;
      stale_count := tally (observed_any STALE) es;
      coalesced := tally (observed_any COALESCED) es;
      background_refresh_count := tally is_background_refresh es |}, m') /\
    counted m' es.
Proof.
  intros Hes. destruct Metrics_new_spec as (m0 & Hnew & Hm0 & Hinit).
  destruct (count_events_spec es m0 [] Hm0) as (m & Hrun & Hm); [done|].
  destruct (cache_counts_spec m es Hm Hes) as (m' & Hc & Hm').
  exists m0, m, m'. by pose proof Hm as [_ ? ? ? ? ? ? ?].
Qed.
End metrics.

(** ** A registry for the examples *)

Record RefVec := { rv_arity : nat; rv_series : gmap (list string) N }.

#[export] Instance RefProm : PromOps := {|
  IntCounter := N;
  IntCounter_new name help := if plain_name name && negb (is_empty help) then Some 0 else None;
  IntCounter_inc := u64_wrapping_succ;
  IntCounter_get c := c;
  IntCounterVec := RefVec;
  IntCounterVec_new name help labels :=
    if plain_name name && negb (is_empty help)
    then Some {| rv_arity := length labels; rv_series := ∅ |} else None;
  with_label_values ls v :=
    if bool_decide (length ls = rv_arity v)
    then Done {| rv_arity := rv_arity v;
                 rv_series := <[ls := default 0 (rv_series v !! ls)]> (rv_series v) |}
    else Panic;
  series_inc ls v :=
    {| rv_arity := rv_arity v; rv_series := alter u64_wrapping_succ ls (rv_series v) |};
  series := rv_series;
  arity := rv_arity;
  Histogram := N;
  Histogram_with_opts name help buckets :=
    if plain_name name && negb (is_empty help) && ascending buckets then Some 0 else None;
  Histogram_observe _ := u64_wrapping_succ;
  Histogram_count h := h;
  Registry := list string;
  Registry_new := [];
  Registry_register name r := if bool_decide (name ∈ r) then None else Some (name :: r);
  registered r := r;
|}.

#[export] Instance RefPromLaws : PromLaws.
Proof.
  constructor; try done; simpl.
  - intros name help -> Hh%is_empty_false. rewrite Hh. eauto.
  - intros name help labels -> Hh%is_empty_false _ _. rewrite Hh. simpl. eauto.
  - intros ls v Hl. rewrite bool_decide_eq_true_2 by done. eauto.
  - intros name help buckets -> Hh%is_empty_false ->. rewrite Hh. eauto.
  - intros name r Hn. rewrite bool_decide_eq_false_2 by done. eauto.
Qed.

Definition ex_events : list MetricEvent :=
  [Observed Proxy MISS 200; Observed Proxy HIT 200; Observed AssetRoute BYPASS 404;
   OriginResponded Foreground 200 0; OriginFailed Background Timeout; BodyIdle Foreground].

Lemma health_counts_witness :
  exists m m', count_events ex_events m = Done m' /\
    value (responses m') ["proxy"; "2xx"]%string = 2 /\
    value (origin_requests m') ["background"; "timeout"]%string = 1 /\
    exists m'', cache_counts m' = Done ({| hits := 1; misses := 1; revalidation_count := 0;
      stale_count := 0; coalesced := 0; background_refresh_count := 0 |}, m'').
Proof.
  destruct (health_counts ex_events)
    as (m0 & m & m' & _ & _ & Hrun & _ & Hresp & Horig & _ & _ & _ & _ & Hc & _);
    [vm_compute; done|].
  exists m0, m. split; [exact Hrun|]. split; [exact (Hresp Proxy "2xx"%string)|].
  split; [exact (Horig Background "timeout"%string)|]. by exists m'.
Defined.
