(* ===== verification/MetricLabels.v ===== *)
(** The labels of the metrics. A counter vector makes a series for each list of
    label values that it is asked for, and keeps it. [well_labelled] types the
    metrics: each vector has the number of labels that the calls give it, which
    is why no call panics, and series only for the values declared here, which
    is why the metrics cannot grow with the traffic. *)

From stdpp Require Import base tactics numbers option list gmap strings sets.
From S2P Require Import Prelude RustStd Http Moka Store Metrics.

Local Open Scope N_scope.

(** ** The declared labels *)

Definition ROUTES : list Route := [Proxy; AssetRoute].
Definition KINDS : list OriginKind := [Foreground; Background].
Definition ALL_CLASSES : list string := STATUS_CLASSES ++ ["other"]%string.

Definition request_labels : list (list string) :=
  r ← ROUTES; c ← CACHE_LABELS; [[Route_label r; c]].
Definition response_labels : list (list string) :=
  r ← ROUTES; c ← ALL_CLASSES; [[Route_label r; c]].
Definition origin_labels : list (list string) :=
  k ← KINDS; o ← ALL_CLASSES ++ ["error"; "timeout"]%string; [[OriginKind_label k; o]].
Definition idle_labels : list (list string) := map (fun k => [OriginKind_label k]) KINDS.

(** an event that gives a request one of the cache labels *)
Definition declared (e : MetricEvent) : Prop :=
  match e with Observed _ c _ => c ∈ CACHE_LABELS | _ => True end.

Lemma elem_of_pairs {A} (f : A -> string) (la : list A) (lb : list string) a b :
  a ∈ la -> b ∈ lb -> [f a; b] ∈ (a ← la; b ← lb; [[f a; b]]).
Proof.
  intros Ha Hb. apply list_elem_of_bind. exists a. split; [|done].
  apply list_elem_of_bind. exists b. split; [by left|done].
Qed.

Lemma Routes_all r : r ∈ ROUTES.
Proof. destruct r; set_solver. Qed.
Lemma Kinds_all k : k ∈ KINDS.
Proof. destruct k; set_solver. Qed.

Lemma status_class_declared status : status_class status ∈ ALL_CLASSES.
Proof. unfold status_class. repeat case_match; set_solver. Qed.

Section labels.
Context `{Pops : PromOps, !PromLaws}.

(** ** Typed vectors *)

(** a vector with [n] labels and series only for [declared] *)
Record labelled (n : nat) (declared : list (list string)) (v : IntCounterVec) : Prop := {
  lb_arity : arity v = n;
  lb_series ls : is_Some (series v !! ls) -> ls ∈ declared;
}.

Record well_labelled (m : Metrics) : Prop := {
  wl_requests : labelled 2 request_labels (requests m);
  wl_responses : labelled 2 response_labels (responses m);
  wl_origin : labelled 2 origin_labels (origin_requests m);
  wl_idle : labelled 1 idle_labels (origin_body_idle_timeouts m);
}.

Lemma labelled_with n d ls v :
  labelled n d v -> length ls = n -> ls ∈ d ->
  exists v', with_label_values ls v = Done v' /\ labelled n d v'.
Proof.
  intros [Ha Hs] Hl Hd. destruct (with_label_values_ok ls v) as (v' & Hv & Ha' & Hs'); [congruence|].
  exists v'. split; [done|]. constructor; [congruence|]. intros ls'. rewrite Hs'.
  rewrite lookup_insert_is_Some. intros [<-|[_ ?]]; eauto.
Qed.

Lemma labelled_inc n d ls v : labelled n d v -> labelled n d (series_inc ls v).
Proof.
  intros [Ha Hs]. constructor; [by rewrite arity_series_inc|]. intros ls'.
  rewrite series_series_inc, lookup_alter_is_Some. apply Hs.
Qed.

Lemma labelled_inc_series n d ls v :
  labelled n d v -> length ls = n -> ls ∈ d ->
  exists v', inc_series ls v = Done v' /\ labelled n d v'.
Proof.
  intros Hv Hl Hd. destruct (labelled_with n d ls v Hv Hl Hd) as (v' & Hw & Hv').
  exists (series_inc ls v'). unfold inc_series. rewrite Hw. split; [done|by apply labelled_inc].
Qed.

Lemma labelled_create n d l v :
  labelled n d v -> Forall (fun ls => length ls = n /\ ls ∈ d) l ->
  exists v', create_series l v = Done v' /\ labelled n d v'.
Proof.
  unfold create_series. intros Hv Hl. revert v Hv.
  induction Hl as [|ls l [Hls Hd] _ IH]; intros v Hv; simpl; [by exists v|].
  destruct (labelled_with n d ls v Hv Hls Hd) as (v' & -> & Hv'). by apply IH.
Qed.

(** a vector that keeps to its declared values has no more series than those *)
Lemma labelled_size n d v : labelled n d v -> (size (series v) <= length d)%nat.
Proof.
  intros [_ Hs]. rewrite <- size_dom.
  transitivity (size (list_to_set d : gset (list string))).
  - apply subseteq_size. intros ls Hls%elem_of_dom%Hs. by apply elem_of_list_to_set.
  - clear. induction d as [|ls d IH]; cbn [list_to_set length]; [by apply Nat.eq_le_incl, size_empty|].
    pose proof (size_union_alt ({[ls]} : gset (list string)) (list_to_set d)) as Hu.
    rewrite size_singleton in Hu. rewrite Hu.
    assert (size (list_to_set d ∖ {[ls]} : gset (list string)) <=
      size (list_to_set d : gset (list string)))%nat by (apply subseteq_size; set_solver). lia.
Qed.

(** ** Every call keeps the types *)

Lemma labelled_observe route cache status m :
  well_labelled m -> cache ∈ CACHE_LABELS ->
  exists m', observe route cache status m = Done m' /\ well_labelled m'.
Proof.
  intros [Hq Hp Ho Hi] Hc. unfold observe.
  destruct (labelled_inc_series _ _ [Route_label route; cache] _ Hq) as (v1 & -> & Hv1);
    [done|by apply elem_of_pairs; [apply Routes_all|]|].
  destruct (labelled_inc_series _ _ [Route_label route; status_class status] _ Hp)
    as (v2 & Hv2 & ?);
    [done|by apply elem_of_pairs; [apply Routes_all|apply status_class_declared]|].
  simpl. rewrite Hv2. eexists. split; [done|]. by constructor.
Qed.

Lemma labelled_origin_inc kind outcome m :
  well_labelled m -> outcome ∈ ALL_CLASSES ++ ["error"; "timeout"]%string ->
  exists v, inc_series [OriginKind_label kind; outcome] (origin_requests m) = Done v /\
    labelled 2 origin_labels v.
Proof.
  intros [] Ho. apply labelled_inc_series; [done..|].
  by apply elem_of_pairs; [apply Kinds_all|].
Qed.

Lemma labelled_responded kind status elapsed m :
  well_labelled m ->
  exists m', origin_responded kind status elapsed m = Done m' /\ well_labelled m'.
Proof.
  intros Hm. unfold origin_responded.
  destruct (labelled_origin_inc kind (status_class status) m Hm) as (v & -> & Hv).
  { apply elem_of_app. left. apply status_class_declared. }
  eexists. split; [done|]. destruct Hm. by constructor.
Qed.

Lemma labelled_failed kind failure m :
  well_labelled m -> exists m', origin_failed kind failure m = Done m' /\ well_labelled m'.
Proof.
  intros Hm. unfold origin_failed. cbv zeta.
  edestruct (labelled_origin_inc kind) as (v & -> & Hv);
    [exact Hm|destruct failure; by apply (bool_decide_unpack _)|].
  eexists. split; [done|]. destruct Hm. by constructor.
Qed.

Lemma labelled_idle kind m :
  well_labelled m -> exists m', body_idle_timeouts kind m = Done m' /\ well_labelled m'.
Proof.
  intros [Hq Hp Ho Hi]. unfold body_idle_timeouts.
  destruct (labelled_with _ _ [OriginKind_label kind] _ Hi) as (v & -> & Hv);
    [done|destruct kind; by apply (bool_decide_unpack _)|].
  eexists. split; [done|]. by constructor.
Qed.

Lemma labelled_requests_get route cache m :
  well_labelled m -> cache ∈ CACHE_LABELS ->
  exists n m', requests_get route cache m = Done (n, m') /\ well_labelled m'.
Proof.
  intros [Hq Hp Ho Hi] Hc. unfold requests_get, get_series.
  destruct (labelled_with _ _ [Route_label route; cache] _ Hq) as (v & -> & Hv);
    [done|by apply elem_of_pairs; [apply Routes_all|]|].
  do 2 eexists. split; [done|]. by constructor.
Qed.

Lemma labelled_both_routes cache m :
  well_labelled m -> cache ∈ CACHE_LABELS ->
  exists n m', both_routes cache m = Done (n, m') /\ well_labelled m'.
Proof.
  intros Hm Hc. unfold both_routes.
  destruct (labelled_requests_get Proxy cache m Hm Hc) as (n & m1 & -> & Hm1). simpl.
  destruct (labelled_requests_get AssetRoute cache m1 Hm1 Hc) as (n' & m2 & -> & Hm2). simpl.
  eauto.
Qed.

Lemma labelled_cache_counts m :
  well_labelled m -> exists c m', cache_counts m = Done (c, m') /\ well_labelled m'.
Proof.
  intros Hm. unfold cache_counts.
  destruct (labelled_both_routes HIT m Hm) as (? & m1 & -> & H1); [by apply (bool_decide_unpack _)|]. simpl.
  destruct (labelled_both_routes MISS m1 H1) as (? & m2 & -> & H2); [by apply (bool_decide_unpack _)|]. simpl.
  destruct (labelled_requests_get Proxy BYPASS m2 H2) as (? & m3 & -> & H3); [by apply (bool_decide_unpack _)|]. simpl.
  destruct (labelled_both_routes STALE m3 H3) as (? & m4 & -> & H4); [by apply (bool_decide_unpack _)|]. simpl.
  destruct (labelled_both_routes COALESCED m4 H4) as (? & m5 & -> & H5); [by apply (bool_decide_unpack _)|]. simpl.
  eauto.
Qed.

Lemma labelled_event e m :
  well_labelled m -> declared e -> exists m', count_event e m = Done m' /\ well_labelled m'.
Proof.
  intros Hm He. destruct e as [r c s|k s d|k f|k| | |]; simpl in *.
  - by apply labelled_observe.
  - by apply labelled_responded.
  - by apply labelled_failed.
  - destruct (labelled_idle k m Hm) as (m' & -> & []). eexists. split; [done|].
    constructor; try done. by apply labelled_inc.
  - eexists. split; [done|]. destruct Hm. by constructor.
  - eexists. split; [done|]. destruct Hm. by constructor.
  - destruct (labelled_cache_counts m Hm) as (c & m' & -> & Hm'). by exists m'.
Qed.

Lemma labelled_events es m :
  well_labelled m -> Forall declared es ->
  exists m', count_events es m = Done m' /\ well_labelled m'.
Proof.
  intros Hm Hes. revert m Hm. induction Hes as [|e es He _ IH]; intros m Hm; simpl; [by exists m|].
  destruct (labelled_event e m Hm He) as (m1 & -> & Hm1). by apply IH.
Qed.

Lemma labelled_Metrics_new : exists m, Metrics_new = Done m /\ well_labelled m.
Proof.
  destruct Metrics_new_start as (m & -> & Hm & S1 & S2 & S3 & S4).
  destruct (c_arity _ _ Hm) as (A1 & A2 & A3 & A4). clear Hm.
  assert (forall n d v, arity v = n -> series v = ∅ -> labelled n d v) as Hempty.
  { intros n d v Ha Hs. constructor; [done|]. intros ls. rewrite Hs, lookup_empty.
    by intros [? ?]. }
  unfold initialise_series.
  set (proxied := map (fun cache => ["proxy"; cache])%string CACHE_LABELS).
  set (assets := map (fun cache => ["asset"; cache])%string ASSET_CACHE_LABELS).
  set (origin := mbind _ [Foreground; Background]).
  set (idles := map _ [Foreground; Background]).
  set (classes := mbind _ [Proxy; AssetRoute]).
  assert (forall n (d l : list (list string)), forallb (fun ls => bool_decide (length ls = n /\ ls ∈ d)) l = true ->
    Forall (fun ls : list string => length ls = n /\ ls ∈ d) l) as Hall.
  { intros n d l Hl. apply Forall_forall. intros ls Hin. rewrite forallb_forall in Hl.
    eapply bool_decide_eq_true_1, Hl. by apply list_elem_of_In. }
  destruct (labelled_create 2 request_labels proxied (requests m)) as (v1 & -> & H1);
    [by apply Hempty|by apply Hall|]. simpl.
  destruct (labelled_create 2 request_labels assets v1) as (v2 & -> & H2);
    [done|by apply Hall|]. simpl.
  destruct (labelled_create 2 origin_labels origin (origin_requests m)) as (v3 & -> & H3);
    [by apply Hempty|by apply Hall|]. simpl.
  destruct (labelled_create 1 idle_labels idles (origin_body_idle_timeouts m)) as (v4 & -> & H4);
    [by apply Hempty|by apply Hall|]. simpl.
  destruct (labelled_create 2 response_labels classes (responses m)) as (v5 & -> & H5);
    [by apply Hempty|by apply Hall|]. simpl.
  eexists. split; [done|]. by constructor.
Qed.

(** C30. The metrics are well typed. Whatever the proxy counts after
    [Metrics::new], as long as each request gets one of the six cache labels,
    no call panics for a wrong number of label values, and every series has
    declared labels: a route and a cache label, a route and a status class, an
    origin request's kind and outcome, or a kind. So there are never more than
    12, 12, 16 and 2 series, whatever the clients and the origin send. *)
Theorem metrics_well_labelled es :
  Forall declared es ->
  exists m0 m, Metrics_new = Done m0 /\ count_events es m0 = Done m /\ well_labelled m /\
    (size (series (requests m)) <= 12)%nat /\ (size (series (responses m)) <= 12)%nat /\
    (size (series (origin_requests m)) <= 16)%nat /\
    (size (series (origin_body_idle_timeouts m)) <= 2)%nat.
Proof.
  intros Hes. destruct labelled_Metrics_new as (m0 & H0 & Hm0).
  destruct (labelled_events es m0 Hm0 Hes) as (m & Hrun & Hm).
  exists m0, m. split; [done|]. split; [done|]. split; [done|].
  destruct Hm as [Hq Hp Ho Hi]. split_and!; by eapply labelled_size in Hq, Hp, Ho, Hi.
Qed.
End labels.

Lemma metrics_well_labelled_witness :
  exists m0 m, Metrics_new = Done m0 /\ count_events ex_events m0 = Done m /\
    well_labelled m /\ (size (series (requests m)) <= 12)%nat.
Proof.
  destruct (metrics_well_labelled ex_events) as (m0 & m & H0 & Hm & Hw & Hs & _).
  - repeat constructor; by apply (bool_decide_unpack _).
  - exists m0, m. by split_and!.
Defined.
