(* ===== verification/Response.v ===== *)
(** The client's responses, as actix builds them: a status, a header map and a
    body, which is none, some bytes, or a stream of type [T]. *)

From stdpp Require Import base tactics option list strings.
From S2P Require Import Prelude RustStd Http.

Inductive ResponseBody (T : Type) :=
| NoBody
| FullBody (body : Bytes)
| StreamedBody (stream : T).
Arguments NoBody {_}.
Arguments FullBody {_} _.
Arguments StreamedBody {_} _.

Record HttpResponse `{HttpOps} (T : Type) := {
  resp_status : StatusCode;
  resp_headers : HeaderMap;
  resp_body : ResponseBody T;
}.
Arguments resp_status {_ _} _.
Arguments resp_headers {_ _} _.
Arguments resp_body {_ _} _.
Arguments Build_HttpResponse {_ _} _ _ _.

(** a run of [append_header] calls *)
Definition append_headers `{HttpOps} (l : Fields) (m : HeaderMap) : HeaderMap :=
  fold_left (fun m f => HeaderMap_append (fst f) (snd f) m) l m.

Lemma get_all_append_headers `{HttpLaws} l m n :
  HeaderMap_get_all (append_headers l m) n = HeaderMap_get_all m n ++ values_of n l.
Proof.
  unfold append_headers. revert m. induction l as [|[n' v] l IH]; intros m; simpl.
  - by rewrite app_nil_r.
  - rewrite IH, HeaderMap_get_all_append, values_of_cons. by rewrite app_assoc.
Qed.

#[export] Hint Rewrite @get_all_append_headers @HeaderMap_get_all_insert
  @HeaderMap_get_all_append @HeaderMap_get_all_new using typeclasses eauto : headers.
