(* ===== verification/Assets.v ===== *)
(** Paths of local assets ([resolve_asset] in [src/assets.rs]): the path of a
    request, resolved inside the asset directory. The file system is what its
    calls return, one [Fs] per call, since files may change between them.
    [AssetTasks] has the rest of that file. *)

From stdpp Require Import base tactics numbers option list gmap strings.
From Stdlib Require Import Ascii.
From S2P Require Import Prelude RustStd Http.

Local Open Scope N_scope.

(** ** [std::path], on Unix *)

(** [std::path::Component] *)
Inductive Component :=
| RootDir
| CurDir
| ParentDir
| Normal (name : string).

#[export] Instance Component_eq_dec : EqDecision Component.
Proof. solve_decision. Defined.

(** the components of the parts between slashes: empty parts and [.] are
    dropped, except a leading [.] *)
Definition part_component (part : string) : option Component :=
  if is_empty part || String.eqb part "." then None
  else if String.eqb part ".." then Some ParentDir
  else Some (Normal part).

(** [Path::components] *)
Definition components (path : string) : list Component :=
  match str_split "/" path with
  | first :: (_ :: _ as rest) =>
      (if is_empty first then [RootDir]
       else if String.eqb first "." then [CurDir] else option_list (part_component first))
      ++ omap part_component rest
  | [first] => if String.eqb first "." then [CurDir] else option_list (part_component first)
  | [] => []
  end.

Definition is_absolute (path : string) : bool :=
  match path with String c _ => Ascii.eqb c "/" | EmptyString => false end.

Fixpoint ends_with (c : ascii) (s : string) : bool :=
  match s with
  | EmptyString => false
  | String c' EmptyString => Ascii.eqb c' c
  | String _ s => ends_with c s
  end.

(** [PathBuf::push] *)
Definition PathBuf_push (path name : string) : string :=
  if is_absolute name then name
  else if is_empty path || ends_with "/" path then (path +:+ name)%string
  else (path +:+ "/" +:+ name)%string.

(** [Path::starts_with], which compares components *)
Definition starts_with (path base : string) : bool :=
  bool_decide (components base `prefix_of` components path).

(** what the file system answers to one call *)
Record Fs := {
  canonicalize : string -> option string;
  (** [metadata(..)]: [modified()], which may fail, and [len()] *)
  fs_metadata : string -> option (option SystemTime * N);
  fs_read : string -> option Bytes;
}.

(** ** [resolve_asset] *)

(** the loop over the segments *)
Fixpoint push_segments (segments : list string) (relative : string) : option string :=
  match segments with
  | [] => Some relative
  | segment :: segments =>
      match components segment with
      | [Normal name] =>
          if String.eqb name segment then push_segments segments (PathBuf_push relative name)
          else None
      | _ => None
      end
  end.

(** [fs_root] and [fs_file] are the file system at the two calls *)
Definition resolve_asset (fs_root fs_file : Fs) (root requested : string) : option string :=
  relative ← push_segments (str_split "/" requested) "";
  root ← canonicalize fs_root root;
  resolved ← canonicalize fs_file (PathBuf_push root relative);
  if starts_with resolved root then Some resolved else None.

(** ** Paths stay inside the asset directory *)

(** a segment that names a file or a directory *)
Definition plain_segment (segment : string) : Prop :=
  segment <> ""%string /\ segment <> "."%string /\ segment <> ".."%string.

Lemma str_split_ne sep s : str_split sep s <> [].
Proof. destruct s as [|c s]; simpl; [done|]. destruct (Ascii.eqb c sep); [done|]. by case_match. Qed.

Lemma str_split_solid sep s seg : seg ∈ str_split sep s -> str_split sep seg = [seg].
Proof.
  revert seg. induction s as [|c s IH]; intros seg; simpl.
  { by intros ->%list_elem_of_singleton. }
  destruct (Ascii.eqb c sep) eqn:E.
  - intros [->|Hin]%elem_of_cons; [done|by apply IH].
  - pose proof (str_split_ne sep s) as Hne.
    destruct (str_split sep s) as [|p ps]; [done|].
    intros [->|Hin]%elem_of_cons; [|apply IH; by right].
    simpl. rewrite E, (IH p); [done|by left].
Qed.

Lemma str_join_split sep s : str_join (String sep "") (str_split sep s) = s.
Proof.
  unfold str_join. induction s as [|c s IH]; simpl; [done|].
  pose proof (str_split_ne sep s) as Hne.
  destruct (Ascii.eqb_spec c sep) as [->|_].
  - destruct (str_split sep s) as [|p ps]; [done|]. simpl in *. by rewrite IH.
  - destruct (str_split sep s) as [|p [|q ps]]; [done|..]; simpl in *; by rewrite <- IH.
Qed.

Lemma components_segment seg : str_split "/" seg = [seg] ->
  components seg = [Normal seg] <-> plain_segment seg.
Proof.
  intros Hs. unfold components, plain_segment. rewrite Hs. unfold part_component.
  destruct (String.eqb_spec seg ".") as [->|]; [naive_solver|].
  destruct (is_empty seg) eqn:E; simpl.
  { apply is_empty_true in E as ->. naive_solver. }
  apply is_empty_false in E. destruct (String.eqb_spec seg "..") as [->|]; naive_solver.
Qed.

Lemma components_segment_name seg name : str_split "/" seg = [seg] ->
  components seg = [Normal name] -> name = seg.
Proof.
  intros Hs. unfold components. rewrite Hs. unfold part_component.
  repeat case_match; naive_solver.
Qed.

Lemma ends_with_app c s t : t <> ""%string -> ends_with c (s +:+ t)%string = ends_with c t.
Proof.
  intros Ht. induction s as [|a s IH]; [done|]. rewrite string_app_cons.
  simpl. rewrite IH. destruct s, t; done.
Qed.

Lemma ends_with_solid sep seg : str_split sep seg = [seg] -> ends_with sep seg = false.
Proof.
  induction seg as [|c seg IH]; [done|]. simpl. destruct (Ascii.eqb c sep) eqn:E.
  - by intros [=].
  - destruct (str_split sep seg) as [|p ps] eqn:Hs; [by apply str_split_ne in Hs|].
    intros [= -> ->].
    destruct seg; [done|]. by apply IH.
Qed.

Lemma is_absolute_solid seg : str_split "/" seg = [seg] -> is_absolute seg = false.
Proof.
  destruct seg as [|c seg]; [done|]. simpl. destruct (Ascii.eqb c "/") eqn:E; [|done].
  by intros [=].
Qed.

Lemma is_empty_app a b : is_empty (a +:+ b)%string = is_empty a && is_empty b.
Proof. by destruct a. Qed.

(** pushing plain segments onto a path that does not end in a slash joins them *)
Lemma push_segments_spec segments relative :
  Forall (fun seg => str_split "/" seg = [seg]) segments ->
  (relative = ""%string \/ ends_with "/" relative = false) ->
  push_segments segments relative =
    if bool_decide (Forall plain_segment segments)
    then Some (str_join "/" ((if is_empty relative then [] else [relative]) ++ segments))
    else None.
Proof.
  intros Hs. revert relative. induction Hs as [|seg segments Hseg _ IH]; intros rel Hrel; simpl.
  { destruct rel; [done|]. simpl. done. }
  destruct (decide (plain_segment seg)) as [Hp|Hp].
  - pose proof (proj2 (components_segment _ Hseg) Hp) as Hc. rewrite Hc, String.eqb_refl.
    pose proof (ends_with_solid _ _ Hseg) as He. destruct Hp as (Hne & Hp).
    assert (PathBuf_push rel seg = (if is_empty rel then seg else rel +:+ "/" +:+ seg)%string)
      as Hpush.
    { unfold PathBuf_push. rewrite is_absolute_solid by done.
      destruct Hrel as [->|Hrel]; [done|]. rewrite Hrel, orb_false_r. by destruct rel. }
    assert (PathBuf_push rel seg <> ""%string /\ ends_with "/" (PathBuf_push rel seg) = false)
      as [Hnil Hend].
    { rewrite Hpush. destruct rel as [|c rel]; [done|]. cbn [is_empty]. split; [done|].
      by rewrite string_app_assoc, ends_with_app. }
    rewrite IH by auto. apply is_empty_false in Hnil as ->. rewrite Hpush.
    assert (Forall plain_segment (seg :: segments) <-> Forall plain_segment segments) as Hiff.
    { rewrite Forall_cons. unfold plain_segment. naive_solver. }
    rewrite (bool_decide_ext _ _ Hiff). case_bool_decide; [|done]. f_equal.
    unfold str_join. destruct rel as [|c rel]; [done|]. simpl is_empty. cbv iota.
    simpl app. destruct segments as [|seg2 segments]; [done|].
    cbn [String.concat]. by rewrite !string_app_assoc.
  - rewrite bool_decide_eq_false_2 by (rewrite Forall_cons; naive_solver).
    destruct (components seg) as [|[| | |name] [|]] eqn:E; try done.
    pose proof (components_segment_name _ _ Hseg E) as ->. rewrite components_segment in E by done.
    done.
Qed.

(** the segments of a request are checked as a whole *)
Lemma push_request_segments requested :
  push_segments (str_split "/" requested) "" =
    if bool_decide (Forall plain_segment (str_split "/" requested))
    then Some requested else None.
Proof.
  rewrite push_segments_spec; [|apply Forall_forall; intros seg; apply str_split_solid|by left].
  simpl. by rewrite str_join_split.
Qed.

(** C20. A request reaches only files inside the asset directory. Its path
    resolves exactly when none of its segments is empty, [.] or [..], the
    directory and the file exist, and the file, with every symbolic link
    followed, lies in the directory; and then it is that file. *)
Theorem resolve_asset_inside fs_root fs_file root requested resolved :
  resolve_asset fs_root fs_file root requested = Some resolved <->
  Forall plain_segment (str_split "/" requested) /\
  exists real_root, canonicalize fs_root root = Some real_root /\
    canonicalize fs_file (PathBuf_push real_root requested) = Some resolved /\
    components real_root `prefix_of` components resolved.
Proof.
  unfold resolve_asset. rewrite push_request_segments.
  case_bool_decide as Hseg; simpl; [|naive_solver].
  destruct (canonicalize fs_root root) as [real_root|]; simpl; [|naive_solver].
  destruct (canonicalize fs_file _) as [p|] eqn:E; simpl; [|naive_solver].
  unfold starts_with. case_bool_decide; split; naive_solver.
Qed.
