(* ===== verification/Tasks.v ===== *)
(** Tasks: what one request or one background revalidation does to the state
    that all workers share ([AppState] in [src/lib.rs]). A [Task] is a program
    whose steps are its accesses to that state, its clock readings and its
    awaits; an await may also end it, as actix drops a handler when the client
    goes away. [run] executes a task in an environment [Env], which changes the
    shared state before each step as the other tasks and threads do, gives the
    time, and says which awaits end. A theorem about every [Env] is thus about
    every interleaving of the accesses; and [System] runs many tasks
    together. *)

From stdpp Require Import base tactics numbers option list gmap strings.
From Stdlib Require Import Ascii.
From S2P Require Import Prelude RustStd Http Directives Policy Moka Store Coalesce Upstream Body Metrics Response.

Local Open Scope N_scope.

Abbreviation Flight := (@FlightGuard FlightKey) (only parsing).

Section tasks.
Context `{Hops : HttpOps, Yops : HyperOps, Pops : PromOps,
  EntriesOps : !MokaOps Key Entry, IndexOps : !MokaOps PrimaryKey Index}.
(** ** Tasks *)

(** the parts of [AppState] that change *)
Record Shared := {
  sh_cache : Store;
  sh_flights : @Flights FlightKey _ _;
  sh_metrics : Metrics;
}.

(** the parts that do not *)
Record AppState := {
  upstream_base_url : Url;
  upstream_timeout : Duration;
}.

Record Clock := {
  instant_now : Instant;
  system_now : SystemTime;
}.

(** what the store's callback owns: how to store the response whose head has
    arrived, and the flight it ends *)
Record Finish := {
  fin_key : PrimaryKey;
  fin_vary : Vary;
  fin_storable : Storable;
  fin_status : StatusCode;
  fin_headers : Fields;
  fin_flight : option Flight;
}.

(** a background revalidation that was spawned *)
Record RefreshTask := {
  task_guard : RefreshGuard;
  task_req : HttpRequest;
  task_key : PrimaryKey;
  task_entry : StaleEntry;
  task_request : HyperRequest;
  task_target : Uri;
}.

Inductive Effect :=
| LookedUp (found : option Lookup)
| Led (flight : Flight)
| Released (flight : Flight)
| SentToOrigin (kind : OriginKind) (request : HyperRequest)
| Invalidated (key : PrimaryKey)
| Inserted (key : PrimaryKey) (vary : Vary) (policy : Storable) (status : StatusCode)
    (headers : Fields) (body : Bytes)
| Freshened (entry : StaleEntry)
| Spawned (task : RefreshTask)
| Counted (route : Route) (cache : string) (status : StatusCode).

(** ** Programs *)

(** a task ends with a value, is cancelled, panics, takes a step, in which it
    has the effects that it is recorded by, or awaits. What it awaits is there
    when [ready] says so; a timeout may end an await before, and a cancellation
    at any time *)
Inductive Task (A : Type) : Type :=
| Return (a : A)
| Cancelled
| Panicked
| Step {X : Type} (f : Clock -> Shared -> Run (X * Shared)) (effects : X -> list Effect)
    (rest : X -> Task A)
| Await (ready : Shared -> bool) (dropped rest : Task A).
Arguments Return {_} _.
Arguments Cancelled {_}.
Arguments Panicked {_}.
Arguments Step {_ _} _ _ _.
Arguments Await {_} _ _ _.

Fixpoint Task_then {A B} (f : A -> Task B) (m : Task A) : Task B :=
  match m with
  | Return a => f a
  | Cancelled => Cancelled
  | Panicked => Panicked
  | Step g effects rest => Step g effects (fun x => Task_then f (rest x))
  | Await ready dropped rest => Await ready (Task_then f dropped) (Task_then f rest)
  end.

#[export] Instance Task_ret : MRet Task := @Return.
#[export] Instance Task_bind : MBind Task := @Task_then.

(** one step *)
Definition step {A} (f : Clock -> Shared -> Run (A * Shared)) (effects : A -> list Effect)
    : Task A := Step f effects Return.

Definition no_effects {A} (_ : A) : list Effect := [].

(** a clock reading *)
Definition read_clock : Task Clock := step (fun c sh => Done (c, sh)) no_effects.

Definition on_cache {A} (f : Clock -> Store -> Run (A * Store)) (effects : A -> list Effect)
    : Task A :=
  step (fun c sh =>
    '(a, s) ← f c (sh_cache sh);
    Done (a, {| sh_cache := s; sh_flights := sh_flights sh; sh_metrics := sh_metrics sh |}))
    effects.

Definition on_flights {A} (f : @Flights FlightKey _ _ -> A * @Flights FlightKey _ _)
    (effects : A -> list Effect) : Task A :=
  step (fun _ sh =>
    let '(a, fl) := f (sh_flights sh) in
    Done (a, {| sh_cache := sh_cache sh; sh_flights := fl; sh_metrics := sh_metrics sh |}))
    effects.

Definition on_metrics (f : Metrics -> Run Metrics) (effects : list Effect) : Task unit :=
  step (fun _ sh =>
    m ← f (sh_metrics sh);
    Done (tt, {| sh_cache := sh_cache sh; sh_flights := sh_flights sh; sh_metrics := m |}))
    (fun _ => effects).

(** a panic, if [r] is one *)
Definition lift_run {A} (r : Run A) : Task A :=
  match r with Done a => Return a | Panic => Panicked end.

(** [drop(flight)] of an [Option<Flight>]: first [FlightGuard::drop], and then
    its fields *)
Definition release (flight : option Flight) : Task unit :=
  match flight with
  | None => mret tt
  | Some g =>
      _ ← on_flights (fun f => (tt, FlightGuard_drop g f)) no_effects;
      on_flights (fun f => (tt, FlightGuard_drop_fields g f)) (fun _ => [Released g])
  end.

(** what is recorded, at a step of its own *)
Definition note (effects : list Effect) : Task unit :=
  step (fun _ sh => Done (tt, sh)) (fun _ => effects).

(** a step in which the others may run *)
Definition pause : Task unit := step (fun _ sh => Done (tt, sh)) no_effects.

(** an await, of a task that owns [flight]: when it is cancelled, its values
    are dropped *)
Definition await (ready : Shared -> bool) (flight : option Flight) : Task unit :=
  Await ready (_ ← release flight; Cancelled) pause.

(** what comes from outside the process may be there at any time *)
Definition outside (_ : Shared) : bool := true.

(** ** One task among others *)

(** what happens before the [k]-th step of a task *)
Record Env := {
  others : nat -> Shared -> Shared;
  clock : nat -> Clock;
  (** whether an await at this step never returns *)
  cancelled : nat -> bool;
}.

Record TaskState := {
  tick : nat;
  shared : Shared;
  trace : list Effect;
}.

(** the task's value, or [None] if it was cancelled *)
Fixpoint run {A} (env : Env) (m : Task A) (s : TaskState) : Run (option A * TaskState) :=
  match m with
  | Return a => Done (Some a, s)
  | Cancelled => Done (None, s)
  | Panicked => Panic
  | Step f effects rest =>
      match f (clock env (tick s)) (others env (tick s) (shared s)) with
      | Done (x, sh) =>
          run env (rest x)
            {| tick := S (tick s); shared := sh; trace := trace s ++ effects x |}
      | Panic => Panic
      end
  | Await _ dropped rest => run env (if cancelled env (tick s) then dropped else rest) s
  end.

Lemma run_bind {A B} env (m : Task A) (f : A -> Task B) s :
  run env (m ≫= f) s =
  match run env m s with
  | Done (Some a, s) => run env (f a) s
  | Done (None, s) => Done (None, s)
  | Panic => Panic
  end.
Proof.
  revert s. induction m as [a| | |X g eff rest IH|w d IHd r IHr]; intros s; try done; cbn.
  - destruct (g _ _) as [[x sh]|]; [apply IH|done].
  - destruct (cancelled env (tick s)); [apply IHd|apply IHr].
Qed.
End tasks.

Arguments Return {_ _ _ _ _ _} _.
Arguments Cancelled {_ _ _ _ _ _}.
Arguments Panicked {_ _ _ _ _ _}.
Arguments Step {_ _ _ _ _ _ _} _ _ _.
Arguments Await {_ _ _ _ _ _} _ _ _.
