(* ===== verification/StoreTasks.v ===== *)
(** The store's methods that access the shared state more than once, as tasks:
    [Store::lookup] reads the index and then the entries; [Store::insert_response]
    reads the index, may take a generation, and writes the index and then the
    entries; [Store::freshen] looks whether its entry is still there and then
    replaces or removes it; [Store::insert_asset] writes the entries and has
    them tidied; [Store::entry_count] and [Store::weighted_size] have them
    tidied and read their size. Between two accesses the other workers run. A task
    alone does what the method of [Store] does ([accesses_compose]). *)

From stdpp Require Import base tactics numbers option list gmap strings.
From S2P Require Import Prelude RustStd Http Directives Policy Moka Store Coalesce Upstream Body Metrics Response Tasks.

Local Open Scope N_scope.

Section store.
Context `{Hops : HttpOps, Yops : HyperOps, Pops : PromOps,
  EntriesOps : !MokaOps Key Entry, IndexOps : !MokaOps PrimaryKey Index}.

Definition store_lookup (primary : PrimaryKey) (request : HeaderMap) (max_age : option Duration)
    : Task (option Lookup) :=
  key ← on_cache (fun c s => Done (lookup_index (instant_now c) primary request s, s)) no_effects;
  match key with
  | None => mret None
  | Some key =>
      found ← on_cache (fun c s => Done (lookup_entry (instant_now c) key s, s)) no_effects;
      match found with
      | None => mret None
      | Some response =>
          now ← read_clock;
          fresh ← (if is_fresh (instant_now now) (arc_get response) then
                     match max_age with
                     | None => mret true
                     | Some max_age =>
                         now ← read_clock;
                         age ← lift_run (age (instant_now now) (arc_get response));
                         mret (age <=? max_age)
                     end
                   else mret false);
          mret (Some (if fresh : bool then Fresh response
                      else Stale {| response := response; stale_key := key |}))
      end
  end.

(** [effects] record the insertion *)
Definition store_insert_response (primary : PrimaryKey) (vary : Vary) (policy : Storable)
    (status : StatusCode) (headers : Fields) (body : Bytes) (effects : list Effect)
    : Task (option (Arc StoredResponse)) :=
  reused ← on_cache (fun c s =>
    Done (if storable_body body s then Some (insert_get_index (instant_now c) primary vary s)
          else None, s)) no_effects;
  match reused with
  | None => mret None
  | Some reused =>
      generation ← match reused with
                   | Some generation => mret generation
                   | None => on_cache (fun _ s => Done (insert_fetch_add s)) no_effects
                   end;
      _ ← on_cache (fun c s => Done (tt, insert_index (instant_now c) primary vary generation s))
            no_effects;
      response ← on_cache (fun c s =>
        Done (insert_entry (instant_now c) primary vary generation policy status headers body s))
        (fun _ => effects);
      _ ← on_cache (fun c s => Done (tt, run_pending_tasks (instant_now c) s)) no_effects;
      mret (Some response)
  end.

(** a response with these parts that is not stored *)
Definition store_response (policy : Storable) (status : StatusCode) (headers : Fields)
    (body : Bytes) : Task (Arc StoredResponse) :=
  on_cache (fun c s => Done (Arc_new (new_response (instant_now c) policy status headers body s) s))
    no_effects.

Definition store_freshen (entry : StaleEntry) (request_policy : RequestPolicy)
    (request : HeaderMap) (update : Fields) (age : option HeaderValue)
    : Task (Arc StoredResponse) :=
  let stored := arc_get (response entry) in
  let headers := updated_fields (headers stored) update in
  let map := freshened_map headers age in
  let key := stale_key entry in
  now ← read_clock;
  let storable := storable (system_now now) request_policy request (status stored) map in
  current ← on_cache (fun c s => Done (is_current (instant_now c) key (response entry) s, s))
    (fun _ => [Freshened entry]);
  match storable with
  | Some (policy, vary) =>
      if current : bool then
        fresh ← store_insert_response (primary key) vary policy (status stored) headers
                  (body stored) [];
        match fresh with
        | Some fresh => mret fresh
        | None => store_response policy (status stored) headers (body stored)
        end
      else store_response policy (status stored) headers (body stored)
  | None =>
      _ ← if current
          then on_cache (fun _ s =>
            Done (tt, set_entries (cache_invalidate (Key_Response key) (entries s)) s)) no_effects
          else mret tt;
      store_response Storable_default (status stored) headers (body stored)
  end.

Definition store_insert_asset (path : string) (content : Bytes) (etag : string)
    (modified : SystemTime) : Task Asset :=
  '(asset, stored) ← on_cache (fun c s =>
    let asset := new_asset content etag modified s in
    Done (if enabled s && (len asset <=? max_entry s)
          then ((asset, true), insert_asset_entry (instant_now c) path asset s)
          else ((asset, false), s))) no_effects;
  _ ← (if stored : bool
       then on_cache (fun c s => Done (tt, run_pending_tasks (instant_now c) s)) no_effects
       else mret tt);
  mret asset.

Definition store_entry_count : Task N :=
  _ ← on_cache (fun c s => Done (tt, run_pending_tasks (instant_now c) s)) no_effects;
  on_cache (fun _ s => Done (cache_entry_count (entries s), s)) no_effects.

Definition store_weighted_size : Task N :=
  _ ← on_cache (fun c s => Done (tt, run_pending_tasks (instant_now c) s)) no_effects;
  on_cache (fun _ s => Done (cache_weighted_size (entries s), s)) no_effects.

(** ** Alone *)

(** an environment in which nothing else runs and no time passes *)
Definition alone (c : Clock) : Env :=
  {| others := fun _ sh => sh; clock := fun _ => c; cancelled := fun _ => false |}.

(** the value of a task that runs alone, and the state it leaves *)
Definition result {A} (c : Clock) (m : Task A) (sh : Shared) : Run (option A * Shared) :=
  '(o, s) ← run (alone c) m {| tick := 0; shared := sh; trace := [] |};
  Done (o, shared s).

Definition with_cache (s : Store) (sh : Shared) : Shared :=
  {| sh_cache := s; sh_flights := sh_flights sh; sh_metrics := sh_metrics sh |}.

Lemma run_alone {A} c (m : Task A) s :
  (r ← run (alone c) m s; Done (r.1, shared r.2)) = result c m (shared s).
Proof.
  unfold result. generalize (0%nat), (@nil Effect) as l. intros n l.
  assert (forall n1 n2 sh l1 l2,
    (r ← run (alone c) m {| tick := n1; shared := sh; trace := l1 |}; Done (r.1, shared r.2)) =
    (r ← run (alone c) m {| tick := n2; shared := sh; trace := l2 |}; Done (r.1, shared r.2)))
    as Hsame.
  { clear. induction m as [a| | |X f eff rest IH|w d IHd r IHr]; intros n1 n2 sh l1 l2; cbn; auto.
    destruct (f c sh) as [[x sh']|]; [apply IH|done]. }
  destruct s as [n1 sh l1]. rewrite (Hsame _ n _ _ l).
  destruct (run _ m _) as [[o s]|]; done.
Qed.

Lemma result_bind {A B} c (m : Task A) (f : A -> Task B) sh :
  result c (m ≫= f) sh =
  match result c m sh with
  | Done (Some a, sh) => result c (f a) sh
  | Done (None, sh) => Done (None, sh)
  | Panic => Panic
  end.
Proof.
  unfold result at 1 2. rewrite run_bind.
  destruct (run _ m _) as [[[a|] s]|]; simpl; [|done..].
  rewrite <- run_alone. by destruct (run _ _ s) as [[]|].
Qed.

Lemma result_on_cache {A} c (f : Clock -> Store -> Run (A * Store)) eff sh :
  result c (on_cache f eff) sh =
  match f c (sh_cache sh) with
  | Done (a, s) => Done (Some a, with_cache s sh)
  | Panic => Panic
  end.
Proof. unfold result, on_cache, step. cbn. by destruct (f c (sh_cache sh)) as [[a s]|]. Qed.

Lemma result_ret {A} c (a : A) sh : result c (mret a) sh = Done (Some a, sh).
Proof. done. Qed.

Lemma result_read_clock c sh : result c read_clock sh = Done (Some c, sh).
Proof. done. Qed.

Lemma result_lift_run {A} c (r : Run A) sh :
  result c (lift_run r) sh = match r with Done a => Done (Some a, sh) | Panic => Panic end.
Proof. by destruct r. Qed.

Lemma with_cache_same sh : with_cache (sh_cache sh) sh = sh.
Proof. by destruct sh. Qed.

#[local] Opaque result Task_then on_cache read_clock lift_run.

(** evaluates a task that runs alone *)
Ltac result_code :=
  repeat (rewrite ?result_bind, ?result_on_cache, ?result_read_clock, ?result_lift_run, ?result_ret,
            ?with_cache_same; cbn [sh_cache with_cache negb]).

Lemma result_store_lookup c primary request max_age sh :
  result c (store_lookup primary request max_age) sh =
  match lookup (instant_now c) primary request max_age (sh_cache sh) with
  | Done l => Done (Some l, sh)
  | Panic => Panic
  end.
Proof.
  unfold store_lookup, lookup. result_code.
  destruct (lookup_index _ _ _ _) as [key|]; result_code; [|done].
  destruct (lookup_entry _ _ _) as [r|]; result_code; [|done].
  unfold usable. destruct (is_fresh _ _); result_code; [|done].
  destruct max_age as [m|]; result_code; [|done].
  destruct (age _ _) as [a|]; by result_code.
Qed.

Lemma result_store_insert_response c primary vary policy status headers body effects sh :
  result c (store_insert_response primary vary policy status headers body effects) sh =
  let '(r, s) := insert_response (instant_now c) primary vary policy status headers body
                   (sh_cache sh) in
  Done (Some r, with_cache s sh).
Proof.
  unfold store_insert_response, insert_response. result_code.
  destruct (storable_body _ _); result_code; [|done].
  destruct (insert_get_index _ _ _ _) as [g|]; result_code;
    repeat match goal with
           | |- context [insert_fetch_add ?s] => destruct (insert_fetch_add s); result_code
           | |- context [let '(_, _) := insert_entry ?n ?p ?v ?g ?pol ?st ?hs ?b ?s in _] =>
               destruct (insert_entry n p v g pol st hs b s); result_code
           end; done.
Qed.

Lemma result_store_freshen c entry request_policy request update age sh :
  result c (store_freshen entry request_policy request update age) sh =
  let '(r, s) := freshen (instant_now c) (system_now c) entry request_policy request update age
                   (sh_cache sh) in
  Done (Some r, with_cache s sh).
Proof.
  unfold store_freshen, freshen, store_response. cbv zeta. result_code.
  destruct (storable _ _ _ _ _) as [[pol v]|]; destruct (is_current _ _ _ _); result_code; try done.
  rewrite result_store_insert_response.
  by destruct (insert_response _ _ _ _ _ _ _ _) as [[r|] s]; result_code.
Qed.

Lemma result_store_insert_asset c path content etag modified sh :
  result c (store_insert_asset path content etag modified) sh =
  let '(asset, s) := insert_asset (instant_now c) path content etag modified (sh_cache sh) in
  Done (Some asset, with_cache s sh).
Proof.
  unfold store_insert_asset, insert_asset. cbv zeta. result_code.
  destruct (enabled _ && _); by result_code.
Qed.

(** A method of the store is its accesses. When no other worker comes
    between them and the clock stands still, the accesses that a request makes
    one by one for a lookup, an insertion, a freshening, an asset or the cache's
    size give the result and leave the store of [Store]'s [lookup],
    [insert_response], [freshen], [insert_asset], [entry_count] and
    [weighted_size], and panic when those do. *)
Theorem accesses_compose c sh :
  (forall primary request max_age,
     result c (store_lookup primary request max_age) sh =
     match lookup (instant_now c) primary request max_age (sh_cache sh) with
     | Done l => Done (Some l, sh)
     | Panic => Panic
     end) /\
  (forall primary vary policy status headers body effects,
     result c (store_insert_response primary vary policy status headers body effects) sh =
     let '(r, s) := insert_response (instant_now c) primary vary policy status headers body
                      (sh_cache sh) in
     Done (Some r, with_cache s sh)) /\
  (forall entry request_policy request update age,
     result c (store_freshen entry request_policy request update age) sh =
     let '(r, s) := freshen (instant_now c) (system_now c) entry request_policy request update age
                      (sh_cache sh) in
     Done (Some r, with_cache s sh)) /\
  (forall path content etag modified,
     result c (store_insert_asset path content etag modified) sh =
     let '(asset, s) := insert_asset (instant_now c) path content etag modified (sh_cache sh) in
     Done (Some asset, with_cache s sh)) /\
  (result c store_entry_count sh =
     let '(n, s) := entry_count (instant_now c) (sh_cache sh) in Done (Some n, with_cache s sh)) /\
  (result c store_weighted_size sh =
     let '(n, s) := weighted_size (instant_now c) (sh_cache sh) in Done (Some n, with_cache s sh)).
Proof.
  split_and!; intros; [apply result_store_lookup|apply result_store_insert_response
    |apply result_store_freshen|apply result_store_insert_asset|by unfold store_entry_count; result_code..].
Qed.
End store.
