(* ===== verification/Proxy.v ===== *)
(** The proxy handler of [src/proxy.rs]: a request from [forward_to_upstream]
    to the client's response, through the cache, the flight for its key, the
    exchange with the origin and the background revalidation. Each function
    is the source's, as a [Task]. The bodies are polled in tasks too:
    [stream_body] is the stream of a response, [collect_polls] what a background
    revalidation collects, and both poll [IdleTimeout] at the time that the
    clock shows, where it can panic. *)

From stdpp Require Import base tactics numbers option list gmap strings.
From Stdlib Require Import Ascii.
From S2P Require Import Prelude RustStd Http Directives Policy Moka Store Coalesce Upstream Body Metrics Response Tasks StoreTasks.

Local Open Scope N_scope.

Section proxy.
Context `{Hops : HttpOps, Yops : HyperOps, Pops : PromOps,
  EntriesOps : !MokaOps Key Entry, IndexOps : !MokaOps PrimaryKey Index}.
Variable app : AppState.

(** ** Responses *)

Definition INTERNAL_SERVER_ERROR : StatusCode := 500.
Definition SERVICE_UNAVAILABLE : StatusCode := 503.
Definition GATEWAY_TIMEOUT : StatusCode := 504.
Definition BAD_REQUEST : StatusCode := 400.
Definition NOT_MODIFIED : StatusCode := 304.

(** the origin's body on its way to the client *)
Record ClientStream := {
  (** the length of a [SizedStream] *)
  stream_length : option N;
  stream_tee : Tee Finish;
  stream_idle : IdleTimeout;
}.

Abbreviation Response := (HttpResponse ClientStream) (only parsing).

Definition error_response (status : StatusCode) : Response :=
  let reason := unwrap_or (canonical_reason status) "" in
  Build_HttpResponse status HeaderMap_new (FullBody (to_ascii_lowercase reason)).

(** [cached_response] *)
Definition cached_response (stored : StoredResponse) (cache_status : string) : Task Response :=
  now ← read_clock;
  age ← lift_run (age (instant_now now) stored);
  mret (Build_HttpResponse (status stored)
    (HeaderMap_insert CACHE_STATUS cache_status
      (HeaderMap_insert header.AGE (u64_to_string (Duration_as_secs age))
        (append_headers (headers stored) HeaderMap_new)))
    (FullBody (body stored))).

(** ** Storing *)

(** how to store a cacheable response, with the flight it holds *)
Record Storing := {
  storing_limit : N;
  storing_key : PrimaryKey;
  storing_vary : Vary;
  storing_storable : Storable;
  storing_flight : option Flight;
}.

(** [Storing::holding] *)
Definition holding (s : Storing) (flight : option Flight) : Storing := {|
  storing_limit := storing_limit s; storing_key := storing_key s;
  storing_vary := storing_vary s; storing_storable := storing_storable s;
  storing_flight := flight |}.

Definition store_plan (req : HttpRequest) (cache_key : PrimaryKey) (request_policy : RequestPolicy)
    (head : Head) : Task (option Storing) :=
  let status := head_status head in
  _ ← (if negb (Method_is_safe (req_method req)) &&
          (StatusCode_is_success status || StatusCode_is_redirection status)
       then on_cache (fun _ s => Done (tt, invalidate cache_key s))
              (fun _ => [Invalidated cache_key])
       else mret tt);
  now ← read_clock;
  match storable (system_now now) request_policy (req_headers req) status (head_map head) with
  | None => mret None
  | Some (storable, vary) =>
      limit ← on_cache (fun _ s => Done (max_entry s, s)) no_effects;
      mret (Some {| storing_limit := limit; storing_key := cache_key; storing_vary := vary;
                    storing_storable := storable; storing_flight := None |})
  end.

(** what is recorded when the response is stored *)
Definition inserted (f : Finish) (body : Bytes) : list Effect :=
  [Inserted (fin_key f) (fin_vary f) (fin_storable f) (fin_status f) (fin_headers f) body].

(** the call of the callback: the response is stored, and the flight dropped *)
Definition run_finish (f : Finish) (body : Bytes) : Task unit :=
  _ ← store_insert_response (fin_key f) (fin_vary f) (fin_storable f) (fin_status f)
        (fin_headers f) body (inserted f body);
  release (fin_flight f).

(** what becomes of a callback that [Tee] owned *)
Fixpoint run_outcomes (l : list (Outcome Finish)) : Task unit :=
  match l with
  | [] => mret tt
  | Called f body :: l => _ ← run_finish f body; run_outcomes l
  | Dropped f :: l => _ ← release (fin_flight f); run_outcomes l
  end.

Definition client_response (head : Head) (idle : IdleTimeout) (store : option Storing)
    : Task Response :=
  let fields := forwardable_fields head in
  let headers := HeaderMap_insert CACHE_STATUS MISS (append_headers fields HeaderMap_new) in
  let length := content_length head in
  copy ← match store with
         | Some store =>
             if is_none_or length (fun length => length <=? storing_limit store) then
               mret (Some {| buffer := ""; copy_limit := storing_limit store;
                 finish := {| fin_key := storing_key store; fin_vary := storing_vary store;
                              fin_storable := storing_storable store;
                              fin_status := head_status head;
                              fin_headers := stored_fields fields;
                              fin_flight := storing_flight store |} |})
             else _ ← release (storing_flight store); mret None
         | None => mret None
         end;
  let '(outcomes, tee) := Tee_new length copy in
  _ ← run_outcomes outcomes;
  mret (Build_HttpResponse (head_status head) headers
    (StreamedBody {| stream_length := length; stream_tee := tee; stream_idle := idle |})).

(** ** The origin *)

(** how a request to the origin ended: with a response's head, with hyper's
    error, or with no head within the upstream timeout *)
Inductive OriginOutcome :=
| Responded (parts : Parts)
| Failed
| Elapsed.

(** [send_to_origin], which awaits the origin; nothing cancels the await of a
    spawned task *)
Definition send_to_origin (flight : option Flight) (kind : OriginKind) (request : HyperRequest)
    (outcome : OriginOutcome) : Task OriginOutcome :=
  started ← step (fun c sh => Done (instant_now c, sh))
    (fun _ => [SentToOrigin kind request]);
  _ ← match kind with Foreground => await outside flight | Background => pause end;
  _ ← match outcome with
      | Responded parts =>
          now ← read_clock;
          on_metrics (origin_responded kind (parts_status parts)
            (Instant_elapsed (instant_now now) started)) []
      | Failed => on_metrics (origin_failed kind OriginError) []
      | Elapsed => on_metrics (origin_failed kind Timeout) []
      end;
  mret outcome.

(** the [IdleTimeout] of a body of [kind] *)
Definition new_origin_body (kind : OriginKind) : Task IdleTimeout :=
  _ ← on_metrics (body_idle_timeouts kind) [];
  now ← read_clock;
  mret (origin_body (instant_now now) (upstream_timeout app)).

(** whether a [Sleep] until a deadline has ended when it is polled at a time *)
Variable timer : Instant -> Instant -> bool.

(** [IdleTimeout::poll_next] at the time of the clock, when the origin's own
    body returns [p]; a body that is given up is counted *)
Definition poll_body (kind : OriginKind) (p : Poll (Item unit)) (body : IdleTimeout)
    : Task (Poll (Item (BodyError unit)) * IdleTimeout) :=
  now ← read_clock;
  '(out, n, body) ← lift_run
    (IdleTimeout_poll_next timer {| poll_at := instant_now now; polled := p |} body);
  _ ← (if n =? 0 then mret tt
       else on_metrics (fun m => Done (inc_body_idle_timeouts kind m)) []);
  mret (out, body).

(** the stream of the client's response: [Tee] over [IdleTimeout] over the
    origin's body. It is polled by actix and in the end dropped with the
    response, wherever it got to *)
Fixpoint stream_body (polls : list (Poll (Item unit))) (stream : ClientStream) : Task unit :=
  match polls with
  | [] => run_outcomes (fst (drop_copy (stream_tee stream)))
  | p :: polls =>
      '(out, idle) ← poll_body Foreground p (stream_idle stream);
      let '(_, (outcomes, tee)) := Tee_poll_next out (stream_tee stream) in
      _ ← run_outcomes outcomes;
      stream_body polls {| stream_length := stream_length stream; stream_tee := tee;
                           stream_idle := idle |}
  end.

(** ** Background revalidation *)

(** [refresh_in_background], which spawns the task if it gets the guard *)
Definition refresh_in_background (req : HttpRequest) (cache_key : PrimaryKey)
    (entry : StaleEntry) : Task unit :=
  guard ← on_cache (fun _ s => Done (start_refresh entry s)) no_effects;
  match guard with
  | None => mret tt
  | Some guard =>
      let drop_guard := on_cache (fun _ s => Done (tt, RefreshGuard_drop guard s)) no_effects in
      let client := ClientInfo_from_request req in
      let path_and_query := unwrap_or (uri_path_and_query req) "" in
      match upstream_request req (upstream_base_url app) client path_and_query with
      | None => drop_guard
      | Some (builder, target_uri) =>
          let builder := fold_left (fun b n => Builder_remove n b) PRECONDITION_HEADERS builder in
          match Builder_body EmptyBody (with_validators builder (arc_get (response entry))) with
          | None => drop_guard
          | Some hyper_req =>
              _ ← on_metrics (fun m => Done (background_refresh m)) [];
              note [Spawned {|
                task_guard := guard; task_req := req; task_key := cache_key;
                task_entry := entry; task_request := hyper_req; task_target := target_uri |}]
          end
      end
  end.

(** [Limited::new(body, limit).collect().await], on the items of the body *)
Variable collect_limited : N -> list (Item (BodyError unit)) -> option Bytes.

(** the polls that [Limited::collect] makes of the body before it is done, at
    the body's end, at its first error or at the chunk that passes the limit,
    and the items that they bring; [polls] is what the origin's own body returns
    to them *)
Fixpoint collect_polls (polls : list (Poll (Item unit))) (body : IdleTimeout)
    : Task (list (Item (BodyError unit))) :=
  match polls with
  | [] => mret []
  | p :: polls =>
      '(out, body) ← poll_body Background p body;
      match out with
      | Pending => collect_polls polls body
      | Ready (Chunk chunk) =>
          its ← collect_polls polls body;
          mret (Chunk chunk :: its)
      | Ready item => mret [item]
      end
  end.

(** [refresh], given what the origin's body returns to the polls *)
Definition refresh (req : HttpRequest) (cache_key : PrimaryKey) (entry : StaleEntry)
    (parts : Parts) (polls : list (Poll (Item unit))) : Task unit :=
  let head := Head_from_upstream parts in
  let request_policy := RequestPolicy_new (req_method req) (req_headers req) in
  if head_status head =? NOT_MODIFIED then
    _ ← store_freshen entry request_policy (req_headers req)
          (stored_fields (forwardable_fields head)) (HeaderMap_get (head_map head) header.AGE);
    on_metrics (fun m => Done (revalidation m)) []
  else
    store ← store_plan req cache_key request_policy head;
    match store with
    | None => mret tt
    | Some store =>
        body ← new_origin_body Background;
        its ← collect_polls polls body;
        match collect_limited (storing_limit store) its with
        | Some collected =>
            run_finish {| fin_key := storing_key store; fin_vary := storing_vary store;
              fin_storable := storing_storable store; fin_status := head_status head;
              fin_headers := stored_fields (forwardable_fields head);
              fin_flight := storing_flight store |} collected
        | None => mret tt
        end
    end.

(** the task that [refresh_in_background] spawns *)
Definition background_task (task : RefreshTask) (outcome : OriginOutcome)
    (polls : list (Poll (Item unit))) : Task unit :=
  outcome ← send_to_origin None Background (task_request task) outcome;
  _ ← match outcome with
      | Responded parts =>
          refresh (task_req task) (task_key task) (task_entry task) parts polls
      | Failed | Elapsed => mret tt
      end;
  on_cache (fun _ s => Done (tt, RefreshGuard_drop (task_guard task) s)) no_effects.

(** ** The cache's answer *)

Inductive FreshUse := Hit | Coalesced.

Definition FreshUse_cache_status (u : FreshUse) : string :=
  match u with Hit => HIT | Coalesced => COALESCED end.

(** what the cache can do for a request before it goes to the origin *)
Inductive Cached :=
| Answer (response : Response)
| StaleEntryFound (entry : StaleEntry)
| Nothing.

(** what a request takes to the origin *)
Record ToOrigin := {
  to_stale : option StaleEntry;
  to_flight : option Flight;
}.

(** what the cache did for a request before any origin request *)
Inductive Before :=
| BeforeAnswer (response : Response)
| BeforeOrigin (to_origin : ToOrigin).

(** [Cached::or] *)
Definition Cached_or (c : Cached) (flight : option Flight) : Task Before :=
  match c with
  | Answer response => _ ← release flight; mret (BeforeAnswer response)
  | StaleEntryFound entry =>
      mret (BeforeOrigin {| to_stale := Some entry; to_flight := flight |})
  | Nothing => mret (BeforeOrigin {| to_stale := None; to_flight := flight |})
  end.

Definition while_revalidating (req : HttpRequest) (cache_key : PrimaryKey)
    (request_policy : RequestPolicy) (entry : StaleEntry) : Task Cached :=
  if negb (may_serve_stale request_policy) then mret (StaleEntryFound entry) else
  now ← read_clock;
  if negb (may_serve_while_revalidating (instant_now now) (arc_get (response entry)))
  then mret (StaleEntryFound entry) else
  response ← cached_response (arc_get (response entry)) STALE;
  _ ← refresh_in_background req cache_key entry;
  mret (Answer response).

Definition from_cache (req : HttpRequest) (cache_key : PrimaryKey)
    (request_policy : RequestPolicy) (fresh_use : FreshUse) : Task Cached :=
  if negb (may_serve request_policy) then mret Nothing else
  found ← store_lookup cache_key (req_headers req) (max_age request_policy);
  _ ← note [LookedUp found];
  match found with
  | Some (Fresh stored) =>
      response ← cached_response (arc_get stored) (FreshUse_cache_status fresh_use);
      mret (Answer response)
  | Some (Stale entry) =>
      if String.eqb (req_method req) GET
      then while_revalidating req cache_key request_policy entry
      else mret Nothing
  | None => mret Nothing
  end.

Definition join_flight (req : HttpRequest) (cache_key : PrimaryKey)
    (request_policy : RequestPolicy) : Task (@Join FlightKey) :=
  if negb (may_coalesce request_policy) then mret Alone else
  key ← on_cache (fun now s =>
    Done (flight_key (instant_now now) cache_key (req_headers req) s, s)) no_effects;
  match key with
  | Some key =>
      on_flights (join key (may_lead request_policy))
        (fun j => match j with Lead flight => [Led flight] | _ => [] end)
  | None => mret Alone
  end.

(** [wait_for_leader]: the await ends when the leader's guard has dropped, or
    after the upstream timeout *)
Definition wait_for_leader (waiter : Waiter) : Task unit :=
  await (fun sh => wait_returns waiter (sh_flights sh)) None.

Definition serve_from_cache (req : HttpRequest) (cache_key : PrimaryKey)
    (request_policy : RequestPolicy) : Task Before :=
  cached ← from_cache req cache_key request_policy Hit;
  before ← Cached_or cached None;
  match before with
  | BeforeAnswer response => mret (BeforeAnswer response)
  | BeforeOrigin to_origin =>
      j ← join_flight req cache_key request_policy;
      match j with
      | Alone => mret (BeforeOrigin to_origin)
      | Lead flight =>
          cached ← from_cache req cache_key request_policy Hit;
          Cached_or cached (Some flight)
      | Follow waiter =>
          _ ← wait_for_leader waiter;
          cached ← from_cache req cache_key request_policy Coalesced;
          Cached_or cached None
      end
  end.

(** ** The exchange with the origin *)

Definition ERROR_STATUSES : list StatusCode :=
  [INTERNAL_SERVER_ERROR; BAD_GATEWAY; SERVICE_UNAVAILABLE; GATEWAY_TIMEOUT].

(** one request on its way to the origin *)
Record Exchange := {
  ex_req : HttpRequest;
  ex_cache_key : PrimaryKey;
  ex_request_policy : RequestPolicy;
  ex_stale : option StaleEntry;
  (** whether the origin request carries the stale response's validators *)
  ex_revalidating : bool;
  ex_flight : option Flight;
}.

(** [Exchange::may_serve_on_error] *)
Definition exchange_may_serve_on_error (ex : Exchange) (stale : StaleEntry) : Task bool :=
  if negb (may_serve_stale (ex_request_policy ex)) then mret false else
  now ← read_clock;
  mret (may_serve_on_error (instant_now now) (arc_get (response stale))).

Definition serve_stale (stale : StaleEntry) : Task Response :=
  cached_response (arc_get (response stale)) STALE.

(** [Exchange::revalidated] *)
Definition revalidated (ex : Exchange) (stale : StaleEntry) (head : Head) : Task Response :=
  fresh ← store_freshen stale (ex_request_policy ex) (req_headers (ex_req ex))
            (stored_fields (forwardable_fields head)) (HeaderMap_get (head_map head) header.AGE);
  _ ← on_metrics (fun m => Done (revalidation m)) [];
  cached_response (arc_get fresh) REVALIDATED.

(** the rest of [Exchange::answered], after its early returns *)
Definition answered_by_origin (ex : Exchange) (head : Head) : Task Response :=
  store ← store_plan (ex_req ex) (ex_cache_key ex) (ex_request_policy ex) head;
  idle ← new_origin_body Foreground;
  match store with
  | Some store => client_response head idle (Some (holding store (ex_flight ex)))
  | None => _ ← release (ex_flight ex); client_response head idle None
  end.

(** [Exchange::answered] *)
Definition answered (ex : Exchange) (parts : Parts) : Task Response :=
  let head := Head_from_upstream parts in
  match ex_stale ex with
  | None => answered_by_origin ex head
  | Some stale =>
      if ex_revalidating ex && (head_status head =? NOT_MODIFIED) then
        response ← revalidated ex stale head;
        _ ← release (ex_flight ex);
        mret response
      else
        serves ← (if existsb (N.eqb (head_status head)) ERROR_STATUSES
                  then exchange_may_serve_on_error ex stale else mret false);
        if serves : bool then
          response ← serve_stale stale;
          _ ← release (ex_flight ex);
          mret response
        else answered_by_origin ex head
  end.

(** [Exchange::failed] *)
Definition failed (ex : Exchange) (status : StatusCode) : Task Response :=
  response ← match ex_stale ex with
    | None => mret (error_response status)
    | Some stale =>
        serves ← exchange_may_serve_on_error ex stale;
        if serves : bool then serve_stale stale
        else mret (error_response
          (if response_must_revalidate (arc_get (response stale)) then GATEWAY_TIMEOUT
           else status))
    end;
  _ ← release (ex_flight ex);
  mret response.

(** what the client and the origin do during a request: the payload's first
    chunk, with the channel for the rest, and how the exchange ended *)
Record Peers := {
  first_chunk : option (Bytes + unit);
  body_channel : N;
  origin_outcome : OriginOutcome;
}.

(** the start of [request_body], of a task that owns [flight] *)
Definition request_body_start (flight : option Flight) (peers : Peers)
    : Task (option UpstreamBody) :=
  _ ← await outside flight;
  mret (match first_chunk peers with
        | None => Some EmptyBody
        | Some (inl first) => Some (Streamed first (body_channel peers))
        | Some (inr _) => None
        end).

(** the part of [forward] after [serve_from_cache] *)
Definition forward_to_origin (req : HttpRequest) (client : ClientInfo) (path_and_query : string)
    (cache_key : PrimaryKey) (request_policy : RequestPolicy) (to_origin : ToOrigin)
    (peers : Peers) : Task Response :=
  let stale := to_stale to_origin in
  let flight := to_flight to_origin in
  match upstream_request req (upstream_base_url app) client path_and_query with
  | None => _ ← release flight; mret (error_response INTERNAL_SERVER_ERROR)
  | Some (builder, target_uri) =>
      let revalidating :=
        match stale with
        | Some entry => if conditional request_policy then None else Some entry
        | None => None
        end in
      let builder :=
        match revalidating with
        | Some entry => with_validators builder (arc_get (response entry))
        | None => builder
        end in
      let exchange := {| ex_req := req; ex_cache_key := cache_key;
        ex_request_policy := request_policy; ex_stale := stale;
        ex_revalidating := is_some revalidating; ex_flight := flight |} in
      body ← request_body_start flight peers;
      match body with
      | None => _ ← release flight; mret (error_response BAD_REQUEST)
      | Some body =>
          match Builder_body body builder with
          | None => _ ← release flight; mret (error_response INTERNAL_SERVER_ERROR)
          | Some hyper_req =>
              outcome ← send_to_origin flight Foreground hyper_req (origin_outcome peers);
              match outcome with
              | Responded parts => answered exchange parts
              | Failed => failed exchange BAD_GATEWAY
              | Elapsed => failed exchange GATEWAY_TIMEOUT
              end
          end
      end
  end.

Definition forward (req : HttpRequest) (request_policy : RequestPolicy) (peers : Peers)
    : Task Response :=
  let client := ClientInfo_from_request req in
  let path_and_query := unwrap_or (uri_path_and_query req) "" in
  let cache_key := PrimaryKey_new (scheme client) (host client) path_and_query in
  before ← serve_from_cache req cache_key request_policy;
  match before with
  | BeforeAnswer response => mret response
  | BeforeOrigin to_origin =>
      forward_to_origin req client path_and_query cache_key request_policy to_origin peers
  end.

Definition forward_to_upstream (req : HttpRequest) (peers : Peers) : Task Response :=
  let request_policy := RequestPolicy_new (req_method req) (req_headers req) in
  let bypass := bypasses_cache request_policy in
  response ← forward req request_policy peers;
  let cache :=
    if bypass then BYPASS else unwrap_or (cache_label (resp_headers response)) MISS in
  _ ← on_metrics (observe Proxy cache (resp_status response))
        [Counted Proxy cache (resp_status response)];
  mret response.
End proxy.
