(* ===== verification/TaskLogic.v ===== *)
(** Reasoning about tasks. [spec m Q] says that however [m] ends, with a value
    or cancelled, and whatever its steps find, the effects it has had satisfy
    [Q] together. [rspec] also lets each step rely on an invariant of the store
    that it must keep. The invariant is relative to what is known of the store
    ([Ghost]): knowledge only grows, so what one access of a store's method
    learns still holds at the next. Both are partial only in panics, which
    abort the process, and both follow the program: each primitive has its
    rule, and the rules for [mbind] compose them backwards. [spec_run] and
    [rspec_run] apply them to the runs of a task in an environment. *)

From stdpp Require Import base tactics numbers option list gmap strings.
From S2P Require Import Prelude RustStd Http Directives Policy Moka Store StoreInvariant Coalesce Upstream Provenance Body Metrics Response Tasks StoreTasks.

Lemma Done_inj {A} (a b : A) : Done a = Done b -> a = b.
Proof. by intros [= ->]. Qed.

Section logic.
Context `{Hops : HttpOps, Yops : HyperOps, Pops : PromOps,
  EntriesOps : !MokaOps Key Entry, IndexOps : !MokaOps PrimaryKey Index}.
(** what the lookups found, one after the other, and the background
    revalidations that were spawned *)
Definition lookups (l : list Effect) : list (option Lookup) :=
  omap (fun e => match e with LookedUp found => Some found | _ => None end) l.
Definition spawns (l : list Effect) : list RefreshTask :=
  omap (fun e => match e with Spawned t => Some t | _ => None end) l.

Fixpoint spec {A} (m : Task A) (Q : option A -> list Effect -> Prop) : Prop :=
  match m with
  | Return a => Q (Some a) []
  | Cancelled => Q None []
  | Panicked => True
  | Step f effects rest =>
      forall c sh x sh', f c sh = Done (x, sh') ->
        spec (rest x) (fun o l => Q o (effects x ++ l))
  | Await _ dropped rest => spec dropped Q /\ spec rest Q
  end.

Lemma spec_mono {A} (m : Task A) (P Q : option A -> list Effect -> Prop) :
  spec m P -> (forall o l, P o l -> Q o l) -> spec m Q.
Proof.
  revert P Q. induction m as [a| | |X f eff rest IH|w d IHd r IHr]; intros P Q Hm HPQ; cbn in *;
    [auto..| |].
  - intros c sh x sh' Hf. eapply IH; [by eapply Hm|]. auto.
  - destruct Hm. split; eauto.
Qed.

Lemma spec_ret {A} (a : A) Q : Q (Some a) [] -> spec (mret a) Q.
Proof. done. Qed.

Lemma spec_bind {A B} (m : Task A) (f : A -> Task B) Q :
  spec m (fun o l => match o with
                     | Some a => spec (f a) (fun o' l' => Q o' (l ++ l'))
                     | None => Q None l
                     end) ->
  spec (m ≫= f) Q.
Proof.
  revert Q. induction m as [a| | |X g eff rest IH|w d IHd r IHr]; intros Q Hm; cbn in *.
  - eapply spec_mono; [exact Hm|done].
  - done.
  - done.
  - intros c sh x sh' Hg. apply (IH x). eapply spec_mono; [by eapply Hm|].
    intros [a|] l; [|done]. intros Hs. eapply spec_mono; [exact Hs|].
    intros o l'. by rewrite app_assoc.
  - destruct Hm. split; auto.
Qed.

Lemma spec_forall {A B} (m : Task A) (Q : B -> option A -> list Effect -> Prop) :
  (forall b, spec m (Q b)) -> spec m (fun o l => forall b, Q b o l).
Proof.
  revert Q. induction m as [a| | |X f eff rest IH|w d IHd r IHr]; intros Q HQ; cbn in *;
    [done..| |].
  - intros c sh x sh' Hf. apply IH. eauto.
  - split; [apply IHd|apply IHr]; intros b; apply HQ.
Qed.

Lemma spec_and {A} (m : Task A) (P Q : option A -> list Effect -> Prop) :
  spec m P -> spec m Q -> spec m (fun o l => P o l /\ Q o l).
Proof.
  intros HP HQ. eapply spec_mono; [apply (spec_forall m (fun b : bool => if b then P else Q))|].
  - by intros [].
  - intros o l H. split; [apply (H true)|apply (H false)].
Qed.

Lemma spec_step {A} (f : Clock -> Shared -> Run (A * Shared)) eff Q :
  (forall c sh a sh', f c sh = Done (a, sh') -> Q (Some a) (eff a)) -> spec (step f eff) Q.
Proof. intros Hf c sh x sh' Hx. cbn. rewrite app_nil_r. eauto. Qed.

Lemma spec_read_clock Q : (forall c, Q (Some c) []) -> spec read_clock Q.
Proof. intros HQ. apply spec_step. intros c sh a sh' [= <- <-]. apply HQ. Qed.

Lemma spec_on_cache {A} (f : Clock -> Store -> Run (A * Store)) eff Q :
  (forall c s a s', f c s = Done (a, s') -> Q (Some a) (eff a)) -> spec (on_cache f eff) Q.
Proof.
  intros Hf. apply spec_step. intros c sh a sh' ([a' s] & Hs & [= <- <-])%Run_bind_Done. eauto.
Qed.

Lemma spec_on_flights {A} (f : @Flights FlightKey _ _ -> A * @Flights FlightKey _ _) eff Q :
  (forall fl, Q (Some (fst (f fl))) (eff (fst (f fl)))) -> spec (on_flights f eff) Q.
Proof.
  intros Hf. apply spec_step. intros c sh a sh'. specialize (Hf (sh_flights sh)).
  destruct (f (sh_flights sh)) as [a' fl]. by intros [= <- <-].
Qed.

Lemma spec_on_metrics f eff Q : Q (Some tt) eff -> spec (on_metrics f eff) Q.
Proof. intros HQ. apply spec_step. by intros c sh [] sh' _. Qed.

Lemma spec_lift_run {A} (r : Run A) Q :
  (forall a, r = Done a -> Q (Some a) []) -> spec (lift_run r) Q.
Proof. unfold lift_run. destruct r as [a|]; cbn; auto. Qed.

Lemma spec_pause Q : Q (Some tt) [] -> spec pause Q.
Proof. intros HQ. by apply spec_step; intros c sh [] sh' _. Qed.

Lemma spec_note effects Q : Q (Some tt) effects -> spec (note effects) Q.
Proof. intros HQ. by apply spec_step; intros c sh [] sh' _. Qed.

(** what dropping an [Option<Flight>] does *)
Definition released (flight : option Flight) : list Effect :=
  match flight with Some g => [Released g] | None => [] end.

Lemma spec_release flight Q : Q (Some tt) (released flight) -> spec (release flight) Q.
Proof.
  intros HQ. destruct flight as [g|]; [|by apply spec_ret].
  apply spec_bind, spec_on_flights. intros fl. apply spec_on_flights. intros fl'. exact HQ.
Qed.

Lemma spec_await ready flight Q :
  Q (Some tt) [] -> Q None (released flight) -> spec (await ready flight) Q.
Proof.
  intros HQ Hc. split; [|by apply spec_pause].
  apply spec_bind, spec_release. cbn. by rewrite app_nil_r.
Qed.

(** ** The store's methods *)

Lemma spec_store_lookup primary request max_age Q :
  (forall l, Q (Some l) []) -> spec (store_lookup primary request max_age) Q.
Proof.
  intros HQ. apply spec_bind, spec_on_cache. intros _ _ [key|] _ _; [|apply spec_ret, HQ].
  apply spec_bind, spec_on_cache. intros _ _ [r|] _ _; [|apply spec_ret, HQ].
  apply spec_bind, spec_read_clock. intros c. apply spec_bind.
  destruct (is_fresh _ _); [|apply spec_ret, spec_ret, HQ].
  destruct max_age as [m|]; [|apply spec_ret, spec_ret, HQ].
  apply spec_bind, spec_read_clock. intros c'. apply spec_bind, spec_lift_run. intros a _.
  apply spec_ret, spec_ret, HQ.
Qed.

Lemma spec_store_insert_response p v pol st hs b effects (Q : option (option (Arc StoredResponse)) -> list Effect -> Prop) :
  Q (Some None) [] -> (forall r, Q (Some (Some r)) effects) ->
  spec (store_insert_response p v pol st hs b effects) Q.
Proof.
  intros Hno HQ. apply spec_bind, spec_on_cache. intros _ _ [reused|] _ _; [|by apply spec_ret].
  apply spec_bind. assert (forall g, spec
    (_ ← on_cache (fun c s => Done (tt, insert_index (instant_now c) p v g s)) no_effects;
     response ← on_cache (fun c s => Done (insert_entry (instant_now c) p v g pol st hs b s))
       (fun _ => effects);
     _ ← on_cache (fun c s => Done (tt, run_pending_tasks (instant_now c) s)) no_effects;
     mret (Some response)) Q) as Hrest.
  { intros g. apply spec_bind, spec_on_cache. intros _ _ [] _ _.
    apply spec_bind, spec_on_cache. intros _ _ r _ _. apply spec_bind, spec_on_cache.
    intros _ _ [] _ _. apply spec_ret. simpl. rewrite !app_nil_r. apply HQ. }
  destruct reused as [g|]; [by apply spec_ret|]. apply spec_on_cache. by intros _ _ g _ _.
Qed.

Lemma spec_store_freshen entry rp request update age Q :
  (forall r, Q (Some r) [Freshened entry]) ->
  spec (store_freshen entry rp request update age) Q.
Proof.
  intros HQ. unfold store_freshen. cbv zeta. apply spec_bind, spec_read_clock. intros c.
  apply spec_bind, spec_on_cache. intros _ _ current _ _.
  assert (forall pol st hs b, spec (store_response pol st hs b)
    (fun o l => Q o ([] ++ [Freshened entry] ++ l))) as Hun.
  { intros pol st hs b. apply spec_on_cache. intros _ _ r _ _. apply HQ. }
  destruct (storable _ _ _ _ _) as [[pol v]|].
  - destruct current; [|apply Hun]. apply spec_bind, spec_store_insert_response; [apply Hun|].
    intros r. apply spec_ret, HQ.
  - apply spec_bind. destruct current; [apply spec_on_cache; intros _ _ [] _ _|apply spec_ret];
      apply Hun.
Qed.

(** ** One task among others *)

Lemma spec_run {A} env (m : Task A) Q s o s' :
  spec m Q -> run env m s = Done (o, s') -> exists l, trace s' = trace s ++ l /\ Q o l.
Proof.
  revert Q s. induction m as [a| | |X f eff rest IH|w d IHd r IHr]; intros Q s Hm Hs; cbn in *.
  - injection Hs as <- <-. exists []. by rewrite app_nil_r.
  - injection Hs as <- <-. exists []. by rewrite app_nil_r.
  - done.
  - destruct (f _ _) as [[x sh]|] eqn:E; [|done].
    destruct (IH x _ _ (Hm _ _ _ _ E) Hs) as (l & Hl & HQ). cbn in Hl.
    exists (eff x ++ l). by rewrite app_assoc.
  - destruct Hm. destruct (cancelled env (tick s)); eauto.
Qed.
End logic.

Arguments spec : simpl never.
(** one step of a proof about a task *)
Ltac spec_one :=
  match goal with
  | |- spec (mret _) _ => apply spec_ret
  | |- spec (mbind _ _) _ => apply spec_bind
  | |- spec read_clock _ => apply spec_read_clock; intros ?
  | |- spec (on_cache _ _) _ =>
      let c := fresh "c" in let s := fresh "s" in let a := fresh "a" in
      let s' := fresh "s'" in let Heq := fresh "Heq" in
      apply spec_on_cache; intros c s a s' Heq
  | |- spec (on_flights _ _) _ => apply spec_on_flights; intros ?
  | |- spec (on_metrics _ _) _ => apply spec_on_metrics
  | |- spec (lift_run _) _ => apply spec_lift_run; intros ??
  | |- spec (release _) _ => apply spec_release
  | |- spec (await _ _) _ => apply spec_await
  | |- spec pause _ => apply spec_pause
  | |- spec (note _) _ => apply spec_note
  | |- spec (store_lookup _ _ _) _ => apply spec_store_lookup; intros ?
  | |- spec (store_insert_response _ _ _ _ _ _ _) _ =>
      apply spec_store_insert_response; [|intros ?]
  | |- spec (store_freshen _ _ _ _ _) _ => apply spec_store_freshen; intros ?
  | |- spec (step _ _) _ =>
      let c := fresh "c" in let sh := fresh "sh" in let a := fresh "a" in
      let sh' := fresh "sh'" in let Heq := fresh "Heq" in
      apply spec_step; intros c sh a sh' Heq
  end.

(** ** Rely and guarantee *)

(** what may be known of the store: to which URI and [Vary] names a generation
    belongs, and that the store takes a body *)
Inductive Fact :=
| Belongs (generation : N) (primary : PrimaryKey) (vary : list HeaderName)
| Fits (body : Bytes).

(** knowledge, which only grows *)
Class Ghost (G : Type) := {
  grows : relation G;
  knows : G -> Fact -> Prop;
  grows_preorder :: PreOrder grows;
  knows_grows g g' f : grows g g' -> knows g f -> knows g' f;
}.

Section rely.
Context `{Hops : HttpOps, Log : OriginLog, Yops : HyperOps, Pops : PromOps,
  EntriesOps : !MokaOps Key Entry, IndexOps : !MokaOps PrimaryKey Index}.
Local Open Scope N_scope.
Context {G : Type} `{Gh : !Ghost G}.
(** the times that the clock may show, the store that a step may see at a time,
    and the invariant of the store *)
Variables (clocked : Clock -> Prop) (sees : Clock -> Store -> Prop) (ok : G -> Store -> Prop).

(** the two accesses of a lookup for [req] found [r] under [key] *)
Definition looked_up (req : HttpRequest) (key : ResponseKey) (r : Arc StoredResponse) : Prop :=
  exists g1 g2 c1 c2 s1 s2, grows g1 g2 /\ sees c1 s1 /\ ok g1 s1 /\ sees c2 s2 /\ ok g2 s2 /\
    lookup_index (instant_now c1) (uri_key req) (req_headers req) s1 = Some key /\
    lookup_entry (instant_now c2) key s2 = Some r.

(** a response that is fresh, and no older than the request allows *)
Definition fresh_enough (max_age : option Duration) (r : StoredResponse) : Prop :=
  (exists c, clocked c /\ is_fresh (instant_now c) r = true) /\
  forall m, max_age = Some m ->
    exists c a, clocked c /\ age (instant_now c) r = Done a /\ a <= m.

(** one that is not *)
Definition not_fresh_enough (max_age : option Duration) (r : StoredResponse) : Prop :=
  exists c, clocked c /\
    (is_fresh (instant_now c) r = false \/
     exists m a, max_age = Some m /\ age (instant_now c) r = Done a /\ m < a).

(** a stale response that a lookup for [req] found *)
Definition found (req : HttpRequest) (e : StaleEntry) : Prop :=
  looked_up req (stale_key e) (response e) /\
  not_fresh_enough (max_age (policy_of req)) (arc_get (response e)).

(** a background revalidation of what its request found *)
Definition good_task (t : RefreshTask) : Prop :=
  task_key t = uri_key (task_req t) /\ found (task_req t) (task_entry t).

Definition good_effect (e : Effect) : Prop :=
  match e with Spawned t => good_task t | _ => True end.

(** what [freshen] decides about a stale response: whether the response may
    still be stored *)
Definition freshened_storable (c : Clock) (req : HttpRequest) (e : StaleEntry) (update : Fields)
    (age : option HeaderValue) : option (Storable * Vary) :=
  let stored := arc_get (response e) in
  storable (system_now c) (policy_of req) (req_headers req) (status stored)
    (freshened_map (updated_fields (headers stored) update) age).

(** [fresh] is what a freshening makes of a stale response *)
Definition freshened (req : HttpRequest) (e : StaleEntry) (update : Fields)
    (age : option HeaderValue) (fresh : StoredResponse) : Prop :=
  let stored := arc_get (response e) in
  exists c c' s, clocked c /\ sees c' s /\
    fresh = new_response (instant_now c')
      (from_option fst Storable_default (freshened_storable c req e update age))
      (status stored) (updated_fields (headers stored) update) (body stored) s.

(** what may be stored: the response of an exchange that [storable] lets in, and
    a stale response that a 304 has freshened *)
Inductive allowed : PrimaryKey -> Vary -> Storable -> StatusCode -> Fields -> Bytes -> Prop :=
| allowed_exchange c req parts pol v b :
    let head := Head_from_upstream parts in
    clocked c ->
    storable (system_now c) (policy_of req) (req_headers req) (head_status head)
      (head_map head) = Some (pol, v) -> sent parts b ->
    allowed (uri_key req) v pol (head_status head) (stored_fields (forwardable_fields head)) b
| allowed_freshened c req e update age pol v :
    clocked c -> found req e -> freshened_storable c req e update age = Some (pol, v) ->
    allowed (primary (stale_key e)) v pol (status (arc_get (response e)))
      (updated_fields (headers (arc_get (response e))) update) (body (arc_get (response e))).

(** what the invariant must survive: each access to the store of a request, of
    its background revalidation, and of a request for an asset *)
Record kept : Prop := {
  kept_sees c s : sees c s -> clocked c;
  kept_refreshing g keys s : ok g s -> ok g (set_refreshing keys s);
  kept_invalidate g key s : ok g s -> ok g (invalidate key s);
  kept_remove g k s : ok g s -> ok g (set_entries (cache_invalidate k (entries s)) s);
  kept_evict g now s : ok g s -> ok g (run_pending_tasks now s);
  kept_asset g now path c et m s :
    ok g s -> enabled s = true -> str_len c <= max_entry s -> file_read path c et ->
    ok g (insert_asset_entry now path (new_asset c et m s) s);
  kept_stored_asset g now path a s :
    ok g s -> stored_asset now path s = Some a -> file_read path (content a) (etag a);
  kept_arc g s : ok g s -> ok g (set_heap_next (heap_next s + 1) s);
  kept_storable g b s : ok g s -> storable_body b s = true -> knows g (Fits b);
  kept_reuse g now p v n s :
    ok g s -> insert_get_index now p v s = Some n -> knows g (Belongs n p (names v));
  kept_fetch g c p v s :
    sees c s -> ok g s ->
    exists g', grows g g' /\ ok g' (snd (insert_fetch_add s)) /\
      knows g' (Belongs (fst (insert_fetch_add s)) p (names v));
  kept_index g now p v n s :
    ok g s -> knows g (Belongs n p (names v)) -> ok g (insert_index now p v n s);
  kept_entry g now p v n pol st hs b s :
    ok g s -> knows g (Belongs n p (names v)) -> knows g (Fits b) -> allowed p v pol st hs b ->
    ok g (snd (insert_entry now p v n pol st hs b s));
}.

(** [m], started with the knowledge [g] *)
Fixpoint rspec_from {A} (g : G) (m : Task A) (Q : option A -> list Effect -> Prop) : Prop :=
  match m with
  | Return a => Q (Some a) []
  | Cancelled => Q None []
  | Panicked => True
  | Step f effects rest =>
      forall g1 c sh x sh', grows g g1 -> sees c (sh_cache sh) -> ok g1 (sh_cache sh) ->
        f c sh = Done (x, sh') ->
        exists g2, grows g1 g2 /\ ok g2 (sh_cache sh') /\ Forall good_effect (effects x) /\
          rspec_from g2 (rest x) (fun o l => Q o (effects x ++ l))
  | Await _ dropped rest => rspec_from g dropped Q /\ rspec_from g rest Q
  end.

Definition rspec {A} (m : Task A) (Q : option A -> list Effect -> Prop) : Prop :=
  forall g, rspec_from g m Q.

Lemma rspec_from_mono {A} g (m : Task A) (P Q : option A -> list Effect -> Prop) :
  rspec_from g m P -> (forall o l, P o l -> Q o l) -> rspec_from g m Q.
Proof.
  revert g P Q. induction m as [a| | |X f eff rest IH|w d IHd r IHr]; intros g P Q Hm HPQ;
    cbn in *; [auto..| |].
  - intros g1 c sh x sh' Hg Hat Hk Hf. destruct (Hm g1 c sh x sh' Hg Hat Hk Hf) as (g2 & ? & ? & ? & ?).
    exists g2. split; [done|]. split; [done|]. split; [done|]. eapply IH; [done|]. auto.
  - destruct Hm. split; eauto.
Qed.

Lemma rspec_from_grows {A} g g' (m : Task A) Q :
  grows g g' -> rspec_from g m Q -> rspec_from g' m Q.
Proof.
  revert Q. induction m as [a| | |X f eff rest IH|w d IHd r IHr]; intros Q Hg Hm; cbn in *;
    [done..| |].
  - intros g1 c sh x sh' Hg1. apply Hm. by etrans.
  - destruct Hm. split; eauto.
Qed.

Lemma rspec_from_bind {A B} g (m : Task A) (f : A -> Task B) Q :
  rspec_from g m (fun o l => match o with
                      | Some a => rspec (f a) (fun o' l' => Q o' (l ++ l'))
                      | None => Q None l
                      end) ->
  rspec_from g (m ≫= f) Q.
Proof.
  revert g Q. induction m as [a| | |X h eff rest IH|w d IHd r IHr]; intros g Q Hm; cbn in *.
  - eapply rspec_from_mono; [exact (Hm g)|done].
  - done.
  - done.
  - intros g1 c sh x sh' Hg Hat Hk Hh.
    destruct (Hm g1 c sh x sh' Hg Hat Hk Hh) as (g2 & ? & ? & ? & Hx).
    exists g2. split; [done|]. split; [done|]. split; [done|]. apply IH.
    eapply rspec_from_mono; [exact Hx|].
    intros [a|] l; [|done]. intros Hs g3. eapply rspec_from_mono; [exact (Hs g3)|].
    intros o l'. by rewrite app_assoc.
  - destruct Hm. split; auto.
Qed.

Lemma rspec_mono {A} (m : Task A) (P Q : option A -> list Effect -> Prop) :
  rspec m P -> (forall o l, P o l -> Q o l) -> rspec m Q.
Proof. intros Hm HPQ g. by eapply rspec_from_mono. Qed.

Lemma rspec_ret {A} (a : A) Q : Q (Some a) [] -> rspec (mret a) Q.
Proof. by intros HQ g. Qed.

Lemma rspec_from_ret_inv {A} g (a : A) Q : rspec_from g (Return a) Q -> Q (Some a) [].
Proof. done. Qed.

Lemma rspec_bind {A B} (m : Task A) (f : A -> Task B) Q :
  rspec m (fun o l => match o with
                      | Some a => rspec (f a) (fun o' l' => Q o' (l ++ l'))
                      | None => Q None l
                      end) ->
  rspec (m ≫= f) Q.
Proof. intros Hm g. by apply rspec_from_bind. Qed.

(** what two proofs say of a task *)
Lemma rspec_and {A} (m : Task A) (P Q : option A -> list Effect -> Prop) :
  rspec m P -> spec m Q -> rspec m (fun o l => P o l /\ Q o l).
Proof.
  intros HP HQ g. specialize (HP g). revert g P Q HP HQ.
  induction m as [a| | |X f eff rest IH|w d IHd r IHr]; intros g P Q HP HQ; cbn in *;
    [done..| |].
  - intros g1 c sh x sh' Hg Hat Hk Hf. destruct (HP g1 c sh x sh' Hg Hat Hk Hf) as (g2 & ? & ? & ? & ?).
    exists g2. split; [done|]. split; [done|]. split; [done|]. apply IH; [done|]. by eapply HQ.
  - destruct HP, HQ. split; auto.
Qed.

Hypothesis K : kept.

(** a step that learns nothing for the rest of the task *)
Lemma rspec_step {A} (f : Clock -> Shared -> Run (A * Shared)) eff Q :
  (forall g c sh a sh', sees c (sh_cache sh) -> ok g (sh_cache sh) -> f c sh = Done (a, sh') ->
     ok g (sh_cache sh') /\ Forall good_effect (eff a) /\ Q (Some a) (eff a)) ->
  rspec (step f eff) Q.
Proof.
  intros Hf g g1 c sh x sh' Hg Hat Hk Hx. destruct (Hf g1 c sh x sh' Hat Hk Hx) as (? & ? & ?).
  exists g1. split_and!; try done. cbn. by rewrite app_nil_r.
Qed.

Lemma rspec_read_clock Q : (forall c, clocked c -> Q (Some c) []) -> rspec read_clock Q.
Proof.
  intros HQ. apply rspec_step. intros g c sh a sh' Hat Hk [= <- <-].
  split; [done|]. split; [constructor|]. by eapply HQ, (kept_sees K).
Qed.

Lemma rspec_on_cache {A} (f : Clock -> Store -> Run (A * Store)) eff Q :
  (forall g c s a s', sees c s -> ok g s -> f c s = Done (a, s') ->
     ok g s' /\ Forall good_effect (eff a) /\ Q (Some a) (eff a)) ->
  rspec (on_cache f eff) Q.
Proof.
  intros Hf. apply rspec_step.
  intros g c sh a sh' Hat Hk ([a' s] & Hs & [= <- <-])%Run_bind_Done. eauto.
Qed.

Lemma rspec_on_flights {A} (f : @Flights FlightKey _ _ -> A * @Flights FlightKey _ _) eff Q :
  (forall fl, Forall good_effect (eff (fst (f fl))) /\
     Q (Some (fst (f fl))) (eff (fst (f fl)))) -> rspec (on_flights f eff) Q.
Proof.
  intros Hf. apply rspec_step. intros g c sh a sh' _ Hk. specialize (Hf (sh_flights sh)).
  destruct (f (sh_flights sh)) as [a' fl]. by intros [= <- <-].
Qed.

Lemma rspec_on_metrics f eff Q :
  Forall good_effect eff -> Q (Some tt) eff -> rspec (on_metrics f eff) Q.
Proof.
  intros Hg HQ. apply rspec_step.
  by intros g c sh [] sh' _ Hk (m & _ & [= <-])%Run_bind_Done.
Qed.

Lemma rspec_lift_run {A} (r : Run A) Q :
  (forall a, r = Done a -> Q (Some a) []) -> rspec (lift_run r) Q.
Proof. unfold lift_run. destruct r as [a|]; intros HQ g; cbn; auto. Qed.

Lemma rspec_pause Q : Q (Some tt) [] -> rspec pause Q.
Proof.
  intros HQ. apply rspec_step. intros g c sh [] sh' _ Hk [= <-]. split; [done|].
  by split; [constructor|].
Qed.

Lemma rspec_note effects Q :
  Forall good_effect effects -> Q (Some tt) effects -> rspec (note effects) Q.
Proof. intros He HQ. apply rspec_step. by intros g c sh [] sh' _ Hk [= <-]. Qed.

Lemma rspec_release flight Q : Q (Some tt) (released flight) -> rspec (release flight) Q.
Proof.
  intros HQ. destruct flight as [g|]; [|by apply rspec_ret].
  apply rspec_bind, rspec_on_flights. intros fl. split; [constructor|].
  apply rspec_on_flights. intros fl'. split; [by repeat constructor|exact HQ].
Qed.

Lemma rspec_await ready flight Q :
  Q (Some tt) [] -> Q None (released flight) -> rspec (await ready flight) Q.
Proof.
  intros HQ Hc g. split; [|by apply rspec_pause].
  apply rspec_bind, rspec_release. intros g'. cbn. by rewrite app_nil_r.
Qed.

(** ** The store's methods, one access after the other *)

(** one access in the midst of a method *)
Lemma rspec_access {A B} g (f : Clock -> Store -> Run (A * Store)) eff (rest : A -> Task B) Q :
  (forall g1 c s a s', grows g g1 -> sees c s -> ok g1 s -> f c s = Done (a, s') ->
     exists g2, grows g1 g2 /\ ok g2 s' /\ Forall good_effect (eff a) /\
       rspec_from g2 (rest a) (fun o l => Q o (eff a ++ l))) ->
  rspec_from g (on_cache f eff ≫= rest) Q.
Proof.
  intros Hf g1 c sh a sh' Hg Hat Hk ([a' s] & Hs & [= <- <-])%Run_bind_Done. eapply Hf; eauto.
Qed.

Lemma rspec_here {A} g (m : Task A) Q : rspec m Q -> rspec_from g m Q.
Proof. intros Hm. apply Hm. Qed.

Lemma store_lookup_spec req :
  rspec (store_lookup (uri_key req) (req_headers req) (max_age (policy_of req)))
    (fun o l => l = [] /\ exists x, o = Some x /\
       match x with
       | Some (Fresh r) =>
           (exists key, looked_up req key r) /\ fresh_enough (max_age (policy_of req)) (arc_get r)
       | Some (Stale e) => found req e
       | None => True
       end).
Proof.
  intros g. unfold store_lookup. apply rspec_access. intros g1 c1 s1 key s1' _ Hs1 Hk1 [= Hix <-].
  exists g1. do 3 (split; [done|]). destruct key as [key|]; [|by apply rspec_here, rspec_ret; split; [|eexists]].
  apply rspec_access. intros g2 c2 s2 r s2' Hg Hs2 Hk2 [= Hen <-].
  exists g2. do 3 (split; [done|]). destruct r as [r|]; [|by apply rspec_here, rspec_ret; split; [|eexists]].
  assert (looked_up req key r) as Hlook by (exists g1, g2, c1, c2, s1, s2; by split_and!).
  apply rspec_here, rspec_bind, rspec_read_clock. intros c Hc. apply rspec_bind.
  apply (rspec_mono _ (fun o l => l = [] /\ exists b : bool, o = Some b /\
    if b then fresh_enough (max_age (policy_of req)) (arc_get r)
    else not_fresh_enough (max_age (policy_of req)) (arc_get r))).
  2:{ intros o l (-> & b & -> & Hb). apply rspec_ret. split; [done|]. eexists. split; [done|].
      destruct b; [by eauto|by split]. }
  destruct (is_fresh _ _) eqn:Ef.
  2:{ apply rspec_ret. split; [done|]. exists false. split; [done|]. exists c. auto. }
  destruct (max_age _) as [m|] eqn:Em.
  2:{ apply rspec_ret. split; [done|]. exists true. split; [done|]. split; [by exists c|done]. }
  apply rspec_bind, rspec_read_clock. intros c' Hc'. apply rspec_bind, rspec_lift_run.
  intros a Ha. apply rspec_ret. split; [done|]. eexists. split; [done|].
  destruct (N.leb_spec a m).
  - split; [by exists c|]. intros m' [= <-]. by exists c', a.
  - exists c'. split; [done|]. right. by exists m, a.
Qed.

Lemma store_insert_response_spec p v pol st hs b effects :
  allowed p v pol st hs b -> Forall good_effect effects ->
  rspec (store_insert_response p v pol st hs b effects) (fun o l =>
    l = [] /\ o = Some None \/
    l = effects /\ exists r c s, o = Some (Some r) /\ sees c s /\
      arc_get r = new_response (instant_now c) pol st hs b s).
Proof.
  intros Hallowed Heff g. unfold store_insert_response. apply rspec_access.
  intros g1 c1 s1 reused s1' _ Hs1 Hk1 [= <- <-]. exists g1. do 3 (split; [done|]).
  destruct (storable_body b s1) eqn:Hb; [|apply rspec_here, rspec_ret; by left].
  pose proof (kept_storable K _ _ _ Hk1 Hb) as Hfits.
  assert (forall g n, knows g (Belongs n p (names v)) -> knows g (Fits b) -> rspec_from g
    (_ ← on_cache (fun c s => Done (tt, insert_index (instant_now c) p v n s)) no_effects;
     response ← on_cache (fun c s => Done (insert_entry (instant_now c) p v n pol st hs b s))
       (fun _ => effects);
     _ ← on_cache (fun c s => Done (tt, run_pending_tasks (instant_now c) s)) no_effects;
     mret (Some response)) (fun o l => l = effects /\ exists r c s, o = Some (Some r) /\
       sees c s /\ arc_get r = new_response (instant_now c) pol st hs b s)) as Hrest.
  { clear g g1 c1 s1 Hs1 Hk1 Hb Hfits. intros g n Hn Hb. apply rspec_access.
    intros g1 c1 s1 [] s1' Hg1 _ Hk1 [= <-]. exists g1.
    pose proof (knows_grows _ _ _ Hg1 Hn) as Hn1.
    split; [done|]. split; [by apply (kept_index K)|]. split; [done|].
    apply rspec_access. intros g2 c2 s2 r s2' Hg2 Hs2 Hk2 Hins%Done_inj. exists g2.
    pose proof (knows_grows _ _ _ Hg2 Hn1) as Hn2.
    assert (knows g2 (Fits b)) as Hb2 by (by do 2 (eapply knows_grows; [done|])).
    pose proof (kept_entry K _ (instant_now c2) _ _ _ _ _ _ _ _ Hk2 Hn2 Hb2 Hallowed) as Hk3.
    rewrite Hins in Hk3. split; [done|]. split; [done|]. split; [done|].
    apply rspec_here, rspec_bind, rspec_on_cache.
    intros g3 c3 s3 [] s3' _ Hk4 [= <-]. split; [by apply (kept_evict K)|]. split; [done|].
    apply rspec_ret. simpl. rewrite app_nil_r. split; [done|]. exists r, c2, s2.
    split; [done|]. split; [done|]. by injection Hins as <- _. }
  destruct (insert_get_index (instant_now c1) p v s1) as [n|] eqn:Hn.
  - eapply rspec_from_mono; [by apply (Hrest g1 n); [by eapply (kept_reuse K)|]|]. auto.
  - apply rspec_access. intros g2 c2 s2 n s2' Hg2 Hs2 Hk2 [= <- <-].
    destruct (kept_fetch K g2 c2 p v s2 Hs2 Hk2) as (g3 & Hg3 & Hk3 & Hn3).
    exists g3. do 3 (split; [done|]).
    eapply rspec_from_mono; [apply Hrest; [done|]|auto].
    by do 2 (eapply knows_grows; [done|]).
Qed.

Lemma store_freshen_spec req e update age :
  found req e ->
  rspec (store_freshen e (policy_of req) (req_headers req) update age) (fun o l =>
    l = [Freshened e] /\ exists fresh, o = Some fresh /\ freshened req e update age (arc_get fresh)).
Proof.
  intros Hfound. unfold store_freshen. cbv zeta. apply rspec_bind, rspec_read_clock. intros c Hc.
  apply rspec_bind, rspec_on_cache. intros g c1 s1 current s1' _ Hk [= _ <-].
  split; [done|]. split; [by repeat constructor|].
  fold (freshened_storable c req e update age).
  set (Q := fun (o : option (Arc StoredResponse)) l => _).
  assert (rspec (store_response
    (from_option fst Storable_default (freshened_storable c req e update age))
    (status (arc_get (response e))) (updated_fields (headers (arc_get (response e))) update)
    (body (arc_get (response e)))) Q) as Hun.
  { apply rspec_on_cache. intros g2 c2 s2 r s2' Hs2 Hk2 [= <- <-].
    split; [by apply (kept_arc K)|]. split; [done|]. split; [done|]. eexists. split; [done|].
    by exists c, c2, s2. }
  destruct (freshened_storable c req e update age) as [[pol v]|] eqn:Es.
  - destruct current; [|exact Hun]. apply rspec_bind.
    eapply rspec_mono; [apply store_insert_response_spec; [by eapply allowed_freshened|done]|].
    intros o l [[-> ->]|(-> & r & c2 & s2 & -> & Hs2 & Hr)]; [exact Hun|].
    apply rspec_ret. split; [done|]. eexists. split; [done|]. exists c, c2, s2.
    split; [done|]. split; [done|]. by rewrite Es.
  - apply rspec_bind. destruct current; [|apply rspec_ret; exact Hun].
    apply rspec_on_cache. intros g2 c2 s2 [] s2' _ Hk2 [= <-].
    split; [by apply (kept_remove K)|]. split; [done|]. exact Hun.
Qed.
End rely.

Arguments rspec : simpl never.
Arguments rspec_from : simpl never.

(** ** One task among others *)

Section run.
Context `{Hops : HttpOps, Log : OriginLog, Yops : HyperOps, Pops : PromOps,
  EntriesOps : !MokaOps Key Entry, IndexOps : !MokaOps PrimaryKey Index}.
Context {G : Type} `{Gh : !Ghost G}.
Variables (env : Env) (start : nat) (ok : G -> Store -> Prop).

(** the clock showed [c] at a step of the task *)
Definition shown (c : Clock) : Prop := exists k, (start <= k)%nat /\ c = clock env k.

(** a step of the task saw the clock [c] and the store [s] *)
Definition at_step (c : Clock) (s : Store) : Prop :=
  exists k sh, (start <= k)%nat /\ c = clock env k /\ s = sh_cache (others env k sh).

Lemma at_step_shown c s : at_step c s -> shown c.
Proof. intros (k & _ & Hk & Hc & _). by exists k. Qed.

Lemma rspec_run {A} (m : Task A) Q g s o s' :
  (forall g k sh, ok g (sh_cache sh) ->
     exists g', grows g g' /\ ok g' (sh_cache (others env k sh))) ->
  rspec shown at_step ok m Q -> (start <= tick s)%nat -> ok g (sh_cache (shared s)) ->
  run env m s = Done (o, s') ->
  exists l, trace s' = trace s ++ l /\ Q o l.
Proof.
  intros Hothers Hm. specialize (Hm g). revert g Q s Hm.
  induction m as [a| | |X f eff rest IH|w d IHd r IHr]; intros g Q s Hm Ht Hk Hs; cbn in *.
  - injection Hs as <- <-. exists []. by rewrite app_nil_r.
  - injection Hs as <- <-. exists []. by rewrite app_nil_r.
  - done.
  - destruct (f _ _) as [[x sh]|] eqn:E; [|done].
    destruct (Hothers g (tick s) (shared s) Hk) as (g1 & Hg1 & Hk1).
    apply (Hm g1) in E as (g2 & _ & Hk2 & _ & Hx); [|done|by do 2 eexists|done].
    edestruct (IH x) as (l & Hl & HQ); [exact Hx| | |exact Hs|]; [cbn; lia|done|].
    cbn in Hl. exists (eff x ++ l). by rewrite app_assoc.
  - destruct Hm. destruct (cancelled env (tick s)); eauto.
Qed.
End run.

#[global] Opaque spec rspec rspec_from Task_then step read_clock on_cache on_flights on_metrics lift_run release pause
  note await.

(** one step of a proof about a task and the invariant [K] of the store; a
    step that changes the store is left to the proof *)
Ltac rspec_one K :=
  match goal with
  | |- rspec _ _ _ (mret _) _ => apply rspec_ret
  | |- rspec _ _ _ (mbind _ _) _ => apply rspec_bind
  | |- rspec _ _ _ read_clock _ => apply (rspec_read_clock _ _ _ K); intros ? ?
  | |- rspec _ _ _ (on_metrics _ _) _ =>
      apply rspec_on_metrics; [by repeat constructor|]
  | |- rspec _ _ _ (lift_run _) _ => apply rspec_lift_run; intros ??
  | |- rspec _ _ _ (release _) _ => apply rspec_release
  | |- rspec _ _ _ (await _ _) _ => apply rspec_await
  | |- rspec _ _ _ pause _ => apply rspec_pause
  | |- rspec _ _ _ (note [LookedUp _]) _ => apply rspec_note; [by repeat constructor|]
  end.
