(* ===== verification/ProxyAccounts.v ===== *)
(** What a request does however it goes: the flight it may lead is released
    exactly once, the origin is asked at most once, and the response is
    counted once, under the label that the client can read. *)

From stdpp Require Import base tactics numbers option list gmap strings.
From S2P Require Import Prelude RustStd Http Directives Policy Moka Store Coalesce Upstream Body Metrics Response Tasks StoreTasks TaskLogic Proxy.

Local Open Scope N_scope.

Section accounts.
Context `{Hops : HttpOps, Yops : HyperOps, Pops : PromOps,
  EntriesOps : !MokaOps Key Entry, IndexOps : !MokaOps PrimaryKey Index}.
Variable app : AppState.

(** ** What a trace says *)

Definition leads (l : list Effect) : list Flight :=
  omap (fun e => match e with Led g => Some g | _ => None end) l.
Definition releases (l : list Effect) : list Flight :=
  omap (fun e => match e with Released g => Some g | _ => None end) l.
(** the client requests that were sent on *)
Definition sends (l : list Effect) : list HyperRequest :=
  omap (fun e => match e with SentToOrigin Foreground r => Some r | _ => None end) l.
Definition counts (l : list Effect) : list (Route * string * StatusCode) :=
  omap (fun e => match e with Counted r c s => Some (r, c, s) | _ => None end) l.

(** [P] holds of what comes after a release *)
Fixpoint after_release (P : list Effect -> Prop) (l : list Effect) : Prop :=
  match l with
  | [] => True
  | Released _ :: l => P l
  | _ :: l => after_release P l
  end.

(** a release comes last *)
Abbreviation settled := (after_release (eq [])) (only parsing).

Lemma after_release_app P l1 l2 :
  releases l1 = [] -> after_release P l2 -> after_release P (l1 ++ l2).
Proof. induction l1 as [|[] l1 IH]; simpl; auto; done. Qed.

Lemma after_release_none P l : releases l = [] -> after_release P l.
Proof. intros Hl. rewrite <- (app_nil_r l). by apply after_release_app. Qed.

(** what is appended to a trace comes after its release *)
Lemma settled_then (P : list Effect -> Prop) l l2 : settled l -> P l2 -> after_release P l2 -> after_release P (l ++ l2).
Proof.
  intros Hl HP Hl2. induction l as [|e l IH]; [done|]. destruct e; simpl in *; auto. by subst l.
Qed.

(** effects that none of these lists *)
Definition inert (e : Effect) : Prop :=
  match e with
  | Led _ | Released _ | SentToOrigin Foreground _ | Counted _ _ _ => False
  | _ => True
  end.

(** the flight that the callback of a streamed response holds *)
Definition holds (r : HttpResponse ClientStream) : list Flight :=
  match resp_body r with
  | StreamedBody b =>
      match copy (stream_tee b) with
      | Some c => option_list (fin_flight (finish c))
      | None => []
      end
  | _ => []
  end.

(** a part that leads no flight: [own] was owned before, [held] is owned
    after, and at most [n] requests were sent on *)
Record accounts (own held : list Flight) (n : nat) (l : list Effect) : Prop := {
  a_flights : own ≡ₚ releases l ++ held;
  a_leads : leads l = [];
  a_sends : (length (sends l) <= n)%nat;
  a_counts : counts l = [];
  a_last : settled l;
}.

Lemma inert_lists l : Forall inert l ->
  leads l = [] /\ releases l = [] /\ sends l = [] /\ counts l = [].
Proof.
  unfold leads, releases, sends, counts. induction 1 as [|e l He _ (H1 & H2 & H3 & H4)]; [done|].
  destruct e as [| | |[]| | | | |]; simpl in *; try done; rewrite H1, H2, H3, H4; done.
Qed.

Lemma accounts_inert l own : Forall inert l -> accounts own own 0 l.
Proof.
  intros (H1 & H2 & H3 & H4)%inert_lists.
  constructor; rewrite ?H1, ?H2, ?H3, ?H4, ?app_nil_r; simpl; try done || lia.
  by apply after_release_none.
Qed.

(** accounts of a part that leads nothing, followed by the rest *)
Lemma accounts_after l1 l2 own mid held n :
  Forall inert l1 -> accounts mid held n l2 -> own = mid -> accounts own held n (l1 ++ l2).
Proof.
  intros (H1 & H2 & H3 & H4)%inert_lists [A1 A2 A3 A4 A5] ->.
  pose proof (after_release_app _ _ _ H2 A5).
  unfold leads, releases, sends, counts in *.
  constructor; unfold leads, releases, sends, counts; rewrite ?omap_app, ?H1, ?H2, ?H3, ?H4; done.
Qed.

Lemma accounts_released own flight : own = option_list flight -> accounts own [] 0 (released flight).
Proof.
  intros ->. destruct flight as [g|]; constructor; simpl; done || lia.
Qed.

(** ** The parts that touch no flight and send nothing on *)

Definition quiet {A} (m : Task A) : Prop := spec m (fun o l => o <> None /\ Forall inert l).

(** closes the leaves of a quiet task *)
Ltac quiet_leaf := split; [done|]; repeat constructor.

(** an answer from the cache is not streamed *)
Definition not_streamed (r : HttpResponse ClientStream) : Prop :=
  forall stream, resp_body r <> StreamedBody stream.

Lemma not_streamed_holds r : not_streamed r -> holds r = [].
Proof. unfold not_streamed, holds. destruct (resp_body r) as [| |stream]; try done. naive_solver. Qed.

Lemma quiet_cached_response stored label :
  spec (cached_response stored label)
    (fun o l => l = [] /\ exists r, o = Some r /\ not_streamed r).
Proof. unfold cached_response. repeat spec_one. split; [done|]. by eexists. Qed.

(** all that a look at the cache can add to the trace *)
Definition of_a_look (e : Effect) : Prop :=
  match e with LookedUp _ | Spawned _ => True | _ => False end.

Lemma spawned_inert l : Forall of_a_look l -> Forall inert l.
Proof. intros Hl. eapply Forall_impl; [exact Hl|]. by intros []. Qed.

Lemma quiet_refresh_in_background req key entry :
  spec (refresh_in_background app req key entry) (fun o l => o = Some tt /\ Forall of_a_look l).
Proof.
  unfold refresh_in_background. repeat spec_one.
  destruct a as [guard|]; [|spec_one; by repeat constructor].
  destruct (upstream_request _ _ _ _) as [[b u]|]; [|spec_one; by destruct a; repeat constructor].
  destruct (Builder_body _ _) as [r|]; [|spec_one; by destruct a; repeat constructor].
  repeat spec_one. by repeat constructor.
Qed.

Definition cached_holds (c : Cached) : Prop :=
  match c with Answer r => not_streamed r | _ => True end.

Lemma quiet_from_cache req key rp use :
  spec (from_cache app req key rp use)
    (fun o l => Forall of_a_look l /\ exists c, o = Some c /\ cached_holds c).
Proof.
  unfold from_cache. destruct (negb (may_serve rp)).
  { spec_one. split; [done|]. by eexists. }
  repeat spec_one. match goal with l : option Lookup |- _ => destruct l as [[stored|entry]|] end.
  - spec_one. eapply spec_mono; [apply quiet_cached_response|].
    intros o l (-> & r & -> & Hr). spec_one. simpl. split; [by repeat constructor|eauto].
  - destruct (String.eqb (req_method req) GET).
    2:{ spec_one. split; [by repeat constructor|]. by eexists. }
    unfold while_revalidating. destruct (negb (may_serve_stale rp)).
    { spec_one. split; [by repeat constructor|]. by eexists. }
    spec_one. spec_one. destruct (negb _).
    { spec_one. split; [by repeat constructor|]. by eexists. }
    spec_one. eapply spec_mono; [apply quiet_cached_response|].
    intros o l (-> & r & -> & Hr). spec_one.
    eapply spec_mono; [apply quiet_refresh_in_background|].
    intros o l [-> Hl]. spec_one. simpl. rewrite app_nil_r.
    split; [by constructor|]. by eexists.
  - spec_one. split; [by repeat constructor|]. by eexists.
Qed.

Lemma quiet_store_plan req key rp head :
  spec (store_plan req key rp head)
    (fun o l => Forall inert l /\ exists st, o = Some st /\
       forall s, st = Some s -> storing_flight s = None).
Proof.
  unfold store_plan. spec_one.
  assert (spec (if negb (Method_is_safe (req_method req)) &&
      (StatusCode_is_success (head_status head) || StatusCode_is_redirection (head_status head))
    then on_cache (fun _ s => Done (tt, invalidate key s)) (fun _ => [Invalidated key])
    else mret tt) (fun o l => Forall inert l /\ o = Some tt)) as Hinv.
  { case_match; spec_one; [destruct a|]; by repeat constructor. }
  eapply spec_mono; [exact Hinv|]. intros o l [Hl ->]. repeat spec_one.
  destruct (storable _ _ _ _ _) as [[pol v]|].
  - repeat spec_one. simpl. rewrite app_nil_r. split; [done|]. eexists. split; [done|].
    by intros ? [= <-].
  - spec_one. rewrite app_nil_r. split; [done|]. by eexists.
Qed.

(** ** The parts that own a flight *)

Lemma accounts_start own l : Forall inert l -> own = [] -> accounts own [] 0 l.
Proof. intros Hl ->. by apply accounts_inert. Qed.

Lemma accounts_then own held l1 l2 n :
  Forall inert l1 -> accounts own held n l2 -> accounts own held n (l1 ++ l2).
Proof. intros Hl Ha. by eapply accounts_after. Qed.

Lemma accounts_weaken own held n m l : (n <= m)%nat -> accounts own held n l -> accounts own held m l.
Proof. intros Hnm []. constructor; try done. lia. Qed.

(** a run that ends with a response, or with nothing when it is cancelled *)
Definition held (o : option (HttpResponse ClientStream)) : list Flight :=
  match o with Some r => holds r | None => [] end.

(** the callback may store, and then drops its flight *)
Definition finishes (f : Finish) (body : Bytes) (l : list Effect) : Prop :=
  exists l1, l = l1 ++ released (fin_flight f) /\ (l1 = [] \/ l1 = inserted f body).

Lemma finish_accounts f body :
  spec (run_finish f body) (fun o l => o = Some tt /\ finishes f body l).
Proof.
  unfold run_finish, finishes. spec_one.
  apply spec_store_insert_response; [|intros r]; spec_one; (split; [done|]); eauto.
Qed.

Lemma accounts_run_finish f body :
  spec (run_finish f body) (fun o l => o = Some tt /\
    accounts (option_list (fin_flight f)) [] 0 l).
Proof.
  eapply spec_mono; [apply finish_accounts|]. intros o l (-> & l1 & -> & Hl). split; [done|].
  apply accounts_then; [|by apply accounts_released]. destruct Hl as [-> | ->]; by repeat constructor.
Qed.

Lemma accounts_client_response head idle store :
  spec (client_response head idle store) (fun o l => exists r, o = Some r /\
    accounts (option_list (store ≫= storing_flight)) (holds r) 0 l /\
    (store = None -> l = [] /\ holds r = [])).
Proof.
  unfold client_response. spec_one.
  destruct store as [store|]; simpl.
  2:{ spec_one. unfold Tee_new. case_bool_decide; simpl; repeat spec_one; simpl;
        (eexists; split; [done|]); (split; [by apply accounts_start|done]). }
  destruct (is_none_or _ _); simpl.
  2:{ repeat spec_one. unfold Tee_new. case_bool_decide; simpl; repeat spec_one; simpl;
        (eexists; split; [done|]); rewrite ?app_nil_r; (split; [by apply accounts_released|done]). }
  spec_one. unfold Tee_new. case_bool_decide as Hlen; simpl.
  - unfold Tee_finish. simpl. rewrite Hlen. simpl. repeat spec_one.
    eapply spec_mono; [apply accounts_run_finish|]. intros o l [-> Hl].
    repeat spec_one. simpl. rewrite ?app_nil_r. eexists. split; [done|]. split; [exact Hl|done].
  - repeat spec_one. simpl. eexists. split; [done|]. split; [|done]. unfold holds. simpl.
    by apply accounts_inert.
Qed.

Lemma accounts_answered_by_origin ex head :
  spec (answered_by_origin app ex head) (fun o l => exists r, o = Some r /\
    accounts (option_list (ex_flight ex)) (holds r) 0 l).
Proof.
  unfold answered_by_origin, new_origin_body. spec_one.
  eapply spec_mono; [apply quiet_store_plan|]. intros o l (Hl & st & -> & Hst).
  repeat spec_one. simpl. destruct st as [st|].
  - eapply spec_mono; [apply accounts_client_response|]. intros o l' (r & -> & Hr & _).
    exists r. split; [done|]. rewrite ?app_nil_r. by apply accounts_then.
  - repeat spec_one. eapply spec_mono; [apply accounts_client_response|].
    intros o l' (r & -> & _ & Hnone). destruct (Hnone eq_refl) as [-> Hh].
    exists r. split; [done|]. rewrite ?app_nil_r, Hh.
    apply accounts_then; [done|]. by apply accounts_released.
Qed.

(** the drop of the exchange at the end of a handler that keeps nothing *)
Lemma accounts_release_then own l flight r :
  Forall inert l -> own = option_list flight -> not_streamed r ->
  accounts own (holds r) 0 (l ++ released flight).
Proof.
  intros Hl -> ->%not_streamed_holds. apply accounts_then; [done|]. by apply accounts_released.
Qed.

Lemma accounts_answered ex parts :
  spec (answered app ex parts) (fun o l => exists r, o = Some r /\
    accounts (option_list (ex_flight ex)) (holds r) 0 l).
Proof.
  unfold answered. destruct (ex_stale ex) as [stale|]; [|apply accounts_answered_by_origin].
  destruct (ex_revalidating ex && _).
  { unfold revalidated. spec_one. repeat spec_one.
    eapply spec_mono; [apply quiet_cached_response|]. intros o l (-> & r' & -> & Hr).
    repeat spec_one. exists r'. split; [done|]. simpl. rewrite ?app_nil_r.
    by apply (accounts_release_then _ [_]); [repeat constructor|..]. }
  assert (spec (if existsb (N.eqb (head_status (Head_from_upstream parts))) ERROR_STATUSES
    then exchange_may_serve_on_error ex stale else mret false)
    (fun o l => l = [] /\ exists b, o = Some b)) as Hserves.
  { case_match; [|spec_one; eauto]. unfold exchange_may_serve_on_error.
    destruct (negb _); repeat spec_one; eauto. }
  spec_one. eapply spec_mono; [exact Hserves|]. intros o l (-> & b & ->). destruct b.
  - spec_one. eapply spec_mono; [apply quiet_cached_response|]. intros o l (-> & r & -> & Hr).
    repeat spec_one. exists r. split; [done|]. simpl. rewrite ?app_nil_r.
    by apply (accounts_release_then _ []).
  - apply accounts_answered_by_origin.
Qed.

Lemma accounts_failed ex st :
  spec (failed ex st) (fun o l => exists r, o = Some r /\
    accounts (option_list (ex_flight ex)) (holds r) 0 l).
Proof.
  unfold failed. spec_one.
  assert (spec (match ex_stale ex with
    | None => mret (error_response st)
    | Some stale =>
        serves ← exchange_may_serve_on_error ex stale;
        if serves : bool then serve_stale stale
        else mret (error_response
          (if response_must_revalidate (arc_get (response stale)) then GATEWAY_TIMEOUT else st))
    end) (fun o l => l = [] /\ exists r, o = Some r /\ not_streamed r)) as Hr.
  { destruct (ex_stale ex) as [stale|]; [|spec_one; split; [done|by eexists]].
    unfold exchange_may_serve_on_error.
    destruct (negb _); repeat spec_one; simpl; [split; [done|by eexists]|].
    destruct (may_serve_on_error _ _); [|spec_one; split; [done|by eexists]].
    eapply spec_mono; [apply quiet_cached_response|]. intros o l (-> & r & -> & Hh). eauto. }
  eapply spec_mono; [exact Hr|]. intros o l (-> & r & -> & Hh).
  repeat spec_one. exists r. split; [done|]. simpl. rewrite ?app_nil_r.
  by apply (accounts_release_then _ []).
Qed.

Lemma spec_send_to_origin flight kind request outcome :
  spec (send_to_origin flight kind request outcome) (fun o l =>
    (o = Some outcome /\ l = [SentToOrigin kind request]) \/
    (o = None /\ l = SentToOrigin kind request :: released flight)).
Proof.
  unfold send_to_origin. repeat spec_one.
  destruct kind; repeat spec_one; simpl; try (by right); destruct outcome; repeat spec_one;
    by left.
Qed.

Lemma accounts_sent own held r n l :
  accounts own held n l -> accounts own held (S n) (SentToOrigin Foreground r :: l).
Proof. intros [A1 A2 A3 A4 A5]. constructor; simpl; try done. lia. Qed.

Lemma accounts_forward_to_origin req client pq key rp to_origin peers :
  spec (forward_to_origin app req client pq key rp to_origin peers)
    (fun o l => accounts (option_list (to_flight to_origin)) (held o) 1 l).
Proof.
  unfold forward_to_origin.
  assert (accounts (option_list (to_flight to_origin)) [] 1 (released (to_flight to_origin)))
    as Hrel by (by eapply accounts_weaken; [|apply accounts_released]; [lia|]).
  destruct (upstream_request _ _ _ _) as [[b u]|].
  2:{ repeat spec_one. simpl. by rewrite app_nil_r. }
  spec_one. unfold request_body_start. repeat spec_one; simpl; [|done].
  destruct (first_chunk peers) as [[first|]|]; simpl.
  2:{ repeat spec_one. simpl. by rewrite app_nil_r. }
  all: destruct (Builder_body _ _) as [hyper_req|];
    [|repeat spec_one; simpl; by rewrite app_nil_r].
  all: spec_one; eapply spec_mono; [apply spec_send_to_origin|];
    intros o l [[-> ->]|[-> ->]]; [|by apply accounts_sent, accounts_released].
  all: destruct (origin_outcome peers);
    (eapply spec_mono; [first [apply accounts_answered|apply accounts_failed]|]);
    intros o l (r & -> & Hr); by apply accounts_sent.
Qed.

(** the flight that was led, if any, is released or on its way to the origin *)
Record led_account (held : list Flight) (n : nat) (l : list Effect) : Prop := {
  l_flights : leads l ≡ₚ releases l ++ held;
  l_leads : (length (leads l) <= 1)%nat;
  l_sends : (length (sends l) <= n)%nat;
  l_counts : counts l = [];
  l_last : settled l;
}.

Lemma led_inert l : Forall inert l -> led_account [] 0 l.
Proof.
  intros (H1 & H2 & H3 & H4)%inert_lists.
  constructor; rewrite ?H1, ?H2, ?H3, ?H4; simpl; try done || lia. by apply after_release_none.
Qed.

Lemma led_then l1 l2 own held m n :
  led_account own m l1 -> releases l1 = [] -> accounts own held n l2 ->
  led_account held (m + n) (l1 ++ l2).
Proof.
  intros [L1 L2 L3 L4 _] Hnone [A1 A2 A3 A4 A5]. pose proof (after_release_app _ _ _ Hnone A5). unfold leads, releases, sends, counts in *.
  constructor; unfold leads, releases, sends, counts; rewrite ?omap_app, ?A2, ?app_nil_r,
    ?L4, ?A4, ?length_app; try done; [|lia].
  by rewrite L1, A1, app_assoc.
Qed.

Lemma led_join g l1 :
  Forall inert l1 -> led_account [g] 0 (l1 ++ [Led g]) /\ releases (l1 ++ [Led g]) = [].
Proof.
  intros (H1 & H2 & H3 & H4)%inert_lists.
  assert (releases (l1 ++ [Led g]) = []) as Hnone by (unfold releases in *; by rewrite omap_app, H2).
  split; [|done]. pose proof (after_release_none (eq []) _ Hnone). unfold leads, releases, sends, counts in *.
  constructor; unfold leads, releases, sends, counts; rewrite ?omap_app, ?H1, ?H2, ?H3, ?H4;
    simpl; done || lia.
Qed.

(** what [serve_from_cache] leaves to the rest of the request *)
Definition before_flights (b : option Before) : list Flight :=
  match b with
  | Some (BeforeAnswer r) => holds r
  | Some (BeforeOrigin t) => option_list (to_flight t)
  | None => []
  end.

(** a request that goes on to the origin has released nothing *)
Definition keeps_flight (b : option Before) (l : list Effect) : Prop :=
  forall t, b = Some (BeforeOrigin t) -> releases l = [].

Lemma accounts_Cached_or c flight :
  cached_holds c ->
  spec (Cached_or c flight) (fun o l => exists b, o = Some b /\
    accounts (option_list flight) (before_flights o) 0 l /\ keeps_flight o l).
Proof.
  intros Hc. destruct c as [r|entry|]; simpl; repeat spec_one; (eexists; split; [done|]); simpl.
  - split; [|by intros t]. rewrite app_nil_r, (not_streamed_holds _ Hc). by apply accounts_released.
  - split; [by apply accounts_inert|done].
  - split; [by apply accounts_inert|done].
Qed.

(** a second look at the cache, of a request that may own a flight *)
Lemma led_second_look req key rp use flight l1 :
  led_account (option_list flight) 0 l1 -> releases l1 = [] ->
  spec (cached ← from_cache app req key rp use; Cached_or cached flight)
    (fun o l => led_account (before_flights o) 0 (l1 ++ l) /\ keeps_flight o (l1 ++ l)).
Proof.
  intros Hl1 Hnone. spec_one. eapply spec_mono; [apply quiet_from_cache|].
  intros o l (Hl%spawned_inert & c & -> & Hc). eapply spec_mono; [by apply accounts_Cached_or|].
  intros o l' (b & -> & Hb & Hkeep). split; [apply (led_then _ _ _ _ 0 0 Hl1 Hnone); by apply accounts_then|].
  intros t Ht. specialize (Hkeep t Ht). destruct (inert_lists _ Hl) as (_ & H2 & _).
  unfold releases in *. by rewrite !omap_app, Hnone, H2, Hkeep.
Qed.

Lemma led_join_flight req key rp l1 :
  Forall inert l1 ->
  spec (join_flight req key rp) (fun o l => exists j, o = Some j /\
    match j with
    | Lead g => led_account [g] 0 (l1 ++ l) /\ releases (l1 ++ l) = []
    | _ => Forall inert (l1 ++ l)
    end).
Proof.
  intros Hl1. unfold join_flight. destruct (negb (may_coalesce rp)).
  { spec_one. eexists. split; [done|]. by rewrite app_nil_r. }
  repeat spec_one. destruct a as [fk|]; repeat spec_one; simpl;
    (eexists; split; [done|]); [|by rewrite app_nil_r].
  destruct (join fk (may_lead rp) fl) as [[g|w|] fl']; simpl;
    [by apply led_join|by rewrite app_nil_r..].
Qed.

Lemma led_serve_from_cache req key rp :
  spec (serve_from_cache app req key rp) (fun o l =>
    led_account (before_flights o) 0 l /\ keeps_flight o l).
Proof.
  unfold serve_from_cache. spec_one. eapply spec_mono; [apply quiet_from_cache|].
  intros o l (Hl%spawned_inert & c & -> & Hc). spec_one.
  assert (forall stale, spec (j ← join_flight req key rp;
      match j with
      | Alone => mret (BeforeOrigin {| to_stale := stale; to_flight := None |})
      | Lead flight =>
          cached ← from_cache app req key rp Hit; Cached_or cached (Some flight)
      | Follow waiter =>
          _ ← wait_for_leader waiter;
          cached ← from_cache app req key rp Coalesced; Cached_or cached None
      end) (fun o l' => led_account (before_flights o) 0 (l ++ l') /\ keeps_flight o (l ++ l'))) as Hjoin.
  { intros stale. spec_one. eapply spec_mono; [by apply led_join_flight|].
    intros o l' (j & -> & Hj). destruct j as [g|w|].
    - destruct Hj. eapply spec_mono; [by apply (led_second_look _ _ _ _ (Some g))|].
      intros o l2 Hl2. by rewrite app_assoc.
    - unfold wait_for_leader. spec_one.
      spec_one; simpl; rewrite ?app_nil_r; [|by split; [apply led_inert|intros t]].
      eapply spec_mono; [by apply (led_second_look _ _ _ _ None); [apply led_inert|apply inert_lists]|].
      intros o l2 Hl2. by rewrite app_assoc.
    - spec_one. rewrite app_nil_r. split; [by apply led_inert|]. intros t _. by apply inert_lists. }
  destruct c as [r|entry|]; simpl.
  - repeat spec_one. simpl. rewrite ?app_nil_r. simpl in Hc. rewrite (not_streamed_holds _ Hc).
    split; [by apply led_inert|by intros t].
  - spec_one. apply Hjoin.
  - spec_one. apply Hjoin.
Qed.

Lemma led_forward req rp peers :
  spec (forward app req rp peers) (fun o l => led_account (held o) 1 l).
Proof.
  unfold forward. spec_one. eapply spec_mono; [apply led_serve_from_cache|].
  intros [[r|t]|] l [Hl Hkeep].
  - spec_one. rewrite app_nil_r. destruct Hl as [L1 L2 L3 L4]. constructor; try done. lia.
  - eapply spec_mono; [apply accounts_forward_to_origin|]. intros o l' Hl'.
    by apply (led_then _ _ _ _ 0 1 Hl); [by eapply Hkeep|].
  - destruct Hl as [L1 L2 L3 L4]. constructor; try done. simpl. lia.
Qed.

(** the label that a response is counted under *)
Definition counted_as (req : HttpRequest) (r : HttpResponse ClientStream) : string :=
  if bypasses_cache (RequestPolicy_new (req_method req) (req_headers req)) then BYPASS
  else unwrap_or (cache_label (resp_headers r)) MISS.

(** all that is left is to count the response *)
Definition counting (l : list Effect) : Prop :=
  Forall (fun e => match e with Counted _ _ _ => True | _ => False end) l.

Lemma handler_accounts req peers :
  spec (forward_to_upstream app req peers) (fun o l =>
    leads l ≡ₚ releases l ++ held o /\ (length (leads l) <= 1)%nat /\
    (length (sends l) <= 1)%nat /\
    match o with
    | Some r => counts l = [(Proxy, counted_as req r, resp_status r)]
    | None => counts l = []
    end /\ after_release counting l).
Proof.
  unfold forward_to_upstream. cbv zeta. spec_one. eapply spec_mono; [apply led_forward|].
  intros [r|] l [L1 L2 L3 L4 L5].
  2:{ split_and!; try done. rewrite <- (app_nil_r l). apply settled_then; [done|constructor|done]. }
  repeat spec_one. simpl.
  assert (after_release counting (l ++ [Counted Proxy (counted_as req r) (resp_status r)])) as Hlast
    by (apply settled_then; [done|by repeat constructor|done]).
  unfold leads, releases, sends, counts in *. rewrite !omap_app, L4. simpl.
  rewrite !app_nil_r. by split_and!.
Qed.

(** C8. Whatever the other workers, the clock, the client and the origin do,
    one run of the handler sends the client's request to the origin at most
    once, leads at most one flight, and accounts for it: the flight has been
    released exactly once, or the callback of the streamed response holds it,
    which [Tee] calls or drops exactly once. That includes a request that is
    cancelled at any await. A request that is answered is counted once, with
    the response's status, as [BYPASS] if the cache could neither answer nor
    store it, and else under the response's own cache label, or [MISS]. And
    followers wake only once the outcome is known: when the handler releases
    its flight, it has asked the origin, stored, freshened and invalidated all
    that it will; and the callback releases it after it has stored the body, if
    the store takes it. *)
Theorem request_accounts env req peers s o s' :
  run env (forward_to_upstream app req peers) s = Done (o, s') ->
  exists l, trace s' = trace s ++ l /\
    leads l ≡ₚ releases l ++ held o /\
    (length (leads l) <= 1)%nat /\
    (length (sends l) <= 1)%nat /\
    match o with
    | Some r => counts l = [(Proxy, counted_as req r, resp_status r)]
    | None => counts l = []
    end /\
    after_release counting l /\
    forall f body s1 o1 s2, run env (run_finish f body) s1 = Done (o1, s2) ->
      exists l1, trace s2 = trace s1 ++ l1 ++ released (fin_flight f) /\
        (l1 = [] \/ l1 = inserted f body).
Proof.
  intros Hrun. destruct (spec_run _ _ _ _ _ _ (handler_accounts req peers) Hrun)
    as (l & Hl & H1 & H2 & H3 & H4 & H5).
  exists l. split_and!; try done. intros f body s1 o1 s2 Hfin.
  destruct (spec_run _ _ _ _ _ _ (finish_accounts f body) Hfin) as (l' & Hl' & _ & l1 & -> & Hl1).
  by exists l1.
Qed.
End accounts.
