(* ===== verification/ProxyAnswers.v ===== *)
(** Why the client gets the response it gets, and why what is stored stays
    sound. Every answer of the proxy is a stored response that the cache may
    use for the request, the stored response of a revalidation, the origin's
    response, or a plain error that fits what went wrong ([unsendable] and
    [exchange_answer] say which); a stale response is used only when both the
    request and the response allow it. The proofs carry an invariant [ok] of
    the store that every access of every request keeps ([TaskLogic.kept]), so
    that what a lookup finds comes from stores with the invariant. *)

From stdpp Require Import base tactics numbers option list gmap strings.
From S2P Require Import Prelude RustStd Http Directives Policy Moka Store StoreInvariant StoreTheorems Coalesce Upstream Provenance Body Metrics Response Tasks StoreTasks TaskLogic Proxy.

Local Open Scope N_scope.

Section answers.
Context `{Hops : HttpOps, Log : OriginLog, Yops : HyperOps, Pops : PromOps,
  EntriesOps : !MokaOps Key Entry, IndexOps : !MokaOps PrimaryKey Index}.
Context `{!HttpLaws}.
Variable app : AppState.
(** the times that the clock may show, the store that a step may see, and the
    invariant of the store *)
Context {G : Type} `{Gh : !Ghost G}.
Variables (clocked : Clock -> Prop) (sees : Clock -> Store -> Prop) (ok : G -> Store -> Prop).

(** ** Responses *)

(** [r] is the stored response, with its age at a time the clock showed to the
    task, and [label] *)
Definition cached_as (stored : StoredResponse) (label : string)
    (r : HttpResponse ClientStream) : Prop :=
  exists c a, clocked c /\ age (instant_now c) stored = Done a /\
  resp_status r = status stored /\ resp_body r = FullBody (body stored) /\
  forall n, HeaderMap_get_all (resp_headers r) n =
    if String.eqb CACHE_STATUS n then [label]
    else if String.eqb header.AGE n then [u64_to_string (Duration_as_secs a)]
    else values_of n (headers stored).

(** [r] is the origin's response, on its way through the proxy *)
Definition passed_on (head : Head) (r : HttpResponse ClientStream) : Prop :=
  resp_status r = head_status head /\
  (exists stream, resp_body r = StreamedBody stream /\
     stream_length stream = content_length head) /\
  forall n, HeaderMap_get_all (resp_headers r) n =
    if String.eqb CACHE_STATUS n then [MISS] else values_of n (forwardable_fields head).

(** ** Justification *)

Section request.
Variable req : HttpRequest.
Let key := uri_key req.
Let rp := policy_of req.

(** the store had [entry] for the request, stale *)
Definition found_stale (entry : StaleEntry) : Prop :=
  may_serve rp = true /\ req_method req = GET /\ found clocked sees ok req entry.

(** the cache's answer, with nothing from the origin *)
Inductive cache_answer (r : HttpResponse ClientStream) : Prop :=
| answer_fresh key stored use :
    may_serve rp = true -> looked_up sees ok req key stored ->
    fresh_enough clocked (max_age rp) (arc_get stored) ->
    cached_as (arc_get stored) (FreshUse_cache_status use) r -> cache_answer r
| answer_while_revalidating entry c :
    found_stale entry -> max_age rp = None -> clocked c ->
    may_serve_while_revalidating (instant_now c) (arc_get (response entry)) = true ->
    cached_as (arc_get (response entry)) STALE r -> cache_answer r.

(** the origin could not be reached, was too slow, or had an error *)
Definition origin_trouble (outcome : OriginOutcome) : Prop :=
  match outcome with
  | Responded parts => head_status (Head_from_upstream parts) ∈ ERROR_STATUSES
  | Failed | Elapsed => True
  end.

(** the head of the request to the origin, if the client's can be passed on *)
Definition origin_head : option (Builder * Uri) :=
  upstream_request req (upstream_base_url app) (ClientInfo_from_request req)
    (unwrap_or (uri_path_and_query req) "").

(** with the validators of the stale response, unless the client has its own
    preconditions *)
Definition validated (stale : option StaleEntry) (builder : Builder) : Builder :=
  match stale with
  | Some entry =>
      if conditional rp then builder else with_validators builder (arc_get (response entry))
  | None => builder
  end.

(** its body, if the client's can be read *)
Definition client_body (peers : Peers) : option UpstreamBody :=
  match first_chunk peers with
  | None => Some EmptyBody
  | Some (inl first) => Some (Streamed first (body_channel peers))
  | Some (inr _) => None
  end.

(** there is a request to send to the origin *)
Definition sendable (stale : option StaleEntry) (peers : Peers) : Prop :=
  exists builder uri body request, origin_head = Some (builder, uri) /\
    client_body peers = Some body /\ Builder_body body (validated stale builder) = Some request.

(** there is none, and the status says whose fault that is *)
Inductive unsendable (stale : option StaleEntry) (peers : Peers) : StatusCode -> Prop :=
| no_origin_head : origin_head = None -> unsendable stale peers INTERNAL_SERVER_ERROR
| unreadable_body builder uri e :
    origin_head = Some (builder, uri) -> first_chunk peers = Some (inr e) ->
    unsendable stale peers BAD_REQUEST
| refused_request builder uri body :
    origin_head = Some (builder, uri) -> client_body peers = Some body ->
    Builder_body body (validated stale builder) = None ->
    unsendable stale peers INTERNAL_SERVER_ERROR.

(** the answer of a request that was sent to the origin *)
Inductive exchange_answer (stale : option StaleEntry) (peers : Peers)
    (r : HttpResponse ClientStream) : Prop :=
| answer_on_error entry c :
    stale = Some entry -> max_age rp = None -> origin_trouble (origin_outcome peers) ->
    clocked c -> may_serve_on_error (instant_now c) (arc_get (response entry)) = true ->
    cached_as (arc_get (response entry)) STALE r -> exchange_answer stale peers r
| answer_revalidated entry parts fresh :
    stale = Some entry -> conditional rp = false ->
    origin_outcome peers = Responded parts ->
    head_status (Head_from_upstream parts) = NOT_MODIFIED ->
    freshened clocked sees req entry
      (stored_fields (forwardable_fields (Head_from_upstream parts)))
      (HeaderMap_get (head_map (Head_from_upstream parts)) header.AGE) fresh ->
    cached_as fresh REVALIDATED r -> exchange_answer stale peers r
| answer_passed_on parts :
    origin_outcome peers = Responded parts ->
    ~ (head_status (Head_from_upstream parts) = NOT_MODIFIED /\ conditional rp = false /\
       stale <> None) ->
    passed_on (Head_from_upstream parts) r -> exchange_answer stale peers r
| answer_no_origin st :
    (origin_outcome peers = Failed /\ st = BAD_GATEWAY \/
     origin_outcome peers = Elapsed /\ st = GATEWAY_TIMEOUT) ->
    r = error_response
      (if is_some_and stale (fun entry => response_must_revalidate (arc_get (response entry)))
       then GATEWAY_TIMEOUT else st) -> exchange_answer stale peers r.

(** the answer of a request that the cache left to the origin *)
Inductive origin_answer (stale : option StaleEntry) (peers : Peers)
    (r : HttpResponse ClientStream) : Prop :=
| answer_sent :
    sendable stale peers -> exchange_answer stale peers r -> origin_answer stale peers r
| answer_not_sent st :
    unsendable stale peers st -> r = error_response st -> origin_answer stale peers r.

(** the callback of a copy: it stores the response [parts] of an exchange of
    [req], as [storable] decided at a time the clock showed *)
Definition good_finish (parts : Parts) (f : Finish) : Prop :=
  exists c, let head := Head_from_upstream parts in
  clocked c /\ fin_key f = key /\
  storable (system_now c) rp (req_headers req) (head_status head) (head_map head)
    = Some (fin_storable f, fin_vary f) /\
  fin_status f = head_status head /\ fin_headers f = stored_fields (forwardable_fields head).

(** the copy that a response's stream holds, if any: it is empty, and stores
    the origin's response [outcome] once the body is complete *)
Definition good_stream (outcome : OriginOutcome) (r : HttpResponse ClientStream) : Prop :=
  forall stream c, resp_body r = StreamedBody stream -> copy (stream_tee stream) = Some c ->
  exists parts, outcome = Responded parts /\ good_finish parts (finish c) /\
    tee_length (stream_tee stream) = content_length (Head_from_upstream parts) /\
    content_length (Head_from_upstream parts) <> Some 0 /\ buffer c = ""%string /\
    expired (stream_idle stream) = false.

Lemma cached_not_streamed outcome stored label r :
  cached_as stored label r -> good_stream outcome r.
Proof. intros (c & a & _ & _ & _ & Hb & _) stream copy Hs. by rewrite Hb in Hs. Qed.

Hypothesis K : kept clocked sees ok.

Lemma cached_response_spec stored label :
  rspec clocked sees ok (cached_response stored label)
    (fun o l => exists r, o = Some r /\ cached_as stored label r).
Proof.
  unfold cached_response. repeat rspec_one K. eexists. split; [done|].
  exists c, a. split; [done|]. split; [done|]. split; [done|]. split; [done|]. intros n. simpl.
  by rewrite !HeaderMap_get_all_insert, get_all_append_headers, HeaderMap_get_all_new.
Qed.

(** ** Storing *)

Lemma run_finish_spec parts f body :
  good_finish parts f -> sent parts body -> rspec clocked sees ok (run_finish f body) (fun o _ => o = Some tt).
Proof.
  intros (c & Hc & Hkey & Hs & Hst & Hhs) Hsent. unfold run_finish. rspec_one K.
  eapply rspec_mono; [apply (store_insert_response_spec _ _ _ K)|].
  - rewrite Hkey, Hst, Hhs. by eapply allowed_exchange.
  - by repeat constructor.
  - by intros o l [[-> ->]|(-> & r & c' & s & -> & _)]; rspec_one K.
Qed.

Lemma run_outcomes_spec parts l :
  (forall f b, Called f b ∈ l -> good_finish parts f /\ sent parts b) ->
  rspec clocked sees ok (run_outcomes l) (fun o _ => o = Some tt).
Proof.
  induction l as [|[f b|f] l IH]; intros Hl; simpl.
  - by rspec_one K.
  - rspec_one K. eapply rspec_mono; [apply (run_finish_spec parts); apply (Hl f b); left|]. intros o l' ->.
    apply IH. intros f' b' Hin. eapply Hl. by right.
  - repeat rspec_one K. apply IH. intros f' b' Hin. eapply Hl. by right.
Qed.

(** what [store_plan] decided for [head] *)
Definition good_storing (head : Head) (st : Storing) : Prop :=
  storing_key st = key /\ exists c, clocked c /\
  storable (system_now c) rp (req_headers req) (head_status head) (head_map head)
    = Some (storing_storable st, storing_vary st).

Lemma store_plan_spec head :
  rspec clocked sees ok (store_plan req key rp head)
    (fun o _ => exists st, o = Some st /\ forall st', st = Some st' -> good_storing head st').
Proof.
  unfold store_plan. rspec_one K.
  apply (rspec_mono _ _ _ _ (fun o _ => o = Some tt)).
  { case_match; [|by rspec_one K]. apply rspec_on_cache. intros g c s a s' _ Hk [= <- <-].
    split; [by apply (kept_invalidate _ _ _ K)|]. by repeat constructor. }
  intros o l ->. repeat rspec_one K.
  destruct (storable _ _ _ _ _) as [[pol v]|] eqn:Es; [|rspec_one K; by eexists].
  rspec_one K. apply rspec_on_cache. intros g c' s limit s' _ Hk [= <- <-].
  split; [done|]. split; [constructor|]. rspec_one K. eexists. split; [done|].
  intros st [= <-]. split; [done|]. by exists c.
Qed.

(** [Tee::new] calls the callback at once only for an empty body *)
Lemma Tee_new_good parts length cp outcomes tee :
  Tee_new length cp = (outcomes, tee) -> (exists its, exchanged parts its) ->
  (forall c, cp = Some c -> good_finish parts (finish c) /\ buffer c = ""%string) ->
  length = content_length (Head_from_upstream parts) ->
  (forall f b, Called f b ∈ outcomes -> good_finish parts f /\ sent parts b) /\
  (forall c, copy tee = Some c -> good_finish parts (finish c) /\ tee_length tee = length /\
     length <> Some 0 /\ buffer c = ""%string).
Proof.
  intros Et Hlog Hcp Hl. revert Et. unfold Tee_new, Tee_finish. cbn [copy tee_length].
  case_bool_decide as H0; [destruct cp as [c|]|]; intros [= <- <-]; cbn [copy tee_length].
  - split; [|done]. intros f b Hin. case_match; apply list_elem_of_singleton in Hin; [|done].
    destruct (Hcp c eq_refl) as [Hf Hb]. injection Hin as -> ->. rewrite Hb. split; [done|].
    apply sent_nothing; [done|congruence].
  - split; [by intros ? ? ?%elem_of_nil|done].
  - split; [by intros ? ? ?%elem_of_nil|]. intros c Hc. by destruct (Hcp c Hc).
Qed.

Lemma client_response_spec parts idle store :
  let head := Head_from_upstream parts in expired idle = false ->
  (forall st, store = Some st -> good_storing head st) -> (exists its, exchanged parts its) ->
  rspec clocked sees ok (client_response head idle store)
    (fun o l => exists r, o = Some r /\ passed_on head r /\ good_stream (Responded parts) r).
Proof.
  intros head Hidle Hst Hlog. unfold client_response. rspec_one K.
  assert (forall copy, (forall c, copy = Some c -> good_finish parts (finish c) /\
      buffer c = ""%string) ->
    rspec clocked sees ok (let '(outcomes, tee) := Tee_new (content_length head) copy in
    _ ← run_outcomes outcomes;
    mret (Build_HttpResponse (head_status head)
      (HeaderMap_insert CACHE_STATUS MISS
        (append_headers (forwardable_fields head) HeaderMap_new))
      (StreamedBody {| stream_length := content_length head; stream_tee := tee;
                       stream_idle := idle |})))
    (fun o l => exists r, o = Some r /\ passed_on head r /\ good_stream (Responded parts) r))
    as Hcopy.
  { intros cp Hcp. destruct (Tee_new _ cp) as [outcomes tee] eqn:Et. rspec_one K.
    destruct (Tee_new_good parts _ _ _ _ Et Hlog Hcp eq_refl) as [Hout Htee].
    eapply rspec_mono; [by apply (run_outcomes_spec parts)|]. intros o l ->. rspec_one K.
    eexists. split; [done|]. split.
    - split; [done|]. split; [by eexists|]. intros n. simpl.
      by rewrite HeaderMap_get_all_insert, get_all_append_headers, HeaderMap_get_all_new.
    - intros stream c [= <-] Hc. exists parts. split; [done|].
      destruct (Htee c Hc) as (? & ? & ? & ?). by split_and!. }
  destruct store as [store|]; [|rspec_one K; by apply Hcopy].
  destruct (is_none_or _ _); repeat (rspec_one K; try by apply Hcopy).
  apply Hcopy. intros c [= <-]. cbn [finish].
  destruct (Hst _ eq_refl) as (Hk & c & Hc & Hs). split; [|done]. by exists c.
Qed.

(** ** Background revalidation *)

Lemma refresh_in_background_spec entry :
  found clocked sees ok req entry ->
  rspec clocked sees ok (refresh_in_background app req key entry) (fun o _ => o = Some tt).
Proof.
  intros Hfound. unfold refresh_in_background. rspec_one K.
  apply rspec_on_cache. intros g c s guard s' _ Hk [= Hs].
  split; [|split; [constructor|]].
  { unfold start_refresh in Hs. case_decide; [by injection Hs as _ <-|].
    injection Hs as _ <-. by apply (kept_refreshing _ _ _ K). }
  destruct guard as [guard|]; [|by rspec_one K].
  assert (rspec clocked sees ok (on_cache (fun _ s => Done (tt, RefreshGuard_drop guard s)) no_effects)
    (fun o _ => o = Some tt)) as Hdrop.
  { apply rspec_on_cache. intros g1 c1 s1 [] s2 _ Hk1 [= <-].
    split; [by apply (kept_refreshing _ _ _ K)|]. by split; [constructor|]. }
  destruct (upstream_request _ _ _ _) as [[b u]|]; [|exact Hdrop].
  destruct (Builder_body _ _) as [r|]; [|exact Hdrop].
  repeat rspec_one K. apply rspec_note; [by apply Forall_singleton|done].
Qed.

(** ** The cache's answer *)

(** the cache's part of a request *)
Definition cached_justified (c : Cached) : Prop :=
  match c with
  | Answer r => cache_answer r
  | StaleEntryFound entry => found_stale entry
  | Nothing => True
  end.

Lemma from_cache_justified use :
  rspec clocked sees ok (from_cache app req key rp use)
    (fun o _ => forall c, o = Some c -> cached_justified c).
Proof.
  unfold from_cache. destruct (may_serve rp) eqn:Hserve; simpl; [|rspec_one K; by intros c [= <-]].
  rspec_one K. eapply rspec_mono; [apply (store_lookup_spec _ _ _ K)|].
  intros o l (-> & x & -> & Hl). rspec_one K. rspec_one K. destruct x as [[stored|entry]|].
  - destruct Hl as [[k Hl] Hfresh]. rspec_one K. eapply rspec_mono; [apply cached_response_spec|]. intros o l (r & -> & Hr).
    rspec_one K. intros ? [= <-]. by eapply answer_fresh.
  - destruct (String.eqb_spec (req_method req) GET) as [Hget|]; [|rspec_one K; by intros ? [= <-]].
    assert (found_stale entry) as Hstale by done.
    unfold while_revalidating. unfold may_serve_stale.
    destruct (max_age rp) as [m|] eqn:Hage; simpl; [rspec_one K; by intros ? [= <-]|].
    rspec_one K. rspec_one K. destruct (may_serve_while_revalidating _ _) eqn:Hmay; simpl;
      [|rspec_one K; by intros ? [= <-]].
    rspec_one K. eapply rspec_mono; [apply cached_response_spec|]. intros o l (r & -> & Hr).
    rspec_one K.
    eapply rspec_mono; [by apply refresh_in_background_spec|]. intros o l2 ->.
    rspec_one K. intros ? [= <-]. by eapply answer_while_revalidating.
  - rspec_one K. by intros ? [= <-].
Qed.

Lemma join_flight_spec : rspec clocked sees ok (join_flight req key rp) (fun o l => o <> None).
Proof.
  unfold join_flight. destruct (negb _); [by rspec_one K|]. rspec_one K.
  apply rspec_on_cache. intros g c s fk s' _ Hk [= _ <-]. split; [done|].
  split; [constructor|]. destruct fk as [fk|]; [|by rspec_one K].
  apply rspec_on_flights. intros fl. split; [|done].
  destruct (fst _); by repeat constructor.
Qed.

(** what [serve_from_cache] decided *)
Definition before_justified (b : Before) : Prop :=
  match b with
  | BeforeAnswer r => cache_answer r
  | BeforeOrigin t => forall entry, to_stale t = Some entry -> found_stale entry
  end.

Lemma Cached_or_justified c flight :
  cached_justified c ->
  rspec clocked sees ok (Cached_or c flight) (fun o _ => forall b, o = Some b -> before_justified b).
Proof.
  intros Hc. destruct c as [r|entry|]; simpl; repeat rspec_one K; intros ? [= <-]; simpl in *;
    [done|by intros ? [= <-]|done].
Qed.

Lemma second_look_justified use flight :
  rspec clocked sees ok (cached ← from_cache app req key rp use; Cached_or cached flight)
    (fun o _ => forall b, o = Some b -> before_justified b).
Proof.
  rspec_one K. eapply rspec_mono; [apply from_cache_justified|]. intros [c|] l Hc; [|done].
  apply Cached_or_justified; eauto.
Qed.

Lemma serve_from_cache_justified :
  rspec clocked sees ok (serve_from_cache app req key rp)
    (fun o _ => forall b, o = Some b -> before_justified b).
Proof.
  unfold serve_from_cache. rspec_one K. eapply rspec_mono; [apply from_cache_justified|].
  intros [c|] l Hc; [|done]. rspec_one K.
  eapply rspec_mono; [apply Cached_or_justified; eauto|]. intros [[r|t]|] l' Hb; [..|done].
  - rspec_one K. intros ? [= <-]. by apply Hb.
  - rspec_one K. eapply rspec_mono; [apply join_flight_spec|]. intros [[g|w|]|] l2 Hj; [..|done].
    + apply second_look_justified.
    + unfold wait_for_leader. rspec_one K. rspec_one K; [|done]. apply second_look_justified.
    + rspec_one K. intros ? [= <-]. by apply Hb.
Qed.

(** ** The answer of the origin's exchange *)

(** the exchange of a request *)
Definition exchange_of (stale : option StaleEntry) (ex : Exchange) : Prop :=
  ex_req ex = req /\ ex_cache_key ex = key /\ ex_request_policy ex = rp /\ ex_stale ex = stale /\
  ex_revalidating ex = is_some stale && negb (conditional rp).

Lemma answered_by_origin_spec stale ex parts :
  exchange_of stale ex -> (exists its, exchanged parts its) ->
  rspec clocked sees ok (answered_by_origin app ex (Head_from_upstream parts))
    (fun o _ => exists r, o = Some r /\ passed_on (Head_from_upstream parts) r /\
       good_stream (Responded parts) r).
Proof.
  intros (Hreq & Hkey & Hrp & _) Hlog. unfold answered_by_origin, new_origin_body.
  rewrite Hreq, Hkey, Hrp. rspec_one K.
  eapply rspec_mono; [apply store_plan_spec|]. intros o l (st & -> & Hst).
  repeat rspec_one K. destruct st as [st|].
  - apply client_response_spec; [done| |done]. intros st' [= <-]. by apply (Hst st).
  - repeat rspec_one K. by apply client_response_spec.
Qed.

Lemma exchange_may_serve_spec ex entry :
  rspec clocked sees ok (exchange_may_serve_on_error ex entry) (fun o _ => exists b, o = Some b /\
    (b = true -> max_age (ex_request_policy ex) = None /\
       exists c, clocked c /\
         may_serve_on_error (instant_now c) (arc_get (response entry)) = true)).
Proof.
  unfold exchange_may_serve_on_error, may_serve_stale.
  destruct (max_age (ex_request_policy ex)); simpl; repeat rspec_one K; eauto 8.
  eexists. split; [done|]. by intros ?.
Qed.

(** an answer of the origin's exchange, with the callback it may hold *)
Definition answered_well (stale : option StaleEntry) (peers : Peers)
    (o : option (HttpResponse ClientStream)) (_ : list Effect) : Prop :=
  forall r, o = Some r -> exchange_answer stale peers r /\
    good_stream (origin_outcome peers) r.

(** the exchange of these peers is in the origin's log *)
Definition logged (outcome : OriginOutcome) : Prop :=
  forall parts, outcome = Responded parts -> exists its, exchanged parts its.

Lemma error_not_streamed outcome st : good_stream outcome (error_response st).
Proof. by intros stream c. Qed.

Lemma answered_justified stale peers ex parts :
  exchange_of stale ex -> origin_outcome peers = Responded parts -> logged (origin_outcome peers) ->
  (forall entry, stale = Some entry -> found_stale entry) ->
  rspec clocked sees ok (answered app ex parts) (answered_well stale peers).
Proof.
  intros Hex Hpeers Hlog Hfound. pose proof Hex as (Hreq & Hkey & Hrp & Hst & Hrev).
  unfold answered. cbv zeta. rewrite Hst.
  assert (~ (head_status (Head_from_upstream parts) = NOT_MODIFIED /\ conditional rp = false /\
    stale <> None) -> rspec clocked sees ok (answered_by_origin app ex (Head_from_upstream parts))
    (answered_well stale peers)) as Horigin.
  { intros Hnot. eapply rspec_mono; [by eapply answered_by_origin_spec; [|apply Hlog]|].
    intros o l (r & -> & Hr & Hs) ? [= <-]. rewrite Hpeers.
    split; [by eapply answer_passed_on|done]. }
  destruct stale as [entry|]; [|apply Horigin; by intros (_ & _ & ?)].
  rewrite Hrev. cbn [is_some andb].
  destruct (negb (conditional rp) && (head_status (Head_from_upstream parts) =? NOT_MODIFIED)) eqn:E304.
  { apply andb_true_iff in E304 as [Hcond%negb_true_iff H304%N.eqb_eq].
    unfold revalidated. rspec_one K. rspec_one K. rewrite Hreq, Hrp.
    destruct (Hfound _ eq_refl) as (_ & _ & Hfnd).
    eapply rspec_mono; [by apply (store_freshen_spec _ _ _ K)|].
    intros o l (-> & fresh & -> & Hfresh). rspec_one K. rspec_one K.
    eapply rspec_mono; [apply cached_response_spec|]. intros o l (r & -> & Hr). repeat rspec_one K.
    intros ? [= <-]. split; [by eapply answer_revalidated|by eapply cached_not_streamed]. }
  assert (~ (head_status (Head_from_upstream parts) = NOT_MODIFIED /\ conditional rp = false /\
    Some entry <> None)) as Hnot.
  { intros (H304 & Hcond & _). by rewrite H304, Hcond in E304. }
  specialize (Horigin Hnot).
  rspec_one K. destruct (existsb _ ERROR_STATUSES) eqn:Eerr; [|rspec_one K; exact Horigin].
  eapply rspec_mono; [apply exchange_may_serve_spec|]. intros o l (b & -> & Hb).
  destruct b; [|exact Horigin]. destruct Hb as (Hage & c & Hc & Hmay); [done|].
  rspec_one K. eapply rspec_mono; [apply cached_response_spec|]. intros o l' (r & -> & Hr).
  repeat rspec_one K. intros ? [= <-]. rewrite Hrp in Hage.
  split; [|by eapply cached_not_streamed].
  eapply answer_on_error; try done. rewrite Hpeers. cbn [origin_trouble].
  apply existsb_elem in Eerr as (x & Hx & Heq%N.eqb_eq). by rewrite Heq.
Qed.

Lemma failed_justified stale peers ex st :
  exchange_of stale ex ->
  (origin_outcome peers = Failed /\ st = BAD_GATEWAY \/
   origin_outcome peers = Elapsed /\ st = GATEWAY_TIMEOUT) ->
  rspec clocked sees ok (failed ex st) (answered_well stale peers).
Proof.
  intros (Hreq & Hkey & Hrp & Hst & Hrev) Hpeers. unfold failed. rewrite Hst. rspec_one K.
  destruct stale as [entry|].
  - rspec_one K. eapply rspec_mono; [apply exchange_may_serve_spec|]. intros o l (b & -> & Hb).
    destruct b.
    + destruct Hb as (Hage & c & Hc & Hmay); [done|]. rewrite Hrp in Hage.
      eapply rspec_mono; [apply cached_response_spec|]. intros o l' (r & -> & Hr).
      repeat rspec_one K. intros ? [= <-]. split; [|by eapply cached_not_streamed].
      eapply answer_on_error; try done. by destruct Hpeers as [[-> _]|[-> _]].
    + repeat rspec_one K. intros ? [= <-]. split; [by eapply answer_no_origin|].
      apply error_not_streamed.
  - repeat rspec_one K. intros ? [= <-]. split; [by eapply answer_no_origin|].
    apply error_not_streamed.
Qed.

Lemma send_to_origin_spec flight kind request outcome :
  rspec clocked sees ok (send_to_origin flight kind request outcome)
    (fun o _ => o = Some outcome \/ o = None).
Proof.
  unfold send_to_origin. rspec_one K. apply rspec_step.
  intros g c sh now sh' _ Hk [= _ <-]. split; [done|]. split; [by repeat constructor|].
  rspec_one K. destruct kind; [rspec_one K; [|by right]|apply rspec_pause];
    rspec_one K; destruct outcome; repeat rspec_one K; by left.
Qed.

Lemma forward_to_origin_justified to_origin peers :
  logged (origin_outcome peers) ->
  (forall entry, to_stale to_origin = Some entry -> found_stale entry) ->
  rspec clocked sees ok (forward_to_origin app req (ClientInfo_from_request req)
      (unwrap_or (uri_path_and_query req) "") key rp to_origin peers)
    (fun o _ => forall r, o = Some r -> origin_answer (to_stale to_origin) peers r /\
       good_stream (origin_outcome peers) r).
Proof.
  intros Hlog Hfound. unfold forward_to_origin. cbv zeta.
  assert (forall st, unsendable (to_stale to_origin) peers st ->
    rspec clocked sees ok (_ ← release (to_flight to_origin); mret (error_response st))
      (fun o _ => forall r, o = Some r -> origin_answer (to_stale to_origin) peers r /\
         good_stream (origin_outcome peers) r)) as Herror.
  { intros st Hst. repeat rspec_one K. intros ? [= <-]. split; [|apply error_not_streamed].
    by eapply answer_not_sent. }
  destruct (upstream_request _ _ _ _) as [[b u]|] eqn:Ehead; [|by apply Herror, no_origin_head].
  set (ex := {| ex_req := req |}).
  assert (exchange_of (to_stale to_origin) ex) as Hex.
  { unfold ex. do 4 (split; [done|]). cbn [ex_revalidating].
    destruct (to_stale to_origin); [|done]. by destruct (conditional rp). }
  clearbody ex.
  set (b' := match _ with Some entry => _ | None => b end).
  assert (b' = validated (to_stale to_origin) b) as ->
    by (unfold b', validated; destruct (to_stale to_origin); [by destruct (conditional rp)|done]).
  rspec_one K. unfold request_body_start. repeat rspec_one K; [|done].
  destruct (match first_chunk peers with None => _ | _ => _ end) as [body|] eqn:Ebody.
  2:{ destruct (first_chunk peers) as [[first|e]|] eqn:Ef; try done.
      apply Herror. by eapply unreadable_body. }
  destruct (Builder_body body _) as [request|] eqn:Ereq;
    [|by apply Herror; eapply refused_request].
  assert (sendable (to_stale to_origin) peers) as Hsend by (by exists b, u, body, request).
  rspec_one K. eapply rspec_mono; [apply send_to_origin_spec|]. intros o l [-> | ->]; [|done].
  assert (forall m : Task (HttpResponse ClientStream),
    rspec clocked sees ok m (answered_well (to_stale to_origin) peers) ->
    rspec clocked sees ok m (fun o _ => forall r, o = Some r ->
      origin_answer (to_stale to_origin) peers r /\ good_stream (origin_outcome peers) r)) as Hsent.
  { intros m Hm. eapply rspec_mono; [exact Hm|]. intros o' l' Ho r Hr.
    destruct (Ho r Hr). split; [by apply answer_sent|done]. }
  destruct (origin_outcome peers) as [parts| |] eqn:Eout;
    [eapply rspec_mono; [by apply Hsent, answered_justified; rewrite ?Eout|done]
    |apply Hsent, failed_justified; auto..].
Qed.

(** the whole handler *)
Definition answer_to (peers : Peers) (r : HttpResponse ClientStream) : Prop :=
  cache_answer r \/
  exists stale, (forall entry, stale = Some entry -> found_stale entry) /\
    origin_answer stale peers r.

Lemma cache_answer_not_streamed outcome r : cache_answer r -> good_stream outcome r.
Proof. by intros [k stored use _ _ _ Hr|entry c _ _ _ _ Hr]; eapply cached_not_streamed. Qed.

Lemma handler_answers peers :
  logged (origin_outcome peers) ->
  rspec clocked sees ok (forward_to_upstream app req peers)
    (fun o _ => forall r, o = Some r -> answer_to peers r /\ good_stream (origin_outcome peers) r).
Proof.
  intros Hlog.
  unfold forward_to_upstream, forward, answer_to. cbv zeta. rspec_one K. rspec_one K.
  eapply rspec_mono; [apply serve_from_cache_justified|]. intros [[r0|t]|] l Hb; [..|done].
  - repeat rspec_one K. intros ? [= <-]. pose proof (Hb _ eq_refl) as Hr.
    split; [by left|by apply cache_answer_not_streamed].
  - eapply rspec_mono; [apply forward_to_origin_justified; [done|by apply (Hb (BeforeOrigin t))]|].
    intros [r0|] l' Hr; [|done]. repeat rspec_one K. intros ? [= <-].
    destruct (Hr _ eq_refl) as [Ha Hs]. split; [|done]. right. exists (to_stale t).
    split; [by apply (Hb (BeforeOrigin t))|done].
Qed.

(** ** The body of the response, and the spawned task *)

Variable timer : Instant -> Instant -> bool.

Lemma poll_body_spec kind p body :
  expired body = false ->
  rspec clocked sees ok (poll_body timer kind p body) (fun o _ => exists out body',
    o = Some (out, body') /\
    (out = origin_poll p /\ expired body' = false \/ out = Ready (Error TimedOut))).
Proof.
  intros Hb. unfold poll_body. repeat rspec_one K.
  match goal with a : _ * _ * _ |- _ => destruct a as [[out n] body'] end.
  match goal with H : _ = Done _ |- _ =>
    pose proof (IdleTimeout_poll_next_passes _ _ _ _ _ _ Hb H) as Hout end.
  rspec_one K. destruct (n =? 0); repeat rspec_one K;
    (do 2 eexists; split; [done|]); destruct Hout as [(-> & _ & ?)|(-> & _ & _)]; auto.
Qed.

(** the stream's copy, if it is still there, holds all that the origin has sent
    so far, [its] being still to come *)
Definition copying (parts : Parts) (chunks : list Bytes) (its : list (Item unit))
    (stream : ClientStream) : Prop :=
  exchanged parts (map Chunk chunks ++ its) /\
  tee_length (stream_tee stream) = content_length (Head_from_upstream parts) /\
  forall c, copy (stream_tee stream) = Some c ->
    expired (stream_idle stream) = false /\ good_finish parts (finish c) /\
    content_length (Head_from_upstream parts) <> Some (str_len (buffer c)) /\
    buffer c = concat_bytes chunks.

(** a stream without a copy stores nothing *)
Lemma stream_body_spent polls stream :
  copy (stream_tee stream) = None ->
  rspec clocked sees ok (stream_body timer polls stream) (fun o _ => o = Some tt).
Proof.
  revert stream. induction polls as [|p polls IH]; intros [length [tl cp] idle]; simpl; intros ->.
  { by apply rspec_ret. }
  unfold poll_body. repeat rspec_one K.
  match goal with a : _ * _ * _ |- _ => destruct a as [[out n] idle'] end.
  rspec_one K. destruct (n =? 0); repeat rspec_one K; rewrite Tee_poll_next_spent;
    rspec_one K; apply rspec_ret; by apply IH.
Qed.

Lemma stream_body_spec parts chunks polls stream :
  copying parts chunks (items polls) stream ->
  rspec clocked sees ok (stream_body timer polls stream) (fun o _ => o = Some tt).
Proof.
  revert chunks stream. induction polls as [|p polls IH];
    intros chunks [length [tl [c|]] idle] (Hlog & Hl & Hc); try by apply stream_body_spent.
  { cbn. by repeat rspec_one K. }
  destruct (Hc c eq_refl) as (Hidle & Hf & Hlen & Hbuf). simpl in Hl, Hidle. subst tl.
  change (stream_body timer (p :: polls) _) with (stream_body timer (p :: polls)
    {| stream_length := length; stream_tee := {|
         tee_length := content_length (Head_from_upstream parts); copy := Some c |};
       stream_idle := idle |}).
  cbn [stream_body stream_idle stream_tee stream_length]. rspec_one K.
  eapply rspec_mono; [by apply poll_body_spec|]. intros o l (out & idle' & -> & Hout).
  destruct (Tee_poll_next_step out (content_length (Head_from_upstream parts)) c)
    as (os & copied & Hstep & ->).
  assert (forall b, sent parts b -> os = [Called (finish c) b] ->
    rspec clocked sees ok (run_outcomes os) (fun o _ => o = Some tt)) as Hcalled.
  { intros b Hb ->. apply (run_outcomes_spec parts). intros f b' Hin%list_elem_of_singleton.
    by injection Hin as -> ->. }
  rspec_one K.
  destruct Hstep as [->|chunk -> Hgrown|chunk -> Hdone| ->|].
  - destruct Hout as [[Hp He]|?]; [|done]. destruct p; [|done]. apply rspec_ret.
    apply (IH chunks). by split_and!; [..|intros ? [= <-]].
  - destruct Hout as [[Hp He]|?]; [|done]. destruct p as [|[chunk'| |]]; try done.
    injection Hp as <-. apply rspec_ret, (IH (chunks ++ [chunk])).
    split_and!; [|done|].
    + rewrite map_app, <- app_assoc. exact Hlog.
    + intros ? [= <-]. split_and!; try done. simpl. rewrite Hbuf, concat_bytes_app. simpl.
      by rewrite concat_bytes_cons, string_app_nil_r.
  - destruct Hout as [[Hp He]|?]; [|done]. destruct p as [|[chunk'| |]]; try done.
    injection Hp as <-. eapply rspec_mono; [eapply Hcalled; [|reflexivity]|].
    + exists (map Chunk chunks ++ Chunk chunk :: items polls). split; [exact Hlog|].
      exists (chunks ++ [chunk]), (items polls). rewrite map_app, <- app_assoc. split; [done|].
      assert (buffer (grown c chunk) = concat_bytes (chunks ++ [chunk])) as Heq.
      { simpl. rewrite Hbuf, concat_bytes_app. by rewrite concat_bytes_cons, string_app_nil_r. }
      split; [exact Heq|]. left. by rewrite Hdone.
    + intros o l' ->. by apply stream_body_spent.
  - destruct Hout as [[Hp He]|?]; [|done]. destruct p as [|[| |]]; try done.
    eapply rspec_mono; [eapply Hcalled; [|reflexivity]|].
    + exists (map Chunk chunks ++ End :: items polls). split; [exact Hlog|].
      exists chunks, (End :: items polls). split; [done|]. split; [exact Hbuf|]. right. by eexists.
    + intros o l' ->. by apply stream_body_spent.
  - cbn [run_outcomes]. repeat rspec_one K. by apply stream_body_spent.
Qed.

(** the stream of a response that the handler returned *)
Lemma streamed_body_spec outcome r stream polls :
  good_stream outcome r -> resp_body r = StreamedBody stream ->
  (forall parts, outcome = Responded parts -> exchanged parts (items polls)) ->
  rspec clocked sees ok (stream_body timer polls stream) (fun o _ => o = Some tt).
Proof.
  intros Hr Hb Hlog. specialize (Hr stream). destruct (copy (stream_tee stream)) as [c|] eqn:Ec.
  2:{ by apply stream_body_spent. }
  destruct (Hr c Hb eq_refl) as (parts & -> & Hf & Hl & H0 & Hbuf & Hidle).
  apply (stream_body_spec parts []). split; [by apply Hlog|]. split; [done|]. rewrite Ec.
  intros ? [= <-]. by rewrite Hbuf.
Qed.

Variable collect_limited : N -> list (Item (BodyError unit)) -> option Bytes.

(** what it collects is the body up to its end *)
Hypothesis collect_whole : forall limit its b, collect_limited limit its = Some b ->
  exists chunks rest, its = map Chunk chunks ++ End :: rest /\ b = concat_bytes chunks.

(** the chunks up to an end are those that the origin sent up to an end *)
Lemma collect_polls_spec polls body :
  expired body = false ->
  rspec clocked sees ok (collect_polls timer polls body) (fun o _ => exists its, o = Some its /\
    forall chunks rest, its = map Chunk chunks ++ End :: rest ->
      exists rest', items polls = map Chunk chunks ++ End :: rest').
Proof.
  revert body. induction polls as [|p polls IH]; intros body Hb; cbn [collect_polls].
  { rspec_one K. eexists. split; [done|]. by intros [|] ?. }
  rspec_one K. eapply rspec_mono; [by apply poll_body_spec|].
  intros o l (out & body' & -> & [[-> Hb']| ->]).
  2:{ rspec_one K. eexists. split; [done|]. by intros [|] ?. }
  destruct p as [|[chunk|e|]]; cbn.
  - by apply IH.
  - rspec_one K. eapply rspec_mono; [by apply IH|]. intros o l' (its & -> & Hits). rspec_one K.
    eexists. split; [done|]. intros [|chunk' chunks] rest; [done|]. intros [= <- Heq].
    destruct (Hits chunks rest Heq) as [rest' Hrest]. exists rest'. simpl. by rewrite <- Hrest.
  - rspec_one K. eexists. split; [done|]. by intros [|] ?.
  - rspec_one K. eexists. split; [done|]. intros [|] rest; [|done]. intros _. by eexists.
Qed.

Lemma refresh_spec entry parts polls :
  found clocked sees ok req entry -> exchanged parts (items polls) ->
  rspec clocked sees ok (refresh app timer collect_limited req key entry parts polls)
    (fun o _ => o = Some tt).
Proof.
  intros Hfound Hlog. unfold refresh. cbv zeta. fold rp. destruct (_ =? _).
  { rspec_one K. eapply rspec_mono; [by apply (store_freshen_spec _ _ _ K)|].
    intros o l (_ & fresh & -> & _). by rspec_one K. }
  rspec_one K. eapply rspec_mono; [apply store_plan_spec|]. intros o l (st & -> & Hst).
  destruct st as [st|]; [|by rspec_one K]. unfold new_origin_body.
  repeat rspec_one K. eapply rspec_mono; [by apply collect_polls_spec|].
  intros o l' (its & -> & Hits).
  destruct (collect_limited _ _) as [collected|] eqn:Ec; [|by rspec_one K].
  apply (run_finish_spec parts).
  - destruct (Hst _ eq_refl) as (Hk & c0 & Hc0 & Hs). by exists c0.
  - apply collect_whole in Ec as (chunks & rest & Heq & ->).
    destruct (Hits _ _ Heq) as [rest' Hrest]. exists (items polls). split; [done|].
    exists chunks, (End :: rest'). split; [done|]. split; [done|]. right. by exists rest'.
Qed.
End request.

Lemma background_task_spec timer
    (collect_limited : N -> list (Item (BodyError unit)) -> option Bytes) task outcome polls :
  (forall limit its b, collect_limited limit its = Some b ->
     exists chunks rest, its = map Chunk chunks ++ End :: rest /\ b = concat_bytes chunks) ->
  kept clocked sees ok -> good_task clocked sees ok task ->
  (forall parts, outcome = Responded parts -> exchanged parts (items polls)) ->
  rspec clocked sees ok (background_task app timer collect_limited task outcome polls)
    (fun o _ => o <> None).
Proof.
  intros Hcollect K [Hkey Hfound] Hlog. unfold background_task, send_to_origin.
  rewrite Hkey. rspec_one K. rspec_one K. apply rspec_step.
  intros g c sh now sh' _ Hk [= _ <-]. split; [done|]. split; [by repeat constructor|].
  rspec_one K. apply rspec_pause. rspec_one K.
  assert (rspec clocked sees ok (on_cache
    (fun _ s => Done (tt, RefreshGuard_drop (task_guard task) s)) no_effects)
    (fun o _ => o <> None)) as Hdrop.
  { apply rspec_on_cache. intros g1 c1 s1 [] s2 _ Hk1 [= <-].
    split; [by apply (kept_refreshing _ _ _ K)|]. by split; [constructor|]. }
  destruct outcome as [parts| |]; repeat rspec_one K; try exact Hdrop.
  eapply rspec_mono; [by apply (refresh_spec (task_req task) K); auto|]. intros o l ->. exact Hdrop.
Qed.
End answers.

(** ** Claims *)

Section claims.
Context `{Hops : HttpOps, Yops : HyperOps, Pops : PromOps,
  EntriesOps : !MokaOps Key Entry, IndexOps : !MokaOps PrimaryKey Index}.
Context `{!HttpLaws}.
Variables (env : Env) (app : AppState).

(** a log that says nothing, and an invariant that says nothing *)
#[local] Instance any_log : OriginLog := {|
  exchanged := fun _ _ => True; file_read := fun _ _ _ => True |}.

Lemma any_logged outcome : logged outcome.
Proof. intros parts _. by exists []. Qed.

#[export] Instance nothing_known : Ghost unit := {|
  grows := fun _ _ => True;
  knows := fun _ _ => True;
  grows_preorder := Build_PreOrder _ (fun _ => I) (fun _ _ _ _ _ => I);
  knows_grows := fun _ _ _ _ _ => I |}.

Definition any_store (_ : unit) (_ : Store) : Prop := True.

Lemma any_store_kept start : kept (shown env start) (at_step env start) any_store.
Proof. constructor; try done; [apply at_step_shown|]. by intros; exists tt. Qed.

Lemma any_store_run {A} (m : Task A) Q s o s' :
  rspec (shown env (tick s)) (at_step env (tick s)) any_store m Q -> run env m s = Done (o, s') ->
  exists l, trace s' = trace s ++ l /\ Q o l.
Proof.
  intros Hm. apply (rspec_run env (tick s) any_store m Q tt); [|done..]. intros [] k sh _. by exists tt.
Qed.

Lemma handler_answer req peers s r s' :
  run env (forward_to_upstream app req peers) s = Done (Some r, s') ->
  answer_to app (shown env (tick s)) (at_step env (tick s)) any_store req peers r.
Proof.
  intros Hrun.
  assert (rspec (shown env (tick s)) (at_step env (tick s)) any_store (forward_to_upstream app req peers) _) as Hspec
    by (eapply handler_answers; [apply any_store_kept|apply any_logged]).
  destruct (any_store_run _ _ _ _ _ Hspec Hrun) as (l & _ & Hr).
  by apply Hr.
Qed.

Lemma cached_as_label clocked stored label r : cached_as clocked stored label r ->
  HeaderMap_get (resp_headers r) CACHE_STATUS = Some label.
Proof. intros (c & a & _ & _ & _ & _ & Hn). by rewrite HeaderMap_get_head, Hn, String.eqb_refl. Qed.

Lemma error_response_label st : HeaderMap_get (resp_headers (error_response st)) CACHE_STATUS = None.
Proof. simpl. by rewrite HeaderMap_get_head, HeaderMap_get_all_new. Qed.

Lemma passed_on_label head r : passed_on head r ->
  HeaderMap_get (resp_headers r) CACHE_STATUS = Some MISS.
Proof. intros (_ & _ & Hn). by rewrite HeaderMap_get_head, Hn, String.eqb_refl. Qed.

(** C9. Every answer has its reason, in every interleaving with other requests
    and whatever the origin does: a stored response that a lookup found fresh,
    or stale within a window; the stored response that the origin's 304
    freshened; the origin's own response, unless it is the 304 to the proxy's
    own revalidation; or an error, and then the right one. A request that was
    sent is answered 502 only if the origin failed, and 504 only if it was too
    slow, or if it failed and the stored response must be revalidated. A 400 is
    the answer only if the first chunk of the client's body could not be read,
    and a 500 only if the request has no form that can be sent: its target, or
    its head and body together, make no request to the origin. *)
Theorem every_answer_is_justified req peers s r s' :
  run env (forward_to_upstream app req peers) s = Done (Some r, s') ->
  answer_to app (shown env (tick s)) (at_step env (tick s)) any_store req peers r.
Proof. apply handler_answer. Qed.

(** C3. A response that the client sees as [STALE] was found for a GET by the
    request's own lookup; the request set no [max-age]; the response does not
    have to be revalidated; and at a time during the request it was inside its
    stale-while-revalidate window, or inside its stale-if-error window while
    the origin failed, timed out, or answered 500, 502, 503 or 504. No header
    of the origin or of a stored response can make another answer look
    stale. *)
Theorem stale_only_when_allowed req peers s r s' :
  run env (forward_to_upstream app req peers) s = Done (Some r, s') ->
  HeaderMap_get (resp_headers r) CACHE_STATUS = Some STALE ->
  req_method req = GET /\ may_serve (policy_of req) = true /\ max_age (policy_of req) = None /\
  exists entry c,
    let stored := arc_get (response entry) in
    found_stale (shown env (tick s)) (at_step env (tick s)) any_store req entry /\ cached_as (shown env (tick s)) stored STALE r /\
    must_revalidate (stored_stale stored) = false /\
    shown env (tick s) c /\ exists d, staleness (instant_now c) stored = Some d /\
      (d < while_revalidate (stored_stale stored) \/
       d < if_error (stored_stale stored) /\ origin_trouble (origin_outcome peers)).
Proof.
  intros Hrun Hlabel. apply handler_answer in Hrun.
  assert (forall stored label, cached_as (shown env (tick s)) stored label r -> label = STALE) as Hcached.
  { intros stored label Hr%cached_as_label. congruence. }
  destruct Hrun as [[k stored use Hserve _ _ Hr|entry c Hfound Hage Hc Hmay Hr]
                   |(stale & Hfound & Hans)].
  - apply Hcached in Hr. by destruct use.
  - pose proof Hfound as (Hserve & Hget & _). split_and!; try done. exists entry, c.
    apply andb_true_iff in Hmay as [Hmr%negb_true_iff Hd].
    apply is_some_and_true in Hd as (d & Hd & Hlt%N.ltb_lt). eauto 15.
  - destruct Hans as [_ Hans|st _ ->]; [|by rewrite error_response_label in Hlabel].
    destruct Hans as [entry c -> Hage Htrouble Hc Hmay Hr
                     |entry parts fresh _ _ _ _ _ Hr
                     |parts _ _ Hr%passed_on_label|st _ ->].
    + specialize (Hfound _ eq_refl). pose proof Hfound as (Hserve & Hget & _).
      split_and!; try done. exists entry, c. apply andb_true_iff in Hmay as [Hmr%negb_true_iff Hd].
      apply is_some_and_true in Hd as (d & Hd & Hlt%N.ltb_lt). eauto 15.
    + by apply Hcached in Hr.
    + by rewrite Hr in Hlabel.
    + by rewrite error_response_label in Hlabel.
Qed.

(** C4. A stored response is passed off as current only when it is: an answer
    labelled [HIT] or [COALESCED] is a stored response that a lookup of this
    request, with its own key and fields, found, and that was fresh and no
    older than the request allows at times during the request; and an answer
    labelled [REVALIDATED] is a stale response that such a lookup found, with
    the fields and the freshness that a 304 of the origin gave it during the
    request, for a request that set no preconditions of its own. *)
Theorem cached_answers_are_current req peers s r s' label :
  run env (forward_to_upstream app req peers) s = Done (Some r, s') ->
  HeaderMap_get (resp_headers r) CACHE_STATUS = Some label ->
  let rp := policy_of req in
  let clocked := shown env (tick s) in
  let sees := at_step env (tick s) in
  (label = HIT \/ label = COALESCED ->
     may_serve rp = true /\ exists key stored, looked_up sees any_store req key stored /\
       fresh_enough clocked (max_age rp) (arc_get stored) /\
       cached_as clocked (arc_get stored) label r) /\
  (label = REVALIDATED ->
     conditional rp = false /\ exists parts entry fresh, let head := Head_from_upstream parts in
       found_stale clocked sees any_store req entry /\
       origin_outcome peers = Responded parts /\ head_status head = NOT_MODIFIED /\
       freshened clocked sees req entry (stored_fields (forwardable_fields head))
         (HeaderMap_get (head_map head) header.AGE) fresh /\
       cached_as clocked fresh label r).
Proof.
  intros Hrun Hlabel. apply handler_answer in Hrun. cbv zeta.
  assert (forall stored label', cached_as (shown env (tick s)) stored label' r -> label = label') as Hcached.
  { intros stored label' Hr%cached_as_label. congruence. }
  destruct Hrun as [[k stored use Hserve Hlk Hfresh Hr|entry c _ Hage Hc Hmay Hr]
                   |(stale & Hfound & Hans)].
  - pose proof (Hcached _ _ Hr) as ->. split; [by eauto 10|]. by destruct use.
  - pose proof (Hcached _ _ Hr) as ->. by split; [intros [?|?]|].
  - destruct Hans as [_ Hans|st _ ->]; [|by rewrite error_response_label in Hlabel].
    destruct Hans as [entry c -> Hage Htrouble Hc Hmay Hr
                     |entry parts fresh -> Hcond Hout H304 Hf Hr
                     |parts _ _ Hr%passed_on_label|st _ ->].
    + pose proof (Hcached _ _ Hr) as ->. by split; [intros [?|?]|].
    + pose proof (Hcached _ _ Hr) as ->. split; [by intros [?|?]|].
      intros _. split; [done|]. exists parts, entry, fresh.
      split; [by apply Hfound|]. by split_and!.
    + rewrite Hr in Hlabel. injection Hlabel as <-. by split; [intros [?|?]|].
    + by rewrite error_response_label in Hlabel.
Qed.
End claims.
