(* ===== verification/ProxyExamples.v ===== *)
(** Requests to the proxy on the reference implementations, as witnesses for
    the theorems about the handler. *)

From stdpp Require Import base tactics numbers option list gmap strings.
From S2P Require Import Prelude RustStd Http Directives Policy Moka Store StoreInvariant Examples Coalesce Upstream Provenance Body Metrics Response Tasks StoreTasks TaskLogic Proxy ProxyAccounts ProxyAnswers.

Local Open Scope N_scope.

Definition ex_metrics : option (@Metrics RefProm) :=
  match Metrics_new with Done m => Some m | Panic => None end.

(** a page request, at a time given in seconds, with the example store *)
Definition page_request : @HttpRequest RefHttp := {|
  req_method := GET; uri_authority := None; uri_path_and_query := Some "/page?x=1"%string;
  req_headers := [("host", "Example.org"); ("accept", "text/html")]%string;
  peer_ip := None; app_secure := false; app_host := "localhost" |}.

Definition page_app : AppState :=
  {| upstream_base_url := ex_url; upstream_timeout := Duration_from_secs 30 |}.

Abbreviation RefEnv :=
  (@Env RefProm (RefMoka Key Entry) (RefMoka PrimaryKey Index)) (only parsing).

Definition page_env (secs : N) : RefEnv := {|
  others := fun _ sh => sh;
  clock := fun _ => {| instant_now := Duration_from_secs secs; system_now := 0 |};
  cancelled := fun _ => false |}.

Definition page_start (store : Store) : option TaskState :=
  (fun m => {| tick := 0;
     shared := {| sh_cache := store; sh_flights := Flights_default; sh_metrics := m |};
     trace := [] |}) <$> ex_metrics.

Lemma page_start_store store start :
  page_start store = Some start -> sh_cache (shared start) = store.
Proof. unfold page_start. destruct ex_metrics; [|discriminate]. by intros [= <-]. Qed.

(** the run of the handler; [None] if it has no answer *)
Definition page_run (secs : N) (store : Store) (outcome : OriginOutcome)
    : option (HttpResponse ClientStream * TaskState * TaskState) :=
  start ← page_start store;
  match run (page_env secs) (forward_to_upstream page_app page_request
    {| first_chunk := None; body_channel := 0; origin_outcome := outcome |}) start with
  | Done (Some r, s) => Some (r, start, s)
  | _ => None
  end.

Definition page_label (secs : N) (store : Store) (outcome : OriginOutcome)
    : option (StatusCode * option string) :=
  '(r, _, _) ← page_run secs store outcome;
  Some (resp_status r, HeaderMap_get (resp_headers r) CACHE_STATUS).

Definition page_parts : Parts := {|
  parts_status := 200;
  parts_headers := [("content-length", "5"); ("cache-control", "max-age=60")]%string |}.

Example page_hit : page_label 10 ex_store Failed = Some (200, Some HIT).
Proof. vm_compute. reflexivity. Qed.
Example page_stale : page_label 70 ex_store Failed = Some (200, Some STALE).
Proof. vm_compute. reflexivity. Qed.
Example page_error : page_label 200 ex_store Failed = Some (502, None).
Proof. vm_compute. reflexivity. Qed.
Example page_miss : page_label 200 ex_store (Responded page_parts) = Some (200, Some MISS).
Proof. vm_compute. reflexivity. Qed.
Example page_304 :
  page_label 200 ex_store (Responded {| parts_status := 304; parts_headers := [] |})
  = Some (200, Some REVALIDATED).
Proof. vm_compute. reflexivity. Qed.

Lemma page_run_Some secs store outcome r s s' :
  page_run secs store outcome = Some (r, s, s') ->
  run (page_env secs) (forward_to_upstream page_app page_request
    {| first_chunk := None; body_channel := 0; origin_outcome := outcome |}) s = Done (Some r, s').
Proof.
  unfold page_run. destruct (page_start store) as [s0|]; simpl; [|done].
  destruct (run _ _ _) as [[[r0|] s1]|] eqn:E; [|done..].
  by intros [= -> -> ->].
Qed.

Lemma page_label_Some secs store outcome st label :
  page_label secs store outcome = Some (st, Some label) ->
  exists r s s', page_run secs store outcome = Some (r, s, s') /\
    HeaderMap_get (resp_headers r) CACHE_STATUS = Some label.
Proof.
  unfold page_label. destruct (page_run _ _ _) as [[[r s] s']|]; simpl; [|done].
  intros Heq. exists r, s, s'. split; [done|]. congruence.
Qed.

Lemma request_accounts_witness :
  exists r s s' l, page_run 200 ex_store Failed = Some (r, s, s') /\
    trace s' = trace s ++ l /\ leads l ≡ₚ releases l ++ held (Some r) /\
    (length (sends l) <= 1)%nat.
Proof.
  destruct (page_run 200 ex_store Failed) as [[[r s] s']|] eqn:E.
  2:{ assert (page_label 200 ex_store Failed = None) as Hn by (unfold page_label; by rewrite E).
      rewrite page_error in Hn. discriminate. }
  destruct (request_accounts _ _ _ _ _ _ _ (page_run_Some _ _ _ _ _ _ E))
    as (l & Hl & Hf & _ & Hs & _).
  exists r, s, s', l. split; [reflexivity|]. split; [exact Hl|]. split; [exact Hf|exact Hs].
Defined.

Lemma every_answer_is_justified_witness :
  exists r s s', page_run 200 ex_store (Responded page_parts) = Some (r, s, s') /\
    answer_to page_app (shown (page_env 200) (tick s)) (at_step (page_env 200) (tick s)) any_store page_request
      {| first_chunk := None; body_channel := 0; origin_outcome := Responded page_parts |} r.
Proof.
  destruct (page_label_Some _ _ _ _ _ page_miss) as (r & s & s' & Hrun & _).
  exists r, s, s'. split; [exact Hrun|].
  exact (every_answer_is_justified _ _ _ _ _ _ _ (page_run_Some _ _ _ _ _ _ Hrun)).
Defined.

Lemma stale_only_when_allowed_witness :
  exists r s s' entry, page_run 70 ex_store Failed = Some (r, s, s') /\
    cached_as (shown (page_env 70) (tick s)) (arc_get (response entry)) STALE r.
Proof.
  destruct (page_label_Some _ _ _ _ _ page_stale) as (r & s & s' & Hrun & Hlabel).
  destruct (stale_only_when_allowed _ _ _ _ _ _ _ (page_run_Some _ _ _ _ _ _ Hrun) Hlabel)
    as (_ & _ & _ & entry & c & _ & Hr & _).
  exists r, s, s', entry. split; [exact Hrun|exact Hr].
Defined.

Lemma cached_answers_are_current_witness :
  exists r s s', page_run 10 ex_store Failed = Some (r, s, s') /\
    exists key stored,
      looked_up (at_step (page_env 10) (tick s)) any_store page_request key stored /\
      fresh_enough (shown (page_env 10) (tick s)) None (arc_get stored) /\
      cached_as (shown (page_env 10) (tick s)) (arc_get stored) HIT r.
Proof.
  destruct (page_label_Some _ _ _ _ _ page_hit) as (r & s & s' & Hrun & Hlabel).
  exists r, s, s'. split; [exact Hrun|].
  destruct (cached_answers_are_current _ _ _ _ _ _ _ _ (page_run_Some _ _ _ _ _ _ Hrun) Hlabel)
    as [Hc _].
  destruct (Hc (or_introl eq_refl)) as [_ Hstored]. exact Hstored.
Defined.

(** ** A stored age that ends the process *)

(** the origin announces a response almost 2^64 seconds old, with a lifetime
    that leaves it one second *)
Definition old_parts : Parts := {|
  parts_status := 200;
  parts_headers :=
    [("age", "18446744073709551614");
     ("cache-control", "max-age=18446744073709551615, stale-while-revalidate=60");
     ("content-length", "0")]%string |}.

(** the handler stores it at second 10 *)
Definition old_store : option Store :=
  '(r, _, s) ← page_run 10 ex_empty (Responded old_parts);
  Some (sh_cache (shared s)).

(** whether a request at that time ends the process *)
Definition page_panics (secs : N) (store : option Store) : bool :=
  match store ≫= page_start with
  | Some start =>
      match run (page_env secs) (forward_to_upstream page_app page_request
        {| first_chunk := None; body_channel := 0; origin_outcome := Failed |}) start with
      | Panic => true
      | Done _ => false
      end
  | None => false
  end.

Lemma page_panics_true secs store :
  page_panics secs store = true ->
  exists st start, store = Some st /\ page_start st = Some start /\
    run (page_env secs) (forward_to_upstream page_app page_request
      {| first_chunk := None; body_channel := 0; origin_outcome := Failed |}) start = Panic.
Proof.
  unfold page_panics. destruct store as [st|]; [|discriminate].
  change (Some st ≫= page_start) with (page_start st).
  destruct (page_start st) as [start|] eqn:Es; [|done].
  destruct (run _ _ _) eqn:Ef; [discriminate|].
  exists st, start. split; [reflexivity|]. split; [exact Es|exact Ef].
Qed.

(** C35. Two requests and one response of the origin end the process. The
    response says that it is 2^64 - 2 seconds old, fresh for one second more,
    and usable while it is revalidated; the proxy stores it. Three seconds later
    it is stale within its window, and [StoredResponse::age] adds the elapsed
    time to its initial age, which passes the largest [Duration] and panics. *)
Theorem stale_age_panics :
  exists store start,
    old_store = Some store /\ page_start store = Some start /\
    run (page_env 13) (forward_to_upstream page_app page_request
      {| first_chunk := None; body_channel := 0; origin_outcome := Failed |}) start = Panic.
Proof. apply page_panics_true. vm_compute. reflexivity. Qed.

(** ** A replaced entry that is not left alone *)

Definition race_time : Instant := Duration_from_secs 70.

(** the example page as another request stores it *)
Definition race_insert (s : Store) : option (Arc StoredResponse) * Store :=
  insert_response race_time ex_key ex_vary ex_policy 200 ex_headers "newer" s.

(** the other request stores it after the freshening has looked whether its
    entry is still there, in its second step *)
Definition race_env : RefEnv := {|
  others := fun k sh =>
    if decide (k = 2%nat) then with_cache (snd (race_insert (sh_cache sh))) sh else sh;
  clock := fun _ => {| instant_now := race_time; system_now := 0 |};
  cancelled := fun _ => false |}.

Definition race_entry : StaleEntry := {| response := ex_arc; stale_key := ex_response_key |}.

Definition race_run : option (Arc StoredResponse * Arc StoredResponse * Store * Store) :=
  start ← page_start ex_store;
  match race_insert ex_store,
        run race_env (store_freshen race_entry ex_rp ex_request [] None) start with
  | (Some newer, s1), Done (Some fresh, s) => Some (newer, fresh, s1, sh_cache (shared s))
  | _, _ => None
  end.

Definition race_finds (s : Store) : option (string * bool) :=
  match lookup race_time ex_key ex_request None s with
  | Done (Some (Fresh r)) => Some (body (arc_get r), true)
  | Done (Some (Stale e)) => Some (body (arc_get (response e)), false)
  | _ => None
  end.

Example race_result :
  (fun '(newer, fresh, s1, s2) =>
     (body (arc_get newer), body (arc_get fresh), race_finds s1, race_finds s2)) <$> race_run
  = Some ("newer", "hello", Some ("newer", true), Some ("hello", true))%string.
Proof. vm_compute. reflexivity. Qed.

Lemma race_finds_Some s b :
  race_finds s = Some (b, true) ->
  exists r, lookup race_time ex_key ex_request None s = Done (Some (Fresh r)) /\
    body (arc_get r) = b.
Proof.
  unfold race_finds. destruct (lookup _ _ _ _ s) as [[[r|e]|]|]; try discriminate.
  intros [= <-]. by exists r.
Qed.

(** C37. [Store::freshen] documents that it leaves an entry alone that another
    response has replaced since the lookup. That does not hold when the other
    response is stored between two of its accesses: its lookups find the newer
    response, until the freshening puts the old one back over it. *)
Theorem freshen_race :
  exists start newer s1 fresh s',
    page_start ex_store = Some start /\
    (* another request has stored a newer response for the same key *)
    race_insert ex_store = (Some newer, s1) /\
    sh_cache (others race_env 2 (shared start)) = s1 /\
    (exists r, lookup race_time ex_key ex_request None s1 = Done (Some (Fresh r)) /\
       body (arc_get r) = body (arc_get newer)) /\
    (* and the freshening replaces it *)
    run race_env (store_freshen race_entry ex_rp ex_request [] None) start
      = Done (Some fresh, s') /\
    body (arc_get fresh) <> body (arc_get newer) /\
    exists r, lookup race_time ex_key ex_request None (sh_cache (shared s')) = Done (Some (Fresh r)) /\
      body (arc_get r) = body (arc_get (response race_entry)).
Proof.
  pose proof race_result as Hres. unfold race_run in Hres.
  destruct (page_start ex_store) as [start|] eqn:Es; [|discriminate Hres].
  cbn [mbind option_bind] in Hres.
  destruct (race_insert ex_store) as [[newer|] s1] eqn:Ei; [|discriminate Hres].
  destruct (run _ _ start) as [[[fresh|] s']|] eqn:Er; [|discriminate Hres..].
  cbn [fmap option_fmap option_map] in Hres. injection Hres as Hn Hf H1 H2.
  exists start, newer, s1, fresh, s'. split; [reflexivity|]. split; [reflexivity|].
  split. { simpl. by rewrite (page_start_store _ _ Es), Ei. }
  split. { rewrite Hn. by apply race_finds_Some. }
  split; [exact Er|]. split; [by rewrite Hn, Hf|]. by apply race_finds_Some.
Qed.
