(* ===== verification/ProxyStoring.v ===== *)
(** What a request does to the cache: which responses it stores, under which
    key and policy, when its streamed response carries a copy for the cache,
    and what it invalidates. *)

From stdpp Require Import base tactics numbers option list gmap strings.
From S2P Require Import Prelude RustStd Http Directives Policy Moka Store StoreInvariant Examples Coalesce Upstream Body Metrics Response Tasks TaskLogic Proxy ProxyAccounts ProxyAnswers ProxyExamples.

Local Open Scope N_scope.

Section storing.
Context `{Hops : HttpOps, Yops : HyperOps, Pops : PromOps,
  EntriesOps : !MokaOps Key Entry, IndexOps : !MokaOps PrimaryKey Index}.
Variable app : AppState.

Section request.
Variables (req : HttpRequest) (key : PrimaryKey) (rp : RequestPolicy) (head : Head).

(** the decision of [storable] on the origin's head *)
Definition decision (o : option (Storable * Vary)) : Prop :=
  exists now, storable now rp (req_headers req) (head_status head) (head_map head) = o.

(** a callback that stores the origin's response for the request *)
Definition right_callback (f : Finish) : Prop :=
  fin_key f = key /\ decision (Some (fin_storable f, fin_vary f)) /\
  fin_status f = head_status head /\ fin_headers f = stored_fields (forwardable_fields head).

(** the request must invalidate what is stored for its URI *)
Definition must_invalidate : Prop :=
  Method_is_safe (req_method req) = false /\
  (StatusCode_is_success (head_status head) = true \/
   StatusCode_is_redirection (head_status head) = true).

(** the effects on the store of passing the response on: a body of length 0
    is stored at once, because actix never polls it *)
Definition right_effect (e : Effect) : Prop :=
  match e with
  | Inserted k v p st hs b =>
      right_callback {| fin_key := k; fin_vary := v; fin_storable := p; fin_status := st;
                        fin_headers := hs; fin_flight := None |} /\
      content_length head = Some 0 /\ b = ""%string
  | Invalidated k => k = key /\ must_invalidate
  | Freshened _ | Spawned _ => False
  | _ => True
  end.

(** the stream of a response that is passed on, before its first poll: it
    carries an empty copy with the right callback, unless the response is not
    storable, is stored already, or is announced to be too long *)
Definition right_stream (stream : ClientStream) : Prop :=
  stream_length stream = content_length head /\
  tee_length (stream_tee stream) = content_length head /\
  match copy (stream_tee stream) with
  | Some c =>
      buffer c = ""%string /\ right_callback (finish c) /\
      content_length head <> Some 0 /\
      (exists s, copy_limit c = max_entry s) /\
      forall n, content_length head = Some n -> n <= copy_limit c
  | None =>
      decision None \/ content_length head = Some 0 \/
      exists s n, content_length head = Some n /\ max_entry s < n
  end.

Lemma store_plan_right :
  spec (store_plan req key rp head) (fun o l => Forall right_effect l /\
    (Invalidated key ∈ l <-> must_invalidate) /\
    exists st, o = Some st /\
    match st with
    | Some st => storing_key st = key /\ storing_flight st = None /\
        decision (Some (storing_storable st, storing_vary st)) /\
        exists s, storing_limit st = max_entry s
    | None => decision None
    end).
Proof.
  unfold store_plan. spec_one.
  assert (spec (if negb (Method_is_safe (req_method req)) &&
      (StatusCode_is_success (head_status head) || StatusCode_is_redirection (head_status head))
    then on_cache (fun _ s => Done (tt, invalidate key s)) (fun _ => [Invalidated key])
    else mret tt) (fun o l => Forall right_effect l /\
      (Invalidated key ∈ l <-> must_invalidate) /\ o = Some tt)) as Hinv.
  { unfold must_invalidate. destruct (negb _ && _) eqn:E; spec_one.
    - apply andb_true_iff in E as [Hs%negb_true_iff Hst%orb_true_iff]. destruct a.
      split; [by constructor|]. split; [|done]. split; [done|]. intros _. left.
    - split; [done|]. split; [|done]. split; [by intros ?%elem_of_nil|].
      intros [Hs Hst]. apply orb_true_iff in Hst. by rewrite Hs, Hst in E. }
  eapply spec_mono; [exact Hinv|]. intros o l (Hl & Hiff & ->). repeat spec_one.
  destruct (storable _ _ _ _ _) as [[pol v]|] eqn:Es.
  - repeat spec_one. simplify_eq. simpl. rewrite app_nil_r. split; [done|]. split; [done|].
    eexists. split; [done|]. simpl. split; [done|]. split; [done|].
    split; [by exists (system_now c)|by eexists].
  - spec_one. rewrite app_nil_r. split; [done|]. split; [done|]. eexists. split; [done|].
    by exists (system_now c).
Qed.

Lemma right_released flight : Forall right_effect (released flight).
Proof. destruct flight; by repeat constructor. Qed.

Lemma client_response_right idle st :
  match st with
  | Some st => storing_key st = key /\ decision (Some (storing_storable st, storing_vary st)) /\
      exists s, storing_limit st = max_entry s
  | None => decision None
  end ->
  spec (client_response head idle st) (fun o l => Forall right_effect l /\
    (forall k, Invalidated k ∉ l) /\
    exists r stream, o = Some r /\ resp_body r = StreamedBody stream /\ right_stream stream).
Proof.
  intros Hst. unfold client_response. spec_one.
  assert (forall flight k, Invalidated k ∉ released flight) as Hrel.
  { intros [g|] k Hin; simpl in Hin; [|by apply elem_of_nil in Hin].
    by apply list_elem_of_singleton in Hin. }
  destruct st as [st|]; cycle 1.
  { spec_one. unfold Tee_new, Tee_finish. case_bool_decide; simpl; repeat spec_one; simpl;
      (split; [done|split; [by intros ? ?%elem_of_nil|]]);
      (do 2 eexists; split; [done|]; split; [done|]; split; [done|]; split; [done|]); by left. }
  destruct Hst as (Hkey & Hdec & Hlim).
  destruct (is_none_or _ _) eqn:Efit; simpl; cycle 1.
  { repeat spec_one. unfold Tee_new, Tee_finish. case_bool_decide; simpl; repeat spec_one; simpl;
      (split; [|split]); rewrite ?app_nil_r; try apply right_released; try by auto.
    all: do 2 eexists; split; [done|]; split; [done|]; split; [done|]; split; [done|]; simpl;
      right; try by left.
    right.
    destruct (content_length head) as [n|]; [|done]. simpl in Efit. apply N.leb_gt in Efit.
    destruct Hlim as [s Hs]. exists s, n. by rewrite <- Hs. }
  spec_one. unfold Tee_new. case_bool_decide as Hlen; simpl.
  - unfold Tee_finish. simpl. rewrite Hlen. simpl. repeat spec_one.
    eapply spec_mono; [apply finish_accounts|]. intros o l (-> & l1 & -> & Hl1).
    repeat spec_one. simpl. rewrite ?app_nil_r. split; [|split].
    + apply Forall_app. split; [|apply right_released].
      destruct Hl1 as [-> | ->]; [done|]. apply Forall_singleton. by repeat (split; [done|]).
    + intros k [Hin|Hin]%elem_of_app; [|by apply Hrel in Hin].
      destruct Hl1 as [-> | ->]; [by apply elem_of_nil in Hin|by apply list_elem_of_singleton in Hin].
    + do 2 eexists. split; [done|]. split; [done|]. split; [done|]. split; [done|]. right. by left.
  - repeat spec_one. simpl. split; [done|]. split; [by intros ? ?%elem_of_nil|].
    do 2 eexists. split; [done|]. split; [done|]. split; [done|]. split; [done|]. simpl.
    split; [done|]. split; [by repeat (split; [done|])|]. split; [done|]. split; [done|].
    intros n Hn. rewrite Hn in Efit. simpl in Efit. by apply N.leb_le.
Qed.

(** the response is passed on, and the store is told what it has to know *)
Definition stores_rightly (o : option (HttpResponse ClientStream)) (l : list Effect) : Prop :=
  Forall right_effect l /\ (Invalidated key ∈ l <-> must_invalidate) /\
  exists r stream, o = Some r /\ resp_body r = StreamedBody stream /\ right_stream stream.

Lemma answered_by_origin_right ex :
  ex_req ex = req -> ex_cache_key ex = key -> ex_request_policy ex = rp ->
  spec (answered_by_origin app ex head) stores_rightly.
Proof.
  intros Hreq Hkey Hrp. unfold answered_by_origin, new_origin_body. rewrite Hreq, Hkey, Hrp.
  spec_one.
  eapply spec_mono; [apply store_plan_right|]. intros o l (Hl & Hinv & st & -> & Hst).
  repeat spec_one. simpl.
  assert (forall l1 l2, Forall right_effect l1 -> (forall k, Invalidated k ∉ l1) ->
    forall o, (Forall right_effect l2 /\ (forall k, Invalidated k ∉ l2) /\
      exists r stream, o = Some r /\ resp_body r = StreamedBody stream /\ right_stream stream) ->
    stores_rightly o ((l ++ l1) ++ l2)) as Hcomb.
  { intros l1 l2 H1 Hn1 o (H2 & Hn2 & Hr). split; [by rewrite !Forall_app|]. split; [|done].
    rewrite !elem_of_app. split; [|tauto]. intros [[?|?]|?]; [tauto|by edestruct Hn1|by edestruct Hn2]. }
  destruct st as [st|].
  - destruct Hst as (Hk & _ & Hdec & Hlim).
    eapply spec_mono; [by apply client_response_right|]. intros o l' Hr.
    pose proof (Hcomb [] l') as Hc. rewrite app_nil_r in Hc.
    apply Hc; [done|by intros ? ?%elem_of_nil|done].
  - repeat spec_one. eapply spec_mono; [by apply client_response_right|]. intros o l' Hr.
    simpl. rewrite (app_assoc l). apply Hcomb; [apply right_released| |done].
    intros k Hin. destruct (ex_flight ex); [|by apply elem_of_nil in Hin].
    by apply list_elem_of_singleton in Hin.
Qed.
End request.

(** ** The parts that store nothing *)

Definition stores_nothing (e : Effect) : Prop :=
  match e with Inserted _ _ _ _ _ _ | Invalidated _ => False | _ => True end.

Lemma look_stores_nothing l : Forall of_a_look l -> Forall stores_nothing l.
Proof. intros Hl. eapply Forall_impl; [exact Hl|]. by intros []. Qed.

Lemma released_stores_nothing flight : Forall stores_nothing (released flight).
Proof. destruct flight; by repeat constructor. Qed.

(** an end of the request that passes nothing on *)
Definition not_passed (o : option (HttpResponse ClientStream)) (l : list Effect) : Prop :=
  Forall stores_nothing l /\ forall r, o = Some r -> not_streamed r.

Definition before_not_passed (o : option Before) (l : list Effect) : Prop :=
  Forall stores_nothing l /\ forall r, o = Some (BeforeAnswer r) -> not_streamed r.

Lemma Cached_or_stores_nothing c flight :
  cached_holds c -> spec (Cached_or c flight) before_not_passed.
Proof.
  intros Hc. destruct c as [r|entry|]; simpl; repeat spec_one; unfold before_not_passed;
    rewrite ?app_nil_r; (split; [try apply released_stores_nothing; done|]);
    by intros ? [= <-].
Qed.

Lemma before_not_passed_app l1 l2 o :
  Forall stores_nothing l1 -> before_not_passed o l2 -> before_not_passed o (l1 ++ l2).
Proof. intros H1 [H2 ?]. split; [by rewrite Forall_app|done]. Qed.

Lemma second_look_stores_nothing req key rp use flight :
  spec (cached ← from_cache app req key rp use; Cached_or cached flight)
    before_not_passed.
Proof.
  spec_one. eapply spec_mono; [apply quiet_from_cache|].
  intros o l (Hl%look_stores_nothing & c & -> & Hc).
  eapply spec_mono; [by apply Cached_or_stores_nothing|]. intros o l'. by apply before_not_passed_app.
Qed.

Lemma join_flight_stores_nothing req key rp :
  spec (join_flight req key rp) (fun o l => Forall stores_nothing l /\ o <> None).
Proof.
  unfold join_flight. destruct (negb _); repeat spec_one; [done|].
  destruct a; repeat spec_one; [|done]. split; [|done]. destruct (fst _); by repeat constructor.
Qed.

Lemma serve_from_cache_stores_nothing req key rp :
  spec (serve_from_cache app req key rp) before_not_passed.
Proof.
  unfold serve_from_cache. spec_one. eapply spec_mono; [apply quiet_from_cache|].
  intros o l (Hl%look_stores_nothing & c & -> & Hc). spec_one.
  eapply spec_mono; [by apply Cached_or_stores_nothing|]. intros [[r|t]|] l' [Hl' Hr].
  - spec_one. rewrite app_nil_r. apply before_not_passed_app; [done|]. by split.
  - spec_one. eapply spec_mono; [apply join_flight_stores_nothing|].
    intros [[g|w|]|] l2 [Hl2 Hj]; [..|done].
    + eapply spec_mono; [apply second_look_stores_nothing|]. intros o l3 H3.
      by repeat apply before_not_passed_app.
    + unfold wait_for_leader. spec_one. spec_one; simpl.
      * eapply spec_mono; [apply second_look_stores_nothing|]. intros o l3 H3.
        by repeat apply before_not_passed_app.
      * repeat apply before_not_passed_app; [done..|]. by split.
    + spec_one. repeat apply before_not_passed_app; [done..|]. by split.
  - apply before_not_passed_app; [done|]. by split.
Qed.

Lemma cached_then_release_not_passed l flight stored label :
  Forall stores_nothing l ->
  spec (response ← cached_response stored label; _ ← release flight; mret response)
    (fun o l' => not_passed o (l ++ l')).
Proof.
  intros Hl. spec_one. eapply spec_mono; [apply quiet_cached_response|].
  intros o l' (-> & r & -> & Hr). repeat spec_one. unfold not_passed. simpl.
  rewrite ?app_nil_r. split; [|by intros ? [= <-]].
  apply Forall_app. split; [done|apply released_stores_nothing].
Qed.

Lemma may_serve_on_error_no_trace ex entry :
  spec (exchange_may_serve_on_error ex entry) (fun o l => l = [] /\ o <> None).
Proof. unfold exchange_may_serve_on_error. destruct (negb _); by repeat spec_one. Qed.

Lemma failed_not_passed ex st : spec (failed ex st) not_passed.
Proof.
  unfold failed. spec_one.
  assert (spec (match ex_stale ex with
    | None => mret (error_response st)
    | Some stale =>
        serves ← exchange_may_serve_on_error ex stale;
        if serves : bool then serve_stale stale
        else mret (error_response
          (if response_must_revalidate (arc_get (response stale)) then GATEWAY_TIMEOUT else st))
    end) (fun o l => l = [] /\ exists r, o = Some r /\ not_streamed r)) as Hr.
  { destruct (ex_stale ex) as [stale|]; [|spec_one; split; [done|by eexists]].
    spec_one. eapply spec_mono; [apply may_serve_on_error_no_trace|].
    intros [[]|] l [-> ?]; [apply quiet_cached_response| |done].
    spec_one. split; [done|by eexists]. }
  eapply spec_mono; [exact Hr|]. intros o l (-> & r & -> & Hh). repeat spec_one. simpl.
  rewrite ?app_nil_r. split; [apply released_stores_nothing|]. by intros ? [= <-].
Qed.

(** ** The whole handler *)

Definition storing_outcome (req : HttpRequest) (key : PrimaryKey) (rp : RequestPolicy)
    (peers : Peers) (o : option (HttpResponse ClientStream)) (l : list Effect) : Prop :=
  not_passed o l \/
  exists parts l1 l2, origin_outcome peers = Responded parts /\ l = l1 ++ l2 /\
    Forall stores_nothing l1 /\
    stores_rightly req key rp (Head_from_upstream parts) o l2.

Lemma storing_outcome_app req key rp peers o l1 l2 :
  Forall stores_nothing l1 -> storing_outcome req key rp peers o l2 ->
  storing_outcome req key rp peers o (l1 ++ l2).
Proof.
  intros H1 [[H2 Hr]|(parts & l3 & l4 & Hout & -> & H3 & H4)].
  - left. split; [by apply Forall_app|done].
  - right. exists parts, (l1 ++ l3), l4. rewrite app_assoc. split; [done|]. split; [done|].
    split; [by apply Forall_app|done].
Qed.

Lemma answered_stores ex parts peers :
  origin_outcome peers = Responded parts ->
  spec (answered app ex parts)
    (storing_outcome (ex_req ex) (ex_cache_key ex) (ex_request_policy ex) peers).
Proof.
  intros Hout. unfold answered. cbv zeta.
  assert (spec (answered_by_origin app ex (Head_from_upstream parts))
    (storing_outcome (ex_req ex) (ex_cache_key ex) (ex_request_policy ex) peers)) as Horigin.
  { eapply spec_mono; [by apply answered_by_origin_right|]. intros o l Hr. right.
    exists parts, [], l. split; [done|]. split; [done|]. split; [done|exact Hr]. }
  destruct (ex_stale ex) as [stale|]; [|exact Horigin].
  destruct (ex_revalidating ex && _).
  - unfold revalidated. repeat spec_one.
    eapply spec_mono; [apply quiet_cached_response|]. intros o l (-> & r' & -> & Hr).
    repeat spec_one. left. split; [|by intros ? [= <-]]. simpl. rewrite ?app_nil_r.
    constructor; [done|]. apply released_stores_nothing.
  - spec_one.
    assert (spec (if existsb (N.eqb (head_status (Head_from_upstream parts))) ERROR_STATUSES
      then exchange_may_serve_on_error ex stale else mret false)
      (fun o l => l = [] /\ o <> None)) as Hserves.
    { destruct (existsb _ _); [apply may_serve_on_error_no_trace|by spec_one]. }
    eapply spec_mono; [exact Hserves|]. intros [[]|] l [-> ?]; [..|done].
    + eapply spec_mono; [by apply (cached_then_release_not_passed [])|].
      intros o l Hl. by left.
    + exact Horigin.
Qed.

Lemma forward_to_origin_stores req client pq key rp to_origin peers :
  spec (forward_to_origin app req client pq key rp to_origin peers)
    (storing_outcome req key rp peers).
Proof.
  unfold forward_to_origin.
  assert (forall st, spec (_ ← release (to_flight to_origin); mret (error_response st))
    (storing_outcome req key rp peers)) as Herror.
  { intros st. repeat spec_one. left. rewrite app_nil_r.
    split; [apply released_stores_nothing|by intros ? [= <-]]. }
  destruct (upstream_request _ _ _ _) as [[b u]|]; [|apply Herror].
  spec_one. unfold request_body_start. repeat spec_one.
  2:{ left. split; [apply released_stores_nothing|done]. }
  set (ex := {| ex_req := req |}).
  assert (ex_req ex = req /\ ex_cache_key ex = key /\ ex_request_policy ex = rp)
    as (Hreq & Hkey & Hrp) by done.
  clearbody ex. destruct (first_chunk peers) as [[first|e]|]; [|apply Herror|].
  all: destruct (Builder_body _ _) as [hyper_req|]; [|apply Herror].
  all: spec_one; eapply spec_mono; [apply spec_send_to_origin|];
    intros o l [[-> ->]|[-> ->]];
    [|left; split; [constructor; [done|apply released_stores_nothing]|done]].
  all: destruct (origin_outcome peers) as [parts| |] eqn:Eout;
    [eapply spec_mono; [by apply (answered_stores _ _ peers)|]; rewrite Hreq, Hkey, Hrp;
       intros o l; apply (storing_outcome_app _ _ _ _ _ [_]); by repeat constructor
    |eapply spec_mono; [apply failed_not_passed|]; intros o l [Hl Hr]; left;
       split; [by constructor|done]..].
Qed.

Lemma handler_stores req peers :
  let rp := RequestPolicy_new (req_method req) (req_headers req) in
  let client := ClientInfo_from_request req in
  let key := PrimaryKey_new (Upstream.scheme client) (Upstream.host client)
    (unwrap_or (uri_path_and_query req) "") in
  spec (forward app req rp peers) (storing_outcome req key rp peers).
Proof.
  cbv zeta. unfold forward. cbv zeta. spec_one.
  eapply spec_mono; [apply serve_from_cache_stores_nothing|].
  intros [[r|t]|] l [Hl Hr].
  - spec_one. rewrite app_nil_r. left. split; [done|]. intros ? [= <-]. by apply Hr.
  - eapply spec_mono; [apply forward_to_origin_stores|]. intros o l'. by apply storing_outcome_app.
  - by left.
Qed.

(** C5. What a request stores. The proxy stores a response only if [storable]
    allows it for this request, under the request's own key, with the origin's
    status and its end-to-end fields; the copy travels with the streamed
    response, within the store's entry limit, so that [Tee] stores exactly the
    body the client was sent, and a body announced as empty is stored at once
    if the store takes it.
    Every response that is passed on has its copy unless it is not storable,
    is empty, or is announced as longer than the limit. And stored responses
    for the URI are invalidated exactly when an unsafe request has succeeded
    or was redirected. *)
Theorem responses_stored_rightly env req peers s o s' :
  let rp := RequestPolicy_new (req_method req) (req_headers req) in
  let client := ClientInfo_from_request req in
  let key := PrimaryKey_new (Upstream.scheme client) (Upstream.host client)
    (unwrap_or (uri_path_and_query req) "") in
  run env (forward_to_upstream app req peers) s = Done (o, s') ->
  exists l, trace s' = trace s ++ l /\
  ((Forall stores_nothing l /\ forall r stream, o = Some r -> resp_body r <> StreamedBody stream) \/
   exists parts r stream, let head := Head_from_upstream parts in
     origin_outcome peers = Responded parts /\ o = Some r /\ resp_body r = StreamedBody stream /\
     right_stream req key rp head stream /\
     (Invalidated key ∈ l <-> must_invalidate req head) /\
     forall e, e ∈ l -> stores_nothing e \/ right_effect req key rp head e).
Proof.
  cbv zeta. set (rp := RequestPolicy_new _ _). set (key := PrimaryKey_new _ _ _).
  apply (spec_run env (forward_to_upstream app req peers) (fun o l =>
    (Forall stores_nothing l /\ forall r stream, o = Some r -> resp_body r <> StreamedBody stream) \/
    exists parts r stream, let head := Head_from_upstream parts in
     origin_outcome peers = Responded parts /\ o = Some r /\ resp_body r = StreamedBody stream /\
     right_stream req key rp head stream /\
     (Invalidated key ∈ l <-> must_invalidate req head) /\
     forall e, e ∈ l -> stores_nothing e \/ right_effect req key rp head e)).
  unfold forward_to_upstream. cbv zeta. spec_one. eapply spec_mono; [apply handler_stores|].
  assert (forall l, Forall stores_nothing l -> Invalidated key ∉ l) as Hno.
  { intros l Hl Hin. by apply (Forall_forall _ l) with (x := Invalidated key) in Hl. }
  intros [r|] l [[Hl Hr]|(parts & l1 & l2 & Hout & -> & H1 & H2 & Hinv & r0 & stream & Heq & Hb & Hs)];
    simplify_eq; repeat spec_one; simpl.
  - left. split; [apply Forall_app; split; [done|by repeat constructor]|].
    intros ? stream [= <-]. by apply Hr.
  - right. exists parts, r0, stream. split; [done|]. split; [done|]. split; [done|]. split; [done|].
    split.
    + rewrite <- Hinv, !elem_of_app. split; [|tauto].
      intros [[Hin|?]|Hin]; [by apply Hno in Hin|done|].
      by apply list_elem_of_singleton in Hin.
    + intros e. rewrite !elem_of_app. intros [[Hin|Hin]|Hin].
      * left. by apply (Forall_forall _ l1).
      * right. by apply (Forall_forall _ l2).
      * apply list_elem_of_singleton in Hin as ->. by left.
  - left. split; [done|]. by intros ? ? [=].
Qed.
End storing.

Definition is_streamed {T} (b : ResponseBody T) : bool :=
  match b with StreamedBody _ => true | _ => false end.

Definition page_streamed (secs : N) (store : Store) (outcome : OriginOutcome) : bool :=
  match page_run secs store outcome with
  | Some (r, _, _) => is_streamed (resp_body r)
  | None => false
  end.

Lemma page_streamed_true secs store outcome :
  page_streamed secs store outcome = true ->
  exists r s s', page_run secs store outcome = Some (r, s, s') /\ ~ not_streamed r.
Proof.
  unfold page_streamed. destruct (page_run _ _ _) as [[[r s] s']|]; [|done].
  intros Hb. exists r, s, s'. split; [done|]. unfold not_streamed.
  destruct (resp_body r) as [| |stream]; [done..|]. intros Hno. by apply (Hno stream).
Qed.

Lemma responses_stored_rightly_witness :
  exists r s s' stream, page_run 200 ex_store (Responded page_parts) = Some (r, s, s') /\
    resp_body r = StreamedBody stream /\
    right_stream page_request (PrimaryKey_new "http" "Example.org" "/page?x=1")
      (RequestPolicy_new GET (req_headers page_request)) (Head_from_upstream page_parts) stream.
Proof.
  assert (page_streamed 200 ex_store (Responded page_parts) = true) as Hp
    by (vm_compute; reflexivity).
  destruct (page_streamed_true _ _ _ Hp) as (r & s & s' & Hrun & Hstream).
  destruct (responses_stored_rightly _ _ _ _ _ _ _ (page_run_Some _ _ _ _ _ _ Hrun))
    as (l & _ & [[_ Hno]|(parts & r0 & stream & Hout & Hr & Hb & Hs & _)]).
  - destruct (Hstream (fun stream => Hno r stream eq_refl)).
  - injection Hout as <-. injection Hr as <-. exists r, s, s', stream.
    split; [exact Hrun|]. split; [exact Hb|exact Hs].
Defined.
