(* ===== verification/ProxySharing.v ===== *)
(** What may be shared. Each access of a request to the store, and of all that
    it leaves behind, keeps the store sound ([Provenance]), and from a sound
    store no client is served what was stored for another URI, for other values
    of the [Vary] fields, or in answer to credentials without the origin's
    leave. [System] applies both to all the threads of the proxy. *)

From stdpp Require Import base tactics numbers option list gmap strings.
From S2P Require Import Prelude RustStd Http Directives Policy Moka Store StoreInvariant StoreTheorems Examples Coalesce Upstream Provenance Body Metrics Response Tasks StoreTasks TaskLogic Proxy ProxyAnswers ProxyExamples.

Local Open Scope N_scope.

Section sharing.
Context `{Hops : HttpOps, Log : OriginLog, Yops : HyperOps, Pops : PromOps,
  EntriesOps : !MokaOps Key Entry, IndexOps : !MokaOps PrimaryKey Index}.
Context `{Hlaws : !HttpLaws, !MokaLaws Key Entry, !MokaLaws PrimaryKey Index}.
(** the times that the clock may show, and the store that a step may see: one
    with fewer than 2^64 - 1 generations taken *)
Variables (clocked : Clock -> Prop) (sees : Clock -> Store -> Prop).
Hypothesis sees_clocked : forall c s, sees c s -> clocked c.
Hypothesis sees_generation : forall c s, sees c s -> next_generation s < u64_MAX.
Hypothesis clocked_ok : forall c, clocked c -> clock_ok (system_now c).

(** what is known of the store are its origins *)
Definition origins_grow (o o' : Origins) : Prop :=
  owner o ⊆ owner o' /\ life o' = life o /\ longest o' = longest o.

Definition origins_know (o : Origins) (f : Fact) : Prop :=
  match f with
  | Belongs g p ns => owner o !! g = Some (p, ns)
  | Fits b => 0 < life o /\ str_len b <= longest o
  end.

#[export] Instance origins_grow_preorder : PreOrder origins_grow.
Proof.
  split; [by intros o; split_and!|]. intros o1 o2 o3 (? & ? & ?) (? & ? & ?).
  split_and!; [by etrans|congruence..].
Qed.

Lemma origins_know_grow o o' f : origins_grow o o' -> origins_know o f -> origins_know o' f.
Proof.
  intros (Hsub & Hl & Hm). destruct f as [g p ns|b]; simpl; [by intros ?; eapply lookup_weaken|].
  by rewrite Hl, Hm.
Qed.

#[export] Instance origins_known : Ghost Origins := {|
  grows := origins_grow;
  knows := origins_know;
  grows_preorder := origins_grow_preorder;
  knows_grows := origins_know_grow |}.

Lemma looked_up_shareable req key r :
  looked_up sees sound_by req key r -> shareable req (arc_get r).
Proof.
  intros (o1 & o2 & c1 & c2 & s1 & s2 & [Hsub _] & _ & H1 & _ & H2 & Hix & He).
  exact (lookup_shareable _ _ _ _ _ _ _ _ _ H1 H2 Hsub Hix He).
Qed.

Lemma found_came_from req e :
  found clocked sees sound_by req e ->
  primary (stale_key e) = uri_key req /\
  exists v, came_from (uri_key req) v (arc_get (response e)).
Proof.
  intros [(o1 & o2 & c1 & c2 & s1 & s2 & [Hsub _] & _ & H1 & _ & H2 & Hix & He) _].
  destruct (sound_lookup _ _ _ _ _ _ _ _ _ _ H1 H2 Hsub Hix He) as (Hp & v & Hv & _). eauto.
Qed.

(** what is stored comes from where the store says *)
Lemma allowed_came_from now p v pol st hs b s :
  allowed clocked sees sound_by p v pol st hs b ->
  policy_ok pol /\ came_from p v (new_response now pol st hs b s).
Proof.
  intros [c req parts pol' v' b' head Hc Hs Hsent|c req e update a pol' v' Hc Hfound Hs].
  - split; [by eapply policy_ok_storable, Hs; auto|]. by eapply came_stored.
  - split; [by eapply policy_ok_storable, Hs; auto|].
    destruct (found_came_from _ _ Hfound) as (-> & v0 & Hv0). by eapply came_freshened.
Qed.

Lemma sound_kept : kept clocked sees sound_by.
Proof.
  constructor.
  - exact sees_clocked.
  - intros o keys s. apply sound_set_refreshing.
  - intros o p s. apply sound_invalidate.
  - intros o k s. apply sound_cache_invalidate.
  - intros o now s. apply sound_run_pending_tasks.
  - intros o now path c et m s Ho _ Hlen Hread. by apply sound_insert_asset.
  - intros o now path a s. apply sound_stored_asset.
  - intros o s. apply sound_heap.
  - intros o b s Ho [[_ Ht]%enabled_true Hb]%storable_body_true. simpl.
    by rewrite <- (sb_life _ _ Ho), <- (sb_longest _ _ Ho).
  - intros o now p v n s. apply sound_reuse.
  - intros o c p v s Hs Ho.
    destruct (sound_fetch_add o p (names v) s (sees_generation c s Hs) Ho) as [Hsub Ho'].
    eexists. split; [|split; [exact Ho'|apply lookup_insert_eq]]. done.
  - intros o now p v n s. apply sound_insert_index.
  - intros o now p v n pol st hs b s Ho Hn [Ht Hb] [Hpol Hcame]%(allowed_came_from now _ _ _ _ _ _ s).
    by apply sound_insert_entry.
Qed.

(** what a request is answered from a sound store may be shared with it *)
Lemma answer_shareable app req peers r label :
  answer_to app clocked sees sound_by req peers r ->
  HeaderMap_get (resp_headers r) CACHE_STATUS = Some label ->
  label ∈ [HIT; COALESCED; STALE] ->
  exists stored, cached_as clocked stored label r /\ shareable req stored.
Proof.
  intros Hans Hlabel Hin.
  assert (forall stored label', cached_as clocked stored label' r -> label' = label) as Hcached.
  { intros stored label' Hc%cached_as_label. congruence. }
  assert (forall entry, found_stale clocked sees sound_by req entry ->
    shareable req (arc_get (response entry))) as Hentry.
  { intros entry (_ & _ & Hl & _). by eapply looked_up_shareable. }
  assert (label <> MISS /\ label <> REVALIDATED) as [Hmiss Hrev].
  { revert Hin. clear. rewrite !elem_of_cons, elem_of_nil. naive_solver. }
  destruct Hans as [[key stored use _ Hl _ Hr|entry c Hfound _ _ _ Hr]
                   |(stale & Hfound & Hans)].
  - exists (arc_get stored). rewrite <- (Hcached _ _ Hr). split; [done|].
    by eapply looked_up_shareable.
  - exists (arc_get (response entry)). rewrite <- (Hcached _ _ Hr). eauto.
  - destruct Hans as [_ Hans|st _ ->]; [|by rewrite error_response_label in Hlabel].
    destruct Hans as [entry c -> _ _ _ _ Hr|entry parts fresh _ _ _ _ _ Hr
                     |parts _ _ Hr%passed_on_label|st _ ->].
    + exists (arc_get (response entry)). rewrite <- (Hcached _ _ Hr). eauto.
    + by apply Hcached in Hr.
    + congruence.
    + by rewrite error_response_label in Hlabel.
Qed.

(** a revalidated response has the status and the body of one that may be
    shared; its fields are those of the 304 of this exchange *)
Lemma revalidated_shareable app req peers r :
  answer_to app clocked sees sound_by req peers r ->
  HeaderMap_get (resp_headers r) CACHE_STATUS = Some REVALIDATED ->
  exists stored, shareable req stored /\ resp_status r = status stored /\
    resp_body r = FullBody (body stored).
Proof.
  intros Hans Hlabel.
  assert (forall stored label', cached_as clocked stored label' r -> label' = REVALIDATED) as Hcached.
  { intros stored label' Hc%cached_as_label. congruence. }
  destruct Hans as [[key stored use _ _ _ Hr|entry c _ _ _ _ Hr]|(stale & Hfound & Hans)].
  - apply Hcached in Hr. by destruct use.
  - by apply Hcached in Hr.
  - destruct Hans as [_ Hans|st _ ->]; [|by rewrite error_response_label in Hlabel].
    destruct Hans as [entry c -> _ _ _ _ Hr|entry parts fresh -> _ _ _ Hf Hr
                     |parts _ _ Hr%passed_on_label|st _ ->].
    + by apply Hcached in Hr.
    + destruct (Hfound _ eq_refl) as (_ & _ & Hl & _). exists (arc_get (response entry)).
      split; [by eapply looked_up_shareable|].
      destruct Hf as (c & c' & s & _ & _ & ->), Hr as (? & ? & _ & _ & Hst & Hb & _). done.
    + by rewrite Hr in Hlabel.
    + by rewrite error_response_label in Hlabel.
Qed.
End sharing.

(** ** A sound run *)

Definition ex_parts : Parts := {| parts_status := 200; parts_headers := ex_headers |}.

(** the origin sent each of its responses with the same body, and each file has
    the same content *)
#[export] Instance ex_log : OriginLog := {|
  exchanged := fun _ its => its = [Chunk "hello"%string; End];
  file_read := fun _ b _ => b = "hello"%string |}.

Lemma ex_logged outcome : logged outcome.
Proof. intros parts _. by eexists. Qed.

(** a body collected up to its end, within the limit *)
Fixpoint ex_collect (limit : N) (its : list (Item (BodyError unit))) : option Bytes :=
  match its with
  | Chunk c :: its =>
      if limit <? str_len c then None
      else (fun b => (c +:+ b)%string) <$> ex_collect (limit - str_len c) its
  | End :: _ => Some ""%string
  | _ => None
  end.

Lemma ex_collect_whole limit its b : ex_collect limit its = Some b ->
  exists chunks rest, its = map Chunk chunks ++ End :: rest /\ b = concat_bytes chunks.
Proof.
  revert limit b. induction its as [|[c|e|] its IH]; intros limit b; simpl; [done| |done|].
  - destruct (limit <? str_len c); [done|].
    destruct (ex_collect (limit - str_len c) its) as [b'|] eqn:E; [|done].
    intros [= <-]. destruct (IH _ _ E) as (chunks & rest & -> & ->).
    exists (c :: chunks), rest. split; [done|]. by rewrite concat_bytes_cons.
  - intros [= <-]. by exists [], its.
Qed.

Lemma ex_sound : sound_store ex_store.
Proof.
  refine (sound_insert_response 0 ex_key ex_vary ex_policy 200 ex_headers "hello" ex_empty
    _ _ _ _).
  - split; vm_compute; [reflexivity|discriminate].
  - vm_compute. reflexivity.
  - refine (came_stored 0 page_request ex_parts ex_policy ex_vary _ _ _ _ _);
      [vm_compute; reflexivity..|].
    eexists. split; [reflexivity|]. exists ["hello"%string], [End].
    split; [reflexivity|]. split; [reflexivity|]. right. by exists [].
  - apply (sound_Store_new _ _ _ ex_empty_new). vm_compute. discriminate.
Qed.

(** other workers that leave the store of the example as it is *)
Definition steady_env (secs : N) (sh : Shared) : RefEnv := {|
  others := fun _ _ => sh;
  clock := fun _ => {| instant_now := Duration_from_secs secs; system_now := 0 |};
  cancelled := fun _ => false |}.

