(* ===== verification/ProxyRequests.v ===== *)
(** What goes to the origin. Every request that the proxy sends has the
    fields of the client's request, as [Upstream] passes them on, and the
    validators of the stale response that the request's last look at the cache
    found ([to_revalidate], read off the trace): a foreground request has them
    exactly when the client set no preconditions itself, and a background one
    has them in place of the client's. *)

From stdpp Require Import base tactics numbers option list gmap strings.
From S2P Require Import Prelude RustStd Http Directives Policy Moka Store StoreInvariant StoreTheorems Examples Coalesce Upstream Body Provenance Metrics Response Tasks StoreTasks TaskLogic Proxy ProxyAccounts ProxyAnswers ProxyExamples.

Local Open Scope N_scope.

(** ** The fields of one request *)

Section fields.
Context `{Hops : HttpOps, Yops : HyperOps, !HttpLaws, !HyperLaws}.

(** the values of a field that [upstream_request] passes on or sets *)
Definition passed_values (req : HttpRequest) (base : Url) (n : HeaderName) : list HeaderValue :=
  (if copied_to_origin
        (connection_options (HeaderMap_get_all (req_headers req) header.CONNECTION)) n
   then HeaderMap_get_all (req_headers req) n else [])
  ++ values_of n (own_fields base (ClientInfo_from_request req)).

(** a builder that gave a request had every field appended *)
Lemma Builder_values_appended l b n vs :
  Forall (fun f => HeaderName_from_bytes (fst f) = Some (fst f)) l ->
  Builder_values (fold_left (fun b f => Builder_header (fst f) (snd f) b) l b) n = Some vs ->
  exists vs0, Builder_values b n = Some vs0 /\ vs = vs0 ++ values_of n l.
Proof.
  intros Hl. revert b. induction Hl as [|[n0 v] l Hn _ IH]; intros b Hb; simpl in *.
  { exists vs. by rewrite app_nil_r. }
  apply IH in Hb as (vs1 & Hb & ->). rewrite Builder_values_header in Hb. unfold header_values in Hb.
  rewrite Hn in Hb. destruct (HeaderValue_from_bytes v) as [v'|] eqn:Ev; [|done].
  apply HeaderValue_from_bytes_same in Ev as ->.
  destruct (Builder_values b n) as [vs0|]; [|done]. injection Hb as <-.
  exists vs0. split; [done|]. rewrite values_of_cons, <- app_assoc. by destruct (String.eqb n0 n).
Qed.

Lemma validators_names stored :
  Forall (fun f => fst f ∈ PRECONDITION_HEADERS /\ HeaderName_from_bytes (fst f) = Some (fst f))
    (validators stored).
Proof.
  apply Forall_forall. intros [n v] Hin. apply list_elem_of_omap in Hin as ([n0 v0] & _ & Hf).
  simpl in *. destruct (String.eqb n0 header.ETAG); [|destruct (String.eqb n0 header.LAST_MODIFIED)];
    simplify_eq; (split; [by apply (bool_decide_unpack _)|by rewrite HeaderName_from_bytes_token]).
Qed.

Lemma with_validators_values b stored n vs :
  Builder_values (with_validators b stored) n = Some vs ->
  exists vs0, Builder_values b n = Some vs0 /\ vs = vs0 ++ values_of n (validators stored).
Proof.
  apply Builder_values_appended. eapply Forall_impl; [apply validators_names|]. by intros f [_ ?].
Qed.

Lemma values_of_validators n stored :
  n ∉ PRECONDITION_HEADERS -> values_of n (validators stored) = [].
Proof.
  intros Hn. destruct (values_of n (validators stored)) as [|v l] eqn:E; [done|].
  assert (v ∈ values_of n (validators stored)) as Hv by (rewrite E; left).
  apply elem_of_values_of in Hv.
  eapply Forall_forall in Hv; [|apply validators_names]. by destruct Hv.
Qed.

Lemma Builder_values_removed names b n :
  Builder_values (fold_left (fun b n => Builder_remove n b) names b) n =
  if bool_decide (n ∈ names) then (fun _ => []) <$> Builder_values b n else Builder_values b n.
Proof.
  revert b. induction names as [|n0 names IH]; intros b; cbn [fold_left];
    [by rewrite bool_decide_eq_false_2 by apply not_elem_of_nil|].
  rewrite IH, Builder_values_remove.
  destruct (String.eqb_spec n0 n) as [->|Hne].
  - rewrite (bool_decide_eq_true_2 (n ∈ n :: names)) by left.
    case_bool_decide; by destruct (Builder_values b n).
  - rewrite (bool_decide_ext (n ∈ n0 :: names) (n ∈ names)); [done|].
    rewrite elem_of_cons. naive_solver.
Qed.

(** the client set no preconditions *)
Lemma conditional_false req n :
  conditional (policy_of req) = false -> n ∈ PRECONDITION_HEADERS ->
  HeaderMap_get_all (req_headers req) n = [].
Proof.
  intros Hc Hn. apply HeaderMap_contains_key_false.
  destruct (HeaderMap_contains_key (req_headers req) n) eqn:E; [|done].
  assert (conditional (policy_of req) = true) as Ht by (apply existsb_elem; eauto). congruence.
Qed.

Lemma own_fields_unconditional base client n :
  n ∈ PRECONDITION_HEADERS -> values_of n (own_fields base client) = [].
Proof.
  intros Hn. destruct (values_of n (own_fields base client)) as [|v l] eqn:E; [done|].
  assert (v ∈ values_of n (own_fields base client)) as Hv by (rewrite E; left).
  apply elem_of_values_of, own_fields_names in Hv. exfalso. revert Hn Hv. unfold PRECONDITION_HEADERS, header.HOST. clear. set_solver.
Qed.
End fields.

(** ** All the effects of a task *)

Section all_effects.
Context `{Hops : HttpOps, Yops : HyperOps, Pops : PromOps,
  EntriesOps : !MokaOps Key Entry, IndexOps : !MokaOps PrimaryKey Index}.
Variable fine : Effect -> Prop.

(** every effect of [m] is fine *)
Definition all_fine {A} (m : Task A) : Prop := spec m (fun _ l => Forall fine l).

Lemma fine_ret {A} (a : A) : all_fine (mret a).
Proof. by apply spec_ret. Qed.

Lemma fine_bind {A B} (m : Task A) (f : A -> Task B) :
  all_fine m -> (forall a, all_fine (f a)) -> all_fine (m ≫= f).
Proof.
  intros Hm Hf. apply spec_bind. eapply spec_mono; [exact Hm|]. intros [a|] l Hl; [|done].
  eapply spec_mono; [apply Hf|]. intros o l' Hl'. by apply Forall_app.
Qed.

Lemma fine_step {A} (f : Clock -> Shared -> Run (A * Shared)) eff :
  (forall a, Forall fine (eff a)) -> all_fine (step f eff).
Proof. intros He. apply spec_step. eauto. Qed.

Lemma fine_on_cache {A} (f : Clock -> Store -> Run (A * Store)) eff :
  (forall a, Forall fine (eff a)) -> all_fine (on_cache f eff).
Proof. intros He. apply spec_on_cache. eauto. Qed.

Lemma fine_on_flights {A} (f : @Flights FlightKey _ _ -> A * @Flights FlightKey _ _) eff :
  (forall a, Forall fine (eff a)) -> all_fine (on_flights f eff).
Proof. intros He. apply spec_on_flights. eauto. Qed.

Lemma fine_on_metrics f eff : Forall fine eff -> all_fine (on_metrics f eff).
Proof. intros He. by apply spec_on_metrics. Qed.

Lemma fine_note effects : Forall fine effects -> all_fine (note effects).
Proof. intros He. by apply spec_note. Qed.

Lemma fine_read_clock : all_fine read_clock.
Proof. by apply spec_read_clock. Qed.

Lemma fine_lift_run {A} (r : Run A) : all_fine (lift_run r).
Proof. by apply spec_lift_run. Qed.

Lemma fine_pause : all_fine pause.
Proof. by apply spec_pause. Qed.

Lemma fine_store_lookup p request m : all_fine (store_lookup p request m).
Proof. by apply spec_store_lookup. Qed.

Lemma fine_store_insert_response p v pol st hs b eff :
  Forall fine eff -> all_fine (store_insert_response p v pol st hs b eff).
Proof. intros He. by apply spec_store_insert_response. Qed.

Lemma fine_store_freshen entry rp request update age :
  fine (Freshened entry) -> all_fine (store_freshen entry rp request update age).
Proof. intros He. apply spec_store_freshen. intros r. by apply Forall_singleton. Qed.

Hypothesis fine_Released : forall g, fine (Released g).

Lemma fine_release flight : all_fine (release flight).
Proof. apply spec_release. by destruct flight; repeat constructor. Qed.

Lemma fine_await ready flight : all_fine (await ready flight).
Proof. apply spec_await; [done|]. by destruct flight; repeat constructor. Qed.
End all_effects.

(** proves the effects of straight-line code fine, but for the effects and the
    functions that [fine] says something about *)
Ltac fine_code :=
  repeat match goal with
         | |- all_fine _ (mret _) => apply fine_ret
         | |- all_fine _ (mbind _ _) => apply fine_bind; [|intros ?]
         | |- all_fine _ read_clock => apply fine_read_clock
         | |- all_fine _ (lift_run _) => apply fine_lift_run
         | |- all_fine _ (release _) => apply fine_release; [done|]
         | |- all_fine _ (release _) => apply fine_release; done
         | |- all_fine _ (await _ _) => apply fine_await; done
         | |- all_fine _ pause => apply fine_pause
         | |- all_fine _ (on_metrics _ _) => apply fine_on_metrics; [by repeat constructor]
         | |- all_fine _ (on_cache _ _) => apply fine_on_cache; intros ?; [by repeat constructor]
         | |- all_fine _ (store_lookup _ _ _) => apply fine_store_lookup
         | |- all_fine _ (store_insert_response _ _ _ _ _ _ _) =>
             apply fine_store_insert_response; by repeat constructor
         | |- all_fine _ (store_freshen _ _ _ _ _) => by apply fine_store_freshen
         | |- all_fine _ (match ?x with _ => _ end) => destruct x
         end.

(** ** What one request sends *)

Section requests.
Context `{Hops : HttpOps, Yops : HyperOps, Pops : PromOps,
  EntriesOps : !MokaOps Key Entry, IndexOps : !MokaOps PrimaryKey Index}.
Context `{!HttpLaws, !HyperLaws}.
Variables (app : AppState) (req : HttpRequest).

Let base := upstream_base_url app.

Hypothesis Hreq : well_formed req.
Hypothesis Hown : own_valid base (ClientInfo_from_request req).

(** the validators join the request unless the client set preconditions *)
Definition foreground_fields (stale : option StaleEntry) (r : HyperRequest) : Prop :=
  forall n, HyperRequest_values r n = passed_values req base n ++
    match stale with
    | Some e => if conditional (policy_of req) then []
                else values_of n (validators (arc_get (response e)))
    | None => []
    end.

(** the validators take the place of the client's preconditions *)
Definition background_fields (t : RefreshTask) : Prop :=
  forall n, HyperRequest_values (task_request t) n =
    (if bool_decide (n ∈ PRECONDITION_HEADERS) then [] else passed_values req base n) ++
    values_of n (validators (arc_get (response (task_entry t)))).

(** [looks] says whether the cache is still being looked at *)
Definition right_request (looks : Prop) (stale : option StaleEntry) (e : Effect) : Prop :=
  match e with
  | LookedUp _ => looks
  | SentToOrigin kind r => kind = Foreground /\ foreground_fields stale r
  | Spawned t => looks /\ background_fields t
  | _ => True
  end.

Lemma passed_builder_values pq b u n :
  upstream_request req base (ClientInfo_from_request req) pq = Some (b, u) ->
  Builder_values b n = Some (passed_values req base n).
Proof. intros Hb. by eapply upstream_request_values. Qed.

Lemma foreground_built pq b u stale body r :
  upstream_request req base (ClientInfo_from_request req) pq = Some (b, u) ->
  Builder_body body
    (match (match stale with
            | Some e => if conditional (policy_of req) then None else Some e
            | None => None
            end) with
     | Some e => with_validators b (arc_get (response e))
     | None => b
     end) = Some r ->
  foreground_fields stale r.
Proof.
  intros Hb Hr n. pose proof (passed_builder_values pq b u n Hb) as Hv.
  apply HyperRequest_values_body with (n := n) in Hr.
  destruct stale as [e|]; [destruct (conditional (policy_of req))|]; simpl in Hr;
    try (rewrite app_nil_r; congruence).
  apply with_validators_values in Hr as (vs & Hvs & ->). congruence.
Qed.

Lemma background_built pq b u key guard entry r :
  upstream_request req base (ClientInfo_from_request req) pq = Some (b, u) ->
  Builder_body EmptyBody (with_validators
    (fold_left (fun b n => Builder_remove n b) PRECONDITION_HEADERS b)
    (arc_get (response entry))) = Some r ->
  background_fields {| task_guard := guard; task_req := req; task_key := key;
    task_entry := entry; task_request := r; task_target := u |}.
Proof.
  intros Hb Hr n. pose proof (passed_builder_values pq b u n Hb) as Hv.
  apply HyperRequest_values_body with (n := n) in Hr.
  apply with_validators_values in Hr as (vs & Hvs & Heq).
  rewrite Builder_values_removed, Hv in Hvs. simpl. rewrite Heq. f_equal.
  case_bool_decide; by injection Hvs as <-.
Qed.

Section effects.
Variables (looks : Prop) (stale : option StaleEntry).
Let fine := right_request looks stale.

Lemma fine_cached_response stored label : all_fine fine (cached_response stored label).
Proof. unfold cached_response. fine_code. Qed.

Lemma fine_refresh_in_background key entry :
  looks -> all_fine fine (refresh_in_background app req key entry).
Proof.
  intros Hl. unfold refresh_in_background. cbv zeta. apply fine_bind; [by apply fine_on_cache|].
  intros [guard|]; [|apply fine_ret].
  destruct (upstream_request _ _ _ _) as [[b u]|] eqn:Eu; [|by apply fine_on_cache].
  destruct (Builder_body _ _) as [r|] eqn:Er; [|by apply fine_on_cache].
  apply fine_bind; [by apply fine_on_metrics|]. intros _. apply fine_note.
  apply Forall_singleton. split; [done|by eapply background_built].
Qed.

Lemma fine_from_cache key rp use : looks -> all_fine fine (from_cache app req key rp use).
Proof.
  intros Hl. unfold from_cache, while_revalidating. fine_code;
    first [apply fine_cached_response | by apply fine_refresh_in_background
          | by apply fine_note, Forall_singleton].
Qed.

Lemma fine_Cached_or c flight : all_fine fine (Cached_or c flight).
Proof. unfold Cached_or. fine_code. Qed.

Lemma fine_serve_from_cache key rp : looks -> all_fine fine (serve_from_cache app req key rp).
Proof.
  intros Hl. unfold serve_from_cache, join_flight, wait_for_leader.
  fine_code; first [by apply fine_from_cache | apply fine_Cached_or | idtac].
  apply fine_on_flights. intros j. by destruct j; repeat constructor.
Qed.

Lemma fine_store_plan key rp head : all_fine fine (store_plan req key rp head).
Proof. unfold store_plan. fine_code. Qed.

Lemma fine_run_finish f body : all_fine fine (run_finish f body).
Proof. unfold run_finish. fine_code. Qed.

Lemma fine_run_outcomes l : all_fine fine (run_outcomes l).
Proof.
  induction l as [|[f body|f] l IH]; simpl; fine_code; first [apply fine_run_finish | exact IH].
Qed.

Lemma fine_client_response head idle store : all_fine fine (client_response head idle store).
Proof. unfold client_response. fine_code. apply fine_run_outcomes. Qed.

Lemma fine_answered ex parts : ex_req ex = req -> all_fine fine (answered app ex parts).
Proof.
  intros Heq.
  unfold answered, answered_by_origin, revalidated, serve_stale, exchange_may_serve_on_error,
    new_origin_body. rewrite Heq.
  fine_code; first [apply fine_cached_response | apply fine_store_plan | apply fine_client_response].
Qed.

Lemma fine_failed ex st : all_fine fine (failed ex st).
Proof.
  unfold failed, serve_stale, exchange_may_serve_on_error. fine_code; apply fine_cached_response.
Qed.

Lemma fine_send_to_origin flight r outcome :
  foreground_fields stale r -> all_fine fine (send_to_origin flight Foreground r outcome).
Proof.
  intros Hr. unfold send_to_origin. apply fine_bind; [|intros started; fine_code].
  apply fine_step. intros _. by apply Forall_singleton.
Qed.
End effects.

Lemma fine_forward_to_origin pq key to_origin peers :
  all_fine (right_request False (to_stale to_origin))
    (forward_to_origin app req (ClientInfo_from_request req) pq key (policy_of req) to_origin
       peers).
Proof.
  unfold forward_to_origin, request_body_start. cbv zeta.
  destruct (upstream_request _ _ _ _) as [[b u]|] eqn:Eu; [|fine_code].
  apply fine_bind; [fine_code|]. intros [body|]; [|fine_code].
  destruct (Builder_body _ _) as [r|] eqn:Er; [|fine_code].
  apply fine_bind; [apply fine_send_to_origin; by eapply foreground_built|].
  intros [parts| |]; [by apply fine_answered|apply fine_failed..].
Qed.
End requests.

(** ** What the last look at the cache found *)

Section looks.
Context `{Hops : HttpOps, Yops : HyperOps, Pops : PromOps,
  EntriesOps : !MokaOps Key Entry, IndexOps : !MokaOps PrimaryKey Index}.
Implicit Type l : list Effect.

Definition last_found (l : list Effect) : option Lookup := mjoin (last (lookups l)).

(** the stale response that a GET takes to the origin: the one that it found
    when it last looked *)
Definition to_revalidate (req : HttpRequest) (l : list Effect) : option StaleEntry :=
  match last_found l with
  | Some (Stale entry) => if String.eqb (req_method req) GET then Some entry else None
  | _ => None
  end.

Lemma lookups_app l l' : lookups (l ++ l') = lookups l ++ lookups l'.
Proof. apply omap_app. Qed.
Lemma spawns_app l l' : spawns (l ++ l') = spawns l ++ spawns l'.
Proof. apply omap_app. Qed.

Lemma last_found_before l l' : lookups l' = [] -> last_found (l ++ l') = last_found l.
Proof. intros Hl. unfold last_found. by rewrite lookups_app, Hl, app_nil_r. Qed.
Lemma last_found_after l l' found : lookups l' = [found] -> last_found (l ++ l') = found.
Proof. intros Hl. unfold last_found. rewrite lookups_app, Hl, last_snoc. by destruct found. Qed.

Lemma elem_of_spawns task l : Spawned task ∈ l -> task ∈ spawns l.
Proof. intros Hin. apply list_elem_of_omap. by eexists. Qed.

Lemma elem_of_sends r l : SentToOrigin Foreground r ∈ l <-> r ∈ sends l.
Proof.
  unfold sends. rewrite list_elem_of_omap. split; [by eexists|].
  intros (e & Hin & He). destruct e as [| | |[]| | | | |]; try discriminate. by injection He as ->.
Qed.

(** effects that say nothing of a lookup, and spawn nothing *)
Definition silent (e : Effect) : Prop :=
  match e with LookedUp _ | Spawned _ => False | _ => True end.

Lemma silent_lists l : Forall silent l -> lookups l = [] /\ spawns l = [].
Proof.
  unfold lookups, spawns. induction 1 as [|e l He _ [H1 H2]]; [done|].
  by destruct e.
Qed.

Variables (app : AppState) (req : HttpRequest) (key : PrimaryKey) (rp : RequestPolicy).

Lemma silent_cached_response stored label : all_fine silent (cached_response stored label).
Proof. unfold cached_response. fine_code. Qed.

Lemma silent_join_flight : all_fine silent (join_flight req key rp).
Proof.
  unfold join_flight. fine_code. apply fine_on_flights. intros j. by destruct j; repeat constructor.
Qed.

Lemma silent_Cached_or c flight : all_fine silent (Cached_or c flight).
Proof. unfold Cached_or. fine_code. Qed.

Lemma refresh_spawns entry :
  spec (refresh_in_background app req key entry) (fun o l => o = Some tt /\ lookups l = [] /\
    forall task, task ∈ spawns l -> task_entry task = entry).
Proof.
  unfold refresh_in_background. repeat spec_one.
  assert (forall task : RefreshTask, task ∈ [] -> task_entry task = entry) as Hnone
    by (by intros task ?%elem_of_nil).
  destruct a as [guard|]; [|by spec_one].
  destruct (upstream_request _ _ _ _) as [[b u]|]; [|spec_one; by destruct a].
  destruct (Builder_body _ _) as [r|]; [|spec_one; by destruct a].
  repeat spec_one. split; [done|]. split; [done|]. by intros task ->%list_elem_of_singleton.
Qed.

(** a look at the cache that found [found] became [c] *)
Definition leads_to (found : option Lookup) (c : Cached) : Prop :=
  match c with
  | Answer _ => True
  | StaleEntryFound entry => found = Some (Stale entry) /\ req_method req = GET
  | Nothing => forall entry, found = Some (Stale entry) -> req_method req <> GET
  end.

Definition looked (c : Cached) (l : list Effect) : Prop :=
  (may_serve rp = false /\ l = [] /\ c = Nothing) \/
  (may_serve rp = true /\ exists found, lookups l = [found] /\ leads_to found c /\
     forall task, task ∈ spawns l -> found = Some (Stale (task_entry task)) /\ exists r, c = Answer r).

Lemma from_cache_looks use :
  spec (from_cache app req key rp use) (fun o l => exists c, o = Some c /\ looked c l).
Proof.
  unfold from_cache. destruct (may_serve rp) eqn:Hserve; simpl.
  2:{ spec_one. eexists. split; [done|]. by left. }
  spec_one. apply spec_store_lookup. intros found. spec_one. spec_one.
  assert (forall c l', lookups l' = [] -> leads_to found c ->
    (forall task, task ∈ spawns l' ->
       found = Some (Stale (task_entry task)) /\ exists r, c = Answer r) ->
    looked c (LookedUp found :: l')) as Hlook.
  { intros c l' Hl Hc Ht. right. split; [done|]. exists found. split; [|done].
    change (lookups (LookedUp found :: l')) with (found :: lookups l'). by rewrite Hl. }
  assert (forall c, leads_to found c -> looked c [LookedUp found]) as Hlook0
    by (intros c Hc; apply Hlook; [done..|by intros task ?%elem_of_nil]).
  destruct found as [[stored|entry]|]; [| |spec_one; eexists; split; [done|by apply Hlook0]].
  - spec_one. eapply spec_mono; [apply quiet_cached_response|]. intros o l (-> & r & -> & _).
    spec_one. eexists. split; [done|]. by apply Hlook0.
  - destruct (String.eqb_spec (req_method req) GET) as [Hget|Hget].
    2:{ spec_one. eexists. split; [done|]. apply Hlook0. by intros e _. }
    unfold while_revalidating. destruct (negb (may_serve_stale rp)).
    { spec_one. eexists. split; [done|]. by apply Hlook0. }
    spec_one. spec_one. destruct (negb _).
    { spec_one. eexists. split; [done|]. by apply Hlook0. }
    spec_one. eapply spec_mono; [apply quiet_cached_response|]. intros o l (-> & r & -> & _).
    spec_one. eapply spec_mono; [apply refresh_spawns|]. intros o l (-> & Hl & Ht). spec_one.
    eexists. split; [done|]. simpl. rewrite app_nil_r. apply Hlook; [done..|].
    intros task Hin%Ht. rewrite Hin. eauto.
Qed.

(** what [serve_from_cache] decided, by what the last look found *)
Definition decided (o : option Before) (l : list Effect) : Prop :=
  (forall task, task ∈ spawns l -> last_found l = Some (Stale (task_entry task))) /\
  forall t, o = Some (BeforeOrigin t) -> to_stale t = to_revalidate req l /\ spawns l = [].

Lemma looked_decides c l0 l flight :
  (may_serve rp = false -> lookups l0 = []) -> spawns l0 = [] -> looked c l ->
  spec (Cached_or c flight) (fun o l' => decided o (l0 ++ l ++ l') /\
    (may_serve rp = false -> lookups (l0 ++ l ++ l') = [])).
Proof.
  intros Hl0 Ht0 Hc.
  apply (spec_mono _ (fun o l' => Forall silent l' /\
    forall t, o = Some (BeforeOrigin t) -> (forall r, c <> Answer r) /\
      to_stale t = match c with StaleEntryFound entry => Some entry | _ => None end)).
  { destruct c as [r|entry|]; cbn [Cached_or]; repeat spec_one;
      [split; [by destruct flight; repeat constructor|done]|
       split; [done|intros ? [= <-]; by split]..]. }
  intros o l' [[Hl' Ht']%silent_lists Ho].
  assert (last_found (l0 ++ l ++ l') = last_found (l0 ++ l)) as Hlast
    by (rewrite app_assoc; by apply last_found_before).
  unfold decided, to_revalidate. rewrite Hlast, !spawns_app, Ht0, Ht', app_nil_r. simpl.
  destruct Hc as [(Hserve & -> & ->)|(Hserve & found & Hl & Hlead & Ht)].
  - rewrite app_nil_r. unfold last_found. rewrite Hl0 by done.
    split; [|intros Hs; by rewrite !lookups_app, Hl0, Hl']. split; [by intros task ?%elem_of_nil|]. intros t Hot. by destruct (Ho t Hot) as [_ ->].
  - split; [|by rewrite Hserve].
    rewrite (last_found_after l0 l found Hl). split; [by intros task []%Ht|].
    intros t Hot. destruct (Ho t Hot) as [Hno Hst]. split.
    + rewrite Hst. destruct c as [r|entry|]; [by destruct (Hno r)|destruct Hlead as [-> ->]; done|].
      destruct found as [[r|entry]|]; [done| |done].
      destruct (String.eqb_spec (req_method req) GET) as [Hget|]; [|done].
      by destruct (Hlead entry eq_refl).
    + destruct (spawns l) as [|task ts]; [done|]. destruct (Ht task) as [_ [r ->]]; [left|].
      by destruct (Hno r).
Qed.

Lemma serve_from_cache_decides : spec (serve_from_cache app req key rp) decided.
Proof.
  unfold serve_from_cache. spec_one. eapply spec_mono; [apply from_cache_looks|].
  intros o l1 (c & -> & Hc). spec_one.
  eapply spec_mono; [by apply (looked_decides c [])|]. simpl.
  intros [[r|t]|] l2 [[Htasks Hdec] Hno]; [spec_one; rewrite app_nil_r; by split| |by split].
  destruct (Hdec t eq_refl) as [Hst Hnone]. spec_one.
  eapply spec_mono; [apply silent_join_flight|]. intros j l3 [Hl3 Ht3]%silent_lists.
  assert (decided (Some (BeforeOrigin t)) ((l1 ++ l2) ++ l3)) as Halone.
  { unfold decided, to_revalidate in *. rewrite last_found_before by done.
    rewrite spawns_app, Ht3, app_nil_r. split; [exact Htasks|]. by intros ? [= <-]. }
  rewrite <- app_assoc in Halone.
  assert (forall use flight, spec (cached ← from_cache app req key rp use; Cached_or cached flight)
    (fun o l => decided o (l1 ++ l2 ++ l3 ++ l))) as Hagain.
  { intros use flight. spec_one. eapply spec_mono; [apply from_cache_looks|].
    intros o l4 (c' & -> & Hc'). eapply spec_mono.
    - apply (looked_decides c' ((l1 ++ l2) ++ l3)); [| |exact Hc'].
      + intros Hserve. by rewrite lookups_app, Hno, Hl3.
      + by rewrite spawns_app, Hnone, Ht3.
    - intros o' l5 [Ho _]. by rewrite <- !app_assoc in Ho. }
  destruct j as [[flight|waiter|]|].
  - apply Hagain.
  - unfold wait_for_leader. spec_one. spec_one; simpl; [apply Hagain|].
    rewrite app_nil_r. split; [apply Halone|done].
  - spec_one. by rewrite app_nil_r.
  - split; [apply Halone|done].
Qed.
End looks.

(** ** The whole handler *)

Section handler.
Context `{Hops : HttpOps, Yops : HyperOps, Pops : PromOps,
  EntriesOps : !MokaOps Key Entry, IndexOps : !MokaOps PrimaryKey Index}.
Context `{!HttpLaws, !HyperLaws}.
Variables (env : Env) (app : AppState).

#[local] Existing Instance any_log.

(** the stale response that a request takes to the origin is one that its own
    lookup found *)
Definition takes (start : nat) (req : HttpRequest) (stale : option StaleEntry) : Prop :=
  forall e, stale = Some e -> found_stale (shown env start) (at_step env start) any_store req e.

Definition right_effects (start : nat) (req : HttpRequest) (l : list Effect) : Prop :=
  (forall kind r, SentToOrigin kind r ∈ l -> kind = Foreground /\
     takes start req (to_revalidate req l) /\ foreground_fields app req (to_revalidate req l) r) /\
  (forall task, Spawned task ∈ l ->
     last_found l = Some (Stale (task_entry task)) /\ background_fields app req task).

(** what [serve_from_cache] leaves behind *)
Lemma serve_from_cache_effects req start :
  well_formed req -> own_valid (upstream_base_url app) (ClientInfo_from_request req) ->
  rspec (shown env start) (at_step env start) any_store
    (serve_from_cache app req (uri_key req) (policy_of req)) (fun o l =>
      (forall t, o = Some (BeforeOrigin t) ->
         takes start req (to_stale t) /\ to_stale t = to_revalidate req l) /\
      (forall kind r, SentToOrigin kind r ∉ l) /\
      (forall task, Spawned task ∈ l ->
         last_found l = Some (Stale (task_entry task)) /\ background_fields app req task)).
Proof.
  intros Hreq Hown. pose proof (any_store_kept env start) as K.
  eapply rspec_mono.
  { apply rspec_and; [apply (serve_from_cache_justified app _ _ _ req K)|].
    apply spec_and; [apply serve_from_cache_decides|].
    apply spec_and; [apply led_serve_from_cache|by apply (fine_serve_from_cache _ _ Hreq Hown True None)]. }
  intros o l (Hb & [Htasks Hdec] & [Hled _] & Hall). rewrite Forall_forall in Hall.
  split_and!.
  - intros t ->. split; [by apply (Hb (BeforeOrigin t))|by apply Hdec].
  - intros kind r Hin. destruct (Hall _ Hin) as [-> _].
    pose proof (l_sends _ _ _ Hled) as Hs. apply elem_of_sends in Hin.
    by destruct (sends l); [apply elem_of_nil in Hin|simpl in Hs; lia].
  - intros task Hin. split; [by apply Htasks, elem_of_spawns|by apply (Hall _ Hin)].
Qed.

Lemma handler_requests req peers start :
  well_formed req -> own_valid (upstream_base_url app) (ClientInfo_from_request req) ->
  rspec (shown env start) (at_step env start) any_store (forward_to_upstream app req peers)
    (fun _ l => right_effects start req l).
Proof.
  intros Hreq Hown. pose proof (any_store_kept env start) as K.
  unfold forward_to_upstream, forward. cbv zeta. rspec_one K. rspec_one K.
  eapply rspec_mono; [by apply serve_from_cache_effects|].
  intros o l (Hb & Hsends & Hspawn).
  assert (forall l', Forall silent l' -> (forall kind r, SentToOrigin kind r ∉ l') ->
    right_effects start req (l ++ l')) as Hquiet.
  { intros l' Hsil Hno. destruct (silent_lists _ Hsil) as [Hl' Ht']. split.
    - intros kind r [Hin|Hin]%elem_of_app; [by apply Hsends in Hin|by apply Hno in Hin].
    - intros task Hin%elem_of_app. rewrite last_found_before by done.
      destruct Hin as [Hin|Hin%elem_of_spawns]; [by apply Hspawn|]. rewrite Ht' in Hin.
      by apply elem_of_nil in Hin. }
  destruct o as [[r|t]|].
  - repeat rspec_one K. simpl. rewrite ?app_nil_r. apply Hquiet; [by repeat constructor|].
    by intros kind r' [|?%elem_of_nil]%elem_of_cons.
  - destruct (Hb t eq_refl) as [Htakes Hst].
    eapply rspec_mono.
    { apply (rspec_and _ _ _ _ (fun _ _ => True)); [|by apply fine_forward_to_origin].
      eapply rspec_mono; [|done]. apply (forward_to_origin_justified app _ _ _ req K);
        [apply any_logged|by apply (Hb t eq_refl)]. }
    assert (forall l' l'', Forall (right_request app req False (to_stale t)) l' ->
      Forall silent l'' -> (forall kind r, SentToOrigin kind r ∉ l'') ->
      right_effects start req (l ++ l' ++ l'')) as Hright.
    { intros l' l'' Hall Hsil Hno.
      assert (Forall silent (l' ++ l'')) as [Hl' Ht']%silent_lists.
      { apply Forall_app. split; [|done]. eapply Forall_impl; [exact Hall|]. by intros []; simpl; try tauto. }
      rewrite Forall_forall in Hall. split.
      - intros kind r [Hin|[Hin|Hin]%elem_of_app]%elem_of_app; [by apply Hsends in Hin| |by apply Hno in Hin].
        destruct (Hall _ Hin) as [-> Hr]. unfold to_revalidate. rewrite last_found_before by done.
        fold (to_revalidate req l). by rewrite <- Hst.
      - intros task Hin%elem_of_spawns. rewrite last_found_before by done.
        rewrite spawns_app, Ht', app_nil_r in Hin. apply Hspawn. 
        apply list_elem_of_omap in Hin as (e & He & Ht). destruct e; try done. by injection Ht as ->. }
    intros [r|] l' [_ Hl'].
    + repeat rspec_one K. simpl. rewrite ?app_nil_r, <- ?app_assoc.
      apply Hright; [done|by repeat constructor|]. by intros kind r' [|?%elem_of_nil]%elem_of_cons.
    + rewrite <- (app_nil_r l'). apply Hright; [done..|]. by intros kind r' ?%elem_of_nil.
  - rewrite <- (app_nil_r l). apply Hquiet; [done|]. by intros kind r ?%elem_of_nil.
Qed.

Lemma right_request_conditions req stale r :
  foreground_fields app req stale r -> conditional (policy_of req) = false ->
  forall n, n ∈ PRECONDITION_HEADERS ->
  HyperRequest_values r n =
    from_option (fun e => values_of n (validators (arc_get (response e)))) [] stale.
Proof.
  intros Hr Hc n Hn. rewrite Hr, Hc. unfold passed_values.
  rewrite (conditional_false req n Hc Hn), own_fields_unconditional by done.
  destruct (copied_to_origin _ _); by destruct stale.
Qed.

(** C10. What goes to the origin. The request that a client's request sends on
    has the client's fields as the proxy passes them on, and the validators of
    the stale response that its last look at the cache found, for a GET; it has
    them exactly when the client set no precondition of its own, so that the
    origin's 304 is never about both, and nothing else about preconditions. A
    background revalidation is of the stale response that the last look found;
    it has the same fields, but with that response's validators in place of all
    the client's preconditions. *)
Theorem origin_requests_conditional req peers s o s' :
  well_formed req -> own_valid (upstream_base_url app) (ClientInfo_from_request req) ->
  run env (forward_to_upstream app req peers) s = Done (o, s') ->
  exists l, trace s' = trace s ++ l /\
  let stale := to_revalidate req l in
  (forall kind r, SentToOrigin kind r ∈ l ->
     kind = Foreground /\ takes (tick s) req stale /\ foreground_fields app req stale r /\
     (conditional (policy_of req) = false -> forall n, n ∈ PRECONDITION_HEADERS ->
        HyperRequest_values r n =
          from_option (fun e => values_of n (validators (arc_get (response e)))) [] stale)) /\
  (forall task, Spawned task ∈ l ->
     last_found l = Some (Stale (task_entry task)) /\ background_fields app req task /\
     forall n, n ∈ PRECONDITION_HEADERS -> HyperRequest_values (task_request task) n =
       values_of n (validators (arc_get (response (task_entry task))))).
Proof.
  intros Hreq Hown Hrun.
  destruct (any_store_run _ _ _ _ _ _ (handler_requests req peers (tick s) Hreq Hown) Hrun)
    as (l & Hl & Hsent & Hspawned).
  exists l. split; [done|]. split.
  - intros kind r (Hkind & Htakes & Hr)%Hsent. split_and!; try done.
    by apply right_request_conditions.
  - intros task [Hlast Hbg]%Hspawned. split_and!; [done..|]. intros n Hn. rewrite (Hbg n).
    by rewrite bool_decide_eq_true_2.
Qed.
End handler.

(** ** An example: the page is revalidated with its entity tag *)

Lemma page_well_formed : well_formed page_request.
Proof.
  split; [vm_compute; discriminate|]. intros n v. simpl.
  rewrite !elem_of_cons, elem_of_nil. intros [[= -> ->]|[[= -> ->]|[]]]; by vm_compute.
Qed.

Lemma page_own_valid : own_valid (upstream_base_url page_app) (ClientInfo_from_request page_request).
Proof. repeat constructor. Qed.

(** the fields that the run sent *)
Definition page_sent (name : HeaderName) : option (list (list HeaderValue)) :=
  '(_, _, s) ← page_run 200 ex_store (Responded page_parts);
  Some (map (fun r => HyperRequest_values r name) (sends (trace (s : TaskState)))).

Example page_revalidates : page_sent header.IF_NONE_MATCH = Some [["v1"%string]].
Proof. vm_compute. reflexivity. Qed.

Lemma page_sent_Some name vs :
  page_sent name = Some [vs] ->
  exists r s s' hr, page_run 200 ex_store (Responded page_parts) = Some (r, s, s') /\
    hr ∈ sends (trace s') /\ HyperRequest_values hr name = vs.
Proof.
  unfold page_sent. destruct (page_run _ _ _) as [[[r s] s']|]; simpl; [|discriminate].
  destruct (sends (trace s')) as [|hr [|]] eqn:E; simpl; try discriminate. intros [= <-].
  exists r, s, s', hr. split; [reflexivity|]. rewrite E. split; [left|reflexivity].
Qed.

Lemma page_run_start secs store outcome r s s' :
  page_run secs store outcome = Some (r, s, s') -> trace s = [].
Proof.
  unfold page_run, page_start. destruct ex_metrics; simpl; [|discriminate].
  destruct (run _ _ _) as [[[r0|] s1]|]; try discriminate.
  by intros [= _ <- _].
Qed.

(** the request carries the entity tag of the stale page that its look found *)
Lemma origin_requests_conditional_witness :
  exists r s s' hr entry, page_run 200 ex_store (Responded page_parts) = Some (r, s, s') /\
    SentToOrigin Foreground hr ∈ trace s' /\
    HyperRequest_values hr header.IF_NONE_MATCH = ["v1"%string] /\
    to_revalidate page_request (trace s') = Some entry /\
    found_stale (shown (page_env 200) (tick s)) (at_step (page_env 200) (tick s)) any_store
      page_request entry.
Proof.
  destruct (page_sent_Some _ _ page_revalidates) as (r & s & s' & hr & Hrun & Hin & Hv).
  destruct (origin_requests_conditional _ _ _ _ _ _ _ page_well_formed page_own_valid
    (page_run_Some _ _ _ _ _ _ Hrun)) as (l & Hl & Hsent & _).
  rewrite (page_run_start _ _ _ _ _ _ Hrun) in Hl. simpl in Hl. subst l.
  assert (SentToOrigin Foreground hr ∈ trace s') as Hhr by exact (proj2 (elem_of_sends _ _) Hin).
  destruct (Hsent Foreground hr Hhr) as (_ & Htakes & _ & Hc).
  specialize (Hc eq_refl header.IF_NONE_MATCH). rewrite Hv in Hc.
  destruct (to_revalidate page_request (trace s')) as [entry|] eqn:Ee.
  - exists r, s, s', hr, entry. split; [exact Hrun|]. split; [exact Hhr|]. split; [exact Hv|].
    split; [exact Ee|]. exact (Htakes entry eq_refl).
  - discriminate Hc. vm_compute. by right; left.
Defined.
