(* ===== verification/ProxyReturns.v ===== *)
(** The handler returns. A request ends within a fixed number of steps; the
    stream of its response and the background revalidation it spawns end within
    a number of steps fixed by the polls of their bodies. None panics, as long
    as no stored response is so old that its age overflows
    ([ProxyExamples.stale_age_panics]) and the upstream timeout does not
    overflow the time of a poll ([Body.huge_idle_panics]): these are the only
    panics there are.
    [returns k m Q] is total: [m] ends within [k] steps in a state with the
    invariant, and [Q] holds of the steps left and the value. *)

From stdpp Require Import base tactics numbers option list gmap strings.
From S2P Require Import Prelude RustStd Http Directives Policy Moka Store StoreInvariant StoreTheorems Examples Coalesce Upstream Provenance Body Metrics MetricLabels Response Tasks StoreTasks TaskLogic Proxy ProxyExamples ProxySharing.

Local Open Scope N_scope.

(** ** Ages that do not overflow *)

Section ages.
Context `{Hops : HttpOps, EntriesOps : !MokaOps Key Entry, IndexOps : !MokaOps PrimaryKey Index}.
Context `{Hlaws : !HttpLaws, !MokaLaws Key Entry, !MokaLaws PrimaryKey Index}.
(** a bound on the ages that the origin announces *)
Variable max : Duration.

Record modest (r : StoredResponse) : Prop := {
  mo_age : stored_initial_age r <= max;
  mo_field : values_of header.AGE (headers r) = [];
}.

Record modest_store (s : Store) : Prop := {
  ms_config : exists capacity, moka_config (entries s) = entries_config capacity;
  ms_entries rk (r : Arc StoredResponse) d :
    moka_contents (entries s) !! Key_Response rk = Some (Entry_Response r, d) ->
    modest (arc_get r);
}.

Lemma modest_smaller s s' :
  modest_store s -> moka_config (entries s') = moka_config (entries s) ->
  (forall rk e, moka_contents (entries s') !! Key_Response rk = Some e ->
     moka_contents (entries s) !! Key_Response rk = Some e) ->
  modest_store s'.
Proof. intros [[cap Hc] He] Heq Hs. constructor; [exists cap; congruence|eauto]. Qed.

(** a store with the same entries *)
Lemma modest_same s s' : entries s' = entries s -> modest_store s -> modest_store s'.
Proof. intros He Hs. by eapply modest_smaller; [exact Hs|rewrite He..]. Qed.

Lemma modest_remove k s :
  modest_store s -> modest_store (set_entries (cache_invalidate k (entries s)) s).
Proof.
  intros Hs. eapply modest_smaller; [done|apply moka_config_invalidate|].
  intros rk x Hx. simpl in Hx. eapply lookup_weaken in Hx; [|apply moka_contents_invalidate].
  by apply lookup_delete_Some in Hx as [_ Hx].
Qed.

Lemma modest_Store_new size_mb ttl s : Store_new size_mb ttl = Done s -> modest_store s.
Proof.
  intros [Hc _ He _ _ _ _ _]%Store_new_Done. constructor; [by eexists|].
  intros rk r d. by rewrite He, lookup_empty.
Qed.

Lemma modest_run_pending_tasks now s : modest_store s -> modest_store (run_pending_tasks now s).
Proof.
  intros Hs. eapply modest_smaller; [done|apply moka_config_run|].
  intros rk e He. eapply lookup_weaken; [exact He|]. apply moka_contents_run.
Qed.

Lemma modest_insert_asset now path asset s :
  modest_store s -> modest_store (insert_asset_entry now path asset s).
Proof.
  intros Hs. eapply modest_smaller; [done|apply moka_config_insert|].
  intros rk e. apply insert_asset_responses, Hs.
Qed.

Lemma modest_insert_entry now p v g pol st hs b s :
  initial_age pol <= max -> values_of header.AGE hs = [] -> modest_store s ->
  modest (arc_get (fst (insert_entry now p v g pol st hs b s))) /\
  modest_store (snd (insert_entry now p v g pol st hs b s)).
Proof.
  intros Hage Hhs [[cap Hc] He]. split; [by constructor|]. constructor.
  - exists cap. unfold insert_entry. simpl. by rewrite moka_config_insert.
  - intros rk r d Hr. unfold insert_entry in Hr. simpl in Hr.
    eapply lookup_weaken in Hr; [|apply configured_insert_contents; by exists cap].
    apply lookup_insert_Some in Hr as [(_ & [= <- _])|[_ Hr]]; [by constructor|by eapply He].
Qed.

(** the accesses of an insertion together *)
Lemma modest_insert_response now p v pol st hs b s :
  initial_age pol <= max -> values_of header.AGE hs = [] -> modest_store s ->
  modest_store (snd (insert_response now p v pol st hs b s)).
Proof.
  intros Hage Hhs Hs. unfold insert_response. destruct (negb _); [done|].
  assert (exists g s', match insert_get_index now p v s with
    | Some g => (g, s) | None => insert_fetch_add s end = (g, s') /\ modest_store s')
    as (g & s' & -> & Hs').
  { destruct (insert_get_index now p v s) as [g|]; do 2 eexists; (split; [reflexivity|]);
      [done|by apply (modest_same s)]. }
  destruct (modest_insert_entry now p v g pol st hs b (insert_index now p v g s') Hage Hhs)
    as [_ Hs3]; [by apply (modest_same s')|].
  destruct (insert_entry _ _ _ _ _ _ _ _ _). by apply modest_run_pending_tasks.
Qed.

Lemma modest_lookup now key s r :
  modest_store s -> lookup_entry now key s = Some r -> modest (arc_get r).
Proof.
  intros Hs. unfold lookup_entry.
  destruct (cache_get now _ (entries s)) as [[a|r']|] eqn:E; [done| |done]. intros [= <-].
  apply cache_get_sound in E as (d & Hc & _). by eapply ms_entries.
Qed.

(** the age that decides on a freshened response is the one of the 304 *)
Lemma freshened_age fields map :
  values_of header.AGE fields = [] ->
  response_age (freshened_map fields (HeaderMap_get map header.AGE)) = response_age map.
Proof.
  intros Hf. unfold response_age, freshened_map.
  destruct (HeaderMap_get map header.AGE) as [a|]; rewrite HeaderMap_get_head.
  - by rewrite HeaderMap_get_all_insert, String.eqb_refl.
  - by rewrite HeaderMap_get_all_of_fields, Hf.
Qed.

Lemma storable_age now rp request st map pol v :
  storable now rp request st map = Some (pol, v) -> initial_age pol = response_age map.
Proof. by intros (_ & d & _ & _ & _ & _ & Ha & _)%storable_Some. Qed.

(** no age of a modest response overflows *)
Lemma modest_age now r :
  modest r -> now + max <= Duration_MAX ->
  exists a, age now r = Done a.
Proof.
  intros [Ha _] Hn. eexists. apply Duration_add_Done. split; [done|].
  unfold Instant_elapsed. lia.
Qed.

End ages.

(** ** Tasks that return *)

Section returns.
Context `{Hops : HttpOps, Yops : HyperOps, Pops : PromOps,
  EntriesOps : !MokaOps Key Entry, IndexOps : !MokaOps PrimaryKey Index}.
Context `{Hlaws : !HttpLaws, !PromLaws, !MokaLaws Key Entry, !MokaLaws PrimaryKey Index}.
Variables (app : AppState) (max : Duration).
(** whether an await may be cancelled *)
Variable cancels : Prop.

Definition calm (sh : Shared) : Prop :=
  modest_store max (sh_cache sh) /\ well_labelled (sh_metrics sh).

(** a clock that shows a time at which no stored age overflows, and no wait for
    a body *)
Definition fair (c : Clock) : Prop :=
  instant_now c + max <= Duration_MAX /\ instant_now c + upstream_timeout app <= Instant_MAX.

(** a background revalidation whose stale response is modest *)
Definition calm_effect (e : Effect) : Prop :=
  match e with Spawned t => modest max (arc_get (response (task_entry t))) | _ => True end.

(** within [k] steps the task ends, with [Q] of the steps left and its value:
    each step, from any state with the invariant, does not panic and leaves
    such a state *)
Fixpoint returns {A} (k : nat) (m : Task A) (Q : nat -> option A -> Prop) : Prop :=
  match m with
  | Return a => exists k', (k' <= k)%nat /\ Q k' (Some a)
  | Cancelled => cancels /\ exists k', (k' <= k)%nat /\ Q k' None
  | Panicked => False
  | Step f effects rest =>
      exists k', k = S k' /\
        forall c, fair c -> forall sh, calm sh ->
        exists x sh', f c sh = Done (x, sh') /\ calm sh' /\ Forall calm_effect (effects x) /\
          returns k' (rest x) Q
  | Await _ dropped rest => (cancels -> returns k dropped Q) /\ returns k rest Q
  end.

#[local] Transparent Task_then step read_clock on_cache on_flights on_metrics lift_run release pause
  note await.

Lemma returns_call {A} k k0 (m : Task A) (P : option A -> Prop) (Q : nat -> option A -> Prop) :
  returns k0 m (fun _ => P) -> (k0 <= k)%nat -> (forall o, P o -> Q (k - k0)%nat o) ->
  returns k m Q.
Proof.
  intros Hm Hk HPQ. assert (exists d, k = k0 + d /\ k - k0 = d)%nat as (d & -> & Hd)
    by (exists (k - k0)%nat; lia). rewrite Hd in HPQ. clear Hk Hd. revert k0 Hm.
  induction m as [a| | |X f eff rest IH|w d1 IHd r IHr]; intros k0 Hm; cbn in *.
  - destruct Hm as (k' & ? & HP). exists d. split; [lia|auto].
  - destruct Hm as (? & k' & ? & HP). split; [done|]. exists d. split; [lia|auto].
  - done.
  - destruct Hm as (k' & -> & Hf). exists (k' + d)%nat. split; [lia|].
    intros c Hc sh Hs. destruct (Hf c Hc sh Hs) as (x & sh' & ? & ? & ? & Hx). eauto 10.
  - destruct Hm. split; auto.
Qed.

Lemma returns_weaken {A} k (m : Task A) (P Q : nat -> option A -> Prop) :
  returns k m P -> (forall k o, P k o -> Q k o) -> returns k m Q.
Proof.
  intros Hm HPQ. revert k Hm.
  induction m as [a| | |X f eff rest IH|w d IHd r IHr]; intros k Hm; cbn in *.
  - destruct Hm as (k' & ? & ?). eauto.
  - destruct Hm as (? & k' & ? & ?). eauto.
  - done.
  - destruct Hm as (k' & -> & Hf). exists k'. split; [done|].
    intros c Hc sh Hs. destruct (Hf c Hc sh Hs) as (x & sh' & ? & ? & ? & Hx). eauto 10.
  - destruct Hm. split; auto.
Qed.

Lemma returns_more {A} k k1 (m : Task A) (Q : nat -> option A -> Prop) :
  returns k m Q -> (k <= k1)%nat -> returns k1 m Q.
Proof.
  revert k k1. induction m as [a| | |X f eff rest IH|w d IHd r IHr]; intros k k1 Hm Hk; cbn in *.
  - destruct Hm as (k' & ? & ?). exists k'. split; [lia|done].
  - destruct Hm as (? & k' & ? & ?). split; [done|]. exists k'. split; [lia|done].
  - done.
  - destruct Hm as (k' & -> & Hf). exists (pred k1). split; [lia|].
    intros c Hc sh Hs. destruct (Hf c Hc sh Hs) as (x & sh' & ? & ? & ? & Hx).
    exists x, sh'. split_and!; try done. eapply IH; [exact Hx|lia].
  - destruct Hm. split; eauto.
Qed.

Lemma returns_ret {A} k (a : A) Q : Q k (Some a) -> returns k (mret a) Q.
Proof. intros HQ. by exists k. Qed.

Lemma returns_bind {A B} k (m : Task A) (f : A -> Task B) Q :
  returns k m (fun k' o => match o with Some a => returns k' (f a) Q | None => Q k' None end) ->
  returns k (m ≫= f) Q.
Proof.
  revert k. induction m as [a| | |X g eff rest IH|w d IHd r IHr]; intros k Hm; cbn in *.
  - destruct Hm as (k' & ? & ?). by eapply returns_more.
  - done.
  - done.
  - destruct Hm as (k' & -> & Hf). exists k'. split; [done|].
    intros c Hc sh Hs. destruct (Hf c Hc sh Hs) as (x & sh' & ? & ? & ? & Hx).
    exists x, sh'. split_and!; try done. by apply IH.
  - destruct Hm. split; auto.
Qed.

Lemma returns_step {A} k (f : Clock -> Shared -> Run (A * Shared)) eff Q :
  (forall c, fair c -> forall sh, calm sh ->
   exists a sh', f c sh = Done (a, sh') /\ calm sh' /\ Forall calm_effect (eff a) /\
     Q k (Some a)) ->
  returns (S k) (step f eff) Q.
Proof.
  intros Hf. exists k. split; [done|]. intros c Hc sh Hs.
  destruct (Hf c Hc sh Hs) as (a & sh' & ? & ? & ? & ?). exists a, sh'. split_and!; try done.
  by exists k.
Qed.

Lemma returns_read_clock k Q :
  (forall c, fair c -> Q k (Some c)) -> returns (S k) read_clock Q.
Proof. intros HQ. apply returns_step. intros c Hc sh Hs. exists c, sh. auto. Qed.

Lemma returns_on_cache {A} k (f : Clock -> Store -> Run (A * Store)) eff Q :
  (forall c, fair c -> forall s, modest_store max s ->
   exists a s', f c s = Done (a, s') /\ modest_store max s' /\
     Forall calm_effect (eff a) /\ Q k (Some a)) ->
  returns (S k) (on_cache f eff) Q.
Proof.
  intros Hf. apply returns_step. intros c Hc sh [Hs Hm].
  destruct (Hf c Hc (sh_cache sh) Hs) as (a & s' & -> & Hs' & He & HQ).
  do 2 eexists. split; [reflexivity|]. by split_and!.
Qed.

Lemma returns_on_flights {A} k (f : @Flights FlightKey _ _ -> A * @Flights FlightKey _ _) eff Q :
  (forall a, Forall calm_effect (eff a) /\ Q k (Some a)) ->
  returns (S k) (on_flights f eff) Q.
Proof.
  intros Hf. apply returns_step. intros c _ sh [Hs Hm].
  destruct (f (sh_flights sh)) as [a fl]. destruct (Hf a) as [He HQ]. by exists a; eexists.
Qed.

Lemma returns_on_metrics k f eff (Q : nat -> option unit -> Prop) :
  (forall m, well_labelled m -> exists m', f m = Done m' /\ well_labelled m') ->
  Forall calm_effect eff -> Q k (Some tt) -> returns (S k) (on_metrics f eff) Q.
Proof.
  intros Hf He HQ. apply returns_step. intros c _ sh [Hs Hm].
  destruct (Hf _ Hm) as (m' & -> & Hm'). exists tt. eexists. split; [reflexivity|]. by split_and!.
Qed.

Lemma returns_lift_run {A} k (a : A) (r : Run A) Q :
  r = Done a -> Q k (Some a) -> returns k (lift_run r) Q.
Proof. intros -> HQ. by apply returns_ret. Qed.

(** dropping an [Option<Flight>] *)
Lemma returns_release flight : returns 2 (release flight) (fun _ o => o = Some tt).
Proof.
  destruct flight as [g|]; [|by apply returns_ret].
  apply returns_bind, returns_on_flights. intros []. split; [done|].
  apply returns_on_flights. intros []. split; [by repeat constructor|done].
Qed.

Lemma returns_note effects :
  Forall calm_effect effects -> returns 1 (note effects) (fun _ o => o = Some tt).
Proof. intros He. apply returns_step. intros c _ sh Hsh. by do 2 eexists. Qed.

Lemma returns_looked found : returns 1 (note [LookedUp found]) (fun _ o => o = Some tt).
Proof. apply returns_note. by constructor. Qed.

Lemma returns_pause : returns 1 pause (fun _ o => o = Some tt).
Proof. apply returns_step. intros c _ sh Hsh. by do 2 eexists. Qed.

Lemma returns_await ready flight : returns 2 (await ready flight) (fun _ _ => True).
Proof.
  split.
  - intros Hc. apply (returns_bind 2 (release flight)). eapply returns_weaken; [apply returns_release|].
    intros k o ->. split; [done|]. by exists k.
  - eapply returns_call; [apply returns_pause|lia|done].
Qed.

#[local] Opaque returns Task_then step read_clock on_cache on_flights on_metrics lift_run release pause
  note await.

Ltac tidy := cbn beta iota delta [Nat.sub].

Ltac returns_one :=
  tidy;
  match goal with
  | |- returns _ (mret _) _ => apply returns_ret
  | |- returns _ (mbind _ _) _ => apply returns_bind
  | |- returns _ read_clock _ => let n := fresh "n" in let Hn := fresh "H" n in
      apply returns_read_clock; intros n Hn
  | |- returns _ (release ?f) _ =>
      apply (returns_call _ 2 _ _ _ (returns_release f)); [lia|intros ? ->]
  | |- returns _ (await ?w ?f) _ =>
      apply (returns_call _ 2 _ _ _ (returns_await w f)); [lia|intros [[]|] _; [|done]]
  | |- returns _ pause _ =>
      apply (returns_call _ 1 _ _ _ returns_pause); [lia|intros ? ->]
  | |- returns _ (note [LookedUp ?f]) _ =>
      apply (returns_call _ 1 _ _ _ (returns_looked f));
        [lia|intros ? ->]
  end.

(** ** The store's methods *)

(** an access that stores nothing and keeps the invariant *)
Lemma returns_access {A} k (f : Clock -> Store -> A * Store) Q :
  (forall c s, modest_store max s -> modest_store max (snd (f c s)) /\ Q k (Some (fst (f c s)))) ->
  returns (S k) (on_cache (fun c s => Done (f c s)) no_effects) Q.
Proof.
  intros Hf. apply returns_on_cache. intros c _ s Hs. destruct (Hf c s Hs).
  exists (fst (f c s)), (snd (f c s)). rewrite <- surjective_pairing. by split_and!.
Qed.

Lemma store_lookup_returns p request m :
  returns 4 (store_lookup p request m) (fun _ o => exists l, o = Some l /\
    forall x, l = Some x -> modest max (arc_get (lookup_response x))).
Proof.
  unfold store_lookup. returns_one.
  apply (returns_access 3 (fun c s => (lookup_index (instant_now c) p request s, s))).
  intros c1 s1 Hs1. split; [done|]. cbn [fst].
  destruct (lookup_index _ _ _ _) as [key|]; [|returns_one; by exists None]. returns_one.
  apply (returns_access 2 (fun c s => (lookup_entry (instant_now c) key s, s))).
  intros c2 s2 Hs2. split; [done|]. cbn [fst].
  destruct (lookup_entry _ _ _) as [r|] eqn:Er; [|returns_one; by exists None].
  pose proof (modest_lookup _ _ _ _ _ Hs2 Er) as Hm. returns_one. returns_one. returns_one.
  apply (returns_call _ 1 _ (fun o => o <> None)); [|lia|].
  { destruct (is_fresh _ _); [|by returns_one]. destruct m as [m|]; [|by returns_one].
    repeat returns_one. destruct (modest_age max (instant_now n0) (arc_get r) Hm (proj1 Hn0)) as (a & Ha).
    eapply returns_lift_run; [exact Ha|]. by returns_one. }
  intros [ok|] Hok; [|done]. tidy. returns_one. eexists. split; [done|]. intros x [= <-].
  by destruct ok.
Qed.

Lemma store_insert_response_returns p v pol st hs b eff :
  initial_age pol <= max -> values_of header.AGE hs = [] -> Forall calm_effect eff ->
  returns 5 (store_insert_response p v pol st hs b eff) (fun _ o => exists r, o = Some r /\
    forall x, r = Some x -> modest max (arc_get x)).
Proof.
  intros Hage Hhs He. unfold store_insert_response. returns_one.
  apply (returns_access 4 (fun c s => (if storable_body b s
    then Some (insert_get_index (instant_now c) p v s) else None, s))).
  intros c1 s1 Hs1. split; [done|]. cbn [fst].
  destruct (storable_body b s1); [|returns_one; by exists None]. returns_one.
  apply (returns_call _ 1 _ (fun o => o <> None)); [|lia|].
  { destruct (insert_get_index _ _ _ _) as [g|]; [by returns_one|].
    apply (returns_access 0 (fun _ s => insert_fetch_add s)). intros c s Hs.
    split; [by apply (modest_same _ s)|done]. }
  intros [g|] Hg; [|done]. tidy. returns_one.
  apply (returns_access 2 (fun c s => (tt, insert_index (instant_now c) p v g s))).
  intros c s Hs. split; [by apply (modest_same _ s)|]. cbn [fst]. returns_one.
  apply returns_on_cache. intros c2 _ s2 Hs2.
  destruct (modest_insert_entry max (instant_now c2) p v g pol st hs b s2 Hage Hhs Hs2) as [Hr Hs3].
  destruct (insert_entry _ _ _ _ _ _ _ _ _) as [r s3]. exists r, s3.
  split; [done|]. split; [exact Hs3|]. split; [done|]. returns_one.
  apply (returns_access 0 (fun c s => (tt, run_pending_tasks (instant_now c) s))).
  intros c4 s4 Hs4. split; [by apply modest_run_pending_tasks|]. cbn [fst]. returns_one.
  eexists. split; [done|]. by intros x [= <-].
Qed.

Lemma store_freshen_returns e rp request update map :
  modest max (arc_get (response e)) -> values_of header.AGE update = [] ->
  response_age map <= max ->
  returns 8 (store_freshen e rp request update (HeaderMap_get map header.AGE))
    (fun _ o => exists fresh, o = Some fresh /\ modest max (arc_get fresh)).
Proof.
  intros He Hu Hage. unfold store_freshen. cbv zeta. returns_one. returns_one. returns_one.
  apply returns_on_cache. intros c2 _ s2 Hs2. do 2 eexists. split; [reflexivity|].
  split; [done|]. split; [by repeat constructor|].
  assert (values_of header.AGE (updated_fields (headers (arc_get (response e))) update) = [])
    as Hf by (by rewrite values_of_updated, Hu, bool_decide_eq_true_2, (mo_field _ _ He)).
  assert (forall k pol st b, initial_age pol <= max ->
    returns (S k) (store_response pol st (updated_fields (headers (arc_get (response e))) update) b)
      (fun _ o => exists fresh, o = Some fresh /\ modest max (arc_get fresh))) as Hun.
  { intros k pol st b Hpol. unfold store_response.
    apply (returns_access k (fun c s => Arc_new (new_response (instant_now c) pol st
      (updated_fields (headers (arc_get (response e))) update) b s) s)).
    intros c s Hs. split; [by apply (modest_same _ s)|]. eexists. split; [done|]. by split. }
  destruct (storable _ _ _ _ _) as [[pol v]|] eqn:Es.
  - apply storable_age in Es. rewrite freshened_age in Es by done. rewrite <- Es in Hage.
    destruct (is_current _ _ _ _); [|by apply Hun]. returns_one.
    eapply returns_call; [by apply store_insert_response_returns|lia|].
    intros o ([fresh|] & -> & Hfr); tidy.
    + returns_one. eexists. split; [done|]. by apply Hfr.
    + by apply Hun.
  - returns_one. apply (returns_call _ 1 _ (fun o => o = Some tt)); [|lia|].
    { destruct (is_current _ _ _ _); [|by returns_one].
      apply (returns_access 0 (fun _ s =>
        (tt, set_entries (cache_invalidate (Key_Response (stale_key e)) (entries s)) s))).
      intros c s Hs. split; [by apply modest_remove|done]. }
    intros o ->. tidy. apply Hun. simpl. lia.
Qed.

(** ** Storing *)

(** how to store a response whose age is modest *)
Definition storing_ok (st : Storing) : Prop := initial_age (storing_storable st) <= max.

Definition finish_ok (f : Finish) : Prop :=
  initial_age (fin_storable f) <= max /\ values_of header.AGE (fin_headers f) = [].

(** a body that is given up after the upstream timeout *)
Definition body_ok (body : IdleTimeout) : Prop := idle body = upstream_timeout app.

(** a stream of such a body, with the callback that it holds, if any *)
Definition streams_ok (stream : ClientStream) : Prop :=
  body_ok (stream_idle stream) /\
  forall c, copy (stream_tee stream) = Some c -> finish_ok (finish c).

Definition stream_ok (r : HttpResponse ClientStream) : Prop :=
  forall stream, resp_body r = StreamedBody stream -> streams_ok stream.

(** the origin's head announces a modest age, if there is one *)
Definition modest_outcome (outcome : OriginOutcome) : Prop :=
  match outcome with
  | Responded parts => response_age (head_map (Head_from_upstream parts)) <= max
  | Failed | Elapsed => True
  end.

Lemma stored_fields_age fields : values_of header.AGE (stored_fields fields) = [].
Proof.
  unfold stored_fields.
  by rewrite (values_of_filter _ (fun n => negb (String.eqb n header.AGE))), String.eqb_refl.
Qed.

Lemma cached_response_returns stored label :
  modest max stored -> returns 1 (cached_response stored label) (fun _ o =>
    forall r, o = Some r -> stream_ok r).
Proof.
  intros Hm. unfold cached_response. repeat returns_one.
  destruct (modest_age max (instant_now n) stored Hm (proj1 Hn)) as (a & Ha).
  eapply returns_lift_run; [exact Ha|]. returns_one.
  intros r [= <-] stream Hb. discriminate.
Qed.

Lemma store_plan_returns req key rp head :
  response_age (head_map head) <= max ->
  returns 3 (store_plan req key rp head) (fun _ o =>
    exists st0, o = Some st0 /\ forall st, st0 = Some st -> storing_ok st).
Proof.
  intros Hage. unfold store_plan. cbv zeta. returns_one.
  apply (returns_call _ 1 _ (fun o => o = Some tt)).
  { destruct (_ && _); [|by returns_one].
    apply returns_on_cache. intros n Hn s Hs. do 2 eexists. split; [reflexivity|].
    split_and!; [by apply (modest_same _ s)|by repeat constructor|done]. }
  { lia. }
  intros o ->. simpl. repeat returns_one.
  destruct (storable _ _ _ _ _) as [[pol v]|] eqn:Es; [|by returns_one; exists None].
  returns_one. apply returns_on_cache. intros n0 Hn0 s Hs. do 2 eexists. split; [reflexivity|].
  split_and!; [done|done|]. returns_one. eexists. split; [done|]. intros st [= <-].
  unfold storing_ok. simpl. by rewrite (storable_age _ _ _ _ _ _ _ Es).
Qed.

Lemma run_finish_returns f body :
  finish_ok f -> returns 7 (run_finish f body) (fun _ o => o = Some tt).
Proof.
  intros [Ha Hh]. unfold run_finish. returns_one.
  eapply returns_call; [by apply store_insert_response_returns; [..|repeat constructor]|lia|].
  intros o (r & -> & _). tidy. by returns_one.
Qed.

Definition outcome_ok (o : Outcome Finish) : Prop :=
  match o with Called f _ => finish_ok f | Dropped _ => True end.

Lemma run_outcomes_returns l :
  Forall outcome_ok l ->
  returns (7 * length l) (run_outcomes l) (fun _ o => o = Some tt).
Proof.
  induction 1 as [|[f body|f] l Hf _ IH]; simpl; [by returns_one|..]; returns_one.
  - apply (returns_call _ 7 _ _ _ (run_finish_returns f body Hf)); [lia|]. intros ? ->. tidy.
    eapply returns_call; [exact IH|lia|done].
  - returns_one. tidy. eapply returns_call; [exact IH|lia|done].
Qed.

(** [Tee::new] calls or drops at most the callback of its copy *)
Lemma Tee_new_ok length copy :
  (forall c, copy = Some c -> finish_ok (finish c)) ->
  let '(outcomes, tee) := Tee_new length copy in
  Forall outcome_ok outcomes /\ (List.length outcomes <= 1)%nat /\
  (forall c, Body.copy tee = Some c -> finish_ok (finish c)).
Proof.
  intros Hc. unfold Tee_new. case_bool_decide; [|by split_and!; [constructor|simpl; lia|]].
  unfold Tee_finish. destruct copy as [c|]; simpl.
  - split_and!; [|by case_match|done]. case_match; (constructor; [|constructor]); [by apply Hc|done].
  - by split_and!; [constructor|lia|].
Qed.

Lemma client_response_returns head idle store :
  body_ok idle -> (forall st, store = Some st -> storing_ok st) ->
  returns 9 (client_response head idle store) (fun _ o => forall r, o = Some r -> stream_ok r).
Proof.
  intros Hidle Hst. unfold client_response. cbv zeta. returns_one.
  apply (returns_call _ 2 _ (fun o => forall c c', o = Some c -> c = Some c' ->
    finish_ok (finish c'))).
  { destruct store as [st|]; [|by returns_one; intros ? ? [= <-]].
    destruct (is_none_or _ _); [|by repeat returns_one; intros ? ? [= <-]].
    returns_one. intros c c' [= <-] [= <-]. simpl.
    split; [by apply (Hst st)|apply stored_fields_age]. }
  { lia. }
  intros [c|] Hc; [|done]. tidy.
  pose proof (Tee_new_ok (content_length head) c (fun c' => Hc c c' eq_refl)) as Htee.
  destruct (Tee_new _ c) as [outcomes tee]. destruct Htee as (Ho & Hl & Ht).
  returns_one. eapply returns_call; [by apply run_outcomes_returns|lia|]. intros ? ->.
  returns_one. intros r [= <-] stream [= <-]. by split.
Qed.

(** ** The origin *)

Lemma send_to_origin_returns flight kind request outcome :
  returns 5 (send_to_origin flight kind request outcome)
    (fun _ o => o = Some outcome \/ kind = Foreground /\ o = None).
Proof.
  unfold send_to_origin. returns_one. apply returns_step. intros n Hn sh Hs.
  do 2 eexists. split; [reflexivity|]. split_and!; [done|by repeat constructor|].
  assert (returns 2 (match kind with
    | Foreground => await outside flight | Background => pause end)
    (fun _ o => o = None -> kind = Foreground)) as Hawait.
  { destruct kind.
    - by eapply returns_call; [apply returns_await|lia|].
    - eapply returns_call; [apply returns_pause|lia|]. by intros ? ->. }
  returns_one. eapply returns_call; [exact Hawait|lia|]. intros [[]|] Hk; [|right; auto].
  returns_one. destruct outcome as [parts| |].
  - repeat returns_one. apply returns_on_metrics; [|done|].
    { intros m Hm. by apply labelled_responded. }
    returns_one. by left.
  - apply returns_on_metrics; [|done|].
    { intros m Hm. by apply labelled_failed. }
    returns_one. by left.
  - apply returns_on_metrics; [|done|].
    { intros m Hm. by apply labelled_failed. }
    returns_one. by left.
Qed.

Lemma new_origin_body_returns kind :
  returns 2 (new_origin_body app kind) (fun _ o => exists body, o = Some body /\ body_ok body).
Proof.
  unfold new_origin_body. returns_one. apply returns_on_metrics; [|done|].
  { intros m Hm. by apply labelled_idle. }
  repeat returns_one. by eexists.
Qed.

Lemma calm_count (f : Metrics -> Metrics) k Q :
  (forall m, well_labelled m -> well_labelled (f m)) -> Q k (Some tt) ->
  returns (S k) (on_metrics (fun m => Done (f m)) []) Q.
Proof. intros Hf HQ. apply returns_on_metrics; [|done|done]. intros m Hm. by exists (f m); auto. Qed.

Lemma labelled_revalidation m : well_labelled m -> well_labelled (revalidation m).
Proof. by intros []. Qed.
Lemma labelled_background_refresh m : well_labelled m -> well_labelled (background_refresh m).
Proof. by intros []. Qed.

Lemma drop_guard_returns guard :
  returns 1 (on_cache (fun _ s => Done (tt, RefreshGuard_drop guard s)) no_effects)
    (fun _ o => o = Some tt).
Proof.
  apply returns_on_cache. intros n Hn s Hs. do 2 eexists. split; [reflexivity|].
  split_and!; [by apply (modest_same _ s)|done|done].
Qed.

(** ** Bodies *)

Lemma poll_body_returns timer kind p body :
  body_ok body ->
  returns 2 (poll_body timer kind p body) (fun _ o => exists out body',
    o = Some (out, body') /\ body_ok body').
Proof.
  unfold body_ok. intros Hb. unfold poll_body. repeat returns_one.
  destruct (IdleTimeout_poll_next_Done timer {| poll_at := instant_now n; polled := p |} body)
    as (out & k & body' & Hp & Hi); [rewrite Hb; apply Hn|].
  eapply returns_lift_run; [exact Hp|]. cbn beta iota. returns_one.
  apply (returns_call _ 1 _ (fun o => o = Some tt)); [|lia|].
  { destruct (k =? 0); [by returns_one|]. apply calm_count; [|done].
    intros m [H1 H2 H3 H4]. constructor; try done. by apply labelled_inc. }
  intros ? ->. returns_one. do 2 eexists. split; [done|]. congruence.
Qed.

(** what the outcomes of one poll, or of the end, of a stream cost *)
Lemma stream_body_returns timer polls stream :
  streams_ok stream ->
  returns (2 * length polls + match copy (stream_tee stream) with Some _ => 7 | None => 0 end)
    (stream_body timer polls stream) (fun _ o => o = Some tt).
Proof.
  revert stream. induction polls as [|p polls IH]; intros [length [tl cp] idle] [Hi Hc].
  { destruct cp as [c|]; cbn; [|by apply (returns_ret 0)]. by repeat returns_one. }
  cbn [stream_body stream_idle stream_tee stream_length List.length copy]. returns_one.
  eapply returns_call; [by apply poll_body_returns|lia|]. intros o (out & idle' & -> & Hi').
  cbn beta iota. destruct cp as [c|].
  - destruct (Tee_poll_next_step out tl c) as (os & copied & Hstep & ->).
    assert (finish_ok (finish c)) as Hf by (by apply Hc).
    returns_one. apply (returns_call _ (7 * List.length os) _ (fun o => o = Some tt)).
    { apply run_outcomes_returns. by destruct Hstep; first [apply Forall_nil_2|apply Forall_singleton]. }
    { destruct Hstep; simpl; lia. }
    intros ? ->. eapply returns_more; [apply IH; split; [done|]|].
    + intros c' Hc'. by destruct Hstep; simpl in Hc'; simplify_eq.
    + destruct Hstep; simpl; lia.
  - rewrite Tee_poll_next_spent. returns_one. apply (returns_call _ 0 _ (fun o => o = Some tt)).
    { by apply returns_ret. }
    { lia. }
    intros ? ->. eapply returns_more; [by apply IH|]. simpl. lia.
Qed.

(** ** Background revalidation *)

Lemma collect_polls_returns timer polls body :
  body_ok body ->
  returns (2 * length polls) (collect_polls timer polls body) (fun _ o => o <> None).
Proof.
  revert body. induction polls as [|p polls IH]; intros body Hb; cbn [collect_polls].
  { by apply (returns_ret 0). }
  returns_one. eapply returns_call; [by apply poll_body_returns|simpl; lia|].
  intros o (out & body' & -> & Hb'). cbn beta iota.
  assert (forall its, returns (2 * length (p :: polls) - 2) (mret its)
    (fun _ (o : option (list (Item (BodyError unit)))) => o <> None)) as Hret
    by (intros its; by apply returns_ret).
  destruct out as [|[chunk|e|]]; [|returns_one|apply Hret|apply Hret].
  - eapply returns_more; [by apply IH|]. simpl. lia.
  - eapply returns_call; [by apply IH|simpl; lia|]. intros [its|] Hits; [|done].
    by apply returns_ret.
Qed.

Lemma refresh_in_background_returns req key entry :
  modest max (arc_get (response entry)) ->
  returns 3 (refresh_in_background app req key entry) (fun _ o => o = Some tt).
Proof.
  intros Hm. unfold refresh_in_background. cbv zeta. returns_one. apply returns_on_cache.
  intros n Hn s Hs. destruct (start_refresh entry s) as [guard s'] eqn:Eg.
  exists guard, s'. split; [reflexivity|]. split_and!.
  { unfold start_refresh in Eg. case_decide; injection Eg as <- <-; [done|].
    by apply (modest_same _ s). }
  { done. }
  destruct guard as [guard|]; [|by returns_one].
  assert (returns 2 (on_cache (fun _ s => Done (tt, RefreshGuard_drop guard s)) no_effects)
    (fun _ o => o = Some tt)) as Hdrop
    by (eapply returns_call; [apply drop_guard_returns|lia|done]).
  destruct (upstream_request _ _ _ _) as [[b u]|]; [|exact Hdrop].
  destruct (Builder_body _ _) as [hyper_req|]; [|exact Hdrop].
  returns_one. apply calm_count; [exact labelled_background_refresh|].
  eapply returns_call; [apply returns_note; by apply Forall_singleton|lia|done].
Qed.

Lemma refresh_returns timer collect_limited req key entry parts polls :
  modest max (arc_get (response entry)) ->
  response_age (head_map (Head_from_upstream parts)) <= max ->
  returns (12 + 2 * length polls)
    (refresh app timer collect_limited req key entry parts polls) (fun _ o => o = Some tt).
Proof.
  intros He Hage. unfold refresh. cbv zeta. destruct (head_status _ =? NOT_MODIFIED).
  - returns_one.
    eapply returns_call; [apply store_freshen_returns; [done|apply stored_fields_age|done]|lia|].
    intros o (fresh & -> & _). tidy. by apply calm_count; [exact labelled_revalidation|].
  - returns_one. eapply returns_call; [by apply store_plan_returns|lia|].
    intros o ([st|] & -> & Hst); tidy.
    + returns_one. eapply returns_call; [apply new_origin_body_returns|lia|].
      intros o (idle & -> & Hidle). returns_one.
      eapply returns_call; [by apply collect_polls_returns|lia|]. intros [its|] Hits; [|done].
      destruct (collect_limited _ _) as [collected|]; [|by returns_one].
      eapply returns_call; [apply run_finish_returns|lia|done].
      split; [by apply (Hst st)|apply stored_fields_age].
    + by returns_one.
Qed.

Lemma background_task_returns timer collect_limited task outcome polls :
  modest max (arc_get (response (task_entry task))) -> modest_outcome outcome ->
  returns (18 + 2 * length polls)
    (background_task app timer collect_limited task outcome polls) (fun _ o => o = Some tt).
Proof.
  intros He Ho. unfold background_task. returns_one.
  eapply returns_call; [apply send_to_origin_returns|lia|]. intros ? [->|[? _]]; [|done].
  returns_one. apply (returns_call _ (12 + 2 * length polls) _ (fun o => o = Some tt)).
  { destruct outcome as [parts| |]; [by apply refresh_returns|by apply returns_ret..]. }
  { lia. }
  intros ? ->. eapply returns_call; [apply drop_guard_returns|lia|done].
Qed.

(** ** The cache's answer *)

(** what a request learned from the cache *)
Definition cached_ok (c : Cached) : Prop :=
  match c with
  | Answer r => stream_ok r
  | StaleEntryFound entry => modest max (arc_get (response entry))
  | Nothing => True
  end.

Definition before_ok (b : Before) : Prop :=
  match b with
  | BeforeAnswer r => stream_ok r
  | BeforeOrigin t => forall entry, to_stale t = Some entry -> modest max (arc_get (response entry))
  end.

Lemma Cached_or_returns c flight :
  cached_ok c -> returns 2 (Cached_or c flight) (fun _ o => forall b, o = Some b -> before_ok b).
Proof.
  intros Hc. destruct c as [r|entry|]; simpl; repeat returns_one; intros b [= <-]; simpl.
  - done.
  - by intros ? [= <-].
  - done.
Qed.

Lemma while_revalidating_returns req key rp entry :
  modest max (arc_get (response entry)) ->
  returns 5 (while_revalidating app req key rp entry)
    (fun _ o => forall c, o = Some c -> cached_ok c).
Proof.
  intros Hm. unfold while_revalidating.
  destruct (negb _); [returns_one; by intros ? [= <-]|]. repeat returns_one.
  destruct (negb _); [returns_one; by intros ? [= <-]|]. returns_one.
  eapply returns_call; [by apply cached_response_returns|lia|]. intros [r|] Hr; [|done].
  tidy. returns_one. eapply returns_call; [by apply refresh_in_background_returns|lia|].
  intros ? ->. returns_one. intros c [= <-]. by apply Hr.
Qed.

Lemma from_cache_returns req key rp use :
  returns 10 (from_cache app req key rp use)
    (fun _ o => forall c, o = Some c -> cached_ok c).
Proof.
  unfold from_cache. destruct (negb _); [returns_one; by intros ? [= <-]|].
  returns_one. eapply returns_call; [apply store_lookup_returns|lia|].
  intros o (found & -> & Hl). repeat returns_one.
  destruct found as [[stored|entry]|]; [..|returns_one; by intros ? [= <-]];
    specialize (Hl _ eq_refl).
  - returns_one. eapply returns_call; [by apply cached_response_returns|lia|].
    intros [r|] Hr; [|done]. returns_one. intros c [= <-]. by apply Hr.
  - destruct (String.eqb _ _); [by apply while_revalidating_returns|].
    returns_one. by intros ? [= <-].
Qed.

Lemma join_flight_returns req key rp :
  returns 2 (join_flight req key rp) (fun _ _ => True).
Proof.
  unfold join_flight. destruct (negb _); [by returns_one|]. returns_one.
  apply returns_on_cache. intros n Hn s Hs. do 2 eexists. split; [reflexivity|].
  split_and!; [done|done|]. destruct (flight_key _ _ _ _) as [fk|]; [|by returns_one].
  apply returns_on_flights. intros a. split; [|done]. by destruct a; repeat constructor.
Qed.

Lemma second_look_returns req key rp use flight :
  returns 12 (cached ← from_cache app req key rp use; Cached_or cached flight)
    (fun _ o => forall b, o = Some b -> before_ok b).
Proof.
  returns_one. eapply returns_call; [apply from_cache_returns|lia|]. intros [c|] Hc; [|done].
  eapply returns_call; [by apply Cached_or_returns, Hc|lia|done].
Qed.

Lemma serve_from_cache_returns req key rp :
  returns 28 (serve_from_cache app req key rp)
    (fun _ o => forall b, o = Some b -> before_ok b).
Proof.
  unfold serve_from_cache. returns_one.
  eapply returns_call; [apply from_cache_returns|lia|]. intros [c|] Hc; [|done]. tidy.
  returns_one. eapply returns_call; [by apply Cached_or_returns, Hc|lia|].
  intros [[r|t]|] Hb; [..|done]; tidy.
  - returns_one. intros ? [= <-]. by apply Hb.
  - returns_one. eapply returns_call; [apply join_flight_returns|lia|].
    intros [[g|w|]|] _; [..|done]; tidy.
    + eapply returns_call; [apply second_look_returns|lia|done].
    + unfold wait_for_leader. repeat returns_one.
      eapply returns_call; [apply from_cache_returns|lia|]. intros [c'|] Hc'; [|done].
      eapply returns_call; [by apply Cached_or_returns, Hc'|lia|done].
    + returns_one. intros ? [= <-]. by apply Hb.
Qed.

(** ** The exchange with the origin *)

Definition exchange_ok (ex : Exchange) : Prop :=
  forall entry, ex_stale ex = Some entry -> modest max (arc_get (response entry)).

Lemma may_serve_on_error_returns ex entry :
  returns 1 (exchange_may_serve_on_error ex entry) (fun _ o => o <> None).
Proof. unfold exchange_may_serve_on_error. destruct (negb _); by repeat returns_one. Qed.

Lemma cached_then_release_returns flight stored label :
  modest max stored ->
  returns 3 (r ← cached_response stored label; _ ← release flight; mret r)
    (fun _ o => forall r, o = Some r -> stream_ok r).
Proof.
  intros Hm. returns_one. eapply returns_call; [by apply cached_response_returns|lia|].
  intros [r|] Hr; [|done]. repeat returns_one. intros ? [= <-]. by apply Hr.
Qed.

Lemma answered_by_origin_returns ex head :
  response_age (head_map head) <= max ->
  returns 16 (answered_by_origin app ex head)
    (fun _ o => forall r, o = Some r -> stream_ok r).
Proof.
  intros Hage. unfold answered_by_origin. returns_one.
  eapply returns_call; [by apply store_plan_returns|lia|]. intros o (st & -> & Hst). tidy.
  returns_one. eapply returns_call; [apply new_origin_body_returns|lia|].
  intros o (idle & -> & Hidle). tidy. destruct st as [st|].
  - eapply returns_call; [apply client_response_returns; [done|]|lia|done]. intros ? [= <-].
    by apply (Hst st).
  - repeat returns_one. eapply returns_call; [by apply client_response_returns|lia|done].
Qed.

Lemma answered_returns ex parts :
  exchange_ok ex -> response_age (head_map (Head_from_upstream parts)) <= max ->
  returns 17 (answered app ex parts) (fun _ o => forall r, o = Some r -> stream_ok r).
Proof.
  intros Hex Hage. unfold answered. cbv zeta.
  destruct (ex_stale ex) as [stale|] eqn:Es.
  2:{ eapply returns_call; [by apply answered_by_origin_returns|lia|done]. }
  pose proof (Hex stale Es) as Hm. destruct (ex_revalidating ex && _).
  - returns_one. unfold revalidated. returns_one.
    eapply returns_call; [apply store_freshen_returns; [done|apply stored_fields_age|done]|lia|].
    intros o (fresh & -> & Hfresh). tidy. returns_one. apply calm_count; [exact labelled_revalidation|].
    eapply returns_call; [by apply cached_response_returns|lia|]. intros [r|] Hr; [|done].
    repeat returns_one. intros ? [= <-]. by apply Hr.
  - returns_one. apply (returns_call _ 1 _ (fun o => o <> None)).
    { destruct (existsb _ _); [apply may_serve_on_error_returns|by returns_one]. }
    { lia. }
    intros [[]|] Hs; [..|done]; tidy.
    + eapply returns_call; [by apply cached_then_release_returns|lia|done].
    + eapply returns_call; [by apply answered_by_origin_returns|lia|done].
Qed.

Lemma error_response_ok st : stream_ok (error_response st).
Proof. by intros stream. Qed.

Lemma failed_returns ex st :
  exchange_ok ex -> returns 4 (failed ex st) (fun _ o => forall r, o = Some r -> stream_ok r).
Proof.
  intros Hex. unfold failed. returns_one.
  apply (returns_call _ 2 _ (fun o => forall r, o = Some r -> stream_ok r)).
  { destruct (ex_stale ex) as [stale|] eqn:Es.
    2:{ returns_one. intros ? [= <-]. apply error_response_ok. }
    returns_one. eapply returns_call; [apply may_serve_on_error_returns|lia|].
    intros [[]|] Hs; [..|done]; tidy.
    - by apply cached_response_returns, Hex.
    - returns_one. intros ? [= <-]. apply error_response_ok. }
  { lia. }
  intros [r|] Hr; [|done]. repeat returns_one. intros ? [= <-]. by apply Hr.
Qed.

Lemma forward_to_origin_returns req client pq key rp to_origin peers :
  (forall entry, to_stale to_origin = Some entry -> modest max (arc_get (response entry))) ->
  modest_outcome (origin_outcome peers) ->
  returns 24 (forward_to_origin app req client pq key rp to_origin peers)
    (fun _ o => forall r, o = Some r -> stream_ok r).
Proof.
  intros Hstale Ho. unfold forward_to_origin.
  assert (forall k st, (2 <= k)%nat ->
    returns k (_ ← release (to_flight to_origin); mret (error_response st))
      (fun _ o => forall r, o = Some r -> stream_ok r)) as Herror.
  { intros k st Hk. repeat returns_one. intros ? [= <-]. apply error_response_ok. }
  destruct (upstream_request _ _ _ _) as [[b u]|]; [|apply Herror; lia].
  returns_one. unfold request_body_start. repeat returns_one.
  set (ex := {| ex_req := req |}). assert (exchange_ok ex) as Hex by exact Hstale.
  clearbody ex. destruct (first_chunk peers) as [[first|e]|]; [|apply Herror; lia|].
  all: destruct (Builder_body _ _) as [hyper_req|]; [|apply Herror; lia].
  all: returns_one; eapply returns_call; [apply send_to_origin_returns|lia|];
    intros ? [->|[_ ->]]; [|done]; tidy.
  all: destruct (origin_outcome peers) as [parts| |];
    (eapply returns_call; [by first [apply answered_returns|apply failed_returns]|lia|done]).
Qed.

Lemma forward_returns req rp peers :
  modest_outcome (origin_outcome peers) ->
  returns 52 (forward app req rp peers) (fun _ o => forall r, o = Some r -> stream_ok r).
Proof.
  intros Ho. unfold forward. cbv zeta. returns_one.
  eapply returns_call; [apply serve_from_cache_returns|lia|].
  intros [[r|t]|] Hb; [..|done]; tidy.
  - returns_one. intros ? [= <-]. exact (Hb _ eq_refl).
  - eapply returns_call; [apply forward_to_origin_returns|lia|done]; [exact (Hb _ eq_refl)|done].
Qed.

Lemma cache_label_declared response label :
  cache_label response = Some label -> label ∈ CACHE_LABELS.
Proof.
  unfold cache_label. destruct (HeaderMap_get _ _) as [v|]; [|done].
  intros [Hin _]%List.find_some. by apply list_elem_of_In.
Qed.

Lemma handler_returns req peers :
  modest_outcome (origin_outcome peers) ->
  returns 53 (forward_to_upstream app req peers)
    (fun _ o => forall r, o = Some r -> stream_ok r).
Proof.
  intros Ho. unfold forward_to_upstream. cbv zeta. returns_one.
  eapply returns_call; [by apply forward_returns|lia|]. intros [r|] Hr; [|done]. tidy.
  returns_one. apply returns_on_metrics; [|by repeat constructor|].
  - intros m Hm. apply labelled_observe; [done|].
    destruct (bypasses_cache _); [by apply (bool_decide_unpack _)|].
    destruct (cache_label (resp_headers r)) as [label|] eqn:El; simpl;
      [by eapply cache_label_declared|by apply (bool_decide_unpack _)].
  - returns_one. intros ? [= <-]. by apply Hr.
Qed.

End returns.

(** ** One task among others *)

Section run.
Context `{Hops : HttpOps, Yops : HyperOps, Pops : PromOps,
  EntriesOps : !MokaOps Key Entry, IndexOps : !MokaOps PrimaryKey Index}.
Context `{Hlaws : !HttpLaws, !PromLaws, !MokaLaws Key Entry, !MokaLaws PrimaryKey Index}.
Variables (env : Env) (app : AppState) (max : Duration).

(** the others keep the invariant, and the clock shows times at which no stored
    age overflows, and no wait for a body *)
Record calm_env : Prop := {
  ce_others k sh : calm max sh -> calm max (others env k sh);
  ce_clock k : fair app max (clock env k);
}.

(** some await of the task never returns *)
Definition cancels : Prop := exists k, cancelled env k = true.

Hypothesis E : calm_env.

#[local] Transparent returns.
Lemma returns_run {A} k (m : Task A) Q s :
  returns app max cancels k m Q -> calm max (shared s) ->
  exists o s' k', run env m s = Done (o, s') /\ (tick s' + k' <= tick s + k)%nat /\
    calm max (shared s') /\ (exists l, trace s' = trace s ++ l /\ Forall (calm_effect max) l) /\
    (o = None -> cancels) /\ Q k' o.
Proof.
  revert k s. induction m as [a| | |X f eff rest IH|w d IHd r IHr]; intros k s Hm Hs; cbn in *.
  - destruct Hm as (k' & Hk & HQ). exists (Some a), s, k'. split_and!; try done; [lia|].
    exists []. by rewrite app_nil_r.
  - destruct Hm as (Hc & k' & Hk & HQ). exists None, s, k'. split_and!; try done; [lia|].
    exists []. by rewrite app_nil_r.
  - done.
  - destruct Hm as (k1 & -> & Hf).
    destruct (Hf _ (ce_clock E (tick s)) (others env (tick s) (shared s)))
      as (x & sh' & -> & Hsh & He & Hx); [by apply (ce_others E)|].
    edestruct (IH x k1) as (o & s' & k' & Hr & Ht & Hs' & (l & Hl & Hfl) & Hn & HQ);
      [exact Hx| |exists o, s', k'; rewrite Hr]; [exact Hsh|]. cbn in *.
    split_and!; try done; [lia|]. exists (eff x ++ l). by rewrite app_assoc, Forall_app.
  - destruct Hm as [Hd Hr]. destruct (cancelled env (tick s)) eqn:Ec; [|by apply IHr].
    apply IHd; [|done]. apply Hd. by exists (tick s).
Qed.
#[local] Opaque returns.

(** C6. A request returns, on two conditions: that no age that an origin
    announces, added to a time that the clock can show, passes the largest
    [Duration]; and that the upstream timeout, added to such a time, passes no
    [Instant]. (Where they fail the process can panic: [stale_age_panics] and
    [huge_idle_panics].) Then the handler panics at nothing, ends within 53
    steps, and has a response unless one of its awaits was cancelled. So does
    what it leaves behind: its response's stream, polled and dropped, whose
    every poll takes at most 2 steps, and 7 more store the copy; and each
    background revalidation that it spawned, which takes 18 steps, and 2 for
    each poll of the body that it collects. All of them leave a store of such
    ages and well-labelled metrics, so the next request returns as well. *)
Theorem requests_return timer collect_limited req peers s :
  calm max (shared s) -> modest_outcome max (origin_outcome peers) ->
  exists o s' l, run env (forward_to_upstream app req peers) s = Done (o, s') /\
    (tick s' <= tick s + 53)%nat /\ calm max (shared s') /\ (o = None -> cancels) /\
    trace s' = trace s ++ l /\
    (forall r stream polls s1,
       o = Some r -> resp_body r = StreamedBody stream -> calm max (shared s1) ->
       exists s2, run env (stream_body timer polls stream) s1 = Done (Some tt, s2) /\
         (tick s2 <= tick s1 + (2 * length polls + 7))%nat /\ calm max (shared s2)) /\
    (forall task outcome polls s1,
       Spawned task ∈ l -> modest_outcome max outcome -> calm max (shared s1) ->
       exists s2, run env (background_task app timer collect_limited task outcome polls) s1
           = Done (Some tt, s2) /\
         (tick s2 <= tick s1 + (18 + 2 * length polls))%nat /\ calm max (shared s2)).
Proof.
  intros Hs Ho.
  destruct (returns_run _ _ _ s (handler_returns app max cancels req peers Ho) Hs)
    as (o & s' & k' & Hrun & Ht & Hs' & (l & Hl & Heff) & Hn & Hstream).
  exists o, s', l. split_and!; try done; [lia|..].
  - intros r stream polls s1 -> Hb Hs1.
    destruct (returns_run _ _ _ s1 (stream_body_returns app max cancels timer polls stream
        (Hstream r eq_refl stream Hb)) Hs1)
      as (? & s2 & k2 & Hfin & Ht2 & Hs2 & _ & _ & ->).
    exists s2. split_and!; [done| |done]. destruct (copy _); lia.
  - intros task outcome polls s1 Hin Hout Hs1.
    assert (calm_effect max (Spawned task)) as Htask by (by eapply Forall_forall in Heff).
    destruct (returns_run _ _ _ s1 (background_task_returns app max cancels timer collect_limited
        task outcome polls Htask Hout) Hs1)
      as (? & s2 & k2 & Hbg & Ht2 & Hs2 & _ & _ & ->).
    exists s2. split_and!; [done|lia|done].
Qed.
End run.

(** ** The example returns *)

Lemma ex_modest : modest_store (Duration_from_secs 3600) ex_store.
Proof.
  unfold ex_store, ex_insert. apply modest_insert_response.
  - vm_compute. discriminate.
  - vm_compute. reflexivity.
  - exact (modest_Store_new _ _ _ _ ex_empty_new).
Qed.

Lemma steady_calm secs start :
  page_start ex_store = Some start -> Duration_from_secs (secs + 3600) <= Instant_MAX ->
  calm (Duration_from_secs 3600) (shared start) /\
  calm_env (steady_env secs (shared start)) page_app (Duration_from_secs 3600).
Proof.
  unfold page_start, ex_metrics. destruct labelled_Metrics_new as (m & -> & Hm).
  intros [= <-] Hsecs.
  assert (forall fl, calm (Duration_from_secs 3600)
    {| sh_cache := ex_store; sh_flights := fl; sh_metrics := m |}) as Hcalm
    by (split; [exact ex_modest|exact Hm]).
  split; [apply Hcalm|]. split; simpl.
  - intros _ sh _. apply Hcalm.
  - assert (Instant_MAX <= Duration_MAX) by (vm_compute; discriminate).
    intros _. split; unfold page_app, Duration_from_secs in *; simpl in *; lia.
Qed.

Lemma page_starts store : exists start, page_start store = Some start /\ tick start = 0%nat.
Proof.
  unfold page_start, ex_metrics. destruct labelled_Metrics_new as (m & -> & _). by eexists.
Qed.

Lemma requests_return_witness :
  exists start o s', page_start ex_store = Some start /\
    run (steady_env 70 (shared start)) (forward_to_upstream page_app page_request
      {| first_chunk := None; body_channel := 0; origin_outcome := Responded page_parts |}) start
    = Done (o, s') /\ (tick s' <= 53)%nat.
Proof.
  destruct (page_starts ex_store) as (start & Es & H0).
  destruct (steady_calm 70 start Es) as [Hs He]; [vm_compute; discriminate|].
  destruct (requests_return _ page_app _ He ideal_timer (fun _ _ => None) page_request
    {| first_chunk := None; body_channel := 0; origin_outcome := Responded page_parts |} start Hs)
    as (o & s' & l & Hrun & Ht & _).
  - vm_compute. discriminate.
  - exists start, o, s'. split; [exact Es|]. split; [exact Hrun|]. rewrite H0 in Ht. exact Ht.
Defined.
