(* ===== verification/Ownership.v ===== *)
(** Who owns what. A task owns the flight that it leads, until it releases it
    or hands it to the callback of its response's stream, and the guard of a
    background revalidation, until it drops it or spawns the revalidation.
    [owns m own Q] follows [m] step by step: it starts with [own], each step
    changes the shared flights and the refreshing set only as what the task
    then owns allows, and [Q] says what is owned at the end. *)

From stdpp Require Import base tactics numbers option list gmap strings.
From S2P Require Import Prelude RustStd Http Directives Policy Moka Store Coalesce Upstream Body Metrics Response Tasks StoreTasks TaskLogic Proxy ProxyAccounts.

Local Open Scope N_scope.

Section ownership.
Context `{Hops : HttpOps, Yops : HyperOps, Pops : PromOps,
  EntriesOps : !MokaOps Key Entry, IndexOps : !MokaOps PrimaryKey Index}.

Record Owned := {
  own_flights : list (Flight * GuardPhase);
  own_refreshes : list RefreshGuard;
}.

(** a task that holds these flights *)
Definition owned (l : list Flight) (guards : list RefreshGuard) : Owned :=
  {| own_flights := map (fun g => (g, Held)) l; own_refreshes := guards |}.

(** what a step may do to the shared state, to what the task owns, and to the
    tasks that it spawns, which own their guards *)
Inductive move (sh : Shared) : Owned -> Shared -> Owned -> list RefreshTask -> Prop :=
| move_quiet own sh' :
    sh_flights sh' = sh_flights sh ->
    refreshing (sh_cache sh') = refreshing (sh_cache sh) -> move sh own sh' own []
| move_join key may_lead fl r sh' :
    sh_cache sh' = sh_cache sh ->
    sh_flights sh' = snd (join key may_lead (sh_flights sh)) ->
    move sh {| own_flights := fl; own_refreshes := r |} sh'
      {| own_flights := match fst (join key may_lead (sh_flights sh)) with
                        | Lead g => (g, Held) :: fl
                        | _ => fl
                        end; own_refreshes := r |} []
| move_drop g fl r sh' :
    sh_cache sh' = sh_cache sh -> sh_flights sh' = FlightGuard_drop g (sh_flights sh) ->
    move sh {| own_flights := (g, Held) :: fl; own_refreshes := r |} sh'
      {| own_flights := (g, Removed) :: fl; own_refreshes := r |} []
| move_drop_fields g fl r sh' :
    sh_cache sh' = sh_cache sh -> sh_flights sh' = FlightGuard_drop_fields g (sh_flights sh) ->
    move sh {| own_flights := (g, Removed) :: fl; own_refreshes := r |} sh'
      {| own_flights := fl; own_refreshes := r |} []
| move_start entry o fl r sh' :
    sh_flights sh' = sh_flights sh ->
    start_refresh entry (sh_cache sh) = (o, sh_cache sh') ->
    move sh {| own_flights := fl; own_refreshes := r |} sh'
      {| own_flights := fl; own_refreshes := option_list o ++ r |} []
| move_end g fl r sh' :
    sh_flights sh' = sh_flights sh -> sh_cache sh' = RefreshGuard_drop g (sh_cache sh) ->
    move sh {| own_flights := fl; own_refreshes := g :: r |} sh'
      {| own_flights := fl; own_refreshes := r |} []
| move_spawn t fl r :
    move sh {| own_flights := fl; own_refreshes := task_guard t :: r |} sh
      {| own_flights := fl; own_refreshes := r |} [t].

Fixpoint owns {A} (m : Task A) (own : Owned) (Q : option A -> Owned -> Prop) : Prop :=
  match m with
  | Return a => Q (Some a) own
  | Cancelled => Q None own
  | Panicked => True
  | Step f effects rest =>
      forall c sh x sh', f c sh = Done (x, sh') ->
        exists own', move sh own sh' own' (spawns (effects x)) /\ owns (rest x) own' Q
  | Await ready dropped rest =>
      owns dropped own Q /\ owns rest own Q /\
      forall sh, ready sh = false -> own_flights own = [] /\ senders (sh_flights sh) <> ∅
  end.

Lemma owns_mono {A} (m : Task A) own (P Q : option A -> Owned -> Prop) :
  owns m own P -> (forall o own, P o own -> Q o own) -> owns m own Q.
Proof.
  revert own. induction m as [a| | |X f eff rest IH|w d IHd r IHr]; intros own Hm HPQ; cbn in *;
    [auto..| |].
  - intros c sh x sh' Hf. destruct (Hm c sh x sh' Hf) as (own' & ? & ?). exists own'. eauto.
  - destruct Hm as (? & ? & ?). split_and!; eauto.
Qed.

Lemma owns_ret {A} (a : A) own Q : Q (Some a) own -> owns (mret a) own Q.
Proof. done. Qed.

Lemma owns_ret_inv {A} (a : A) own Q : owns (Return a) own Q -> Q (Some a) own.
Proof. done. Qed.

Lemma owns_cancelled_inv {A} own (Q : option A -> Owned -> Prop) :
  owns Cancelled own Q -> Q None own.
Proof. done. Qed.

#[local] Transparent Task_then step read_clock on_cache on_flights on_metrics lift_run release
  pause note await.

Lemma owns_bind {A B} (m : Task A) (f : A -> Task B) own Q :
  owns m own (fun o own' => match o with
                            | Some a => owns (f a) own' Q
                            | None => Q None own'
                            end) ->
  owns (m ≫= f) own Q.
Proof.
  revert own. induction m as [a| | |X g eff rest IH|w d IHd r IHr]; intros own Hm; cbn in *;
    [done..| |].
  - intros c sh x sh' Hg. destruct (Hm c sh x sh' Hg) as (own' & ? & ?). exists own'.
    split; [done|]. by apply IH.
  - destruct Hm as (? & ? & ?). split_and!; auto.
Qed.

#[local] Transparent spec.
(** what is known of how a task ends *)
Lemma owns_and {A} (m : Task A) own (P : option A -> Owned -> Prop) Q :
  owns m own P -> spec m Q -> owns m own (fun o own' => P o own' /\ exists l, Q o l).
Proof.
  revert own Q. induction m as [a| | |X f eff rest IH|w d IHd r IHr]; intros own Q HP HQ; cbn in *;
    [eauto..| |].
  - intros c sh x sh' Hf. destruct (HP c sh x sh' Hf) as (own' & ? & Hx). exists own'.
    split; [done|]. eapply owns_mono; [by eapply IH, (HQ c sh x sh')|].
    cbn. intros o own2 (? & l & ?). eauto.
  - destruct HP as (? & ? & ?), HQ. split_and!; auto.
Qed.
#[local] Opaque spec.

Lemma owns_step {A} (f : Clock -> Shared -> Run (A * Shared)) eff own Q :
  (forall c sh x sh', f c sh = Done (x, sh') ->
     exists own', move sh own sh' own' (spawns (eff x)) /\ Q (Some x) own') ->
  owns (step f eff) own Q.
Proof. done. Qed.

Lemma owns_read_clock own Q : (forall c, Q (Some c) own) -> owns read_clock own Q.
Proof.
  intros HQ. apply owns_step. intros c sh x sh' [= <- <-]. exists own. split; [by constructor|done].
Qed.

Lemma owns_pause own Q : Q (Some tt) own -> owns pause own Q.
Proof.
  intros HQ. apply owns_step. intros c sh [] sh' [= <-]. exists own. split; [by constructor|done].
Qed.

Lemma owns_on_metrics f eff own Q :
  spawns eff = [] -> Q (Some tt) own -> owns (on_metrics f eff) own Q.
Proof.
  intros He HQ. apply owns_step. intros c sh [] sh' (m & _ & [= <-])%Run_bind_Done.
  exists own. rewrite He. split; [by constructor|done].
Qed.

(** an access to the store that leaves the refreshing set alone *)
Lemma owns_on_cache {A} (f : Clock -> Store -> Run (A * Store)) eff own Q :
  (forall c s a s', f c s = Done (a, s') -> refreshing s' = refreshing s) ->
  (forall a, spawns (eff a) = []) -> (forall a, Q (Some a) own) -> owns (on_cache f eff) own Q.
Proof.
  intros Hf He HQ. apply owns_step. intros c sh x sh' ([a s] & Hs & [= <- <-])%Run_bind_Done.
  exists own. rewrite He. split; [|done]. constructor; [done|]. by eapply Hf.
Qed.

Lemma owns_lift_run {A} (r : Run A) own Q : (forall a, Q (Some a) own) -> owns (lift_run r) own Q.
Proof. intros HQ. unfold lift_run. destruct r as [a|]; cbn; auto. Qed.

Lemma owns_release flight r Q :
  Q (Some tt) (owned [] r) -> owns (release flight) (owned (option_list flight) r) Q.
Proof.
  intros HQ. destruct flight as [g|]; [|exact HQ].
  apply owns_bind, owns_step. intros c sh [] sh' [= <-]. eexists. split; [by apply move_drop|].
  apply owns_step. intros c' sh2 [] sh' [= <-]. eexists. split; [by apply move_drop_fields|done].
Qed.

Lemma owns_await ready flight r Q :
  (forall sh, ready sh = false -> flight = None /\ senders (sh_flights sh) <> ∅) ->
  Q (Some tt) (owned (option_list flight) r) -> Q None (owned [] r) ->
  owns (await ready flight) (owned (option_list flight) r) Q.
Proof.
  intros Hw HQ Hc. split; [by apply owns_bind, owns_release|]. split; [by apply owns_pause|].
  intros sh Hsh. by destruct (Hw sh Hsh) as [-> ?].
Qed.

(** an await of a task that owns what it owned before *)
Lemma owns_await_still own Q :
  Q (Some tt) own -> Q None own -> owns (await outside None) own Q.
Proof. intros HQ Hc. split; [exact Hc|]. by split; [apply owns_pause|]. Qed.

(** a task that waits for a leader owns no flight *)
Lemma owns_wait waiter r Q :
  Q (Some tt) (owned [] r) -> Q None (owned [] r) ->
  owns (wait_for_leader waiter) (owned [] r) Q.
Proof.
  intros HQ Hc. apply (owns_await _ None); [|done..]. intros sh Hsh. split; [done|].
  apply bool_decide_eq_false in Hsh. intros He. rewrite He in Hsh. by apply Hsh, not_elem_of_empty.
Qed.

Lemma owns_join key may_lead eff r (Q : option Join -> Owned -> Prop) :
  (forall j, spawns (eff j) = []) ->
  (forall j, Q (Some j) (owned match j with Lead g => [g] | _ => [] end r)) ->
  owns (on_flights (join key may_lead) eff) (owned [] r) Q.
Proof.
  intros He HQ. apply owns_step. intros c sh j sh' Hj.
  destruct (join key may_lead (sh_flights sh)) as [j' fl] eqn:E. injection Hj as <- <-.
  eexists. rewrite He. split; [by apply (move_join _ key may_lead); rewrite ?E|].
  rewrite E. cbn. destruct j'; apply HQ.
Qed.

Lemma owns_start_refresh entry fl r Q :
  (forall o, Q (Some o) {| own_flights := fl; own_refreshes := option_list o ++ r |}) ->
  owns (on_cache (fun _ s => Done (start_refresh entry s)) no_effects)
    {| own_flights := fl; own_refreshes := r |} Q.
Proof.
  intros HQ. apply owns_step. intros c sh o sh' ([o' s] & Hs & [= <- <-])%Run_bind_Done.
  injection Hs as Hs. eexists. split; [by apply (move_start _ entry)|]. apply HQ.
Qed.

Lemma owns_end_refresh g fl r Q :
  Q (Some tt) {| own_flights := fl; own_refreshes := r |} ->
  owns (on_cache (fun _ s => Done (tt, RefreshGuard_drop g s)) no_effects)
    {| own_flights := fl; own_refreshes := g :: r |} Q.
Proof.
  intros HQ. apply owns_step. intros c sh [] sh' ([[] s] & [= <-] & [= <-])%Run_bind_Done.
  eexists. split; [by apply move_end|]. apply HQ.
Qed.

Lemma owns_note effects own Q :
  spawns effects = [] -> Q (Some tt) own -> owns (note effects) own Q.
Proof.
  intros He HQ. apply owns_step. intros c sh [] sh' [= <-]. exists own. rewrite He.
  split; [by constructor|done].
Qed.

Lemma owns_spawn t fl r Q :
  Q (Some tt) {| own_flights := fl; own_refreshes := r |} ->
  owns (note [Spawned t])
    {| own_flights := fl; own_refreshes := task_guard t :: r |} Q.
Proof.
  intros HQ. apply owns_step. intros c sh [] sh' [= <-]. eexists. split; [apply move_spawn|].
  apply HQ.
Qed.
#[local] Opaque Task_then step read_clock on_cache on_flights on_metrics lift_run release pause
  note await.
End ownership.

Arguments owns : simpl never.
#[global] Opaque owns.

(** one step of a proof about what a task owns *)
Ltac owns_one :=
  match goal with
  | |- owns (mret _) _ _ => apply owns_ret
  | |- owns (mbind _ _) _ _ => apply owns_bind
  | |- owns read_clock _ _ => apply owns_read_clock; intros ?
  | |- owns (on_metrics _ _) _ _ => apply owns_on_metrics; [done|]
  | |- owns (lift_run _) _ _ => apply owns_lift_run; intros ?
  | |- owns pause _ _ => apply owns_pause
  | |- owns (release _) _ _ => apply owns_release
  | |- owns (await outside _) _ _ => apply owns_await; [done|..]
  end.

(** ** Tasks that own nothing new *)

Section still.
Context `{Hops : HttpOps, Yops : HyperOps, Pops : PromOps,
  EntriesOps : !MokaOps Key Entry, IndexOps : !MokaOps PrimaryKey Index}.

(** tasks that leave what is owned as it was *)
Definition still {A} (m : Task A) : Prop := forall own, owns m own (fun _ own' => own' = own).

Lemma still_bind {A B} (m : Task A) (f : A -> Task B) :
  still m -> (forall a, still (f a)) -> still (m ≫= f).
Proof.
  intros Hm Hf own. apply owns_bind. eapply owns_mono; [apply Hm|].
  intros [a|] own' ->; [apply Hf|done].
Qed.

Lemma still_ret {A} (a : A) : still (mret a).
Proof. intros own. by apply owns_ret. Qed.

(** a still part of a task, with what is known of its end *)
Lemma owns_still {A} (m : Task A) own P Q :
  still m -> spec m P -> (forall o l, P o l -> Q o own) -> owns m own Q.
Proof.
  intros Hm HP HQ. eapply owns_mono; [by apply owns_and; [apply Hm|exact HP]|].
  intros o own' (-> & l & Hl). eauto.
Qed.

(** an access that leaves the refreshing set alone *)
Lemma still_access {A} (f : Clock -> Store -> A * Store) eff :
  (forall c s, refreshing (snd (f c s)) = refreshing s) ->
  (forall a, spawns (eff a) = []) -> still (on_cache (fun c s => Done (f c s)) eff).
Proof.
  intros Hf He own. apply owns_on_cache; [|done..].
  intros c s a s' Heq%Done_inj. specialize (Hf c s). by rewrite Heq in Hf.
Qed.

End still.

Ltac still_code :=
  repeat match goal with
         | |- still (mret _) => apply still_ret
         | |- still (mbind _ _) => apply still_bind; [|intros ?]
         | |- still read_clock => intros own; by apply owns_read_clock
         | |- still (on_cache _ _) => apply still_access; [done|done]
         | |- still (on_metrics _ _) => intros own; by apply owns_on_metrics
         | |- still (lift_run _) => intros own; by apply owns_lift_run
         | |- still (await outside None) => intros own; by apply owns_await_still
         | |- still pause => intros own; by apply owns_pause
         | |- still (note [LookedUp _]) => intros own; by apply owns_note
         | |- still (match ?x with _ => _ end) => destruct x
         end.

(** ** The handler *)

Section handler.
Context `{Hops : HttpOps, Yops : HyperOps, Pops : PromOps,
  EntriesOps : !MokaOps Key Entry, IndexOps : !MokaOps PrimaryKey Index}.
Variable app : AppState.

(** ** The store's methods *)

Lemma still_store_lookup p request m : still (store_lookup p request m).
Proof. unfold store_lookup. still_code. Qed.

Lemma still_store_insert_response p v pol st hs b eff :
  spawns eff = [] -> still (store_insert_response p v pol st hs b eff).
Proof.
  intros He. unfold store_insert_response. still_code.
Qed.

Lemma still_store_freshen entry rp request update age :
  still (store_freshen entry rp request update age).
Proof.
  unfold store_freshen, store_response. cbv zeta. still_code. by apply still_store_insert_response.
Qed.

Lemma owns_store_insert_response p v pol st hs b eff own Q :
  spawns eff = [] -> (forall r, Q (Some r) own) ->
  owns (store_insert_response p v pol st hs b eff) own Q.
Proof.
  intros He HQ. eapply owns_still; [by apply still_store_insert_response
    |by apply (spec_store_insert_response _ _ _ _ _ _ _ (fun o _ => exists r, o = Some r)); eauto|].
  by intros ? _ [r ->].
Qed.

Lemma owns_store_freshen entry rp request update age own Q :
  (forall r, Q (Some r) own) -> owns (store_freshen entry rp request update age) own Q.
Proof.
  intros HQ. eapply owns_still; [apply still_store_freshen
    |by apply (spec_store_freshen _ _ _ _ _ (fun o _ => exists r, o = Some r)); eauto|].
  by intros ? _ [r ->].
Qed.

Lemma still_cached_response stored label : still (cached_response stored label).
Proof. unfold cached_response. still_code. Qed.
(** ** The parts that leave everything alone *)

Lemma still_store_plan req key rp head : still (store_plan req key rp head).
Proof.
  unfold store_plan. still_code.
Qed.

Lemma still_exchange_may_serve ex entry : still (exchange_may_serve_on_error ex entry).
Proof. unfold exchange_may_serve_on_error. still_code. Qed.

Lemma still_new_origin_body kind : still (new_origin_body app kind).
Proof. unfold new_origin_body. still_code. Qed.

Lemma still_refresh_in_background req key entry : still (refresh_in_background app req key entry).
Proof.
  intros [fl r]. unfold refresh_in_background. owns_one. apply owns_start_refresh.
  intros [guard|]; [|by owns_one]. simpl.
  assert (owns (on_cache (fun _ s => Done (tt, RefreshGuard_drop guard s)) no_effects)
    {| own_flights := fl; own_refreshes := guard :: r |}
    (fun _ own => own = {| own_flights := fl; own_refreshes := r |})) as Hdrop
    by (by apply owns_end_refresh).
  destruct (upstream_request _ _ _ _) as [[b u]|]; [|exact Hdrop].
  destruct (Builder_body _ _) as [hyper_req|]; [|exact Hdrop].
  owns_one. apply owns_on_metrics; [done|].
  match goal with |- context [Spawned ?t] => by apply (owns_spawn t) end.
Qed.

Lemma still_from_cache req key rp use : still (from_cache app req key rp use).
Proof.
  unfold from_cache, while_revalidating. still_code;
    first [apply still_store_lookup | apply still_cached_response | apply still_refresh_in_background].
Qed.

(** ** Storing *)

Lemma owns_run_finish f body r :
  owns (run_finish f body) (owned (option_list (fin_flight f)) r)
    (fun o own => o = Some tt /\ own = owned [] r).
Proof.
  unfold run_finish. owns_one. apply owns_store_insert_response; [done|]. intros _. by owns_one.
Qed.

(** what the outcomes of a callback end *)
Definition outcome_flights (o : Outcome Finish) : list Flight :=
  match o with Called f _ | Dropped f => option_list (fin_flight f) end.

Lemma owns_run_outcome o r :
  owns (run_outcomes [o]) (owned (outcome_flights o) r)
    (fun o own => o = Some tt /\ own = owned [] r).
Proof.
  destruct o as [f body|f]; simpl; owns_one.
  - eapply owns_mono; [apply owns_run_finish|]. intros o own [-> ->]. by owns_one.
  - by owns_one; owns_one.
Qed.

Definition owns_response (r : list RefreshGuard) (o : option (HttpResponse ClientStream))
    (own : Owned) : Prop := own = owned (held o) r.

(** the flight of a copy is where its callback is *)
Lemma Tee_new_flights length cp os tee :
  Tee_new length cp = (os, tee) ->
  os = [] /\ copy tee = cp \/
  exists c o, cp = Some c /\ os = [o] /\ copy tee = None /\
    outcome_flights o = option_list (fin_flight (finish c)).
Proof.
  unfold Tee_new, Tee_finish. simpl. case_bool_decide; [destruct cp as [c|]|]; simpl;
    intros [= <- <-]; [|by left..].
  right. exists c. case_match; (eexists; split; [done|]); done.
Qed.

Lemma owns_client_response head idle store r :
  owns (client_response head idle store) (owned (option_list (store ≫= storing_flight)) r)
    (fun o own => o <> None /\ owns_response r o own).
Proof.
  unfold client_response. owns_one.
  assert (forall cp, owns (let '(outcomes, tee) := Tee_new (content_length head) cp in
    _ ← run_outcomes outcomes;
    mret (Build_HttpResponse (head_status head)
      (HeaderMap_insert CACHE_STATUS MISS
        (append_headers (forwardable_fields head) HeaderMap_new))
      (StreamedBody {| stream_length := content_length head; stream_tee := tee;
                       stream_idle := idle |})))
    (owned (from_option (fun c => option_list (fin_flight (finish c))) [] cp) r)
    (fun o own => o <> None /\ owns_response r o own)) as Hcopy.
  { intros cp. destruct (Tee_new _ cp) as [os tee] eqn:Et. unfold owns_response.
    owns_one. apply Tee_new_flights in Et as [[-> <-]|(c & o & -> & -> & Hc & Ho)].
    - simpl. owns_one. owns_one. split; [done|]. unfold held, holds. simpl. by destruct (copy tee).
    - cbn [from_option]. rewrite <- Ho. eapply owns_mono; [apply owns_run_outcome|].
      intros ? own [-> ->]. owns_one. split; [done|]. unfold held, holds. simpl. by rewrite Hc. }
  destruct store as [store|]; [|owns_one; apply (Hcopy None)]. cbn.
  destruct (is_none_or _ _).
  - owns_one. match goal with |- context [Tee_new _ ?cp] => apply (Hcopy cp) end.
  - owns_one. owns_one. owns_one. apply (Hcopy None).
Qed.

(** ** The exchange with the origin *)

Lemma spec_new_origin_body kind : spec (new_origin_body app kind) (fun o _ => o <> None).
Proof. unfold new_origin_body. by repeat spec_one. Qed.

Lemma owns_answered_by_origin ex head r :
  owns (answered_by_origin app ex head) (owned (option_list (ex_flight ex)) r)
    (fun o own => o <> None /\ owns_response r o own).
Proof.
  unfold answered_by_origin. owns_one.
  eapply owns_still; [apply still_store_plan|apply quiet_store_plan|].
  intros o l (_ & st & -> & Hst). owns_one.
  eapply owns_still; [apply still_new_origin_body|apply spec_new_origin_body|].
  intros [idle|] _ Hidle; [|done]. destruct st as [st|].
  - apply (owns_client_response _ _ (Some (holding st (ex_flight ex)))).
  - owns_one. owns_one. apply (owns_client_response _ _ None).
Qed.

(** the drop of the exchange, after an answer that is not streamed *)
Lemma owns_release_then flight r response :
  not_streamed response ->
  owns (_ ← release flight; mret response) (owned (option_list flight) r)
    (fun o own => o <> None /\ owns_response r o own).
Proof.
  intros Hr. owns_one. owns_one. owns_one. split; [done|]. unfold owns_response, held.
  by rewrite not_streamed_holds.
Qed.

Lemma owns_cached_then_release stored label flight r :
  owns (response ← cached_response stored label; _ ← release flight; mret response)
    (owned (option_list flight) r) (fun o own => o <> None /\ owns_response r o own).
Proof.
  owns_one. eapply owns_still; [apply still_cached_response|apply quiet_cached_response|].
  intros o l (_ & response & -> & Hr). by apply owns_release_then.
Qed.

Lemma owns_answered ex parts r :
  owns (answered app ex parts) (owned (option_list (ex_flight ex)) r)
    (fun o own => o <> None /\ owns_response r o own).
Proof.
  unfold answered. cbv zeta. destruct (ex_stale ex) as [stale|]; [|apply owns_answered_by_origin].
  destruct (ex_revalidating ex && _).
  - unfold revalidated. owns_one. owns_one.
    apply owns_store_freshen. intros fresh. owns_one. owns_one.
    eapply owns_still; [apply still_cached_response|apply quiet_cached_response|].
    intros o l (_ & response & -> & Hr). by apply owns_release_then.
  - owns_one. eapply (owns_still _ _ (fun o _ => o <> None)).
    + destruct (existsb _ _); [apply still_exchange_may_serve|apply still_ret].
    + destruct (existsb _ _); [|by spec_one]. unfold exchange_may_serve_on_error.
      destruct (negb _); by repeat spec_one.
    + intros [[]|] _ Ho; [apply owns_cached_then_release|apply owns_answered_by_origin|done].
Qed.

Lemma owns_failed ex st r :
  owns (failed ex st) (owned (option_list (ex_flight ex)) r)
    (fun o own => o <> None /\ owns_response r o own).
Proof.
  unfold failed. owns_one.
  eapply (owns_still _ _ (fun o _ => exists response, o = Some response /\ not_streamed response)).
  - destruct (ex_stale ex) as [stale|]; [|apply still_ret].
    apply still_bind; [apply still_exchange_may_serve|]. intros [];
      [apply still_cached_response|apply still_ret].
  - destruct (ex_stale ex) as [stale|]; [|spec_one; by eexists].
    unfold exchange_may_serve_on_error. spec_one.
    destruct (negb _); repeat spec_one; [by eexists|].
    destruct (may_serve_on_error _ _); [|spec_one; by eexists].
    eapply spec_mono; [apply quiet_cached_response|]. intros o l (_ & Hr). exact Hr.
  - intros o _ (response & -> & Hr). by apply owns_release_then.
Qed.

Lemma owns_send_to_origin flight request outcome r :
  owns (send_to_origin flight Foreground request outcome) (owned (option_list flight) r)
    (fun o own => o = Some outcome /\ own = owned (option_list flight) r \/
                  o = None /\ own = owned [] r).
Proof.
  unfold send_to_origin. owns_one. apply owns_step. intros c sh x sh' [= <- <-].
  eexists. split; [by apply move_quiet|]. owns_one. owns_one; [|by right]. owns_one.
  destruct outcome; repeat owns_one; by left.
Qed.

Lemma owns_forward_to_origin req client pq key rp to_origin peers r :
  owns (forward_to_origin app req client pq key rp to_origin peers)
    (owned (option_list (to_flight to_origin)) r) (owns_response r).
Proof.
  unfold forward_to_origin. cbv zeta.
  assert (forall st, owns (_ ← release (to_flight to_origin); mret (error_response st))
    (owned (option_list (to_flight to_origin)) r) (owns_response r)) as Herror.
  { intros st. by owns_one; owns_one; owns_one. }
  destruct (upstream_request _ _ _ _) as [[b u]|]; [|apply Herror].
  set (ex := {| ex_req := req |}). assert (ex_flight ex = to_flight to_origin) as Hex by done.
  clearbody ex. unfold request_body_start. owns_one. owns_one. owns_one; [|done]. owns_one.
  destruct (first_chunk peers) as [[first|e]|]; [|apply Herror|].
  all: destruct (Builder_body _ _) as [hyper_req|]; [|apply Herror].
  all: owns_one; eapply owns_mono; [apply owns_send_to_origin|];
    intros o own [[-> ->]|[-> ->]]; [|done].
  all: rewrite <- Hex; destruct (origin_outcome peers) as [parts| |];
    (eapply owns_mono; [first [apply owns_answered|apply owns_failed]|]); by intros o own [_ ?].
Qed.

(** ** The cache's answer *)

(** what a request owns before it goes to the origin *)
Definition owns_before (r : list RefreshGuard) (o : option Before) (own : Owned) : Prop :=
  own = owned (before_flights o) r.

Lemma owns_second_look req key rp use flight r :
  owns (cached ← from_cache app req key rp use; Cached_or cached flight)
    (owned (option_list flight) r) (owns_before r).
Proof.
  owns_one. eapply owns_still; [apply still_from_cache|apply quiet_from_cache|].
  intros o l (_ & c & -> & Hc). destruct c as [response|entry|]; simpl in *.
  - owns_one. owns_one. owns_one. unfold owns_before. simpl. by rewrite not_streamed_holds.
  - by owns_one.
  - by owns_one.
Qed.

Lemma owns_join_flight req key rp r :
  owns (join_flight req key rp) (owned [] r) (fun o own =>
    exists j, o = Some j /\ own = owned match j with Lead g => [g] | _ => [] end r).
Proof.
  unfold join_flight. destruct (negb _); [owns_one; by eexists|].
  owns_one. apply owns_on_cache; [|done|]; [by intros c s a s' [= _ <-]|].
  intros [fk|]; [|owns_one; by eexists]. apply owns_join; [by intros []|]. intros j. by eexists.
Qed.

Lemma owns_serve_from_cache req key rp r :
  owns (serve_from_cache app req key rp) (owned [] r) (owns_before r).
Proof.
  unfold serve_from_cache. owns_one.
  eapply owns_still; [apply still_from_cache|apply quiet_from_cache|].
  intros o l (_ & c & -> & Hc). owns_one.
  assert (forall stale, owns (j ← join_flight req key rp;
      match j with
      | Alone => mret (BeforeOrigin {| to_stale := stale; to_flight := None |})
      | Lead flight =>
          cached ← from_cache app req key rp Hit; Cached_or cached (Some flight)
      | Follow waiter =>
          _ ← wait_for_leader waiter;
          cached ← from_cache app req key rp Coalesced; Cached_or cached None
      end) (owned [] r) (owns_before r)) as Hjoin.
  { intros stale. owns_one. eapply owns_mono; [apply owns_join_flight|].
    intros o own (j & -> & ->). destruct j as [g|w|].
    - apply (owns_second_look _ _ _ _ (Some g)).
    - owns_one. apply owns_wait; [|done].
      apply (owns_second_look _ _ _ _ None).
    - by owns_one. }
  destruct c as [response|entry|]; simpl in *.
  - owns_one. apply (owns_release None). owns_one. owns_one. unfold owns_before. simpl.
    by rewrite not_streamed_holds.
  - owns_one. apply Hjoin.
  - owns_one. apply Hjoin.
Qed.

(** a request starts with nothing, and ends with the flight that its stream
    holds *)
Lemma owns_handler req peers :
  owns (forward_to_upstream app req peers) (owned [] []) (owns_response []).
Proof.
  unfold forward_to_upstream, forward. cbv zeta. owns_one. owns_one.
  eapply owns_mono; [apply owns_serve_from_cache|]. intros [[response|t]|] own ->; [..|done].
  - repeat owns_one. done.
  - eapply owns_mono; [apply owns_forward_to_origin|]. intros [response|] own ->; [|done].
    by repeat owns_one.
Qed.

(** ** Bodies *)

Variable timer : Instant -> Instant -> bool.

Lemma still_poll_body kind p body : still (poll_body timer kind p body).
Proof. unfold poll_body. still_code. Qed.

Lemma spec_poll_body kind p body : spec (poll_body timer kind p body) (fun o _ => o <> None).
Proof.
  unfold poll_body. repeat spec_one.
  match goal with a : _ * _ * _ |- _ => destruct a as [[out n] body'] end.
  spec_one. destruct (n =? 0); by repeat spec_one.
Qed.

Definition copy_flights (c : option (BodyCopy Finish)) : list Flight :=
  from_option (fun c => option_list (fin_flight (finish c))) [] c.

Lemma owns_tee_step length p c os copied r :
  tee_step (E := BodyError unit) length p c os copied ->
  owns (run_outcomes os) (owned (copy_flights (Some c)) r)
    (fun o own => o = Some tt /\ own = owned (copy_flights copied) r).
Proof. intros []; first [by apply owns_ret|by apply (owns_run_outcome (Called _ _))|by apply (owns_run_outcome (Dropped _))]. Qed.

(** the stream of a response owns the flight of its copy, and ends it *)
Lemma owns_stream_body polls stream r :
  owns (stream_body timer polls stream) (owned (copy_flights (copy (stream_tee stream))) r)
    (fun _ own => own = owned [] r).
Proof.
  revert stream. induction polls as [|p polls IH]; intros [length [tl cp] idle].
  { destruct cp as [c|]; [cbn; by repeat owns_one|by apply owns_ret]. }
  cbn [stream_body stream_idle stream_tee stream_length copy]. owns_one.
  eapply owns_still; [apply still_poll_body|apply spec_poll_body|].
  intros [[out idle']|] _ Ho; [|done]. destruct cp as [c|].
  - destruct (Tee_poll_next_step out tl c) as (os & copied & Hstep & ->). owns_one.
    eapply owns_mono; [by eapply owns_tee_step|]. intros o own [-> ->].
    apply (IH {| stream_length := length; stream_tee := {| tee_length := tl; copy := copied |};
                 stream_idle := idle' |}).
  - rewrite Tee_poll_next_spent. owns_one. apply owns_ret.
    apply (IH {| stream_length := length; stream_tee := {| tee_length := tl; copy := None |};
                 stream_idle := idle' |}).
Qed.

(** ** Background revalidation *)

Lemma still_collect_polls polls body : still (collect_polls timer polls body).
Proof.
  revert body. induction polls as [|p polls IH]; intros body; cbn [collect_polls]; [apply still_ret|].
  apply still_bind; [apply still_poll_body|]. intros [out body'].
  destruct out as [|[chunk|e|]]; still_code; apply IH.
Qed.

Lemma spec_collect_polls polls body : spec (collect_polls timer polls body) (fun o _ => o <> None).
Proof.
  revert body. induction polls as [|p polls IH]; intros body; cbn [collect_polls]; [by apply spec_ret|].
  spec_one. eapply spec_mono; [apply spec_poll_body|]. intros [[out body']|] l Ho; [|done].
  destruct out as [|[chunk|e|]]; [apply IH| |by spec_one..].
  spec_one. eapply spec_mono; [apply IH|]. intros [its|] l' Hits; [by spec_one|done].
Qed.

Variable collect_limited : N -> list (Item (BodyError unit)) -> option Bytes.

Lemma owns_refresh req key entry parts polls r :
  owns (refresh app timer collect_limited req key entry parts polls) (owned [] r)
    (fun o own => o = Some tt /\ own = owned [] r).
Proof.
  unfold refresh. cbv zeta. destruct (_ =? _).
  - owns_one. apply owns_store_freshen. intros _. by owns_one.
  - owns_one. eapply owns_still; [apply still_store_plan|apply quiet_store_plan|].
    intros o l (_ & st & -> & Hst). destruct st as [st|]; [|by owns_one].
    owns_one. eapply owns_still; [apply still_new_origin_body|apply spec_new_origin_body|].
    intros [idle|] _ Hidle; [|done]. owns_one.
    eapply owns_still; [apply still_collect_polls|apply spec_collect_polls|].
    intros [its|] _ Hits; [|done].
    destruct (collect_limited _ _) as [collected|]; [|by owns_one].
    pose proof (owns_run_finish {| fin_key := storing_key st; fin_vary := storing_vary st;
      fin_storable := storing_storable st; fin_status := head_status (Head_from_upstream parts);
      fin_headers := stored_fields (forwardable_fields (Head_from_upstream parts));
      fin_flight := storing_flight st |} collected r) as Hfin.
    simpl in Hfin. rewrite (Hst st eq_refl) in *. exact Hfin.
Qed.

Lemma owns_background_task task outcome polls :
  owns (background_task app timer collect_limited task outcome polls)
    (owned [] [task_guard task]) (fun _ own => own = owned [] []).
Proof.
  unfold background_task, send_to_origin. owns_one. owns_one. apply owns_step.
  intros c sh x sh' [= <- <-]. eexists. split; [by apply move_quiet|].
  owns_one. owns_one. owns_one.
  assert (owns (on_cache (fun _ s => Done (tt, RefreshGuard_drop (task_guard task) s)) no_effects)
    (owned [] [task_guard task]) (fun _ own => own = owned [] [])) as Hdrop
    by (by apply owns_end_refresh).
  destruct outcome as [parts| |]; repeat owns_one; try exact Hdrop.
  eapply owns_mono; [apply owns_refresh|]. intros o own [-> ->]. exact Hdrop.
Qed.
End handler.
