(* ===== verification/AssetTasks.v ===== *)
(** Requests for local assets ([src/assets.rs]) as tasks: the path is resolved
    ([Assets]), the file is found in the store or read and stored, and the
    response is counted. Each call to the file system is awaited, so the others
    run meanwhile and the client may leave. SHA-256 in hexadecimal and the MIME
    type of a name are parameters. *)

From stdpp Require Import base tactics numbers option list gmap strings.
From Stdlib Require Import Ascii.
From S2P Require Import Prelude RustStd Http Directives Moka Store Examples Coalesce Upstream Body Provenance Metrics MetricLabels Response Assets Tasks StoreTasks TaskLogic Proxy ProxyAnswers ProxyExamples ProxyReturns Ownership.

Local Open Scope N_scope.

(** the file system at each call of a request *)
Record FsCalls := {
  fs_canonical_root : Fs;
  fs_canonical_file : Fs;
  fs_meta : Fs;
  fs_content : Fs;
}.

(** ** The handler *)

Section assets.
Context `{Hops : HttpOps, Yops : HyperOps, Pops : PromOps,
  EntriesOps : !MokaOps Key Entry, IndexOps : !MokaOps PrimaryKey Index}.
(** [hex::encode(Sha256::digest(..))] *)
Variable sha256_hex : Bytes -> string.
(** [mime_guess::from_path(..).first_or_octet_stream()] *)
Variable mime_type : string -> string.

(** the quoted first half of the digest *)
Definition asset_etag (content : Bytes) : string :=
  (String Directives.dquote (str_slice (sha256_hex content) 0 32) +:+
     String Directives.dquote "")%string.

(** [resolve_asset], with its two awaits *)
Definition resolve (fs : FsCalls) (root requested : string) : Task (option string) :=
  match push_segments (str_split "/" requested) "" with
  | None => mret None
  | Some relative =>
      _ ← await outside None;
      match canonicalize (fs_canonical_root fs) root with
      | None => mret None
      | Some root =>
          _ ← await outside None;
          match canonicalize (fs_canonical_file fs) (PathBuf_push root relative) with
          | None => mret None
          | Some resolved => mret (if starts_with resolved root then Some resolved else None)
          end
      end
  end.

(** the asset and whether it was stored, or [None] for an error *)
Definition load (fs : FsCalls) (path : string) : Task (option (Asset * string)) :=
  _ ← await outside None;
  match fs_metadata (fs_meta fs) path with
  | Some (Some modified_now, len_now) =>
      stored ← on_cache (fun c s => Done (stored_asset (instant_now c) path s, s)) no_effects;
      match (asset ← stored;
             if (modified asset =? modified_now)%Z && (len asset =? len_now)
             then Some asset else None) with
      | Some asset => mret (Some (asset, HIT))
      | None =>
          _ ← await outside None;
          match fs_read (fs_content fs) path with
          | None => mret None
          | Some content =>
              asset ← store_insert_asset path content (asset_etag content) modified_now;
              mret (Some (asset, MISS))
          end
      end
  | _ => mret None
  end.

Definition NOT_FOUND : StatusCode := 404.
Definition NOT_MODIFIED : StatusCode := 304.
Definition OK : StatusCode := 200.

Definition not_found : HttpResponse Empty_set :=
  Build_HttpResponse NOT_FOUND HeaderMap_new (FullBody "not found").

(** the response to a request for an asset that was found *)
Definition found_response (filename : string) (req : HttpRequest) (asset : Asset)
    (status : string) : HttpResponse Empty_set :=
  let not_modified :=
    is_some_and (HeaderMap_get (req_headers req) header.IF_NONE_MATCH ≫= to_str)
      (fun v => String.eqb v (etag asset)) in
  if not_modified then
    Build_HttpResponse NOT_MODIFIED
      (append_headers [(header.ETAG, etag asset); (CACHE_STATUS, status)] HeaderMap_new)
      NoBody
  else
    Build_HttpResponse OK
      (HeaderMap_insert header.CONTENT_TYPE (mime_type filename)
         (append_headers [(header.ETAG, etag asset);
            (header.CACHE_CONTROL, "public, max-age=86400"%string);
            (CACHE_STATUS, status)] HeaderMap_new))
      (FullBody (content asset)).

Definition asset_response (fs : FsCalls) (asset_path filename : string) (req : HttpRequest)
    : Task (HttpResponse Empty_set) :=
  path ← resolve fs asset_path filename;
  match path with
  | None => mret not_found
  | Some path =>
      loaded ← load fs path;
      match loaded with
      | None => mret not_found
      | Some (asset, status) => mret (found_response filename req asset status)
      end
  end.

(** the label under which an asset's response is counted *)
Definition asset_label (response : HttpResponse Empty_set) : string :=
  unwrap_or (cache_label (resp_headers response)) BYPASS.

Definition serve_asset (fs : FsCalls) (asset_path filename : string) (req : HttpRequest)
    : Task (HttpResponse Empty_set) :=
  response ← asset_response fs asset_path filename req;
  let cache := asset_label response in
  _ ← on_metrics (observe AssetRoute cache (resp_status response))
        [Counted AssetRoute cache (resp_status response)];
  mret response.

(** ** What it answers *)

(** the path of a request for an asset *)
Definition resolved (fs : FsCalls) (root requested : string) : option string :=
  resolve_asset (fs_canonical_root fs) (fs_canonical_file fs) root requested.

Section answers.
Context `{Log : OriginLog}.
Variables (clocked : Clock -> Prop) (sees : Clock -> Store -> Prop).
Context {G : Type} `{Gh : !Ghost G}.
Variable ok : G -> Store -> Prop.
Hypothesis K : kept clocked sees ok.

Abbreviation rspec := (rspec clocked sees ok).

(** how [load] came by an asset, when a step saw the store [s] *)
Definition loaded_as (fs : FsCalls) (path : string) (asset : Asset) (label : string) : Prop :=
  exists len_now c s, fs_metadata (fs_meta fs) path = Some (Some (modified asset), len_now) /\
    sees c s /\ let stored := stored_asset (instant_now c) path s in
    (label = HIT /\ stored = Some asset /\ len asset = len_now \/
     label = MISS /\ fs_read (fs_content fs) path = Some (content asset) /\
     etag asset = asset_etag (content asset) /\ len asset = str_len (content asset) /\
     forall a, stored = Some a -> modified a <> modified asset \/ len a <> len_now).

(** the file's metadata, its modified time or its content cannot be read *)
Definition unreadable (fs : FsCalls) (path : string) : Prop :=
  (forall modified len, fs_metadata (fs_meta fs) path <> Some (Some modified, len)) \/
  fs_read (fs_content fs) path = None.

Lemma resolve_spec fs root requested :
  rspec (resolve fs root requested)
    (fun o l => l = [] /\ forall p, o = Some p -> p = resolved fs root requested).
Proof.
  unfold resolve, resolved, resolve_asset.
  destruct (push_segments _ _) as [relative|]; simpl;
    [|apply rspec_ret; by split; [|intros ? [= <-]]].
  apply rspec_bind, rspec_await; [|done].
  destruct (canonicalize _ root) as [real|]; simpl;
    [|apply rspec_ret; by split; [|intros ? [= <-]]].
  apply rspec_bind, rspec_await; [|done].
  destruct (canonicalize _ _) as [p|]; simpl; apply rspec_ret; by split; [|intros ? [= <-]].
Qed.

Lemma store_insert_asset_spec path c et m :
  file_read path c et ->
  rspec (store_insert_asset path c et m) (fun o l => l = [] /\ exists asset, o = Some asset /\
    content asset = c /\ etag asset = et /\ modified asset = m /\ len asset = str_len c).
Proof.
  intros Hread. apply rspec_bind, rspec_on_cache. intros g c1 s [asset stored] s' _ Hk Hs.
  assert (ok g s' /\ exists s0, asset = new_asset c et m s0) as (Hk' & s0 & ->).
  { cbv zeta in Hs. destruct (enabled s && _) eqn:E; injection Hs as <- <- <-; [|by eauto].
    apply andb_true_iff in E as [He Hl%N.leb_le]. split; [|by eexists].
    by apply (kept_asset _ _ _ K). }
  split; [done|]. split; [constructor|]. apply rspec_bind.
  apply (rspec_mono _ _ _ _ (fun o l => l = [] /\ o = Some tt)).
  2:{ intros o l [-> ->]. apply rspec_ret. split; [done|]. by eexists. }
  destruct stored; [|by apply rspec_ret]. apply rspec_on_cache.
  intros g2 c2 s2 [] s2' _ Hk2 [= <-]. split; [by apply (kept_evict _ _ _ K)|]. by split; [constructor|].
Qed.

(** the log has the content that the file had when it was read *)
Definition read_logged (fs : FsCalls) : Prop :=
  forall path b, fs_read (fs_content fs) path = Some b -> file_read path b (asset_etag b).

Lemma load_spec fs path :
  read_logged fs ->
  rspec (load fs path) (fun o l => l = [] /\ forall r, o = Some r ->
    match r with
    | Some (asset, label) =>
        loaded_as fs path asset label /\ file_read path (content asset) (etag asset)
    | None => unreadable fs path
    end).
Proof.
  intros Hlog. apply rspec_bind, rspec_await; [|done].
  destruct (fs_metadata _ path) as [[[md|] len_now]|] eqn:Emeta;
    [|apply rspec_ret; split; [done|]; intros ? [= <-]; left; congruence..].
  apply rspec_bind, rspec_on_cache. intros g c s stored s' Hs Hk [= <- <-].
  split; [done|]. split; [constructor|]. destruct (_ ≫= _) as [asset|] eqn:Est.
  - apply rspec_ret. split; [done|]. intros ? [= <-].
    apply bind_Some in Est as (a & Ha & Hif).
    destruct (_ && _) eqn:E in Hif; [|done]. injection Hif as ->.
    apply andb_true_iff in E as [Hm%Z.eqb_eq Hl%N.eqb_eq]. subst.
    split; [|by eapply (kept_stored_asset _ _ _ K)]. exists (len asset), c, s. eauto 10.
  - apply rspec_bind, rspec_await; [|done].
    destruct (fs_read _ path) as [b|] eqn:Er; [|apply rspec_ret; split; [done|]; intros ? [= <-]; by right].
    apply rspec_bind. eapply rspec_mono; [by apply store_insert_asset_spec, Hlog|].
    intros o l (-> & asset & -> & <- & He & <- & Hl). apply rspec_ret. split; [done|].
    intros ? [= <-]. split; [|by rewrite He; apply Hlog]. exists len_now, c, s. split; [done|]. split; [done|]. right.
    do 4 (split; [done|]). intros a Ha. rewrite Ha in Est. simpl in Est.
    destruct (_ && _) eqn:E in Est; [done|].
    apply andb_false_iff in E as [Hm%Z.eqb_neq|Hn%N.eqb_neq]; auto.
Qed.

(** the client has this asset already *)
Definition matches (req : HttpRequest) (asset : Asset) : Prop :=
  exists v, HeaderMap_get (req_headers req) header.IF_NONE_MATCH = Some v /\
    to_str v = Some (etag asset).

(** the ways an asset request is answered *)
Inductive asset_answer (fs : FsCalls) (root filename : string) (req : HttpRequest)
    : HttpResponse Empty_set -> Prop :=
| asset_missing :
    (forall path, resolved fs root filename = Some path -> unreadable fs path) ->
    asset_answer fs root filename req not_found
| asset_found path asset label r :
    resolved fs root filename = Some path -> loaded_as fs path asset label ->
    cache_label (resp_headers r) = Some label ->
    HeaderMap_get_all (resp_headers r) header.ETAG = [etag asset] ->
    matches req asset /\ resp_status r = NOT_MODIFIED /\ resp_body r = NoBody \/
    ~ matches req asset /\ resp_status r = OK /\ resp_body r = FullBody (content asset) /\
      HeaderMap_get_all (resp_headers r) header.CONTENT_TYPE = [mime_type filename] ->
    asset_answer fs root filename req r.

Context {Hlaws : HttpLaws}.

Lemma not_found_label : cache_label (resp_headers not_found) = None.
Proof. unfold cache_label. simpl. by rewrite HeaderMap_get_head, HeaderMap_get_all_new. Qed.

(** the answer to a request for an asset is what was read from the file that
    its path resolves to, or its absence *)
Definition asset_sent (fs : FsCalls) (root filename : string) (r : HttpResponse Empty_set)
    : Prop :=
  r = not_found \/
  exists path b et, resolved fs root filename = Some path /\ file_read path b et /\
    HeaderMap_get_all (resp_headers r) header.ETAG = [et] /\
    (resp_body r = NoBody \/ resp_body r = FullBody b).

Lemma found_sent fs root filename req path asset label :
  resolved fs root filename = Some path -> file_read path (content asset) (etag asset) ->
  asset_sent fs root filename (found_response filename req asset label).
Proof.
  intros Hp Hread. right. exists path, (content asset), (etag asset).
  unfold found_response. cbv zeta. destruct (is_some_and _ _); simpl;
    rewrite ?HeaderMap_get_all_insert, ?HeaderMap_get_all_append, ?HeaderMap_get_all_new; auto.
Qed.

Lemma found_answer fs root filename req path asset label :
  resolved fs root filename = Some path -> loaded_as fs path asset label ->
  asset_answer fs root filename req (found_response filename req asset label).
Proof.
  intros Hp Hl.
  assert (List.find (String.eqb label) CACHE_LABELS = Some label) as Hlab
    by (by destruct Hl as (? & ? & ? & _ & _ & [(-> & _)|(-> & _)])).
  unfold found_response. cbv zeta. destruct (is_some_and _ _) eqn:Em;
    (eapply asset_found; [exact Hp|exact Hl|..]); unfold cache_label; simpl;
    rewrite ?HeaderMap_get_head, ?HeaderMap_get_all_insert, ?HeaderMap_get_all_append,
      ?HeaderMap_get_all_new; try done.
  - left. split; [|done]. apply is_some_and_true in Em as (x & Hx & He).
    apply String.eqb_eq in He. subst x. apply bind_Some in Hx as (v & ? & ?). by exists v.
  - right. split; [|done]. intros (v & Hv & Hs). rewrite Hv in Em. simpl in Em.
    rewrite Hs in Em. simpl in Em. by rewrite String.eqb_refl in Em.
Qed.

Lemma asset_response_spec fs root filename req :
  read_logged fs ->
  rspec (asset_response fs root filename req) (fun o l => l = [] /\ forall r, o = Some r ->
    asset_answer fs root filename req r /\ asset_sent fs root filename r).
Proof.
  intros Hlog. apply rspec_bind. eapply rspec_mono; [apply resolve_spec|].
  intros [p|] l [-> Hp]; [|done]. specialize (Hp p eq_refl). subst p.
  destruct (resolved fs root filename) as [path|] eqn:Epath.
  2:{ apply rspec_ret. split; [done|]. intros r [= <-].
      split; [|by left]. constructor. by rewrite Epath. }
  apply rspec_bind. eapply rspec_mono; [by apply load_spec|].
  intros [loaded|] l [-> Hl]; [|done]. specialize (Hl loaded eq_refl).
  destruct loaded as [[asset label]|]; apply rspec_ret; (split; [done|]); intros r [= <-].
  - destruct Hl. split; [by eapply found_answer|by eapply found_sent].
  - split; [|by left]. constructor. intros ? Heq. rewrite Epath in Heq. by injection Heq as <-.
Qed.

Lemma serve_asset_spec fs root filename req :
  read_logged fs ->
  rspec (serve_asset fs root filename req) (fun o l => forall r, o = Some r ->
    l = [Counted AssetRoute (asset_label r) (resp_status r)] /\
    asset_answer fs root filename req r /\ asset_sent fs root filename r).
Proof.
  intros Hlog. apply rspec_bind. eapply rspec_mono; [by apply asset_response_spec|].
  intros [r|] l [-> Hr]; [|done]. apply rspec_bind, rspec_on_metrics; [by repeat constructor|].
  apply rspec_ret. intros ? [= <-]. split; [done|auto].
Qed.
End answers.

(** ** It returns, and owns nothing *)

Lemma still_store_insert_asset path c et m : still (store_insert_asset path c et m).
Proof.
  apply still_bind; [|intros [asset []]; still_code].
  apply still_access; [|done]. intros c1 s. cbv zeta. by destruct (enabled s && _).
Qed.

Lemma still_serve_asset fs root filename req : still (serve_asset fs root filename req).
Proof.
  unfold serve_asset, asset_response, resolve, load. still_code. apply still_store_insert_asset.
Qed.

Section returns.
Context `{!HttpLaws, !PromLaws, !MokaLaws Key Entry, !MokaLaws PrimaryKey Index}.
Variables (app : AppState) (max : Duration) (cancels : Prop).

Abbreviation returns := (returns app max cancels).

(** two steps more than the rest, which a client that leaves cuts off *)
Lemma returns_then {A} k (m : Task A) Q :
  returns k m Q -> (forall k, Q k None) -> returns (2 + k) (_ ← await outside None; m) Q.
Proof.
  intros Hm HQ. apply returns_bind.
  eapply returns_call; [apply returns_await|lia|]. replace (2 + k - 2)%nat with k by lia.
  intros [[]|] _; [done|apply HQ].
Qed.

Lemma resolve_returns fs root requested :
  returns 4 (resolve fs root requested) (fun _ _ => True).
Proof.
  unfold resolve. destruct (push_segments _ _); [|by apply returns_ret].
  apply (returns_then 2); [|done]. destruct (canonicalize _ root); [|by apply returns_ret].
  apply (returns_then 0); [|done]. destruct (canonicalize _ _); by apply returns_ret.
Qed.

Lemma load_returns fs path : returns 7 (load fs path) (fun _ _ => True).
Proof.
  apply (returns_then 5); [|done].
  destruct (fs_metadata _ path) as [[[md|] n]|]; [|by apply returns_ret..].
  apply returns_bind, (returns_access _ _ _ 4 (fun c s => (stored_asset (instant_now c) path s, s))).
  intros c s Hs. split; [done|]. cbn [fst]. destruct (_ ≫= _); [by apply returns_ret|].
  apply (returns_then 2); [|done]. destruct (fs_read _ path) as [b|]; [|by apply returns_ret].
  apply returns_bind, returns_bind. apply returns_on_cache. intros c1 _ s1 Hs1. cbv zeta.
  destruct (enabled s1 && _); do 2 eexists; (split; [reflexivity|]); (split; [|split; [done|]]).
  - by apply modest_insert_asset.
  - apply returns_bind, (returns_access _ _ _ 0 (fun c s => (tt, run_pending_tasks (instant_now c) s))).
    intros c2 s2 Hs2. split; [by apply modest_run_pending_tasks|]. by apply returns_ret, returns_ret.
  - done.
  - by apply returns_bind, returns_ret, returns_ret, returns_ret.
Qed.

Lemma serve_asset_returns fs root filename req :
  returns 12 (serve_asset fs root filename req) (fun _ _ => True).
Proof.
  apply returns_bind, returns_bind.
  eapply returns_call; [apply resolve_returns|lia|]. intros [path|] _; [|done]. simpl.
  assert (forall k r, returns (S k)
    (_ ← on_metrics (observe AssetRoute (asset_label r) (resp_status r))
           [Counted AssetRoute (asset_label r) (resp_status r)]; mret r) (fun _ _ => True)) as Hcount.
  { intros k r. apply returns_bind, returns_on_metrics; [|by repeat constructor|by apply returns_ret].
    intros m Hm. apply labelled_observe; [done|]. unfold asset_label.
    destruct (cache_label (resp_headers r)) as [label|] eqn:El; simpl;
      [by eapply cache_label_declared|by apply (bool_decide_unpack _)]. }
  destruct path as [path|]; [|by apply returns_ret, Hcount]. apply returns_bind.
  eapply returns_call; [apply load_returns|lia|]. intros [[[asset label]|]|] _; [..|done];
    by apply returns_ret, Hcount.
Qed.
End returns.

(** C31. Every asset request ends in one of three ways, whatever the other
    requests and the file system do meanwhile. When the path does not
    resolve or the file cannot be read, the answer is 404 with no cache label.
    Otherwise the asset is the stored copy ([HIT]) if the file's modified time
    and length are what they were, and a fresh read of the file ([MISS]) if
    not; the answer is a 304 without a body when the client's [If-None-Match]
    is exactly its entity tag, and else a 200 with its content, both with its
    entity tag and its label. The request is counted once, under its label, or
    under [BYPASS] without one, and has no other effect. *)
Theorem asset_response_cases `{!HttpLaws} env fs root filename req s r s' :
  run env (serve_asset fs root filename req) s = Done (Some r, s') ->
  asset_answer (at_step env (tick s)) fs root filename req r /\
  (cache_label (resp_headers r) = None <-> r = not_found) /\
  trace s' = trace s ++ [Counted AssetRoute (asset_label r) (resp_status r)].
Proof.
  intros Hrun.
  assert (rspec (shown env (tick s)) (at_step env (tick s)) any_store
    (serve_asset fs root filename req) _) as Hspec
    by exact (serve_asset_spec _ _ _ (any_store_kept env (tick s)) fs root filename req (fun _ _ _ => I)).
  destruct (any_store_run _ _ _ _ _ _ Hspec Hrun) as (l & Hl & Hr).
  destruct (Hr r eq_refl) as (-> & Hans & _). split; [exact Hans|]. split; [|exact Hl].
  destruct Hans as [_|path asset label r _ _ Hlab]; [by rewrite not_found_label|].
  rewrite Hlab. split; [done|]. intros ->. by rewrite not_found_label in Hlab.
Qed.
End assets.

(** ** An example: a file is read, and found in the store by the next request *)

Definition ex_fs : Fs := {|
  canonicalize p := Some p;
  fs_metadata p := if String.eqb p "/app/a/b.css" then Some (Some 7%Z, 5) else None;
  fs_read p := if String.eqb p "/app/a/b.css" then Some "hello"%string else None;
|}.

Definition ex_calls : FsCalls := {|
  fs_canonical_root := ex_fs; fs_canonical_file := ex_fs; fs_meta := ex_fs; fs_content := ex_fs |}.

Definition ex_hash (_ : Bytes) : string := "0123456789abcdef0123456789abcdef0123".
Definition ex_mime (_ : string) : string := "text/css".

Definition ex_serve (s : TaskState)
    : option (@HttpResponse RefHttp Empty_set * TaskState * TaskState) :=
  match run (page_env 1) (serve_asset ex_hash ex_mime ex_calls "/app" "a/b.css" page_request) s with
  | Done (Some r, s') => Some (r, s, s')
  | _ => None
  end.

Definition ex_first : option (HttpResponse Empty_set * TaskState * TaskState) :=
  s ← page_start Examples.ex_empty; ex_serve s.
Definition ex_second : option (HttpResponse Empty_set * TaskState * TaskState) :=
  '(_, _, s) ← ex_first; ex_serve s.

Definition ex_answer (o : option (HttpResponse Empty_set * TaskState * TaskState))
    : option (string * StatusCode * option Bytes) :=
  '(r, _, _) ← o;
  Some (asset_label r, resp_status r, match resp_body r with FullBody b => Some b | _ => None end).

Example ex_first_answer : ex_answer ex_first = Some (MISS, 200, Some "hello"%string).
Proof. vm_compute. reflexivity. Qed.
Example ex_second_answer : ex_answer ex_second = Some (HIT, 200, Some "hello"%string).
Proof. vm_compute. reflexivity. Qed.

Lemma asset_response_cases_witness :
  exists r s s', run (page_env 1)
      (serve_asset ex_hash ex_mime ex_calls "/app" "a/b.css" page_request) s = Done (Some r, s') /\
    trace s' = trace s ++ [Counted AssetRoute HIT 200] /\
    exists path asset, resolved ex_calls "/app" "a/b.css" = Some path /\
      loaded_as ex_hash (at_step (page_env 1) (tick s)) ex_calls path asset HIT /\
      resp_body r = FullBody (content asset).
Proof.
  pose proof ex_second_answer as Hans. unfold ex_second in Hans.
  destruct ex_first as [[[r0 s0] s]|]; [|discriminate]. cbn [mbind option_bind] in Hans.
  unfold ex_serve in Hans. destruct (run _ _ s) as [[[r|] s']|] eqn:Hrun; [|discriminate..].
  injection Hans as Hlab Hst Hb. exists r, s, s'. split; [exact Hrun|].
  destruct (asset_response_cases ex_hash ex_mime _ _ _ _ _ _ _ _ Hrun) as (Ha & _ & Ht).
  rewrite Hlab, Hst in Ht. split; [exact Ht|].
  destruct Ha as [_|path asset label r Hp Hl Hc _ Hcase]; [discriminate Hst|].
  exists path, asset. split; [exact Hp|].
  assert (label = HIT) as -> by (unfold asset_label in Hlab; rewrite Hc in Hlab; exact Hlab).
  split; [exact Hl|]. destruct Hcase as [(_ & _ & Hn)|(_ & _ & Hf & _)]; [|exact Hf].
  rewrite Hn in Hb. discriminate.
Defined.
