(* ===== verification/Reports.v ===== *)
(** The reports of the process ([src/lib.rs]): [/health] and [/metrics], as
    tasks. They read the counters and the size of the cache one after the
    other, while the others run. [gather] stands for prometheus' text encoder,
    whose output is [None] when it fails. *)

From stdpp Require Import base tactics numbers option list gmap strings.
From Stdlib Require Import Ascii QArith.
From S2P Require Import Prelude RustStd Http Directives Policy Moka Store StoreInvariant Coalesce Upstream Body Provenance Metrics MetricLabels Response Tasks StoreTasks TaskLogic Proxy ProxyReturns Ownership.

Local Open Scope N_scope.

(** ** [/health] *)

(** the numbers of the report; [hit_ratio] before its rounding to an [f64] *)
Record Health := {
  health_counts_of : CacheCounts;
  health_items : N;
  health_bytes : N;
  hit_ratio : Q;
}.

Definition from_cache_total (counts : CacheCounts) : N * N :=
  let from_cache := u64_add (u64_add (u64_add (hits counts) (revalidation_count counts))
    (stale_count counts)) (coalesced counts) in
  (from_cache, u64_add from_cache (misses counts)).

Definition hit_ratio_of (counts : CacheCounts) : Q :=
  let '(from_cache, total) := from_cache_total counts in
  if 0 <? total then (Z.of_N from_cache # 1) / (Z.of_N total # 1) else 0.

Section reports.
Context `{Hops : HttpOps, Yops : HyperOps, Pops : PromOps,
  EntriesOps : !MokaOps Key Entry, IndexOps : !MokaOps PrimaryKey Index}.

(** the readings of the counters, as one group *)
Definition read_counts : Task CacheCounts :=
  step (fun _ sh =>
    '(counts, m) ← cache_counts (sh_metrics sh);
    Done (counts, {| sh_cache := sh_cache sh; sh_flights := sh_flights sh; sh_metrics := m |}))
    no_effects.

Definition health_check : Task Health :=
  counts ← read_counts;
  items ← store_entry_count;
  bytes ← store_weighted_size;
  mret {| health_counts_of := counts; health_items := items; health_bytes := bytes;
          hit_ratio := hit_ratio_of counts |}.

(** ** [/metrics] *)

Definition CONTENT_TYPE : string := "text/plain; version=0.0.4; charset=utf-8".

(** the counters' exposition, with the gauges read from the store now *)
Definition encode (gather : Metrics -> option Bytes) : Task Bytes :=
  bytes ← store_weighted_size;
  _ ← on_metrics (fun m => Done (set_cache_bytes (gauge_value bytes) m)) [];
  entries ← store_entry_count;
  _ ← on_metrics (fun m => Done (set_cache_entries (gauge_value entries) m)) [];
  buffer ← step (fun _ sh => Done (gather (sh_metrics sh), sh)) no_effects;
  mret (unwrap_or buffer ""%string).

Definition metrics_endpoint (gather : Metrics -> option Bytes) : Task (HttpResponse Empty_set) :=
  text ← encode gather;
  mret (Build_HttpResponse 200
    (HeaderMap_insert header.CONTENT_TYPE CONTENT_TYPE HeaderMap_new) (FullBody text)).

(** ** Alone *)

#[local] Transparent step.
Lemma result_read_counts c sh :
  result c read_counts sh =
  match cache_counts (sh_metrics sh) with
  | Done (counts, m) =>
      Done (Some counts, {| sh_cache := sh_cache sh; sh_flights := sh_flights sh; sh_metrics := m |})
  | Panic => Panic
  end.
Proof. unfold result, read_counts, step. cbn. by destruct (cache_counts _) as [[counts m]|]. Qed.
#[local] Opaque step.

(** the report of a process in which nothing else happens *)
Lemma result_health_check c sh counts m :
  cache_counts (sh_metrics sh) = Done (counts, m) ->
  exists health sh', result c health_check sh = Done (Some health, sh') /\
    health_counts_of health = counts /\ hit_ratio health = hit_ratio_of counts.
Proof.
  intros Hc. unfold health_check, store_entry_count, store_weighted_size.
  repeat (rewrite ?result_bind, ?result_read_counts, ?result_on_cache, ?result_ret, ?Hc;
            cbn [sh_cache with_cache]).
  by do 2 eexists.
Qed.

(** ** They change nothing but the gauges *)

Lemma still_read_counts : still read_counts.
Proof.
  intros own. apply owns_step. intros c sh x sh' ([counts m] & _ & [= <- <-])%Run_bind_Done.
  exists own. split; [by constructor|done].
Qed.

Lemma still_health_check : still health_check.
Proof.
  unfold health_check, store_entry_count, store_weighted_size. still_code. apply still_read_counts.
Qed.

Lemma still_metrics_endpoint gather : still (metrics_endpoint gather).
Proof.
  unfold metrics_endpoint, encode, store_entry_count, store_weighted_size. still_code.
  intros own. apply owns_step. intros c sh x sh' [= <- <-]. exists own. split; [by constructor|done].
Qed.

Section rely.
Context `{Log : OriginLog}.
Variables (clocked : Clock -> Prop) (sees : Clock -> Store -> Prop).
Context {G : Type} `{Gh : !Ghost G}.
Variable ok : G -> Store -> Prop.
Hypothesis K : kept clocked sees ok.

Abbreviation keeps m := (rspec clocked sees ok m (fun _ l => l = [])) (only parsing).

Lemma keeps_bind {A B} (m : Task A) (f : A -> Task B) :
  keeps m -> (forall a, keeps (f a)) -> keeps (m ≫= f).
Proof.
  intros Hm Hf. apply rspec_bind. eapply rspec_mono; [exact Hm|]. by intros [a|] l ->; [apply Hf|].
Qed.

Lemma store_entry_count_keeps : keeps store_entry_count.
Proof.
  apply keeps_bind; [|intros []]; apply rspec_on_cache; intros g c s a s' _ Hk [= <- <-];
    (split; [|by split; [constructor|]]); [by apply (kept_evict _ _ _ K)|done].
Qed.

Lemma store_weighted_size_keeps : keeps store_weighted_size.
Proof.
  apply keeps_bind; [|intros []]; apply rspec_on_cache; intros g c s a s' _ Hk [= <- <-];
    (split; [|by split; [constructor|]]); [by apply (kept_evict _ _ _ K)|done].
Qed.

Lemma health_check_keeps : keeps health_check.
Proof.
  apply keeps_bind.
  { apply rspec_step. intros g c sh x sh' _ Hk ([counts m] & _ & [= <- <-])%Run_bind_Done.
    split; [exact Hk|]. by split; [constructor|]. }
  intros counts. apply keeps_bind; [apply store_entry_count_keeps|]. intros items.
  apply keeps_bind; [apply store_weighted_size_keeps|]. intros bytes. by apply rspec_ret.
Qed.

Lemma metrics_endpoint_keeps gather : keeps (metrics_endpoint gather).
Proof.
  apply keeps_bind; [|intros text; by apply rspec_ret].
  apply keeps_bind; [apply store_weighted_size_keeps|]. intros bytes.
  apply keeps_bind; [by apply rspec_on_metrics|]. intros [].
  apply keeps_bind; [apply store_entry_count_keeps|]. intros count.
  apply keeps_bind; [by apply rspec_on_metrics|]. intros [].
  apply keeps_bind; [|intros text; by apply rspec_ret].
  apply rspec_step. intros g c sh x sh' _ Hk [= <- <-]. split; [exact Hk|]. by split; [constructor|].
Qed.
End rely.

(** ** They return *)

Section returns.
Context `{!HttpLaws, !PromLaws, !MokaLaws Key Entry, !MokaLaws PrimaryKey Index}.
Variables (app : AppState) (max : Duration) (cancels : Prop).

Abbreviation ends_in k m := (returns app max cancels k m (fun _ o => o <> None)) (only parsing).

(** one part of a report after the other *)
Lemma ends_in_bind {A B} k k' (m : Task A) (f : A -> Task B) :
  ends_in k m -> (forall a, ends_in k' (f a)) -> ends_in (k + k')%nat (m ≫= f).
Proof.
  intros Hm Hf. apply returns_bind. eapply (returns_call _ _ _ _ k); [exact Hm|lia|].
  intros [a|] Ho; [|done]. replace (k + k' - k)%nat with k' by lia. apply Hf.
Qed.

Lemma ends_in_ret {A} k (a : A) : ends_in k (mret a).
Proof. by apply returns_ret. Qed.

(** tidying the cache and reading a size of it *)
Lemma size_ends (f : Store -> N) :
  ends_in 2 (_ ← on_cache (fun c s => Done (tt, run_pending_tasks (instant_now c) s)) no_effects;
             on_cache (fun _ s => Done (f s, s)) no_effects).
Proof.
  apply (ends_in_bind 1 1); [|intros []].
  - apply (returns_access _ _ _ 0 (fun c s => (tt, run_pending_tasks (instant_now c) s))).
    intros c s Hs. split; [by apply modest_run_pending_tasks|done].
  - by apply (returns_access _ _ _ 0 (fun _ s => (f s, s))).
Qed.

Lemma gauge_ends f :
  (forall m, well_labelled m -> well_labelled (f m)) ->
  ends_in 1 (on_metrics (fun m => Done (f m)) []).
Proof. intros Hf. apply returns_on_metrics; [|done|done]. intros m Hm. eauto. Qed.

Lemma health_check_returns : ends_in 5 health_check.
Proof.
  apply (ends_in_bind 1 4); [|intros counts; apply (ends_in_bind 2 2); [apply size_ends|intros items]].
  - apply returns_step. intros c _ sh [Hs Hm].
    destruct (labelled_cache_counts _ Hm) as (counts & m & -> & Hm').
    do 2 eexists. split; [reflexivity|]. by split_and!.
  - apply (ends_in_bind 2 0); [apply size_ends|]. intros bytes. apply ends_in_ret.
Qed.

Lemma metrics_endpoint_returns gather : ends_in 7 (metrics_endpoint gather).
Proof.
  apply (ends_in_bind 7 0); [|intros text; apply ends_in_ret].
  apply (ends_in_bind 2 5); [apply size_ends|intros bytes].
  apply (ends_in_bind 1 4); [apply gauge_ends; intros m []; by constructor|intros []].
  apply (ends_in_bind 2 2); [apply size_ends|intros count].
  apply (ends_in_bind 1 1); [apply gauge_ends; intros m []; by constructor|intros []].
  apply (ends_in_bind 1 0); [|intros text; apply ends_in_ret].
  apply returns_step. intros c _ sh Hsh. by do 2 eexists.
Qed.
End returns.
End reports.
