(* ===== verification/System.v ===== *)
(** The whole proxy: any number of requests, to the origin or for assets,
    streams of responses and background revalidations at work on one shared state, one step
    at a time, with new requests and reports of health and metrics arriving in
    between. Each thread is a task of [Proxy], [AssetTasks] or [Reports], so a step is one access to the shared state,
    and the accesses of two lookups, insertions or freshenings interleave
    ([StoreTasks]). What the threads know of the store ([ProxySharing]) only
    grows, so what one has found stays true while the others run.
    [work] is what the threads do, with awaits that are given up or without;
    [world_step] adds arrivals. The theorems compose those about one task: in
    every reachable world the store is sound and what it has served may be
    shared ([answers_are_shareable]), and if no request arrives the work ends,
    without a deadlock or anything left in flight, and, where neither ages nor
    the upstream timeout overflow, without a panic ([work_ends]). *)

From stdpp Require Import base tactics numbers option list gmap strings sets relations.
From S2P Require Import Prelude RustStd Http Directives Policy Moka Store StoreInvariant StoreTheorems Examples RefreshGuards Coalesce Upstream Body Provenance Metrics MetricLabels Response Tasks StoreTasks TaskLogic Proxy ProxyAccounts ProxyAnswers ProxyExamples ProxySharing ProxyReturns Ownership Assets AssetTasks Reports.

Local Open Scope N_scope.

Section system.
Context `{Hops : HttpOps, Log : OriginLog, Yops : HyperOps, Pops : PromOps,
  EntriesOps : !MokaOps Key Entry, IndexOps : !MokaOps PrimaryKey Index}.
Variable app : AppState.
(** tokio's timer, and what http-body-util collects *)
Variable timer : Instant -> Instant -> bool.
Variable collect_limited : N -> list (Item (BodyError unit)) -> option Bytes.
(** SHA-256 in hexadecimal, the MIME type of a name, and the directory of assets *)
Variables (sha256_hex : Bytes -> string) (mime_type : string -> string) (asset_root : string).
(** a bound on the ages that origins announce, if there is one *)
Variable bound : option Duration.

Abbreviation Response := (HttpResponse ClientStream) (only parsing).
Abbreviation AssetResponse := (HttpResponse Empty_set) (only parsing).

(** a request, with what it meets outside the process *)
Inductive Request :=
| Proxied (req : HttpRequest) (peers : Peers)
| ForAsset (req : HttpRequest) (filename : string) (fs : FsCalls).

(** how a request ended: with a response, or with its client gone *)
Inductive Answer :=
| ProxyAnswer (req : HttpRequest) (peers : Peers) (o : option Response)
| AssetAnswer (req : HttpRequest) (filename : string) (fs : FsCalls) (o : option AssetResponse).

Definition answers_to (a : Answer) : Request :=
  match a with
  | ProxyAnswer req peers _ => Proxied req peers
  | AssetAnswer req filename fs _ => ForAsset req filename fs
  end.

(** a handler, of the proxy or of an asset; and what is on its own: the body of a
    response on its way to the client, a background revalidation, or a report *)
Inductive Thread :=
| Handling (req : HttpRequest) (peers : Peers) (m : Task Response)
| Serving (req : HttpRequest) (filename : string) (fs : FsCalls) (m : Task AssetResponse)
| Detached (m : Task unit).

(** the requests that have arrived, and how they have ended so far *)
Record World := {
  w_shared : Shared;
  w_threads : list Thread;
  w_requests : list Request;
  w_answers : list Answer;
}.

(** the times that the clock may show: if announced ages are bounded, neither
    such an age nor the upstream timeout overflows at them *)
Definition times (c : Clock) : Prop :=
  clock_ok (system_now c) /\ forall max, bound = Some max -> fair app max c.

(** what an origin may announce *)
Definition announced (outcome : OriginOutcome) : Prop :=
  forall max, bound = Some max -> modest_outcome max outcome.

(** what a step may see: the time, and a store with generations left *)
Definition sees (c : Clock) (s : Store) : Prop := times c /\ next_generation s < u64_MAX.

(** one step of a task, and the revalidations that it spawns. If awaits can be
    given up, one may also time out, or be cancelled *)
Definition advance {A} (given_up : Prop) (sh : Shared) (m : Task A) (sh' : Shared) (m' : Task A)
    (ts : list RefreshTask) : Prop :=
  match m with
  | Step f effects rest =>
      exists c x, sees c (sh_cache sh) /\ f c sh = Done (x, sh') /\ m' = rest x /\
        ts = spawns (effects x)
  | Await ready dropped rest =>
      sh' = sh /\ ts = [] /\
      (m' = rest /\ (ready sh = true \/ given_up) \/ m' = dropped /\ given_up)
  | _ => False
  end.

(** a spawned revalidation, with what the origin will answer it *)
Definition revalidates (t : RefreshTask) (th : Thread) : Prop :=
  exists outcome polls,
    th = Detached (background_task app timer collect_limited t outcome polls) /\
    announced outcome /\ forall parts, outcome = Responded parts -> exchanged parts (items polls).

(** the stream that a handler leaves, with what the origin's body returns to the
    polls that are made of it before it is dropped *)
Definition streams (outcome : OriginOutcome) (r : Response) (ths : list Thread) : Prop :=
  match resp_body r with
  | StreamedBody stream =>
      exists polls, ths = [Detached (stream_body timer polls stream)] /\
        forall parts, outcome = Responded parts -> exchanged parts (items polls)
  | _ => ths = []
  end.

Inductive thread_step (given_up : Prop) (sh : Shared) : Thread -> Shared -> list Thread ->
    list Answer -> Prop :=
| handler_advances req peers m sh' m' ts ths :
    advance given_up sh m sh' m' ts -> Forall2 revalidates ts ths ->
    thread_step given_up sh (Handling req peers m) sh' (Handling req peers m' :: ths) []
| handler_done req peers r ths :
    streams (origin_outcome peers) r ths ->
    thread_step given_up sh (Handling req peers (Return r)) sh ths
      [ProxyAnswer req peers (Some r)]
| handler_dropped req peers :
    thread_step given_up sh (Handling req peers Cancelled) sh [] [ProxyAnswer req peers None]
| asset_advances req filename fs m sh' m' ts ths :
    advance given_up sh m sh' m' ts -> Forall2 revalidates ts ths ->
    thread_step given_up sh (Serving req filename fs m) sh' (Serving req filename fs m' :: ths) []
| asset_done req filename fs r :
    thread_step given_up sh (Serving req filename fs (Return r)) sh []
      [AssetAnswer req filename fs (Some r)]
| asset_dropped req filename fs :
    thread_step given_up sh (Serving req filename fs Cancelled) sh []
      [AssetAnswer req filename fs None]
| detached_advances m sh' m' ts ths :
    advance given_up sh m sh' m' ts -> Forall2 revalidates ts ths ->
    thread_step given_up sh (Detached m) sh' (Detached m' :: ths) []
| detached_returns : thread_step given_up sh (Detached (Return tt)) sh [] [].

Inductive work (given_up : Prop) : World -> World -> Prop :=
| work_step w l1 th l2 sh' ths answers :
    w_threads w = l1 ++ th :: l2 -> thread_step given_up (w_shared w) th sh' ths answers ->
    work given_up w {| w_shared := sh'; w_threads := l1 ++ ths ++ l2;
                     w_requests := w_requests w; w_answers := answers ++ w_answers w |}.

(** what changes the shared state besides the threads: the cache may tidy
    itself *)
Inductive aside (sh : Shared) : Shared -> Prop :=
| aside_tidies now :
    aside sh {| sh_cache := run_pending_tasks now (sh_cache sh);
                sh_flights := sh_flights sh; sh_metrics := sh_metrics sh |}.

(** a report of health or metrics, whatever the text encoder does *)
Inductive report : Task unit -> Prop :=
| report_health : report (_ ← health_check; mret tt)
| report_metrics gather : report (_ ← metrics_endpoint gather; mret tt).

Inductive world_step : World -> World -> Prop :=
| world_works w w' : work True w w' -> world_step w w'
| world_arrives w req peers :
    logged (origin_outcome peers) -> announced (origin_outcome peers) ->
    world_step w {| w_shared := w_shared w;
                    w_threads := Handling req peers (forward_to_upstream app req peers)
                                   :: w_threads w;
                    w_requests := Proxied req peers :: w_requests w;
                    w_answers := w_answers w |}
| world_asks w req filename fs :
    read_logged sha256_hex fs ->
    world_step w {| w_shared := w_shared w;
                    w_threads := Serving req filename fs
                      (serve_asset sha256_hex mime_type fs asset_root filename req) :: w_threads w;
                    w_requests := ForAsset req filename fs :: w_requests w;
                    w_answers := w_answers w |}
| world_reports w m :
    report m ->
    world_step w {| w_shared := w_shared w; w_threads := Detached m :: w_threads w;
                    w_requests := w_requests w; w_answers := w_answers w |}
| world_aside w sh' :
    aside (w_shared w) sh' ->
    world_step w {| w_shared := sh'; w_threads := w_threads w;
                    w_requests := w_requests w; w_answers := w_answers w |}.

(** the process has just started *)
Definition initial (w : World) : Prop :=
  exists size_mb ttl s m, Store_new size_mb ttl = Done s /\ ttl <= Duration_MAX /\
    Metrics_new = Done m /\
    w = {| w_shared := {| sh_cache := s; sh_flights := Flights_default;
                          sh_metrics := m |};
           w_threads := []; w_requests := []; w_answers := [] |}.

(** ** Safety *)

Context `{Hlaws : !HttpLaws, !MokaLaws Key Entry, !MokaLaws PrimaryKey Index}.
(** what a revalidation collects is the body up to its end *)
Hypothesis collect_whole : forall limit its b, collect_limited limit its = Some b ->
  exists chunks rest, its = map Chunk chunks ++ End :: rest /\ b = concat_bytes chunks.

Lemma sound_kept_system : kept times sees sound_by.
Proof. apply sound_kept; [by intros c s []..|by intros c []]. Qed.

(** an answer with a justification in a sound store, and a stream that stores
    what the origin sent *)
Definition answer_good (req : HttpRequest) (peers : Peers) (r : Response) : Prop :=
  answer_to app times sees sound_by req peers r /\ good_stream times req (origin_outcome peers) r.

Definition ended_good (a : Answer) : Prop :=
  match a with
  | ProxyAnswer req peers o => forall r, o = Some r -> answer_good req peers r
  | AssetAnswer req filename fs o =>
      forall r, o = Some r -> asset_sent fs asset_root filename r
  end.

(** with what is known of the store *)
Definition thread_good (o : Origins) (th : Thread) : Prop :=
  match th with
  | Handling req peers m =>
      logged (origin_outcome peers) /\
      rspec_from times sees sound_by o m
        (fun a _ => forall r, a = Some r -> answer_good req peers r)
  | Serving req filename fs m =>
      rspec_from times sees sound_by o m
        (fun a _ => forall r, a = Some r -> asset_sent fs asset_root filename r)
  | Detached m => rspec_from times sees sound_by o m (fun _ _ => True)
  end.

Record good_by (o : Origins) (w : World) : Prop := {
  wg_store : sound_by o (sh_cache (w_shared w));
  wg_threads : Forall (thread_good o) (w_threads w);
  wg_answers : Forall ended_good (w_answers w);
}.

Definition world_good (w : World) : Prop := exists o, good_by o w.

Lemma thread_good_grows o o' th : grows o o' -> thread_good o th -> thread_good o' th.
Proof.
  intros Ho. destruct th; simpl; [|by apply rspec_from_grows..].
  intros [? ?]. split; [done|]. by eapply rspec_from_grows.
Qed.

#[local] Transparent rspec_from.
Lemma rspec_advance {A gu} o sh (m : Task A) sh' m' ts Q :
  advance gu sh m sh' m' ts -> sound_by o (sh_cache sh) ->
  rspec_from times sees sound_by o m (fun a _ => Q a) ->
  exists o', grows o o' /\ sound_by o' (sh_cache sh') /\
    rspec_from times sees sound_by o' m' (fun a _ => Q a) /\
    Forall (good_task times sees sound_by) ts.
Proof.
  intros Hm Hs Hspec. destruct m as [a| | |X f eff rest|rd d r]; cbn in Hm, Hspec; try done.
  2:{ destruct Hm as (-> & -> & Hm), Hspec. exists o. split; [done|].
      by destruct Hm as [[-> _]|[-> _]]. }
  destruct Hm as (c & x & Hc & Hf & -> & ->).
  destruct (Hspec o c sh x sh') as (o' & Ho & ? & Hg & ?); [done..|].
  exists o'. split; [done|]. split; [done|]. split; [done|].
  apply Forall_forall. intros t (e & He & Ht)%list_elem_of_omap.
  eapply Forall_forall in Hg; [|exact He]. destruct e; try done. by injection Ht as ->.
Qed.
#[local] Opaque rspec_from.

#[local] Transparent rspec.
(** a specification holds whatever is known *)
Lemma rspec_known {A} o (m : Task A) Q :
  rspec times sees sound_by m Q -> rspec_from times sees sound_by o m Q.
Proof. intros Hm. apply Hm. Qed.
#[local] Opaque rspec.

Lemma revalidates_good o ts ths :
  Forall2 revalidates ts ths -> Forall (good_task times sees sound_by) ts ->
  Forall (thread_good o) ths.
Proof.
  induction 1 as [|t th ts ths (outcome & polls & -> & _ & Hlog) _ IH]; [done|].
  intros [Ht Hts]%Forall_cons. constructor; [|auto]. simpl. apply rspec_known.
  eapply rspec_mono; [by apply (background_task_spec app _ _ _ _ _ _ _ _ collect_whole sound_kept_system)|done].
Qed.

Lemma advance_good {A gu} o sh (m : Task A) sh' m' ts ths Q (th' : Thread) :
  advance gu sh m sh' m' ts -> Forall2 revalidates ts ths -> sound_by o (sh_cache sh) ->
  rspec_from times sees sound_by o m (fun a _ => Q a) ->
  (forall o', rspec_from times sees sound_by o' m' (fun a _ => Q a) -> thread_good o' th') ->
  exists o', grows o o' /\ sound_by o' (sh_cache sh') /\ Forall (thread_good o') (th' :: ths) /\
    Forall ended_good [].
Proof.
  intros Hm Hts Hs Hspec Hth'.
  destruct (rspec_advance _ _ _ _ _ _ _ Hm Hs Hspec) as (o' & Ho & Hs' & Hspec' & Hgood).
  exists o'. split; [done|]. split; [done|]. split; [|done].
  constructor; [auto|]. by eapply revalidates_good.
Qed.

Lemma thread_step_good {gu} o sh th sh' ths answers :
  thread_step gu sh th sh' ths answers -> sound_by o (sh_cache sh) -> thread_good o th ->
  exists o', grows o o' /\ sound_by o' (sh_cache sh') /\ Forall (thread_good o') ths /\
    Forall ended_good answers.
Proof.
  intros Hstep Hs Hth.
  destruct Hstep as [req peers m sh' m' ts ths Hm Hts|req peers r ths Hstream|req peers
                    |req filename fs m sh' m' ts ths Hm Hts|req filename fs r|req filename fs|m sh' m' ts ths Hm Hts|]; simpl in Hth.
  - destruct Hth as [Hlog Hspec]. eapply advance_good; [exact Hm|exact Hts|exact Hs|exact Hspec|by split].
  - destruct Hth as [Hlog Hr%rspec_from_ret_inv]. specialize (Hr r eq_refl).
    exists o. split; [done|]. split; [done|].
    split; [|constructor; [by intros ? [= <-]|done]].
    unfold streams in Hstream. destruct (resp_body r) as [| |stream] eqn:Eb; [by subst ths..|].
    destruct Hstream as (polls & -> & Hits). constructor; [|done]. simpl. apply rspec_known.
    eapply rspec_mono; [by eapply (streamed_body_spec _ _ _ _ sound_kept_system); [apply Hr|..]|done].
  - exists o. split; [done|]. split; [done|]. by repeat constructor.
  - eapply advance_good; [exact Hm|exact Hts|exact Hs|exact Hth|done].
  - apply rspec_from_ret_inv in Hth. exists o. split; [done|]. split; [done|].
    split; [done|]. constructor; [exact Hth|done].
  - exists o. split; [done|]. split; [done|]. by repeat constructor.
  - eapply advance_good; [exact Hm|exact Hts|exact Hs|exact Hth|done].
  - by exists o.
Qed.

Lemma report_spec m : report m -> rspec times sees sound_by m (fun _ _ => True).
Proof.
  pose proof sound_kept_system as K. intros [|gather]; apply rspec_bind;
    (eapply rspec_mono; [by first [apply (health_check_keeps _ _ _ K)|apply (metrics_endpoint_keeps _ _ _ K)]|]);
    (intros [x|] l _; [by apply rspec_ret|done]).
Qed.

Lemma world_step_good w w' : world_step w w' -> world_good w -> world_good w'.
Proof.
  intros Hstep [o [Hs Hths Hans]].
  destruct Hstep as [w w' [w0 l1 th l2 sh' ths answers Hw Hth]|w req peers Hlog Hann|w req filename fs Hread
                    |w m Hm|w sh' Haside].
  - rewrite Hw in Hths. apply Forall_app in Hths as [H1 [Ht H2]%Forall_cons].
    destruct (thread_step_good _ _ _ _ _ _ Hth Hs Ht) as (o' & Ho & Hs' & Hths' & Hans').
    pose proof (fun th => thread_good_grows o o' th Ho) as Hgrow.
    exists o'. constructor; simpl; [done| |by rewrite Forall_app].
    rewrite !Forall_app. split_and!; [by eapply Forall_impl|done|by eapply Forall_impl].
  - exists o. constructor; simpl; [done| |done]. constructor; [|done]. split; [done|].
    apply rspec_known.
    eapply rspec_mono; [by apply (handler_answers app _ _ _ req sound_kept_system)|].
    intros a l Hr r ->. by apply Hr.
  - exists o. constructor; simpl; [done| |done]. constructor; [|done]. apply rspec_known.
    eapply rspec_mono; [by apply (serve_asset_spec _ _ _ _ _ sound_kept_system)|].
    intros a l Hr r ->. by apply Hr.
  - exists o. constructor; simpl; [done| |done]. constructor; [|done]. apply rspec_known.
    eapply rspec_mono; [by apply report_spec|done].
  - exists o. constructor; simpl; [|done..].
    destruct Haside; simpl. by apply sound_run_pending_tasks.
Qed.

Lemma world_good_reachable w0 w : initial w0 -> rtc world_step w0 w -> world_good w.
Proof.
  intros (size_mb & ttl & s & m & Hnew & Httl & _ & ->).
  destruct (sound_Store_new _ _ _ Hnew Httl) as [o Ho].
  assert (world_good {| w_shared := {| sh_cache := s; sh_flights := Flights_default; sh_metrics := m |}; w_threads := [];
    w_requests := []; w_answers := [] |}) as H0 by (by exists o; constructor).
  intros Hrun. revert H0. induction Hrun as [w|w w1 w2 Hs _ IH]; [done|]. eauto using world_step_good.
Qed.

(** C1. Nothing is shared that may not be. However many requests, streams and
    revalidations run at once, and however their accesses interleave, everything
    in the store was let into it by [storable], with the whole body that the
    origin sent. Every answer that has been given has its reason, and the
    stored response behind an answer labelled [HIT], [COALESCED] or [STALE] was
    stored for the same URI, by a request with the same values for its [Vary]
    names, without cookies, and with [public] if that request carried
    credentials. An answer labelled [REVALIDATED] has the status and the body of
    such a response. And the answer to a request for an asset is 404, or the
    content, or the entity tag alone, that was read from the very file its path
    resolves to. *)
Theorem answers_are_shareable w0 w :
  initial w0 -> rtc world_step w0 w ->
  sound_store (sh_cache (w_shared w)) /\
  (forall req peers r, ProxyAnswer req peers (Some r) ∈ w_answers w ->
    answer_to app times sees sound_by req peers r /\
    forall label, HeaderMap_get (resp_headers r) CACHE_STATUS = Some label ->
      (label ∈ [HIT; COALESCED; STALE] ->
         exists stored, cached_as times stored label r /\ shareable req stored) /\
      (label = REVALIDATED ->
         exists stored, shareable req stored /\ resp_status r = status stored /\
           resp_body r = FullBody (body stored))) /\
  (forall req filename fs r, AssetAnswer req filename fs (Some r) ∈ w_answers w ->
     asset_sent fs asset_root filename r).
Proof.
  intros Hw0 Hrun. destruct (world_good_reachable _ _ Hw0 Hrun) as [o [Hs _ Hans]].
  rewrite Forall_forall in Hans. split; [by exists o|].
  split; [|intros req filename fs r Hin; by apply (Hans _ Hin)]. intros req peers r Hin.
  destruct (Hans _ Hin r eq_refl) as [Hr _]. split; [done|]. intros label Hlabel. split.
  - intros Hl. eapply answer_shareable; [..|exact Hr|exact Hlabel|exact Hl].
  - intros ->. eapply revalidated_shareable; [..|exact Hr|exact Hlabel].
Qed.

(** ** What the threads own *)

Definition thread_owns (th : Thread) (own : Owned) : Prop :=
  match th with
  | Handling req peers m => owns m own (owns_response [])
  | Serving _ _ _ m => owns m own (fun _ own' => own' = owned [] [])
  | Detached m => owns m own (fun _ own' => own' = owned [] [])
  end.

(** all flights that exist, and all guards of revalidations *)
Definition all_flights (l : list Owned) : list (Flight * GuardPhase) := concat (map own_flights l).
Definition all_refreshes (l : list Owned) : list RefreshGuard := concat (map own_refreshes l).

(** the shared flights and the refreshing set are those of the guards that
    exist *)
Definition accounted (sh : Shared) (flights_owned : list (Flight * GuardPhase))
    (guards_owned : list RefreshGuard) : Prop :=
  (exists fw, rtc flight_step flight_init fw /\ flights fw = sh_flights sh /\
     flights_owned ≡ₚ (map_to_list (guards fw)).*2) /\
  guards_ok {| rw_store := sh_cache sh; rw_guards := guards_owned |}.

Lemma accounted_perm sh f f' g g' : f ≡ₚ f' -> g ≡ₚ g' -> accounted sh f g -> accounted sh f' g'.
Proof.
  intros Hf Hg [(fw & Hr & Hfl & Hp) [Hnd Hiff]]. split.
  - exists fw. split; [done|]. split; [done|]. by rewrite <- Hf.
  - split; simpl in *; [by rewrite <- Hg|]. intros k. by rewrite <- Hg.
Qed.

(** a flight that is owned is the one under its channel *)
Lemma guard_under (fw : @FlightWorld FlightKey _ _) g p l :
  rtc flight_step flight_init fw -> (g, p) :: l ≡ₚ (map_to_list (guards fw)).*2 ->
  guards fw !! sender g = Some (g, p) /\ l ≡ₚ (map_to_list (delete (sender g) (guards fw))).*2.
Proof.
  intros Hr%flights_ok_reachable Hp.
  assert ((g, p) ∈ (map_to_list (guards fw)).*2) as Hin by (rewrite <- Hp; left).
  apply list_elem_of_fmap in Hin as ([c [g' p']] & [= <- <-] & Hc%elem_of_map_to_list).
  pose proof (fo_guard _ Hr _ _ _ Hc) as [Hs _]. simpl in Hs. subst c. split; [done|].
  apply (Permutation_cons_inv (a := (g, p))). rewrite Hp.
  rewrite <- (insert_delete_id (guards fw) (sender g) (g, p)) at 1 by done.
  by rewrite map_to_list_insert by apply lookup_delete_eq.
Qed.

Lemma accounted_move sh own sh' own' ts f r :
  move sh own sh' own' ts -> accounted sh (own_flights own ++ f) (own_refreshes own ++ r) ->
  accounted sh' (own_flights own' ++ f) (own_refreshes own' ++ map task_guard ts ++ r).
Proof.
  intros Hmove [(fw & Hr & Hfl & Hp) Hg].
  destruct Hmove as [own sh' Hf Hc|key may_lead fl rg sh' Hc Hf|g fl rg sh' Hc Hf
                    |g fl rg sh' Hc Hf|entry o fl rg sh' Hf Hc|g fl rg sh' Hf Hc|t fl rg]; simpl in *.
  - split; [by exists fw; rewrite Hf|]. destruct Hg. split; simpl; [done|]. by rewrite Hc.
  - split; [|by rewrite Hc].
    set (j := fst (join key may_lead (sh_flights sh))).
    exists {| flights := sh_flights sh'; guards := match j with
      | Lead g => <[sender g := (g, Held)]> (guards fw) | _ => guards fw end |}.
    split; [|split; [done|]].
    + eapply rtc_r; [exact Hr|]. apply (step_join fw key may_lead j).
      rewrite Hf, Hfl. apply surjective_pairing.
    + simpl. pose proof (join_cases key may_lead (sh_flights sh)) as Hcase. fold j in Hcase.
      destruct j as [g|w|]; [|done..]. destruct Hcase as (_ & _ & ->). simpl.
      rewrite map_to_list_insert; [simpl; by rewrite Hp|].
      apply flights_ok_reachable in Hr. rewrite <- Hfl.
      destruct (guards fw !! next_channel (flights fw)) as [[g' p']|] eqn:E; [|done].
      apply (fo_guard _ Hr) in E. lia.
  - split; [|by rewrite Hc]. destruct (guard_under _ _ _ _ Hr Hp) as [Hgf Hl].
    exists {| flights := sh_flights sh'; guards := <[sender g := (g, Removed)]> (guards fw) |}.
    split; [|split; [done|]].
    + eapply rtc_r; [exact Hr|]. rewrite Hf, <- Hfl. by apply step_drop.
    + simpl. rewrite <- insert_delete_eq, map_to_list_insert by apply lookup_delete_eq.
      simpl. by rewrite Hl.
  - split; [|by rewrite Hc]. destruct (guard_under _ _ _ _ Hr Hp) as [Hgf Hl].
    exists {| flights := sh_flights sh'; guards := delete (sender g) (guards fw) |}.
    split; [|split; [done|exact Hl]].
    eapply rtc_r; [exact Hr|]. rewrite Hf, <- Hfl. by apply step_drop_fields.
  - split; [by exists fw; rewrite Hf|]. rewrite <- app_assoc.
    by apply (guards_ok_step _ _ (refresh_start entry {| rw_store := sh_cache sh;
      rw_guards := rg ++ r |} _ _ Hc)) in Hg.
  - split; [by exists fw; rewrite Hf|]. rewrite Hc.
    by apply (guards_ok_step _ _ (refresh_drop {| rw_store := sh_cache sh; rw_guards := _ |}
      [] g (rg ++ r) eq_refl)) in Hg.
  - split; [by exists fw|]. destruct Hg as [Hnd Hiff]. simpl in *.
    assert (rg ++ task_guard t :: r ≡ₚ task_guard t :: rg ++ r) as Hperm
      by (by rewrite Permutation_middle).
    split; simpl; [by rewrite Hperm|]. intros k. by rewrite Hperm.
Qed.

#[local] Transparent owns.
Lemma owns_advance {A gu} sh (m : Task A) sh' m' ts own Q :
  advance gu sh m sh' m' ts -> owns m own Q -> exists own', move sh own sh' own' ts /\ owns m' own' Q.
Proof.
  intros Hm Ho. destruct m as [a| | |X f eff rest|rd d r]; cbn in Hm, Ho; try done.
  - destruct Hm as (c & x & _ & Hf & -> & ->). by eapply Ho.
  - destruct Hm as (-> & -> & Hm), Ho as (? & ? & _). exists own. split; [by constructor|].
    by destruct Hm as [[-> _]|[-> _]].
Qed.
#[local] Opaque owns.

(** the spawned revalidations own their guards *)
Lemma revalidates_owns ts ths :
  Forall2 revalidates ts ths ->
  Forall2 thread_owns ths (map (fun t => owned [] [task_guard t]) ts) /\
  all_flights (map (fun t => owned [] [task_guard t]) ts) = [] /\
  all_refreshes (map (fun t => owned [] [task_guard t]) ts) = map task_guard ts.
Proof.
  induction 1 as [|t th ts ths (outcome & polls & -> & _ & _) _ (H1 & H2 & H3)]; [by repeat constructor|].
  split; [constructor; [apply owns_background_task|done]|].
  unfold all_flights, all_refreshes in *. simpl. by rewrite H2, H3.
Qed.

(** what is owned after a step of a thread, when the others own [f] and [r] *)
Definition owns_after (sh : Shared) (ths : list Thread) (f : list (Flight * GuardPhase))
    (r : list RefreshGuard) : Prop :=
  exists l, Forall2 thread_owns ths l /\ accounted sh (all_flights l ++ f) (all_refreshes l ++ r).

Lemma advance_owned {A gu} sh (m : Task A) sh' m' ts ths own Q (th' : Thread) f r :
  advance gu sh m sh' m' ts -> Forall2 revalidates ts ths -> owns m own Q ->
  (forall own', owns m' own' Q -> thread_owns th' own') ->
  accounted sh (own_flights own ++ f) (own_refreshes own ++ r) ->
  owns_after sh' (th' :: ths) f r.
Proof.
  intros Hm Hts Ho Hth Hacc. destruct (owns_advance _ _ _ _ _ _ _ Hm Ho) as (own' & Hmove & Ho').
  destruct (revalidates_owns _ _ Hts) as (H1 & H2 & H3).
  eexists (own' :: _). split; [constructor; [by apply Hth|exact H1]|].
  unfold all_flights, all_refreshes in *. simpl. rewrite H2, H3, app_nil_r, <- app_assoc.
  by eapply accounted_move.
Qed.

Lemma thread_step_owned {gu} o sh th sh' ths answers own f r :
  thread_step gu sh th sh' ths answers -> thread_good o th -> thread_owns th own ->
  accounted sh (own_flights own ++ f) (own_refreshes own ++ r) -> owns_after sh' ths f r.
Proof.
  intros Hstep Hgood Hown Hacc.
  destruct Hstep as [req peers m sh' m' ts ths Hm Hts|req peers r0 ths Hstream|req peers
                    |req filename fs m sh' m' ts ths Hm Hts|req filename fs r0|req filename fs|m sh' m' ts ths Hm Hts|]; simpl in Hown.
  - by eapply advance_owned.
  - unfold streams in Hstream. apply owns_ret_inv in Hown as ->. unfold held, holds in Hacc.
    destruct (resp_body r0) as [| |stream] eqn:Eb; [subst ths; by exists []..|].
    destruct Hstream as (polls & -> & _).
    exists [owned (copy_flights (copy (stream_tee stream))) []].
    split; [constructor; [apply owns_stream_body|done]|].
    unfold all_flights, all_refreshes. simpl. by rewrite !app_nil_r.
  - apply owns_cancelled_inv in Hown as ->. by exists [].
  - by eapply advance_owned.
  - apply owns_ret_inv in Hown as ->. by exists [].
  - apply owns_cancelled_inv in Hown as ->. by exists [].
  - by eapply advance_owned.
  - apply owns_ret_inv in Hown as ->. by exists [].
Qed.

Definition world_owned (w : World) : Prop :=
  exists l, Forall2 thread_owns (w_threads w) l /\
    accounted (w_shared w) (all_flights l) (all_refreshes l).

Lemma accounted_same sh sh' f r :
  sh_flights sh' = sh_flights sh -> refreshing (sh_cache sh') = refreshing (sh_cache sh) ->
  accounted sh f r -> accounted sh' f r.
Proof.
  intros Hf Hr. unfold accounted, guards_ok. simpl. by rewrite Hf, Hr.
Qed.

Lemma world_step_owned w w' : world_step w w' -> world_good w -> world_owned w -> world_owned w'.
Proof.
  intros Hstep [o Hgood] (l & Hths & Hacc).
  destruct Hstep as [w w' [w0 l1 th l2 sh' ths answers Hw Hth]|w req peers Hlog Hann|w req filename fs Hread
                    |w m Hm|w sh' Haside].
  - pose proof (wg_threads _ _ Hgood) as Hgoods. rewrite Hw in Hths, Hgoods.
    apply Forall_app in Hgoods as [_ [Hg _]%Forall_cons].
    apply Forall2_app_inv_l in Hths as (o1 & o2 & H1 & H2 & ->).
    apply Forall2_cons_inv_l in H2 as (own & o3 & Ho & H3 & ->).
    assert (forall A (g : Owned -> list A),
      concat (map g (o1 ++ own :: o3)) ≡ₚ g own ++ concat (map g (o1 ++ o3))) as Hperm.
    { intros A g. rewrite !map_app, !concat_app. simpl.
      by rewrite !app_assoc, (Permutation_app_comm (concat _) (g own)). }
    destruct (thread_step_owned _ _ _ _ _ _ own (all_flights (o1 ++ o3)) (all_refreshes (o1 ++ o3))
      Hth Hg Ho) as (l' & Hl' & Hacc').
    { eapply accounted_perm; [apply Hperm|apply Hperm|exact Hacc]. }
    exists (o1 ++ l' ++ o3). split; [simpl; by repeat apply Forall2_app|].
    eapply accounted_perm; [| |exact Hacc']; unfold all_flights, all_refreshes;
      rewrite !map_app, !concat_app, !app_assoc; by rewrite (Permutation_app_comm (concat (map _ l'))).
  - exists (owned [] [] :: l). split; [|done]. constructor; [apply owns_handler|done].
  - exists (owned [] [] :: l). split; [|done]. constructor; [apply still_serve_asset|done].
  - exists (owned [] [] :: l). split; [|done]. constructor; [|done]. destruct Hm;
      (apply still_bind; [first [apply still_health_check|apply still_metrics_endpoint]|]);
      intros x; apply still_ret.
  - exists l. split; [done|]. destruct Haside; (eapply accounted_same; [..|exact Hacc]); done.
Qed.

(** ** What becomes of the requests *)

(** the request that a thread is to answer *)
Definition handles (th : Thread) : list Request :=
  match th with
  | Handling req peers _ => [Proxied req peers]
  | Serving req filename fs _ => [ForAsset req filename fs]
  | _ => []
  end.

Definition handled (ths : list Thread) : list Request := concat (map handles ths).

Lemma handled_cons th ths : handled (th :: ths) = handles th ++ handled ths.
Proof. done. Qed.

(** every request that has arrived is being handled, or has ended, once *)
Definition world_answered (w : World) : Prop :=
  w_requests w ≡ₚ handled (w_threads w) ++ map answers_to (w_answers w).

Lemma revalidates_handled ts ths : Forall2 revalidates ts ths -> handled ths = [].
Proof. induction 1 as [|t th ts ths (outcome & polls & -> & _) _ IH]; [done|exact IH]. Qed.

Lemma thread_step_handled {gu} sh th sh' ths answers :
  thread_step gu sh th sh' ths answers -> handles th = handled ths ++ map answers_to answers.
Proof.
  destruct 1 as [req peers m sh' m' ts ths Hm Hts%revalidates_handled|req peers r ths Hstream|req peers
                |req filename fs m sh' m' ts ths Hm Hts%revalidates_handled|req filename fs r
                |req filename fs|m sh' m' ts ths Hm Hts%revalidates_handled|];
    try done.
  - rewrite handled_cons. by rewrite Hts.
  - unfold streams in Hstream. destruct (resp_body r); [by subst..|].
    by destruct Hstream as (polls & -> & _).
  - rewrite handled_cons. by rewrite Hts.
  - rewrite handled_cons. by rewrite Hts.
Qed.

Lemma world_step_answered w w' : world_step w w' -> world_answered w -> world_answered w'.
Proof.
  unfold world_answered, handled. intros Hstep Hw.
  destruct Hstep as [w w' [w0 l1 th l2 sh' ths answers Heq Hth]|w req peers Hlog Hann|w req filename fs Hread
                    |w m Hm|w sh' Haside];
    simpl; [|by rewrite Hw..|done|done].
  rewrite Hw, Heq, !map_app, !concat_app. simpl.
  rewrite (thread_step_handled _ _ _ _ _ Hth). unfold handled. solve_Permutation.
Qed.

Lemma world_answered_reachable w0 w : initial w0 -> rtc world_step w0 w -> world_answered w.
Proof.
  intros Hw0. refine (rtc_ind_r (fun w => world_answered w) w0 _ _ w).
  - destruct Hw0 as (size_mb & ttl & s & m & _ & _ & _ & ->). unfold world_answered. simpl. constructor.
  - intros w1 w2 _. apply world_step_answered.
Qed.

(** ** The work ends *)

(** a task that only takes steps, and spawns nothing *)
Fixpoint straight {A} (m : Task A) : Prop :=
  match m with
  | Return _ | Panicked => True
  | Cancelled | Await _ _ _ => False
  | Step f effects rest => forall x, spawns (effects x) = [] /\ straight (rest x)
  end.

#[local] Transparent Task_then step read_clock on_cache on_flights on_metrics lift_run release
  pause note.
Lemma straight_bind {A B} (m : Task A) (f : A -> Task B) :
  straight m -> (forall a, straight (f a)) -> straight (m ≫= f).
Proof.
  intros Hm Hf. induction m as [a| | |X g eff rest IH|rd d IHd r IHr]; cbn in *; [auto|done..| |done].
  intros x. destruct (Hm x). auto.
Qed.

Lemma straight_step {A} (f : Clock -> Shared -> Run (A * Shared)) eff :
  (forall a, spawns (eff a) = []) -> straight (step f eff).
Proof. done. Qed.

Lemma straight_release flight : straight (release flight).
Proof. by destruct flight. Qed.

Lemma straight_read_clock : straight read_clock.
Proof. done. Qed.

Lemma straight_pause : straight pause.
Proof. done. Qed.

Lemma straight_lift_run {A} (r : Run A) : straight (lift_run r).
Proof. by destruct r. Qed.

Lemma straight_on_metrics f eff : spawns eff = [] -> straight (on_metrics f eff).
Proof. done. Qed.

Lemma straight_on_cache {A} (f : Clock -> Store -> Run (A * Store)) eff :
  (forall a, spawns (eff a) = []) -> straight (on_cache f eff).
Proof. done. Qed.
#[local] Opaque Task_then step read_clock on_cache on_flights on_metrics lift_run release pause
  note.

Ltac straight_code :=
  repeat match goal with
         | |- straight (mret _) => done
         | |- straight (mbind _ _) => apply straight_bind; [|intros ?]
         | |- straight read_clock => apply straight_read_clock
         | |- straight pause => apply straight_pause
         | |- straight (lift_run _) => apply straight_lift_run
         | |- straight (on_metrics _ _) => by apply straight_on_metrics
         | |- straight (on_cache _ _) => by apply straight_on_cache
         | |- straight (step _ _) => by apply straight_step
         | |- straight (release _) => apply straight_release
         | |- straight (match ?x with _ => _ end) => destruct x
         end.

Lemma straight_store_insert_response p v pol st hs b eff :
  spawns eff = [] -> straight (store_insert_response p v pol st hs b eff).
Proof. intros He. unfold store_insert_response. straight_code. Qed.

Lemma straight_store_freshen entry rp request update age :
  straight (store_freshen entry rp request update age).
Proof.
  unfold store_freshen, store_response. cbv zeta. straight_code.
  by apply straight_store_insert_response.
Qed.

Lemma straight_run_finish f body : straight (run_finish f body).
Proof. unfold run_finish. straight_code. by apply straight_store_insert_response. Qed.

Lemma straight_run_outcomes l : straight (run_outcomes l).
Proof.
  induction l as [|[f body|f] l IH]; [done|..]; cbn [run_outcomes]; straight_code;
    first [apply straight_run_finish|exact IH].
Qed.

Lemma straight_poll_body kind p body : straight (poll_body timer kind p body).
Proof. unfold poll_body. straight_code. Qed.

Lemma straight_stream_body polls stream : straight (stream_body timer polls stream).
Proof.
  revert stream. induction polls as [|p polls IH]; intros stream; cbn [stream_body];
    [apply straight_run_outcomes|].
  straight_code; first [apply straight_poll_body|apply straight_run_outcomes|apply IH].
Qed.

Lemma straight_collect_polls polls body : straight (collect_polls timer polls body).
Proof.
  revert body. induction polls as [|p polls IH]; intros body; cbn [collect_polls]; [done|].
  straight_code; first [apply straight_poll_body|apply IH].
Qed.

Lemma straight_background_task t outcome polls :
  straight (background_task app timer collect_limited t outcome polls).
Proof.
  unfold background_task, send_to_origin, refresh, store_plan, new_origin_body. cbv beta iota zeta.
  straight_code;
    first [apply straight_run_finish|apply straight_store_freshen|apply straight_collect_polls].
Qed.

Lemma straight_report m : report m -> straight m.
Proof.
  intros [|gather]; unfold health_check, metrics_endpoint, encode, read_counts, store_entry_count,
    store_weighted_size; straight_code.
Qed.

Definition thread_straight (th : Thread) : Prop :=
  match th with Detached m => straight m | _ => True end.

Lemma revalidates_straight ts ths : Forall2 revalidates ts ths -> Forall thread_straight ths.
Proof.
  induction 1 as [|t th ts ths (outcome & polls & -> & _) _ IH]; constructor; [|done].
  apply straight_background_task.
Qed.

Lemma straight_advance {A gu} sh (m : Task A) sh' m' ts :
  advance gu sh m sh' m' ts -> straight m -> straight m' /\ ts = [].
Proof.
  destruct m as [a| | |X f eff rest|rd d r]; try done. intros (c & x & _ & _ & -> & ->) Hm.
  by destruct (Hm x).
Qed.

Lemma thread_step_straight {gu} sh th sh' ths answers :
  thread_step gu sh th sh' ths answers -> thread_straight th -> Forall thread_straight ths.
Proof.
  destruct 1 as [req peers m sh' m' ts ths Hm Hts|req peers r ths Hstream|req peers
                |req filename fs m sh' m' ts ths Hm Hts|req filename fs r|req filename fs|m sh' m' ts ths Hm Hts|]; intros Hth.
  - constructor; [done|]. by eapply revalidates_straight.
  - unfold streams in Hstream. destruct (resp_body r); [by subst..|].
    destruct Hstream as (polls & -> & _). constructor; [apply straight_stream_body|done].
  - done.
  - constructor; [done|]. by eapply revalidates_straight.
  - done.
  - done.
  - constructor; [by eapply straight_advance|]. by eapply revalidates_straight.
  - done.
Qed.

Lemma world_step_straight w w' :
  world_step w w' -> Forall thread_straight (w_threads w) -> Forall thread_straight (w_threads w').
Proof.
  intros Hstep Hths.
  destruct Hstep as [w w' [w0 l1 th l2 sh' ths answers Hw Hth]|w req peers Hlog Hann|w req filename fs Hread
                    |w m Hm|w sh' Haside];
    simpl; [|by constructor..|constructor; [by apply straight_report|done]|done].
  rewrite Hw in Hths. apply Forall_app in Hths as [H1 [Ht H2]%Forall_cons].
  rewrite !Forall_app. split_and!; try done. by eapply thread_step_straight.
Qed.

(** threads, without the shared state *)
Definition threads_step (l l' : list Thread) : Prop :=
  exists l1 th l2 sh sh' ths answers, l = l1 ++ th :: l2 /\
    thread_step True sh th sh' ths answers /\ l' = l1 ++ ths ++ l2.

(** every run of these threads ends *)
Definition ends (l : list Thread) : Prop := Acc (flip threads_step) l.

Lemma ends_nil : ends [].
Proof. constructor. intros l' (l1 & th & l2 & ? & ? & ? & ? & Heq & _). by destruct l1. Qed.

Lemma ends_app l l' : ends l -> ends l' -> ends (l ++ l').
Proof.
  intros H. revert l'. induction H as [l _ IH]. intros l' H'.
  induction H' as [l' H' IH']. constructor.
  intros k (l1 & th & l2 & sh & sh' & ths & answers & Heq & Hstep & ->).
  apply app_eq_inv in Heq as [(b & -> & Hl2)|(b & -> & ->)].
  - destruct b as [|th' b].
    + simpl in Hl2. subst l'. rewrite app_nil_r in *. apply IH'.
      by exists [], th, l2, sh, sh', ths, answers.
    + simpl in Hl2. injection Hl2 as <- ->. rewrite !app_assoc, <- (app_assoc l1).
      apply IH; [by exists l1, th, b, sh, sh', ths, answers|]. by constructor.
  - rewrite <- app_assoc. apply IH'. by exists b, th, l2, sh, sh', ths, answers.
Qed.

Lemma ends_all l : Forall (fun th => ends [th]) l -> ends l.
Proof.
  induction 1 as [|th l Hth _ IH]; [apply ends_nil|]. by apply (ends_app [th]).
Qed.

(** a thread ends if whatever it becomes in a step does *)
Lemma ends_thread th :
  (forall sh sh' ths answers, thread_step True sh th sh' ths answers -> Forall (fun th => ends [th]) ths) ->
  ends [th].
Proof.
  intros Hth. constructor. intros l' ([|th1 l1] & th' & l2 & sh & sh' & ths & answers & Heq & Hstep & ->).
  - injection Heq as <- <-. simpl. rewrite app_nil_r. by eapply ends_all, Hth.
  - injection Heq as _ Heq. by destruct l1.
Qed.

Lemma ends_detached (m : Task unit) : straight m -> ends [Detached m].
Proof.
  induction m as [[]| | |X f eff rest IH|rd d IHd r IHr]; intros Hm; [|destruct Hm| | |destruct Hm];
    apply ends_thread; intros sh sh' ths answers Hstep;
    inversion Hstep as [| | | | | |? ? m' ts ? Hadv Hts|]; subst.
  - destruct Hadv.
  - constructor.
  - destruct Hadv.
  - destruct Hadv as (c & x & _ & _ & -> & ->). destruct (Hm x) as [Hs Hx]. rewrite Hs in Hts.
    inversion Hts. constructor; [exact (IH x Hx)|constructor].
Qed.

Lemma ends_revalidates ts ths : Forall2 revalidates ts ths -> Forall (fun th => ends [th]) ths.
Proof.
  induction 1 as [|t th ts ths (outcome & polls & -> & _) _ IH]; [constructor|].
  constructor; [|exact IH]. apply ends_detached, straight_background_task.
Qed.

(** so does a task whose thread only advances until it ends *)
Lemma ends_task {A} (wrap : Task A -> Thread) m :
  (forall m sh sh' ths answers, thread_step True sh (wrap m) sh' ths answers ->
     (exists m' ts ths', advance True sh m sh' m' ts /\ Forall2 revalidates ts ths' /\
        ths = wrap m' :: ths') \/ Forall (fun th => ends [th]) ths) ->
  ends [wrap m].
Proof.
  intros Hw. induction m as [r| | |X f eff rest IH|rd d IHd r IHr]; apply ends_thread;
    intros sh sh' ths answers [(m' & ts & ths' & Hadv & Hts & ->)|Hths]%Hw; try done.
  - destruct Hadv as (c & x & _ & _ & -> & ->). constructor; [apply IH|]. by eapply ends_revalidates.
  - destruct Hadv as (_ & -> & Hm). inversion Hts. constructor; [|constructor].
    by destruct Hm as [[-> _]|[-> _]].
Qed.

Lemma ends_handling req peers m : ends [Handling req peers m].
Proof.
  apply ends_task. intros m1 sh sh' ths answers Hstep.
  inversion Hstep; subst; [left; by do 3 eexists| |by right..].
  right. match goal with H : streams _ _ _ |- _ => unfold streams in H; rename H into Hths end.
  destruct (resp_body _) as [| |stream]; [subst ths; constructor..|].
  destruct Hths as (polls & -> & _).
  constructor; [apply ends_detached, straight_stream_body|constructor].
Qed.

Lemma ends_serving req filename fs m : ends [Serving req filename fs m].
Proof.
  apply ends_task. intros m1 sh sh' ths answers Hstep.
  inversion Hstep; subst; [left; by do 3 eexists|by right..].
Qed.

Lemma ends_threads l : Forall thread_straight l -> ends l.
Proof.
  intros Hl. apply ends_all. eapply Forall_impl; [exact Hl|]. intros [req peers m|req filename fs m|m] Hth.
  - apply ends_handling.
  - apply ends_serving.
  - by apply ends_detached.
Qed.

Lemma work_ends_threads w : ends (w_threads w) -> Acc (flip (work True)) w.
Proof.
  remember (w_threads w) as l eqn:Heq. intros H. revert w Heq.
  induction H as [l _ IH]. intros w ->. constructor. intros w' Hw.
  destruct Hw as [w l1 th l2 sh' ths answers Hl Hth]. eapply IH; [|reflexivity].
  by exists l1, th, l2, (w_shared w), sh', ths, answers.
Qed.

(** ** No panic *)

Context {Plaws : PromLaws}.

(** the threads of a world whose announced ages are bounded by [max] *)
Definition thread_calm (max : Duration) (th : Thread) : Prop :=
  match th with
  | Handling req peers m =>
      exists k, returns app max True k m (fun _ o => forall r, o = Some r -> stream_ok app max r)
  | Serving _ _ _ m => exists k, returns app max True k m (fun _ _ => True)
  | Detached m => exists k, returns app max True k m (fun _ _ => True)
  end.

Definition world_calm (w : World) : Prop :=
  forall max, bound = Some max -> calm max (w_shared w) /\ Forall (thread_calm max) (w_threads w).

#[local] Transparent returns.
Lemma returns_advance {A gu} max sh (m : Task A) sh' m' ts k Q :
  bound = Some max -> advance gu sh m sh' m' ts -> calm max sh -> returns app max True k m Q ->
  calm max sh' /\ (exists k', returns app max True k' m' Q) /\
  Forall (fun t => modest max (arc_get (response (task_entry t)))) ts.
Proof.
  intros Hb Hadv Hs Hm. destruct m as [a| | |X f eff rest|rd d r]; cbn in Hadv, Hm; try done.
  2:{ destruct Hadv as (-> & -> & Hm'), Hm as [Hd Hr]. split_and!; [done| |done].
      destruct Hm' as [[-> _]|[-> _]]; eauto. }
  destruct Hadv as (c & x & [[_ Hage] _] & Hf & -> & ->), Hm as (k' & _ & Hm).
  destruct (Hm c (Hage max Hb) sh Hs) as (x1 & sh1 & Hf1 & Hs' & He & Hx).
  rewrite Hf in Hf1. injection Hf1 as <- <-. split_and!; [done|eauto|].
  apply Forall_forall. intros t (e & Hin & Ht)%list_elem_of_omap.
  eapply Forall_forall in He; [|exact Hin]. destruct e; try done. by injection Ht as ->.
Qed.

Lemma revalidates_calm max ts ths :
  bound = Some max -> Forall2 revalidates ts ths ->
  Forall (fun t => modest max (arc_get (response (task_entry t)))) ts -> Forall (thread_calm max) ths.
Proof.
  intros Hb. induction 1 as [|t th ts ths (outcome & polls & -> & Hann & _) _ IH]; [done|].
  intros [Ht Hts]%Forall_cons. constructor; [|auto]. exists (18 + 2 * length polls)%nat.
  eapply returns_weaken; [apply background_task_returns; [exact Ht|by apply Hann]|done].
Qed.

Lemma advance_calm {A gu} max sh (m : Task A) sh' m' ts ths Q (th' : Thread) :
  bound = Some max -> advance gu sh m sh' m' ts -> Forall2 revalidates ts ths -> calm max sh ->
  (exists k, returns app max True k m Q) ->
  ((exists k, returns app max True k m' Q) -> thread_calm max th') ->
  calm max sh' /\ Forall (thread_calm max) (th' :: ths).
Proof.
  intros Hb Hm Hts Hs [k Hk] Hth'.
  destruct (returns_advance _ _ _ _ _ _ _ _ Hb Hm Hs Hk) as (Hs' & Hk' & Hmod).
  split; [done|]. constructor; [auto|]. by eapply revalidates_calm.
Qed.

Lemma thread_step_calm {gu} o max sh th sh' ths answers :
  bound = Some max -> thread_step gu sh th sh' ths answers -> thread_good o th ->
  calm max sh -> thread_calm max th -> calm max sh' /\ Forall (thread_calm max) ths.
Proof.
  intros Hb Hstep Hgood Hs Hth.
  destruct Hstep as [req peers m sh' m' ts ths Hm Hts|req peers r ths Hstream|req peers
                    |req filename fs m sh' m' ts ths Hm Hts|req filename fs r|req filename fs|m sh' m' ts ths Hm Hts|]; cbn in Hth.
  - eapply advance_calm; [exact Hb|exact Hm|exact Hts|exact Hs|exact Hth|done].
  - destruct Hth as (k & k' & _ & Hr). split; [done|].
    unfold streams in Hstream. destruct (resp_body r) as [| |stream] eqn:Eb; [by subst ths..|].
    destruct Hstream as (polls & -> & _). constructor; [|constructor]. eexists.
    eapply returns_weaken; [apply stream_body_returns; by apply (Hr r)|done].
  - done.
  - eapply advance_calm; [exact Hb|exact Hm|exact Hts|exact Hs|exact Hth|done].
  - done.
  - done.
  - eapply advance_calm; [exact Hb|exact Hm|exact Hts|exact Hs|exact Hth|done].
  - done.
Qed.
#[local] Opaque returns.

Lemma aside_calm max sh sh' : aside sh sh' -> calm max sh -> calm max sh'.
Proof.
  intros [now] [Hs Hlab]. split; [|exact Hlab]. by apply modest_run_pending_tasks.
Qed.

Lemma report_returns max m : report m -> returns app max True 7 m (fun _ _ => True).
Proof.
  intros [|gather]; apply returns_bind.
  - eapply (returns_call _ _ _ _ 5); [by apply health_check_returns|lia|].
    intros [x|] Hx; [by apply returns_ret|done].
  - eapply (returns_call _ _ _ _ 7); [by apply metrics_endpoint_returns|lia|].
    intros [x|] Hx; [by apply returns_ret|done].
Qed.

Lemma world_step_calm w w' : world_step w w' -> world_good w -> world_calm w -> world_calm w'.
Proof.
  intros Hstep [o Hgood] Hcalm max Hb. destruct (Hcalm max Hb) as [Hs Hths].
  destruct Hstep as [w w' [w0 l1 th l2 sh' ths answers Hw Hth]|w req peers Hlog Hann|w req filename fs Hread
                    |w m Hm|w sh' Haside].
  - pose proof (wg_threads _ _ Hgood) as Hgoods. rewrite Hw in Hths, Hgoods.
    apply Forall_app in Hgoods as [_ [Hg _]%Forall_cons].
    apply Forall_app in Hths as [H1 [Ht H2]%Forall_cons].
    destruct (thread_step_calm _ _ _ _ _ _ _ Hb Hth Hg Hs Ht) as [Hs' Hths'].
    split; [exact Hs'|]. simpl. by rewrite !Forall_app.
  - split; [exact Hs|]. constructor; [|exact Hths]. exists 53%nat.
    apply handler_returns, Hann, Hb.
  - split; [exact Hs|]. constructor; [|exact Hths]. exists 12%nat. by apply serve_asset_returns.
  - split; [exact Hs|]. constructor; [|exact Hths]. exists 7%nat. by apply report_returns.
  - split; [|exact Hths]. by eapply aside_calm.
Qed.

Lemma world_calm_initial w : initial w -> world_calm w.
Proof.
  intros (size_mb & ttl & s & m & Hnew & Httl & Hm & ->) max _. split; [|constructor].
  destruct labelled_Metrics_new as (m' & Hm' & Hlab). rewrite Hm in Hm'. injection Hm' as ->.
  split; [|exact Hlab]. by eapply modest_Store_new.
Qed.

Lemma world_calm_reachable w0 w : initial w0 -> rtc world_step w0 w -> world_calm w.
Proof.
  intros Hw0. refine (rtc_ind_r (fun w => world_calm w) w0 _ _ w); [by apply world_calm_initial|].
  intros w1 w2 Hrun Hstep. eapply world_step_calm; [exact Hstep|by eapply world_good_reachable].
Qed.

(** ** Progress *)

(** the next step of the task may panic *)
Definition may_panic {A} (sh : Shared) (m : Task A) : Prop :=
  match m with
  | Panicked => True
  | Step f _ _ => exists c, sees c (sh_cache sh) /\ f c sh = Panic
  | _ => False
  end.

(** the next step of some thread may panic, which aborts the process *)
Definition thread_panics (sh : Shared) (th : Thread) : Prop :=
  match th with
  | Handling _ _ m => may_panic sh m
  | Serving _ _ _ m => may_panic sh m
  | Detached m => may_panic sh m
  end.

Definition crashes (w : World) : Prop :=
  exists th, th ∈ w_threads w /\ thread_panics (w_shared w) th.

(** the task awaits something that is not there *)
Definition waits {A} (sh : Shared) (m : Task A) : Prop :=
  match m with Await ready _ _ => ready sh = false | _ => False end.

Definition thread_waits (sh : Shared) (th : Thread) : Prop :=
  match th with
  | Handling _ _ m => waits sh m
  | Serving _ _ _ m => waits sh m
  | Detached m => waits sh m
  end.

#[local] Transparent returns.
(** with bounded ages, nothing panics *)
Lemma returns_no_panic {A} max sh (m : Task A) k Q :
  bound = Some max -> calm max sh -> returns app max True k m Q -> ~ may_panic sh m.
Proof.
  intros Hb Hs Hm Hp. destruct m as [a| | |X f eff rest|rd d r]; cbn in Hp, Hm; try done.
  destruct Hp as (c & [[_ Hage] _] & Hf), Hm as (k' & _ & Hm).
  destruct (Hm c (Hage max Hb) sh Hs) as (x & sh' & Hf' & _). by rewrite Hf in Hf'.
Qed.

#[local] Opaque returns.

Lemma calm_never_crashes max w : bound = Some max -> world_calm w -> ~ crashes w.
Proof.
  intros Hb Hcalm (th & Hin & Hp). destruct (Hcalm max Hb) as [Hs Hths].
  rewrite Forall_forall in Hths. specialize (Hths th Hin).
  destruct th as [req peers m|req filename fs m|m]; destruct Hths as [k Hk];
    by eapply returns_no_panic.
Qed.

(** the store has used up its generations *)
Definition exhausted (w : World) : Prop := u64_MAX <= next_generation (sh_cache (w_shared w)).

(** there is a time at which nothing overflows, namely 0 *)
Hypothesis Hbound : forall max, bound = Some max ->
  max <= Duration_MAX /\ upstream_timeout app <= Instant_MAX.

Lemma advances {A} sh (m : Task A) :
  next_generation (sh_cache sh) < u64_MAX ->
  may_panic sh m \/ waits sh m \/ m = Cancelled \/ (exists a, m = Return a) \/
  exists sh' m' ts, advance False sh m sh' m' ts.
Proof.
  intros Hg. destruct m as [a| | |X f eff rest|rd d r]; [eauto 6|auto|by left| |].
  - set (c := {| instant_now := 0; system_now := 0%Z |}).
    assert (sees c (sh_cache sh)) as Hc by 
      (split; [split; [unfold clock_ok; simpl; lia|exact Hbound]|done]).
    destruct (f c sh) as [[x sh']|] eqn:E; [|left; by exists c].
    do 4 right. exists sh', (rest x), (spawns (eff x)). by exists c, x.
  - simpl. destruct (rd sh); [|auto]. do 4 right. exists sh, r, []. auto 6.
Qed.

Lemma revalidates_some ts : exists ths, Forall2 revalidates ts ths.
Proof.
  induction ts as [|t ts [ths IH]]; [by exists []|].
  exists (Detached (background_task app timer collect_limited t Failed []) :: ths).
  constructor; [|done]. exists Failed, []. by split_and!.
Qed.

Lemma items_ready {E} (its : list (Item E)) : items (map Ready its) = its.
Proof. unfold items. induction its as [|x its IH]; [done|]. simpl. f_equal. exact IH. Qed.

Lemma streams_some outcome r : logged outcome -> exists ths, streams outcome r ths.
Proof.
  intros Hlog. unfold streams. destruct (resp_body r) as [| |stream]; [by eexists..|].
  destruct outcome as [parts| |]; [|by exists [Detached (stream_body timer [] stream)], []..].
  destruct (Hlog parts eq_refl) as [its Hits].
  exists [Detached (stream_body timer (map Ready its) stream)], (map Ready its).
  split; [done|]. intros ? [= <-]. by rewrite items_ready.
Qed.

Lemma thread_progress o sh th :
  next_generation (sh_cache sh) < u64_MAX -> thread_good o th -> thread_straight th ->
  (exists sh' ths answers, thread_step False sh th sh' ths answers) \/
  thread_panics sh th \/ thread_waits sh th.
Proof.
  intros Hg Hgood Hst. destruct th as [req peers m|req filename fs m|m];
    (destruct (advances sh m Hg) as [?|[?|[->|[[r ->]|(sh' & m' & ts & Hadv)]]]];
       [auto|auto|..|destruct (revalidates_some ts) as [ths Hths]]); try (by destruct Hst); left.
  - do 3 eexists. apply handler_dropped.
  - destruct (streams_some (origin_outcome peers) r) as [ths Hths]; [apply Hgood|].
    do 3 eexists. by apply handler_done.
  - do 3 eexists. by eapply handler_advances.
  - do 3 eexists. apply asset_dropped.
  - do 3 eexists. apply asset_done.
  - do 3 eexists. by eapply asset_advances.
  - destruct r. do 3 eexists. apply detached_returns.
  - do 3 eexists. by eapply detached_advances.
Qed.

Lemma panics_or_waits sh ths :
  Forall (fun th => thread_panics sh th \/ thread_waits sh th) ths ->
  (exists th, th ∈ ths /\ thread_panics sh th) \/ Forall (thread_waits sh) ths.
Proof.
  induction 1 as [|th ths [Hp|Hw] _ IH]; [by right|left; exists th; by split; [left|]|].
  destruct IH as [(th' & Hin & Hp)|IH]; [left; exists th'; by split; [right|]|right; by constructor].
Qed.

#[local] Transparent owns.
(** who waits owns no flight, and waits for one *)
Lemma waits_owns {A} sh (m : Task A) own Q :
  waits sh m -> owns m own Q -> own_flights own = [] /\ senders (sh_flights sh) <> ∅.
Proof. destruct m as [a| | |X f eff rest|rd d r]; try done. intros Hw (_ & _ & Ho). by apply Ho. Qed.
#[local] Opaque owns.

Lemma thread_waits_owns sh th own :
  thread_waits sh th -> thread_owns th own ->
  own_flights own = [] /\ senders (sh_flights sh) <> ∅.
Proof. destruct th; apply waits_owns. Qed.

(** not all threads wait: a flight that one waits for has an owner *)
Lemma someone_works w :
  world_owned w -> Forall (thread_waits (w_shared w)) (w_threads w) -> w_threads w = [].
Proof.
  intros (l & Hl & (fw & Hr & Hfl & Hp) & _) Hw.
  assert (all_flights l = []) as Hnone.
  { clear Hp. unfold all_flights. induction Hl as [|th own ths l Ho _ IH]; [done|].
    apply Forall_cons in Hw as [Hth Hw]. simpl.
    by destruct (thread_waits_owns _ _ _ Hth Ho) as [-> _]; rewrite IH. }
  destruct Hl as [|th own ths l Ho _]; [done|]. exfalso. apply Forall_cons in Hw as [Hth _].
  destruct (thread_waits_owns _ _ _ Hth Ho) as [_ Hs]. apply Hs.
  rewrite Hnone in Hp. apply Permutation_nil_l, symmetry, fmap_nil_inv, map_to_list_empty_iff in Hp.
  apply flights_ok_reachable in Hr. rewrite <- Hfl. apply set_eq. intros c.
  rewrite (fo_senders _ Hr), Hp, lookup_empty. set_solver.
Qed.

Lemma no_thread_works gu w : w_threads w = [] -> forall w', ~ work gu w w'.
Proof.
  intros Hnil w' Hw. destruct Hw as [w l1 th l2 sh' ths answers Heq _]. rewrite Heq in Hnil.
  by destruct l1.
Qed.

(** a world without threads has nothing in flight *)
Lemma rests_clean w :
  world_owned w -> w_threads w = [] ->
  in_flight (sh_flights (w_shared w)) = ∅ /\ senders (sh_flights (w_shared w)) = ∅ /\
  refreshing (sh_cache (w_shared w)) = ∅.
Proof.
  intros (l & Hl & (fw & Hr & Hfl & Hp) & _ & Href) Hnil. rewrite Hnil in Hl.
  inversion Hl; subst. simpl in *.
  apply Permutation_nil_l, symmetry, fmap_nil_inv, map_to_list_empty_iff in Hp.
  apply flights_ok_reachable in Hr. rewrite <- Hfl. split_and!.
  - apply map_empty. intros k. destruct (in_flight (flights fw) !! k) as [c|] eqn:E; [|done].
    apply (fo_held _ Hr) in E. by rewrite Hp, lookup_empty in E.
  - apply set_eq. intros c. rewrite (fo_senders _ Hr), Hp, lookup_empty. set_solver.
  - apply set_eq. intros k. rewrite Href. set_solver.
Qed.

Lemma world_owned_reachable w0 w :
  initial w0 -> rtc world_step w0 w -> Forall thread_straight (w_threads w) /\ world_owned w.
Proof.
  intros Hw0. refine (rtc_ind_r (fun w => Forall thread_straight (w_threads w) /\ world_owned w) w0 _ _ w).
  - destruct Hw0 as (size_mb & ttl & s & m & Hnew & _ & _ & ->). split; [constructor|].
    exists []. split; [constructor|]. split.
    + exists flight_init. split; [constructor|]. split; [done|].
      simpl. by rewrite map_to_list_empty.
    + apply Store_new_Done in Hnew. split; [constructor|]. simpl. intros k.
      rewrite (ns_refreshing _ _ _ Hnew), elem_of_nil. set_solver.
  - intros w1 w2 Hrun1 Hstep [IHs IHo]. split; [by eapply world_step_straight|].
    eapply world_step_owned; [exact Hstep| |done]. by eapply world_good_reachable.
Qed.

(** C2. The work ends, and leaves nothing behind. From any reachable world,
    whatever the scheduler does, the threads can take only finitely many steps
    until a new request arrives. None of them can panic, on two conditions: the
    ages that origins announce are bounded, and the clock shows no time at which
    such an age overflows (what happens else is [stale_age_panics]), nor the
    upstream timeout, which every poll of a body adds to the time (what happens
    else is [huge_idle_panics]). When they can take no more, without a client that leaves
    and without a timeout, all of them have ended, so no follower ever needs
    the timeout of its wait: the leader that it waits for can go on. The one
    exception is a store that has used up 2^64 - 1 generations. Then no key is
    in flight, and no stored response is marked as being revalidated: every
    flight and every guard has been dropped, on whatever path its request
    went. And each request that has arrived has been answered once, or its
    client has left. *)
Theorem work_ends w0 w :
  initial w0 -> rtc world_step w0 w ->
  (bound <> None -> ~ crashes w) /\ Acc (flip (work True)) w /\
  forall w', rtc (work True) w w' -> (forall w'', ~ work False w' w'') ->
    crashes w' /\ bound = None \/ exhausted w' \/
    w_threads w' = [] /\ in_flight (sh_flights (w_shared w')) = ∅ /\
    senders (sh_flights (w_shared w')) = ∅ /\ refreshing (sh_cache (w_shared w')) = ∅ /\
    w_requests w' ≡ₚ map answers_to (w_answers w').
Proof.
  intros Hw0 Hrun.
  assert (forall w, rtc world_step w0 w -> bound <> None -> ~ crashes w) as Hsafe.
  { intros w1 Hrun1 Hb. destruct bound as [max|] eqn:Eb; [|done].
    eapply calm_never_crashes; [exact Eb|by eapply world_calm_reachable]. }
  split; [by apply Hsafe|].
  split; [by apply work_ends_threads, ends_threads; eapply world_owned_reachable|].
  intros w' Hwork Hstuck.
  assert (rtc world_step w0 w') as Hrun'.
  { etrans; [exact Hrun|]. eapply rtc_subrel; [|exact Hwork]. by constructor. }
  destruct (world_owned_reachable _ _ Hw0 Hrun') as [Hst Hown].
  pose proof (world_good_reachable _ _ Hw0 Hrun') as [o Hgood].
  destruct (decide (u64_MAX <= next_generation (sh_cache (w_shared w')))) as [?|Hg%N.nle_gt];
    [by right; left|].
  destruct (panics_or_waits (w_shared w') (w_threads w')) as [Hcrash|Hwait].
  - apply Forall_forall. intros th Hth.
    pose proof (proj1 (Forall_forall _ _) (wg_threads _ _ Hgood) th Hth) as Hthg.
    pose proof (proj1 (Forall_forall _ _) Hst th Hth) as Hths.
    destruct (thread_progress _ _ _ Hg Hthg Hths) as [(sh' & ths' & answers & Hstep)|Hno]; [|done].
    apply list_elem_of_split in Hth as (l1 & l2 & Heq).
    destruct (Hstuck _ (work_step _ w' l1 th l2 sh' ths' answers Heq Hstep)).
  - left. split; [exact Hcrash|]. destruct (decide (bound = None)) as [|Hb]; [done|].
    by destruct (Hsafe w').
  - right. right. pose proof (someone_works _ Hown Hwait) as Hnil.
    destruct (rests_clean _ Hown Hnil) as (? & ? & ?). split_and!; try done.
    pose proof (world_answered_reachable _ _ Hw0 Hrun') as Hans.
    unfold world_answered in Hans. by rewrite Hnil in Hans.
Qed.
End system.

(** ** Runs that evaluate *)

Section exec.
Context `{Hops : HttpOps, Log : OriginLog, Yops : HyperOps, Pops : PromOps,
  EntriesOps : !MokaOps Key Entry, IndexOps : !MokaOps PrimaryKey Index}.
Variable app : AppState.
Variable timer : Instant -> Instant -> bool.
Variable collect_limited : N -> list (Item (BodyError unit)) -> option Bytes.
Variable bound : option Duration.
(** what the origin's bodies return to the polls of the streams *)
Variable polls : list (Poll (Item unit)).
Hypothesis polls_exchanged : forall parts, exchanged parts (items polls).

(** one step of a task in which nothing is given up and nothing is spawned *)
Definition exec_task {A} (c : Clock) (sh : Shared) (m : Task A) : option (Task A * Shared) :=
  match m with
  | Step f effects rest =>
      if next_generation (sh_cache sh) <? u64_MAX then
        match f c sh with
        | Done (x, sh') => match spawns (effects x) with [] => Some (rest x, sh') | _ => None end
        | Panic => None
        end
      else None
  | Await ready _ rest => if ready sh then Some (rest, sh) else None
  | _ => None
  end.

Definition exec_thread (c : Clock) (sh : Shared) (th : Thread)
    : option (Shared * list Thread * list Answer) :=
  match th with
  | Handling req peers m =>
      match m with
      | Return r =>
          Some (sh, match resp_body r with
                    | StreamedBody stream => [Detached (stream_body timer polls stream)]
                    | _ => []
                    end, [ProxyAnswer req peers (Some r)])
      | _ => '(m, sh) ← exec_task c sh m; Some (sh, [Handling req peers m], [])
      end
  | Serving req filename fs m =>
      match m with
      | Return r => Some (sh, [], [AssetAnswer req filename fs (Some r)])
      | _ => '(m, sh) ← exec_task c sh m; Some (sh, [Serving req filename fs m], [])
      end
  | Detached m =>
      match m with
      | Return _ => Some (sh, [], [])
      | _ => '(m, sh) ← exec_task c sh m; Some (sh, [Detached m], [])
      end
  end.

(** [n] steps of the thread at place [i] *)
Fixpoint exec (c : Clock) (i n : nat) (w : World) : option World :=
  match n with
  | O => Some w
  | S n =>
      th ← w_threads w !! i;
      '(sh, ths, answers) ← exec_thread c (w_shared w) th;
      exec c i n {| w_shared := sh;
                    w_threads := take i (w_threads w) ++ ths ++ drop (S i) (w_threads w);
                    w_requests := w_requests w; w_answers := answers ++ w_answers w |}
  end.

Lemma exec_task_advances {A} gu c sh (m m' : Task A) sh' :
  times app bound c -> exec_task c sh m = Some (m', sh') -> advance app bound gu sh m sh' m' [].
Proof.
  intros Hc. destruct m as [a| | |X f eff rest|rd d r]; simpl; try done.
  - destruct (N.ltb_spec (next_generation (sh_cache sh)) u64_MAX) as [Hg|]; [|done].
    destruct (f c sh) as [[x sh1]|] eqn:Hf; [|done]. destruct (spawns (eff x)) eqn:Hs; [|done].
    intros [= <- <-]. exists c, x. by split_and!.
  - destruct (rd sh); [|done]. intros [= <- <-]. auto 6.
Qed.

Lemma exec_thread_steps gu c sh th sh' ths answers :
  times app bound c -> exec_thread c sh th = Some (sh', ths, answers) ->
  thread_step app timer collect_limited bound gu sh th sh' ths answers.
Proof.
  intros Hc.
  assert (forall A (m : Task A) (wrap : Task A -> Thread),
    ('(m, sh) ← exec_task c sh m; Some (sh, [wrap m], [])) = Some (sh', ths, answers) ->
    exists m', advance app bound gu sh m sh' m' [] /\ ths = [wrap m'] /\ answers = []) as Hone.
  { intros A m wrap. destruct (exec_task c sh m) as [[m' sh1]|] eqn:E; simpl; [|done].
    intros [= <- <- <-]. exists m'. split; [by apply (exec_task_advances gu c)|done]. }
  destruct th as [req peers m|req filename fs m|m]; simpl.
  - assert (forall m', advance app bound gu sh m sh' m' [] ->
      thread_step app timer collect_limited bound gu sh (Handling req peers m) sh' [Handling req peers m'] [])
      as Hadv by (intros m' Hm; by eapply handler_advances).
    destruct m as [r| | | |].
    { intros [= <- <- <-]. apply handler_done. unfold streams.
      destruct (resp_body r); [done..|]. by exists polls. }
    all: (intros Hm; destruct (Hone _ _ (Handling req peers) Hm) as (m' & Hm' & -> & ->); by apply Hadv).
  - assert (forall m', advance app bound gu sh m sh' m' [] ->
      thread_step app timer collect_limited bound gu sh (Serving req filename fs m) sh'
        [Serving req filename fs m'] []) as Hadv by (intros m' Hm; by eapply asset_advances).
    destruct m; [by intros [= <- <- <-]; constructor|..];
      (intros Hm; destruct (Hone _ _ (Serving req filename fs) Hm) as (m' & Hm' & -> & ->); by apply Hadv).
  - assert (forall m', advance app bound gu sh m sh' m' [] ->
      thread_step app timer collect_limited bound gu sh (Detached m) sh' [Detached m'] [])
      as Hadv by (intros m' Hm; by eapply detached_advances).
    destruct m as [[]| | | |]; [by intros [= <- <- <-]; constructor|..];
      (intros Hm; destruct (Hone _ _ Detached Hm) as (m' & Hm' & -> & ->); by apply Hadv).
Qed.

Lemma exec_works gu c i n w w' :
  times app bound c -> exec c i n w = Some w' -> rtc (work app timer collect_limited bound gu) w w'.
Proof.
  intros Hc. revert w. induction n as [|n IH]; intros w; simpl; [by intros [= ->]|].
  destruct (w_threads w !! i) as [th|] eqn:Eth; simpl; [|done].
  destruct (exec_thread c (w_shared w) th) as [[[sh ths] answers]|] eqn:Ex; simpl; [|done].
  intros Hn. eapply rtc_l; [|by apply IH]. eapply work_step.
  - symmetry. by apply take_drop_middle.
  - by eapply exec_thread_steps.
Qed.
End exec.

Definition ex_clock (secs : N) : Clock :=
  {| instant_now := Duration_from_secs secs; system_now := 0 |}.
(** origins announce ages of at most an hour *)
Definition ex_bound : option Duration := Some (Duration_from_secs 3600).
Definition ex_polls : list (Poll (Item unit)) := [Ready (Chunk "hello"%string); Ready End].
Definition first_peers : Peers :=
  {| first_chunk := None; body_channel := 0; origin_outcome := Responded page_parts |}.
Definition second_peers : Peers :=
  {| first_chunk := None; body_channel := 0; origin_outcome := Failed |}.

(** the shared state of a process that has just started *)
Definition ex_start : option (@Shared RefProm (RefMoka Key Entry) (RefMoka PrimaryKey Index)) :=
  shared <$> page_start ex_empty.


Abbreviation ex_world := (@World RefHttp _ RefProm (RefMoka Key Entry) (RefMoka PrimaryKey Index))
  (only parsing).

Definition ex_initial : option ex_world :=
  sh ← ex_start; Some {| w_shared := sh; w_threads := []; w_requests := []; w_answers := [] |}.

(** the request for the page arrives once more *)
Definition ex_arrive (peers : Peers) (w : ex_world) : ex_world :=
  {| w_shared := w_shared w;
     w_threads := Handling page_request peers (forward_to_upstream page_app page_request peers)
                    :: w_threads w;
     w_requests := Proxied page_request peers :: w_requests w; w_answers := w_answers w |}.

Definition ex_exec (secs : N) := exec ideal_timer ex_polls (ex_clock secs).

(** a request for an asset arrives *)
Definition ex_ask (w : ex_world) : ex_world :=
  {| w_shared := w_shared w;
     w_threads := Serving page_request "a/b.css" ex_calls
                    (serve_asset ex_hash ex_mime ex_calls "/app" "a/b.css" page_request)
                    :: w_threads w;
     w_requests := ForAsset page_request "a/b.css" ex_calls :: w_requests w;
     w_answers := w_answers w |}.

(** how the requests have ended *)
Definition ex_labels (w : ex_world) : list (Route * option HeaderValue) :=
  map (fun a => match a with
                | ProxyAnswer _ _ o =>
                    (Proxy, r ← o; HeaderMap_get (resp_headers r) CACHE_STATUS)
                | AssetAnswer _ _ _ o =>
                    (AssetRoute, r ← o; HeaderMap_get (resp_headers r) CACHE_STATUS)
                end) (w_answers w).

Abbreviation ex_step := (world_step page_app ideal_timer ex_collect ex_hash ex_mime "/app" ex_bound) (only parsing).
Abbreviation ex_work gu := (work page_app ideal_timer ex_collect ex_bound gu) (only parsing).

(** while the first request is at the origin, the second waits for it, and an
    asset is being looked for *)
Definition ex_waiting : option ex_world :=
  w ← ex_initial; w ← ex_exec 0 0 12 (ex_arrive first_peers w);
  w ← ex_exec 1 0 4 (ex_arrive second_peers w); ex_exec 1 0 4 (ex_ask w).

(** the asset is read and stored; and the second request is answered when the
    first response has been streamed and stored *)
Definition ex_woken : option ex_world :=
  w ← ex_waiting; w ← ex_exec 2 2 17 w; w ← ex_exec 2 0 9 w; ex_exec 3 0 9 w.

Definition ex_stuck (i : nat) (w : ex_world) : bool :=
  match ex_exec 2 i 1 w with None => true | Some _ => false end.

Example ex_waiting_stuck :
  (fun w => (ex_stuck 1 w, ex_stuck 2 w, length (w_threads w))) <$> ex_waiting
    = Some (true, false, 3%nat).
Proof. vm_compute. reflexivity. Qed.

Example ex_woken_coalesced :
  (fun w : ex_world => (ex_labels w, length (w_threads w),
     (next_generation (sh_cache (w_shared w)) <? u64_MAX)))
    <$> ex_woken = Some ([(Proxy, Some COALESCED); (AssetRoute, Some MISS); (Proxy, Some MISS)],
                         0%nat, true).
Proof. vm_compute. reflexivity. Qed.

(** *** The runs are runs of the system *)

#[local] Strategy expand [ex_waiting ex_woken].
#[local] Opaque ex_start ex_exec forward_to_upstream.

Lemma ex_times secs : secs <=? 3 = true -> times page_app ex_bound (ex_clock secs).
Proof.
  intros Hs%N.leb_le. split; [vm_compute; discriminate|]. intros max [= <-].
  assert (secs = 0 \/ secs = 1 \/ secs = 2 \/ secs = 3) as [->|[->|[->| ->]]] by lia;
    split; vm_compute; discriminate.
Qed.

#[local] Transparent ex_exec ex_start.
Lemma ex_exec_works gu secs i n w w' :
  secs <=? 3 = true -> ex_exec secs i n w = Some w' -> rtc (ex_work gu) w w'.
Proof. intros Hs. by apply exec_works; [|apply ex_times]. Qed.

Lemma ex_exec_steps secs i n w w' :
  secs <=? 3 = true -> ex_exec secs i n w = Some w' -> rtc ex_step w w'.
Proof.
  intros Hs Hw. eapply rtc_subrel; [by intros ? ?; apply world_works|]. by eapply ex_exec_works.
Qed.

Lemma ex_bounded max :
  ex_bound = Some max -> max <= Duration_MAX /\ upstream_timeout page_app <= Instant_MAX.
Proof. intros [= <-]. split; vm_compute; discriminate. Qed.

Lemma ex_arrives peers w :
  origin_outcome peers = Responded page_parts \/ origin_outcome peers = Failed ->
  ex_step w (ex_arrive peers w).
Proof.
  intros Ho. apply world_arrives; [apply ex_logged|].
  destruct Ho as [-> | ->]; intros max [= <-]; [vm_compute; discriminate|exact I].
Qed.

Lemma ex_initial_Some w : ex_initial = Some w -> initial w.
Proof.
  unfold ex_initial, ex_start, page_start. destruct ex_metrics as [m|] eqn:Em; simpl; [|discriminate].
  intros [= <-]. exists 1, ex_ttl, ex_empty, m. split; [reflexivity|].
  split; [vm_compute; discriminate|]. split; [|reflexivity].
  unfold ex_metrics in Em. destruct Metrics_new; [|discriminate]. by injection Em as ->.
Qed.

#[local] Opaque ex_exec ex_start.
Lemma ex_asks w : ex_step w (ex_ask w).
Proof.
  apply world_asks. intros path b. simpl. destruct (String.eqb _ _); [|discriminate].
  by intros [= <-].
Qed.

Lemma ex_waiting_Some w :
  ex_waiting = Some w -> exists w0, initial w0 /\ rtc ex_step w0 w.
Proof.
  unfold ex_waiting. intros (w0 & E0 & (w1 & E1 & (w2 & E2 & E3)%bind_Some)%bind_Some)%bind_Some.
  exists w0. split; [exact (ex_initial_Some w0 E0)|].
  eapply rtc_l; [apply (ex_arrives first_peers); by left|].
  etrans; [exact (ex_exec_steps 0 _ _ _ _ eq_refl E1)|].
  eapply rtc_l; [apply (ex_arrives second_peers); by right|].
  etrans; [exact (ex_exec_steps 1 _ _ _ _ eq_refl E2)|].
  eapply rtc_l; [apply ex_asks|]. exact (ex_exec_steps 1 _ _ _ _ eq_refl E3).
Qed.

Lemma ex_woken_Some w' :
  ex_woken = Some w' ->
  exists w0 w, initial w0 /\ rtc ex_step w0 w /\ ex_waiting = Some w /\ forall gu, rtc (ex_work gu) w w'.
Proof.
  unfold ex_woken. intros (w & E & (w1 & E1 & (w2 & E2 & E3)%bind_Some)%bind_Some)%bind_Some.
  destruct (ex_waiting_Some w E) as (w0 & H0 & Hrun).
  exists w0, w. split; [exact H0|]. split; [exact Hrun|]. split; [exact E|]. intros gu.
  etrans; [exact (ex_exec_works gu 2 _ _ _ _ eq_refl E1)|].
  etrans; [exact (ex_exec_works gu 2 _ _ _ _ eq_refl E2)|exact (ex_exec_works gu 3 _ _ _ _ eq_refl E3)].
Qed.

(** what an example computes of a run, of the world that it ends in *)
Lemma observed {A B} (f : A -> B) (o : option A) x b : o = Some x -> f <$> o = Some b -> f x = b.
Proof. by intros -> [= ->]. Qed.

(** the stored page reaches the client that waited, and the asset its own *)
Lemma answers_are_shareable_witness :
  exists w0 w req peers r, initial w0 /\ rtc ex_step w0 w /\
    ProxyAnswer req peers (Some r) ∈ w_answers w /\
    HeaderMap_get (resp_headers r) CACHE_STATUS = Some COALESCED /\
    (exists stored, cached_as (times page_app ex_bound) stored COALESCED r /\ shareable req stored) /\
    exists req filename fs r, AssetAnswer req filename fs (Some r) ∈ w_answers w /\
      asset_sent fs "/app" filename r.
Proof.
  pose proof ex_woken_coalesced as Hend.
  destruct ex_woken as [w'|] eqn:E; [|discriminate].
  apply (observed _ _ _ _ eq_refl), pair_equal_spec in Hend as [[Hlabels _]%pair_equal_spec _].
  destruct (ex_woken_Some w' E) as (w0 & w & H0 & Hrun & _ & Hwork).
  assert (rtc ex_step w0 w') as Hrun'.
  { etrans; [exact Hrun|]. eapply rtc_subrel; [by intros ? ?; apply world_works|exact (Hwork True)]. }
  destruct (answers_are_shareable page_app ideal_timer ex_collect ex_hash ex_mime "/app" ex_bound
    ex_collect_whole w0 w' H0 Hrun') as (_ & Hans & Hassets).
  unfold ex_labels in Hlabels.
  destruct (w_answers w') as [|[req peers [r|]|] answers] eqn:Ea; [discriminate| |discriminate..].
  destruct answers as [|[|areq filename fs [asset|]] answers]; [discriminate..| |discriminate].
  injection Hlabels as Hlabel _ _.
  destruct (Hans req peers r) as [_ Hshare]; [left|].
  exists w0, w', req, peers, r. split; [exact H0|]. split; [exact Hrun'|].
  split; [rewrite Ea; left|]. split; [exact Hlabel|].
  split; [apply (Hshare _ Hlabel); right; left|].
  exists areq, filename, fs, asset. split; [rewrite Ea; right; left|].
  apply (Hassets areq filename fs asset). right. left.
Defined.

(** the three requests end *)
Lemma work_ends_witness :
  exists w0 w w', initial w0 /\ rtc ex_step w0 w /\ length (w_threads w) = 3%nat /\
    ex_stuck 1 w = true /\ ~ crashes page_app ex_bound w /\ Acc (flip (ex_work True)) w /\
    rtc (ex_work True) w w' /\ w_threads w' = [] /\
    in_flight (sh_flights (w_shared w')) = ∅ /\ w_requests w' ≡ₚ map answers_to (w_answers w').
Proof.
  pose proof ex_woken_coalesced as Hend. pose proof ex_waiting_stuck as Hmid.
  destruct ex_woken as [w'|] eqn:E; [|discriminate Hend].
  destruct (ex_woken_Some w' E) as (w0 & w & H0 & Hrun & Ew & Hwork).
  apply (observed _ _ _ _ Ew), pair_equal_spec in Hmid as [[Hstuck _]%pair_equal_spec Hlen].
  apply (observed _ _ _ _ eq_refl), pair_equal_spec in Hend as [[_ Hnil]%pair_equal_spec Hg%N.ltb_lt].
  destruct (work_ends page_app ideal_timer ex_collect ex_hash ex_mime "/app" ex_bound ex_collect_whole ex_bounded
      w0 w H0 Hrun)
    as (Hsafe & Hacc & Hends).
  destruct (Hends w' (Hwork True)) as [[_ H]|[H|(Hths & Hfl & _ & _ & Hreq)]].
  - apply (no_thread_works page_app ideal_timer ex_collect ex_bound False w'), nil_length_inv, Hnil.
  - discriminate H.
  - destruct (proj2 (N.nle_gt _ _) Hg H).
  - exists w0, w, w'. split; [exact H0|]. split; [exact Hrun|]. split; [exact Hlen|].
    split; [exact Hstuck|]. split; [by apply Hsafe|]. split; [exact Hacc|].
    split; [exact (Hwork True)|]. split; [exact Hths|]. split; [exact Hfl|exact Hreq].
Defined.
