(* ===== verification/App.v ===== *)
(** The application around the proxy: the listeners ([src/tls.rs]), the state
    and the routes ([src/lib.rs]), and the start of the
    process ([src/main.rs]) from the configuration that [Config] reads, with
    the one case in which it panics. What
    the operating system, actix, rustls and [url] answer is a parameter. *)

From stdpp Require Import base tactics numbers option list gmap strings.
From Stdlib Require Import Ascii QArith.
From S2P Require Import Prelude RustStd Config Http Directives Policy Moka Store StoreInvariant Coalesce Upstream Body Metrics Response Tasks StoreTasks Reports.

Local Open Scope N_scope.

(** [std::io::Result] *)
Definition IoResult (Err A : Type) : Type := Err + A.

#[export] Instance IoResult_ret Err : MRet (IoResult Err) := fun A a => inr a.
#[export] Instance IoResult_bind Err : MBind (IoResult Err) := fun A B f m =>
  match m with inl e => inl e | inr a => f a end.

(** ** Listeners *)

Section listeners.
Context {Err Listener Cert PrivateKey ServerConfig : Type}.

(** [PrivateKeyDer::from_pem_reader] *)
Inductive PemKey :=
| PemKeyFound (key : PrivateKey)
| NoItemsFound
| PemInvalid.

(** what the operating system and rustls answer. the certificates are those
    that could be read, or [None] for a malformed one *)
Record TlsOps := {
  tcp_bind : string -> IoResult Err Listener;
  read_certs : string -> IoResult Err (option (list Cert));
  read_key : string -> IoResult Err PemKey;
  with_single_cert : list Cert -> PrivateKey -> IoResult string ServerConfig;
  invalid_input : string -> Err;
}.

Variable ops : TlsOps.

Definition load_rustls_config (cert_path key_path : string) : IoResult Err ServerConfig :=
  certs ← read_certs ops cert_path;
  cert_chain ← (match certs with
                | Some certs => inr certs
                | None => inl (invalid_input ops "invalid cert")
                end : IoResult Err (list Cert));
  key ← read_key ops key_path;
  key ← (match key with
         | PemKeyFound key => inr key
         | NoItemsFound => inl (invalid_input ops "No private keys found")
         | PemInvalid => inl (invalid_input ops "invalid key")
         end : IoResult Err PrivateKey);
  match with_single_cert ops cert_chain key with
  | inr config => inr config
  | inl e => inl (invalid_input ops e)
  end.

Definition bind_listeners (config : Config)
    : IoResult Err (Listener * option (Listener * ServerConfig)) :=
  http ← tcp_bind ops (listen_addr config);
  tls ← (match tls_cert_path config, tls_key_path config with
         | Some cert_path, Some key_path =>
             tls_config ← load_rustls_config cert_path key_path;
             listener ← tcp_bind ops (tls_listen_addr config);
             inr (Some (listener, tls_config))
         | _, _ => inr None
         end : IoResult Err (option (Listener * ServerConfig)));
  inr (http, tls).

(** The listeners follow the configuration. When both TLS paths are set,
    the process has an HTTPS listener with a configuration made from exactly
    those files, or does not start; when one is missing it serves HTTP only.
    There is never an HTTPS listener without its certificate and key, nor a
    start without the HTTP listener. *)
Theorem listeners_follow_config config http tls :
  bind_listeners config = inr (http, tls) ->
  tcp_bind ops (listen_addr config) = inr http /\
  (is_tls_enabled config = is_some tls) /\
  forall listener server_config, tls = Some (listener, server_config) ->
    tcp_bind ops (tls_listen_addr config) = inr listener /\
    exists cert_path key_path certs key,
      tls_cert_path config = Some cert_path /\ tls_key_path config = Some key_path /\
      read_certs ops cert_path = inr (Some certs) /\
      read_key ops key_path = inr (PemKeyFound key) /\
      with_single_cert ops certs key = inr server_config.
Proof.
  unfold bind_listeners, is_tls_enabled.
  destruct (tcp_bind ops (listen_addr config)) as [e|h] eqn:Eh; simpl; [done|].
  destruct (tls_cert_path config) as [cp|]; simpl; [|by intros [= <- <-]].
  destruct (tls_key_path config) as [kp|]; simpl; [|by intros [= <- <-]].
  unfold load_rustls_config.
  destruct (read_certs ops cp) as [e|[certs|]] eqn:Ec; simpl; try done.
  destruct (read_key ops kp) as [e|[key| |]] eqn:Ek; simpl; try done.
  destruct (with_single_cert ops certs key) as [e|sc] eqn:Es; simpl; [done|].
  destruct (tcp_bind ops (tls_listen_addr config)) as [e|l] eqn:El; simpl; [done|].
  intros [= <- <-]. split; [done|]. split; [done|]. intros ? ? [= <- <-].
  split; [done|]. by exists cp, kp, certs, key.
Qed.
End listeners.

(** ** Routes *)

Inductive Handler :=
| HealthCheck
| MetricsEndpoint
| ServeAsset (filename : string)
| ForwardToUpstream
| NotFoundHandler.

Section routes.
(** [resource_match pattern path]: the value of the pattern's tail, if the
    resource matches the path *)
Variable resource_match : string -> string -> option string.

(** a resource: its pattern, whether its guard asks for GET, and its handler *)
Record Resource := {
  pattern : string;
  get_only : bool;
  handler : string -> Handler;
}.

(** the first resource whose pattern and guard match *)
Fixpoint first_match (l : list Resource) (method path : string) : option Handler :=
  match l with
  | [] => None
  | r :: l =>
      match resource_match (pattern r) path with
      | Some tail =>
          if negb (get_only r) || String.eqb method GET then Some (handler r tail)
          else first_match l method path
      | None => first_match l method path
      end
  end.

Definition metrics_resource : Resource :=
  {| pattern := "/metrics"; get_only := true; handler := fun _ => MetricsEndpoint |}.

(** [app] *)
Definition app_resources (metrics_here : bool) : list Resource :=
  [{| pattern := "/health"; get_only := true; handler := fun _ => HealthCheck |}] ++
  (if metrics_here then [metrics_resource] else []) ++
  [{| pattern := "/assets/{filename:.*}"; get_only := true; handler := ServeAsset |};
   {| pattern := "/{path:.*}"; get_only := false; handler := fun _ => ForwardToUpstream |}].

(** [run_metrics] *)
Definition metrics_resources : list Resource := [metrics_resource].

Definition route (resources : list Resource) (method path : string) : Handler :=
  unwrap_or (first_match resources method path) NotFoundHandler.

(** a literal pattern matches its own path; a tail matches the rest *)
Hypothesis match_literal : forall lit path, lit ∈ ["/health"; "/metrics"]%string ->
  resource_match lit path = if String.eqb path lit then Some ""%string else None.
Hypothesis match_all : forall path, is_Some (resource_match "/{path:.*}" path).
Hypothesis match_assets : forall filename,
  resource_match "/assets/{filename:.*}" ("/assets/" +:+ filename) = Some filename.

(** Where a request goes. [GET /health], [GET] on an asset, and [GET
    /metrics] while the proxy's listeners serve it, have their own handlers;
    any other request, by its method or its path, is forwarded, and none is
    left without a handler. On a metrics listener of its own, only [GET
    /metrics] is answered and nothing reaches the proxy. *)
Theorem routing metrics_here method path :
  route (app_resources metrics_here) GET "/health" = HealthCheck /\
  route (app_resources metrics_here) GET "/metrics" =
    (if metrics_here then MetricsEndpoint
     else match resource_match "/assets/{filename:.*}" "/metrics" with
          | Some filename => ServeAsset filename
          | None => ForwardToUpstream
          end) /\
  (forall filename, route (app_resources metrics_here) GET ("/assets/" +:+ filename)
     = ServeAsset filename) /\
  (method <> GET -> route (app_resources metrics_here) method path = ForwardToUpstream) /\
  route (app_resources metrics_here) method path <> NotFoundHandler /\
  route metrics_resources method path =
    (if String.eqb path "/metrics" && String.eqb method GET then MetricsEndpoint
     else NotFoundHandler).
Proof.
  assert (forall method path, method <> GET ->
    first_match (app_resources metrics_here) method path = Some ForwardToUpstream) as Hother.
  { intros m p Hm%String.eqb_neq. unfold app_resources.
    destruct (match_all p) as [x Hx].
    destruct metrics_here; simpl; rewrite ?Hm, Hx; simpl; by repeat case_match. }
  assert (forall p, is_Some (first_match (app_resources metrics_here) GET p)) as Hget.
  { intros p. unfold app_resources. destruct (match_all p) as [x Hx].
    destruct metrics_here; simpl; rewrite Hx; repeat case_match; eauto. }
  pose proof (fun path => match_literal "/health" path (list_elem_of_here _ _)) as Hhealth.
  pose proof (fun path => match_literal "/metrics" path
    (list_elem_of_further _ _ _ (list_elem_of_here _ _))) as Hmetrics.
  clear match_literal. unfold route.
  split; [|split; [|split; [|split; [|split]]]].
  - unfold app_resources. destruct metrics_here; simpl; by rewrite Hhealth.
  - unfold app_resources. destruct (match_all "/metrics") as [x Hx].
    destruct metrics_here; simpl; rewrite Hhealth; simpl; [by rewrite Hmetrics|].
    destruct (resource_match "/assets/{filename:.*}" "/metrics"); [done|]. by rewrite Hx.
  - intros filename. specialize (match_assets filename).
    assert (String.eqb ("/assets/" +:+ filename)%string "/health" = false) as E1 by reflexivity.
    assert (String.eqb ("/assets/" +:+ filename)%string "/metrics" = false) as E2 by reflexivity.
    revert match_assets E1 E2. generalize ("/assets/" +:+ filename)%string as p.
    intros p Hp E1 E2. unfold app_resources.
    destruct metrics_here; simpl; rewrite ?Hhealth, ?Hmetrics, ?E1, ?E2, Hp; done.
  - intros Hm. by rewrite Hother.
  - destruct (decide (method = GET)) as [->|Hm]; [|by rewrite Hother].
    destruct (Hget path) as [h Hh]. rewrite Hh. simpl. revert Hh. unfold app_resources.
    destruct metrics_here; simpl; repeat case_match; congruence.
  - simpl. rewrite Hmetrics.
    destruct (String.eqb path "/metrics"); simpl; [|done]. by destruct (String.eqb method GET).
Qed.
End routes.

(** ** State *)

Section state.
Context `{Hops : HttpOps, Yops : HyperOps, Pops : PromOps,
  EntriesOps : !MokaOps Key Entry, IndexOps : !MokaOps PrimaryKey Index}.
Context {Err : Type}.

(** what [build_state] asks the system, rustls and [url] *)
Record StateOps := {
  create_dir_all : string -> IoResult Err unit;
  (** the HTTPS connector, with the system's root certificates *)
  https_connector : IoResult Err unit;
  url_parse : string -> option Url;
  invalid_url : string -> Err;
}.

(** the whole [AppState] *)
Record FullState := {
  st_shared : Shared;
  st_app : AppState;
  metrics_on_proxy_listeners : bool;
  asset_path : string;
}.

Definition build_state (ops : StateOps) (config : Config) : Run (IoResult Err FullState) :=
  match create_dir_all ops (config_asset_path config) with
  | inl e => Done (inl e)
  | inr _ =>
      match https_connector ops with
      | inl e => Done (inl e)
      | inr _ =>
          match url_parse ops (origin_url config) with
          | None => Done (inl (invalid_url ops (origin_url config)))
          | Some upstream_base_url =>
              metrics ← Metrics_new;
              cache ← Store_new (cache_size_mb config)
                (Duration_from_secs (cache_ttl_seconds config));
              Done (inr {|
                st_shared := {|
                  sh_cache := cache;
                  sh_flights := Flights_default;
                  sh_metrics := metrics |};
                st_app := {|
                  upstream_base_url := upstream_base_url;
                  upstream_timeout := Duration_from_secs (upstream_timeout_seconds config) |};
                metrics_on_proxy_listeners := is_none (metrics_addr config);
                asset_path := config_asset_path config |})
          end
      end
  end.
End state.

(** ** The process ([src/main.rs]) *)

Section main.
Context `{Hops : HttpOps, Yops : HyperOps, Pops : PromOps,
  EntriesOps : !MokaOps Key Entry, IndexOps : !MokaOps PrimaryKey Index}.
Context `{Cops : ClapOps} {Err Listener Cert PrivateKey ServerConfig : Type}.
Variable tls_ops : @TlsOps Err Listener Cert PrivateKey ServerConfig.
Variable state_ops : @StateOps Err.
(** [HttpServer::listen] and [listen_rustls_0_23]: whether actix can serve a
    bound listener *)
Variable listen : Listener -> IoResult Err unit.

(** a server that is about to run: its listeners, its resources, and how long
    it keeps an idle connection, [None] for as long as actix does *)
Record Server := {
  http_listener : Listener;
  tls_listener : option (Listener * ServerConfig);
  resources : list Resource;
  keep_alive : option Duration;
  workers : N;
}.

Definition run (state : FullState) (http : Listener) (tls : option (Listener * ServerConfig))
    (workers : N) : IoResult Err Server :=
  _ ← (listen http : IoResult Err unit);
  _ ← (match tls with Some (listener, _) => listen listener | None => inr tt end
       : IoResult Err unit);
  inr {| http_listener := http; tls_listener := tls;
         resources := app_resources (metrics_on_proxy_listeners state);
         keep_alive := Some (Duration_from_secs 75); workers := workers |}.

Definition run_metrics (listener : Listener) : IoResult Err Server :=
  _ ← (listen listener : IoResult Err unit);
  inr {| http_listener := listener; tls_listener := None; resources := metrics_resources;
         keep_alive := None; workers := 1 |}.

(** [main], up to where it awaits the servers. [parallelism] is
    [available_parallelism().ok()]. With [None], [Config::load] has printed
    what is wrong with the command line and ended the process *)
Definition main (invocation : Invocation) (parallelism : option N)
    : Run (option (IoResult Err (FullState * list Server))) :=
  match Config_load invocation with
  | None => Done None
  | Some config =>
      built ← build_state state_ops config;
      match built with
      | inl e => Done (Some (inl e))
      | inr state =>
          let num_workers := unwrap_or parallelism 1 in
          Done (Some (
            '(http, tls) ← (bind_listeners tls_ops config
              : IoResult Err (Listener * option (Listener * ServerConfig)));
            proxy ← run state http tls num_workers;
            match metrics_addr config with
            | None => inr (state, [proxy])
            | Some addr =>
                listener ← (tcp_bind tls_ops addr : IoResult Err Listener);
                metrics ← run_metrics listener;
                inr (state, [proxy; metrics])
            end))
      end
  end.

Context `{!PromLaws, !MokaLaws Key Entry, !MokaLaws PrimaryKey Index}.

(** the state that [build_state] makes for a configuration *)
Definition configured (config : Config) (state : FullState) : Prop :=
  url_parse state_ops (origin_url config) = Some (upstream_base_url (st_app state)) /\
  upstream_timeout (st_app state) = Duration_from_secs (upstream_timeout_seconds config) /\
  asset_path state = config_asset_path config /\
  metrics_on_proxy_listeners state = is_none (metrics_addr config) /\
  Store_new (cache_size_mb config) (Duration_from_secs (cache_ttl_seconds config))
    = Done (sh_cache (st_shared state)) /\
  sh_flights (st_shared state) = Flights_default /\
  Metrics_new = Done (sh_metrics (st_shared state)).

(** the lifetime of the index is within moka's limit up to 500 years *)
Lemma index_ttl_long secs :
  MAX_TIME_TO_LIVE < index_ttl (Duration_from_secs secs) <-> 15768000000 < secs.
Proof.
  unfold index_ttl, Duration_saturating_mul.
  assert (MAX_TIME_TO_LIVE < Duration_MAX) as Hmax by (vm_compute; reflexivity).
  unfold MAX_TIME_TO_LIVE, Duration_from_secs, NANOS in *. lia.
Qed.

(** the configuration gets as far as the state, whose index would live for more
    than moka's 1000 years *)
Definition too_long (config : Config) : Prop :=
  15768000000 < cache_ttl_seconds config /\ create_dir_all state_ops (config_asset_path config) = inr tt /\
  https_connector state_ops = inr tt /\ url_parse state_ops (origin_url config) <> None.

Lemma build_state_cases config :
  match build_state state_ops config with
  | Panic => too_long config
  | Done result =>
      ~ too_long config /\ forall state, result = inr state -> configured config state
  end.
Proof.
  unfold build_state, too_long.
  destruct (create_dir_all state_ops _) as [e|[]] eqn:Ed; simpl; [by split; [intros (_ & ? & _)|]|].
  destruct (https_connector state_ops) as [e|[]]; simpl; [by split; [intros (_ & _ & ? & _)|]|].
  destruct (url_parse state_ops _) as [base|] eqn:Eu; simpl; [|by split; [intros (_ & _ & _ & [])|]].
  destruct Metrics_new_spec as (m & Hm & _ & _). rewrite Hm. simpl.
  pose proof (Store_new_cases (cache_size_mb config)
    (Duration_from_secs (cache_ttl_seconds config))) as Hs.
  destruct (Store_new _ _) as [cache|] eqn:Es; simpl.
  - destruct Hs as [Hle _]. split; [|by intros state [= <-]].
    intros [Hlong%index_ttl_long _]. lia.
  - by split; [apply index_ttl_long|].
Qed.

Lemma run_inr state http tls n server :
  run state http tls n = inr server ->
  server = {| http_listener := http; tls_listener := tls;
              resources := app_resources (metrics_on_proxy_listeners state);
              keep_alive := Some (Duration_from_secs 75); workers := n |} /\
  listen http = inr tt /\ (forall l c, tls = Some (l, c) -> listen l = inr tt).
Proof.
  unfold run. destruct (listen http) as [|[]]; simpl; [done|].
  destruct tls as [[l c]|]; simpl; [destruct (listen l) as [|[]] eqn:El; simpl|]; [done|..];
    intros [= <-]; (split; [done|]); (split; [done|]); naive_solver.
Qed.

Lemma run_metrics_inr listener server :
  run_metrics listener = inr server ->
  server = {| http_listener := listener; tls_listener := None; resources := metrics_resources;
              keep_alive := None; workers := 1 |} /\ listen listener = inr tt.
Proof.
  unfold run_metrics. destruct (listen listener) as [|[]]; simpl; [done|]. by intros [= <-].
Qed.

(** the servers of a state that was built *)
Lemma servers_follow_config config state state' servers n :
  configured config state ->
  ('(http, tls) ← (bind_listeners tls_ops config
      : IoResult Err (Listener * option (Listener * ServerConfig)));
   proxy ← run state http tls n;
   match metrics_addr config with
   | None => inr (state, [proxy])
   | Some addr =>
       listener ← (tcp_bind tls_ops addr : IoResult Err Listener);
       metrics ← run_metrics listener;
       inr (state, [proxy; metrics])
   end) = inr (state', servers) ->
  exists config' http tls proxy, Some config = Some config' /\ configured config' state' /\
    bind_listeners tls_ops config' = inr (http, tls) /\
    proxy = {| http_listener := http; tls_listener := tls;
               resources := app_resources (is_none (metrics_addr config'));
               keep_alive := Some (Duration_from_secs 75); workers := n |} /\
    listen http = inr tt /\ (forall l c, tls = Some (l, c) -> listen l = inr tt) /\
    match metrics_addr config' with
    | None => servers = [proxy]
    | Some addr => exists listener, tcp_bind tls_ops addr = inr listener /\
        listen listener = inr tt /\
        servers = [proxy; {| http_listener := listener; tls_listener := None;
                             resources := metrics_resources; keep_alive := None;
                             workers := 1 |}]
    end.
Proof.
  intros Hbuilt Hrun.
  destruct (bind_listeners tls_ops config) as [e|[http tls]] eqn:Eb; simpl in Hrun; [done|].
  destruct (run state http tls _) as [e|proxy] eqn:Er; simpl in Hrun; [done|].
  apply run_inr in Er as (-> & Hl & Hltls).
  assert (metrics_on_proxy_listeners state = is_none (metrics_addr config)) as Hm by apply Hbuilt.
  rewrite Hm in *. exists config.
  destruct (metrics_addr config) as [addr|] eqn:Ea; simpl in *.
  - destruct (tcp_bind tls_ops addr) as [e|listener] eqn:El; simpl in Hrun; [done|].
    destruct (run_metrics listener) as [e|metrics] eqn:Em; simpl in Hrun; [done|].
    apply run_metrics_inr in Em as [-> Hlm]. injection Hrun as <- <-.
    exists http, tls. eexists. do 6 (split; [done|]). eauto.
  - injection Hrun as <- <-. exists http, tls. eexists. by do 6 (split; [done|]).
Qed.

(** C34. A process that starts is the one that was configured. It ends with
    clap's message exactly when the command line and the environment give no
    configuration, and it panics exactly when it gets as far as the cache and
    the cache TTL is above 500 years of 365 days, because moka's [build] refuses
    an index that lives for twice that; starting panics in no other case. When
    it starts, the cache, the upstream timeout and the asset directory have the
    configured values, and no request is in flight; every listener is being
    listened on; [/metrics] is served on exactly one kind of listener, the
    proxy's own unless an address for it is set; and there is no server beyond
    the proxy and, with that address, the metrics server. *)
Theorem main_follows_config invocation parallelism :
  match main invocation parallelism with
  | Panic => exists config, Config_load invocation = Some config /\ too_long config
  | Done result =>
      (forall config, Config_load invocation = Some config -> ~ too_long config) /\
      (result = None <-> Config_load invocation = None) /\
      forall state servers, result = Some (inr (state, servers)) ->
      exists config http tls proxy, Config_load invocation = Some config /\
        configured config state /\
        bind_listeners tls_ops config = inr (http, tls) /\
        proxy = {| http_listener := http; tls_listener := tls;
                   resources := app_resources (is_none (metrics_addr config));
                   keep_alive := Some (Duration_from_secs 75);
                   workers := unwrap_or parallelism 1 |} /\
        listen http = inr tt /\ (forall l c, tls = Some (l, c) -> listen l = inr tt) /\
        match metrics_addr config with
        | None => servers = [proxy]
        | Some addr => exists listener, tcp_bind tls_ops addr = inr listener /\
            listen listener = inr tt /\
            servers = [proxy; {| http_listener := listener; tls_listener := None;
                                 resources := metrics_resources; keep_alive := None;
                                 workers := 1 |}]
        end
  end.
Proof.
  unfold main. destruct (Config_load invocation) as [config|]; [|by split].
  pose proof (build_state_cases config) as Hbuilt.
  destruct (build_state state_ops config) as [built|]; simpl; [|by exists config].
  destruct Hbuilt as [Hlong Hbuilt].
  destruct built as [e|state]; simpl; (split; [by intros ? [= <-]|]); (split; [done|]); [done|].
  specialize (Hbuilt _ eq_refl). intros state' servers [= Hrun]. by eapply servers_follow_config.
Qed.

(** C39. The process does not start with a cache TTL above 500 years, which the
    configuration accepts as it accepts any 64-bit number: [Store::new] builds
    an index that lives for twice the TTL, and moka's [build] panics. *)
Theorem long_ttl_panics invocation parallelism config :
  Config_load invocation = Some config -> 15768000000 < cache_ttl_seconds config ->
  create_dir_all state_ops (config_asset_path config) = inr tt ->
  https_connector state_ops = inr tt -> url_parse state_ops (origin_url config) <> None ->
  main invocation parallelism = Panic.
Proof.
  intros Hload Hlong Hdir Htls Hurl. pose proof (build_state_cases config) as Hbuilt.
  unfold main. rewrite Hload. destruct (build_state state_ops config); [|done].
  by destruct Hbuilt as [[] _].
Qed.
End main.

(** ** The hit ratio *)

Section hit_ratio.
Context `{Hops : HttpOps, Yops : HyperOps, Pops : PromOps,
  EntriesOps : !MokaOps Key Entry, IndexOps : !MokaOps PrimaryKey Index}.
Context `{!PromLaws}.

Definition responses_counted (l : list MetricEvent) : N :=
  tally (fun e => match e with Observed _ _ _ => true | _ => false end) l.

(** what the report takes for a response whose body came from the cache *)
Definition reused (e : MetricEvent) : bool :=
  observed_any HIT e || is_revalidation e || observed_any STALE e || observed_any COALESCED e.

Lemma from_cache_total_spec l m :
  counted m l -> N.of_nat (length l) <= u64_MAX ->
  exists counts m', cache_counts m = Done (counts, m') /\
    from_cache_total counts = (tally reused l, tally reused l + tally missed l).
Proof.
  intros Hm Hl. destruct (cache_counts_spec m l Hm Hl) as (m' & Hc & _).
  eexists _, m'. split; [exact Hc|]. unfold from_cache_total. simpl.
  destruct (tally_disjoint (observed_any HIT) is_revalidation l) as [E1 L1].
  { intros [[] c st|? ? ?|? ?|?| | |]; unfold observed_any; simpl; try done;
      destruct (String.eqb c HIT); done. }
  destruct (tally_disjoint (fun e => observed_any HIT e || is_revalidation e)
    (observed_any STALE) l) as [E2 L2].
  { intros [[] c st|? ? ?|? ?|?| | |]; unfold observed_any; simpl; try done;
      destruct (String.eqb_spec c STALE) as [->|]; rewrite ?andb_false_r; done. }
  destruct (tally_disjoint (fun e => observed_any HIT e || is_revalidation e || observed_any STALE e)
    (observed_any COALESCED) l) as [E3 L3].
  { intros [[] c st|? ? ?|? ?|?| | |]; unfold observed_any; simpl; try done;
      destruct (String.eqb_spec c COALESCED) as [->|]; rewrite ?andb_false_r; done. }
  destruct (tally_disjoint reused missed l) as [E4 L4].
  { intros [[] c st|? ? ?|? ?|?| | |]; unfold reused, missed, observed_any; simpl; try done;
      destruct (String.eqb_spec c MISS) as [->|]; try done;
      destruct (String.eqb_spec c BYPASS) as [->|]; rewrite ?andb_false_r; done. }
  unfold reused in *.
  rewrite (u64_add_small (tally (observed_any HIT) l)), E1 by lia.
  rewrite (u64_add_small _ (tally (observed_any STALE) l)), E2 by lia.
  rewrite (u64_add_small _ (tally (observed_any COALESCED) l)), E3 by lia.
  by rewrite u64_add_small by lia.
Qed.

(** the report after these events, whatever is stored and in flight *)
Definition reports (l : list MetricEvent) (ratio : Q) : Prop :=
  exists m0 m, Metrics_new = Done m0 /\ count_events l m0 = Done m /\
    forall c sh, sh_metrics sh = m ->
    exists health sh', result c health_check sh = Done (Some health, sh') /\
      hit_ratio health = ratio.

Lemma reports_ratio l :
  N.of_nat (length l) <= u64_MAX -> 0 < tally missed l ->
  reports l ((Z.of_N (tally reused l) # 1) / (Z.of_N (tally reused l + tally missed l) # 1)).
Proof.
  intros Hl Hmiss. destruct Metrics_new_spec as (m0 & Hnew & Hm0 & _).
  destruct (count_events_spec l m0 [] Hm0) as (m & Hrun & Hm); [done|].
  destruct (from_cache_total_spec l m Hm Hl) as (counts & m' & Hc & Htotal).
  exists m0, m. do 2 (split; [done|]). intros c sh <-.
  destruct (result_health_check c sh _ _ Hc) as (health & sh' & Hr & _ & Hratio).
  exists health, sh'. split; [exact Hr|]. rewrite Hratio. unfold hit_ratio_of. rewrite Htotal.
  by destruct (N.ltb_spec 0 (tally reused l + tally missed l)); [|lia].
Qed.

Lemma ratio_increases (a b : N) :
  0 < b ->
  ((Z.of_N a # 1) / (Z.of_N (a + b) # 1) < (Z.of_N (a + 1) # 1) / (Z.of_N (a + 1 + b) # 1))%Q.
Proof.
  intros Hb.
  assert (0 < (Z.of_N (a + b) # 1))%Q by (unfold Qlt; simpl; lia).
  assert (0 < (Z.of_N (a + 1 + b) # 1))%Q by (unfold Qlt; simpl; lia).
  apply Qlt_shift_div_l; [done|].
  setoid_replace ((Z.of_N a # 1) / (Z.of_N (a + b) # 1) * (Z.of_N (a + 1 + b) # 1))%Q
    with ((Z.of_N a # 1) * (Z.of_N (a + 1 + b) # 1) / (Z.of_N (a + b) # 1))%Q
    using relation Qeq by (field; by apply Qnot_eq_sym, Qlt_not_eq).
  apply Qlt_shift_div_r; [done|]. unfold Qlt, Qmult; simpl. nia.
Qed.

(** C40. The hit ratio is not the share of responses whose body came from the
    cache. After any traffic with a miss in it, the 304 of a background
    revalidation raises the ratio that the health report gives, although it
    answered no request and the number of responses is what it was. *)
Theorem hit_ratio_counts_background l elapsed :
  N.of_nat (length l) + 2 <= u64_MAX -> 0 < tally missed l ->
  let l' := l ++ [OriginResponded Background 304 elapsed; Revalidation] in
  responses_counted l' = responses_counted l /\
  exists ratio ratio', reports l ratio /\ reports l' ratio' /\ (ratio < ratio')%Q.
Proof.
  cbv zeta. set (extra := [_; _]). intros Hl Hmiss.
  assert (tally reused (l ++ extra) = tally reused l + 1) as Er by apply tally_app.
  assert (tally missed (l ++ extra) = tally missed l) as Em
    by (rewrite tally_app; apply N.add_0_r).
  split; [unfold responses_counted; rewrite tally_app; apply N.add_0_r|].
  eexists _, _. split; [apply reports_ratio; [lia|done]|].
  split; [apply (reports_ratio (l ++ extra)); [rewrite length_app; simpl; lia|by rewrite Em]|].
  rewrite Er, Em. by apply ratio_increases.
Qed.

End hit_ratio.

(** what the workers count for one miss and one response that is served stale,
    before its background revalidation ends *)
Definition stale_traffic : list MetricEvent :=
  [OriginResponded Foreground 200 5; Observed Proxy MISS 200;
   BackgroundRefresh; Observed Proxy STALE 200].

Lemma hit_ratio_counts_background_witness :
  responses_counted stale_traffic = 2 /\ tally reused stale_traffic = 1 /\
  exists ratio', reports (stale_traffic ++ [OriginResponded Background 304 5; Revalidation]) ratio' /\
    exists ratio, reports stale_traffic ratio /\ (ratio < ratio')%Q.
Proof.
  split; [reflexivity|]. split; [reflexivity|].
  destruct (hit_ratio_counts_background stale_traffic 5) as (_ & r & r' & H & H' & Hlt).
  - vm_compute. discriminate.
  - reflexivity.
  - by exists r'; split; [|exists r].
Defined.

(** ** Examples *)

Definition ex_tls_ops : @TlsOps string string string string string := {|
  tcp_bind a := inr a;
  read_certs p := inr (Some [p]);
  read_key p := inr (PemKeyFound p);
  with_single_cert certs key := inr key;
  invalid_input m := m |}.

Definition ex_state_ops : @StateOps string := {|
  create_dir_all _ := inr tt; https_connector := inr tt;
  url_parse u := Some {| after_path := u; host_str := None; port_or_known_default := None |};
  invalid_url u := u |}.

Definition ex_config : Config := {|
  origin_url := "http://origin/"; listen_addr := "0.0.0.0:8080";
  config_asset_path := "/app/assets"; cache_ttl_seconds := 300; cache_size_mb := 100;
  tls_cert_path := Some "cert.pem"%string; tls_key_path := Some "key.pem"%string;
  tls_listen_addr := "0.0.0.0:8443"; upstream_timeout_seconds := 30;
  metrics_addr := Some "127.0.0.1:9090"%string |}.

Lemma listeners_follow_config_witness :
  is_tls_enabled ex_config = true /\
  exists certs key, read_certs ex_tls_ops "cert.pem" = inr (Some certs) /\
    read_key ex_tls_ops "key.pem" = inr (PemKeyFound key).
Proof.
  destruct (listeners_follow_config ex_tls_ops ex_config "0.0.0.0:8080"
    (Some ("0.0.0.0:8443", "key.pem"))%string eq_refl) as (_ & Hon & Htls).
  split; [exact Hon|].
  destruct (Htls _ _ eq_refl) as (_ & cp & kp & certs & key & Hcp & Hkp & Hc & Hk & _).
  injection Hcp as <-. injection Hkp as <-. exists certs, key. split; [exact Hc|exact Hk].
Defined.

Definition ex_resource_match (pattern path : string) : option string :=
  if String.eqb pattern "/{path:.*}" then Some path
  else if String.eqb pattern "/assets/{filename:.*}" then
    if String.prefix "/assets/" path
    then Some (String.substring 8 (String.length path - 8) path) else None
  else if String.eqb path pattern then Some ""%string else None.

Lemma substring_all s : String.substring 0 (String.length s) s = s.
Proof. induction s as [|c s IH]; simpl; [done|]. by rewrite IH. Qed.

Lemma prefix_empty s : String.prefix "" s = true.
Proof. by destruct s. Qed.

Lemma ex_match_assets filename :
  ex_resource_match "/assets/{filename:.*}" ("/assets/" +:+ filename) = Some filename.
Proof.
  change (ex_resource_match "/assets/{filename:.*}" ("/assets/" +:+ filename)) with
    (if String.prefix "" filename
     then Some (String.substring 0 (String.length filename - 0) filename) else None).
  by rewrite prefix_empty, Nat.sub_0_r, substring_all.
Qed.

Lemma ex_match_literal lit path : lit ∈ ["/health"; "/metrics"]%string ->
  ex_resource_match lit path = if String.eqb path lit then Some ""%string else None.
Proof.
  intros [->|[->|Hin%elem_of_nil]%elem_of_cons]%elem_of_cons; reflexivity || done.
Qed.

Lemma routing_witness :
  route ex_resource_match (app_resources false) "POST" "/health" = ForwardToUpstream.
Proof.
  apply (routing ex_resource_match ex_match_literal (fun path => mk_is_Some _ path eq_refl)
    ex_match_assets). discriminate.
Defined.

(** the process started by [ORIGIN_URL=http://origin:3000 shadowstep
    --cache-size-mb 50], where the system agrees to everything *)
Definition ex_main : Run (option (IoResult string (FullState * list Server))) :=
  main (EntriesOps := RefMoka Key Entry) (IndexOps := RefMoka PrimaryKey Index)
    ex_tls_ops ex_state_ops (fun _ => inr tt) (ex_invocation "50") None.

Definition started {St Srv} (run : Run (option (IoResult string (St * Srv)))) : bool :=
  match run with Done (Some (inr _)) => true | _ => false end.

Lemma started_inv {St Srv} (run : Run (option (IoResult string (St * Srv)))) result :
  started run = true -> run = Done result -> exists state servers, result = Some (inr (state, servers)).
Proof. intros H ->. destruct result as [[|[]]|]; try discriminate H. eauto. Qed.

(** [shadowstep --origin-url http://origin:3000 --cache-ttl-seconds n] *)
Definition ex_long_invocation (n : string) : Invocation := {|
  flag := fun l => if String.eqb l "origin-url" then Some "http://origin:3000"%string
                   else if String.eqb l "cache-ttl-seconds" then Some n else None;
  variable := fun _ => None |}.

(** one second more than 500 years *)
Lemma long_ttl_panics_witness :
  main (EntriesOps := RefMoka Key Entry) (IndexOps := RefMoka PrimaryKey Index)
    ex_tls_ops ex_state_ops (fun _ => inr tt) (ex_long_invocation "15768000001") None = Panic.
Proof.
  destruct (Config_load (ex_long_invocation "15768000001")) as [config|] eqn:E;
    [|vm_compute in E; discriminate E].
  apply (long_ttl_panics _ _ _ _ _ config E); try reflexivity; [|discriminate].
  assert (cache_ttl_seconds <$> Config_load (ex_long_invocation "15768000001") = Some 15768000001)
    as Httl by (vm_compute; reflexivity).
  rewrite E in Httl. injection Httl as ->. vm_compute. reflexivity.
Defined.

(** with 500 years to the second the process starts *)
Example ex_longest_starts :
  started (main (EntriesOps := RefMoka Key Entry) (IndexOps := RefMoka PrimaryKey Index)
    ex_tls_ops ex_state_ops (fun _ => inr tt) (ex_long_invocation "15768000000") None) = true.
Proof. vm_compute. reflexivity. Qed.

Lemma main_follows_config_witness :
  exists state server, ex_main = Done (Some (inr (state, [server]))) /\
    upstream_timeout (st_app state) = Duration_from_secs 30 /\
    http_listener server = "0.0.0.0:8080"%string /\ tls_listener server = None.
Proof.
  pose proof (main_follows_config (EntriesOps := RefMoka Key Entry)
    (IndexOps := RefMoka PrimaryKey Index) ex_tls_ops ex_state_ops (fun _ => inr tt)
    (ex_invocation "50") None) as Hmain.
  change (main _ _ _ (ex_invocation "50") None) with ex_main in Hmain.
  assert (started ex_main = true) as Hstarted by (vm_compute; reflexivity).
  destruct ex_main as [result|]; [|discriminate Hstarted].
  destruct Hmain as (_ & _ & Hstart).
  destruct (started_inv _ result Hstarted eq_refl) as (state & servers & E).
  destruct (Hstart state servers E) as (c & http & tls & proxy & Hc & Hconf & Hb & Hp & _ & _ & Hs).
  assert (Config_load (ex_invocation "50") = Some {|
    origin_url := "http://origin:3000"; listen_addr := "0.0.0.0:8080";
    config_asset_path := "/app/assets"; cache_ttl_seconds := 300; cache_size_mb := 50;
    tls_cert_path := None; tls_key_path := None; tls_listen_addr := "0.0.0.0:8443";
    upstream_timeout_seconds := 30; metrics_addr := None |}) as Hload by (vm_compute; reflexivity).
  rewrite Hload in Hc. injection Hc as <-. injection Hb as <- <-.
  exists state, proxy. simpl in Hs. subst.
  split; [reflexivity|]. split; [apply Hconf|]. split; reflexivity.
Defined.
