(* ===== verification/UnitTests.v ===== *)
(** The program's own unit tests, on its model. Each test of the [tests]
    modules of [src/cache.rs], [src/coalesce.rs], [src/forwarded.rs],
    [src/assets.rs] and [src/metrics.rs] is a boolean, with the source's names
    and inputs, and [unit_tests_pass] evaluates them all: the definitions that
    the theorems are about compute what the program's authors expect. The tests
    run on the reference implementations of the interfaces. Those of
    [src/tls.rs] test rustls on key files and are left out. *)

From stdpp Require Import base tactics numbers option list gmap strings.
From Stdlib Require Import Ascii.
From S2P Require Import Prelude RustStd Http Directives Policy Moka Store Examples Coalesce Upstream Body Metrics Response Assets Tasks ProxyExamples AssetTasks.

Local Open Scope N_scope.

(** [assert_eq!] *)
Definition assert_eq {A} `{EqDecision A} (a b : A) : bool := bool_decide (a = b).

(** a string in quotes *)
Definition quoted (s : string) : string :=
  String dquote (s +:+ String dquote "").

(** ** [src/cache.rs] *)

Module CacheTests.
Definition directives (value : string) : Directives := Directives_parse [value].

Definition directive_names_ignore_case_and_space : bool :=
  let d := directives " Public , MAX-AGE=60" in
  has d "public" && assert_eq (seconds d "max-age") (Some (Duration_from_secs 60)).

Definition quoted_commas_do_not_split_directives : bool :=
  let d := directives ("no-cache=" +:+ quoted "set-cookie, x-foo" +:+ ", max-age=5") in
  has d "no-cache" && negb (has d ("x-foo" +:+ String dquote "")) &&
  assert_eq (seconds d "max-age") (Some (Duration_from_secs 5)).

Definition invalid_delta_seconds_is_zero : bool :=
  assert_eq (seconds (directives "max-age=abc") "max-age") (Some Duration_ZERO) &&
  assert_eq (seconds (directives "max-age=-1") "max-age") (Some Duration_ZERO) &&
  assert_eq (seconds (directives "max-age") "max-age") (Some Duration_ZERO).

Definition first_duplicate_directive_wins : bool :=
  let d := directives "max-age=5, max-age=500" in
  assert_eq (seconds d "max-age") (Some (Duration_from_secs 5)).

Definition huge_delta_seconds_saturates : bool :=
  let d := directives "max-age=99999999999999999999999" in
  assert_eq (seconds d "max-age") (Some (Duration_from_secs u64_MAX)).

Definition quoted_argument_is_unquoted : bool :=
  let d := directives ("max-age=" +:+ quoted "7") in
  assert_eq (seconds d "max-age") (Some (Duration_from_secs 7)).

Definition not_modified_fields_replace_stored_fields_of_the_same_name : bool :=
  let stored := [("x-version", "1"); ("cache-control", "max-age=1"); ("x-version", "1b");
                 ("etag", quoted "v1")]%string in
  let update := [("cache-control", "max-age=60"); ("x-new", "yes")]%string in
  assert_eq (updated_fields stored update)
    [("x-version", "1"); ("x-version", "1b"); ("etag", quoted "v1");
     ("cache-control", "max-age=60"); ("x-new", "yes")]%string.

Definition non_ascii_field_value_is_malformed : bool :=
  match HeaderValue_from_bytes ("max-age=60, " +:+ String (ascii_of_N 255) "") with
  | Some value => malformed (Directives_parse [value])
  | None => false
  end.

Definition all : list bool := [
  directive_names_ignore_case_and_space; quoted_commas_do_not_split_directives;
  invalid_delta_seconds_is_zero; first_duplicate_directive_wins; huge_delta_seconds_saturates;
  quoted_argument_is_unquoted; not_modified_fields_replace_stored_fields_of_the_same_name;
  non_ascii_field_value_is_malformed].
End CacheTests.

(** ** [src/coalesce.rs] *)

Module CoalesceTests.
Abbreviation Flights := (@Flights string _ _) (only parsing).
Abbreviation Guard := (@FlightGuard string) (only parsing).

(** a part of a test, which fails with [None] *)
Definition lead (key : string) (flights : Flights) : option (Guard * Flights) :=
  match join key true flights with
  | (Lead guard, flights) => Some (guard, flights)
  | _ => None
  end.

Definition follow (key : string) (flights : Flights) : option (Waiter * Flights) :=
  match join key true flights with
  | (Follow waiter, flights) => Some (waiter, flights)
  | _ => None
  end.

(** whether the wait ends within its time, in which nothing else happens *)
Definition wait_released (waiter : Waiter) (flights : Flights) : bool := wait_returns waiter flights.

Definition followers_wait_until_the_guard_drops : bool :=
  default false (
    '(guard, flights) ← lead "a" Flights_default;
    '(first, flights) ← follow "a" flights;
    let still_waits := negb (wait_released first flights) in
    '(waiter, flights) ← follow "a" flights;
    let flights := drop_guard guard flights in
    Some (still_waits && wait_released waiter flights)).

Definition a_follower_that_waits_after_the_guard_dropped_is_released : bool :=
  default false (
    '(guard, flights) ← lead "a" Flights_default;
    '(waiter, flights) ← follow "a" flights;
    let flights := drop_guard guard flights in
    Some (wait_released waiter flights)).

Definition the_next_request_leads_once_the_flight_ends : bool :=
  default false (
    '(guard, flights) ← lead "a" Flights_default;
    let flights := drop_guard guard flights in
    _ ← lead "a" flights;
    Some true).

Definition keys_have_separate_flights : bool :=
  default false (
    '(_, flights) ← lead "a" Flights_default;
    _ ← lead "b" flights;
    Some true).

Definition a_request_that_may_not_lead_goes_alone : bool :=
  default false (
    flights ← (match join "a"%string false Flights_default with
               | (Alone, flights) => Some flights
               | _ => None
               end : option Flights);
    '(_, flights) ← lead "a" flights;
    match join "a"%string false flights with
    | (Follow _, _) => Some true
    | _ => None
    end).

Definition all : list bool := [
  followers_wait_until_the_guard_drops;
  a_follower_that_waits_after_the_guard_dropped_is_released;
  the_next_request_leads_once_the_flight_ends; keys_have_separate_flights;
  a_request_that_may_not_lead_goes_alone].
End CoalesceTests.

(** ** [src/forwarded.rs] *)

Module ForwardedTests.
Definition SPOOFED : Fields := [
  ("forwarded", "for=1.2.3.4;host=evil.example;proto=https");
  ("x-forwarded-for", "1.2.3.4");
  ("x-forwarded-host", "evil.example");
  ("x-forwarded-proto", "https")]%string.

(** [TestRequest::get().uri(..).to_http_request()] with these headers; actix's
    test configuration is not secure, on [localhost:8080] *)
Definition test_request (authority : option string) (headers : Fields) (peer : option string)
    : HttpRequest := {|
  req_method := GET; uri_authority := authority; uri_path_and_query := Some "/page"%string;
  req_headers := fold_left (fun m f => HeaderMap_insert (fst f) (snd f) m) headers HeaderMap_new;
  peer_ip := peer; app_secure := false; app_host := "localhost:8080" |}.

Definition ignores_forwarding_headers : bool :=
  let req := test_request None (SPOOFED ++ [("host", "real.example")]%string)
    (Some "192.0.2.7"%string) in
  let client := ClientInfo_from_request req in
  assert_eq (ip client) (Some "192.0.2.7"%string) &&
  assert_eq (Upstream.scheme client) "http"%string &&
  assert_eq (Upstream.host client) "real.example"%string.

Definition absolute_form_authority_wins_over_host_header : bool :=
  let req := test_request (Some "target.example"%string) [("host", "other.example")]%string None in
  assert_eq (Upstream.host (ClientInfo_from_request req)) "target.example"%string.

Definition missing_host_falls_back_to_the_listener_host : bool :=
  let req := test_request None SPOOFED None in
  assert_eq (Upstream.host (ClientInfo_from_request req)) "localhost:8080"%string.

Definition all : list bool := [ignores_forwarding_headers;
  absolute_form_authority_wins_over_host_header; missing_host_falls_back_to_the_listener_host].
End ForwardedTests.

(** ** [src/assets.rs] *)

Module AssetTests.
Definition SECRET : string := "secret contents outside the asset root".

(** the file system of [fixture()], with the symbolic link of the last test.
    paths that lead through [..] resolve as the kernel resolves them *)
Definition canonical (path : string) : option string :=
  if String.eqb path "/tmp/t/assets" then Some path
  else if String.eqb path "/tmp/t/assets/app.css" then Some path
  else if String.eqb path "/tmp/t/secret.txt" then Some path
  else if String.eqb path "/tmp/t/assets/../secret.txt" then Some "/tmp/t/secret.txt"%string
  else if String.eqb path "/tmp/t/assets/link.txt" then Some "/tmp/t/secret.txt"%string
  else None.

Definition fixture : Fs :=
  let file (path : string) : option Bytes :=
    if String.eqb path "/tmp/t/assets/app.css" then Some "body{}"%string
    else if String.eqb path "/tmp/t/secret.txt" then Some SECRET else None in
  {| canonicalize := canonical;
     fs_metadata := fun path => (fun c => (Some 0%Z, str_len c)) <$> file path;
     fs_read := file |}.

Definition calls : FsCalls := {| fs_canonical_root := fixture; fs_canonical_file := fixture;
  fs_meta := fixture; fs_content := fixture |}.

(** a request that is not answered fails every test *)
Definition get (filename : string) : StatusCode * Bytes :=
  match page_start <$> Store_new 100 (Duration_from_secs 300) with
  | Done (Some start) =>
      match run (page_env 0) (serve_asset ex_hash ex_mime calls "/tmp/t/assets" filename
              page_request) start with
      | Done (Some response, _) =>
          (resp_status response,
           match resp_body response with FullBody body => body | _ => ""%string end)
      | _ => (500, ""%string)
      end
  | _ => (500, ""%string)
  end.

(** the [filename] is what actix makes of the test's URI, percent-decoded *)
Definition assert_rejected (filename : string) : bool :=
  let '(status, body) := get filename in
  (assert_eq status NOT_FOUND || assert_eq status 400) && negb (assert_eq body SECRET).

Definition serves_asset_inside_root : bool :=
  let '(status, body) := get "app.css" in
  assert_eq status OK && assert_eq body "body{}"%string.

Definition missing_asset_is_not_found : bool :=
  let '(status, _) := get "missing.css" in assert_eq status NOT_FOUND.

Definition rejects_literal_dot_dot : bool := assert_rejected "../secret.txt".
Definition rejects_encoded_slash_dot_dot : bool := assert_rejected "../secret.txt".
Definition rejects_encoded_dots : bool := assert_rejected "../secret.txt".
Definition rejects_absolute_path : bool := assert_rejected "/tmp/t/secret.txt".
Definition rejects_symlink_out_of_root : bool := assert_rejected "link.txt".

Definition all : list bool := [serves_asset_inside_root; missing_asset_is_not_found;
  rejects_literal_dot_dot; rejects_encoded_slash_dot_dot; rejects_encoded_dots;
  rejects_absolute_path; rejects_symlink_out_of_root].
End AssetTests.

(** ** [src/metrics.rs] *)

Definition status_classes_cover_each_hundred : bool :=
  assert_eq (status_class 100) "1xx"%string && assert_eq (status_class 299) "2xx"%string &&
  assert_eq (status_class 304) "3xx"%string && assert_eq (status_class 404) "4xx"%string &&
  assert_eq (status_class 599) "5xx"%string && assert_eq (status_class 600) "other"%string.

(** The model passes the program's own unit tests: the eight of the cache
    policy, the five of request coalescing, the three of the client's identity,
    the seven of the assets and the one of the metrics. *)
Theorem unit_tests_pass :
  Forall (fun test => test = true)
    (CacheTests.all ++ CoalesceTests.all ++ ForwardedTests.all ++ AssetTests.all ++
     [status_classes_cover_each_hundred]).
Proof. repeat constructor. Qed.
